(* ===== verification/_CoqProject ===== *)
-Q . S2P
Prelude.v
StringUtils.v
ConstString.v
ConstStringFind.v
ConstStringHash.v
Logging.v
LockedQueue.v
TaskQueue.v
CacheLocks.v
FileCache.v
CacheEntries.v
CacheMigrate.v
CacheClean.v
CacheNames.v
BitReflect.v
SqVarint.v
SqText.v
SqHash.v
SqArith.v
SqAtoi.v
SqKeywords.v
SqTokens.v
SqPrint.v
CacheStatements.v
SqBitvec.v
SqRowset.v
SqSerial.v
SqReals.v
SqRecord.v
CacheRows.v
Messages.v
CacheFrame.v
CommandLines.v
CompilationDaemon.v
EmitterTasks.v
EmitterReplies.v
EmitterConf.v
Emitter.v
Absorber.v
LockedList.v
QueueAggregator.v
ProcessRun.v
Future.v
ClangCommand.v
ClientRun.v
ClientConf.v
Connection.v
EndToEnd.v
ThreadPool.v
EventLoop.v
EmitterShutdown.v
BaseDaemon.v
Coordinator.v
StatService.v
FileWalk.v
NetworkService.v
FilePosix.v
AbsorberSystem.v
