(* ===== verification/Prelude.v ===== *)
(** * dist-clang: a verification library

    dist-clang runs compilations on several machines and caches their results.
    A client stands in for the compiler and hands each compilation to the
    emitter, a daemon on the same machine.  The emitter answers from its cache,
    compiles locally, or preprocesses the source and sends it to an absorber on
    another machine, which has a cache of its own.  Coordinators tell emitters
    which absorbers there are.  The sources are C++ under [src/src]; the index
    of a cache lives in SQLite, whose amalgamation [src/src/cache/sqlite3.c] is
    part of the tree.

    ** Files

    This file: machine integers ([wrap], [swrap]), options and lists, the
    tactics and hint databases that the other files share.

    - [base/]: [StringUtils] (string_utils.h), [ConstString],
      [ConstStringFind], [ConstStringHash] (const_string.cc: ropes, the search,
      the hash), [Logging] (logging.cc and the merging of levels in
      compilation_daemon.cc), [LockedQueue] (locked_queue.h,
      locked_queue_index.h), [TaskQueue] (what daemons rely on of a queue, and
      that LockedQueue keeps to it), [QueueAggregator] (queue_aggregator.h),
      [LockedList] (locked_list.h), [Future] (future.h), [ProcessRun]
      (process_impl_linux.cc, process_impl.cc), [ThreadPool] (worker_pool.cc,
      thread_pool.cc), [FileWalk] (file_utils_posix.cc), [FilePosix]
      (file_posix.cc on inodes and names).
    - [cache/]: [CacheLocks] (the locks of file_cache.cc), [FileCache]
      (definitions of file_cache.cc, file_posix.cc and the SQLite index),
      [CacheEntries] (storing and finding), [CacheFrame] (what an operation
      leaves alone), [CacheMigrate] (file_cache_migrator.cc), [CacheClean] (the
      scan of Run and Clean), [CacheNames] (names and the scan),
      [CacheStatements] (the SQL text of database_sqlite.cc, as SQLite's tokenizer
      reads it), [CacheRows] (from that text to SQLite's records and the order
      of the two indices).
    - [cache/sqlite3.c]: [BitReflect] (a reflexive decision procedure for bit
      equations), [SqVarint] (util.c: varints), [SqText] (global.c, util.c:
      text), [SqHash] (hash.c), [SqArith] and [SqAtoi] (util.c: numbers),
      [SqKeywords] (keywordhash.h), [SqTokens] (tokenize.c), [SqPrint] (text
      that was put together, as it is read back; expr.c: literals), [SqBitvec]
      (bitvec.c), [SqRowset] (rowset.c), [SqSerial] (vdbeaux.c, vdbe.c: records),
      [SqReals] (vdbemem.c: doubles and integers), [SqRecord] (vdbeaux.c: the
      comparison of records).
    - [daemon/]: [Messages] (the .proto files), [CommandLines] and
      [CompilationDaemon] (compilation_daemon.cc), [EmitterTasks] (the bodies
      of the workers of emitter.cc), [EmitterReplies] (what OK means),
      [EmitterConf] (Check, Reload and a turn of DoPoll),
      [Emitter] (queues and workers as a state machine), [Absorber]
      (absorber.cc), [AbsorberSystem] (its queues, workers and end), [Coordinator]
      (coordinator.cc with the emitters that poll it), [EndToEnd] (client, emitter and absorber composed),
      [EmitterShutdown] (the end of an emitter), [BaseDaemon] (base_daemon.cc,
      the pool that Reload makes, clangd_main.cc).
    - [perf/]: [StatService] (stat_service.cc, counter.h, collector.cc).
    - [net/]: [Connection] (connection_impl.cc and the dispatch of
      event_loop_linux.cc), [NetworkService] (network_service_impl.cc, socket.cc,
      passive.cc, end_point.cc, the handles of base/file and the listening half
      of event_loop_linux.cc), [EventLoop] (event_loop.cc and the life of its
      threads).
    - [client/]: [ClangCommand] (the flags of a request, clang_command.cc),
      [ClientRun] (command.cc, driver_command.cc, clean_command.cc and
      [DoMain] of clang.cc), [ClientConf] (configuration.cc).

    A definition has the name of the function it translates.  An operation of a
    class takes the state of the class as a record and returns the new one.

    ** How the code is modelled

    - Integers are [Z] with the wrap-around of their width written out; sizes
      are 64 bits wide, as on the platforms the program is built for.
    - Bytes are [Z] in [[0, 256)]; a C string or a [std::string] is a list of
      them.  [ConstString], which shares blocks of memory, keeps its ropes;
      that collapsing a rope in place cannot be noticed is proved.
    - [None] as the result of a definition is behaviour the language leaves
      undefined, a failed CHECK, or an exhausted bound; the theorems say when
      it does not happen.  An inner [option] or [bool] is the code's own
      failure value.
    - Loops without a structural argument run on fuel.  The bounds are: the
      length of the input (strings, the tokens of a statement), 124 entries (a
      chain of keywords), twenty digits (a 64-bit number), the size of the table plus one
      (hash tables and bitmaps, whose probes wrap around), the depth of the
      tree of a bitmap ([BITVEC_FUEL] covers every size below 2^32), the forty
      buckets of the sort of a row set (enough for 2^40 operations), the number
      of tasks of the queue plus one (the redistribution of [Reload]), one turn
      per row (the cleaner), the nodes of a list (an append that is alone), the
      characters of the current directory (the walk to the root), one turn per
      directory (the walk over a tree), the answers of the kernel (accepting).
      For each the theorem of the component says that the bound is enough; a
      cleaner that spins on a locked entry is shown to do so.
    - The file system is a map from paths to contents.  Whether a system call
      succeeds is given by an [env]; the answers of processes, connections and
      remote daemons by a [world].  Theorems quantify over them, and name the
      failures they exclude.  A write can be short.
    - Concurrency is a step relation whose steps are the critical sections (and
      the parts of [Push] outside the lock); theorems are about every
      interleaving.  In [Emitter] a worker takes any task of its queue, so that
      the result holds for every order in which the queue serves them; in
      [AbsorberSystem] the threads work on the interface [TaskQueue], and the
      property is about [LockedQueue] behind it.  The
      operations of a network service run one at a time, between arbitrary
      changes of what the process owns besides.
    - What clang's driver and its option tables say about a command line is part
      of the arguments of [ClangCommand] and [ClientRun]; what compressed streams,
      [epoll] and [waitpid] answer is given to [Connection] and [ProcessRun].
      The other system calls of [net/] are programs over the table of open
      descriptors, in a state monad; each takes the kernel's next answer.
    - Third-party code is a parameter: the text form of manifests ([print],
      [parse], with the round trip as a hypothesis), snappy, the version of
      clang; LevelDB is a map whose [Set] may fail, the SQL table of the index is the list of its
      rows, which the queries of database_sqlite.cc filter and sort.
    - malloc in SQLite's modules is an argument that says which allocations
      fail; a double is its 64 bits, and its order and conversions are those of
      IEEE 754, written out; the parser that the tokenizer feeds is any function.

    ** What the theorems show

    - Cache: storing is all or nothing whatever write fails, as long as a manifest
      can be deleted ([Store_Find]); the direct cache leads to the right entry ([DirectCache], [Update_then_Search]); the
      cleaner keeps its accounts, ends and evicts the oldest entries
      ([Clean_spec]); old manifests keep their contents ([Migrate_spec]); names
      are total, depend on contents only and are recognised by the scan
      ([Hash_name], [Hash_contents]); a file has one writer or any readers
      ([locks_exclusive]); the statements around a name are read as the ones that were
      meant ([statements_read]), and a row that was set is read back, found by
      its name and ordered by its time ([index_rows]).
    - Queue: in every interleaving the index partitions the queue and no task is
      lost, duplicated or overtaken in its shard ([queue_invariant]); which task
      a pop takes ([Pop_pool_spec]); the aggregator of several queues fetches
      only for a pop that waits, and never blocks one ([aggregator_correct]).
    - [base/] and [net/]: the lock-free list is a queue under the discipline of
      its user ([append_pop]) and unsafe without it ([stale_tail_hint]); a
      promise is kept once ([promise_kept]); a process ends with exactly what it
      wrote ([Run_collects]); a connection carries one message and one reply,
      calls each callback once and is closed ([connection_protocol]), but the
      report of a failed read is lost ([failed_read_reply]); no descriptor is
      leaked, confused or left without its callback ([service_descriptors]); an event
      loop starts once and its threads end when it is stopped ([loop_life]); a
      thread pool runs what it accepts and its destructor ends ([pool_drains]);
      a walk visits every file once ([WalkDirectory_spec]); files are replaced,
      not changed, also by writers at the same time ([writes_atomic],
      [Link_spec]), and that is the write the cache is proved with
      ([Write_refines]).
    - Client: a request holds the words of the command line and the daemons get
      them in their order ([FillFlags_arguments]); a run does everything, or
      exits with the daemon's text, or leaves all to the original compiler
      ([DoMain_spec]); where the configuration comes from
      ([Configuration_spec]).
    - Daemons: the command lines and names of compilations
      ([argument_order], [cache_command_lines], [ParseDeps_roundtrip]); the
      choice of a compiler ([SetupCompiler_spec], [SetupCompiler_checked]); a
      request that the client counts as done has the object of its own source
      and command line on the disk ([done_means_compiled]); every request is in one place
      and answered once ([one_answer]) after a bounded number of handlings
      ([bounded_work]); OK means that the result is on the disk
      ([ok_means_delivered]); shards ([Check_sharding], [Reload_reshards]);
      emitter and absorber agree on names ([remote_hash_match]) and a cached
      answer is the compiler's ([repeated_request]); an emitter's requests are
      answered or dropped when it ends, and when it cannot end
      ([shutdown_spec]); an absorber answers its requests within its capacity and
      before it ends, on the queue as it is implemented ([absorber_serves], with the laws
      [locked_queue_laws]); emitters find the coordinator that works and then have its
      workers, or end on a host without threads ([polling_converges]); a new configuration replaces the old one as
      a whole ([Update_spec]); statistics add up ([Dump_accounts]).
    - SQLite's modules: the hash table is a map ([Hash_refines_map]), the bitmap
      a set ([Bitvec_refines_set]), and so is the row set ([Rowset_refines_set]);
      varints and quoting round trip, checked arithmetic and the reading of numbers
      are exact or refuse; the tokens are the text and the parser gets them all
      ([RunParser_spec]); records are read back ([MakeRecord_roundtrip]), in the order
      of their fields whichever comparison is chosen ([RecordCompare_spec]);
      reals become integers only when nothing is lost ([IntegerAffinity_spec]).
    - Where the code does not do what it means to, the theorem says what it
      does: [Size_underflow], [Clean_check_failure], [resent_for_ever],
      [verbosity_overflow], [tail_word_signedness], [Update_races],
      [Add_after_free], [Dump_twice], [scan_hides_entry], [long_path_once],
      [LocalHost_any], [timeout_negative], [shared_temporary_file], [fewer_fields],
      [mixed_not_transitive], [late_push], [stop_during_run],
      [stop_sleeps], [leftover_stderr], and clauses of [DirectCache],
      [ok_means_delivered], [Int64_checked], [relative_path], [poll_turn_spec],
      [shutdown_spec], [Update_spec], [WalkDirectory_spec], [RunParser_spec],
      [polling_converges].

    ** Simplifications

    - Permissions are left out, and so is the change of a file's owner, whose
      failure is only logged.  The cache sees files by their paths; inodes, hard
      links and temporary files are those of [FilePosix].
    - Statistics, log output and sleeping between attempts are left out of the
      daemons.
    - [fcntl] fails only on a descriptor that is not open; the debug table of used
      descriptors is left out.

    ** Not modelled

    - The wire format (protobuf, zlib), what the kernel and the resolver do, the
      code between fork and exec: behind the interfaces of the system and of
      third parties.
    - Parsing clangd's command line, daemonizing and signals; the macOS versions
      of files.
    - The rest of sqlite3.c (the parser's tables, the code generator and the virtual
      machine, the B-tree, the pager and the log, decimal text as a double, UTF-16):
      vendored, and reached by the cache only through the statements of
      [CacheStatements] and the records of [CacheRows].
    - The headers of LLVM under [build/] and the sources under [perf_test/]:
      vendored inputs of the build and of benchmarks.

    ** What could come next

    The queues of the emitter behind [TaskQueue] with shards, as those of the absorber
    are without; UTF conversion in sqlite3.c; the B-tree's cells, whose payloads
    are the records of [SqSerial]. *)

From stdpp Require Export base tactics option list numbers gmap strings sorting.
From Stdlib Require Export ZArith Lia.

#[local] Open Scope Z_scope.

(** ** Machine integers

    A [w]-bit unsigned integer is a [Z] in [0, 2^w); the source's arithmetic on
    it is the arithmetic of [Z] followed by [wrap].  [swrap] is the two's
    complement reading of the low [w] bits. *)

Definition wrap (w x : Z) : Z := x mod 2 ^ w.
Definition swrap (w x : Z) : Z := (x + 2 ^ (w - 1)) mod 2 ^ w - 2 ^ (w - 1).

Abbreviation u8 := (wrap 8) (only parsing).
Abbreviation u16 := (wrap 16) (only parsing).
Abbreviation u32 := (wrap 32) (only parsing).
Abbreviation u64 := (wrap 64) (only parsing).
Abbreviation i8 := (swrap 8) (only parsing).
Abbreviation i16 := (swrap 16) (only parsing).
Abbreviation i32 := (swrap 32) (only parsing).
Abbreviation i64 := (swrap 64) (only parsing).

Create HintDb word discriminated.
Create Rewrite HintDb word.
Create Rewrite HintDb bits.
Create Rewrite HintDb zlen.

Section Words.
  Context (w : Z) (Hw : 0 <= w).

Lemma wrap_range x : 0 <= wrap w x < 2 ^ w.
  Proof using Hw. apply Z.mod_pos_bound. lia. Qed.

Lemma wrap_small x : 0 <= x < 2 ^ w -> wrap w x = x.
  Proof using. apply Z.mod_small. Qed.

Lemma wrap_wrap x : wrap w (wrap w x) = wrap w x.
  Proof using Hw. unfold wrap. rewrite Z.mod_mod; lia. Qed.

Lemma wrap_add_l x y : wrap w (wrap w x + y) = wrap w (x + y).
  Proof using. unfold wrap. apply Zplus_mod_idemp_l. Qed.

Lemma wrap_add_r x y : wrap w (x + wrap w y) = wrap w (x + y).
  Proof using. unfold wrap. apply Zplus_mod_idemp_r. Qed.

Lemma wrap_sub_l x y : wrap w (wrap w x - y) = wrap w (x - y).
  Proof using. unfold wrap. apply Zminus_mod_idemp_l. Qed.

Lemma wrap_land_ones x : wrap w x = Z.land x (Z.ones w).
  Proof using Hw. unfold wrap. rewrite Z.land_ones; [done | lia]. Qed.

Lemma wrap_testbit x i : 0 <= i -> Z.testbit (wrap w x) i = (i <? w) && Z.testbit x i.
  Proof using Hw.
    intros Hi. rewrite wrap_land_ones, Z.land_spec, Z.testbit_ones by lia.
    destruct (Z.ltb_spec i w), (Z.leb_spec 0 i), (Z.testbit x i); simpl; lia || done.
  Qed.
End Words.

Lemma swrap_range w x : 0 < w -> - 2 ^ (w - 1) <= swrap w x < 2 ^ (w - 1).
Proof.
  intros Hw. unfold swrap.
  assert (2 ^ w = 2 * 2 ^ (w - 1)) as Hp
    by (replace w with (Z.succ (w - 1)) at 1 by lia; rewrite Z.pow_succ_r; lia).
  pose proof (Z.mod_pos_bound (x + 2 ^ (w - 1)) (2 ^ w) ltac:(lia)). lia.
Qed.

Lemma swrap_small w x : 0 < w -> - 2 ^ (w - 1) <= x < 2 ^ (w - 1) -> swrap w x = x.
Proof.
  intros Hw Hx. unfold swrap.
  assert (2 ^ w = 2 * 2 ^ (w - 1)) as Hp
    by (replace w with (Z.succ (w - 1)) at 1 by lia; rewrite Z.pow_succ_r; lia).
  rewrite Z.mod_small; lia.
Qed.

#[export] Hint Resolve wrap_range wrap_small : word.
#[export] Hint Rewrite wrap_wrap wrap_add_l wrap_add_r wrap_sub_l using lia : word.

(** ** Bit-level reasoning

    [bitwise] proves an equation between integers built from the bit
    operations, shifts and [wrap] by comparing every bit. *)

Lemma testbit_high n p i : 0 <= n < 2 ^ p -> p <= i -> Z.testbit n i = false.
Proof.
  intros Hn Hi. destruct (Z.eq_dec n 0) as [-> | Hz]; [apply Z.bits_0 |].
  apply Z.bits_above_log2; [lia |].
  apply Z.lt_le_trans with p; [| done]. apply Z.log2_lt_pow2; lia.
Qed.

#[export] Hint Rewrite Z.land_spec Z.lor_spec Z.lxor_spec Z.lnot_spec Z.shiftr_spec
  Z.shiftl_spec Z.bits_0 wrap_testbit using lia : bits.

Ltac bits_step :=
  match goal with
  | |- context [Z.testbit ?n ?i] =>
      first
        [ rewrite (Z.testbit_neg_r n i) by lia
        | match goal with
          | H : 0 <= n < 2 ^ ?p |- _ => rewrite (testbit_high n p i H) by lia
          | H : 0 <= n < _ |- _ => rewrite (testbit_high n 8 i) by (simpl; lia)
          end ]
  | |- context [?a <? ?b] =>
      first [ replace (a <? b) with true by (symmetry; apply Z.ltb_lt; lia)
            | replace (a <? b) with false by (symmetry; apply Z.ltb_ge; lia)
            | destruct (Z.ltb_spec a b) ]
  end.

(** ** Byte strings

    A byte is a [Z] in [0, 256); a C or C++ string is the list of its bytes. *)

Abbreviation bytes := (list Z) (only parsing).

Definition is_byte (z : Z) : Prop := 0 <= z < 256.
Definition bytes_ok (l : list Z) : Prop := Forall is_byte l.

#[export] Instance is_byte_dec z : Decision (is_byte z).
Proof. unfold is_byte. apply _. Defined.

(** A string literal of the source as its bytes. *)
Fixpoint lit (s : string) : list Z :=
  match s with
  | EmptyString => []
  | String c r => Z.of_N (Ascii.N_of_ascii c) :: lit r
  end.

Lemma lit_bytes_ok s : bytes_ok (lit s).
Proof.
  induction s as [|c s IH]; simpl; constructor; [| exact IH].
  unfold is_byte. pose proof (Ascii.N_ascii_bounded c). lia.
Qed.

(** What a C function reads of a string: the bytes before the first null. *)
Fixpoint until_nul (s : list Z) : list Z :=
  match s with [] => [] | c :: s => if c =? 0 then [] else c :: until_nul s end.

(** ** Lists indexed by [Z] *)

Definition Zlen {A} (l : list A) : Z := Z.of_nat (length l).
Definition Znth (l : list Z) (i : Z) : Z := nth (Z.to_nat i) l 0.

Lemma Zlen_nil {A} : Zlen (@nil A) = 0.
Proof. done. Qed.

Lemma Zlen_cons {A} (x : A) l : Zlen (x :: l) = Zlen l + 1.
Proof. unfold Zlen. simpl length. lia. Qed.

Lemma Zlen_app {A} (l k : list A) : Zlen (l ++ k) = Zlen l + Zlen k.
Proof. unfold Zlen. rewrite length_app. lia. Qed.

Lemma Zlen_nonneg {A} (l : list A) : 0 <= Zlen l.
Proof. unfold Zlen. lia. Qed.

#[export] Hint Rewrite @Zlen_nil @Zlen_cons @Zlen_app : zlen.
#[export] Hint Resolve Zlen_nonneg : core.

(** ** Filters *)

Lemma filter_ext_in {A} (P Q : A -> Prop) `{!forall x, Decision (P x), !forall x, Decision (Q x)}
    (l : list A) :
  (forall x, x ∈ l -> P x <-> Q x) -> filter P l = filter Q l.
Proof.
  intros Hl. induction l as [|x l IH]; [done |].
  pose proof (Hl x (list_elem_of_here _ _)) as Hx.
  rewrite !filter_cons, IH by (intros y Hy; apply Hl; by right).
  destruct (decide (P x)), (decide (Q x)); tauto.
Qed.

Lemma filter_all {A} (P : A -> Prop) `{!forall x, Decision (P x)} (l : list A) :
  (forall x, x ∈ l -> P x) -> filter P l = l.
Proof.
  intros Hl. induction l as [|x l IH]; [done |].
  rewrite filter_cons_True by (apply Hl; left). f_equal. apply IH. intros y Hy. apply Hl. by right.
Qed.

Lemma filter_none {A} (P : A -> Prop) `{!forall x, Decision (P x)} (l : list A) :
  (forall x, x ∈ l -> ~ P x) -> filter P l = [].
Proof.
  intros Hl. induction l as [|x l IH]; [done |].
  rewrite filter_cons_False by (apply Hl; left). apply IH. intros y Hy. apply Hl. by right.
Qed.

(** The tactics shared by the development: split a boolean condition of the
    source into its propositional reading. *)
Ltac bool_to_prop :=
  repeat match goal with
  | H : _ && _ = true |- _ => apply andb_prop in H as [? ?]
  | H : _ || _ = false |- _ => apply orb_false_elim in H as [? ?]
  | H : negb _ = true |- _ => apply negb_true_iff in H
  | H : negb _ = false |- _ => apply negb_false_iff in H
  | H : (_ <? _) = true |- _ => apply Z.ltb_lt in H
  | H : (_ <? _) = false |- _ => apply Z.ltb_ge in H
  | H : (_ <=? _) = true |- _ => apply Z.leb_le in H
  | H : (_ <=? _) = false |- _ => apply Z.leb_gt in H
  | H : (_ =? _) = true |- _ => apply Z.eqb_eq in H
  | H : (_ =? _) = false |- _ => apply Z.eqb_neq in H
  end.

Ltac case_if :=
  match goal with
  | |- context [if ?b then _ else _] =>
      lazymatch b with
      | context [if _ then _ else _] => fail
      | _ => let E := fresh "E" in destruct b eqn:E; bool_to_prop
      end
  end.
