(* ===== verification/StringUtils.v ===== *)
(** String helpers of [src/src/base/string_utils.h]: splitting, joining, hex
    output, replacement and regular-expression escaping.  The loops are the
    source's position loops; they are related to [fields], the list of the
    pieces of a string between the non-overlapping occurrences of a
    delimiter found from left to right. *)

From S2P Require Import Prelude.

#[local] Open Scope nat_scope.

(** ** [std::string] operations the helpers use *)

(** [std::string::find]: the least index at which [p] occurs in [s]. *)
Fixpoint find_sub (p s : list Z) : option nat :=
  if decide (p `prefix_of` s) then Some 0
  else match s with
       | [] => None
       | _ :: s' => S <$> find_sub p s'
       end.

(** [s.find(p, pos)]. *)
Definition find_from (p s : list Z) (pos : nat) : option nat :=
  if pos <=? length s then Nat.add pos <$> find_sub p (drop pos s) else None.

(** [s.substr(pos, n)]. *)
Definition substr (s : list Z) (pos n : nat) : list Z := take n (drop pos s).

(** ** The helpers *)

(** [SplitString(input, delimiter, tokens)]: the loop over the occurrences,
    with [prev] the start of the current piece and [i] the next occurrence.
    [None] is an exhausted bound on the number of iterations. *)
Fixpoint split_loop (fuel : nat) (delimiter input : list Z) (prev : nat) (i : option nat)
    (tokens : list (list Z)) : option (list (list Z)) :=
  match i with
  | None =>
      Some (if prev <? length input then tokens ++ [drop prev input] else tokens)
  | Some i =>
      match fuel with
      | 0 => None
      | S fuel =>
          let tokens := if prev <? i then tokens ++ [substr input prev (i - prev)] else tokens in
          let prev := i + length delimiter in
          split_loop fuel delimiter input prev (find_from delimiter input prev) tokens
      end
  end.

Definition SplitString (delimiter input : list Z) (tokens : list (list Z)) :=
  split_loop (S (length input)) delimiter input 0 (find_from delimiter input 0) tokens.

(** [SplitString<delimiter>], the template on a character. *)
Definition SplitString_char (delimiter : Z) (input : list Z) (tokens : list (list Z)) :=
  SplitString [delimiter] input tokens.

(** [std::getline] on a stream holding [s]: the line and the rest, [None] when
    the stream is at its end. *)
Definition getline (s : list Z) : option (list Z * list Z) :=
  match s with
  | [] => None
  | _ => match find_sub [10%Z] s with
         | Some i => Some (take i s, drop (S i) s)
         | None => Some (s, [])
         end
  end.

(** [SplitString<'\n'>], the specialisation on [std::getline]. *)
Fixpoint getline_loop (fuel : nat) (ss : list Z) (tokens : list (list Z))
    : option (list (list Z)) :=
  match getline ss with
  | None => Some tokens
  | Some (line, ss) =>
      match fuel with
      | 0 => None
      | S fuel => getline_loop fuel ss (match line with [] => tokens | _ => tokens ++ [line] end)
      end
  end.

Definition SplitString_nl (input : list Z) (tokens : list (list Z)) :=
  getline_loop (length input) input tokens.

(** [JoinString<delimiter>(begin, end)]. *)
Definition JoinString (delimiter : list Z) (l : list (list Z)) : list Z :=
  snd (fold_left (fun '(first, output) it =>
         (false, (if first : bool then output else output ++ delimiter) ++ it)) l (true, [])).

(** [Hexify]: two lower-case hexadecimal digits per byte. *)
Definition hex_digit (n : Z) : Z := (if n <? 10 then 48 + n else 87 + n)%Z.

Definition Hexify (binary : list Z) : list Z :=
  binary ≫= fun b => [hex_digit (b / 16); hex_digit (b mod 16)]%Z.

(** [Replace(input, replacee, replacer)], in place. *)
Fixpoint replace_loop (fuel : nat) (input replacee replacer : list Z) (pos : nat)
    : option (list Z) :=
  match find_from replacee input pos with
  | None => Some input
  | Some pos =>
      match fuel with
      | 0 => None
      | S fuel =>
          let input := take pos input ++ replacer ++ drop (pos + length replacee) input in
          replace_loop fuel input replacee replacer (pos + length replacer)
      end
  end.

Definition Replace (input replacee replacer : list Z) : option (list Z) :=
  replace_loop (S (length input)) input replacee replacer 0.

(** [EscapeRegex]: a backslash before each character of the class. *)
Definition regex_special : list Z := lit "){}[]()^$.|*+?\".

Definition EscapeRegex (str : list Z) : list Z :=
  str ≫= fun c => if decide (c ∈ regex_special) then [92; c]%Z else [c].

(** ** Reference: the pieces between the occurrences *)

Fixpoint fields_fuel (n : nat) (p s : list Z) : list (list Z) :=
  match n with
  | 0 => [s]
  | S n => match find_sub p s with
           | None => [s]
           | Some i => take i s :: fields_fuel n p (drop (i + length p) s)
           end
  end.

Definition fields (p s : list Z) : list (list Z) := fields_fuel (length s) p s.

Definition nonempty (l : list Z) : Prop := l <> [].

#[export] Instance nonempty_dec l : Decision (nonempty l).
Proof. destruct l; [right; intros H; by apply H | by left]. Defined.

(** [join r l]: the pieces of [l] with [r] between them. *)
Fixpoint join (r : list Z) (l : list (list Z)) : list Z :=
  match l with
  | [] => []
  | [x] => x
  | x :: l => x ++ r ++ join r l
  end.

(** ** Lemmas on [find_sub] *)

Lemma find_sub_Some p s i :
  find_sub p s = Some i <->
  p `prefix_of` drop i s /\ i <= length s /\ forall j, j < i -> ~ p `prefix_of` drop j s.
Proof.
  revert i. induction s as [|c s IH]; intros i; simpl.
  - case_decide as Hd; split.
    + intros [= <-]. split_and!; [done | lia | lia].
    + intros (_ & Hi & Hmin). f_equal. lia.
    + done.
    + intros (H & Hi & _). exfalso. destruct i; [by apply Hd | lia].
  - case_decide as Hd; split.
    + intros [= <-]. split_and!; [done | lia | lia].
    + intros (_ & _ & Hmin). destruct i; [done |]. exfalso. by apply (Hmin 0); [lia |].
    + intros (k & Hk & ->)%fmap_Some. apply IH in Hk as (H1 & H2 & H3).
      simpl. split_and!; [done | lia |]. intros [|j] Hj; [done |]. simpl. apply H3. lia.
    + intros (H1 & H2 & H3). destruct i as [|i]; [done |]. simpl in *.
      apply fmap_Some. exists i. split; [| done]. apply IH. split_and!; [done | lia |].
      intros j Hj. apply (H3 (S j)). lia.
Qed.

Lemma find_sub_None p s :
  find_sub p s = None <-> forall j, ~ p `prefix_of` drop j s.
Proof.
  induction s as [|c s IH]; simpl.
  - case_decide as Hd; split; try done.
    + intros H. destruct (H 0 Hd).
    + intros _ j. by rewrite drop_nil.
  - case_decide as Hd; split; try done.
    + intros H. destruct (H 0 Hd).
    + rewrite fmap_None. intros H [|j]; simpl; [done |]. by apply IH.
    + intros H. rewrite fmap_None. apply IH. intros j. apply (H (S j)).
Qed.

Lemma find_sub_bound p s i : find_sub p s = Some i -> i + length p <= length s.
Proof.
  intros (H & Hi & _)%find_sub_Some. apply prefix_length in H.
  rewrite length_drop in H. lia.
Qed.

Lemma find_from_Some p s pos :
  pos <= length s -> find_from p s pos = Nat.add pos <$> find_sub p (drop pos s).
Proof. intros H. unfold find_from. by rewrite (proj2 (Nat.leb_le _ _) H). Qed.

Lemma fields_fuel_enough p s n :
  p <> [] -> length s <= n -> fields_fuel n p s = fields p s.
Proof.
  intros Hp. unfold fields. remember (length s) as m eqn:Hm.
  assert (length s <= m) as Hs by lia. clear Hm. revert s n Hs.
  assert (length p <> 0) as Hlp by (by destruct p).
  induction m as [m IH] using lt_wf_ind. intros s n Hs Hn.
  destruct n as [|n], m as [|m]; try lia; simpl; try done.
  all: destruct (find_sub p s) as [i|] eqn:Hf; try done.
  - apply find_sub_bound in Hf. lia.
  - pose proof (find_sub_bound _ _ _ Hf). f_equal.
    apply IH; [lia | rewrite length_drop; lia | lia].
Qed.

Lemma fields_unfold p s :
  p <> [] ->
  fields p s = match find_sub p s with
               | None => [s]
               | Some i => take i s :: fields p (drop (i + length p) s)
               end.
Proof.
  intros Hp. unfold fields at 1. destruct (length s) as [|n] eqn:Hs; simpl.
  - apply nil_length_inv in Hs as ->. destruct (find_sub p []) as [i|] eqn:Hf; [| done].
    apply find_sub_bound in Hf. destruct p; simpl in Hf; [done | lia].
  - destruct (find_sub p s) as [i|] eqn:Hf; [| done]. f_equal.
    pose proof (find_sub_bound _ _ _ Hf). apply fields_fuel_enough; [done |].
    rewrite length_drop. destruct p; [done | simpl; lia].
Qed.

Lemma fields_nonnil p s : fields p s <> [].
Proof. unfold fields. destruct (length s); simpl; [done |]. by case_match. Qed.

Lemma filter_single_nonempty (l : list Z) :
  filter nonempty [l] = if 0 <? length l then [l] else [].
Proof. by destruct l. Qed.

Lemma filter_cons_nonempty (x : list Z) l :
  filter nonempty (x :: l) = (if 0 <? length x then [x] else []) ++ filter nonempty l.
Proof. by destruct x. Qed.

(** The loop started at [prev] appends the non-empty pieces of the rest. *)
Lemma split_loop_spec fuel p s prev tokens :
  p <> [] -> prev <= length s -> length s - prev < fuel ->
  split_loop fuel p s prev (find_from p s prev) tokens
  = Some (tokens ++ filter nonempty (fields p (drop prev s))).
Proof.
  intros Hp. revert prev tokens. induction fuel as [|fuel IH]; intros prev tokens Hprev Hfuel; [lia |].
  rewrite fields_unfold by done. rewrite find_from_Some by done.
  destruct (find_sub p (drop prev s)) as [i|] eqn:Hf; simpl.
  - pose proof (find_sub_bound _ _ _ Hf) as Hb. rewrite length_drop in Hb.
    assert (length p <> 0) by (by destruct p).
    rewrite IH by lia. rewrite drop_drop, Nat.add_assoc. f_equal.
    assert (substr s prev (prev + i - prev) = take i (drop prev s)) as ->
      by (unfold substr; f_equal; lia).
    rewrite filter_cons_nonempty, length_take, length_drop.
    destruct (Nat.ltb_spec prev (prev + i)), (Nat.ltb_spec 0 (i `min` (length s - prev))); try lia.
    + by rewrite <-app_assoc.
    + done.
  - rewrite filter_single_nonempty, length_drop.
    destruct (Nat.ltb_spec prev (length s)), (Nat.ltb_spec 0 (length s - prev)); try lia; [done |].
    by rewrite app_nil_r.
Qed.

Lemma SplitString_eq p s tokens :
  p <> [] -> SplitString p s tokens = Some (tokens ++ filter nonempty (fields p s)).
Proof.
  intros Hp. unfold SplitString. rewrite split_loop_spec; [by rewrite drop_0 | done | lia | lia].
Qed.

(** *** [std::getline] *)

Lemma getline_fields s line rest :
  getline s = Some (line, rest) ->
  filter nonempty (fields [10%Z] s)
  = (if 0 <? length line then [line] else []) ++ filter nonempty (fields [10%Z] rest) /\
  length rest < length s.
Proof.
  unfold getline. destruct s as [|c s]; [done |]. intros H.
  rewrite (fields_unfold _ (c :: s)) by done.
  destruct (find_sub [10%Z] (c :: s)) as [i|] eqn:Hf; simplify_eq.
  - pose proof (find_sub_bound _ _ _ Hf) as Hb. simpl length in *.
    rewrite filter_cons_nonempty. replace (i + 1) with (S i) by lia. split; [done |].
    rewrite length_drop. simpl. lia.
  - split; [| simpl; lia]. rewrite (fields_unfold _ []) by done. simpl.
    done.
Qed.

Lemma getline_None s : getline s = None <-> s = [].
Proof. destruct s; simpl; [done |]. split; [| done]. by case_match. Qed.

Lemma getline_loop_spec fuel s tokens :
  length s <= fuel ->
  getline_loop fuel s tokens = Some (tokens ++ filter nonempty (fields [10%Z] s)).
Proof.
  revert s tokens. induction fuel as [|fuel IH]; intros s tokens Hl; simpl.
  - destruct s; [| simpl in Hl; lia]. simpl. by rewrite app_nil_r.
  - destruct (getline s) as [[line rest]|] eqn:Hg.
    + apply getline_fields in Hg as [-> Hrest]. rewrite IH by lia.
      destruct line; simpl; [done |]. by rewrite <-app_assoc.
    + apply getline_None in Hg as ->. simpl. by rewrite app_nil_r.
Qed.

Lemma SplitString_nl_eq s tokens :
  SplitString_nl s tokens = Some (tokens ++ filter nonempty (fields [10%Z] s)).
Proof. apply getline_loop_spec. done. Qed.

(** *** Joining *)

Lemma join_cons r x l : l <> [] -> join r (x :: l) = x ++ r ++ join r l.
Proof. by destruct l. Qed.

Lemma JoinString_eq r l : JoinString r l = join r l.
Proof.
  unfold JoinString. destruct l as [|x l]; [done |]. cbn [fold_left]. rewrite app_nil_l.
  revert x. induction l as [|y l IH] using rev_ind; intros x; [done |].
  rewrite fold_left_app. simpl.
  pose proof (IH x) as IHx.
  destruct (fold_left _ l (false, x)) as [b o] eqn:Hf.
  assert (b = false) as ->.
  { clear IH IHx. revert x b o Hf. induction l as [|z l IH]; intros x b o Hf; simpl in Hf; [congruence |].
    by eapply IH. }
  simpl in *. subst o. clear. revert x. induction l as [|z l IH]; intros x; simpl; [by rewrite <-!app_assoc |].
  rewrite <-!app_assoc. f_equal. f_equal. rewrite <-IH. by rewrite <-!app_assoc.
Qed.

(** A delimiter occurring in no piece separates them again. *)
Lemma find_sub_app_first p x y :
  p <> [] -> (forall j, j <= length x -> j < length x -> ~ p `prefix_of` drop j (x ++ p ++ y)) ->
  find_sub p (x ++ p ++ y) = Some (length x).
Proof.
  intros Hp H. apply find_sub_Some. rewrite drop_app_length. split_and!.
  - by apply prefix_app_r.
  - rewrite length_app. lia.
  - intros j Hj. apply H; lia.
Qed.

Lemma fields_join d p l :
  l <> [] -> Forall (fun x => d ∉ x) l -> fields (d :: p) (join (d :: p) l) = l.
Proof.
  intros Hl HF. induction HF as [|x l Hx HF IH]; [done |].
  assert (forall (y : list Z) j, j < length x -> ~ (d :: p) `prefix_of` drop j (x ++ y)) as Hno.
  { intros y j Hj Hpre. rewrite drop_app_le in Hpre by lia.
    apply Hx. destruct (drop j x) as [|c r] eqn:Hd.
    - apply (f_equal length) in Hd. rewrite length_drop in Hd. simpl in Hd. lia.
    - simpl in Hpre. apply prefix_cons_inv_1 in Hpre as <-.
      eapply (subseteq_drop j). rewrite Hd. by left. }
  destruct l as [|y l].
  - simpl. rewrite fields_unfold by done.
    destruct (find_sub (d :: p) x) as [i|] eqn:Hf; [exfalso | done].
    pose proof (find_sub_bound _ _ _ Hf). apply find_sub_Some in Hf as (Hf & _ & _).
    simpl in *. apply (Hno [] i); [lia |]. by rewrite app_nil_r.
  - rewrite join_cons by done. rewrite fields_unfold by done.
    rewrite find_sub_app_first; [| done | intros j _ Hj; by apply Hno].
    rewrite take_app_length. f_equal.
    rewrite app_assoc, drop_app_length' by (rewrite length_app; done). by apply IH.
Qed.

Lemma fields_join_char d l :
  l <> [] -> Forall (fun x => d ∉ x) l -> fields [d] (join [d] l) = l.
Proof. apply fields_join. Qed.

Lemma split_join d l : Forall (fun x => d ∉ x) l ->
  SplitString [d] (join [d] l) [] = Some (filter nonempty l).
Proof.
  intros HF. rewrite SplitString_eq by done.
  destruct (decide (l = [])) as [-> | Hl]; [done |]. by rewrite fields_join_char.
Qed.

Lemma filter_nonempty_all (l : list (list Z)) : Forall (fun x => x <> []) l -> filter nonempty l = l.
Proof. intros HF. apply filter_all. by rewrite Forall_forall in HF. Qed.

(** *** Replacement *)

Lemma join_fields_cons r p s i :
  p <> [] -> find_sub p s = Some i ->
  join r (fields p s) = take i s ++ r ++ join r (fields p (drop (i + length p) s)).
Proof.
  intros Hp Hf. rewrite fields_unfold by done. rewrite Hf.
  apply join_cons, fields_nonnil.
Qed.

Lemma replace_loop_spec fuel p r done_ s :
  p <> [] -> length s < fuel ->
  replace_loop fuel (done_ ++ s) p r (length done_) = Some (done_ ++ join r (fields p s)).
Proof.
  intros Hp. revert done_ s. induction fuel as [|fuel IH]; intros done_ s Hfuel; [lia |].
  cbn [replace_loop]. rewrite find_from_Some by (rewrite length_app; lia).
  rewrite drop_app_length.
  destruct (find_sub p s) as [i|] eqn:Hf; simpl.
  - pose proof (find_sub_bound _ _ _ Hf). assert (length p <> 0) by (by destruct p).
    rewrite (join_fields_cons r p s i) by done.
    replace (take (length done_ + i) (done_ ++ s)) with (done_ ++ take i s)
      by (by rewrite take_app_add).
    replace (drop (length done_ + i + length p) (done_ ++ s)) with (drop (i + length p) s)
      by (rewrite <-Nat.add_assoc, drop_app_add; done).
    pose proof (IH ((done_ ++ take i s) ++ r) (drop (i + length p) s)
                  ltac:(rewrite length_drop; lia)) as IHs.
    rewrite !length_app, length_take in IHs. rewrite <-!app_assoc in *.
    replace (length done_ + i `min` length s + length r) with (length done_ + i + length r)
      in IHs by lia. exact IHs.
  - rewrite fields_unfold, Hf by done. done.
Qed.

Lemma Replace_eq s p r : p <> [] -> Replace s p r = Some (join r (fields p s)).
Proof. intros Hp. exact (replace_loop_spec (S (length s)) p r [] s Hp ltac:(lia)). Qed.

(** *** Hexadecimal *)

Lemma length_Hexify b : length (Hexify b) = 2 * length b.
Proof. induction b as [|x b IH]; [done |]. unfold Hexify in *. cbn. rewrite IH. lia. Qed.

Lemma hex_digit_inj m n : (0 <= m < 16)%Z -> (0 <= n < 16)%Z -> hex_digit m = hex_digit n -> m = n.
Proof. unfold hex_digit. intros ?? H. destruct (Z.ltb_spec m 10), (Z.ltb_spec n 10); lia. Qed.

Lemma Hexify_inj_ok b1 b2 :
  bytes_ok b1 -> bytes_ok b2 -> Hexify b1 = Hexify b2 -> b1 = b2.
Proof.
  intros H1. revert b2. induction H1 as [|x b1 Hx H1 IH]; intros b2 H2 Heq.
  - destruct b2; [done | discriminate].
  - destruct H2 as [|y b2 Hy H2]; [discriminate |]. simpl in Heq.
    injection Heq as Ha Hb Hc. f_equal; [| by apply IH].
    unfold is_byte in *.
    apply hex_digit_inj in Ha; [| split; [apply Z.div_pos; lia | apply Z.div_lt_upper_bound; lia] ..].
    apply hex_digit_inj in Hb; [| apply Z.mod_pos_bound; lia ..].
    rewrite (Z.div_mod x 16), (Z.div_mod y 16) by lia. lia.
Qed.

(** ** Properties *)

(** Splitting terminates on every input and returns the old tokens followed
    by the non-empty pieces of the input; the character template is the string
    version on a one-character delimiter, and the specialisation on
    [std::getline] for ['\n'] returns what the template it replaces returns. *)
Theorem SplitString_spec (delimiter input : list Z) (tokens : list (list Z)) :
  (delimiter <> [] ->
   SplitString delimiter input tokens
   = Some (tokens ++ filter nonempty (fields delimiter input))) /\
  SplitString_nl input tokens = SplitString_char 10 input tokens.
Proof.
  split; [apply SplitString_eq |].
  rewrite SplitString_nl_eq. unfold SplitString_char. by rewrite SplitString_eq.
Qed.

Lemma SplitString_spec_witness :
  [32%Z] <> [] /\ SplitString [32%Z] (lit "a  b") [] = Some [lit "a"; lit "b"].
Proof.
  split; [done |]. rewrite (proj1 (SplitString_spec [32%Z] (lit "a  b") [])) by done.
  reflexivity.
Defined.

(** Joining non-empty, delimiter-free tokens and splitting the result gives
    the tokens back, so the space-separated command lines and header lists the
    daemons exchange are unambiguous as long as no argument holds a space. *)
Theorem split_join_roundtrip (d : Z) (l : list (list Z)) :
  Forall (fun x => x <> [] /\ d ∉ x) l ->
  SplitString_char d (JoinString [d] l) [] = Some l.
Proof.
  intros HF. unfold SplitString_char. rewrite JoinString_eq, split_join.
  - rewrite filter_nonempty_all; [done |]. by eapply Forall_impl; [exact HF |]; intros ? [? _].
  - by eapply Forall_impl; [exact HF |]; intros ? [_ ?].
Qed.

Lemma split_join_roundtrip_witness :
  Forall (fun x : list Z => x <> [] /\ 32%Z ∉ x) [lit "-cc1"; lit "-O2"] /\
  SplitString_char 32 (JoinString [32%Z] [lit "-cc1"; lit "-O2"]) [] = Some [lit "-cc1"; lit "-O2"].
Proof.
  assert (Forall (fun x : list Z => x <> [] /\ 32%Z ∉ x) [lit "-cc1"; lit "-O2"]) as H.
  { repeat constructor; try discriminate; by apply (bool_decide_unpack _). }
  split; [exact H | exact (split_join_roundtrip 32 _ H)].
Defined.

(** [Replace] terminates for a non-empty pattern and puts the replacement
    between exactly the pieces of the input that the pattern separates; with an
    empty replacement (the line continuations of a dependency file) the result
    is the concatenation of these pieces. *)
Theorem Replace_spec (input replacee replacer : list Z) :
  replacee <> [] ->
  Replace input replacee replacer = Some (join replacer (fields replacee input)) /\
  Replace input replacee [] = Some (concat (fields replacee input)).
Proof.
  intros Hp. split; [by apply Replace_eq |]. rewrite Replace_eq by done. f_equal.
  induction (fields replacee input) as [|x l IH]; [done |].
  destruct l; [simpl; by rewrite app_nil_r |]. rewrite join_cons by done.
  simpl in *. by rewrite IH.
Qed.

Lemma Replace_spec_witness :
  lit "\n" <> [] /\ Replace (lit "a\nb\n\nc") (lit "\n") (lit "+") = Some (lit "a+b++c").
Proof.
  split; [discriminate |].
  rewrite (proj1 (Replace_spec (lit "a\nb\n\nc") (lit "\n") (lit "+") ltac:(discriminate))).
  reflexivity.
Defined.
