(* ===== verification/ConstString.v ===== *)
(** The immutable string of [src/src/base/const_string.cc]: a flat block of
    memory or a rope of other immutable strings, with element access,
    comparison, concatenation, collapsing, substring search (Knuth-Morris-Pratt)
    and the 128-bit Murmur hash that names the cache entries. *)

From S2P Require Import Prelude StringUtils.

#[local] Set Warnings "-register-all".

#[local] Open Scope nat_scope.

(** ** Representation

    [ConstString::Internal] with the size of the object that points to it:
    [string_] is the memory block [internals_->string] points to ([None] is the
    null pointer), which may be longer than the string; [rope] is
    [internals_->rope].  [internals_] is a pointer to a constant object, so the
    sharing of blocks between strings is not observable. *)
Inductive ConstString : Type := CS {
  string_ : option (list Z);
  rope : list ConstString;
  null_end : bool;
  size_ : nat;
}.

Section Induction.
  Context (P : ConstString -> Prop).
  Context (HCS : forall str l ne n, Forall P l -> P (CS str l ne n)).

Fixpoint ConstString_rope_ind (s : ConstString) : P s :=
    match s with
    | CS str l ne n =>
        HCS str l ne n
          ((fix go (l : list ConstString) : Forall P l :=
              match l with
              | [] => Forall_nil_2 P
              | x :: l => Forall_cons_2 P x l (ConstString_rope_ind x) (go l)
              end) l)
    end.
End Induction.

(** ** Constructors *)

Definition empty_string : ConstString := CS None [] false 0.

(** [ConstString(Literal)], [ConstString(String&&)], [ConstString(const String&)]:
    the block ends with a zero byte after the string. *)
Definition of_String (s : list Z) : ConstString := CS (Some (s ++ [0%Z])) [] true (length s).

(** [ConstString(char[], size)], [ConstString(void*, size)]. *)
Definition of_buffer (b : list Z) (size : nat) : ConstString := CS (Some b) [] false size.

(** [ConstString(Rope&&)], [ConstString(const Rope&)]. *)
Definition of_rope (l : list ConstString) : ConstString :=
  CS None l false (fold_left (fun n x => n + size_ x) l 0).

(** [ConstString(Rope&&, hint_size)], [ConstString(const Rope&, hint_size)]. *)
Definition of_rope_hint (l : list ConstString) (hint_size : nat) : ConstString :=
  CS None l false hint_size.

(** [ConstString(ConstString& str, size)]: the internals are shared. *)
Definition of_prefix (str : ConstString) (size : nat) : ConstString :=
  CS (string_ str) (rope str) (null_end str) (Nat.min size (size_ str)).

(** ** Access *)

(** [at(internal, index)]; [None] is an access outside every block. *)
Fixpoint at_ (s : ConstString) (index : nat) {struct s} : option Z :=
  match s with
  | CS str l _ _ =>
      (fix go (l : list ConstString) (index : nat) : option Z :=
         match l with
         | [] => b ← str; b !! index
         | x :: l => if index <? size_ x then at_ x index else go l (index - size_ x)
         end) l index
  end.

(** [operator==]. *)
Definition cs_eqb (a b : ConstString) : bool :=
  if negb (size_ a =? size_ b) then false
  else forallb (fun i => bool_decide (at_ a i = at_ b i)) (seq 0 (size_ a)).

(** [operator+]. *)
Definition cs_add (a other : ConstString) : ConstString :=
  match rope a with
  | [] => of_rope [a; other]
  | l => of_rope (l ++ [other])
  end.

(** [memcpy] of [n] bytes from a block: [None] when the block is too short. *)
Definition read_block (b : option (list Z)) (n : nat) : option (list Z) :=
  if n <=? length (default [] b) then Some (take n (default [] b)) else None.

(** [CollapseRope()]: the object with its new internals.  [None] when the copied
    elements do not fill exactly the [size_] bytes of the new block: bytes past
    its end would be written, or bytes of the string left uninitialised. *)
Fixpoint CollapseRope (s : ConstString) : option ConstString :=
  match s with
  | CS str l ne n =>
      match l with
      | [] => Some s
      | [x] => Some (CS (string_ x) (rope x) (null_end x) n)
      | _ =>
          parts ← mapM (fun x => x' ← CollapseRope x; read_block (string_ x') (size_ x)) l;
          if length (concat parts) =? n
          then Some (CS (Some (concat parts ++ [0%Z])) [] true n)
          else None
      end
  end.

(** [data()]: the block the pointer leads to, [Some None] the null pointer. *)
Definition data (s : ConstString) : option (option (list Z)) :=
  s' ← CollapseRope s; Some (string_ s').

(** [NullTerminate()] of a collapsed string. *)
Definition NullTerminate (s : ConstString) : option ConstString :=
  if null_end s then Some s
  else b ← read_block (string_ s) (size_ s);
       Some (CS (Some (b ++ [0%Z])) [] true (size_ s)).

(** [c_str()]: the C string the returned pointer leads to. *)
Definition c_string (block : list Z) : list Z := take (default (length block) (find_sub [0%Z] block)) block.

Definition c_str (s : ConstString) : option (list Z) :=
  s' ← CollapseRope s;
  s'' ← NullTerminate s';
  c_string <$> string_ s''.

(** [string_copy() const]. *)
Fixpoint string_copy (s : ConstString) : option (list Z) :=
  match s with
  | CS str [] _ n => read_block str n
  | CS _ l _ _ => @concat Z <$> mapM string_copy l
  end.

(** [string_copy(collapse)] of a mutable string. *)
Definition string_copy_collapse (s : ConstString) (collapse : bool) : option (list Z) :=
  if collapse then s' ← CollapseRope s; read_block (string_ s') (size_ s)
  else string_copy s.

(** ** Abstraction and invariant *)

(** The string an object stands for. *)
Fixpoint contents (s : ConstString) : list Z :=
  match s with
  | CS str l _ n =>
      take n (match l with [] => default [] str | _ => concat (map contents l) end)
  end.

(** The size never exceeds the block, and is the sum of the sizes of a rope. *)
Fixpoint wf (s : ConstString) : Prop :=
  match s with
  | CS str l _ n =>
      match l with
      | [] => n <= length (default [] str)
      | _ => fold_right (fun x P => wf x /\ P) True l /\ n = list_sum (map size_ l)
      end
  end.

(** A one-element rope holds a flat string, recursively: what [CollapseRope],
    which takes the internals of such an element as they are, relies on. *)
Fixpoint collapsible (s : ConstString) : Prop :=
  match s with
  | CS _ l _ _ =>
      match l with
      | [] => True
      | [x] => rope x = []
      | _ => fold_right (fun x P => collapsible x /\ P) True l
      end
  end.

Lemma fold_right_Forall {A} (P : A -> Prop) l :
  fold_right (fun x Q => P x /\ Q) True l <-> Forall P l.
Proof.
  induction l as [|x l IH]; simpl; [by split |]. rewrite Forall_cons, IH. done.
Qed.

Lemma wf_flat str ne n : wf (CS str [] ne n) <-> n <= length (default [] str).
Proof. done. Qed.

Lemma wf_rope str x l ne n :
  wf (CS str (x :: l) ne n) <-> Forall wf (x :: l) /\ n = list_sum (map size_ (x :: l)).
Proof. unfold wf at 1. fold wf. by rewrite fold_right_Forall. Qed.

Lemma length_contents s : wf s -> length (contents s) = size_ s.
Proof.
  induction s as [str l ne n IH] using ConstString_rope_ind. intros Hwf.
  destruct l as [|x l].
  - simpl. rewrite length_take. simpl in Hwf. lia.
  - apply wf_rope in Hwf as [Hwf ->]. cbn [contents size_].
    rewrite length_take. apply Nat.min_l. rewrite length_concat.
    clear -IH Hwf. induction Hwf as [|y l' Hy Hwf IHl]; [done |].
    apply Forall_cons in IH as [IHy IH]. specialize (IHl IH). specialize (IHy Hy).
    simpl in *. lia.
Qed.

Lemma contents_rope_concat str x l ne n :
  wf (CS str (x :: l) ne n) ->
  contents (CS str (x :: l) ne n) = concat (map contents (x :: l)).
Proof.
  intros Hwf. pose proof (length_contents _ Hwf) as Hlen.
  apply wf_rope in Hwf as [Hwf ->]. cbn [contents size_] in *.
  apply take_ge. rewrite length_concat.
  assert (list_sum (map length (map contents (x :: l))) = list_sum (map size_ (x :: l))) as ->; [| done].
  clear Hlen. induction Hwf as [|y l' Hy Hwf IHl]; [done |].
  simpl. rewrite length_contents by done. by rewrite IHl.
Qed.

(** ** Access, comparison and concatenation *)

Lemma at_cons str x l ne n i :
  at_ (CS str (x :: l) ne n) i
  = if i <? size_ x then at_ x i else at_ (CS str l ne n) (i - size_ x).
Proof. done. Qed.

Lemma at_spec s i : wf s -> i < size_ s -> at_ s i = contents s !! i.
Proof.
  revert i. induction s as [str l ne n IH] using ConstString_rope_ind. intros i Hwf Hi.
  destruct l as [|x l].
  - simpl in *. destruct str as [b|]; simpl in *; [by rewrite lookup_take_lt | lia].
  - rewrite contents_rope_concat by done. apply wf_rope in Hwf as [Hwf ->].
    cbn [size_] in Hi. generalize (list_sum (map size_ (x :: l))) at 1 as m. intros m.
    revert Hwf i Hi IH. generalize (x :: l). intros k Hwf. induction Hwf as [|y l' Hy Hwf IHl]; intros i Hi IH; [simpl in Hi; lia |].
    apply Forall_cons in IH as [IHy IH]. simpl map in *. simpl concat. rewrite at_cons.
    destruct (Nat.ltb_spec i (size_ y)).
    + rewrite lookup_app_l by (by rewrite length_contents). by apply IHy.
    + rewrite lookup_app_r by (by rewrite length_contents).
      rewrite length_contents by done. apply IHl; [| done]. simpl in Hi. lia.
Qed.

Lemma forallb_seq (f : nat -> bool) n : forallb f (seq 0 n) = true <-> forall i, i < n -> f i = true.
Proof.
  rewrite forallb_forall. split.
  - intros H i Hi. apply H, in_seq. lia.
  - intros H i Hi%in_seq. apply H. lia.
Qed.

Lemma cs_eqb_spec a b : wf a -> wf b -> cs_eqb a b = bool_decide (contents a = contents b).
Proof.
  intros Ha Hb. unfold cs_eqb. apply eq_bool_prop_intro. rewrite bool_decide_spec.
  destruct (Nat.eqb_spec (size_ a) (size_ b)) as [Hs | Hs]; simpl.
  - rewrite Is_true_true, forallb_seq. split.
    + intros H. apply list_eq_same_length with (size_ a);
        [by rewrite length_contents | by rewrite length_contents |].
      intros i x y Hi Hx Hy. specialize (H i Hi). apply bool_decide_eq_true in H.
      rewrite !at_spec in H by (done || lia). congruence.
    + intros H i Hi. apply bool_decide_eq_true. rewrite !at_spec by (done || lia). by rewrite H.
  - split; [done |]. intros H. apply Hs. by rewrite <-!length_contents, H by done.
Qed.

Lemma fold_size_sum l k : fold_left (fun n x => n + size_ x) l k = k + list_sum (map size_ l).
Proof. revert k. induction l as [|x l IH]; intros k; simpl; [lia |]. rewrite IH. lia. Qed.

Lemma wf_of_rope x l : Forall wf (x :: l) -> wf (of_rope (x :: l)).
Proof. intros H. unfold of_rope. apply wf_rope. split; [done |]. by rewrite fold_size_sum. Qed.

Lemma contents_of_rope l : Forall wf l -> contents (of_rope l) = concat (map contents l).
Proof.
  intros H. destruct l as [|x l]; [done |].
  unfold of_rope. rewrite contents_rope_concat; [done |]. by apply wf_of_rope.
Qed.

Lemma cs_add_spec a b :
  wf a -> wf b -> wf (cs_add a b) /\ contents (cs_add a b) = contents a ++ contents b.
Proof.
  intros Ha Hb. destruct a as [str l ne n]. unfold cs_add. cbn [rope]. destruct l as [|x l].
  - split; [apply wf_of_rope; auto |]. rewrite contents_of_rope by auto. simpl. by rewrite app_nil_r.
  - pose proof Ha as Ha'. apply wf_rope in Ha as [Ha _].
    assert (Forall wf (x :: l ++ [b])) as HF.
    { rewrite Forall_cons, Forall_app, Forall_singleton. by inversion Ha. }
    split; [by apply wf_of_rope |].
    rewrite (contents_of_rope ((x :: l) ++ [b])) by done.
    rewrite (contents_rope_concat str) by done.
    rewrite map_app, concat_app. simpl. by rewrite app_nil_r.
Qed.

(** ** Collapsing *)

Lemma read_block_flat str ne n :
  wf (CS str [] ne n) -> read_block str n = Some (contents (CS str [] ne n)).
Proof. simpl. intros H. unfold read_block. by rewrite (proj2 (Nat.leb_le _ _) H). Qed.

Lemma read_block_app (a b : list Z) n : length a = n -> read_block (Some (a ++ b)) n = Some a.
Proof.
  intros <-. unfold read_block. simpl. rewrite length_app, take_app_length.
  by rewrite (proj2 (Nat.leb_le (length a) (length a + length b)) ltac:(lia)).
Qed.

(** A collapsed string is flat, keeps its size and its contents. *)
Lemma CollapseRope_spec s :
  wf s -> collapsible s ->
  exists s', CollapseRope s = Some s' /\ rope s' = [] /\ size_ s' = size_ s /\
             wf s' /\ contents s' = contents s /\
             read_block (string_ s') (size_ s) = Some (contents s).
Proof.
  induction s as [str l ne n IH] using ConstString_rope_ind. intros Hwf Hc.
  destruct l as [|x [|y l]].
  - exists (CS str [] ne n). split_and!; try done. by rewrite read_block_flat with (ne := ne).
  - pose proof (contents_rope_concat _ _ _ _ _ Hwf) as Hcon.
    apply wf_rope in Hwf as [Hx Hn]. rewrite Forall_singleton in Hx.
    destruct x as [bx lx nx sx]. cbn in Hc, Hn. subst lx. rewrite Nat.add_0_r in Hn. subst n.
    rewrite Hcon. cbn [map concat]. rewrite app_nil_r.
    exists (CS bx [] nx sx). split_and!; try done. by apply read_block_flat.
  - pose proof (contents_rope_concat _ _ _ _ _ Hwf) as Hcon.
    pose proof (length_contents _ Hwf) as Hlen. rewrite Hcon in *. simpl size_ in *.
    apply wf_rope in Hwf as [Hwf _]. cbn [collapsible] in Hc. apply fold_right_Forall in Hc.
    cbn [CollapseRope].
    set (f := fun x : ConstString => x' ← CollapseRope x; read_block (string_ x') (size_ x)).
    assert (mapM f (x :: y :: l) = Some (map contents (x :: y :: l))) as Hgo.
    { clear Hcon Hlen. revert Hwf Hc IH. generalize (x :: y :: l). intros k Hwf Hc IH.
      apply mapM_Some. induction Hwf as [|z k Hz Hwf IHk]; [constructor |].
      apply Forall_cons in IH as [IHz IH]. apply Forall_cons in Hc as [Hcz Hc].
      destruct (IHz Hz Hcz) as (z' & Hz' & _ & _ & _ & _ & Hrd).
      constructor; [| by apply IHk]. unfold f. by rewrite Hz'. }
    rewrite Hgo. cbn [mbind option_bind].
    rewrite Hlen, Nat.eqb_refl. eexists. split; [done |]. cbn [rope size_ string_].
    rewrite (read_block_app _ _ n Hlen). split_and!; try done.
    + apply wf_flat. simpl. rewrite length_app. simpl in *. lia.
    + change (take n (concat (map contents (x :: y :: l)) ++ [0%Z])
              = concat (map contents (x :: y :: l))). by rewrite take_app_length'.
Qed.

Lemma string_copy_spec s : wf s -> string_copy s = Some (contents s).
Proof.
  induction s as [str l ne n IH] using ConstString_rope_ind. intros Hwf.
  destruct l as [|x l]; [by apply read_block_flat with (ne := ne) |].
  rewrite contents_rope_concat by done. apply wf_rope in Hwf as [Hwf _].
  cbn [string_copy]. apply fmap_Some. exists (map contents (x :: l)). split; [| done].
  apply mapM_Some. revert Hwf IH. generalize (x :: l). intros k Hwf IH.
  induction Hwf as [|z k Hz Hwf IHk]; [constructor |].
  apply Forall_cons in IH as [IHz IH]. constructor; [by apply IHz | by apply IHk].
Qed.

(** ** Properties *)

(** On well-formed strings the access, comparison and concatenation
    operators are those of the byte strings the objects stand for, for every
    mixture of flat strings and ropes; concatenation copies no bytes and keeps
    the invariant. *)
Theorem ConstString_operators (a b : ConstString) :
  wf a -> wf b ->
  (forall i, i < size_ a -> at_ a i = contents a !! i) /\
  cs_eqb a b = bool_decide (contents a = contents b) /\
  wf (cs_add a b) /\ contents (cs_add a b) = contents a ++ contents b /\
  string_copy (cs_add a b) = Some (contents a ++ contents b).
Proof.
  intros Ha Hb. destruct (cs_add_spec a b Ha Hb) as [Hw Hc].
  split_and!; [intros; by apply at_spec | by apply cs_eqb_spec | done | done |].
  rewrite string_copy_spec by done. by rewrite Hc.
Qed.

Lemma ConstString_operators_witness :
  let a := cs_add (of_String (lit "clang")) (of_String (lit "++")) in
  let b := of_String (lit "clang++") in
  wf a /\ wf b /\ cs_eqb a b = true.
Proof.
  assert (wf (cs_add (of_String (lit "clang")) (of_String (lit "++")))) as Ha
    by (apply cs_add_spec; simpl; lia).
  assert (wf (of_String (lit "clang++"))) as Hb by (simpl; lia).
  split_and!; [exact Ha | exact Hb |].
  destruct (ConstString_operators _ _ Ha Hb) as (_ & -> & _). reflexivity.
Defined.

(** Collapsing keeps size and contents, and the block that [data] then
    returns starts with the contents.  Two shapes the constructors allow are
    outside of what the code handles: a rope of one rope collapses to a string
    that is still a rope, whose [data] is the null pointer though it is not
    empty; a shortened rope is copied whole, past the end of the block
    allocated for the shorter size. *)
Theorem CollapseRope_correct (s : ConstString) :
  (wf s -> collapsible s ->
   exists s' b, CollapseRope s = Some s' /\ rope s' = [] /\ size_ s' = size_ s /\
     contents s' = contents s /\ string_copy_collapse s true = Some (contents s) /\
     (size_ s <> 0 -> data s = Some (Some b) /\ take (size_ s) b = contents s)) /\
  (let nested := of_rope [of_rope [of_String (lit "a"); of_String (lit "b")]] in
   wf nested /\ size_ nested = 2 /\ data nested = Some None) /\
  (let shortened := of_prefix (of_rope [of_String (lit "ab"); of_String (lit "cd")]) 3 in
   size_ shortened = 3 /\ CollapseRope shortened = None).
Proof.
  split; [| split].
  - intros Hwf Hc. destruct (CollapseRope_spec s Hwf Hc) as (s' & Hs' & Hr & Hsz & Hwf' & Hcon & Hrd).
    exists s', (default [] (string_ s')). unfold data, string_copy_collapse. rewrite Hs'.
    split_and!; try done. intros Hne. destruct s' as [str l ne n]. cbn in Hr, Hsz. subst l n.
    cbn in Hwf'. destruct str as [b|]; cbn in *; [| lia]. done.
  - split_and!; [| done | done]. apply wf_of_rope. repeat constructor; simpl; lia.
  - done.
Qed.

Lemma CollapseRope_correct_witness :
  let s := of_rope [of_String (lit "ab"); of_String (lit "cd")] in
  wf s /\ collapsible s /\ string_copy_collapse s true = Some (lit "abcd").
Proof.
  assert (wf (of_rope [of_String (lit "ab"); of_String (lit "cd")])) as H1
    by (apply wf_of_rope; repeat constructor; simpl; lia).
  assert (collapsible (of_rope [of_String (lit "ab"); of_String (lit "cd")])) as H2
    by (by simpl).
  split_and!; [exact H1 | exact H2 |].
  destruct (proj1 (CollapseRope_correct _) H1 H2) as (s' & b & _ & _ & _ & _ & H & _).
  exact H.
Defined.
