(* ===== verification/ConstStringFind.v ===== *)
(** [ConstString::find] of [src/src/base/const_string.cc]: the substring search
    of Knuth, Morris and Pratt over a flat string or a rope, with its failure
    table, and its equivalence with the naive search [find_sub]. *)

From S2P Require Import Prelude StringUtils ConstString.

#[local] Open Scope nat_scope.

(** ** The search

    Positions are the source's [i64]: [-1] stands for "no prefix left". *)

(** [t[i]], [str[i]]; the byte after the last one of a C string is zero. *)
Definition tget (t : list Z) (i : Z) : Z := nth (Z.to_nat i) t (-1)%Z.
Definition sget (str : list Z) (i : Z) : Z := nth (Z.to_nat i) str 0%Z.

(** [while (pos != -1 && bad(pos)) pos = t[pos];] *)
Fixpoint kmp_back (fuel : nat) (t : list Z) (bad : Z -> bool) (pos : Z) : option Z :=
  if negb (pos =? -1)%Z && bad pos
  then match fuel with
       | 0 => None
       | S fuel => kmp_back fuel t bad (tget t pos)
       end
  else Some pos.

(** [for (i64 i = 1; i <= str_size; ++i)], with [n] iterations left. *)
Fixpoint kmp_table_loop (n : nat) (str : list Z) (i : nat) (t : list Z) : option (list Z) :=
  match n with
  | 0 => Some t
  | S n =>
      pos ← kmp_back (length str) t
              (fun pos => negb (sget str pos =? sget str (Z.of_nat i - 1))%Z)
              (tget t (Z.of_nat i - 1));
      kmp_table_loop n str (S i) (<[i := (pos + 1)%Z]> t)
  end.

Definition kmp_table (str : list Z) : option (list Z) :=
  kmp_table_loop (length str) str 1 (replicate (length str + 1) (-1)%Z).

(** [while (sp < size_)], with [n] bytes of the text left. *)
Fixpoint kmp_search (n : nat) (s : ConstString) (str t : list Z) (sp : nat) (kp : Z)
    : option (option nat) :=
  match n with
  | 0 => Some None
  | S n =>
      c ← at_ s sp;
      kp ← kmp_back (S (length str)) t
             (fun kp => (kp =? Zlen str)%Z || negb (sget str kp =? c)%Z) kp;
      let kp := (kp + 1)%Z in
      let sp := S sp in
      if (kp =? Zlen str)%Z then Some (Some (sp - length str))
      else kmp_search n s str t sp kp
  end.

(** [find(str)]: the inner [None] is [String::npos]; the outer one an access
    outside the string or an exhausted bound on the inner loop. *)
Definition find (s : ConstString) (str : list Z) : option (option nat) :=
  if length str =? 0 then Some (Some 0)
  else t ← kmp_table str; kmp_search (size_ s) s str t 0 0%Z.

(** ** Prefixes of the pattern that end a word

    [cand p w k]: the first [k] bytes of [p] are a suffix of [w]. *)
Definition cand (p w : list Z) (k : nat) : Prop := k <= length p /\ take k p `suffix_of` w.

Lemma suffix_shorter (l1 l2 w : list Z) :
  l1 `suffix_of` w -> l2 `suffix_of` w -> length l1 <= length l2 -> l1 `suffix_of` l2.
Proof.
  rewrite !suffix_prefix_reverse. intros H1 H2 Hlen.
  destruct (prefix_weak_total _ _ _ H1 H2) as [|H]; [done |].
  apply prefix_length_eq in H as ->; [done |]. by rewrite !length_reverse.
Qed.

Section Pattern.
  Context (p : list Z).

Lemma cand_0 w : cand p w 0.
  Proof. split; [lia | apply suffix_nil]. Qed.

Lemma cand_full k : k <= length p -> cand p (take k p) k.
  Proof. by split. Qed.

  (** Below a candidate [k] of [w], the candidates are those of [take k p]. *)
Lemma cand_below w k k' : cand p w k -> k' <= k -> cand p w k' <-> cand p (take k p) k'.
  Proof.
    intros [Hk Hs] Hle. split; intros [Hk' Hs']; split; try done.
    - eapply suffix_shorter; [done | done |]. rewrite !length_take. lia.
    - by etrans.
  Qed.

Lemma cand_length w k : cand p w k -> k <= length w.
  Proof. intros [Hk Hs%suffix_length]. rewrite length_take in Hs. lia. Qed.

  (** Extending the word by one byte extends the candidates by one. *)
Lemma cand_snoc w c k : cand p (w ++ [c]) (S k) <-> cand p w k /\ p !! k = Some c.
  Proof.
    split.
    - intros [Hk Hs]. destruct (lookup_lt_is_Some_2 p k) as [d Hd]; [lia |].
      rewrite (take_S_r p k d Hd) in Hs. pose proof (suffix_snoc_inv_1 _ _ _ _ Hs) as ->.
      split; [| done]. split; [lia |]. by eapply suffix_snoc_inv_2.
    - intros [[Hk Hs] Hd]. split; [by apply lookup_lt_Some in Hd |].
      rewrite (take_S_r p k c Hd). by apply suffix_snoc.
  Qed.

  (** [t[j] = k]: [k] is the length of the longest proper border of the first
      [j] bytes. *)
Definition border_max (j k : nat) : Prop :=
    k < j /\ cand p (take j p) k /\ forall k', k < k' -> k' < j -> ~ cand p (take j p) k'.

Definition table_ok (t : list Z) (i : nat) : Prop :=
    tget t 0 = (-1)%Z /\
    forall j, 1 <= j -> j <= i -> exists k, tget t (Z.of_nat j) = Z.of_nat k /\ border_max j k.

  (** The longest candidate that is not bad, or [-1]. *)
Definition best (pos : nat) (bad : Z -> bool) (r : Z) : Prop :=
    (r = (-1)%Z /\ forall k, k <= pos -> cand p (take pos p) k -> bad (Z.of_nat k) = true) \/
    exists k : nat, r = Z.of_nat k /\ k <= pos /\ cand p (take pos p) k /\ bad r = false /\
      forall k', k < k' -> k' <= pos -> cand p (take pos p) k' -> bad (Z.of_nat k') = true.

Lemma kmp_back_spec t bad pos fuel :
    table_ok t pos -> pos <= length p -> pos < fuel ->
    exists r, kmp_back fuel t bad (Z.of_nat pos) = Some r /\ best pos bad r.
  Proof.
    revert fuel. induction pos as [pos IH] using lt_wf_ind. intros fuel Ht Hpos Hfuel.
    destruct fuel as [|fuel]; [lia |]. cbn [kmp_back].
    assert ((Z.of_nat pos =? -1)%Z = false) as -> by lia. simpl.
    destruct (bad (Z.of_nat pos)) eqn:Hbad; simpl.
    2: { exists (Z.of_nat pos). split; [done |]. right. exists pos. split_and!; try done; intros; lia. }
    destruct Ht as [Ht0 Ht]. destruct (decide (pos = 0)) as [-> | Hne].
    - exists (-1)%Z. change (Z.of_nat 0) with 0%Z. rewrite Ht0. split; [by destruct fuel |]. left. split; [done |].
      intros k Hk _. by replace k with 0 by lia.
    - destruct (Ht pos) as (k0 & -> & Hk0 & Hc0 & Hmax0); [lia | lia |].
      destruct (IH k0 Hk0 fuel) as (r & -> & Hr); [split; [done |]; intros; apply Ht; lia | lia | lia |].
      exists r. split; [done |].
      assert (forall k', k0 < k' -> k' <= pos -> cand p (take pos p) k' -> bad (Z.of_nat k') = true)
        as Habove.
      { intros k' H1 H2 H3. destruct (decide (k' = pos)) as [-> | Hn]; [done |].
        destruct (Hmax0 k' H1 ltac:(lia) H3). }
      destruct Hr as [[-> Hr] | (k & -> & Hk & Hck & Hb & Hr)].
      + left. split; [done |]. intros k Hk Hck. destruct (decide (k <= k0)).
        * apply Hr; [done |]. by apply (cand_below (take pos p)).
        * apply Habove; [lia | done | done].
      + right. exists k. split_and!; try done; [lia | by apply (cand_below (take pos p) k0) |].
        intros k' H1 H2 H3. destruct (decide (k' <= k0)).
        * apply Hr; [done | done |]. by apply (cand_below (take pos p)).
        * apply Habove; [lia | done | done].
  Qed.

Lemma sget_lookup k c : p !! k = Some c -> sget p (Z.of_nat k) = c.
  Proof. intros H. unfold sget. rewrite Nat2Z.id. by apply nth_lookup_Some. Qed.

Lemma tget_insert_eq t i v : i < length t -> tget (<[i := v]> t) (Z.of_nat i) = v.
  Proof.
    intros H. unfold tget. rewrite Nat2Z.id. apply nth_lookup_Some. by apply list_lookup_insert_eq.
  Qed.

Lemma tget_insert_ne t i j v : i <> j -> tget (<[i := v]> t) (Z.of_nat j) = tget t (Z.of_nat j).
  Proof. intros H. unfold tget. rewrite Nat2Z.id, !nth_lookup. by rewrite list_lookup_insert_ne. Qed.

  (** One step of the table: the border of the first [i] bytes. *)
Lemma border_step t i c :
    p !! (i - 1) = Some c -> 1 <= i -> table_ok t (i - 1) ->
    exists r, kmp_back (length p) t
      (fun pos => negb (sget p pos =? sget p (Z.of_nat i - 1))%Z) (tget t (Z.of_nat i - 1)) = Some r /\
      exists k, (r + 1 = Z.of_nat k)%Z /\ border_max i k.
  Proof.
    intros Hc Hi Ht. pose proof (lookup_lt_Some _ _ _ Hc) as Hlen.
    replace (Z.of_nat i - 1)%Z with (Z.of_nat (i - 1)) by lia. rewrite (sget_lookup (i - 1) c) by done.
    set (bad := fun pos => negb (sget p pos =? c)%Z).
    assert (take i p = take (i - 1) p ++ [c]) as Hsnoc
      by (rewrite <-(take_S_r p (i - 1) c) by done; f_equal; lia).
    assert (forall k, k < length p -> bad (Z.of_nat k) = false -> p !! k = Some c) as Hgood.
    { intros k Hk Hb. destruct (lookup_lt_is_Some_2 p k Hk) as [d Hd].
      unfold bad in Hb. rewrite (sget_lookup _ _ Hd) in Hb. bool_to_prop. by subst. }
    assert (forall k, bad (Z.of_nat k) = true -> p !! k <> Some c) as Hbad.
    { intros k Hb Hk. unfold bad in Hb. rewrite (sget_lookup _ _ Hk) in Hb. bool_to_prop. done. }
    destruct (decide (i = 1)) as [-> | Hne].
    { change (Z.of_nat (1 - 1)) with 0%Z. destruct Ht as [-> _]. exists (-1)%Z. split; [by destruct (length p) |]. exists 0.
      split; [done |]. split_and!; [lia | apply cand_0 | lia]. }
    destruct Ht as [Ht0 Ht]. destruct (Ht (i - 1)) as (k0 & -> & Hk0 & Hc0 & Hmax0); [lia | done |].
    destruct (kmp_back_spec t bad k0 (length p)) as (r & Hr & Hbest);
      [split; [done |]; intros; apply Ht; lia | lia | lia |].
    exists r. split; [done |].
    assert (forall k' m, m < k' -> k' < i -> (forall k, m <= k -> k <= k0 ->
      cand p (take k0 p) k -> bad (Z.of_nat k) = true) -> ~ cand p (take i p) k') as Hno.
    { intros [|k''] m Hm Hk' Hall Hcand; [lia |]. rewrite Hsnoc in Hcand.
      apply cand_snoc in Hcand as [Hcand Hp].
      assert (k'' <= k0) as Hle.
      { destruct (decide (k'' <= k0)); [done |]. exfalso. apply (Hmax0 k''); [lia | lia | done]. }
      apply (Hbad k''); [| done]. apply Hall; [lia | done |]. by apply (cand_below (take (i - 1) p)). }
    destruct Hbest as [[-> Hall] | (k & -> & Hk & Hck & Hb & Hall)].
    - exists 0. split; [done |]. split_and!; [lia | apply cand_0 |].
      intros k' H1 H2. apply (Hno k' 0); [done | done |]. intros; by apply Hall.
    - exists (S k). split; [lia |]. split_and!; [lia | |].
      + rewrite Hsnoc. apply cand_snoc. split; [by apply (cand_below (take (i - 1) p) k0) |].
        apply Hgood; [lia | done].
      + intros k' H1 H2. apply (Hno k' (S k)); [done | done |]. intros; apply Hall; [lia | done | done].
  Qed.

Lemma kmp_table_loop_spec n i t :
    1 <= i -> i + n = S (length p) -> length t = S (length p) -> table_ok t (i - 1) ->
    exists t', kmp_table_loop n p i t = Some t' /\ table_ok t' (length p).
  Proof.
    revert i t. induction n as [|n IH]; intros i t Hi Hn Hlen Ht.
    - exists t. split; [done |]. by replace (length p) with (i - 1) by lia.
    - cbn [kmp_table_loop].
      destruct (lookup_lt_is_Some_2 p (i - 1)) as [c Hc]; [lia |].
      destruct (border_step t i c Hc Hi Ht) as (r & -> & k & Hk & Hb). cbn [mbind option_bind].
      apply IH; [lia | lia | by rewrite length_insert |]. rewrite Hk.
      replace (S i - 1) with i by lia. destruct Ht as [Ht0 Ht]. split.
      + change 0%Z with (Z.of_nat 0). rewrite tget_insert_ne by lia. done.
      + intros j H1 H2. destruct (decide (j = i)) as [-> | Hj].
        * exists k. split; [apply tget_insert_eq; lia | done].
        * rewrite tget_insert_ne by done. apply Ht; lia.
  Qed.

Lemma kmp_table_spec : exists t, kmp_table p = Some t /\ table_ok t (length p).
  Proof.
    apply kmp_table_loop_spec; [lia | lia | rewrite length_replicate; lia |].
    split; [| lia]. unfold tget. simpl. by rewrite Nat.add_comm.
  Qed.

  (** ** The scan *)

  (** [sp] bytes of the text are read, [kp] is the longest candidate. *)
Definition scan_inv (text : list Z) (sp kp : nat) : Prop :=
    kp < length p /\ cand p (take sp text) kp /\
    (forall k, cand p (take sp text) k -> k <= kp) /\
    (forall e, e <= sp -> ~ p `suffix_of` take e text).

Lemma suffix_take_occurs (text : list Z) e :
    e <= length text ->
    p `suffix_of` take e text <-> length p <= e /\ p `prefix_of` drop (e - length p) text.
  Proof.
    intros He. split.
    - intros Hs. pose proof (suffix_length _ _ Hs) as Hl. rewrite length_take in Hl.
      split; [lia |]. destruct Hs as [w Hw].
      assert (length w = e - length p) as <-.
      { apply (f_equal length) in Hw. rewrite length_take, length_app in Hw. lia. }
      rewrite <-(take_drop e text), Hw, <-app_assoc, drop_app_length. by apply prefix_app_r.
    - intros [Hl [w Hw]]. exists (take (e - length p) text).
      rewrite <-(take_drop (e - length p) text) at 1. rewrite Hw.
      rewrite take_app_ge by (rewrite length_take; lia). f_equal.
      rewrite length_take, take_app_length'; [done |]. lia.
  Qed.

Lemma no_occurrence text :
    (forall e, e <= length text -> ~ p `suffix_of` take e text) -> find_sub p text = None.
  Proof.
    intros H. apply find_sub_None. intros j Hj.
    pose proof (prefix_length _ _ Hj) as Hl. rewrite length_drop in Hl.
    destruct (decide (j <= length text)) as [Hle | Hgt].
    - apply (H (j + length p)); [lia |]. apply suffix_take_occurs; [lia |].
      split; [lia |]. by replace (j + length p - length p) with j by lia.
    - apply (H (length text) (ltac:(done))). destruct p; [apply suffix_nil | simpl in Hl; lia].
  Qed.

Lemma first_occurrence text e :
    e <= length text -> p `suffix_of` take e text ->
    (forall e', e' < e -> ~ p `suffix_of` take e' text) -> find_sub p text = Some (e - length p).
  Proof.
    intros He Hs Hmin. apply suffix_take_occurs in Hs as [Hl Hpre]; [| done].
    apply find_sub_Some. split_and!; [done | lia |]. intros j Hj Hpre'.
    apply (Hmin (j + length p)); [lia |]. apply suffix_take_occurs; [lia |].
    split; [lia |]. by replace (j + length p - length p) with j by lia.
  Qed.
End Pattern.

(** One byte of the text: the longest candidate after it. *)
Lemma scan_step p t text sp kp c :
  table_ok p t (length p) -> scan_inv p text sp kp -> text !! sp = Some c ->
  exists r, kmp_back (S (length p)) t
      (fun kp => (kp =? Zlen p)%Z || negb (sget p kp =? c)%Z) (Z.of_nat kp) = Some r /\
    exists k, (r + 1 = Z.of_nat k)%Z /\ cand p (take (S sp) text) k /\
      forall k', cand p (take (S sp) text) k' -> k' <= k.
Proof.
  intros Ht (Hkp & Hc & Hmax & _) Hsp.
  set (bad := fun kp => (kp =? Zlen p)%Z || negb (sget p kp =? c)%Z).
  destruct (kmp_back_spec p t bad kp (S (length p))) as (r & Hr & Hbest);
    [destruct Ht as [? Ht]; split; [done |]; intros; apply Ht; lia | lia | lia |].
  exists r. split; [exact Hr |]. rewrite (take_S_r text sp c Hsp).
  assert (forall k, p !! k = Some c -> bad (Z.of_nat k) = false) as Hnb.
  { intros k Hk. unfold bad, Zlen. rewrite (sget_lookup p k c Hk), Z.eqb_refl.
    apply lookup_lt_Some in Hk. apply orb_false_intro; [lia | done]. }
  assert (forall k' m, (forall k, m <= k -> k <= kp -> cand p (take kp p) k -> bad (Z.of_nat k) = true) ->
            cand p (take sp text ++ [c]) k' -> k' <= m) as Hno.
  { intros [|k''] m Hall Hcand; [lia |]. apply cand_snoc in Hcand as [Hcand Hp].
    destruct (decide (S k'' <= m)); [done |]. exfalso.
    pose proof (Hmax _ Hcand) as Hle.
    specialize (Hall k'' ltac:(lia) Hle (proj1 (cand_below p _ kp k'' Hc Hle) Hcand)).
    rewrite (Hnb _ Hp) in Hall. done. }
  destruct Hbest as [[-> Hall] | (k & -> & Hk & Hck & Hb & Hall)].
  - exists 0. split; [done |]. split; [apply cand_0 |]. intros k'. apply Hno. intros. by apply Hall.
  - exists (S k). split; [lia |]. split.
    + apply cand_snoc. split; [by apply (cand_below p (take sp text) kp) |].
      unfold bad in Hb. apply orb_false_elim in Hb as [Hb1 Hb2]. unfold Zlen in *.
      destruct (lookup_lt_is_Some_2 p k) as [d Hd]; [lia |].
      rewrite (sget_lookup p k d Hd) in Hb2. bool_to_prop. by subst.
    + intros k'. apply Hno. intros. by apply Hall.
Qed.

Lemma kmp_search_spec p t s n sp kp :
  wf s -> table_ok p t (length p) -> sp + n = size_ s -> scan_inv p (contents s) sp kp ->
  kmp_search n s p t sp (Z.of_nat kp) = Some (find_sub p (contents s)).
Proof.
  intros Hwf Ht. revert sp kp. induction n as [|n IH]; intros sp kp Hn Hinv; cbn [kmp_search].
  - destruct Hinv as (_ & _ & _ & Hno). rewrite no_occurrence; [done |].
    intros e He. apply Hno. rewrite length_contents in He by done. lia.
  - rewrite at_spec by (done || lia).
    destruct (lookup_lt_is_Some_2 (contents s) sp) as [c Hc];
      [rewrite length_contents by done; lia |]. rewrite Hc. cbn [mbind option_bind].
    destruct (scan_step p t _ sp kp c Ht Hinv Hc) as (r & -> & k & Hk & Hck & Hmax).
    cbn [mbind option_bind]. rewrite Hk. unfold Zlen.
    destruct (Z.eqb_spec (Z.of_nat k) (Z.of_nat (length p))) as [He | He].
    + do 2 f_equal. symmetry. apply first_occurrence.
      * rewrite length_contents by done. lia.
      * destruct Hck as [_ Hs]. rewrite take_ge in Hs by lia. done.
      * intros e' He'. destruct Hinv as (_ & _ & _ & Hno). apply Hno. lia.
    + apply IH; [lia |]. destruct Hck as [Hkp Hs]. split_and!; [lia | done | done |].
      intros e Hle. destruct (decide (e = S sp)) as [-> |];
        [| destruct Hinv as (_ & _ & _ & Hno); apply Hno; lia].
      intros Hps. assert (cand p (take (S sp) (contents s)) (length p)) as Hfull
        by (split; [done | by rewrite firstn_all]).
      apply Hmax in Hfull. lia.
Qed.

(** ** Property *)

(** [find] terminates without reading outside the string and returns the
    position of the first occurrence of the pattern, or [npos] when there is
    none, whatever the mixture of flat strings and ropes the text is made of. *)
Theorem find_spec (s : ConstString) (str : list Z) :
  wf s -> find s str = Some (find_sub str (contents s)).
Proof.
  intros Hwf. unfold find. destruct str as [|c p].
  - simpl. f_equal. symmetry. apply find_sub_Some. split_and!; [apply prefix_nil | lia | lia].
  - simpl (_ =? 0). cbn iota. destruct (kmp_table_spec (c :: p)) as (t & -> & Ht).
    cbn [mbind option_bind]. apply (kmp_search_spec (c :: p) t s _ 0 0); try done.
    split_and!; [simpl; lia | apply cand_0 | |].
    + intros k Hk%cand_length. rewrite take_0 in Hk. simpl in Hk. lia.
    + intros e He. replace e with 0 by lia. intros Hs%suffix_length. simpl in Hs. lia.
Qed.

Lemma find_spec_witness :
  let s := of_rope [of_String (lit "__DA"); of_String (lit "T__DATE__")] in
  wf s /\ find s (lit "__DATE__") = Some (Some 5).
Proof.
  split.
  - apply wf_of_rope. repeat constructor; simpl; lia.
  - rewrite find_spec; [reflexivity |]. apply wf_of_rope. repeat constructor; simpl; lia.
Defined.
