(* ===== verification/ConstStringHash.v ===== *)
(** [ConstString::Hash] of [src/src/base/const_string.cc]: the 128-bit Murmur
    hash computed over a flat string or, block by block, across the elements
    of a rope, and the proof that it depends on the contents only. *)

From S2P Require Import Prelude StringUtils ConstString.

#[local] Open Scope nat_scope.

(** ** Words *)

Definition c1 : Z := 0x87c37b91114253d5.
Definition c2 : Z := 0x4cf5ad432745937f.

Definition rotl64 (x r : Z) : Z := Z.lor (u64 (Z.shiftl x r)) (Z.shiftr x (64 - r)).

Definition fmix64 (k : Z) : Z :=
  let k := Z.lxor k (Z.shiftr k 33) in
  let k := u64 (k * 0xff51afd7ed558ccd) in
  let k := Z.lxor k (Z.shiftr k 33) in
  let k := u64 (k * 0xc4ceb9fe1a85ec53) in
  Z.lxor k (Z.shiftr k 33).

(** A little-endian load of the first eight bytes of a block. *)
Definition load64 (b : list Z) : Z := foldr (fun x acc => x + 256 * acc)%Z 0%Z (take 8 b).

(** The little-endian bytes of a word. *)
Fixpoint le_bytes (n : nat) (w : Z) : list Z :=
  match n with
  | 0 => []
  | S n => (w mod 256)%Z :: le_bytes n (w / 256)%Z
  end.

(** ** The block reader

    [ptr] is the rest of the memory block under the pointer ([] also for the
    null pointer), [it] the elements of the rope from the iterator to the end. *)
Record reader := { ptr : list Z; ptr_size : nat; it : list ConstString }.

(** The assignments that follow [++it]. *)
Definition enter (l : list ConstString) : option reader :=
  match l with
  | [] => Some {| ptr := []; ptr_size := 0; it := [] |}
  | x :: _ =>
      x' ← CollapseRope x;
      Some {| ptr := default [] (string_ x'); ptr_size := size_ x; it := l |}
  end.

(** [while (i < block_size)]: [acc] holds the [i] bytes copied so far. *)
Fixpoint fill (fuel : nat) (r : reader) (acc : list Z) : option (list Z * reader) :=
  if 8 <=? length acc then Some (acc, r)
  else match fuel, it r with
       | S fuel, x :: rest =>
           if ptr_size r <=? 8 - length acc then
             b ← read_block (Some (ptr r)) (ptr_size r);
             r' ← enter rest;
             fill fuel r' (acc ++ b)
           else
             b ← read_block (Some (ptr r)) (8 - length acc);
             x' ← CollapseRope x;
             Some (acc ++ b,
                   {| ptr := drop (8 - length acc) (default [] (string_ x'));
                      ptr_size := ptr_size r - (8 - length acc); it := it r |})
       | _, _ => None
       end.

(** [NextBlock()]; [None] is an access through a null pointer, past a block or
    past the end of the rope. *)
Definition NextBlock (r : reader) : option (Z * reader) :=
  if 8 <? ptr_size r then
    b ← read_block (Some (ptr r)) 8;
    Some (load64 b, {| ptr := drop 8 (ptr r); ptr_size := ptr_size r - 8; it := it r |})
  else if ptr_size r =? 8 then
    b ← read_block (Some (ptr r)) 8;
    r' ← enter (tail (it r));
    Some (load64 b, r')
  else
    b ← read_block (Some (ptr r)) (ptr_size r);
    match it r with
    | _ :: ((_ :: _) as rest) =>
        r' ← enter rest;
        '(b, r'') ← fill (length rest) r' b;
        Some (load64 b, r'')
    | _ => None
    end.

Definition first_reader (s : ConstString) : option reader :=
  match rope s with
  | [] => Some {| ptr := default [] (string_ s); ptr_size := size_ s; it := [] |}
  | l => enter l
  end.

(** ** Mixing *)

Definition mix_k1 (k1 : Z) : Z := u64 (rotl64 (u64 (k1 * c1)) 31 * c2).
Definition mix_k2 (k2 : Z) : Z := u64 (rotl64 (u64 (k2 * c2)) 33 * c1).

Definition mix_block (h : Z * Z) (k1 k2 : Z) : Z * Z :=
  let '(h1, h2) := h in
  let h1 := Z.lxor h1 (mix_k1 k1) in
  let h1 := u64 (rotl64 h1 27 + h2) in
  let h1 := u64 (h1 * 5 + 0x52dce729) in
  let h2 := Z.lxor h2 (mix_k2 k2) in
  let h2 := u64 (rotl64 h2 31 + h1) in
  let h2 := u64 (h2 * 5 + 0x38495ab5) in
  (h1, h2).

(** The loop over the [double_blocks] pairs of blocks. *)
Fixpoint body (n : nat) (r : reader) (h : Z * Z) : option (Z * Z) :=
  match n with
  | 0 => Some h
  | S n =>
      '(k1, r) ← NextBlock r;
      '(k2, r) ← NextBlock r;
      body n r (mix_block h k1 k2)
  end.

(** [(ui64)c] for a [char], which is signed on the supported targets. *)
Definition char_to_u64 (c : Z) : Z := u64 (i8 c).

(** The cases [lo+n] down to [lo+1] of the switch: the bytes [lo .. lo+n-1] of
    the tail, xored into a word. *)
Definition tail_word (get : nat -> option Z) (lo n : nat) : option Z :=
  foldl (fun k j => k ← k; c ← get j;
           Some (Z.lxor k (u64 (Z.shiftl (char_to_u64 c) (8 * Z.of_nat (j - lo))))))
        (Some 0%Z) (reverse (seq lo n)).

Definition tail_mix (get : nat -> option Z) (n : nat) (h : Z * Z) : option (Z * Z) :=
  let '(h1, h2) := h in
  k2 ← tail_word get 8 (n - 8);
  let h2 := if 9 <=? n then Z.lxor h2 (mix_k2 k2) else h2 in
  k1 ← tail_word get 0 (Nat.min n 8);
  let h1 := if 1 <=? n then Z.lxor h1 (mix_k1 k1) else h1 in
  Some (h1, h2).

Definition finalize (size : Z) (h : Z * Z) : Z * Z :=
  let '(h1, h2) := h in
  let h1 := Z.lxor h1 (u64 size) in
  let h2 := Z.lxor h2 (u64 size) in
  let h1 := u64 (h1 + h2) in
  let h2 := u64 (h2 + h1) in
  let h1 := fmix64 h1 in
  let h2 := fmix64 h2 in
  let h1 := u64 (h1 + h2) in
  let h2 := u64 (h2 + h1) in
  (h1, h2).

(** [Hash(output_size)]; the buffer always has 16 bytes. *)
Definition Hash (s : ConstString) (output_size : nat) : option ConstString :=
  if size_ s =? 0 then Some (of_buffer (replicate 16 0%Z) 16)
  else
    r ← first_reader s;
    h ← body (size_ s / 16) r (0, 0)%Z;
    h ← tail_mix (fun j => at_ s (size_ s / 16 * 16 + j)) (size_ s mod 16) h;
    let '(h1, h2) := finalize (Z.of_nat (size_ s)) h in
    Some (of_buffer (le_bytes 8 h1 ++ le_bytes 8 h2) (Nat.min 16 output_size)).

(** ** The same hash of a flat byte list *)

Fixpoint flat_body (n : nat) (l : list Z) (h : Z * Z) : Z * Z :=
  match n with
  | 0 => h
  | S n => flat_body n (drop 16 l) (mix_block h (load64 l) (load64 (drop 8 l)))
  end.

Definition flat_hash (l : list Z) : option (list Z) :=
  match l with
  | [] => Some (replicate 16 0%Z)
  | _ =>
      let n := length l in
      h ← tail_mix (fun j => l !! (n / 16 * 16 + j)) (n mod 16) (flat_body (n / 16) l (0, 0)%Z);
      let '(h1, h2) := finalize (Z.of_nat n) h in
      Some (le_bytes 8 h1 ++ le_bytes 8 h2)
  end.

(** ** The reader walks the contents *)

Definition good (x : ConstString) : Prop := wf x /\ collapsible x.

(** [l] is what is left to read. *)
Definition reads (r : reader) (l : list Z) : Prop :=
  ptr_size r <= length (ptr r) /\ Forall good (tail (it r)) /\
  l = take (ptr_size r) (ptr r) ++ concat (map contents (tail (it r))).

Lemma enter_reads l : Forall good l -> exists r, enter l = Some r /\ it r = l /\
  reads r (concat (map contents l)).
Proof.
  intros Hl. destruct l as [|x l].
  - eexists. split; [done |]. split; [done |]. by split_and!.
  - apply Forall_cons in Hl as [[Hwf Hc] Hl].
    destruct (CollapseRope_spec x Hwf Hc) as (x' & Hx & Hr & Hs & Hwf' & Hcon & Hrd).
    simpl. rewrite Hx. simpl. eexists. split; [done |]. split; [done |].
    destruct x' as [str lx ne n]. simpl in *. subst lx n. split_and!; [done | done |].
    simpl. by rewrite <-Hcon.
Qed.

Lemma read_block_le (b : list Z) n : n <= length b -> read_block (Some b) n = Some (take n b).
Proof. intros H. unfold read_block. simpl. by rewrite (proj2 (Nat.leb_le n (length b)) H). Qed.

Lemma load64_take l : load64 (take 8 l) = load64 l.
Proof. unfold load64. by rewrite take_take. Qed.

(** The inner loop completes a block from the elements that follow. *)
Lemma fill_spec fuel l acc r :
  Forall good l -> enter l = Some r -> length l <= fuel -> length acc < 8 ->
  8 <= length acc + length (concat (map contents l)) ->
  exists r', fill fuel r acc
    = Some (acc ++ take (8 - length acc) (concat (map contents l)), r') /\
    reads r' (drop (8 - length acc) (concat (map contents l))).
Proof.
  revert l acc r. induction fuel as [|fuel IH]; intros l acc r Hl He Hf Ha Hb.
  { destruct l; [| simpl in Hf; lia]. simpl in Hb. lia. }
  destruct l as [|x l]; [simpl in Hb; lia |].
  pose proof (enter_reads _ Hl) as (r0 & He0 & Hit & Hle & _ & Hcat).
  rewrite He in He0. injection He0 as <-. rewrite Hit in Hcat. simpl tail in Hcat.
  simpl in He. destruct (CollapseRope x) as [x'|] eqn:Hx; [| done]. simpl in He.
  injection He as <-. cbn [ptr ptr_size it] in *.
  apply Forall_cons in Hl as [Hgx Hl]. cbn [fill it ptr ptr_size].
  assert ((8 <=? length acc) = false) as -> by (apply Nat.leb_gt; lia).
  assert (take (size_ x) (default [] (string_ x')) = contents x) as Htx.
  { simpl in Hcat. by apply app_inv_tail in Hcat. }
  assert (length (contents x) = size_ x) as Hlx by (by apply length_contents, Hgx).
  destruct (Nat.leb_spec (size_ x) (8 - length acc)) as [Hs | Hs].
  - rewrite read_block_le by done. rewrite Htx. cbn [mbind option_bind].
    destruct (enter_reads l Hl) as (r1 & He1 & _ & Hr1). rewrite He1. cbn [mbind option_bind].
    simpl concat in *. rewrite length_app in Hb.
    destruct (decide (length acc + size_ x = 8)) as [H8 | H8].
    + exists r1. assert ((8 <=? length (acc ++ contents x)) = true) as H8' by
        (apply Nat.leb_le; rewrite length_app; lia).
      destruct fuel as [|fuel]; cbn [fill]; rewrite H8'; rewrite take_app_length', drop_app_length' by lia; done.
    + destruct (IH l (acc ++ contents x) r1) as (r' & -> & Hr');
        [done | done | simpl in Hf; lia | rewrite length_app; lia | rewrite length_app; lia |].
      exists r'. rewrite length_app, <-app_assoc in *.
      rewrite take_app_ge, drop_app_ge by lia.
      replace (8 - length acc - length (contents x)) with (8 - (length acc + length (contents x))) by lia.
      done.
  - rewrite read_block_le by lia. rewrite Hx. cbn [mbind option_bind].
    eexists. split.
    + simpl concat. rewrite take_app_le by lia. rewrite <-Htx, take_take.
      rewrite Nat.min_l by lia. done.
    + split_and!; cbn [ptr ptr_size it tail]; [rewrite length_drop; lia | done |].
      simpl concat. rewrite drop_app_le by lia. f_equal.
      rewrite <-Htx, skipn_firstn_comm. done.
Qed.

Lemma NextBlock_spec r l :
  reads r l -> 8 <= length l ->
  exists r', NextBlock r = Some (load64 l, r') /\ reads r' (drop 8 l).
Proof.
  intros (Hle & Hg & Hl) H8. unfold NextBlock.
  assert (length (take (ptr_size r) (ptr r)) = ptr_size r) as Hlt by (rewrite length_take; lia).
  destruct (Nat.ltb_spec 8 (ptr_size r)) as [Hs | Hs]; [| destruct (Nat.eqb_spec (ptr_size r) 8) as [He | He]].
  - rewrite read_block_le by lia. cbn [mbind option_bind]. eexists. split.
    + do 2 f_equal. rewrite load64_take. subst l. rewrite <-(load64_take (_ ++ _)).
      rewrite take_app_le, take_take, Nat.min_l by lia. by rewrite load64_take.
    + split_and!; cbn [ptr ptr_size it]; [rewrite length_drop; lia | done |].
      subst l. rewrite drop_app_le by lia. by rewrite skipn_firstn_comm.
  - rewrite read_block_le by lia. cbn [mbind option_bind].
    destruct (enter_reads _ Hg) as (r' & -> & _ & Hr'). cbn [mbind option_bind].
    rewrite He in *. subst l. exists r'. split.
    + rewrite <-(load64_take (_ ++ _)). by rewrite take_app_length' by lia.
    + by rewrite drop_app_length' by lia.
  - rewrite read_block_le by lia. cbn [mbind option_bind]. subst l.
    rewrite length_app, Hlt in H8.
    destruct (it r) as [|x [|y rest]]; [simpl in H8; lia | simpl in H8; lia |].
    cbn [tail] in *. destruct (enter_reads _ Hg) as (r1 & He1 & _ & _). rewrite He1.
    cbn [mbind option_bind].
    destruct (fill_spec (length (y :: rest)) (y :: rest) (take (ptr_size r) (ptr r)) r1)
      as (r' & -> & Hr'); [done | done | done | lia | lia |].
    cbn [mbind option_bind]. exists r'. rewrite Hlt in *. split.
    + do 2 f_equal. rewrite <-(load64_take (_ ++ concat _)). rewrite take_app_ge by lia.
      by rewrite Hlt.
    + rewrite drop_app_ge by lia. by rewrite Hlt.
Qed.

Lemma body_spec n r l h :
  reads r l -> 16 * n <= length l -> body n r h = Some (flat_body n l h).
Proof.
  revert r l h. induction n as [|n IH]; intros r l h Hr Hn; [done |]. cbn [body flat_body].
  destruct (NextBlock_spec r l Hr) as (r1 & -> & Hr1); [lia |]. cbn [mbind option_bind].
  destruct (NextBlock_spec r1 _ Hr1) as (r2 & -> & Hr2); [rewrite length_drop; lia |].
  cbn [mbind option_bind]. rewrite drop_drop in Hr2. apply IH; [done |].
  rewrite length_drop. lia.
Qed.

Lemma tail_word_ext get get' lo n :
  (forall j, lo <= j -> j < lo + n -> get j = get' j) -> tail_word get lo n = tail_word get' lo n.
Proof.
  intros H. unfold tail_word.
  assert (Forall (fun j => get j = get' j) (reverse (seq lo n))) as HF.
  { apply Forall_reverse, Forall_forall. intros j Hj%elem_of_seq. apply H; lia. }
  generalize (Some 0%Z). induction HF as [|j l Hj HF IH]; intros k; [done |].
  simpl. rewrite Hj. apply IH.
Qed.

Lemma tail_mix_ext get get' n h :
  n < 16 -> (forall j, j < n -> get j = get' j) -> tail_mix get n h = tail_mix get' n h.
Proof.
  intros Hn H. destruct h as [h1 h2]. unfold tail_mix.
  rewrite (tail_word_ext get get' 8), (tail_word_ext get get' 0); [done | |]; intros; apply H; lia.
Qed.

Lemma first_reader_spec s :
  wf s -> Forall collapsible (rope s) ->
  exists r, first_reader s = Some r /\ reads r (contents s).
Proof.
  intros Hwf Hc. destruct s as [str [|x l] ne n]; unfold first_reader; cbn [rope] in *.
  - eexists. split; [done |]. split_and!; [done | done |]. simpl. by rewrite app_nil_r.
  - rewrite contents_rope_concat by done. apply wf_rope in Hwf as [Hwf _].
    destruct (enter_reads (x :: l)) as (r & -> & _ & Hr); [| by exists r].
    apply Forall_and. done.
Qed.

Lemma tail_word_total get lo n :
  (forall j, lo <= j -> j < lo + n -> is_Some (get j)) -> is_Some (tail_word get lo n).
Proof.
  intros H. unfold tail_word.
  assert (Forall (fun j => is_Some (get j)) (reverse (seq lo n))) as HF.
  { apply Forall_reverse, Forall_forall. intros j Hj%elem_of_seq. apply H; lia. }
  generalize 0%Z. induction HF as [|j l [c Hj] HF IH]; intros k; simpl; [done |].
  rewrite Hj. apply IH.
Qed.

Lemma length_le_bytes n w : length (le_bytes n w) = n.
Proof. revert w. induction n as [|n IH]; intros w; simpl; [done |]. by rewrite IH. Qed.

Lemma flat_hash_total l : exists h, flat_hash l = Some h /\ length h = 16.
Proof.
  unfold flat_hash. destruct l as [|b l]; [by eexists |].
  set (l' := b :: l). cbv zeta. destruct (flat_body (length l' / 16) l' (0, 0)%Z) as [h1 h2].
  unfold tail_mix. pose proof (Nat.div_mod_eq (length l') 16).
  pose proof (Nat.mod_upper_bound (length l') 16 ltac:(lia)).
  set (get := fun j => l' !! (length l' / 16 * 16 + j)).
  assert (forall j, j < length l' mod 16 -> is_Some (get j)) as Hget
    by (intros j Hj; apply lookup_lt_is_Some_2; lia).
  destruct (tail_word_total get 8 (length l' mod 16 - 8)) as [k2 ->]; [intros; apply Hget; lia |].
  cbn [mbind option_bind].
  destruct (tail_word_total get 0 ((length l' mod 16) `min` 8)) as [k1 ->]; [intros; apply Hget; lia |].
  cbn [mbind option_bind]. destruct (finalize _ _) as [f1 f2].
  eexists. split; [done |]. by rewrite length_app, !length_le_bytes.
Qed.

Lemma Hash_flat s k :
  wf s -> Forall collapsible (rope s) ->
  exists h, flat_hash (contents s) = Some h /\ length h = 16 /\
    Hash s k = Some (of_buffer h (if decide (contents s = []) then 16 else Nat.min 16 k)).
Proof.
  intros Hwf Hc. destruct (flat_hash_total (contents s)) as (h & Hh & Hlen).
  exists h. split_and!; [done | done |]. unfold Hash.
  pose proof (length_contents s Hwf) as Hs. rewrite <-Hs.
  destruct (Nat.eqb_spec (length (contents s)) 0) as [H0 | H0].
  { apply nil_length_inv in H0. rewrite H0 in *. rewrite decide_True by done.
    simpl in Hh. by injection Hh as <-. }
  rewrite decide_False by (intros Hn; by rewrite Hn in H0).
  destruct (first_reader_spec s Hwf Hc) as (r & -> & Hr). cbn [mbind option_bind].
  pose proof (Nat.div_mod_eq (length (contents s)) 16).
  rewrite (body_spec _ _ _ _ Hr) by lia. cbn [mbind option_bind].
  rewrite (tail_mix_ext _ (fun j => contents s !! (length (contents s) / 16 * 16 + j)));
    [| apply Nat.mod_upper_bound; lia |].
  2: { intros j Hj. apply at_spec; [done | lia]. }
  unfold flat_hash in Hh. destruct (contents s) as [|b l] eqn:Hcon; [done |]. rewrite <-Hcon in *.
  cbv zeta in Hh. destruct (tail_mix _ _ _) as [h'|]; [| done]. cbn [mbind option_bind] in *.
  destruct (finalize _ _) as [f1 f2]. by injection Hh as <-.
Qed.

(** ** The tail and the signedness of [char] *)

Definition le_value (l : list Z) : Z := foldr (fun x acc => x + 256 * acc)%Z 0%Z l.

Lemma le_value_snoc l c : le_value (l ++ [c]) = (le_value l + c * 256 ^ Zlen l)%Z.
Proof.
  unfold le_value. induction l as [|x l IH]; simpl foldr; [unfold Zlen; simpl; lia |].
  rewrite IH, Zlen_cons, Z.pow_add_r by (pose proof (Zlen_nonneg l); lia). lia.
Qed.

Lemma le_value_bound l : Forall (fun c => 0 <= c < 256)%Z l -> (0 <= le_value l < 256 ^ Zlen l)%Z.
Proof.
  induction 1 as [|x l Hx HF IH]; [unfold Zlen; simpl; lia |].
  rewrite Zlen_cons, Z.pow_add_r by (pose proof (Zlen_nonneg l); lia). simpl in *. lia.
Qed.

Lemma char_to_u64_ascii c : (0 <= c < 128)%Z -> char_to_u64 c = c.
Proof.
  intros H. unfold char_to_u64. rewrite swrap_small by (simpl; lia). apply wrap_small. simpl. lia.
Qed.

Lemma lxor_shifted a c n :
  (0 <= a < 256 ^ n)%Z -> (0 <= n)%Z -> Z.lxor (Z.shiftl c (8 * n)) a = (a + c * 256 ^ n)%Z.
Proof.
  intros Ha Hn. change 256%Z with (2 ^ 8)%Z in *. rewrite <-Z.pow_mul_r in * by lia.
  rewrite Z.lxor_comm, Z.shiftl_mul_pow2 by lia. symmetry. apply Z.add_nocarry_lxor.
  apply Z.bits_inj'. intros i Hi. rewrite Z.land_spec, Z.bits_0.
  destruct (Z.ltb_spec i (8 * n)).
  - rewrite Z.mul_pow2_bits_low by done. apply andb_false_r.
  - by rewrite (testbit_high a (8 * n) i) by done.
Qed.

(** On bytes below 128 the xored tail is the little-endian value of the bytes. *)
Lemma tail_word_ascii l lo :
  length l <= 8 -> Forall (fun c => 0 <= c < 128)%Z l ->
  tail_word (fun j => l !! (j - lo)) lo (length l) = Some (le_value l).
Proof.
  intros Hlen HF. unfold tail_word.
  enough (forall k, foldl (fun k j => k ← k; c ← l !! (j - lo);
            Some (Z.lxor k (u64 (Z.shiftl (char_to_u64 c) (8 * Z.of_nat (j - lo))))))
          (Some k) (reverse (seq lo (length l))) = Some (Z.lxor k (le_value l))) as H
    by (by rewrite (H 0%Z), Z.lxor_0_l).
  revert Hlen HF. induction l as [|c l IH] using rev_ind; intros Hlen HF k.
  { simpl. by rewrite Z.lxor_0_r. }
  rewrite length_app in *. simpl length in *. rewrite Forall_app, Forall_singleton in HF. destruct HF as [HF Hc].
  replace (length l + 1) with (S (length l)) by lia.
  rewrite seq_S, reverse_app. simpl. replace (lo + length l - lo) with (length l) by lia.
  rewrite list_lookup_middle by done. cbn [mbind option_bind].
  rewrite char_to_u64_ascii by done. fold (Zlen l).
  assert (0 <= Z.shiftl c (8 * Zlen l) < 2 ^ 64)%Z as Hb.
  { rewrite Z.shiftl_mul_pow2 by (pose proof (Zlen_nonneg l); lia).
    assert (2 ^ (8 * Zlen l) <= 2 ^ 56)%Z by (apply Z.pow_le_mono_r; unfold Zlen; lia).
    assert (0 < 2 ^ (8 * Zlen l))%Z by (apply Z.pow_pos_nonneg; unfold Zlen; lia).
    change (2 ^ 64)%Z with (256 * 2 ^ 56)%Z. nia. }
  rewrite wrap_small by done.
  assert (forall k, foldl (fun k j => k ← k; c0 ← (l ++ [c]) !! (j - lo);
            Some (Z.lxor k (u64 (Z.shiftl (char_to_u64 c0) (8 * Z.of_nat (j - lo))))))
          (Some k) (reverse (seq lo (length l))) = Some (Z.lxor k (le_value l))) as Hrest.
  { intros k'. rewrite <-(IH ltac:(lia) HF k'). clear.
    assert (Forall (fun j => (l ++ [c]) !! (j - lo) = l !! (j - lo)) (reverse (seq lo (length l)))) as HF.
    { apply Forall_reverse, Forall_forall. intros j Hj%elem_of_seq. by rewrite lookup_app_l by lia. }
    generalize (Some k'). induction HF as [|j m Hj HF IH]; intros o; [done |].
    simpl. rewrite Hj. apply IH. }
  rewrite Hrest. f_equal. rewrite le_value_snoc, Z.lxor_assoc. f_equal. apply lxor_shifted; [| auto].
  apply le_value_bound. eapply Forall_impl; [exact HF |]. simpl. intros; lia.
Qed.

(** ** Properties *)

(** C39: the hash that names every cache entry is a function of the contents
    alone: however the string is cut into flat pieces and ropes (and whatever
    lies in memory after them), reading it block by block gives the hash of the
    flat bytes.  Its size is [min(16, output_size)], except that the empty
    string always gives 16 bytes, whatever size was asked for. *)
Theorem Hash_contents (s1 s2 : ConstString) (k : nat) :
  wf s1 -> wf s2 -> Forall collapsible (rope s1) -> Forall collapsible (rope s2) ->
  contents s1 = contents s2 ->
  exists h, flat_hash (contents s1) = Some h /\
    Hash s1 k = Some (of_buffer h (if decide (contents s1 = []) then 16 else Nat.min 16 k)) /\
    Hash s2 k = Hash s1 k.
Proof.
  intros H1 H2 H3 H4 Heq.
  destruct (Hash_flat s1 k H1 H3) as (h1 & Hh1 & _ & ->).
  destruct (Hash_flat s2 k H2 H4) as (h2 & Hh2 & _ & ->).
  rewrite <-Heq in *. exists h1. split_and!; congruence.
Qed.

Definition example_rope : ConstString :=
  of_rope [of_String (lit "int ma"); empty_string; of_rope [of_String (lit "i"); of_String (lit "n() { r")];
           of_String (lit "eturn 0; }")].

Lemma Hash_contents_witness :
  wf example_rope /\ Forall collapsible (rope example_rope) /\
  Hash (of_String (lit "int main() { return 0; }")) 4 = Hash example_rope 4.
Proof.
  assert (wf example_rope) as H1.
  { apply wf_of_rope. repeat constructor; simpl; lia. }
  assert (Forall collapsible (rope example_rope)) as H2 by (repeat constructor).
  split_and!; [done | done |].
  destruct (Hash_contents example_rope (of_String (lit "int main() { return 0; }")) 4)
    as (h & _ & _ & H); [done | simpl; lia | done | constructor | reflexivity | exact H].
Defined.

(** The tail of the hash is the little-endian value of its bytes, as in
    the published Murmur hash, when every byte is below 128; a byte from 128 on
    is sign-extended and also flips all the bits above it. *)
Theorem tail_word_signedness (l : list Z) (lo : nat) :
  length l <= 8 ->
  (Forall (fun c => 0 <= c < 128)%Z l ->
   tail_word (fun j => l !! (j - lo)) lo (length l) = Some (le_value l)) /\
  tail_word (fun j => [255%Z] !! j) 0 1 = Some (2 ^ 64 - 1)%Z /\ le_value [255%Z] = 255%Z.
Proof.
  intros Hl. split_and!; [intros; by apply tail_word_ascii | by vm_compute | done].
Qed.

Lemma tail_word_signedness_witness :
  length (lit "abc") <= 8 /\ tail_word (fun j => lit "abc" !! (j - 8)) 8 3 = Some 0x636261%Z.
Proof.
  split; [simpl; lia |].
  refine (proj1 (tail_word_signedness (lit "abc") 8 ltac:(simpl; lia)) _).
  repeat constructor; simpl; lia.
Defined.
