(* ===== verification/Logging.v ===== *)
(** Verbosity of the log: the merging of the configured level ranges in the
    constructor of [CompilationDaemon] ([src/src/daemon/compilation_daemon.cc])
    and the decision of [Log::~Log] ([src/src/base/logging.cc]). *)

From S2P Require Import Prelude.

#[local] Open Scope Z_scope.

(** ** Named levels ([src/src/base/logging.h]) *)

Definition FATAL : Z := 0.
Definition ASSERT : Z := 1.
Definition ERROR : Z := 10.
Definition WARNING : Z := 20.
Definition INFO : Z := 30.

(** ** [std::set<Pair<ui32>>] as its ascending list of elements *)

Definition lex_lt (p q : Z * Z) : bool :=
  (p.1 <? q.1) || ((p.1 =? q.1) && (p.2 <? q.2)).

Fixpoint emplace (p : Z * Z) (l : list (Z * Z)) : list (Z * Z) :=
  match l with
  | [] => [p]
  | q :: r => if lex_lt p q then p :: l
              else if lex_lt q p then q :: emplace p r
              else l
  end.

Fixpoint lower_bound (p : Z * Z) (l : list (Z * Z)) : option (Z * Z) :=
  match l with
  | [] => None
  | q :: r => if lex_lt q p then lower_bound p r else Some q
  end.

(** ** The constructor of [CompilationDaemon] *)

(** A [Verbosity::Range] message: [left] is optional. *)
Record Range := { left_ : option Z; right_ : Z }.

Definition collect_levels (levels : list Range) : list (Z * Z) :=
  foldl (fun ranges level =>
    match left_ level with
    | Some l => if right_ level <? l then ranges else emplace (l, right_ level) ranges
    | None => emplace (right_ level, right_ level) ranges
    end) [] levels.

Fixpoint merge_loop (current : Z * Z) (rest : list (Z * Z)) (range_set : list (Z * Z))
    : list (Z * Z) :=
  match rest with
  | [] => emplace (current.2, current.1) range_set
  | it :: rest =>
      if it.1 <=? u32 (current.2 + 1)
      then merge_loop (current.1, Z.max it.2 current.2) rest range_set
      else merge_loop it rest (emplace (current.2, current.1) range_set)
  end.

Definition merge_ranges (ranges : list (Z * Z)) : list (Z * Z) :=
  match ranges with
  | [] => []
  | current :: rest => merge_loop current rest []
  end.

(** ** [Log] *)

Record log_config := { error_mark : Z; ranges : list (Z * Z) }.

(** The static defaults of [error_mark()] and [ranges()]. *)
Definition default_config : log_config :=
  {| error_mark := 0; ranges := [(FATAL, FATAL)] |}.

Fixpoint reset_ok (prev : Z) (l : list (Z * Z)) : bool :=
  match l with
  | [] => true
  | range :: l =>
      if ((0 <? prev) && (range.2 <=? prev)) || (range.1 <? range.2) then false
      else reset_ok range.1 l
  end.

(** [Log::Reset]: an unordered set leaves the configuration as it was. *)
Definition Reset (mark : Z) (l : list (Z * Z)) (c : log_config) : log_config :=
  if reset_ok 0 l then {| error_mark := mark; ranges := l |} else c.

(** What the daemon's constructor makes of its verbosity. *)
Definition setup_verbosity (mark : Z) (levels : list Range) (c : log_config) : log_config :=
  Reset mark (merge_ranges (collect_levels levels)) c.

Inductive log_mode := CONSOLE | SYSLOG.
Inductive sink := Stderr | Stdout | Syslog (priority : string).
Inductive outcome := Continue | Exit1 | Abort_.

Definition syslog_priority (level : Z) : string :=
  if (level =? FATAL) || (level =? ASSERT) then "LOG_CRIT"
  else if level =? ERROR then "LOG_ERR"
  else if level =? WARNING then "LOG_WARNING"
  else if level =? INFO then "LOG_NOTICE"
  else "LOG_INFO".

(** [Log::~Log]: where the message goes, and what happens to the process. *)
Definition log_end (c : log_config) (mode : log_mode) (level : Z) : option sink * outcome :=
  let printed :=
    match lower_bound (level, 0) (ranges c) with
    | Some range => range.2 <=? level
    | None => false
    end || (level =? ASSERT) in
  (if printed
   then Some match mode with
             | CONSOLE => if level <=? error_mark c then Stderr else Stdout
             | SYSLOG => Syslog (syslog_priority level)
             end
   else None,
   if level =? FATAL then Exit1 else if level =? ASSERT then Abort_ else Continue).

(** ** Reference: a level is asked for by some configured range *)

Definition in_range (level : Z) (r : Range) : Prop :=
  match left_ r with
  | Some l => l <= level <= right_ r
  | None => level = right_ r
  end.

Definition requested (levels : list Range) (level : Z) : Prop := Exists (in_range level) levels.

Definition range_ok (r : Range) : Prop :=
  0 <= right_ r < 2 ^ 32 - 1 /\ match left_ r with Some l => 0 <= l | None => True end.

(** Ranges of [(left, right)] pairs, and of the swapped pairs of a range set. *)
Definition covers (l : list (Z * Z)) (level : Z) : Prop :=
  Exists (fun p => p.1 <= level <= p.2) l.
Definition covers_set (l : list (Z * Z)) (level : Z) : Prop :=
  Exists (fun p => p.2 <= level <= p.1) l.

(** Ascending by left end; every range non-empty and within bounds. *)
Definition lefts_sorted (l : list (Z * Z)) : Prop := StronglySorted (fun p q => p.1 <= q.1) l.
Definition pairs_ok (l : list (Z * Z)) : Prop :=
  Forall (fun p => 0 <= p.1 <= p.2 /\ p.2 < 2 ^ 32 - 1) l.

(** The range set the merge builds: disjoint, ascending. *)
Definition set_ok (l : list (Z * Z)) : Prop :=
  StronglySorted (fun p q => p.1 < q.2) l /\ Forall (fun p => 0 <= p.2 <= p.1) l.

Lemma lex_lt_le p q : lex_lt p q = true -> p.1 <= q.1.
Proof. unfold lex_lt. rewrite orb_true_iff, andb_true_iff. intros [H | [H _]]; bool_to_prop; lia. Qed.

Lemma lex_not_lt p q : lex_lt p q = false -> q.1 <= p.1.
Proof. unfold lex_lt. intros H. bool_to_prop. lia. Qed.

Lemma lex_eq p q : lex_lt p q = false -> lex_lt q p = false -> p = q.
Proof.
  unfold lex_lt. destruct p as [a b], q as [c d]. simpl. intros H1 H2.
  apply orb_false_elim in H1 as [H1 H1'], H2 as [H2 H2']. bool_to_prop.
  assert (a = c) as -> by lia. rewrite Z.eqb_refl in *. simpl in *. bool_to_prop. f_equal. lia.
Qed.

Lemma emplace_Forall (P : Z * Z -> Prop) p l : Forall P l -> P p -> Forall P (emplace p l).
Proof.
  induction 1 as [|q l Hq Hl IH]; intros Hp; simpl; [by constructor |].
  repeat case_match; by repeat constructor; auto.
Qed.

Lemma emplace_Exists (P : Z * Z -> Prop) p l : Exists P (emplace p l) <-> P p \/ Exists P l.
Proof.
  induction l as [|q l IH]; simpl; [by rewrite Exists_cons |].
  destruct (lex_lt p q) eqn:H1; [by rewrite Exists_cons |].
  destruct (lex_lt q p) eqn:H2.
  - rewrite !Exists_cons, IH. tauto.
  - rewrite (lex_eq _ _ H1 H2), Exists_cons. tauto.
Qed.

Lemma emplace_sorted p l : lefts_sorted l -> lefts_sorted (emplace p l).
Proof.
  unfold lefts_sorted. induction 1 as [|q l Hl IH Hq]; simpl; [by repeat constructor |].
  destruct (lex_lt p q) eqn:H1; [| destruct (lex_lt q p) eqn:H2].
  - pose proof (lex_lt_le _ _ H1). constructor; [by constructor |]. constructor; [done |].
    eapply Forall_impl; [exact Hq |]. simpl. lia.
  - constructor; [done |]. apply emplace_Forall; [done |]. by apply lex_not_lt.
  - by constructor.
Qed.

(** Emplacing above every element appends. *)
Lemma emplace_last p l : Forall (fun q => q.1 < p.1) l -> emplace p l = l ++ [p].
Proof.
  induction 1 as [|q l Hq Hl IH]; [done |]. simpl.
  assert (lex_lt p q = false) as ->.
  { unfold lex_lt. apply orb_false_intro; [lia |]. apply andb_false_intro1. lia. }
  assert (lex_lt q p = true) as ->; [| by rewrite IH].
  unfold lex_lt. apply orb_true_intro. left. lia.
Qed.

Lemma set_ok_snoc l p :
  set_ok l -> 0 <= p.2 <= p.1 -> Forall (fun q => q.1 < p.2) l -> set_ok (l ++ [p]).
Proof.
  intros [Hs Hl] Hp Hb. split; [| by rewrite Forall_app, Forall_singleton].
  induction Hs as [|q l Hs IH Hq]; simpl; [by repeat constructor |].
  apply Forall_cons in Hl as [_ Hl], Hb as [Hqb Hb]. constructor; [by apply IH |].
  by rewrite Forall_app, Forall_singleton.
Qed.

Lemma merge_loop_spec rest current acc :
  pairs_ok (current :: rest) -> lefts_sorted (current :: rest) ->
  set_ok acc -> Forall (fun q => q.1 < current.1) acc ->
  set_ok (merge_loop current rest acc) /\
  forall level, covers_set (merge_loop current rest acc) level <->
                covers_set acc level \/ covers (current :: rest) level.
Proof.
  revert current acc. induction rest as [|it rest IH]; intros current acc Hok Hsort Hacc Hlt.
  all: apply Forall_cons in Hok as [Hc Hok].
  all: assert (emplace (current.2, current.1) acc = acc ++ [(current.2, current.1)]) as Hemp
    by (apply emplace_last; eapply Forall_impl; [exact Hlt |]; simpl; lia).
  all: assert (set_ok (acc ++ [(current.2, current.1)])) as Hacc' by (by apply set_ok_snoc; simpl; [done | lia |]).
  - cbn [merge_loop]. rewrite Hemp. split; [done |]. intros level.
    unfold covers_set, covers. rewrite Exists_app, !Exists_cons, !Exists_nil. simpl. tauto.
  - apply StronglySorted_inv in Hsort as [Hsort Hfirst].
    pose proof Hok as Hok'. apply Forall_cons in Hok' as [Hit Hok'].
    apply Forall_cons in Hfirst as [Hle Hfirst].
    pose proof Hsort as Hsort'. apply StronglySorted_inv in Hsort' as [Hsort' Hfirst'].
    cbn [merge_loop]. rewrite wrap_small by lia.
    destruct (Z.leb_spec it.1 (current.2 + 1)) as [Hm | Hm].
    + destruct (IH (current.1, Z.max it.2 current.2) acc) as [H1 H2].
      * constructor; [simpl; lia | done].
      * constructor; [done |]. eapply Forall_impl; [exact Hfirst |]. simpl. lia.
      * done.
      * done.
      * split; [done |]. intros level. rewrite H2. unfold covers. rewrite !Exists_cons. simpl.
        intuition lia.
    + rewrite Hemp. destruct (IH it (acc ++ [(current.2, current.1)])) as [H1 H2]; [done | done | done | |].
      * rewrite Forall_app, Forall_singleton. split; [| simpl; lia].
        eapply Forall_impl; [exact Hlt |]. simpl. lia.
      * split; [done |]. intros level. rewrite H2. unfold covers_set, covers.
        rewrite Exists_app, !Exists_cons, !Exists_nil. simpl. tauto.
Qed.

Lemma collect_levels_spec levels :
  Forall range_ok levels ->
  pairs_ok (collect_levels levels) /\ lefts_sorted (collect_levels levels) /\
  forall level, covers (collect_levels levels) level <-> requested levels level.
Proof.
  unfold collect_levels, requested, covers, pairs_ok.
  induction levels as [|r levels IH] using rev_ind; intros Hok.
  - simpl. split_and!; [constructor | constructor | by intros; rewrite !Exists_nil].
  - rewrite Forall_app, Forall_singleton in Hok. destruct Hok as [Hok [Hr1 Hr2]].
    destruct (IH Hok) as (H1 & H2 & H3). rewrite foldl_app. simpl.
    unfold in_range in *. destruct r as [[l|] rt]; simpl in *; [case_if |].
    + split_and!; [done | done |]. intros level. rewrite H3, Exists_app, Exists_cons, Exists_nil. simpl.
      intuition lia.
    + split_and!; [by apply emplace_Forall; [| simpl; lia] | by apply emplace_sorted |].
      intros level. rewrite emplace_Exists, H3, Exists_app, Exists_cons, Exists_nil. simpl. tauto.
    + split_and!; [by apply emplace_Forall; [| simpl; lia] | by apply emplace_sorted |].
      intros level. rewrite emplace_Exists, H3, Exists_app, Exists_cons, Exists_nil. simpl. intuition lia.
Qed.

Lemma merge_ranges_spec levels :
  Forall range_ok levels ->
  set_ok (merge_ranges (collect_levels levels)) /\
  forall level, covers_set (merge_ranges (collect_levels levels)) level <-> requested levels level.
Proof.
  intros Hok. destruct (collect_levels_spec levels Hok) as (H1 & H2 & H3).
  setoid_rewrite <-H3. destruct (collect_levels levels) as [|c l].
  - split; [by repeat constructor |]. intros level. unfold covers_set, covers. by rewrite !Exists_nil.
  - destruct (merge_loop_spec l c []) as [H4 H5]; [done | done | by repeat constructor | constructor |].
    split; [done |]. intros level. rewrite H5. unfold covers_set. rewrite Exists_nil. tauto.
Qed.

Lemma set_ok_reset l : set_ok l -> reset_ok 0 l = true.
Proof.
  intros [Hs Hl]. assert (forall prev, Forall (fun q => prev < q.2) l \/ prev = 0 -> reset_ok prev l = true) as H;
    [| apply H; by right].
  induction Hs as [|q l Hs IH Hq]; intros prev Hp; [done |]. simpl.
  apply Forall_cons in Hl as [Hq' Hl].
  assert (((0 <? prev) && (q.2 <=? prev)) || (q.1 <? q.2) = false) as ->.
  { apply orb_false_intro; [| lia]. destruct Hp as [Hp | ->]; [| done].
    apply Forall_cons in Hp as [Hp _]. apply andb_false_intro2. lia. }
  apply IH; [done |]. by left.
Qed.

Lemma lower_bound_covers l level :
  set_ok l ->
  match lower_bound (level, 0) l with Some range => range.2 <=? level | None => false end = true
  <-> covers_set l level.
Proof.
  intros [Hs Hl]. unfold covers_set. induction Hs as [|q l Hs IH Hq]; simpl; [by rewrite Exists_nil |].
  apply Forall_cons in Hl as [Hq' Hl]. rewrite Exists_cons. destruct q as [rq lq]. simpl in *.
  unfold lex_lt at 1. simpl. destruct (Z.ltb_spec rq level); simpl.
  - rewrite IH by done. split; [by right |]. intros [?|?]; [lia | done].
  - replace ((rq =? level) && (lq <? 0)) with false
      by (symmetry; apply andb_false_intro2; lia). simpl. rewrite Z.leb_le. split; [left; lia |].
    intros [?|H']; [lia |]. apply Exists_exists in H' as (p & Hp & H').
    eapply Forall_forall in Hq; [| done]. simpl in Hq. lia.
Qed.

(** ** Properties *)

(** With the verbosity levels of a configuration below the largest 32-bit
    value, the merged ranges are accepted by [Log::Reset] and a message is
    printed exactly when its level lies in one of the configured ranges (an
    assertion always is); its destination follows the error mark. *)
Theorem verbosity_spec (mark : Z) (levels : list Range) (c : log_config) (level : Z) :
  Forall range_ok levels ->
  let c' := setup_verbosity mark levels c in
  error_mark c' = mark /\
  (is_Some (log_end c' CONSOLE level).1 <-> requested levels level \/ level = ASSERT) /\
  ((log_end c' CONSOLE level).1 = Some Stderr ->  level <= mark).
Proof.
  intros Hok c'. destruct (merge_ranges_spec levels Hok) as [Hset Hcov].
  unfold c', setup_verbosity, Reset. rewrite set_ok_reset by done. simpl.
  split; [done |]. rewrite <-Hcov, <-lower_bound_covers by done.
  destruct (match lower_bound _ _ with Some _ => _ | None => _ end); simpl.
  - split; [split; [by left | by eexists] |]. case_if; [lia | done].
  - split.
    + case_if; [split; [by right | by eexists] |]. split; [by intros [? ?] |]. by intros [? | ?].
    + destruct (level =? ASSERT); [| done]. case_if; [lia | done].
Qed.

Lemma verbosity_spec_witness :
  Forall range_ok [{| left_ := Some 0; right_ := 20 |}; {| left_ := Some 21; right_ := 30 |}] /\
  is_Some (log_end (setup_verbosity 10
    [{| left_ := Some 0; right_ := 20 |}; {| left_ := Some 21; right_ := 30 |}]
    default_config) CONSOLE WARNING).1.
Proof.
  assert (Forall range_ok [{| left_ := Some 0; right_ := 20 |}; {| left_ := Some 21; right_ := 30 |}]) as H
    by (repeat constructor; simpl; lia).
  split; [exact H |].
  apply (proj1 (proj2 (verbosity_spec 10 _ default_config WARNING H))). left.
  constructor. unfold in_range. simpl. unfold WARNING. lia.
Defined.

(** A range that ends at the largest 32-bit level makes [current.second + 1]
    wrap to zero: the ranges are then not merged, [Log::Reset] finds them out of
    order and keeps the old configuration, so that a level the configuration
    asks for is not printed. *)
Theorem verbosity_overflow :
  let levels := [{| left_ := Some 0; right_ := 2 ^ 32 - 1 |}; {| left_ := Some 5; right_ := 7 |}] in
  requested levels INFO /\
  setup_verbosity 10 levels default_config = default_config /\
  (log_end (setup_verbosity 10 levels default_config) CONSOLE INFO).1 = None.
Proof.
  split_and!; [| by vm_compute | by vm_compute].
  constructor. unfold in_range, INFO. simpl. lia.
Qed.
