(* ===== verification/LockedQueue.v ===== *)
(** The sharded task queue [base::LockedQueue] and its index
    ([src/src/base/locked_queue.h], [src/src/base/locked_queue_index.h]).

    Every critical section of the class is one definition on the state of the
    queue; [step] interleaves them with the parts of [Push] that run outside
    the lock (the test of [closed_] before it, the increment of [size_] after
    it).  A list node is named by the address it is given when it is inserted;
    the iterators of the index are these addresses. *)

From S2P Require Import Prelude.

#[local] Open Scope Z_scope.

Definition UNLIMITED : Z := 0.
Definition DEFAULT_SHARD : nat := 0.
Definition NOT_STRICT_SHARDING : Z := 0.

Section Queue.
Context {T : Type}.

(** ** State *)

Record Index := {
  index_ : list (list nat);           (* [std::deque<Shard>]: the tasks of each shard *)
  reverse_index_ : gmap nat nat       (* node -> shard *)
}.

Record Queue := {
  queue_ : list (nat * T);
  index : Index;
  capacity_ : Z;
  size_ : Z;
  closed_ : bool;
  next_ : nat                         (* the address of the next node *)
}.

Definition empty_index : Index := {| index_ := [[]]; reverse_index_ := ∅ |}.

Definition new_queue (capacity : Z) : Queue :=
  {| queue_ := []; index := empty_index; capacity_ := capacity; size_ := 0;
     closed_ := false; next_ := 0%nat |}.

(** ** [LockedQueue::Index]

    [None] is undefined behaviour: an index out of range or a missing node. *)

(** [std::deque::resize] *)
Definition resize_shards (n : nat) (l : list (list nat)) : list (list nat) :=
  take n l ++ replicate (n - length l) [].

Definition EnsureShardExists (shard : nat) (ix : Index) : Index :=
  if (length (index_ ix) <=? shard)%nat
  then {| index_ := resize_shards (Z.to_nat (u32 (Z.of_nat shard + 1))) (index_ ix);
          reverse_index_ := reverse_index_ ix |}
  else ix.

Definition Put (it shard : nat) (ix : Index) : option Index :=
  let ix := EnsureShardExists shard ix in
  match index_ ix !! shard with
  | Some tasks => Some {| index_ := <[shard := tasks ++ [it]]> (index_ ix);
                          reverse_index_ := <[it := shard]> (reverse_index_ ix) |}
  | None => None
  end.

Definition ShardIsEmpty (shard : nat) (ix : Index) : option bool :=
  match index_ ix !! shard with
  | Some tasks => Some (bool_decide (tasks = []))
  | None => None
  end.

(** The scan of [MaybeOverloadedShard] from shard number [current] on. *)
Fixpoint overloaded_scan (limit : Z) (shards : list (list nat)) (current : nat) : option nat :=
  match shards with
  | [] => None
  | tasks :: shards => if limit <? Zlen tasks then Some current
                       else overloaded_scan limit shards (S current)
  end.

Definition MaybeOverloadedShard (limit : Z) (shard : nat) (ix : Index) : option (nat * Index) :=
  let ix := EnsureShardExists shard ix in
  match index_ ix !! shard with
  | None => None
  | Some (_ :: _) => Some (shard, ix)
  | Some [] => Some (default shard (overloaded_scan limit (index_ ix) 0), ix)
  end.

Definition GetStrict (shard : nat) (ix : Index) : option (nat * Index) :=
  match index_ ix !! shard with
  | Some (item :: tasks) =>
      Some (item, {| index_ := <[shard := tasks]> (index_ ix);
                     reverse_index_ := delete item (reverse_index_ ix) |})
  | _ => None
  end.

Definition GetWithHint (shard : nat) (begin : option nat) (ix : Index) : option (nat * Index) :=
  match index_ ix !! shard with
  | Some (item :: tasks) => GetStrict shard ix
  | _ =>
      match begin with
      | None => None
      | Some item =>
          match reverse_index_ ix !! item with
          | None => None
          | Some shard =>
              match index_ ix !! shard with
              | None => None
              | Some tasks =>
                  Some (item, {| index_ := <[shard := filter (fun n => n <> item) tasks]> (index_ ix);
                                 reverse_index_ := delete item (reverse_index_ ix) |})
              end
          end
      end
  end.

(** ** [LockedQueue] *)

Definition with_index (q : Queue) (ix : Index) : Queue :=
  {| queue_ := queue_ q; index := ix; capacity_ := capacity_ q; size_ := size_ q;
     closed_ := closed_ q; next_ := next_ q |}.

Definition Close (q : Queue) : Queue :=
  {| queue_ := queue_ q; index := index q; capacity_ := capacity_ q; size_ := size_ q;
     closed_ := true; next_ := next_ q |}.

Definition Size (q : Queue) : Z := u32 (size_ q).

(** The critical section of [Push]. *)
Definition push_locked (obj : T) (shard : nat) (q : Queue) : option (bool * Queue) :=
  if (capacity_ q <=? Zlen (queue_ q)) && negb (capacity_ q =? UNLIMITED)
  then Some (false, q)
  else match Put (next_ q) shard (index q) with
       | None => None
       | Some ix =>
           Some (true, {| queue_ := queue_ q ++ [(next_ q, obj)]; index := ix;
                          capacity_ := capacity_ q; size_ := size_ q;
                          closed_ := closed_ q; next_ := S (next_ q) |})
       end.

(** [++size_] *)
Definition push_count (q : Queue) : Queue :=
  {| queue_ := queue_ q; index := index q; capacity_ := capacity_ q;
     size_ := u64 (size_ q + 1); closed_ := closed_ q; next_ := next_ q |}.

(** [Push] when no other thread comes in between. *)
Definition Push (obj : T) (shard : nat) (q : Queue) : option (bool * Queue) :=
  if closed_ q then Some (false, q)
  else match push_locked obj shard q with
       | Some (true, q) => Some (true, push_count q)
       | r => r
       end.

Inductive pop_result := Wait | Disengaged | Popped (item : nat) (task : T).

Definition RemoveTaskFromQueue (r : option (nat * Index)) (q : Queue)
    : option (pop_result * Queue) :=
  match r with
  | None => None
  | Some (item, ix) =>
      match list_find (fun n => n.1 = item) (queue_ q) with
      | None => None
      | Some (i, (_, task)) =>
          Some (Popped item task,
                {| queue_ := delete i (queue_ q); index := ix; capacity_ := capacity_ q;
                   size_ := u64 (size_ q - 1); closed_ := closed_ q; next_ := next_ q |})
      end
  end.

Definition begin (q : Queue) : option nat := fst <$> head (queue_ q).
Definition is_empty (q : Queue) : bool := bool_decide (queue_ q = []).

(** [Pop()]: one evaluation of the condition that [wait] tests. *)
Definition Pop (q : Queue) : option (pop_result * Queue) :=
  if negb (closed_ q || negb (is_empty q)) then Some (Wait, q)
  else if closed_ q && is_empty q then Some (Disengaged, q)
  else RemoveTaskFromQueue (GetWithHint DEFAULT_SHARD (begin q) (index q)) q.

(** One turn of [PopWithHint]; waiting makes sure that the shard exists. *)
Definition PopWithHint (shutting_down : bool) (shard : nat) (q : Queue)
    : option (pop_result * Queue) :=
  if negb (closed_ q) && is_empty q && negb shutting_down
  then Some (Wait, with_index q (EnsureShardExists shard (index q)))
  else if (closed_ q && is_empty q) || shutting_down then Some (Disengaged, q)
  else RemoveTaskFromQueue (GetWithHint shard (begin q) (index q)) q.

(** The waiting loop of [PopStrict] and what follows it. *)
Definition strict_loop (shutting_down : bool) (shard : nat) (q : Queue)
    : option (pop_result * Queue) :=
  match ShardIsEmpty shard (index q) with
  | None => None
  | Some e =>
      if negb (closed_ q) && e && negb shutting_down
      then Some (Wait, with_index q (EnsureShardExists shard (index q)))
      else if (closed_ q && e) || shutting_down then Some (Disengaged, q)
      else RemoveTaskFromQueue (GetStrict shard (index q)) q
  end.

Definition PopStrict (shutting_down : bool) (limit : Z) (shard : nat) (no_wait : bool)
    (q : Queue) : option (pop_result * Queue) :=
  match MaybeOverloadedShard limit shard (index q) with
  | None => None
  | Some (overloaded, ix) =>
      let q := with_index q ix in
      if negb (shard =? overloaded)%nat then
        if shutting_down then Some (Disengaged, q)
        else RemoveTaskFromQueue (GetStrict overloaded (index q)) q
      else if no_wait then
        match ShardIsEmpty shard (index q) with
        | None => None
        | Some e => if shutting_down || e then Some (Disengaged, q)
                    else RemoveTaskFromQueue (GetStrict shard (index q)) q
        end
      else strict_loop shutting_down shard q
  end.

(** [Pop(pool, shard_queue_limit, shard, no_wait)] *)
Definition Pop_pool (shutting_down : bool) (limit : Z) (shard : nat) (no_wait : bool)
    (q : Queue) : option (pop_result * Queue) :=
  if limit =? NOT_STRICT_SHARDING then PopWithHint shutting_down shard q
  else PopStrict shutting_down limit shard no_wait q.

(** ** Interleavings

    [passed] holds the pushes that have read [closed_ = false] and not yet
    taken the lock, [uncounted] the number of pushes that have left the lock
    and not yet incremented [size_], [waiting] the shards on which a strict pop
    sleeps.  [accepted] and [taken] record the nodes that entered and left the
    queue, with their shard, in order. *)
Record system := {
  q_ : Queue;
  passed : list (T * nat);
  uncounted : nat;
  waiting : list nat;
  accepted : list (nat * nat);
  taken : list (nat * nat)
}.

Definition init (capacity : Z) : system :=
  {| q_ := new_queue capacity; passed := []; uncounted := 0; waiting := [];
     accepted := []; taken := [] |}.

(** What a pop that returned [r] in state [s] leaves, with [w] as the new list
    of waiting threads. *)
Definition after_pop (s : system) (r : pop_result) (q : Queue) (w : list nat) : system :=
  {| q_ := q; passed := passed s; uncounted := uncounted s;
     waiting := w; accepted := accepted s;
     taken := match r with
              | Popped item _ =>
                  taken s ++ match reverse_index_ (index (q_ s)) !! item with
                             | Some shard => [(item, shard)]
                             | None => []
                             end
              | _ => taken s
              end |}.

Inductive step : system -> system -> Prop :=
| step_close s :
    step s {| q_ := Close (q_ s); passed := passed s; uncounted := uncounted s;
              waiting := waiting s; accepted := accepted s; taken := taken s |}
| step_push_check s obj shard :
    closed_ (q_ s) = false -> Z.of_nat shard < 2 ^ 32 - 1 ->
    step s {| q_ := q_ s; passed := (obj, shard) :: passed s; uncounted := uncounted s;
              waiting := waiting s; accepted := accepted s; taken := taken s |}
| step_push_locked s obj shard p1 p2 b q :
    passed s = p1 ++ (obj, shard) :: p2 ->
    push_locked obj shard (q_ s) = Some (b, q) ->
    step s {| q_ := q; passed := p1 ++ p2;
              uncounted := if b then S (uncounted s) else uncounted s;
              waiting := waiting s;
              accepted := if b then accepted s ++ [(next_ (q_ s), shard)] else accepted s;
              taken := taken s |}
| step_push_count s n :
    uncounted s = S n ->
    step s {| q_ := push_count (q_ s); passed := passed s; uncounted := n;
              waiting := waiting s; accepted := accepted s; taken := taken s |}
| step_pop s r q :
    Pop (q_ s) = Some (r, q) -> step s (after_pop s r q (waiting s))
| step_pop_pool s down limit shard no_wait r q :
    Z.of_nat shard < 2 ^ 32 - 1 -> 0 <= limit ->
    Pop_pool down limit shard no_wait (q_ s) = Some (r, q) ->
    step s (after_pop s r q
              match r with
              | Wait => if limit =? NOT_STRICT_SHARDING then waiting s else shard :: waiting s
              | _ => waiting s
              end)
| step_wake s down shard w1 w2 r q :
    waiting s = w1 ++ shard :: w2 ->
    strict_loop down shard (q_ s) = Some (r, q) ->
    step s (after_pop s r q match r with Wait => waiting s | _ => w1 ++ w2 end).

Inductive reachable (capacity : Z) : system -> Prop :=
| reach_init : reachable capacity (init capacity)
| reach_step s s' : reachable capacity s -> step s s' -> reachable capacity s'.

(** ** The invariant *)

(** The nodes of shard [s] among [l], in the order of [l]. *)
Definition shard_of (rev : gmap nat nat) (s : nat) (l : list nat) : list nat :=
  filter (fun a => rev !! a = Some s) l.

(** The index partitions the nodes of the queue by shard, each shard in queue
    order; the reverse index knows exactly the nodes of the queue. *)
Record index_ok (nodes : list nat) (ix : Index) : Prop := {
  ok_shards : forall s tasks, index_ ix !! s = Some tasks ->
                tasks = shard_of (reverse_index_ ix) s nodes;
  ok_reverse : forall a s, reverse_index_ ix !! a = Some s ->
                a ∈ nodes /\ (s < length (index_ ix))%nat;
  ok_known : forall a, a ∈ nodes -> is_Some (reverse_index_ ix !! a)
}.

Definition nodes (q : Queue) : list nat := (queue_ q).*1.

Record queue_ok (q : Queue) : Prop := {
  ok_nodup : NoDup (nodes q);
  ok_fresh : Forall (fun a => a < next_ q)%nat (nodes q);
  ok_index : index_ok (nodes q) (index q);
  ok_default : (0 < length (index_ (index q)))%nat;
  ok_capacity : capacity_ q <> UNLIMITED -> 0 <= capacity_ q -> Zlen (queue_ q) <= capacity_ q
}.

(** ** The index *)

Lemma shard_of_app rev s l k : shard_of rev s (l ++ k) = shard_of rev s l ++ shard_of rev s k.
Proof. apply filter_app. Qed.

Lemma elem_of_shard_of rev s l a : a ∈ shard_of rev s l <-> rev !! a = Some s /\ a ∈ l.
Proof. unfold shard_of. by rewrite list_elem_of_filter. Qed.

Lemma shard_of_insert_fresh (rev : gmap nat nat) s s' a l :
  a ∉ l -> shard_of (<[a := s']> rev) s l = shard_of rev s l.
Proof.
  intros Ha. unfold shard_of. apply filter_ext_in. intros b Hb.
  rewrite lookup_insert_ne; [done | by intros ->].
Qed.

Lemma shard_of_new (rev : gmap nat nat) s s' a :
  shard_of (<[a := s']> rev) s [a] = if decide (s' = s) then [a] else [].
Proof.
  unfold shard_of. rewrite filter_cons, lookup_insert_eq.
  destruct (decide (s' = s)), (decide (Some s' = Some s)); first [done | congruence].
Qed.

Lemma shard_of_delete (rev : gmap nat nat) s a l :
  shard_of (delete a rev) s (filter (fun b => b <> a) l) = filter (fun b => b <> a) (shard_of rev s l).
Proof.
  unfold shard_of. rewrite !list_filter_filter. apply list_filter_iff. intros b.
  destruct (decide (b = a)) as [-> | Hb].
  - split; intros [? ?]; congruence.
  - rewrite lookup_delete_ne by done. tauto.
Qed.

Lemma filter_ne_fresh a (l : list nat) : a ∉ l -> filter (fun b => b <> a) l = l.
Proof. intros Ha. apply filter_all. by intros b Hb ->. Qed.

Lemma filter_ne_head a (l : list nat) : NoDup (a :: l) -> filter (fun b => b <> a) (a :: l) = l.
Proof.
  intros [Ha Hl]%NoDup_cons. rewrite filter_cons_False by tauto. by apply filter_ne_fresh.
Qed.

Lemma ensure_ok nodes ix shard :
  Z.of_nat shard < 2 ^ 32 - 1 -> index_ok nodes ix ->
  index_ok nodes (EnsureShardExists shard ix) /\
  reverse_index_ (EnsureShardExists shard ix) = reverse_index_ ix /\
  (shard < length (index_ (EnsureShardExists shard ix)))%nat /\
  (length (index_ ix) <= length (index_ (EnsureShardExists shard ix)))%nat.
Proof.
  intros Hs [H1 H2 H3]. unfold EnsureShardExists.
  destruct (Nat.leb_spec (length (index_ ix)) shard) as [Hlen | Hlen]; [| by split_and!; [constructor | | |]].
  unfold resize_shards. rewrite wrap_small by lia. simpl.
  rewrite take_ge by lia. rewrite length_app, length_replicate. split_and!; [| done | lia | lia].
  constructor; simpl.
  - intros s tasks Hl. apply lookup_app_Some in Hl as [Hl | [Hge Hl]]; [by apply H1 |].
    apply lookup_replicate in Hl as [-> _]. symmetry. apply filter_none.
    intros a _ Ha. apply H2 in Ha. lia.
  - intros a s Ha. apply H2 in Ha as [? ?]. rewrite length_app. split; [done | lia].
  - done.
Qed.

Lemma put_ok nodes ix shard a :
  Z.of_nat shard < 2 ^ 32 - 1 -> index_ok nodes ix -> a ∉ nodes ->
  exists ix', Put a shard ix = Some ix' /\ index_ok (nodes ++ [a]) ix' /\
    reverse_index_ ix' = <[a := shard]> (reverse_index_ ix) /\
    (length (index_ ix) <= length (index_ ix'))%nat.
Proof.
  intros Hs Hok Ha. destruct (ensure_ok _ _ _ Hs Hok) as ([H1 H2 H3] & Hrev & Hlen & Hgrow).
  unfold Put. set (ix1 := EnsureShardExists shard ix) in *.
  destruct (lookup_lt_is_Some_2 _ _ Hlen) as [tasks Ht]. rewrite Ht.
  eexists. split; [done |]. simpl. rewrite length_insert, <-Hrev. split_and!; [| done | done].
  constructor; simpl.
  - intros s tasks' Hl. rewrite shard_of_app, shard_of_insert_fresh by done.
    apply list_lookup_insert_Some in Hl as [(-> & <- & _) | [Hne Hl]].
    + by rewrite shard_of_new, decide_True, <-(H1 _ _ Ht).
    + by rewrite shard_of_new, decide_False, app_nil_r, <-(H1 _ _ Hl).
  - intros b s. rewrite length_insert. intros [[-> ->] | [? Hb]]%lookup_insert_Some.
    + split; [apply elem_of_app; right; left | done].
    + apply H2 in Hb as [? ?]. split; [apply elem_of_app; by left | done].
  - intros b [Hb | ->%list_elem_of_singleton]%elem_of_app; [| rewrite lookup_insert_eq; by eexists].
    rewrite lookup_insert_is_Some. destruct (decide (a = b)); [by left | right]. auto.
Qed.

(** Unlinking node [a] of shard [s] from both indexes. *)
Lemma unlink_ok nodes ix a s tasks :
  index_ok nodes ix -> reverse_index_ ix !! a = Some s -> index_ ix !! s = Some tasks ->
  index_ok (filter (fun b => b <> a) nodes)
    {| index_ := <[s := filter (fun b => b <> a) tasks]> (index_ ix);
       reverse_index_ := delete a (reverse_index_ ix) |}.
Proof.
  intros [H1 H2 H3] Ha Hs. constructor; simpl.
  - intros s' tasks' Hl. rewrite shard_of_delete.
    apply list_lookup_insert_Some in Hl as [(-> & <- & _) | [Hne Hl]]; [by rewrite (H1 _ _ Hs) |].
    rewrite <-(H1 _ _ Hl), filter_ne_fresh; [done |].
    rewrite (H1 _ _ Hl), elem_of_shard_of. intros [? _]. congruence.
  - intros b s' [Hb Hrev]%lookup_delete_Some. rewrite length_insert.
    apply H2 in Hrev as [? ?]. split; [| done]. by apply list_elem_of_filter.
  - intros b [Hb Hin]%list_elem_of_filter. rewrite lookup_delete_ne by done. auto.
Qed.

Lemma get_strict_ok nodes ix shard a tasks :
  index_ok nodes ix -> NoDup nodes -> index_ ix !! shard = Some (a :: tasks) ->
  exists ix', GetStrict shard ix = Some (a, ix') /\ reverse_index_ ix !! a = Some shard /\
    index_ok (filter (fun b => b <> a) nodes) ix' /\
    length (index_ ix') = length (index_ ix).
Proof.
  intros Hok Hnd Hs. unfold GetStrict. rewrite Hs. eexists. split; [done |].
  pose proof (ok_shards _ _ Hok _ _ Hs) as Hview.
  assert (reverse_index_ ix !! a = Some shard) as Ha.
  { apply (elem_of_shard_of _ _ nodes). rewrite <-Hview. left. }
  split_and!; [done | | simpl; apply length_insert].
  rewrite <-(filter_ne_head a tasks); [by apply unlink_ok |].
  rewrite Hview. by apply NoDup_filter.
Qed.

(** The shard a pop with a hint takes from: its own if it has a task. *)
Lemma get_with_hint_ok nodes ix shard a0 rest :
  index_ok nodes ix -> NoDup nodes -> nodes = a0 :: rest ->
  exists a s ix', GetWithHint shard (Some a0) ix = Some (a, ix') /\
    reverse_index_ ix !! a = Some s /\
    index_ok (filter (fun b => b <> a) nodes) ix' /\
    length (index_ ix') = length (index_ ix) /\
    head (shard_of (reverse_index_ ix) s nodes) = Some a /\
    match head (shard_of (reverse_index_ ix) shard nodes) with
    | Some b => a = b /\ s = shard
    | None => a = a0
    end.
Proof.
  intros Hok Hnd ->. unfold GetWithHint.
  destruct (index_ ix !! shard) as [[|item tasks]|] eqn:Hs.
  2: { destruct (get_strict_ok _ _ _ _ _ Hok Hnd Hs) as (ix' & -> & Hrev & Hok' & Hlen).
       pose proof (ok_shards _ _ Hok _ _ Hs) as Hview.
       exists item, shard, ix'. rewrite <-Hview. done. }
  all: destruct (ok_known _ _ Hok a0 ltac:(left)) as [s Ha]; rewrite Ha.
  all: destruct (ok_reverse _ _ Hok _ _ Ha) as [_ Hlt].
  all: destruct (lookup_lt_is_Some_2 _ _ Hlt) as [tasks' Ht]; rewrite Ht.
  all: exists a0, s; eexists; split; [done |]; split_and!;
    [done | by apply unlink_ok | simpl; apply length_insert
    | unfold shard_of; by rewrite filter_cons_True |].
  - pose proof (ok_shards _ _ Hok _ _ Hs) as Hview. by rewrite <-Hview.
  - destruct (head (shard_of (reverse_index_ ix) shard (a0 :: rest))) as [b|] eqn:Hh; [| done].
    exfalso. apply head_Some_elem_of in Hh. apply elem_of_shard_of in Hh as [Hb _].
    apply (ok_reverse _ _ Hok) in Hb as [_ Hb]. apply lookup_lt_is_Some_2 in Hb as [? Hb]. congruence.
Qed.

Lemma overloaded_scan_spec limit shards k :
  match overloaded_scan limit shards k with
  | Some j => exists i tasks, j = (k + i)%nat /\ shards !! i = Some tasks /\ limit < Zlen tasks /\
                forall i' tasks', (i' < i)%nat -> shards !! i' = Some tasks' -> Zlen tasks' <= limit
  | None => forall i tasks, shards !! i = Some tasks -> Zlen tasks <= limit
  end.
Proof.
  revert k. induction shards as [|t shards IH]; intros k; simpl; [by intros i tasks; rewrite lookup_nil |].
  destruct (Z.ltb_spec limit (Zlen t)) as [Ht | Ht].
  - exists 0%nat, t. split_and!; [lia | done | done | lia].
  - specialize (IH (S k)). destruct (overloaded_scan limit shards (S k)) as [j|].
    + destruct IH as (i & tasks & -> & H1 & H2 & H3). exists (S i), tasks.
      split_and!; [lia | done | done |]. intros [|i'] tasks' Hi; simpl; [by intros [= <-] | apply H3; lia].
    + intros [|i] tasks; simpl; [by intros [= <-] | apply IH].
Qed.

(** ** The queue *)

Lemma delete_found (l : list (nat * T)) a i x :
  NoDup l.*1 -> list_find (fun n => n.1 = a) l = Some (i, x) ->
  delete i l = filter (fun n => n.1 <> a) l.
Proof.
  intros Hnd. revert i. induction l as [|n l IH]; intros i; [done |].
  rewrite fmap_cons in Hnd. apply NoDup_cons in Hnd as [Hn Hnd]. simpl. rewrite filter_cons.
  destruct (decide (n.1 = a)) as [<- | Hne].
  - intros [= <- <-]. simpl. rewrite decide_False by tauto. symmetry. apply filter_all.
    intros m Hm Heq. apply Hn. rewrite <-Heq. by apply list_elem_of_fmap_2.
  - destruct (list_find (fun n => n.1 = a) l) as [[j y]|] eqn:Hf; [| done].
    intros [= <- <-]. simpl. rewrite decide_True by done. f_equal. by apply IH.
Qed.

Lemma fmap_filter_fst a (l : list (nat * T)) :
  (filter (fun n => n.1 <> a) l).*1 = filter (fun b => b <> a) l.*1.
Proof.
  induction l as [|n l IH]; [done |]. rewrite fmap_cons, !filter_cons.
  destruct (decide (n.1 <> a)); rewrite ?fmap_cons; by rewrite IH.
Qed.

(** What a pop may do to a queue. *)
Definition pop_outcome (q : Queue) (r : pop_result) (q' : Queue) : Prop :=
  queue_ok q' /\ closed_ q' = closed_ q /\ next_ q' = next_ q /\ capacity_ q' = capacity_ q /\
  (length (index_ (index q)) <= length (index_ (index q')))%nat /\
  match r with
  | Popped item task =>
      (item, task) ∈ queue_ q /\ size_ q' = u64 (size_ q - 1) /\
      queue_ q' = filter (fun n => n.1 <> item) (queue_ q) /\
      reverse_index_ (index q') = delete item (reverse_index_ (index q)) /\
      exists s, reverse_index_ (index q) !! item = Some s /\
        head (shard_of (reverse_index_ (index q)) s (nodes q)) = Some item
  | _ => queue_ q' = queue_ q /\ size_ q' = size_ q /\
         reverse_index_ (index q') = reverse_index_ (index q)
  end.

Lemma outcome_same q r ix :
  queue_ok q -> (forall a t, r <> Popped a t) -> index_ok (nodes q) ix ->
  reverse_index_ ix = reverse_index_ (index q) ->
  (length (index_ (index q)) <= length (index_ ix))%nat -> pop_outcome q r (with_index q ix).
Proof.
  intros [H1 H2 H3 H4 H5] Hr Hix Hrev Hlen. unfold pop_outcome. split_and!; try done.
  - constructor; simpl; try done. lia.
  - destruct r; [done | done |]. by destruct (Hr item task).
Qed.

Lemma with_index_same q : with_index q (index q) = q.
Proof. by destruct q. Qed.

Lemma remove_task_ok q a s ix :
  queue_ok q -> reverse_index_ (index q) !! a = Some s ->
  head (shard_of (reverse_index_ (index q)) s (nodes q)) = Some a ->
  index_ok (filter (fun b => b <> a) (nodes q)) ix ->
  reverse_index_ ix = delete a (reverse_index_ (index q)) ->
  length (index_ ix) = length (index_ (index q)) ->
  exists task q', RemoveTaskFromQueue (Some (a, ix)) q = Some (Popped a task, q') /\
    pop_outcome q (Popped a task) q'.
Proof.
  intros Hq Hs Hhead Hix Hrev Hlen. destruct (ok_reverse _ _ (ok_index _ Hq) _ _ Hs) as [Hin _].
  unfold RemoveTaskFromQueue.
  destruct (list_find (fun n => n.1 = a) (queue_ q)) as [[i [a' task]]|] eqn:Hf.
  - pose proof (delete_found _ _ _ _ (ok_nodup _ Hq) Hf) as Hdel.
    apply list_find_Some in Hf as (Hi & Ha & _). simpl in Ha. subst a'.
    exists task. eexists. split; [done |]. unfold pop_outcome. simpl. rewrite Hdel, Hrev, Hlen.
    split_and!; try done; [| by eapply list_elem_of_lookup_2 | by exists s].
    destruct Hq as [H1 H2 H3 H4 H5]. constructor; unfold nodes; simpl; rewrite ?Hdel, ?fmap_filter_fst.
    + by apply NoDup_filter.
    + apply Forall_forall. intros b [_ Hb]%list_elem_of_filter. by apply (proj1 (Forall_forall _ _) H2).
    + done.
    + lia.
    + intros Hc1 Hc2. pose proof (length_filter (fun n => n.1 <> a) (queue_ q)).
      specialize (H5 Hc1 Hc2). unfold Zlen in *. lia.
  - exfalso. apply list_find_None in Hf. unfold nodes in Hin.
    apply list_elem_of_fmap in Hin as (n & -> & Hn).
    rewrite Forall_forall in Hf. by apply (Hf n Hn).
Qed.

Lemma outcome_transfer q ix r q' :
  reverse_index_ ix = reverse_index_ (index q) ->
  (length (index_ (index q)) <= length (index_ ix))%nat ->
  pop_outcome (with_index q ix) r q' -> pop_outcome q r q'.
Proof.
  unfold pop_outcome. simpl. unfold nodes. simpl. intros -> Hlen (? & ? & ? & ? & ? & ?).
  split_and!; try done. lia.
Qed.

Lemma is_empty_spec q : is_empty q = true <-> queue_ q = [].
Proof. apply bool_decide_eq_true. Qed.

(** The tasks of shard [s] that are in the queue, oldest first. *)
Definition tasks_of (q : Queue) (s : nat) : list nat :=
  shard_of (reverse_index_ (index q)) s (nodes q).

Lemma take_hint_ok q shard :
  queue_ok q -> queue_ q <> [] ->
  exists item task q',
    RemoveTaskFromQueue (GetWithHint shard (begin q) (index q)) q = Some (Popped item task, q') /\
    pop_outcome q (Popped item task) q' /\
    match head (tasks_of q shard) with Some b => item = b | None => Some item = begin q end.
Proof.
  intros Hq Hne. unfold begin. destruct (queue_ q) as [|[a0 t0] rest] eqn:Hqueue; [done |]. simpl.
  destruct (get_with_hint_ok (nodes q) (index q) shard a0 rest.*1) as
    (a & s & ix & Hget & Hrev & Hix & Hlen & Hhead & Hown); [apply Hq | apply Hq | by unfold nodes; rewrite Hqueue |].
  assert (reverse_index_ ix = delete a (reverse_index_ (index q))) as Hdel.
  { unfold GetWithHint, GetStrict in Hget. repeat case_match; congruence || by simplify_eq. }
  rewrite Hget. destruct (remove_task_ok q a s ix Hq Hrev Hhead Hix Hdel Hlen) as (task & q' & -> & Hout).
  exists a, task, q'. split_and!; [done | done |]. unfold tasks_of.
  destruct (head (shard_of (reverse_index_ (index q)) shard (nodes q))); [by destruct Hown | by rewrite Hown].
Qed.

Lemma take_strict_ok q shard a tasks :
  queue_ok q -> index_ (index q) !! shard = Some (a :: tasks) ->
  exists task q', RemoveTaskFromQueue (GetStrict shard (index q)) q = Some (Popped a task, q') /\
    pop_outcome q (Popped a task) q'.
Proof.
  intros Hq Hs. destruct (get_strict_ok (nodes q) (index q) shard a tasks) as (ix & Hget & Hrev & Hix & Hlen);
    [apply Hq | apply Hq | done |].
  rewrite Hget. apply remove_task_ok with shard; try done.
  - rewrite <-(ok_shards _ _ (ok_index _ Hq) _ _ Hs). done.
  - unfold GetStrict in Hget. rewrite Hs in Hget. by simplify_eq.
Qed.

(** A popped task leaves the queue and nothing else does. *)
Lemma popped_perm q item task q' :
  queue_ok q -> pop_outcome q (Popped item task) q' -> (item, task) :: queue_ q' ≡ₚ queue_ q.
Proof.
  intros Hq (_ & _ & _ & _ & _ & Hin & _ & Hqueue & _).
  apply list_elem_of_split in Hin as (l1 & l2 & Hl). rewrite Hqueue, Hl.
  pose proof (ok_nodup _ Hq) as Hnd. unfold nodes in Hnd. rewrite Hl, fmap_app in Hnd.
  cbn [fmap list_fmap] in Hnd. apply NoDup_app in Hnd as (_ & Hd1 & Hd2).
  apply NoDup_cons in Hd2 as [Hd2 _].
  rewrite filter_app, filter_cons_False by (simpl; by intros []).
  rewrite !filter_all.
  - apply Permutation_middle.
  - intros p Hp Heq. apply Hd2. simpl. rewrite <-Heq. exact (list_elem_of_fmap_2 fst _ _ Hp).
  - intros p Hp Heq. apply (Hd1 p.1); [exact (list_elem_of_fmap_2 fst _ _ Hp) |]. rewrite Heq. left.
Qed.

(** What each kind of pop returns, and when. *)
Definition hint_result (q : Queue) (down : bool) (shard : nat) (r : pop_result) : Prop :=
  match r with
  | Wait => closed_ q = false /\ queue_ q = [] /\ down = false
  | Disengaged => down = true \/ (closed_ q = true /\ queue_ q = [])
  | Popped item _ => down = false /\
      match head (tasks_of q shard) with Some b => item = b | None => Some item = begin q end
  end.

Lemma PopWithHint_ok q down shard :
  queue_ok q -> Z.of_nat shard < 2 ^ 32 - 1 ->
  exists r q', PopWithHint down shard q = Some (r, q') /\ pop_outcome q r q' /\
    hint_result q down shard r.
Proof.
  intros Hq Hs. unfold PopWithHint, hint_result.
  destruct (ensure_ok _ _ _ Hs (ok_index _ Hq)) as (He1 & He2 & _ & He3).
  destruct (closed_ q) eqn:Hc, (is_empty q) eqn:He, down; simpl.
  all: try (apply is_empty_spec in He).
  all: try (eexists _, q; split; [done |]; split; [| auto];
            rewrite <-(with_index_same q) at 2; by apply outcome_same; [| | apply Hq | |]).
  2: eexists _, _; split; [done |]; split; [by apply outcome_same | done].
  all: destruct (take_hint_ok q shard Hq) as (item & task & q' & -> & Hout & Hitem);
    [intros Hemp; apply is_empty_spec in Hemp; congruence |];
    by exists (Popped item task), q'.
Qed.

Lemma Pop_ok q :
  queue_ok q ->
  exists r q', Pop q = Some (r, q') /\ pop_outcome q r q' /\ hint_result q false DEFAULT_SHARD r.
Proof.
  intros Hq. unfold Pop, hint_result.
  destruct (closed_ q) eqn:Hc, (is_empty q) eqn:He; simpl.
  all: try (apply is_empty_spec in He).
  1, 3: eexists _, q; split; [done |]; split; [| auto];
        rewrite <-(with_index_same q) at 2; by apply outcome_same; [| | apply Hq | |].
  all: destruct (take_hint_ok q DEFAULT_SHARD Hq) as (item & task & q' & -> & Hout & Hitem);
    [intros Hemp; apply is_empty_spec in Hemp; congruence |];
    by exists (Popped item task), q'.
Qed.

Definition strict_wait_result (q : Queue) (down : bool) (shard : nat) (r : pop_result) : Prop :=
  match r with
  | Wait => closed_ q = false /\ tasks_of q shard = [] /\ down = false
  | Disengaged => down = true \/ (closed_ q = true /\ tasks_of q shard = [])
  | Popped item _ => down = false /\ head (tasks_of q shard) = Some item
  end.

Lemma strict_loop_ok q down shard :
  queue_ok q -> (shard < length (index_ (index q)))%nat -> Z.of_nat shard < 2 ^ 32 - 1 ->
  exists r q', strict_loop down shard q = Some (r, q') /\ pop_outcome q r q' /\
    strict_wait_result q down shard r.
Proof.
  intros Hq Hs Hb. destruct (lookup_lt_is_Some_2 _ _ Hs) as [tasks Ht].
  pose proof (ok_shards _ _ (ok_index _ Hq) _ _ Ht) as Hview. fold (tasks_of q shard) in Hview.
  destruct (ensure_ok _ _ _ Hb (ok_index _ Hq)) as (He1 & He2 & _ & He3).
  unfold strict_loop, ShardIsEmpty, strict_wait_result. rewrite Ht, <-Hview.
  destruct tasks as [|a tasks]; destruct (closed_ q) eqn:Hc, down; simpl.
  all: try (eexists _, q; split; [done |]; split; [| auto];
            rewrite <-(with_index_same q) at 2; by apply outcome_same; [| | apply Hq | |]).
  1: eexists _, _; split; [done |]; split; [by apply outcome_same | done].
  all: destruct (take_strict_ok q shard a tasks Hq Ht) as (task & q' & -> & Hout);
    by exists (Popped a task), q'.
Qed.

Definition strict_result (q : Queue) (down : bool) (limit : Z) (shard : nat) (no_wait : bool)
    (r : pop_result) : Prop :=
  let overloaded s := limit < Zlen (tasks_of q s) in
  match r with
  | Wait => no_wait = false /\ closed_ q = false /\ tasks_of q shard = [] /\ forall s, ~ overloaded s
  | Disengaged => down = true \/
      (tasks_of q shard = [] /\ (closed_ q = true \/ no_wait = true) /\ forall s, ~ overloaded s)
  | Popped item _ => down = false /\
      match head (tasks_of q shard) with
      | Some b => item = b
      | None => exists s, overloaded s /\ head (tasks_of q s) = Some item /\
                  forall s', (s' < s)%nat -> ~ overloaded s'
      end
  end.

Lemma tasks_of_with_index q ix s :
  reverse_index_ ix = reverse_index_ (index q) -> tasks_of (with_index q ix) s = tasks_of q s.
Proof. unfold tasks_of. simpl. by intros ->. Qed.

Lemma tasks_of_index q s :
  queue_ok q -> tasks_of q s = default [] (index_ (index q) !! s).
Proof.
  intros Hq. destruct (index_ (index q) !! s) as [tasks|] eqn:Hs; simpl.
  - symmetry. apply (ok_shards _ _ (ok_index _ Hq) _ _ Hs).
  - apply filter_none. intros a _ Ha. apply (ok_reverse _ _ (ok_index _ Hq)) in Ha as [_ Ha].
    apply lookup_lt_is_Some_2 in Ha as [? ?]. congruence.
Qed.

Lemma MaybeOverloadedShard_ok q limit shard :
  queue_ok q -> Z.of_nat shard < 2 ^ 32 - 1 -> 0 < limit ->
  exists o ix, MaybeOverloadedShard limit shard (index q) = Some (o, ix) /\
    queue_ok (with_index q ix) /\ reverse_index_ ix = reverse_index_ (index q) /\
    (shard < length (index_ ix))%nat /\ (length (index_ (index q)) <= length (index_ ix))%nat /\
    (o = shard \/ tasks_of q shard = [] /\ limit < Zlen (tasks_of q o)) /\
    (tasks_of q shard = [] -> forall s, (s < o)%nat \/ o = shard -> Zlen (tasks_of q s) <= limit).
Proof.
  intros Hq Hs Hlim. destruct (ensure_ok _ _ _ Hs (ok_index _ Hq)) as (He1 & He2 & He3 & He4).
  set (ix := EnsureShardExists shard (index q)) in *.
  assert (queue_ok (with_index q ix)) as Hq' by (destruct Hq; constructor; simpl; try done; lia).
  assert (forall s, tasks_of q s = default [] (index_ ix !! s)) as Hview.
  { intros s. rewrite <-(tasks_of_with_index q ix s He2). by apply tasks_of_index. }
  unfold MaybeOverloadedShard. fold ix. destruct (lookup_lt_is_Some_2 _ _ He3) as [tasks Ht].
  pose proof (Hview shard) as Hv. rewrite Ht in Hv |- *. simpl in Hv. destruct tasks as [|a tasks].
  - eexists _, ix. split; [done |]. split_and!; try done.
    all: pose proof (overloaded_scan_spec limit (index_ ix) 0) as Hscan.
    all: destruct (overloaded_scan limit (index_ ix) 0) as [j|]; simpl.
    + destruct Hscan as (i & ts & -> & Hi & Hlt & _). right. split; [done |].
      cbn [Nat.add]. by rewrite Hview, Hi.
    + by left.
    + destruct Hscan as (i & ts & -> & Hi & Hlt & Hbefore). intros _ s [Hlt' | Heq]; cbn [Nat.add] in *.
      * rewrite Hview. destruct (index_ ix !! s) as [ts'|] eqn:Hs'; simpl; [by apply (Hbefore s) |].
        rewrite Zlen_nil. lia.
      * exfalso. simplify_eq. rewrite Zlen_nil in Hlt. lia.
    + intros _ s _. rewrite Hview. destruct (index_ ix !! s) as [ts'|] eqn:Hs'; simpl; [by apply (Hscan s) |].
      rewrite Zlen_nil. lia.
  - exists shard, ix. split; [done |]. split_and!; try done; [by left |]. by rewrite Hv.
Qed.

Lemma PopStrict_ok q down limit shard no_wait :
  queue_ok q -> Z.of_nat shard < 2 ^ 32 - 1 -> 0 < limit ->
  exists r q', PopStrict down limit shard no_wait q = Some (r, q') /\ pop_outcome q r q' /\
    strict_result q down limit shard no_wait r /\
    (r = Wait -> (shard < length (index_ (index q')))%nat).
Proof.
  intros Hq Hs Hlim.
  destruct (MaybeOverloadedShard_ok q limit shard Hq Hs Hlim) as
    (o & ix & Hm & Hq' & Hrev & Hlen & Hgrow & Ho & Hmin).
  unfold PopStrict. rewrite Hm. set (q1 := with_index q ix) in *.
  assert (forall r q', pop_outcome q1 r q' -> pop_outcome q r q') as Htr
    by (intros r q'; by apply outcome_transfer).
  assert (forall s, tasks_of q1 s = tasks_of q s) as Hview by (intros s; by apply tasks_of_with_index).
  assert (forall r, (forall a t, r <> Popped a t) -> pop_outcome q1 r q1) as Hsame.
  { intros r Hr. rewrite <-(with_index_same q1) at 2. by apply outcome_same; [| | apply Hq' | |]. }
  destruct (Nat.eqb_spec shard o) as [<- | Hne]; simpl.
  - assert (tasks_of q shard = [] -> forall s, ~ limit < Zlen (tasks_of q s)) as Hno.
    { intros He s. specialize (Hmin He s (or_intror eq_refl)). lia. }
    destruct no_wait.
    + destruct (lookup_lt_is_Some_2 (index_ ix) shard Hlen) as [tasks Ht].
      pose proof (tasks_of_index _ shard Hq') as Hv. unfold q1 in Hv. simpl in Hv. rewrite Ht in Hv.
      simpl in Hv. fold q1 in Hv. rewrite Hview in Hv.
      unfold ShardIsEmpty. simpl. rewrite Ht. unfold strict_result. rewrite Hv.
      destruct down; [eexists _, q1; split_and!; [done | apply Htr; by apply Hsame | by left | done] |].
      destruct tasks as [|a tasks]; simpl.
      * eexists _, q1. split_and!; [done | apply Htr; by apply Hsame | right; auto | done].
      * destruct (take_strict_ok q1 shard a tasks Hq' Ht) as (task & q' & Hg & Hout); simpl in Hg; rewrite Hg.
        exists (Popped a task), q'. split_and!; [done | by apply Htr | done | done | done].
    + destruct (strict_loop_ok q1 down shard Hq' Hlen Hs) as (r & q' & Hl & Hout & Hres).
      exists r, q'. split_and!; [done | by apply Htr | |].
      * unfold strict_wait_result, strict_result in *. rewrite Hview in Hres.
        destruct r as [| | item task].
        -- destruct Hres as (? & ? & ?). split_and!; auto.
        -- destruct Hres as [? | [? ?]]; [by left | right; split_and!; auto].
        -- destruct Hres as [? Hh]. by rewrite Hh.
      * intros ->. destruct Hout as (_ & _ & _ & _ & Hl' & _). simpl in Hl'. lia.
  - destruct Ho as [-> | [Hemp Hover]]; [done |].
    unfold strict_result. rewrite Hemp. simpl.
    destruct down; [eexists _, q1; split_and!; [done | apply Htr; by apply Hsame | by left | done] |].
    rewrite <-Hview in Hover. pose proof (tasks_of_index _ o Hq') as Hv. fold q1 in Hv.
    destruct (index_ (index q1) !! o) as [[|a tasks]|] eqn:Ht; simpl in Hv;
      rewrite Hv in Hover; rewrite ?Zlen_nil in Hover; [lia | | lia].
    destruct (take_strict_ok q1 o a tasks Hq' Ht) as (task & q' & Hg & Hout).
    simpl in Hg. rewrite Hg.
    exists (Popped a task), q'. split_and!; [done | by apply Htr | done | | done].
    exists o. rewrite <-Hview, Hv. split_and!; [done | done |].
    intros s' Hs'. specialize (Hmin Hemp s' (or_introl Hs')). lia.
Qed.

Lemma push_locked_ok q obj shard :
  queue_ok q -> Z.of_nat shard < 2 ^ 32 - 1 ->
  exists b q', push_locked obj shard q = Some (b, q') /\ queue_ok q' /\
    (b = false <-> capacity_ q <= Zlen (queue_ q) /\ capacity_ q <> UNLIMITED) /\
    closed_ q' = closed_ q /\ capacity_ q' = capacity_ q /\ size_ q' = size_ q /\
    (length (index_ (index q)) <= length (index_ (index q')))%nat /\
    if b then queue_ q' = queue_ q ++ [(next_ q, obj)] /\ next_ q' = S (next_ q) /\
              reverse_index_ (index q') = <[next_ q := shard]> (reverse_index_ (index q))
    else q' = q.
Proof.
  intros Hq Hs. unfold push_locked. case_if.
  - exists false, q. split_and!; try done; by bool_to_prop.
  - assert (next_ q ∉ nodes q) as Hfresh.
    { intros Hin. pose proof (proj1 (Forall_forall _ _) (ok_fresh _ Hq) _ Hin). simpl in *. lia. }
    destruct (put_ok _ _ _ _ Hs (ok_index _ Hq) Hfresh) as (ix & -> & Hix & Hrev & Hlen).
    exists true. eexists. split; [done |]. simpl. split_and!; try done.
    2: { split; [done |]. intros [H1 H2]. exfalso.
         apply andb_false_iff in E as [E | E]; bool_to_prop; lia. }
    destruct Hq as [H1 H2 H3 H4 H5].
    constructor; unfold nodes in *; simpl; rewrite ?fmap_app; simpl.
    + apply NoDup_app. split_and!; [done | | apply NoDup_singleton].
      intros x Hx ->%list_elem_of_singleton. done.
    + rewrite Forall_app, Forall_singleton. split; [| lia].
      eapply Forall_impl; [exact H2 |]. simpl. lia.
    + done.
    + lia.
    + intros Hc1 Hc2. apply andb_false_iff in E as [E | E]; bool_to_prop; [| done].
      rewrite Zlen_app. change (Zlen [(next_ q, obj)]) with 1. lia.
Qed.

(** ** Reachable states *)

(** The nodes of shard [s] in a history, oldest first. *)
Definition history_of (l : list (nat * nat)) (s : nat) : list nat :=
  (filter (fun n => n.2 = s) l).*1.

Record system_ok (capacity : Z) (s : system) : Prop := {
  sys_queue : queue_ok (q_ s);
  sys_capacity : capacity_ (q_ s) = capacity;
  sys_size : size_ (q_ s) = u64 (Zlen (queue_ (q_ s)) - Z.of_nat (uncounted s));
  sys_passed : Forall (fun p => Z.of_nat p.2 < 2 ^ 32 - 1) (passed s);
  sys_waiting : Forall (fun sh => (sh < length (index_ (index (q_ s))))%nat /\
                                  Z.of_nat sh < 2 ^ 32 - 1) (waiting s);
  sys_fifo : forall sh, history_of (taken s) sh ++ tasks_of (q_ s) sh = history_of (accepted s) sh;
  sys_kept : (accepted s).*1 ≡ₚ (taken s).*1 ++ nodes (q_ s)
}.

Lemma history_of_snoc l a s sh :
  history_of (l ++ [(a, s)]) sh = history_of l sh ++ if decide (s = sh) then [a] else [].
Proof.
  unfold history_of. rewrite filter_app, fmap_app. f_equal. rewrite filter_cons. simpl.
  by destruct (decide (s = sh)).
Qed.

Lemma filter_ne_perm a (l : list nat) :
  NoDup l -> a ∈ l -> l ≡ₚ a :: filter (fun b => b <> a) l.
Proof.
  intros Hnd Ha. apply NoDup_Permutation; [done | |].
  - apply NoDup_cons. split; [| by apply NoDup_filter]. by intros [? _]%list_elem_of_filter.
  - intros x. rewrite elem_of_cons, list_elem_of_filter. destruct (decide (x = a)); naive_solver.
Qed.

Lemma popped_tasks q item task q' s0 sh :
  queue_ok q -> pop_outcome q (Popped item task) q' ->
  reverse_index_ (index q) !! item = Some s0 -> head (tasks_of q s0) = Some item ->
  tasks_of q sh = (if decide (s0 = sh) then [item] else []) ++ tasks_of q' sh /\
  nodes q ≡ₚ item :: nodes q' /\ Zlen (queue_ q) = Zlen (queue_ q') + 1.
Proof.
  intros Hq (Hq' & _ & _ & _ & _ & _ & _ & Hqueue & Hrev & _) Hs0 Hhead.
  assert (nodes q' = filter (fun b => b <> item) (nodes q)) as Hnodes
    by (unfold nodes; by rewrite Hqueue, fmap_filter_fst).
  assert (nodes q ≡ₚ item :: nodes q') as Hperm.
  { rewrite Hnodes. apply filter_ne_perm; [apply Hq |]. by apply (ok_reverse _ _ (ok_index _ Hq) _ _ Hs0). }
  split_and!; [| done |].
  - unfold tasks_of. rewrite Hrev, Hnodes, shard_of_delete. fold (tasks_of q sh).
    destruct (decide (s0 = sh)) as [<- | Hne]; simpl.
    + destruct (tasks_of q s0) as [|a l] eqn:Ht; [done |]. simpl in Hhead. simplify_eq.
      rewrite filter_ne_head; [done |]. rewrite <-Ht. apply NoDup_filter, Hq.
    + symmetry. apply filter_ne_fresh. unfold tasks_of. rewrite elem_of_shard_of. intros [? _]. congruence.
  - apply Permutation_length in Hperm. unfold nodes in Hperm. simpl in Hperm.
    rewrite !length_fmap in Hperm. unfold Zlen. lia.
Qed.

(** A pop preserves the invariant, whatever kind it is. *)
Lemma after_pop_ok capacity s r q w :
  system_ok capacity s -> pop_outcome (q_ s) r q ->
  Forall (fun sh => (sh < length (index_ (index q)))%nat /\ Z.of_nat sh < 2 ^ 32 - 1) w ->
  system_ok capacity (after_pop s r q w).
Proof.
  intros Hs Hout Hw. pose proof Hout as (Hq & Hc & Hn & Hcap & Hlen & Hr).
  destruct r as [| | item task].
  1, 2: destruct Hr as (Hqueue & Hsize & Hrev); destruct Hs; constructor; simpl; try done;
    [by rewrite Hcap | by rewrite Hsize, Hqueue
    | intros sh; rewrite <-sys_fifo0; unfold tasks_of, nodes; by rewrite Hrev, Hqueue
    | unfold nodes; by rewrite Hqueue].
  destruct Hr as (Hin & Hsize & Hqueue & Hrev & s0 & Hs0 & Hhead).
  unfold after_pop. rewrite Hs0.
  destruct (popped_tasks _ _ _ _ s0 s0 (sys_queue _ _ Hs) Hout Hs0 Hhead) as (_ & Hperm & Hz).
  constructor; simpl; try done.
  - rewrite Hcap. apply Hs.
  - rewrite Hsize, (sys_size _ _ Hs), wrap_sub_l. f_equal. lia.
  - apply Hs.
  - intros sh. rewrite history_of_snoc, <-(sys_fifo _ _ Hs), <-app_assoc. f_equal.
    by destruct (popped_tasks _ _ _ _ s0 sh (sys_queue _ _ Hs) Hout Hs0 Hhead) as (-> & _ & _).
  - rewrite (sys_kept _ _ Hs), Hperm, fmap_app. simpl. by rewrite <-app_assoc.
Qed.

Lemma Pop_pool_ok q down limit shard no_wait :
  queue_ok q -> Z.of_nat shard < 2 ^ 32 - 1 -> 0 <= limit ->
  exists r q', Pop_pool down limit shard no_wait q = Some (r, q') /\ pop_outcome q r q' /\
    (if limit =? NOT_STRICT_SHARDING then hint_result q down shard r
     else strict_result q down limit shard no_wait r /\
          (r = Wait -> (shard < length (index_ (index q')))%nat)).
Proof.
  intros Hq Hs Hlim. unfold Pop_pool, NOT_STRICT_SHARDING.
  destruct (Z.eqb_spec limit 0); [by apply PopWithHint_ok |].
  destruct (PopStrict_ok q down limit shard no_wait Hq Hs) as (r & q' & ?); [lia |]. naive_solver.
Qed.

Lemma push_step_ok capacity s obj shard p1 p2 b q :
  system_ok capacity s -> passed s = p1 ++ (obj, shard) :: p2 ->
  push_locked obj shard (q_ s) = Some (b, q) ->
  system_ok capacity
    {| q_ := q; passed := p1 ++ p2;
       uncounted := if b then S (uncounted s) else uncounted s; waiting := waiting s;
       accepted := if b then accepted s ++ [(next_ (q_ s), shard)] else accepted s;
       taken := taken s |}.
Proof.
  intros Hs Hp Hpush. pose proof (sys_passed _ _ Hs) as Hpassed. rewrite Hp, Forall_app, Forall_cons in Hpassed.
  destruct Hpassed as (Hp1 & Hb & Hp2). simpl in Hb.
  destruct (push_locked_ok (q_ s) obj shard (sys_queue _ _ Hs) Hb)
    as (b' & q' & Hpush' & Hq & _ & Hc & Hcap & Hsize & Hlen & Hres).
  rewrite Hpush in Hpush'. injection Hpush' as <- <-.
  constructor; simpl; [done | rewrite Hcap; apply Hs | | by apply Forall_app | | |].
  - rewrite Hsize, (sys_size _ _ Hs). destruct b; [| by rewrite Hres].
    destruct Hres as (-> & _). rewrite Zlen_app. change (Zlen [(next_ (q_ s), obj)]) with 1. f_equal. lia.
  - eapply Forall_impl; [apply Hs |]. simpl. intros sh [? ?]. split; [lia | done].
  - destruct b; [| by subst; apply Hs]. destruct Hres as (Hqueue & _ & Hrev). intros sh.
    rewrite history_of_snoc, <-(sys_fifo _ _ Hs), <-app_assoc. f_equal.
    unfold tasks_of, nodes. rewrite Hqueue, Hrev, fmap_app, shard_of_app. simpl.
    rewrite shard_of_insert_fresh, shard_of_new; [done |].
    intros Hin. pose proof (proj1 (Forall_forall _ _) (ok_fresh _ (sys_queue _ _ Hs)) _ Hin). simpl in *. lia.
  - destruct b; [| by subst; apply Hs]. destruct Hres as (Hqueue & _ & _).
    unfold nodes. rewrite Hqueue, !fmap_app, (sys_kept _ _ Hs). simpl. by rewrite <-app_assoc.
Qed.

Lemma step_ok capacity s s' : system_ok capacity s -> step s s' -> system_ok capacity s'.
Proof.
  intros Hs Hstep. destruct Hstep.
  - destruct Hs as [[] ? ? ? ? ? ?]; constructor; simpl; done.
  - destruct Hs; constructor; simpl; try done. by constructor.
  - by eapply push_step_ok.
  - destruct Hs as [[] ? Hsize ? ? ? ?]; constructor; simpl; try done.
    rewrite Hsize, wrap_add_l. f_equal. lia.
  - destruct (Pop_ok _ (sys_queue _ _ Hs)) as (r' & q' & Hpop & Hout & _).
    rewrite H in Hpop. injection Hpop as <- <-.
    apply after_pop_ok; [done | done |]. eapply Forall_impl; [apply Hs |]. simpl.
    intros sh [? ?]. destruct Hout as (_ & _ & _ & _ & ? & _). split; [lia | done].
  - destruct (Pop_pool_ok _ down limit shard no_wait (sys_queue _ _ Hs) H H0) as (r' & q' & Hpop & Hout & Hres).
    rewrite H1 in Hpop. injection Hpop as <- <-.
    apply after_pop_ok; [done | done |].
    assert (Forall (fun sh => (sh < length (index_ (index q)))%nat /\ Z.of_nat sh < 2 ^ 32 - 1) (waiting s)) as Hw.
    { eapply Forall_impl; [apply Hs |]. simpl. intros sh [? ?].
      destruct Hout as (_ & _ & _ & _ & ? & _). split; [lia | done]. }
    destruct r; [| done | done]. destruct (limit =? NOT_STRICT_SHARDING); [done |].
    constructor; [| done]. split; [by apply Hres | done].
  - pose proof (sys_waiting _ _ Hs) as Hwait. rewrite H, Forall_app, Forall_cons in Hwait.
    destruct Hwait as (Hw1 & [Hsh Hb] & Hw2).
    destruct (strict_loop_ok _ down shard (sys_queue _ _ Hs) Hsh Hb) as (r' & q' & Hpop & Hout & _).
    rewrite H0 in Hpop. injection Hpop as <- <-.
    apply after_pop_ok; [done | done |].
    assert (Forall (fun sh => (sh < length (index_ (index q)))%nat /\ Z.of_nat sh < 2 ^ 32 - 1) (waiting s)) as Hw.
    { eapply Forall_impl; [apply Hs |]. simpl. intros sh [? ?].
      destruct Hout as (_ & _ & _ & _ & ? & _). split; [lia | done]. }
    pose proof Hw as Hw'. rewrite H, Forall_app, Forall_cons in Hw'. destruct Hw' as (? & ? & ?).
    destruct r; [done | by apply Forall_app | by apply Forall_app].
Qed.

Lemma new_queue_ok capacity : queue_ok (new_queue capacity).
Proof.
  constructor; simpl; try by constructor; try lia.
  constructor; simpl.
  - intros [|s] tasks; simpl; [by intros [= <-] | by rewrite lookup_nil].
  - intros a s. by rewrite lookup_empty.
  - intros a Ha. by apply not_elem_of_nil in Ha.
  - intros _ Hc. by rewrite Zlen_nil.
Qed.

Lemma reachable_ok capacity s : reachable capacity s -> system_ok capacity s.
Proof.
  induction 1 as [| s s' _ IH Hstep]; [| by eapply step_ok].
  constructor; simpl; try done. apply new_queue_ok.
Qed.

End Queue.

Arguments Queue : clear implicits.
Arguments system : clear implicits.
Arguments pop_result : clear implicits.

(** ** Properties *)

(** C4: in every interleaving of pushes, pops, waits and closing, the index
    stays an exact partition of the queue, the capacity is kept, no task is
    lost or handed out twice, the tasks of each shard leave in the order in
    which they came, whichever worker takes them, and every critical section is
    free of undefined behaviour. *)
Theorem queue_invariant {T} (capacity : Z) (s : system T) :
  reachable capacity s ->
  queue_ok (q_ s) /\
  (capacity <> UNLIMITED -> 0 <= capacity -> Zlen (queue_ (q_ s)) <= capacity) /\
  (accepted s).*1 ≡ₚ (taken s).*1 ++ nodes (q_ s) /\
  (forall shard, history_of (accepted s) shard = history_of (taken s) shard ++ tasks_of (q_ s) shard) /\
  (uncounted s = 0%nat -> size_ (q_ s) = u64 (Zlen (queue_ (q_ s)))) /\
  is_Some (Pop (q_ s)) /\
  (forall shard, shard ∈ waiting s -> forall down, is_Some (strict_loop down shard (q_ s))) /\
  (forall obj shard, Z.of_nat shard < 2 ^ 32 - 1 ->
    is_Some (push_locked obj shard (q_ s)) /\
    forall down limit no_wait, 0 <= limit -> is_Some (Pop_pool down limit shard no_wait (q_ s))).
Proof.
  intros Hr. apply reachable_ok in Hr as [Hq <- Hsize _ Hw Hfifo Hkept]. split_and!; [done | apply Hq | done | done | | | |].
  - intros Hu. rewrite Hsize, Hu. f_equal. lia.
  - destruct (Pop_ok _ Hq) as (r & q & -> & _). by eexists.
  - intros shard Hin down. apply (proj1 (Forall_forall _ _) Hw) in Hin as [Hlt Hb].
    destruct (strict_loop_ok _ down _ Hq Hlt Hb) as (r & q & -> & _). by eexists.
  - intros obj shard Hb. split.
    + destruct (push_locked_ok _ obj _ Hq Hb) as (b & q & -> & _). by eexists.
    + intros down limit no_wait Hl.
      destruct (Pop_pool_ok _ down limit shard no_wait Hq Hb Hl) as (r & q & -> & _). by eexists.
Qed.

(** A push of 7 to shard 2 that has been counted. *)
Definition one_task : Queue nat :=
  {| queue_ := [(0%nat, 7%nat)];
     index := {| index_ := [[]; []; [0%nat]]; reverse_index_ := {[0%nat := 2%nat]} |};
     capacity_ := 1; size_ := 0; closed_ := false; next_ := 1%nat |}.

Definition after_push : system nat :=
  {| q_ := one_task; passed := []; uncounted := 1; waiting := [];
     accepted := [(0, 2)]%nat; taken := [] |}.

Lemma after_push_reachable : reachable 1 after_push.
Proof.
  eapply reach_step; [eapply reach_step; [apply reach_init |] |].
  - by apply (step_push_check (init 1) 7%nat 2%nat).
  - refine (step_push_locked _ 7%nat 2%nat [] [] true one_task _ _); reflexivity.
Qed.

Lemma one_task_ok : queue_ok one_task.
Proof. exact (sys_queue _ _ (reachable_ok _ _ after_push_reachable)). Qed.

Lemma queue_invariant_witness :
  reachable 1 after_push /\ queue_ok one_task.
Proof. split; [exact after_push_reachable | exact (proj1 (queue_invariant 1 after_push after_push_reachable))]. Defined.

(** A pop never fails on a consistent queue; it takes the oldest task of
    its own shard if there is one, and otherwise, without a limit, the oldest
    task of the queue, or with a limit the oldest task of the first shard that
    holds more than the limit; it waits or gives up only when there is no such
    task or the pool is shutting down. *)
Theorem Pop_pool_spec {T} (q : Queue T) (down : bool) (limit : Z) (shard : nat) (no_wait : bool) :
  queue_ok q -> Z.of_nat shard < 2 ^ 32 - 1 -> 0 <= limit ->
  exists r q', Pop_pool down limit shard no_wait q = Some (r, q') /\ pop_outcome q r q' /\
    if limit =? NOT_STRICT_SHARDING then hint_result q down shard r
    else strict_result q down limit shard no_wait r.
Proof.
  intros Hq Hs Hl. destruct (Pop_pool_ok q down limit shard no_wait Hq Hs Hl) as (r & q' & H1 & H2 & H3).
  exists r, q'. split_and!; [done | done |]. by destruct (limit =? NOT_STRICT_SHARDING); [| apply H3].
Qed.

Lemma Pop_pool_spec_witness :
  queue_ok one_task /\
  exists r q', Pop_pool false 1 0 true one_task = Some (r, q') /\ pop_outcome one_task r q' /\
    strict_result one_task false 1 0 true r.
Proof.
  split; [exact one_task_ok |]. apply (Pop_pool_spec one_task false 1 0 true one_task_ok); lia.
Defined.

(** [size_] is incremented after the lock is released, so a worker that
    pops in between decrements it first: the queue is empty and [Size] returns
    the largest 32-bit value until the pusher goes on. *)
Theorem Size_underflow :
  exists s s' : system nat, reachable 1 s /\ step s s' /\
    queue_ (q_ s) = [] /\ Size (q_ s) = 2 ^ 32 - 1 /\ Size (q_ s') = 0.
Proof.
  eexists _, _. split_and!.
  - eapply reach_step; [apply after_push_reachable |].
    refine (step_pop_pool _ false 0 0%nat false (Popped 0%nat 7%nat) _ _ _ _); [lia | lia | reflexivity].
  - apply (step_push_count _ 0%nat). reflexivity.
  - reflexivity.
  - vm_compute. reflexivity.
  - vm_compute. reflexivity.
Qed.

