(* ===== verification/TaskQueue.v ===== *)
(** What a daemon relies on when it keeps its requests in a [base::LockedQueue] without
    shards, and that the queue of [LockedQueue] keeps to it
    ([src/src/base/locked_queue.h]).

    The operations are the critical sections, so that a client's machine can
    interleave them with those of other threads. *)

From S2P Require Import Prelude LockedQueue.

#[local] Open Scope Z_scope.

(** What one evaluation of [Pop]'s condition gives. *)
Inductive taken {T : Type} := Nothing_yet | No_more | Taken (t : T).
#[global] Arguments taken : clear implicits.

Class TaskQueue (T Q : Type) := {
  tasks_in : Q -> list T;
  is_closed : Q -> bool;
  capacity_of : Q -> Z;
  consistent : Q -> Prop;
  close : Q -> Q;
  (* [Push] between its test of [closed_] and [++size_], and the latter *)
  put : T -> Q -> option (bool * Q);
  count_one : Q -> Q;
  take_one : Q -> option (taken T * Q)
}.

(** A queue in the order of insertion, which takes no more than its capacity. *)
Class TaskQueueLaws (T Q : Type) `{TaskQueue T Q} : Prop := {
  close_law q : consistent q ->
    consistent (close q) /\ tasks_in (close q) = tasks_in q /\ is_closed (close q) = true /\
    capacity_of (close q) = capacity_of q;
  put_law t q : consistent q ->
    exists b q', put t q = Some (b, q') /\ consistent q' /\ is_closed q' = is_closed q /\
      capacity_of q' = capacity_of q /\
      if b : bool then tasks_in q' = tasks_in q ++ [t] /\ (capacity_of q <> UNLIMITED -> Zlen (tasks_in q) < capacity_of q)
      else q' = q /\ capacity_of q <> UNLIMITED /\ capacity_of q <= Zlen (tasks_in q);
  count_law q : consistent q ->
    consistent (count_one q) /\ tasks_in (count_one q) = tasks_in q /\ is_closed (count_one q) = is_closed q /\
    capacity_of (count_one q) = capacity_of q;
  take_law q : consistent q ->
    exists r q', take_one q = Some (r, q') /\ consistent q' /\ is_closed q' = is_closed q /\
      capacity_of q' = capacity_of q /\
      match r with
      | Nothing_yet => is_closed q = false /\ tasks_in q = [] /\ tasks_in q' = []
      | No_more => is_closed q = true /\ tasks_in q = [] /\ tasks_in q' = []
      | Taken t => tasks_in q = t :: tasks_in q'
      end
}.

(** ** [LockedQueue] *)

Lemma filter_everything {A} (P : A -> Prop) `{!forall x, Decision (P x)} (l : list A) : Forall P l -> filter P l = l.
Proof. induction 1 as [|x l Hx _ IH]; [done |]. by rewrite filter_cons_True, IH. Qed.

Section Locked.
Context {T : Type}.

(** Everything is in the default shard. *)
Definition unsharded (q : Queue T) : Prop :=
  queue_ok q /\ forall a s, reverse_index_ (index q) !! a = Some s -> s = DEFAULT_SHARD.

Definition pop_one (q : Queue T) : option (taken T * Queue T) :=
  '(r, q) ← Pop q;
  Some (match r with Wait => Nothing_yet | Disengaged => No_more | Popped _ t => Taken t end, q).

#[export] Instance locked_queue : TaskQueue T (Queue T) := {|
  tasks_in q := (queue_ q).*2;
  is_closed := closed_;
  capacity_of := capacity_;
  consistent := unsharded;
  close := Close;
  put t q := push_locked t DEFAULT_SHARD q;
  count_one := push_count;
  take_one := pop_one
|}.

Lemma new_queue_unsharded capacity : unsharded (new_queue capacity).
Proof. split; [apply new_queue_ok | done]. Qed.

(** The one shard is the queue. *)
Lemma default_shard q : unsharded q -> shard_of (reverse_index_ (index q)) DEFAULT_SHARD (nodes q) = nodes q.
Proof.
  intros [Hq Hd]. apply filter_everything. apply Forall_forall. intros a Ha.
  destruct (ok_known _ _ (ok_index _ Hq) a Ha) as [s Hs]. by rewrite Hs, (Hd a s Hs).
Qed.

Lemma pop_first q item t q' :
  unsharded q -> pop_outcome q (Popped item t) q' -> queue_ q = (item, t) :: queue_ q'.
Proof.
  intros Hu (_ & _ & _ & _ & _ & Hin & _ & Hq' & _ & s & Hs & Hh). pose proof Hu as [Hq Hd].
  apply Hd in Hs as ->. rewrite (default_shard q Hu) in Hh.
  pose proof (ok_nodup _ Hq) as Hnd. unfold nodes in *. rewrite Hq'.
  destruct (queue_ q) as [|[a x] l]; [done |]. simpl in Hh, Hnd. injection Hh as ->.
  apply NoDup_cons in Hnd as [Ha Hnd].
  assert (x = t) as ->.
  { apply elem_of_cons in Hin as [[= ->] | Hin]; [done |]. destruct Ha. apply list_elem_of_fmap. by exists (item, t). }
  rewrite filter_cons_False by (simpl; tauto). f_equal. symmetry. apply filter_everything. apply Forall_forall.
  intros [b y] Hb Heq. simpl in Heq. subst b. apply Ha. apply list_elem_of_fmap. by exists (item, y).
Qed.

#[export] Instance locked_queue_laws : TaskQueueLaws T (Queue T).
Proof.
  split; simpl.
  - intros q [Hq Hd]. destruct Hq. by split_and!; [constructor | ..].
  - intros t q [Hq Hd].
    destruct (push_locked_ok q t DEFAULT_SHARD Hq ltac:(done)) as (b & q' & Hp & Hq' & Hb & Hc & Hcap & _ & _ & Hr).
    exists b, q'. split; [done |]. destruct b.
    + destruct Hr as (Hl & _ & Hix). split_and!; [split; [done |] | done | done | |].
      * intros a s. rewrite Hix. intros [[_ <-] | [_ ?]]%lookup_insert_Some; [done | by eapply Hd].
      * by rewrite Hl, fmap_app.
      * intros Hu. unfold Zlen. rewrite length_fmap. fold (Zlen (queue_ q)).
        destruct (Z.lt_ge_cases (Zlen (queue_ q)) (capacity_ q)); [done |]. by discriminate (proj2 Hb (conj ltac:(done) Hu)).
    + subst q'. destruct (proj1 Hb eq_refl). unfold Zlen. rewrite length_fmap. by split_and!.
  - intros q [Hq Hd]. destruct Hq. by split_and!; [constructor | ..].
  - intros q Hu. pose proof Hu as [Hq Hd]. destruct (Pop_ok q Hq) as (r & q' & Hp & Ho & Hr). unfold pop_one. rewrite Hp.
    cbn [mbind option_bind]. eexists _, q'. split; [done |].
    pose proof Ho as (Hq' & Hc & _ & Hcap & _ & Hout).
    assert (unsharded q') as Hu'.
    { split; [done |]. destruct r as [| | item t]; [destruct Hout as (_ & _ & ->); done .. |].
      destruct Hout as (_ & _ & _ & -> & _). intros a s [_ Ha]%lookup_delete_Some. by eapply Hd. }
    split_and!; [done | done | done |].
    revert Hp. unfold Pop. destruct (closed_ q) eqn:Hcl, (is_empty q) eqn:He; cbn [negb orb andb].
    all: destruct r as [| | item t]; try done; intros Hp.
    all: try (apply is_empty_spec in He; destruct Hout as (Hl & _); by rewrite Hl, He).
    all: try by rewrite (pop_first q item t q' Hu Ho).
    all: try (by unfold RemoveTaskFromQueue in Hp; repeat (case_match; try done); simplify_eq).
Qed.

End Locked.
