(* ===== verification/CacheLocks.v ===== *)
(** The per-file read and write locks of the cache: [FileCache::ReadLock] and
    [FileCache::WriteLock] ([src/src/cache/file_cache.cc], [file_cache.h]).

    Both lock tables are guarded by [locks_mutex_], so that every acquisition
    and every release is one step; [step] interleaves the steps of any number of
    holders. *)

From S2P Require Import Prelude.

#[local] Open Scope Z_scope.

Abbreviation path := (list Z) (only parsing).

(** ** The lock tables *)

Record locks := { read_locks : gmap path Z; write_locks : gset path }.

Definition no_locks : locks := {| read_locks := ∅; write_locks := ∅ |}.

(** [ReadLock::ReadLock]; [exists_] is [File::Exists(path)].  The result is
    [locked_]. *)
Definition ReadLock_acquire (exists_ : bool) (p : path) (l : locks) : bool * locks :=
  if negb exists_ then (false, l)
  else if bool_decide (p ∈ write_locks l) then (false, l)
  else (true, {| read_locks := <[p := u32 (default 0 (read_locks l !! p) + 1)]> (read_locks l);
                 write_locks := write_locks l |}).

(** [ReadLock::Unlock] of a held lock; [None] is a failed [CHECK]. *)
Definition ReadLock_Unlock (p : path) (l : locks) : option locks :=
  match read_locks l !! p with
  | None => None
  | Some n =>
      if 0 <? n then
        Some {| read_locks := if n - 1 =? 0 then delete p (read_locks l)
                              else <[p := n - 1]> (read_locks l);
                write_locks := write_locks l |}
      else None
  end.

(** [WriteLock::WriteLock] *)
Definition WriteLock_acquire (p : path) (l : locks) : bool * locks :=
  if bool_decide (p ∈ write_locks l) || bool_decide (is_Some (read_locks l !! p)) then (false, l)
  else (true, {| read_locks := read_locks l; write_locks := {[p]} ∪ write_locks l |}).

(** [WriteLock::Unlock] of a held lock. *)
Definition WriteLock_Unlock (p : path) (l : locks) : option locks :=
  if bool_decide (p ∈ write_locks l)
  then Some {| read_locks := read_locks l; write_locks := write_locks l ∖ {[p]} |}
  else None.

(** ** Holders

    [readers] and [writers] are the paths of the lock objects whose [locked_] is
    true. *)
Record system := { tables : locks; readers : list path; writers : list path }.

Definition init : system := {| tables := no_locks; readers := []; writers := [] |}.

Definition holders (p : path) (l : list path) : Z := Zlen (filter (fun q => q = p) l).

Inductive step : system -> system -> Prop :=
| step_read s p exists_ ok l :
    holders p (readers s) < 2 ^ 32 - 1 ->
    ReadLock_acquire exists_ p (tables s) = (ok, l) ->
    step s {| tables := l; readers := if ok then p :: readers s else readers s; writers := writers s |}
| step_read_unlock s p r1 r2 l :
    readers s = r1 ++ p :: r2 -> ReadLock_Unlock p (tables s) = Some l ->
    step s {| tables := l; readers := r1 ++ r2; writers := writers s |}
| step_write s p ok l :
    WriteLock_acquire p (tables s) = (ok, l) ->
    step s {| tables := l; readers := readers s; writers := if ok then p :: writers s else writers s |}
| step_write_unlock s p w1 w2 l :
    writers s = w1 ++ p :: w2 -> WriteLock_Unlock p (tables s) = Some l ->
    step s {| tables := l; readers := readers s; writers := w1 ++ w2 |}.

Inductive reachable : system -> Prop :=
| reach_init : reachable init
| reach_step s s' : reachable s -> step s s' -> reachable s'.

(** The tables are exactly the holders, and no file has both kinds of them. *)
Record system_ok (s : system) : Prop := {
  ok_read : forall p, read_locks (tables s) !! p =
              if holders p (readers s) =? 0 then None else Some (holders p (readers s));
  ok_bound : forall p, holders p (readers s) < 2 ^ 32;
  ok_write : forall p, p ∈ write_locks (tables s) <-> p ∈ writers s;
  ok_single : NoDup (writers s);
  ok_exclusive : forall p, p ∈ writers s -> p ∉ readers s
}.

Lemma holders_nonneg p l : 0 <= holders p l.
Proof. apply Zlen_nonneg. Qed.

Lemma holders_cons p q l : holders p (q :: l) = holders p l + (if decide (q = p) then 1 else 0).
Proof.
  unfold holders. rewrite filter_cons. destruct (decide (q = p)); [by rewrite Zlen_cons | lia].
Qed.

Lemma holders_middle p q l1 l2 :
  holders p (l1 ++ q :: l2) = holders p (l1 ++ l2) + (if decide (q = p) then 1 else 0).
Proof.
  unfold holders. rewrite !filter_app, !Zlen_app, filter_cons.
  destruct (decide (q = p)); rewrite ?Zlen_cons; lia.
Qed.

Lemma holders_0 p l : holders p l = 0 <-> p ∉ l.
Proof.
  induction l as [|q l IH]; [split; [intros _ H; by apply not_elem_of_nil in H | done] |].
  rewrite holders_cons, not_elem_of_cons. pose proof (holders_nonneg p l).
  destruct (decide (q = p)) as [-> | Hne]; [split; [lia | tauto] |].
  rewrite Z.add_0_r, IH. split; [by intros ?; split | tauto].
Qed.

(** The answers of the two constructors, in terms of the holders. *)
Lemma read_acquire_spec s exists_ p :
  system_ok s ->
  (ReadLock_acquire exists_ p (tables s)).1 = exists_ && bool_decide (p ∉ writers s).
Proof.
  intros Hs. unfold ReadLock_acquire. destruct exists_; simpl; [| done].
  pose proof (ok_write _ Hs p). do 2 case_bool_decide; tauto.
Qed.

Lemma write_acquire_spec s p :
  system_ok s ->
  (WriteLock_acquire p (tables s)).1 = bool_decide (p ∉ writers s) && bool_decide (p ∉ readers s).
Proof.
  intros Hs. unfold WriteLock_acquire. pose proof (ok_write _ Hs p).
  assert (bool_decide (is_Some (read_locks (tables s) !! p)) = bool_decide (p ∈ readers s)) as ->.
  { apply bool_decide_ext. rewrite (ok_read _ Hs p). pose proof (holders_0 p (readers s)) as Hz.
    destruct (Z.eqb_spec (holders p (readers s)) 0) as [H0 | H0].
    - split; [by intros [? ?] |]. intros Hin. by apply Hz in H0.
    - split; [| by eexists]. intros _. apply dec_stable. by rewrite <-Hz. }
  repeat case_bool_decide; simpl; tauto.
Qed.

Lemma read_unlock_spec s p :
  system_ok s -> p ∈ readers s -> is_Some (ReadLock_Unlock p (tables s)).
Proof.
  intros Hs Hp. unfold ReadLock_Unlock. rewrite (ok_read _ Hs p). pose proof (holders_nonneg p (readers s)).
  destruct (Z.eqb_spec (holders p (readers s)) 0) as [Hz | Hz]; [by apply holders_0 in Hz |].
  replace (0 <? holders p (readers s)) with true by lia. by eexists.
Qed.

Lemma write_unlock_spec s p :
  system_ok s -> p ∈ writers s -> is_Some (WriteLock_Unlock p (tables s)).
Proof.
  intros Hs Hp. unfold WriteLock_Unlock. rewrite bool_decide_true by (by apply ok_write). by eexists.
Qed.

(** Acquiring and releasing a read lock moves one count. *)
Lemma read_step_ok s p exists_ ok l :
  system_ok s -> holders p (readers s) < 2 ^ 32 - 1 ->
  ReadLock_acquire exists_ p (tables s) = (ok, l) ->
  system_ok {| tables := l; readers := if ok then p :: readers s else readers s; writers := writers s |}.
Proof.
  intros Hs Hb Hacq. pose proof (read_acquire_spec s exists_ p Hs) as Hok. rewrite Hacq in Hok. simpl in Hok.
  unfold ReadLock_acquire in Hacq. destruct ok.
  2: { repeat case_match; simplify_eq. all: by destruct Hs. }
  assert (p ∉ writers s) as Hp.
  { destruct exists_; simpl in Hok; [| done]. symmetry in Hok. by apply bool_decide_eq_true in Hok. }
  destruct exists_; simpl in *; [| done].
  rewrite bool_decide_false in Hacq by (by rewrite (ok_write _ Hs)). simplify_eq.
  pose proof (holders_nonneg p (readers s)).
  constructor; simpl.
  - intros q. rewrite holders_cons. pose proof (holders_nonneg q (readers s)).
    destruct (decide (p = q)) as [<- | Hne].
    + rewrite lookup_insert_eq, (ok_read _ Hs p).
      replace (holders p (readers s) + 1 =? 0) with false by lia. f_equal.
      destruct (Z.eqb_spec (holders p (readers s)) 0) as [Hz | Hz]; simpl; [by rewrite Hz |].
      apply wrap_small. lia.
    + rewrite lookup_insert_ne, Z.add_0_r by done. apply Hs.
  - intros q. rewrite holders_cons. pose proof (ok_bound _ Hs q).
    destruct (decide (p = q)) as [<- |]; lia.
  - apply Hs.
  - apply Hs.
  - intros q Hq [-> | Hin]%elem_of_cons; [done |]. by apply (ok_exclusive _ Hs q).
Qed.

Lemma read_unlock_step_ok s p r1 r2 l :
  system_ok s -> readers s = r1 ++ p :: r2 -> ReadLock_Unlock p (tables s) = Some l ->
  system_ok {| tables := l; readers := r1 ++ r2; writers := writers s |}.
Proof.
  intros Hs Hr Hun. assert (forall q, holders q (readers s) = holders q (r1 ++ r2) + if decide (p = q) then 1 else 0)
    as Hh by (intros q; rewrite Hr; apply holders_middle).
  unfold ReadLock_Unlock in Hun. rewrite (ok_read _ Hs p) in Hun.
  pose proof (Hh p) as Hp. rewrite decide_True in Hp by done.
  pose proof (holders_nonneg p (r1 ++ r2)).
  replace (holders p (readers s) =? 0) with false in Hun by lia.
  replace (0 <? holders p (readers s)) with true in Hun by lia. injection Hun as <-.
  constructor; simpl.
  - intros q. specialize (Hh q). pose proof (ok_read _ Hs q) as Hq. destruct (decide (p = q)) as [<- | Hne].
    + replace (holders p (readers s) - 1) with (holders p (r1 ++ r2)) by lia.
      destruct (holders p (r1 ++ r2) =? 0); [by rewrite lookup_delete_eq | by rewrite lookup_insert_eq].
    + rewrite Z.add_0_r in Hh. rewrite <-Hh. case_if; [by rewrite lookup_delete_ne | by rewrite lookup_insert_ne].
  - intros q. specialize (Hh q). pose proof (ok_bound _ Hs q). destruct (decide (p = q)); lia.
  - apply Hs.
  - apply Hs.
  - intros q Hq Hin. apply (ok_exclusive _ Hs q Hq). rewrite Hr. revert Hin. rewrite !elem_of_app, elem_of_cons. tauto.
Qed.

Lemma write_step_ok s p ok l :
  system_ok s -> WriteLock_acquire p (tables s) = (ok, l) ->
  system_ok {| tables := l; readers := readers s; writers := if ok then p :: writers s else writers s |}.
Proof.
  intros Hs Hacq. pose proof (write_acquire_spec s p Hs) as Hok. rewrite Hacq in Hok. simpl in Hok.
  unfold WriteLock_acquire in Hacq. destruct ok.
  2: { case_match; simplify_eq. by destruct Hs. }
  symmetry in Hok. apply andb_true_iff in Hok as [Hw Hr].
  apply bool_decide_eq_true in Hw, Hr. case_match; simplify_eq.
  constructor; simpl.
  - apply Hs.
  - apply Hs.
  - intros q. rewrite elem_of_union, elem_of_singleton, elem_of_cons, (ok_write _ Hs q). done.
  - constructor; [done | apply Hs].
  - intros q [-> | Hin]%elem_of_cons; [done |]. by apply (ok_exclusive _ Hs q).
Qed.

Lemma write_unlock_step_ok s p w1 w2 l :
  system_ok s -> writers s = w1 ++ p :: w2 -> WriteLock_Unlock p (tables s) = Some l ->
  system_ok {| tables := l; readers := readers s; writers := w1 ++ w2 |}.
Proof.
  intros Hs Hw Hun. unfold WriteLock_Unlock in Hun. case_bool_decide; simplify_eq.
  pose proof (ok_single _ Hs) as Hnd. rewrite Hw in Hnd.
  apply NoDup_app in Hnd as (Hnd1 & Hdis & Hnd2). apply NoDup_cons in Hnd2 as [Hp Hnd2].
  constructor; simpl.
  - apply Hs.
  - apply Hs.
  - intros q. rewrite elem_of_difference, elem_of_singleton, (ok_write _ Hs q), Hw, !elem_of_app, elem_of_cons.
    split; [tauto |]. intros Hq. split; [tauto |]. intros ->. destruct Hq as [Hq |]; [| done].
    apply (Hdis _ Hq). left.
  - apply NoDup_app. split_and!; [done | | done]. intros q Hq Hq2. apply (Hdis _ Hq). by right.
  - intros q Hq. apply (ok_exclusive _ Hs q). revert Hq. rewrite Hw, !elem_of_app, elem_of_cons. tauto.
Qed.

Lemma lock_states_ok s : reachable s -> system_ok s.
Proof.
  induction 1 as [| s s' _ IH Hstep].
  - constructor; simpl; [done | done | | constructor |].
    + intros p. split; intros Hp; [by apply not_elem_of_empty in Hp | by apply not_elem_of_nil in Hp].
    + intros p Hp. by apply not_elem_of_nil in Hp.
  - destruct Hstep; [by eapply read_step_ok | by eapply read_unlock_step_ok
                    | by eapply write_step_ok | by eapply write_unlock_step_ok].
Qed.

(** ** Property *)

(** C20: however lock objects are created and destroyed, a file with a writer
    has no reader and one writer; a read lock is granted exactly when the file
    exists and has no writer, a write lock exactly when it has no holder at all;
    releasing a held lock never fails its [CHECK]; and when every lock object
    is gone, both tables are empty. *)
Theorem locks_exclusive (s : system) :
  reachable s ->
  NoDup (writers s) /\ (forall p, p ∈ writers s -> p ∉ readers s) /\
  (forall p exists_, (ReadLock_acquire exists_ p (tables s)).1 = exists_ && bool_decide (p ∉ writers s)) /\
  (forall p, (WriteLock_acquire p (tables s)).1
             = bool_decide (p ∉ writers s) && bool_decide (p ∉ readers s)) /\
  (forall p, p ∈ readers s -> is_Some (ReadLock_Unlock p (tables s))) /\
  (forall p, p ∈ writers s -> is_Some (WriteLock_Unlock p (tables s))) /\
  (readers s = [] -> writers s = [] -> tables s = no_locks).
Proof.
  intros Hs%lock_states_ok. split_and!.
  - apply Hs.
  - apply Hs.
  - intros. by apply read_acquire_spec.
  - intros. by apply write_acquire_spec.
  - intros. by apply read_unlock_spec.
  - intros. by apply write_unlock_spec.
  - intros Hr Hw. pose proof (ok_read _ Hs) as Hread. pose proof (ok_write _ Hs) as Hwrite.
    rewrite Hr in Hread. rewrite Hw in Hwrite.
    destruct (tables s) as [rl wl]. unfold no_locks. simpl in *. f_equal.
    + apply map_eq. intros p. by rewrite Hread, lookup_empty.
    + apply set_eq. intros p. rewrite Hwrite. split; intros Hp; [by apply not_elem_of_nil in Hp | by apply not_elem_of_empty in Hp].
Qed.

(** Two readers of one file, then one of them again. *)
Definition two_readers : system :=
  {| tables := {| read_locks := {[lit "a/manifest" := 2]}; write_locks := ∅ |};
     readers := [lit "a/manifest"; lit "a/manifest"]; writers := [] |}.

Lemma two_readers_reachable : reachable two_readers.
Proof.
  eapply reach_step; [eapply reach_step; [apply reach_init |] |].
  - apply (step_read init (lit "a/manifest") true true); vm_compute; reflexivity.
  - refine (step_read _ (lit "a/manifest") true true _ _ _); vm_compute; reflexivity.
Qed.

Lemma locks_exclusive_witness :
  reachable two_readers /\ (WriteLock_acquire (lit "a/manifest") (tables two_readers)).1 = false.
Proof.
  split; [exact two_readers_reachable |].
  destruct (locks_exclusive two_readers two_readers_reachable) as (_ & _ & _ & H & _).
  rewrite H. vm_compute. reflexivity.
Defined.
