(* ===== verification/FileCache.v ===== *)
(** The compilation cache: names, entries on disk, storing, finding, removing
    ([src/src/cache/file_cache.cc], [file_cache.h], [manifest.proto]).

    The file system is a map from paths to contents; what the operating system
    answers to a call is given by an [env].  The text form of a manifest and the
    snappy codec are third-party code and parameters of the section. *)

From S2P Require Import Prelude StringUtils ConstString ConstStringFind ConstStringHash CacheLocks.

#[local] Open Scope Z_scope.

(** ** Data *)

Record Simple_Version1 := { snappy : bool; v1_size : option Z; err : bool; obj : bool; dep : bool }.

(** The [oneof] of the manifest. *)
Inductive CacheType := Direct (headers : list (list Z)) | V1 (v1 : Simple_Version1).

Record Manifest := {
  version : Z;
  kind : option CacheType;
  old_headers : list (list Z); old_snappy : bool;
  old_stderr : bool; old_object : bool; old_deps : bool
}.

(** A manifest with every field at its default. *)
Definition new_manifest : Manifest :=
  {| version := 0; kind := None; old_headers := []; old_snappy := false; old_stderr := false;
     old_object := true; old_deps := true |}.

Definition kManifestVersion : Z := 2.

Record Entry := { object : list Z; deps : list Z; stderr : list Z }.

(** A value of the index: time of the last use, size, version. *)
Record Value := { mtime : Z; size : Z; entry_version : Z }.

(** The [entries] table, its rows in the order of their row ids. *)
Abbreviation table := (list (list Z * Value)) (only parsing).

Record FileCache := {
  files : gmap path (list Z);
  entries : table;
  database : gmap (list Z) (list Z);
  new_entries : list (Z * list Z);
  cache_size : Z;
  max_size : Z;
  lock_tables : locks;
  path_ : path;
  snappy_ : bool
}.

Definition UNLIMITED : Z := 0.

(** Functional updates. *)
Definition set_files (fs : gmap path (list Z)) (c : FileCache) : FileCache :=
  {| files := fs; entries := entries c; database := database c; new_entries := new_entries c;
     cache_size := cache_size c; max_size := max_size c; lock_tables := lock_tables c;
     path_ := path_ c; snappy_ := snappy_ c |}.
Definition set_entries (t : table) (size : Z) (c : FileCache) : FileCache :=
  {| files := files c; entries := t; database := database c; new_entries := new_entries c;
     cache_size := size; max_size := max_size c; lock_tables := lock_tables c;
     path_ := path_ c; snappy_ := snappy_ c |}.
Definition set_database (d : gmap (list Z) (list Z)) (c : FileCache) : FileCache :=
  {| files := files c; entries := entries c; database := d; new_entries := new_entries c;
     cache_size := cache_size c; max_size := max_size c; lock_tables := lock_tables c;
     path_ := path_ c; snappy_ := snappy_ c |}.
Definition set_new_entries (l : list (Z * list Z)) (c : FileCache) : FileCache :=
  {| files := files c; entries := entries c; database := database c; new_entries := l;
     cache_size := cache_size c; max_size := max_size c; lock_tables := lock_tables c;
     path_ := path_ c; snappy_ := snappy_ c |}.
Definition set_locks (l : locks) (c : FileCache) : FileCache :=
  {| files := files c; entries := entries c; database := database c; new_entries := new_entries c;
     cache_size := cache_size c; max_size := max_size c; lock_tables := l;
     path_ := path_ c; snappy_ := snappy_ c |}.

(** ** The index: [SQLite] ([src/src/cache/database_sqlite.cc])

    [Set] is [INSERT OR REPLACE]: the row gets a new row id; [First] is the
    first row of [ORDER BY mtime ASC]. *)

Fixpoint Get (key : list Z) (t : table) : option Value :=
  match t with
  | [] => None
  | (k, v) :: t => if decide (k = key) then Some v else Get key t
  end.

Definition Delete (key : list Z) (t : table) : table := filter (fun r => r.1 <> key) t.

Definition Set_ (key : list Z) (v : Value) (t : table) : table := Delete key t ++ [(key, v)].

Fixpoint First (t : table) : option (list Z * Value) :=
  match t with
  | [] => None
  | r :: t => match First t with
              | Some r' => if mtime r'.2 <? mtime r.2 then Some r' else Some r
              | None => Some r
              end
  end.

(** ** Files ([src/src/base/file/file_posix.cc]) *)

(** How the system calls of one [File::Write] end: [open], the bytes that
    [write] takes before it fails ([None]: all), whether [posix_fallocate] has
    extended the file, [rename]. *)
Record write_calls := { w_open : bool; w_bytes : option nat; w_allocated : bool; w_rename : bool }.

(** [db_set_ok] is what [database_->Set] answers. *)
Record env := { mkdir_ok : bool; writes : path -> write_calls; unlink_ok : path -> bool; db_set_ok : bool; now : Z }.

Definition File_Exists (p : path) (fs : gmap path (list Z)) : bool := bool_decide (is_Some (fs !! p)).
Definition File_Size (p : path) (fs : gmap path (list Z)) : Z := Zlen (default [] (fs !! p)).
Definition File_Read (p : path) (fs : gmap path (list Z)) : option (list Z) := fs !! p.

Definition File_Delete (e : env) (p : path) (fs : gmap path (list Z)) : bool * gmap path (list Z) :=
  if File_Exists p fs && unlink_ok e p then (true, delete p fs) else (false, fs).

(** The contents go to a temporary file, which is renamed even when the write
    was short. *)
Definition File_Write (e : env) (p : path) (input : list Z) (fs : gmap path (list Z))
    : bool * gmap path (list Z) :=
  let w := writes e p in
  if negb (w_open w) then (false, fs)
  else
    let n := default (length input) (w_bytes w) in
    let written := take n input ++
                   (if w_allocated w then replicate (length input - n) 0 else []) in
    let fs := delete (p ++ lit ".tmp") fs in
    if negb (w_rename w) then (false, fs)
    else ((length input <=? n)%nat, <[p := written]> fs).

(** ** Paths *)

(** [operator/] of [std::filesystem::path] *)
Definition path_div (p q : path) : path :=
  if decide (head q = Some 47) then q
  else match last p with
       | None => q
       | Some c => if c =? 47 then p ++ q else p ++ [47] ++ q
       end.

Definition SecondPath (hash : list Z) (c : FileCache) : path :=
  path_div (path_div (path_ c) [Znth hash 0]) [Znth hash 1].

Definition CommonPath (hash : list Z) (c : FileCache) : path := path_div (SecondPath hash c) hash.

Definition AppendExtension (p : path) (ext : list Z) : path := p ++ lit "." ++ ext.

Definition kExtDeps := lit "d".
Definition kExtManifest := lit "manifest".
Definition kExtObject := lit "o".
Definition kExtStderr := lit "stderr".

Definition manifest_path (hash : list Z) (c : FileCache) : path :=
  AppendExtension (CommonPath hash c) kExtManifest.
Definition object_path (hash : list Z) (c : FileCache) : path :=
  AppendExtension (CommonPath hash c) kExtObject.
Definition deps_path (hash : list Z) (c : FileCache) : path :=
  AppendExtension (CommonPath hash c) kExtDeps.
Definition stderr_path (hash : list Z) (c : FileCache) : path :=
  AppendExtension (CommonPath hash c) kExtStderr.

(** ** Names *)

(** [base::Hexify(s.Hash(n))] *)
Definition hex_hash (s : ConstString) (n : nat) : option (list Z) :=
  h ← ConstStringHash.Hash s n; b ← string_copy_collapse h true; Some (Hexify b).

(** The decimal form of the only [ExtraFileType], [SANITIZE_BLACKLIST]. *)
Definition SANITIZE_BLACKLIST : list Z := lit "0".

Definition HashCombine (source : ConstString) (extra : list (list Z * ConstString)) : option (list Z) :=
  if decide (extra = []) then hex_hash source 16
  else
    h ← ConstStringHash.Hash source 16;
    l ← mapM (fun f => a ← ConstStringHash.Hash (of_String f.1) 4;
                       b ← ConstStringHash.Hash f.2 16; Some [a; b]) extra;
    hex_hash (of_rope (h :: concat l)) 16.

(** [FileCache::Hash] of handled code. *)
Definition Hash (code : ConstString) (extra : list (list Z * ConstString))
    (command_line ver : ConstString) : option (list Z) :=
  a ← HashCombine code extra; b ← hex_hash command_line 4; c ← hex_hash ver 4;
  Some (a ++ lit "-" ++ b ++ lit "-" ++ c).

(** [FileCache::Hash] of unhandled code; [clang_version] is
    [clang::getClangFullVersion()]. *)
Definition UnhandledHash (clang_version : ConstString) (code : ConstString)
    (extra : list (list Z * ConstString)) (command_line ver : ConstString) : option (list Z) :=
  Hash code extra command_line (cs_add (cs_add ver (of_String [10])) clang_version).

(** [File::Hash(path, &output, skip_list)] *)
Definition File_Hash (p : path) (skip_list : list (list Z)) (fs : gmap path (list Z))
    : option (list Z) :=
  contents ← File_Read p fs;
  let s := of_buffer contents (length contents) in
  found ← mapM (fun skip => ConstStringFind.find s skip) skip_list;
  if existsb (fun r => match r with Some _ => true | None => false end) found then None
  else hex_hash s 16.

(** ** Entries

    [ParseFromString] and [PrintToString] of the manifest's text form;
    [snappy::Compress] and [snappy::Uncompress]. *)
Section Operations.
Context (print : Manifest -> list Z) (parse : list Z -> option Manifest).
Context (Compress Uncompress : list Z -> option (list Z)).
Context (clang_version : ConstString).

Definition LoadFromFile (p : path) (fs : gmap path (list Z)) : option Manifest :=
  contents ← File_Read p fs; parse contents.

Definition SaveToFile (e : env) (p : path) (m : Manifest) (fs : gmap path (list Z))
    : bool * gmap path (list Z) :=
  File_Write e p (print m) fs.

(** The fields of [manifest.v1()], which is a default instance when the [oneof]
    holds something else. *)
Definition v1_of (m : Manifest) : Simple_Version1 :=
  match kind m with
  | Some (V1 v) => v
  | _ => {| snappy := false; v1_size := None; err := false; obj := false; dep := false |}
  end.

(** [GetEntrySize]: whether the size is from the index, and the size. *)
Definition GetEntrySize (hash : list Z) (c : FileCache) : bool * Z :=
  match Get hash (entries c) with
  | Some v => (true, size v)
  | None =>
      match LoadFromFile (manifest_path hash c) (files c) with
      | None => (false, 0)
      | Some m => (false, u64 (default 0 (v1_size (v1_of m)) + File_Size (manifest_path hash c) (files c)))
      end
  end.

(** One part of an entry in [RemoveEntry]. *)
Definition remove_part (e : env) (p : path) (s : bool * Z * gmap path (list Z))
    : bool * Z * gmap path (list Z) :=
  let '(result, entry_size, fs) := s in
  if File_Exists p fs then
    let '(ok, fs') := File_Delete e p fs in
    if ok then (result, entry_size, fs')
    else (false, u64 (entry_size - File_Size p fs), fs')
  else s.

Definition RemoveEntry (e : env) (hash : list Z) (c : FileCache) : bool * FileCache :=
  let entry := Get hash (entries c) in
  let entry_size := match entry with Some v => size v | None => 0 end in
  let t := match entry with Some _ => Delete hash (entries c) | None => entries c end in
  let s := remove_part e (object_path hash c) (true, entry_size, files c) in
  let s := remove_part e (deps_path hash c) s in
  let '(result, entry_size, fs) := remove_part e (stderr_path hash c) s in
  let '(ok, fs') := File_Delete e (manifest_path hash c) fs in
  let '(result, entry_size) :=
    if ok then (result, entry_size)
    else (false, u64 (entry_size - File_Size (manifest_path hash c) fs)) in
  (result,
   set_entries t (match entry with
                  | Some _ => u64 (cache_size c - entry_size)
                  | None => cache_size c
                  end) (set_files fs' c)).

(** Constructors and destructors of the lock objects around a handler body;
    the outer [None] is a failed [CHECK] in [Unlock]. *)
Definition with_write_lock {A} (p : path) (no_lock : A) (body : FileCache -> A * FileCache)
    (c : FileCache) : option (A * FileCache) :=
  let '(locked, l) := WriteLock_acquire p (lock_tables c) in
  if locked then
    let '(a, c) := body (set_locks l c) in
    l ← WriteLock_Unlock p (lock_tables c); Some (a, set_locks l c)
  else Some (no_lock, set_locks l c).

Definition with_read_lock {A} (p : path) (no_lock : A) (body : FileCache -> A * FileCache)
    (c : FileCache) : option (A * FileCache) :=
  let '(locked, l) := ReadLock_acquire (File_Exists p (files c)) p (lock_tables c) in
  if locked then
    let '(a, c) := body (set_locks l c) in
    l ← ReadLock_Unlock p (lock_tables c); Some (a, set_locks l c)
  else Some (no_lock, set_locks l c).

(** One file of [Store], written only when there is something to write: its
    contents, and the form in which they go to the disk. *)
Definition store_file (e : env) (p : path) (contents packed : list Z) (c : FileCache)
    : bool * FileCache :=
  if decide (contents = []) then (true, c)
  else let '(ok, fs) := File_Write e p packed (files c) in (ok, set_files fs c).

(** The body of [Store(hash, entry)] under its lock; every failed step removes
    the entry. *)
Definition store_body (e : env) (hash : list Z) (entry : Entry) (c : FileCache) : unit * FileCache :=
  if negb (mkdir_ok e) then (tt, c)
  else
    let fail c := (tt, (RemoveEntry e hash c).2) in
    let '(ok, c) := store_file e (stderr_path hash c) (stderr entry) (stderr entry) c in
    if negb ok then fail c
    else
      match (if decide (object entry = []) then Some [] else
             if snappy_ c then Compress (object entry) else Some (object entry)) with
      | None => fail c
      | Some packed =>
          let '(ok, c) := store_file e (object_path hash c) (object entry) packed c in
          if negb ok then fail c
          else
            let '(ok, c) := store_file e (deps_path hash c) (deps entry) (deps entry) c in
            if negb ok then fail c
            else
              let v := {| snappy := if decide (object entry = []) then false else snappy_ c;
                          v1_size := Some (u64 (Zlen (stderr entry) + Zlen packed + Zlen (deps entry)));
                          err := bool_decide (stderr entry <> []);
                          obj := bool_decide (object entry <> []);
                          dep := bool_decide (deps entry <> []) |} in
              let m := {| version := kManifestVersion; kind := Some (V1 v); old_headers := [];
                          old_snappy := false; old_stderr := false; old_object := true;
                          old_deps := true |} in
              let '(ok, fs) := SaveToFile e (manifest_path hash c) m (files c) in
              let c := set_files fs c in
              if negb ok then fail c
              else (tt, set_new_entries (new_entries c ++ [(now e, hash)]) c)
      end.

Definition Store (e : env) (hash : list Z) (entry : Entry) (c : FileCache) : option FileCache :=
  snd <$> with_write_lock (manifest_path hash c) tt (store_body e hash entry) c.

(** The parts of an entry that the manifest announces, and their size. *)
Definition read_entry (hash : list Z) (v : Simple_Version1) (entry : Entry) (c : FileCache)
    : bool * Entry :=
  match (if err v then x ← File_Read (stderr_path hash c) (files c); Some (x, u64 (Zlen x))
         else Some (stderr entry, 0)) with
  | None => (false, entry)
  | Some (e1, s1) =>
      let entry := {| object := object entry; deps := deps entry; stderr := e1 |} in
      match (if obj v then
               x ← File_Read (object_path hash c) (files c);
               if snappy v then y ← Uncompress x; Some (y, u64 (s1 + Zlen x))
               else Some (x, u64 (s1 + Zlen x))
             else Some (object entry, s1)) with
      | None => (false, entry)
      | Some (e2, s2) =>
          let entry := {| object := e2; deps := deps entry; stderr := stderr entry |} in
          match (if dep v then x ← File_Read (deps_path hash c) (files c); Some (x, u64 (s2 + Zlen x))
                 else Some (deps entry, s2)) with
          | None => (false, entry)
          | Some (e3, s3) =>
              (bool_decide (v1_size v = Some s3), {| object := object entry; deps := e3; stderr := stderr entry |})
          end
      end
  end.

(** [Find(hash, entry)]: the answer, and what the entry then holds. *)
Definition find_body (e : env) (hash : list Z) (entry : Entry) (c : FileCache)
    : (bool * Entry) * FileCache :=
  match LoadFromFile (manifest_path hash c) (files c) with
  | Some m =>
      match kind m with
      | Some (V1 v) =>
          let c := set_new_entries (new_entries c ++ [(now e, hash)]) c in
          (read_entry hash v entry c, c)
      | _ => ((false, entry), c)
      end
  | None => ((false, entry), c)
  end.

Definition Find (e : env) (hash : list Z) (entry : Entry) (c : FileCache)
    : option ((bool * Entry) * FileCache) :=
  with_read_lock (manifest_path hash c) (false, entry) (find_body e hash entry) c.

(** ** The direct cache *)

Definition header_path (current_dir header : path) : path := path_div current_dir header.

(** [hash_headers]: it stops at the first header that cannot be hashed. *)
Fixpoint hash_headers (current_dir : path) (skip_list headers : list (list Z))
    (fs : gmap path (list Z)) (hashes stored : list (list Z)) : list (list Z) * list (list Z) :=
  match headers with
  | [] => (hashes, stored)
  | header :: headers =>
      match File_Hash (header_path current_dir header) skip_list fs with
      | None => (hashes, stored)
      | Some h => hash_headers current_dir skip_list headers fs (hashes ++ [h]) (stored ++ [header])
      end
  end.

(** [Hexify(Immutable(hash_rope).Hash())] *)
Definition rope_hash (hashes : list (list Z)) : option (list Z) :=
  hex_hash (of_rope (map of_String hashes)) 16.

Definition dostore_body (e : env) (orig_hash : list Z) (headers preprocessed : list (list Z))
    (current_dir : path) (hash : list Z) (c : FileCache) : unit * FileCache :=
  if negb (mkdir_ok e) then (tt, c)
  else
    let '(hashes, stored) :=
      hash_headers current_dir [lit "__DATE__"; lit "__TIME__"] headers (files c) [orig_hash] [] in
    let '(hashes, stored) := hash_headers current_dir [] preprocessed (files c) hashes stored in
    match rope_hash hashes with
    | None => (tt, c)
    | Some direct_hash =>
        if negb (db_set_ok e) then (tt, c)
        else
        let c := set_database (<[direct_hash := hash]> (database c)) c in
        let m := {| version := kManifestVersion;
                    kind := if decide (stored = []) then None else Some (Direct stored);
                    old_headers := []; old_snappy := false; old_stderr := false;
                    old_object := true; old_deps := true |} in
        let '(ok, fs) := SaveToFile e (manifest_path orig_hash c) m (files c) in
        let c := set_files fs c in
        if negb ok then (tt, (RemoveEntry e orig_hash c).2)
        else (tt, set_new_entries (new_entries c ++ [(now e, orig_hash)]) c)
    end.

Definition DoStore (e : env) (orig_hash : list Z) (headers preprocessed : list (list Z))
    (current_dir : path) (hash : list Z) (c : FileCache) : option FileCache :=
  snd <$> with_write_lock (manifest_path orig_hash c) tt
            (dostore_body e orig_hash headers preprocessed current_dir hash) c.

(** [Find(code, extra_files, command_line, version, current_dir, entry)], given
    the unhandled hash. *)
Definition find_direct_body (e : env) (unhandled_hash current_dir : list Z) (entry : Entry)
    (c : FileCache) : option (bool * Entry) * FileCache :=
  match LoadFromFile (manifest_path unhandled_hash c) (files c) with
  | Some m =>
      match kind m with
      | Some (Direct headers) =>
          let c := set_new_entries (new_entries c ++ [(now e, unhandled_hash)]) c in
          match mapM (fun h => File_Hash (header_path current_dir h) [] (files c)) headers with
          | None => (Some (false, entry), c)
          | Some hs =>
              match rope_hash (unhandled_hash :: hs) with
              | None => (Some (false, entry), c)
              | Some key =>
                  match database c !! key with
                  | None => (Some (false, entry), c)
                  | Some hash =>
                      match Find e hash entry c with
                      | Some (r, c) => (Some r, c)
                      | None => (None, c)
                      end
                  end
              end
          end
      | _ => (Some (false, entry), c)
      end
  | None => (Some (false, entry), c)
  end.

Definition FindDirect (e : env) (unhandled_hash current_dir : list Z) (entry : Entry)
    (c : FileCache) : option ((bool * Entry) * FileCache) :=
  match with_read_lock (manifest_path unhandled_hash c) (Some (false, entry))
          (find_direct_body e unhandled_hash current_dir entry) c with
  | Some (Some r, c) => Some (r, c)
  | _ => None
  end.

End Operations.
