(* ===== verification/CacheEntries.v ===== *)
(** What storing, finding and removing an entry of the cache do
    ([src/src/cache/file_cache.cc]). *)

From S2P Require Import Prelude StringUtils ConstString ConstStringFind ConstStringHash CacheLocks FileCache.

#[local] Open Scope Z_scope.

(** Two names built on one prefix differ when their extensions do. *)
Ltac path_ne :=
  unfold manifest_path, object_path, deps_path, stderr_path, AppendExtension;
  rewrite <-?app_assoc; let H := fresh in intros H; apply app_inv_head in H;
  vm_compute in H; discriminate H.

(** ** Writing and deleting files *)

Lemma File_Write_ok e p x fs fs' :
  File_Write e p x fs = (true, fs') ->
  fs' !! p = Some x /\ forall q, q <> p -> q <> p ++ lit ".tmp" -> fs' !! q = fs !! q.
Proof.
  unfold File_Write. destruct (w_open (writes e p)); [| done].
  destruct (w_rename (writes e p)); [| done]. cbv zeta. cbn [negb].
  intros [= Hn%Nat.leb_le <-]. split.
  - rewrite lookup_insert_eq. rewrite take_ge by done.
    replace (length x - _)%nat with 0%nat by lia. destruct (w_allocated (writes e p)); simpl; by rewrite app_nil_r.
  - intros q H1 H2. by rewrite lookup_insert_ne, lookup_delete_ne.
Qed.

Lemma File_Write_success e p x fs :
  w_open (writes e p) = true -> w_bytes (writes e p) = None -> w_rename (writes e p) = true ->
  (File_Write e p x fs).1 = true.
Proof. intros H1 H2 H3. unfold File_Write. rewrite H1, H2, H3. simpl. by rewrite Nat.leb_refl. Qed.

Lemma remove_part_path e p s q : q <> p -> (remove_part e p s).2 !! q = s.2 !! q.
Proof.
  intros Hq. unfold remove_part. destruct s as [[r n] fs]. case_match; [| done].
  unfold File_Delete. destruct (_ && _); simpl; [by rewrite lookup_delete_ne | done].
Qed.

(** Removing an entry touches neither the locks nor the configuration. *)
Lemma RemoveEntry_frame e hash c :
  lock_tables (RemoveEntry e hash c).2 = lock_tables c /\ path_ (RemoveEntry e hash c).2 = path_ c /\
  new_entries (RemoveEntry e hash c).2 = new_entries c.
Proof.
  unfold RemoveEntry. destruct (remove_part _ _ _) as [[r n] fs].
  destruct (File_Delete _ _ _) as [ok fs']. by destruct ok.
Qed.

Lemma RemoveEntry_files e hash c :
  unlink_ok e (manifest_path hash c) = true -> files (RemoveEntry e hash c).2 !! manifest_path hash c = None.
Proof.
  intros Hu. unfold RemoveEntry. destruct (remove_part _ _ _) as [[r n] fs] eqn:H.
  destruct (File_Delete e (manifest_path hash c) fs) as [ok fs'] eqn:Hd.
  assert (fs' !! manifest_path hash c = None) as Hn.
  { unfold File_Delete, File_Exists in Hd. rewrite Hu, andb_true_r in Hd.
    case_bool_decide as Hex; simplify_eq; [apply lookup_delete_eq | by apply eq_None_not_Some]. }
  by destruct ok.
Qed.

(** ** Lock objects around a handler *)

Definition unlocked (p : path) (l : locks) : Prop :=
  p ∉ write_locks l /\ read_locks l !! p = None.

Lemma write_released p l :
  p ∉ write_locks l ->
  {| read_locks := read_locks l; write_locks := ({[p]} ∪ write_locks l) ∖ {[p]} |} = l.
Proof.
  intros Hp. destruct l as [r w]. simpl in *. f_equal. apply set_eq. intros q.
  rewrite elem_of_difference, elem_of_union, elem_of_singleton. split; [tauto |].
  intros Hq. split; [tauto |]. by intros ->.
Qed.

Lemma read_released p l :
  read_locks l !! p = None ->
  {| read_locks := delete p (<[p := 1]> (read_locks l)); write_locks := write_locks l |} = l.
Proof. intros Hp. destruct l as [r w]. simpl in *. f_equal. rewrite delete_insert_eq. by apply delete_id. Qed.

Lemma with_write_lock_free {A} p (no_lock : A) body c :
  unlocked p (lock_tables c) ->
  (forall c, lock_tables (body c).2 = lock_tables c) ->
  exists l, with_write_lock p no_lock body c
    = Some ((body (set_locks l c)).1, set_locks (lock_tables c) (body (set_locks l c)).2).
Proof.
  intros [Hw Hr] Hbody. unfold with_write_lock, WriteLock_acquire.
  rewrite bool_decide_false by done. rewrite bool_decide_false by (rewrite Hr; by intros [? ?]). simpl.
  set (l := {| read_locks := _ |}). exists l. specialize (Hbody (set_locks l c)).
  destruct (body _) as [a c'] eqn:Hb. simpl in *.
  unfold WriteLock_Unlock. rewrite Hbody. simpl.
  rewrite bool_decide_true by (apply elem_of_union; left; by apply elem_of_singleton). simpl.
  by rewrite write_released.
Qed.

Lemma with_write_lock_refused {A} p (no_lock : A) body c :
  ~ unlocked p (lock_tables c) -> with_write_lock p no_lock body c = Some (no_lock, c).
Proof.
  intros Hn. unfold with_write_lock, WriteLock_acquire.
  case_bool_decide as Hw; [by destruct c |]. case_bool_decide as Hr; [by destruct c |].
  destruct Hn. split; [done |]. by apply eq_None_not_Some.
Qed.

Lemma with_read_lock_free {A} p (no_lock : A) body c :
  unlocked p (lock_tables c) ->
  (forall c, lock_tables (body c).2 = lock_tables c) ->
  with_read_lock p no_lock body c = Some (no_lock, c) /\ File_Exists p (files c) = false \/
  exists l, with_read_lock p no_lock body c
    = Some ((body (set_locks l c)).1, set_locks (lock_tables c) (body (set_locks l c)).2).
Proof.
  intros [Hw Hr] Hbody. unfold with_read_lock, ReadLock_acquire.
  destruct (File_Exists p (files c)); simpl; [right | left; by destruct c].
  rewrite bool_decide_false by done. rewrite Hr. simpl.
  set (l := {| read_locks := _ |}). exists l. specialize (Hbody (set_locks l c)).
  destruct (body _) as [a c'] eqn:Hb. simpl in *.
  unfold ReadLock_Unlock. rewrite Hbody. simpl. rewrite lookup_insert_eq. simpl.
  change (u32 1) with 1. by rewrite read_released.
Qed.

(** ** An entry on disk *)

Section Entries.
Context (print : Manifest -> list Z) (parse : list Z -> option Manifest).
Context (Compress Uncompress : list Z -> option (list Z)).
Hypothesis parse_print : forall m, parse (print m) = Some m.
Hypothesis uncompress_compress : forall x y, Compress x = Some y -> Uncompress y = Some x.

Definition blank : Entry := {| object := []; deps := []; stderr := [] |}.

(** What the object file holds for an object. *)
Definition packed_object (c : FileCache) (x : list Z) : option (list Z) :=
  if decide (x = []) then Some [] else if snappy_ c then Compress x else Some x.

(** The manifest that [Store] writes. *)
Definition stored_v1 (c : FileCache) (entry : Entry) (packed : list Z) : Simple_Version1 :=
  {| snappy := if decide (object entry = []) then false else snappy_ c;
     v1_size := Some (u64 (Zlen (stderr entry) + Zlen packed + Zlen (deps entry)));
     err := bool_decide (stderr entry <> []); obj := bool_decide (object entry <> []);
     dep := bool_decide (deps entry <> []) |}.

Lemma read_entry_stored hash entry packed c c' :
  packed_object c (object entry) = Some packed ->
  (stderr entry <> [] -> files c' !! stderr_path hash c' = Some (stderr entry)) ->
  (object entry <> [] -> files c' !! object_path hash c' = Some packed) ->
  (deps entry <> [] -> files c' !! deps_path hash c' = Some (deps entry)) ->
  read_entry Uncompress hash (stored_v1 c entry packed) blank c' = (true, entry).
Proof.
  unfold packed_object, read_entry, stored_v1, File_Read, blank. destruct entry as [o d s]. simpl.
  intros Hp Hs Ho Hd.
  assert ((if bool_decide (s <> []) then x ← files c' !! stderr_path hash c'; Some (x, u64 (Zlen x))
           else Some ([], 0)) = Some (s, u64 (Zlen s))) as ->.
  { case_bool_decide as Hc; [by rewrite Hs | by rewrite Hc]. }
  cbn [mbind option_bind].
  assert ((if bool_decide (o <> []) then
             x ← files c' !! object_path hash c';
             if (if decide (o = []) then false else snappy_ c)
             then y ← Uncompress x; Some (y, u64 (u64 (Zlen s) + Zlen x))
             else Some (x, u64 (u64 (Zlen s) + Zlen x))
           else Some ([], u64 (Zlen s))) = Some (o, u64 (u64 (Zlen s) + Zlen packed))) as ->.
  { case_bool_decide as Hc.
    - rewrite Ho by done. simpl. rewrite decide_False by done. rewrite decide_False in Hp by done.
      destruct (snappy_ c); [| by simplify_eq]. by rewrite (uncompress_compress _ _ Hp).
    - rewrite Hc in *. rewrite decide_True in Hp by done. injection Hp as <-.
      by rewrite Zlen_nil, Z.add_0_r, wrap_wrap by lia. }
  cbn [mbind option_bind].
  assert ((if bool_decide (d <> []) then
             x ← files c' !! deps_path hash c';
             Some (x, u64 (u64 (u64 (Zlen s) + Zlen packed) + Zlen x))
           else Some ([], u64 (u64 (Zlen s) + Zlen packed)))
          = Some (d, u64 (u64 (u64 (Zlen s) + Zlen packed) + Zlen d))) as ->.
  { case_bool_decide as Hc; [by rewrite Hd | rewrite Hc].
    by rewrite Zlen_nil, Z.add_0_r, wrap_wrap by lia. }
  cbn [mbind option_bind]. rewrite bool_decide_true; [done |].
  by rewrite wrap_add_l, <-!Z.add_assoc, wrap_add_l.
Qed.

Definition stored (hash : list Z) (entry : Entry) (c : FileCache) : Prop :=
  exists m v, LoadFromFile parse (manifest_path hash c) (files c) = Some m /\ kind m = Some (V1 v) /\
    read_entry Uncompress hash v blank c = (true, entry).

(** Handlers keep the locks and the configuration. *)
Definition frame (c c' : FileCache) : Prop :=
  lock_tables c' = lock_tables c /\ path_ c' = path_ c /\ snappy_ c' = snappy_ c.

#[global] Instance frame_preorder : PreOrder frame.
Proof. split; [by intros ? | intros ??? (?&?&?) (?&?&?); split_and!; congruence]. Qed.

Lemma frame_files fs c : frame c (set_files fs c).
Proof. done. Qed.

Lemma frame_remove e hash c : frame c (RemoveEntry e hash c).2.
Proof.
  unfold RemoveEntry. destruct (remove_part _ _ _) as [[r n] fs].
  destruct (File_Delete _ _ _) as [ok fs']. by destruct ok.
Qed.

(** Every system call of [Store] and the packing of the object succeed. *)
Definition all_succeed (e : env) (c : FileCache) (x : list Z) : Prop :=
  mkdir_ok e = true /\
  (forall p, w_open (writes e p) = true /\ w_bytes (writes e p) = None /\ w_rename (writes e p) = true) /\
  is_Some (packed_object c x).

(** A failed step of [Store] leaves no manifest behind; a finished one leaves
    the whole entry. *)
Definition store_post (e : env) (hash : list Z) (entry : Entry) (c c' : FileCache) : Prop :=
  frame c c' /\
  (mkdir_ok e = false -> c' = c) /\
  (mkdir_ok e = true -> unlink_ok e (manifest_path hash c) = true ->
   stored hash entry c' \/ files c' !! manifest_path hash c' = None) /\
  (all_succeed e c (object entry) -> stored hash entry c').

Lemma frame_manifest_path hash c c' : frame c c' -> manifest_path hash c' = manifest_path hash c.
Proof. intros (_ & Hp & _). unfold manifest_path, CommonPath, SecondPath. by rewrite Hp. Qed.

Lemma store_post_fail e hash entry c c1 :
  mkdir_ok e = true -> frame c c1 -> (all_succeed e c (object entry) -> False) ->
  store_post e hash entry c (RemoveEntry e hash c1).2.
Proof.
  intros Hm Hf Hno. split_and!.
  - transitivity c1; [done | apply frame_remove].
  - congruence.
  - intros _ Hu. right. rewrite (frame_manifest_path _ _ _ (frame_remove e hash c1)).
    apply RemoveEntry_files. by rewrite (frame_manifest_path _ _ _ Hf).
  - intros H. by destruct Hno.
Qed.

Lemma write_not_failed e c x p y fs :
  all_succeed e c x -> (File_Write e p y fs).1 = false -> False.
Proof. intros (_ & Hw & _) Hf. destruct (Hw p) as (? & ? & ?). by rewrite File_Write_success in Hf. Qed.

(** What a writing step of [Store] leaves. *)
Definition write_post (e : env) (p : path) (x : list Z) (written : Prop) (c : FileCache)
    (r : bool * FileCache) : Prop :=
  frame c r.2 /\
  (r.1 = false -> forall c0 o, all_succeed e c0 o -> False) /\
  (r.1 = true -> (written -> files r.2 !! p = Some x) /\
     forall q, q <> p -> q <> p ++ lit ".tmp" -> files r.2 !! q = files c !! q).

Lemma write_file_post e p x written c :
  write_post e p x written c
    (let '(ok, fs) := File_Write e p x (files c) in (ok, set_files fs c)).
Proof.
  destruct (File_Write e p x (files c)) as [ok fs] eqn:Hw. split_and!; simpl; [done | |].
  - intros -> c0 o Hs. eapply write_not_failed; [exact Hs |]. by rewrite Hw.
  - intros ->. apply File_Write_ok in Hw as [? ?]. split; [done | done].
Qed.

Lemma no_write_post e p x (written : Prop) c : ~ written -> write_post e p x written c (true, c).
Proof. intros Hw. split_and!; simpl; [done | done |]. by intros _. Qed.

Lemma store_file_post e p x packed c : write_post e p packed (x <> []) c (store_file e p x packed c).
Proof.
  unfold store_file. destruct (decide (x = [])); [by apply no_write_post; intros ? | apply write_file_post].
Qed.

(** The manifest is written last, so that the files it announces are there. *)
Lemma manifest_post e hash entry packed c c1 :
  mkdir_ok e = true -> frame c c1 -> packed_object c (object entry) = Some packed ->
  (stderr entry <> [] -> files c1 !! stderr_path hash c = Some (stderr entry)) ->
  (object entry <> [] -> files c1 !! object_path hash c = Some packed) ->
  (deps entry <> [] -> files c1 !! deps_path hash c = Some (deps entry)) ->
  store_post e hash entry c
    (let '(ok, fs) := SaveToFile print e (manifest_path hash c1)
                        {| version := kManifestVersion; kind := Some (V1 (stored_v1 c entry packed));
                           old_headers := []; old_snappy := false; old_stderr := false;
                           old_object := true; old_deps := true |} (files c1) in
     let c := set_files fs c1 in
     if negb ok then (tt, (RemoveEntry e hash c).2)
     else (tt, set_new_entries (new_entries c ++ [(now e, hash)]) c)).2.
Proof.
  intros Hmk Hf Hp Hs Ho Hd. unfold SaveToFile. rewrite (frame_manifest_path _ _ _ Hf). set (m := {| version := _ |}).
  destruct (write_file_post e (manifest_path hash c) (print m) True c1) as (F & N & W).
  destruct (File_Write e (manifest_path hash c) (print m) (files c1)) as [ok fs]. simpl in *.
  destruct ok; simpl; [| apply store_post_fail; [done | by transitivity c1 | by eapply N]].
  destruct (W eq_refl) as [Hm R]. specialize (Hm I).
  assert (frame c (set_new_entries (new_entries c1 ++ [(now e, hash)]) (set_files fs c1))) as Hf'
    by (transitivity c1; [done |]; done).
  enough (stored hash entry (set_new_entries (new_entries c1 ++ [(now e, hash)]) (set_files fs c1))) as Hst
    by (split_and!; [done | congruence | by left | done]).
  exists m, (stored_v1 c entry packed). rewrite (frame_manifest_path _ _ _ Hf'). simpl.
  split_and!; [unfold LoadFromFile, File_Read; rewrite Hm; apply parse_print | done |].
  assert (CommonPath hash c1 = CommonPath hash c) as Hcp
    by (destruct Hf as (_ & Hpath & _); unfold CommonPath, SecondPath; by rewrite Hpath).
  apply read_entry_stored; [done | ..]; intros Hne; simpl;
    unfold stderr_path, object_path, deps_path; simpl;
    match goal with |- context [CommonPath ?h ?x] => change (CommonPath h x) with (CommonPath h c1) end;
    rewrite Hcp; rewrite R by path_ne; auto.
Qed.

Lemma store_body_spec e hash entry c :
  store_post e hash entry c (store_body print Compress e hash entry c).2.
Proof.
  unfold store_body. destruct (mkdir_ok e) eqn:Hmk; simpl.
  2: { split_and!; [done | done | by rewrite Hmk |]. intros (Hm & _). congruence. }
  destruct (store_file_post e (stderr_path hash c) (stderr entry) (stderr entry) c) as (F1 & N1 & W1).
  destruct (store_file e (stderr_path hash c) (stderr entry) (stderr entry) c) as [ok1 c1]. simpl in *.
  destruct ok1; simpl; [| apply store_post_fail; [done | done | by eapply N1]].
  destruct (W1 eq_refl) as [H1 R1]. clear N1 W1.
  fold (packed_object c1 (object entry)).
  assert (packed_object c1 (object entry) = packed_object c (object entry)) as ->
    by (unfold packed_object; by destruct F1 as (_ & _ & ->)).
  destruct (packed_object c (object entry)) as [packed|] eqn:Hp.
  2: { apply store_post_fail; [done | done |]. intros (_ & _ & Hs). rewrite Hp in Hs. by destruct Hs. }
  destruct (store_file_post e (object_path hash c1) (object entry) packed c1) as (F2 & N2 & W2).
  destruct (store_file e (object_path hash c1) (object entry) packed c1) as [ok2 c2]. simpl in *.
  assert (frame c c2) as G2 by (by transitivity c1).
  destruct ok2; simpl; [| apply store_post_fail; [done | done | by eapply N2]].
  destruct (W2 eq_refl) as [H2 R2]. clear N2 W2.
  destruct (store_file_post e (deps_path hash c2) (deps entry) (deps entry) c2) as (F3 & N3 & W3).
  destruct (store_file e (deps_path hash c2) (deps entry) (deps entry) c2) as [ok3 c3]. simpl in *.
  assert (frame c c3) as G3 by (by transitivity c2).
  destruct ok3; simpl; [| apply store_post_fail; [done | done | by eapply N3]].
  destruct (W3 eq_refl) as [H3 R3]. clear N3 W3.
  assert (forall d, frame c d -> CommonPath hash d = CommonPath hash c) as Hcp
    by (intros d (_ & Hpath & _); unfold CommonPath, SecondPath; by rewrite Hpath).
  unfold object_path in *. unfold deps_path in *. rewrite !(Hcp _ F1) in *. rewrite !(Hcp _ G2) in *.
  assert (snappy_ c3 = snappy_ c) as -> by apply G3.
  apply manifest_post; [done | done | done | intros Hne | intros Hne | intros Hne].
  - rewrite R3, R2 by path_ne. auto.
  - rewrite R3 by path_ne. auto.
  - auto.
Qed.

(** ** Finding *)

Lemma find_body_frame e hash entry c : lock_tables (find_body parse Uncompress e hash entry c).2 = lock_tables c.
Proof.
  unfold find_body. destruct (LoadFromFile _ _ _) as [m|]; [| done]. by destruct (kind m) as [[|]|].
Qed.

Lemma find_body_stored e hash entry c :
  stored hash entry c ->
  find_body parse Uncompress e hash blank c
  = ((true, entry), set_new_entries (new_entries c ++ [(now e, hash)]) c).
Proof. intros (m & v & Hm & Hk & Hr). unfold find_body. rewrite Hm, Hk. by f_equal. Qed.

Lemma stored_exists hash entry c : stored hash entry c -> File_Exists (manifest_path hash c) (files c) = true.
Proof.
  intros (m & v & Hm & _). unfold LoadFromFile, File_Read, File_Exists in *.
  destruct (files c !! manifest_path hash c); [by apply bool_decide_true | done].
Qed.

Lemma Find_stored e hash entry c :
  unlocked (manifest_path hash c) (lock_tables c) -> stored hash entry c ->
  exists c', Find parse Uncompress e hash blank c = Some ((true, entry), c') /\
    lock_tables c' = lock_tables c /\ files c' = files c.
Proof.
  intros Hu Hst. unfold Find.
  destruct (with_read_lock_free (manifest_path hash c) (false, blank) (find_body parse Uncompress e hash blank) c Hu)
    as [[_ Hf] | [l ->]].
  - intros c1. apply find_body_frame.
  - by rewrite (stored_exists _ _ _ Hst) in Hf.
  - rewrite (find_body_stored e hash entry (set_locks l c)); [by eexists | exact Hst].
Qed.

Lemma Find_missing e hash c :
  unlocked (manifest_path hash c) (lock_tables c) -> files c !! manifest_path hash c = None ->
  Find parse Uncompress e hash blank c = Some ((false, blank), c).
Proof.
  intros Hu Hn. unfold Find, with_read_lock, ReadLock_acquire, File_Exists. rewrite Hn.
  rewrite bool_decide_false by (by intros [? ?]). simpl. by destruct c.
Qed.

Lemma Find_total e hash c :
  unlocked (manifest_path hash c) (lock_tables c) ->
  exists r c', Find parse Uncompress e hash blank c = Some (r, c') /\ lock_tables c' = lock_tables c.
Proof.
  intros Hu. unfold Find.
  destruct (with_read_lock_free (manifest_path hash c) (false, blank) (find_body parse Uncompress e hash blank) c Hu)
    as [[-> _] | [l ->]]; [apply find_body_frame | ..]; by do 2 eexists.
Qed.

(** ** Properties *)

(** C1: [Store] is all or nothing.  When the manifest is locked, or the
    directory cannot be made, nothing changes.  When every call it makes
    succeeds, [Find] under the same name returns exactly the stored object,
    dependencies and error output, packed or not; whatever write of [Store]
    fails, and however it is cut short, [Find] returns the stored entry or a
    miss, never a damaged or an older entry, provided the manifest can be
    deleted.  The lock on the manifest is released. *)
Theorem Store_Find (e : env) (hash : list Z) (entry : Entry) (c : FileCache) :
  (~ unlocked (manifest_path hash c) (lock_tables c) -> Store print Compress e hash entry c = Some c) /\
  (unlocked (manifest_path hash c) (lock_tables c) ->
   exists c', Store print Compress e hash entry c = Some c' /\ lock_tables c' = lock_tables c /\
    (mkdir_ok e = false -> c' = c) /\
    forall e', exists r c'', Find parse Uncompress e' hash blank c' = Some (r, c'') /\
      lock_tables c'' = lock_tables c /\
      (mkdir_ok e = true -> unlink_ok e (manifest_path hash c) = true -> r = (true, entry) \/ r = (false, blank)) /\
      (all_succeed e c (object entry) -> r = (true, entry))).
Proof.
  split; [intros Hl; unfold Store; by rewrite with_write_lock_refused |]. intros Hl. unfold Store.
  destruct (with_write_lock_free (manifest_path hash c) tt (store_body print Compress e hash entry) c Hl) as [l ->];
    [intros c1; apply store_body_spec |]. simpl.
  destruct (store_body_spec e hash entry (set_locks l c)) as (Hf & Hmk & Hany & Hall).
  set (c1 := (store_body print Compress e hash entry (set_locks l c)).2) in *.
  eexists. split; [done |]. split; [done |]. split; [intros Hm; rewrite Hmk by done; by destruct c |]. intros e'.
  assert (unlocked (manifest_path hash (set_locks (lock_tables c) c1)) (lock_tables (set_locks (lock_tables c) c1))) as Hl'.
  { change (unlocked (manifest_path hash c1) (lock_tables c)). by rewrite (frame_manifest_path _ _ _ Hf). }
  assert (stored hash entry c1 -> exists c2,
    Find parse Uncompress e' hash blank (set_locks (lock_tables c) c1) = Some ((true, entry), c2)) as Hhit
    by (intros Hst; destruct (Find_stored e' hash entry (set_locks (lock_tables c) c1) Hl' Hst) as (c2 & ? & _); eauto).
  destruct (Find_total e' hash _ Hl') as (r & c2 & Hfind & Hlt). exists r, c2.
  split_and!; [done | done | intros Hm Hu | intros Hs].
  - destruct (Hany Hm Hu) as [Hst | Hnone]; [left; destruct (Hhit Hst) as [? ?]; congruence | right].
    rewrite (Find_missing e' hash _ Hl' Hnone) in Hfind. congruence.
  - destruct (Hhit (Hall Hs)) as [? ?]. congruence.
Qed.

(** A header that cannot be hashed hides itself and every header after it. *)
Lemma hash_headers_cut dir skip l1 bad l2 fs hs st :
  (forall h, h ∈ l1 -> is_Some (File_Hash (header_path dir h) skip fs)) ->
  File_Hash (header_path dir bad) skip fs = None ->
  hash_headers dir skip (l1 ++ bad :: l2) fs hs st = hash_headers dir skip l1 fs hs st.
Proof.
  intros Hl Hbad. revert hs st. induction l1 as [|h l1 IH]; intros hs st; simpl; [by rewrite Hbad |].
  destruct (Hl h ltac:(left)) as [x ->]. apply IH. intros h' Hh'. apply Hl. by right.
Qed.

Lemma hash_headers_all dir skip l fs hs st :
  (forall h, h ∈ l -> is_Some (File_Hash (header_path dir h) skip fs)) ->
  exists xs, mapM (fun h => File_Hash (header_path dir h) skip fs) l = Some xs /\
    hash_headers dir skip l fs hs st = (hs ++ xs, st ++ l).
Proof.
  revert hs st. induction l as [|h l IH]; intros hs st Hl; simpl.
  - exists []. by rewrite !app_nil_r.
  - destruct (Hl h ltac:(left)) as [x Hx]. rewrite Hx. cbn [mbind option_bind].
    destruct (IH (hs ++ [x]) (st ++ [h])) as (xs & -> & ->); [intros h' Hh'; apply Hl; by right |].
    exists (x :: xs). cbn [mbind option_bind]. by rewrite <-!app_assoc.
Qed.

Lemma copy_buffer h n : (n <= length h)%nat -> string_copy_collapse (of_buffer h n) true = Some (take n h).
Proof. intros H. unfold string_copy_collapse, of_buffer. simpl. by apply read_block_le. Qed.

Lemma hex_hash_total s n :
  wf s -> Forall collapsible (rope s) ->
  exists h, flat_hash (contents s) = Some h /\
    hex_hash s n = Some (Hexify (take (if decide (contents s = []) then 16 else Nat.min 16 n) h)).
Proof.
  intros Hwf Hc. destruct (Hash_flat s n Hwf Hc) as (h & Hh & Hlen & Hhash).
  exists h. split; [done |]. unfold hex_hash. rewrite Hhash. cbn [mbind option_bind].
  rewrite copy_buffer; [done |]. rewrite Hlen. destruct (decide _); lia.
Qed.

Lemma rope_hash_total l : l <> [] -> is_Some (rope_hash l).
Proof.
  intros Hl. unfold rope_hash. destruct l as [|x l]; [done |].
  assert (Forall wf (map of_String (x :: l))) as Hwf.
  { apply Forall_map, Forall_forall. intros y _. unfold of_String. simpl. rewrite length_app. lia. }
  destruct (hex_hash_total (of_rope (map of_String (x :: l))) 16) as (h & _ & ->).
  - by apply wf_of_rope.
  - apply Forall_map, Forall_forall. by intros y _.
  - by eexists.
Qed.

(** A hash computed with a skip list is the hash computed without one. *)
Lemma File_Hash_skip p skip fs x : File_Hash p skip fs = Some x -> File_Hash p [] fs = Some x.
Proof.
  unfold File_Hash. destruct (File_Read p fs) as [contents|]; [| done]. cbn [mbind option_bind].
  destruct (mapM _ skip) as [found|]; [| done]. cbn [mbind option_bind].
  by destruct (existsb _ found).
Qed.

Lemma mapM_File_Hash_skip dir skip l fs xs :
  mapM (fun h => File_Hash (header_path dir h) skip fs) l = Some xs ->
  mapM (fun h => File_Hash (header_path dir h) [] fs) l = Some xs.
Proof.
  rewrite !mapM_Some. intros H. eapply Forall2_impl; [exact H |]. simpl.
  intros h x. apply File_Hash_skip.
Qed.

Lemma dostore_body_frame e orig headers pre dir hash c :
  lock_tables (dostore_body print e orig headers pre dir hash c).2 = lock_tables c.
Proof.
  unfold dostore_body, SaveToFile. destruct (mkdir_ok e); simpl; [| done].
  destruct (hash_headers _ _ headers _ _ _) as [hs st]. destruct (hash_headers _ _ pre _ _ _) as [hs' st'].
  destruct (rope_hash hs') as [key|]; [| done]. destruct (db_set_ok e); simpl; [| done].
  destruct (File_Write _ _ _ _) as [ok fs]. destruct ok; simpl; [done |].
  match goal with |- context [RemoveEntry e orig ?c] => apply (RemoveEntry_frame e orig c) end.
Qed.

Lemma File_Hash_ext p skip fs fs' : fs' !! p = fs !! p -> File_Hash p skip fs' = File_Hash p skip fs.
Proof. intros H. unfold File_Hash, File_Read. by rewrite H. Qed.

Lemma mapM_File_Hash_ext dir skip fs fs' l :
  (forall h, h ∈ l -> fs' !! header_path dir h = fs !! header_path dir h) ->
  mapM (fun h => File_Hash (header_path dir h) skip fs') l
  = mapM (fun h => File_Hash (header_path dir h) skip fs) l.
Proof.
  induction l as [|h l IH]; intros Hl; [done |]. simpl.
  rewrite (File_Hash_ext _ _ fs fs' (Hl h ltac:(left))), IH; [done |]. intros h' Hh'. apply Hl. by right.
Qed.

(** The state a finished [DoStore] leaves. *)
Definition linked (orig dir hash : list Z) (headers : list (list Z)) (c : FileCache) : Prop :=
  (exists m, LoadFromFile parse (manifest_path orig c) (files c) = Some m /\ kind m = Some (Direct headers)) /\
  exists xs key, mapM (fun h => File_Hash (header_path dir h) [] (files c)) headers = Some xs /\
    rope_hash (orig :: xs) = Some key /\ database c !! key = Some hash.

Lemma dostore_linked e orig headers pre dir hash c :
  mkdir_ok e = true -> db_set_ok e = true ->
  (forall p, w_open (writes e p) = true /\ w_bytes (writes e p) = None /\ w_rename (writes e p) = true) ->
  headers ++ pre <> [] ->
  (forall h, h ∈ headers -> is_Some (File_Hash (header_path dir h) [lit "__DATE__"; lit "__TIME__"] (files c))) ->
  (forall h, h ∈ pre -> is_Some (File_Hash (header_path dir h) [] (files c))) ->
  (forall h, h ∈ headers ++ pre -> header_path dir h <> manifest_path orig c /\
                                  header_path dir h <> manifest_path orig c ++ lit ".tmp") ->
  let c' := (dostore_body print e orig headers pre dir hash c).2 in
  linked orig dir hash (headers ++ pre) c' /\ path_ c' = path_ c.
Proof.
  intros Hmk Hdb Hw Hne Hh Hpre Hpath. cbv zeta. unfold dostore_body. rewrite Hmk, Hdb. cbn [negb].
  destruct (hash_headers_all dir _ headers (files c) [orig] [] Hh) as (xs & Hxs & ->).
  destruct (hash_headers_all dir _ pre (files c) ([orig] ++ xs) ([] ++ headers) Hpre) as (ys & Hys & ->).
  destruct (rope_hash_total (([orig] ++ xs) ++ ys)) as [key Hkey]; [done |]. rewrite Hkey.
  rewrite decide_False by done. unfold SaveToFile. set (m := {| version := _ |}).
  change (manifest_path orig (set_database _ c)) with (manifest_path orig c).
  match goal with |- context [File_Write e ?p ?x ?fs] =>
    pose proof (File_Write_success e p x fs) as Hsucc;
    pose proof (File_Write_ok e p x fs) as Hok; destruct (File_Write e p x fs) as [ok fs'] end.
  assert (ok = true) as -> by (destruct (Hw (manifest_path orig c)) as (? & ? & ?); by apply Hsucc).
  specialize (Hok _ eq_refl) as [Hm Hother]. simpl. split; [| done]. split.
  - exists m. split; [| done]. unfold LoadFromFile, File_Read. simpl.
    change (manifest_path orig _) with (manifest_path orig c). rewrite Hm. apply parse_print.
  - exists (xs ++ ys), key. simpl. rewrite lookup_insert_eq. split_and!; [| done | done].
    rewrite (mapM_File_Hash_ext _ _ (files c)).
    + apply mapM_Some, Forall2_app; apply mapM_Some; [by eapply mapM_File_Hash_skip | done].
    + intros h Hin. destruct (Hpath h Hin) as [? ?]. by apply Hother.
Qed.

Lemma FindDirect_linked e orig dir hash headers entry c :
  unlocked (manifest_path orig c) (lock_tables c) -> unlocked (manifest_path hash c) (lock_tables c) ->
  manifest_path hash c <> manifest_path orig c ->
  linked orig dir hash headers c -> stored hash entry c ->
  exists c', FindDirect parse Uncompress e orig dir blank c = Some ((true, entry), c').
Proof.
  intros Ho Hh Hne ((m & Hm & Hk) & xs & key & Hxs & Hkey & Hdb) Hst.
  unfold FindDirect, with_read_lock, ReadLock_acquire.
  assert (File_Exists (manifest_path orig c) (files c) = true) as ->.
  { unfold LoadFromFile, File_Read, File_Exists in *.
    destruct (files c !! manifest_path orig c); [by apply bool_decide_true | done]. }
  simpl. rewrite bool_decide_false by apply Ho. rewrite (proj2 Ho). simpl. set (l := {| read_locks := _ |}).
  unfold find_direct_body. change (LoadFromFile parse _ _) with (LoadFromFile parse (manifest_path orig c) (files c)).
  rewrite Hm, Hk. simpl. rewrite Hxs, Hkey, Hdb.
  match goal with |- context [Find parse Uncompress e hash blank ?c1] =>
    destruct (Find_stored e hash entry c1) as (c2 & -> & Hlt & _) end.
  - change (unlocked (manifest_path hash c) l). split; [apply Hh |]. simpl.
    rewrite lookup_insert_ne by done. apply Hh.
  - exact Hst.
  - unfold ReadLock_Unlock. rewrite Hlt. simpl. rewrite lookup_insert_eq. by eexists.
Qed.

(** The direct cache.  After a [DoStore] whose headers can all be hashed,
    [Find] by the unhandled source returns the entry of the handled hash as long
    as the headers keep their contents.  A header that cannot be hashed, because
    it is missing or holds [__DATE__] or [__TIME__], does not prevent the entry
    from being stored: it is stored as if that header and all the following ones
    did not exist. *)
Theorem DirectCache (e : env) (orig dir hash : list Z) (headers pre : list (list Z)) (c : FileCache) :
  (forall h, h ∈ headers -> is_Some (File_Hash (header_path dir h) [lit "__DATE__"; lit "__TIME__"] (files c))) ->
  (mkdir_ok e = true -> db_set_ok e = true ->
   (forall p, w_open (writes e p) = true /\ w_bytes (writes e p) = None /\ w_rename (writes e p) = true) ->
   headers ++ pre <> [] ->
   (forall h, h ∈ pre -> is_Some (File_Hash (header_path dir h) [] (files c))) ->
   (forall h, h ∈ headers ++ pre -> header_path dir h <> manifest_path orig c /\
                                    header_path dir h <> manifest_path orig c ++ lit ".tmp") ->
   unlocked (manifest_path orig c) (lock_tables c) -> unlocked (manifest_path hash c) (lock_tables c) ->
   manifest_path hash c <> manifest_path orig c ->
   exists c', DoStore print e orig headers pre dir hash c = Some c' /\
     forall e' entry, stored hash entry c' ->
       exists c'', FindDirect parse Uncompress e' orig dir blank c' = Some ((true, entry), c'')) /\
  (forall bad rest,
     File_Hash (header_path dir bad) [lit "__DATE__"; lit "__TIME__"] (files c) = None ->
     DoStore print e orig (headers ++ bad :: rest) pre dir hash c
     = DoStore print e orig headers pre dir hash c).
Proof.
  intros Hh. split.
  - intros Hmk Hdb Hw Hne Hpre Hpath Ho Hl Hdiff. unfold DoStore.
    destruct (with_write_lock_free (manifest_path orig c) tt (dostore_body print e orig headers pre dir hash) c Ho)
      as [l ->]; [intros; apply dostore_body_frame |]. simpl.
    destruct (dostore_linked e orig headers pre dir hash (set_locks l c)) as [Hlink Hp]; try done.
    set (c1 := (dostore_body print e orig headers pre dir hash (set_locks l c)).2) in *.
    eexists. split; [done |]. intros e' entry Hst. simpl in Hp.
    assert (forall h, manifest_path h c1 = manifest_path h c) as Hmp
      by (intros h; unfold manifest_path, CommonPath, SecondPath; by rewrite Hp).
    eapply FindDirect_linked with (headers := headers ++ pre) (hash := hash); [| | | exact Hlink | exact Hst].
    + change (unlocked (manifest_path orig c1) (lock_tables c)). by rewrite Hmp.
    + change (unlocked (manifest_path hash c1) (lock_tables c)). by rewrite Hmp.
    + change (manifest_path hash c1 <> manifest_path orig c1). by rewrite !Hmp.
  - intros bad rest Hbad. unfold DoStore, with_write_lock.
    destruct (WriteLock_acquire _ _) as [[] l]; [| done]. unfold dostore_body. simpl.
    by rewrite (hash_headers_cut dir _ headers bad rest).
Qed.

End Entries.

(** ** A concrete codec and a concrete cache *)

#[export] Instance Simple_Version1_eq_dec : EqDecision Simple_Version1.
Proof. solve_decision. Defined.
#[export] Instance CacheType_eq_dec : EqDecision CacheType.
Proof. solve_decision. Defined.
#[export] Instance Manifest_eq_dec : EqDecision Manifest.
Proof. solve_decision. Defined.

#[export] Program Instance Simple_Version1_countable : Countable Simple_Version1 :=
  inj_countable' (fun v => (snappy v, v1_size v, err v, obj v, dep v))
    (fun '(a, b, c, d, e) => {| snappy := a; v1_size := b; err := c; obj := d; dep := e |}) _.
Next Obligation. by intros []. Qed.

#[export] Program Instance CacheType_countable : Countable CacheType :=
  inj_countable' (fun k => match k with Direct h => inl h | V1 v => inr v end)
    (fun s => match s with inl h => Direct h | inr v => V1 v end) _.
Next Obligation. by intros []. Qed.

#[export] Program Instance Manifest_countable : Countable Manifest :=
  inj_countable' (fun m => (version m, kind m, old_headers m, old_snappy m, old_stderr m, old_object m, old_deps m))
    (fun '(a, b, c, d, e, f, g) =>
       {| version := a; kind := b; old_headers := c; old_snappy := d; old_stderr := e; old_object := f;
          old_deps := g |}) _.
Next Obligation. by intros []. Qed.

Definition toy_print (m : Manifest) : list Z := [Z.pos (encode m)].
Definition toy_parse (l : list Z) : option Manifest :=
  match l with [Z.pos p] => decode p | _ => None end.

Lemma toy_parse_print m : toy_parse (toy_print m) = Some m.
Proof. apply decode_encode. Qed.

Definition toy_Compress (x : list Z) : option (list Z) := Some (255 :: x).
Definition toy_Uncompress (x : list Z) : option (list Z) :=
  match x with 255 :: x => Some x | _ => None end.

Lemma toy_uncompress_compress x y : toy_Compress x = Some y -> toy_Uncompress y = Some x.
Proof. by intros [= <-]. Qed.

Definition good_env : env :=
  {| mkdir_ok := true;
     writes := fun _ => {| w_open := true; w_bytes := None; w_allocated := true; w_rename := true |};
     unlink_ok := fun _ => true; db_set_ok := true; now := 100 |}.

Definition toy_cache : FileCache :=
  {| files := <[lit "/src/a.h" := lit "int a;"]> (<[lit "/src/b.h" := lit "char d[] = __DATE__;"]> ∅);
     entries := []; database := ∅; new_entries := []; cache_size := 0; max_size := 1000;
     lock_tables := no_locks; path_ := lit "/cache"; snappy_ := true |}.

Definition toy_entry : Entry := {| object := lit "ELF"; deps := []; stderr := lit "warning" |}.

Lemma toy_unlocked p : unlocked p no_locks.
Proof. split; [apply not_elem_of_empty | apply lookup_empty]. Qed.

Lemma Store_Find_witness :
  exists c', Store toy_print toy_Compress good_env (lit "abc") toy_entry toy_cache = Some c' /\
    exists c'', Find toy_parse toy_Uncompress good_env (lit "abc") blank c' = Some ((true, toy_entry), c'').
Proof.
  destruct (Store_Find toy_print toy_parse toy_Compress toy_Uncompress toy_parse_print
              toy_uncompress_compress good_env (lit "abc") toy_entry toy_cache) as [_ H].
  destruct (H (toy_unlocked _)) as (c' & H1 & _ & _ & H2).
  exists c'. split; [exact H1 |]. destruct (H2 good_env) as (r & c'' & H3 & _ & _ & H4).
  exists c''. rewrite H3, H4; [done |]. split_and!; [done | done | by eexists].
Defined.

Lemma DirectCache_witness :
  (exists c', DoStore toy_print good_env (lit "ab1") [lit "a.h"] [] (lit "/src") (lit "cd2") toy_cache = Some c') /\
  DoStore toy_print good_env (lit "ab1") [lit "a.h"; lit "b.h"; lit "c.h"] [] (lit "/src") (lit "cd2") toy_cache
  = DoStore toy_print good_env (lit "ab1") [lit "a.h"] [] (lit "/src") (lit "cd2") toy_cache.
Proof.
  destruct (DirectCache toy_print toy_parse toy_Uncompress toy_parse_print good_env (lit "ab1") (lit "/src")
              (lit "cd2") [lit "a.h"] [] toy_cache) as [H1 H2].
  { intros h ->%list_elem_of_singleton. eexists. vm_compute. reflexivity. }
  split.
  - destruct H1 as (c' & H1 & _); [done | done | done | done | | | apply toy_unlocked | apply toy_unlocked | done
                                  | by exists c'].
    + intros h Hh. by apply not_elem_of_nil in Hh.
    + intros h ->%list_elem_of_singleton. done.
  - apply (H2 (lit "b.h") [lit "c.h"]). vm_compute. reflexivity.
Defined.

(** A [Find] that fails half-way leaves what it has read in the entry, and the next
    [Find] into the same entry, which succeeds, keeps the parts its manifest does not
    announce: here the error output of another entry. *)
Example leftover_stderr :
  (c1 ← Store toy_print toy_Compress good_env (lit "abc") {| object := lit "A"; deps := []; stderr := lit "warning" |} toy_cache;
   let c1 := set_files (delete (object_path (lit "abc") c1) (files c1)) c1 in
   c2 ← Store toy_print toy_Compress good_env (lit "def") {| object := lit "B"; deps := []; stderr := [] |} c1;
   '(r1, c3) ← Find toy_parse toy_Uncompress good_env (lit "abc") blank c2;
   '(r2, _) ← Find toy_parse toy_Uncompress good_env (lit "def") r1.2 c3; Some (r1, r2))
  = Some ((false, {| object := []; deps := []; stderr := lit "warning" |}),
          (true, {| object := lit "B"; deps := []; stderr := lit "warning" |})).
Proof. vm_compute. reflexivity. Qed.
