(* ===== verification/CacheMigrate.v ===== *)
(** Bringing old manifests up to date
    ([src/src/cache/file_cache_migrator.cc]). *)

From S2P Require Import Prelude StringUtils ConstString ConstStringFind ConstStringHash CacheLocks FileCache CacheEntries.

#[local] Open Scope Z_scope.

Section Migration.
Context (print : Manifest -> list Z) (parse : list Z -> option Manifest).
Context (Uncompress : list Z -> option (list Z)).

(** The size of one announced file is added; a missing file fails the step. *)
Definition add_file_size (announced : bool) (p : path) (fs : gmap path (list Z)) (size : Z) : option Z :=
  if announced then if File_Exists p fs then Some (u64 (size + File_Size p fs)) else None
  else Some size.

(** [Version_0_to_1]; [None] is the answer [false]. *)
Definition Version_0_to_1 (common_prefix : path) (fs : gmap path (list Z)) (to_version : Z)
    (m : Manifest) (modified : bool) : option (Manifest * bool) :=
  if negb (version m =? 0) || (to_version <? 1) then Some (m, modified)
  else
    k ← (if decide (old_headers m = []) then
           size ← add_file_size (old_stderr m) (AppendExtension common_prefix kExtStderr) fs 0;
           size ← add_file_size (old_object m) (AppendExtension common_prefix kExtObject) fs size;
           size ← add_file_size (old_deps m) (AppendExtension common_prefix kExtDeps) fs size;
           Some (V1 {| snappy := old_snappy m; v1_size := Some size; err := old_stderr m;
                       obj := old_object m; dep := old_deps m |})
         else Some (Direct (old_headers m)));
    Some ({| version := 1; kind := Some k; old_headers := []; old_snappy := false;
             old_stderr := false; old_object := true; old_deps := true |}, true).

(** [Version_1_to_2] *)
Definition Version_1_to_2 (to_version : Z) (m : Manifest) (modified : bool) : option (Manifest * bool) :=
  if negb (version m =? 1) || (to_version <? 2) then Some (m, modified)
  else match kind m with
       | Some (Direct _) => None
       | k => Some ({| version := 2; kind := k; old_headers := old_headers m; old_snappy := old_snappy m;
                       old_stderr := old_stderr m; old_object := old_object m; old_deps := old_deps m |},
                    modified)
       end.

Definition Migrate (e : env) (hash : list Z) (to_version : Z) (c : FileCache) : bool * FileCache :=
  if match Get hash (entries c) with
     | Some entry => entry_version entry =? kManifestVersion
     | None => false
     end
  then (true, c)
  else
    match LoadFromFile parse (manifest_path hash c) (files c) with
    | None => (false, c)
    | Some m =>
        match '(m, modified) ← Version_0_to_1 (CommonPath hash c) (files c) to_version m false;
              Version_1_to_2 to_version m modified with
        | None => (false, c)
        | Some (m, modified) =>
            if negb (version m =? to_version) then (false, c)
            else if negb modified then (true, c)
            else let '(ok, fs) := SaveToFile print e (manifest_path hash c) m (files c) in
                 (ok, set_files fs c)
        end
    end.

Hypothesis parse_print : forall m, parse (print m) = Some m.

(** The contents of an announced file, or nothing. *)
Definition part (announced : bool) (p : path) (c : FileCache) : option (list Z) :=
  if announced then files c !! p else Some [].

Lemma add_file_size_spec announced p c s :
  (match part announced p c with
   | Some x => exists s', add_file_size announced p (files c) s = Some s' /\
                 (0 <= s < 2 ^ 64 -> s' = u64 (s + Zlen x) /\ 0 <= s' < 2 ^ 64)
   | None => add_file_size announced p (files c) s = None
   end).
Proof.
  unfold part, add_file_size, File_Exists, File_Size. destruct announced.
  - destruct (files c !! p) as [x|] eqn:Hx; simpl.
    + eexists. split; [done |]. intros _. split; [done |].
      apply wrap_range. lia.
    + done.
  - exists s. split; [done |]. intros Hs. split; [| done]. rewrite Zlen_nil, Z.add_0_r. symmetry.
    by apply wrap_small.
Qed.

(** Reading an entry whose size is the sum of its parts. *)
Lemma read_entry_parts hash v c a b d o :
  part (err v) (stderr_path hash c) c = Some a ->
  part (obj v) (object_path hash c) c = Some b ->
  part (dep v) (deps_path hash c) c = Some d ->
  (if obj v && snappy v then Uncompress b else Some b) = Some o ->
  v1_size v = Some (u64 (u64 (u64 (Zlen a) + Zlen b) + Zlen d)) ->
  read_entry Uncompress hash v blank c = (true, {| object := o; deps := d; stderr := a |}).
Proof.
  unfold part, read_entry, File_Read, blank. intros Ha Hb Hd Ho Hs. simpl.
  assert ((if err v then x ← files c !! stderr_path hash c; Some (x, u64 (Zlen x)) else Some ([], 0))
          = Some (a, u64 (Zlen a))) as ->
    by (destruct (err v); [by rewrite Ha | by simplify_eq]).
  cbn [mbind option_bind].
  assert ((if obj v then
             x ← files c !! object_path hash c;
             if snappy v then y ← Uncompress x; Some (y, u64 (u64 (Zlen a) + Zlen x))
             else Some (x, u64 (u64 (Zlen a) + Zlen x))
           else Some ([], u64 (Zlen a))) = Some (o, u64 (u64 (Zlen a) + Zlen b))) as ->.
  { destruct (obj v); simpl in *.
    - rewrite Hb. simpl. destruct (snappy v); [by rewrite Ho | by simplify_eq].
    - simplify_eq. by rewrite Zlen_nil, Z.add_0_r, wrap_wrap by lia. }
  cbn [mbind option_bind].
  assert ((if dep v then x ← files c !! deps_path hash c; Some (x, u64 (u64 (u64 (Zlen a) + Zlen b) + Zlen x))
           else Some ([], u64 (u64 (Zlen a) + Zlen b)))
          = Some (d, u64 (u64 (u64 (Zlen a) + Zlen b) + Zlen d))) as ->.
  { destruct (dep v); [by rewrite Hd | simplify_eq]. by rewrite Zlen_nil, Z.add_0_r, wrap_wrap by lia. }
  cbn [mbind option_bind]. by rewrite bool_decide_true.
Qed.

(** ** Property *)

(** A manifest of version 0 that announces only files that exist is
    rewritten as one of version 2, and [Find] then serves the old contents of
    the entry; if an announced file is missing, migration fails and changes
    nothing.  An old direct entry is refused, a simple entry of version 1 and an
    entry that the index knows at the current version are accepted as they are. *)
Theorem Migrate_spec (e : env) (hash : list Z) (m : Manifest) (c : FileCache) :
  LoadFromFile parse (manifest_path hash c) (files c) = Some m ->
  match Get hash (entries c) with Some v => entry_version v <> kManifestVersion | None => True end ->
  (forall p, w_open (writes e p) = true /\ w_bytes (writes e p) = None /\ w_rename (writes e p) = true) ->
  (version m = 0 -> old_headers m = [] ->
   match part (old_stderr m) (stderr_path hash c) c, part (old_object m) (object_path hash c) c,
         part (old_deps m) (deps_path hash c) c with
   | Some a, Some b, Some d =>
       exists c' m', Migrate e hash 2 c = (true, c') /\
         LoadFromFile parse (manifest_path hash c') (files c') = Some m' /\ version m' = 2 /\
         forall o, (if old_object m && old_snappy m then Uncompress b else Some b) = Some o ->
           stored parse Uncompress hash {| object := o; deps := d; stderr := a |} c'
   | _, _, _ => Migrate e hash 2 c = (false, c)
   end) /\
  (version m = 0 -> old_headers m <> [] -> Migrate e hash 2 c = (false, c)) /\
  (version m = 1 -> Migrate e hash 2 c = (match kind m with Some (Direct _) => false | _ => true end, c)).
Proof.
  intros Hm Hidx Hw. unfold Migrate. rewrite Hm.
  assert (match Get hash (entries c) with
          | Some entry => entry_version entry =? kManifestVersion | None => false end = false) as ->.
  { destruct (Get hash (entries c)); [by apply Z.eqb_neq | done]. }
  split_and!.
  - intros Hv Hh. unfold Version_0_to_1. rewrite Hv, Hh. simpl.
    fold (stderr_path hash c) (object_path hash c) (deps_path hash c).
    pose proof (add_file_size_spec (old_stderr m) (stderr_path hash c) c 0) as H1.
    destruct (part (old_stderr m) _ c) as [a|] eqn:Ha; [| by rewrite H1].
    destruct H1 as (s1 & -> & H1). destruct (H1 ltac:(lia)) as [-> R1]. cbn [mbind option_bind].
    pose proof (add_file_size_spec (old_object m) (object_path hash c) c (u64 (0 + Zlen a))) as H2.
    destruct (part (old_object m) _ c) as [b|] eqn:Hb; [| by rewrite H2].
    destruct H2 as (s2 & -> & H2). destruct (H2 R1) as [-> R2]. cbn [mbind option_bind].
    pose proof (add_file_size_spec (old_deps m) (deps_path hash c) c (u64 (u64 (0 + Zlen a) + Zlen b))) as H3.
    destruct (part (old_deps m) _ c) as [d|] eqn:Hd; [| by rewrite H3].
    destruct H3 as (s3 & -> & H3). destruct (H3 R2) as [-> _]. simpl.
    unfold SaveToFile. set (m' := {| version := 2 |}).
    pose proof (File_Write_success e (manifest_path hash c) (print m') (files c)) as Hsucc.
    pose proof (File_Write_ok e (manifest_path hash c) (print m') (files c)) as Hok.
    destruct (File_Write e (manifest_path hash c) (print m') (files c)) as [ok fs].
    destruct (Hw (manifest_path hash c)) as (W1 & W2 & W3). simpl in Hsucc.
    rewrite (Hsucc W1 W2 W3) in Hok |- *. destruct (Hok fs eq_refl) as [Hman Hoth].
    assert (LoadFromFile parse (manifest_path hash c) fs = Some m') as Hload
      by (unfold LoadFromFile, File_Read; rewrite Hman; apply parse_print).
    exists (set_files fs c), m'. split; [done |]. split; [exact Hload |]. split; [done |].
    intros o Ho. eexists m', _. split; [exact Hload |]. split; [reflexivity |].
    apply read_entry_parts with (b := b); simpl; try done;
      unfold part in *; simpl;
      change (stderr_path hash (set_files fs c)) with (stderr_path hash c);
      change (object_path hash (set_files fs c)) with (object_path hash c);
      change (deps_path hash (set_files fs c)) with (deps_path hash c);
      rewrite Hoth by path_ne; done.
  - intros Hv Hh. unfold Version_0_to_1. rewrite Hv. simpl. by rewrite decide_False.
  - intros Hv. unfold Version_0_to_1. rewrite Hv. simpl. unfold Version_1_to_2. rewrite Hv. simpl.
    by destruct (kind m) as [[|]|].
Qed.

End Migration.

(** An entry of version 0 with an object file. *)
Definition old_manifest : Manifest :=
  {| version := 0; kind := None; old_headers := []; old_snappy := false; old_stderr := false;
     old_object := true; old_deps := false |}.

Definition old_cache : FileCache :=
  set_files (<[lit "/cache/a/b/abc.manifest" := toy_print old_manifest]>
               (<[lit "/cache/a/b/abc.o" := lit "ELF"]> ∅)) toy_cache.

Lemma Migrate_spec_witness :
  exists c' m', Migrate toy_print toy_parse good_env (lit "abc") 2 old_cache = (true, c') /\
    LoadFromFile toy_parse (manifest_path (lit "abc") c') (files c') = Some m' /\ version m' = 2 /\
    stored toy_parse toy_Uncompress (lit "abc") {| object := lit "ELF"; deps := []; stderr := [] |} c'.
Proof.
  destruct (Migrate_spec toy_print toy_parse toy_Uncompress toy_parse_print good_env (lit "abc")
              old_manifest old_cache) as [H _]; [by vm_compute | done | done |].
  specialize (H eq_refl eq_refl).
  assert (part (old_stderr old_manifest) (stderr_path (lit "abc") old_cache) old_cache = Some []) as H1 by done.
  assert (part (old_object old_manifest) (object_path (lit "abc") old_cache) old_cache = Some (lit "ELF")) as H2
    by (by vm_compute).
  assert (part (old_deps old_manifest) (deps_path (lit "abc") old_cache) old_cache = Some []) as H3 by done.
  rewrite H1, H2, H3 in H. clear H1 H2 H3. destruct H as (c' & m' & H1 & H2 & H3 & H4).
  exists c', m'. split_and!; [done | done | done | by apply H4].
Defined.
