(* ===== verification/CacheClean.v ===== *)
(** Keeping the cache within its size: the scan of [FileCache::Run] and
    [FileCache::Clean] ([src/src/cache/file_cache.cc]). *)

From S2P Require Import Prelude StringUtils ConstString ConstStringFind ConstStringHash CacheLocks FileCache CacheEntries CacheMigrate.

#[local] Open Scope Z_scope.

Section Cleaning.
Context (print : Manifest -> list Z) (parse : list Z -> option Manifest).

(** ** The scan of [Run] *)

Definition is_hex (c : Z) : bool := ((97 <=? c) && (c <=? 102)) || ((48 <=? c) && (c <=? 57)).

(** The search for [([a-f0-9]{32}-[a-f0-9]{8}-[a-f0-9]{8})\.manifest$]; the
    pattern has a fixed length and ends the path. *)
Definition match_manifest (p : path) : option (list Z) :=
  let tail := drop (length p - 59) p in
  if (length p <? 59)%nat then None
  else
    let name := take 50 tail in
    if forallb is_hex (take 32 name) && bool_decide (name !! 32%nat = Some 45)
       && forallb is_hex (take 8 (drop 33 name)) && bool_decide (name !! 41%nat = Some 45)
       && forallb is_hex (drop 42 name) && bool_decide (drop 50 tail = lit ".manifest")
    then Some name else None.

(** The visitor of [WalkDirectory]; [None] is a failed [CHECK], which cannot
    happen when the index accepts every row. *)
Definition scan_file (e : env) (c : FileCache) (f : path * Z) : FileCache :=
  match match_manifest f.1 with
  | None => c
  | Some hash =>
      let '(ok, c) := Migrate print parse e hash kManifestVersion c in
      let '(from_index, sz, c) :=
        if negb ok then (false, 0, (RemoveEntry e hash c).2)
        else let '(from_index, sz) := GetEntrySize parse hash c in (from_index, sz, c) in
      if negb (sz =? 0) then
        let t := if (from_index : bool) then entries c
                 else Set_ hash {| mtime := f.2; size := sz; entry_version := kManifestVersion |} (entries c) in
        set_entries t (u64 (cache_size c + sz)) c
      else (RemoveEntry e hash c).2
  end.

Definition scan (e : env) (walk : list (path * Z)) (c : FileCache) : FileCache :=
  foldl (scan_file e) c walk.

(** [new_entries_.reset(new EntryList, new_entries_deleter_)]: the old list goes
    to the cleaner. *)
Definition reset_new_entries (c : FileCache) : list (Z * list Z) * FileCache :=
  (new_entries c, set_new_entries [] c).

(** ** [Clean] *)

Definition clean_pop (c : FileCache) (new_entry : Z * list Z) : FileCache :=
  let '(time, hash) := new_entry in
  match Get hash (entries c) with
  | Some entry =>
      set_entries (Set_ hash {| mtime := time; size := size entry; entry_version := kManifestVersion |}
                     (entries c)) (cache_size c) c
  | None =>
      let '(_, sz) := GetEntrySize parse hash c in
      set_entries (Set_ hash {| mtime := time; size := sz; entry_version := kManifestVersion |} (entries c))
        (u64 (cache_size c + sz)) c
  end.

Inductive clean_result := Cleaned (c : FileCache) | Check_failed | Running.

(** [Running] means that the bound on the number of turns was reached. *)
Fixpoint clean_loop (fuel : nat) (e : env) (c : FileCache) : clean_result :=
  if max_size c <? cache_size c then
    match fuel with
    | O => Running
    | S fuel =>
        match First (entries c) with
        | None => Check_failed
        | Some (hash, _) =>
            match with_write_lock (manifest_path hash c) tt (fun c => (tt, (RemoveEntry e hash c).2)) c with
            | Some (_, c) => clean_loop fuel e c
            | None => Check_failed
            end
        end
    end
  else Cleaned c.

Definition Clean (fuel : nat) (e : env) (list_ : list (Z * list Z)) (c : FileCache) : clean_result :=
  let c := foldl clean_pop c list_ in
  if max_size c =? UNLIMITED then Cleaned c else clean_loop fuel e c.

(** ** The index *)

Definition total (t : list (list Z * Value)) : Z := foldr (fun r n => size r.2 + n) 0 t.

(** The size of the cache is the sum of the sizes in the index, each hash being
    there once. *)
Record accounted (c : FileCache) : Prop := {
  acc_keys : NoDup (entries c).*1;
  acc_sizes : Forall (fun r => 0 <= size r.2 < 2 ^ 64) (entries c);
  acc_total : cache_size c = u64 (total (entries c))
}.

Lemma total_app t u : total (t ++ u) = total t + total u.
Proof. unfold total. induction t as [|r t IH]; simpl; [done |]. rewrite IH. lia. Qed.

Lemma keys_cons k v (t : table) : ((k, v) :: t).*1 = k :: t.*1.
Proof. done. Qed.

Lemma key_in (r : list Z * Value) t : r ∈ t -> r.1 ∈ t.*1.
Proof. apply list_elem_of_fmap_2. Qed.

Lemma Get_None key t : Get key t = None <-> key ∉ t.*1.
Proof.
  induction t as [|[k v] t IH]; [split; [intros _; apply not_elem_of_nil | done] |].
  rewrite keys_cons, not_elem_of_cons. cbn [Get].
  destruct (decide (k = key)) as [-> | Hne]; [split; [done | tauto] |].
  rewrite IH. split; [intros; split; congruence | tauto].
Qed.

Lemma Get_elem key t v : Get key t = Some v -> (key, v) ∈ t.
Proof.
  induction t as [|[k w] t IH]; [done |]. cbn [Get].
  destruct (decide (k = key)) as [-> |]; [intros [= ->]; by left | intros H; right; by apply IH].
Qed.

Lemma Delete_None key t : Get key t = None -> Delete key t = t.
Proof.
  intros H%Get_None. apply filter_all. intros r Hr Heq. apply H. rewrite <-Heq. by apply key_in.
Qed.

Lemma Delete_cons key k v t :
  Delete key ((k, v) :: t) = if decide (k = key) then Delete key t else (k, v) :: Delete key t.
Proof.
  unfold Delete. rewrite filter_cons. cbn [fst].
  destruct (decide (k <> key)), (decide (k = key)); tauto || done.
Qed.

Lemma Delete_keys key t : NoDup t.*1 -> NoDup (Delete key t).*1 /\ key ∉ (Delete key t).*1.
Proof.
  intros Hnd. induction t as [|[k v] t IH]; [split; [done | apply not_elem_of_nil] |].
  rewrite keys_cons in Hnd. apply NoDup_cons in Hnd as [Hk Hnd]. destruct (IH Hnd) as [IH1 IH2].
  rewrite Delete_cons. destruct (decide (k = key)) as [Heq | Hne]; [done |]. rewrite keys_cons. split.
  - apply NoDup_cons. split; [| done]. intros (r & -> & Hr)%list_elem_of_fmap.
    apply list_elem_of_filter in Hr as [_ Hr]. apply Hk. by apply key_in.
  - rewrite not_elem_of_cons. split; [congruence | done].
Qed.

Lemma total_cons k v t : total ((k, v) :: t) = size v + total t.
Proof. done. Qed.

Lemma Delete_total key t v : NoDup t.*1 -> Get key t = Some v -> total (Delete key t) = total t - size v.
Proof.
  induction t as [|[k w] t IH]; [done |]. rewrite keys_cons. intros [Hk Hnd]%NoDup_cons.
  rewrite Delete_cons, total_cons. cbn [Get]. destruct (decide (k = key)) as [-> | Hne].
  - intros [= ->]. rewrite Delete_None by by apply Get_None. lia.
  - intros Hg. rewrite total_cons, IH by done. lia.
Qed.

Lemma Delete_sizes (P : list Z * Value -> Prop) key t : Forall P t -> Forall P (Delete key t).
Proof.
  intros H. apply Forall_forall. intros r [_ Hr]%list_elem_of_filter. by apply (proj1 (Forall_forall _ _) H).
Qed.

Lemma Set_keys key v t : NoDup t.*1 -> NoDup (Set_ key v t).*1.
Proof.
  intros Hnd. destruct (Delete_keys key t Hnd) as [H1 H2]. unfold Set_. rewrite fmap_app.
  apply NoDup_app. split_and!; [done | | apply NoDup_singleton].
  intros k Hk ->%list_elem_of_singleton. done.
Qed.

Lemma Set_total key v t :
  NoDup t.*1 ->
  total (Set_ key v t) = total t + size v - match Get key t with Some w => size w | None => 0 end.
Proof.
  intros Hnd. unfold Set_. rewrite total_app, total_cons. change (total []) with 0.
  destruct (Get key t) as [w|] eqn:Hg.
  - rewrite (Delete_total _ _ _ Hnd Hg). lia.
  - rewrite (Delete_None _ _ Hg). lia.
Qed.

Lemma First_spec t :
  match First t with
  | Some r => r ∈ t /\ forall r', r' ∈ t -> mtime r.2 <= mtime r'.2
  | None => t = []
  end.
Proof.
  induction t as [|r t IH]; [done |]. cbn [First]. destruct (First t) as [r'|].
  - destruct IH as [Hin Hmin]. destruct (Z.ltb_spec (mtime r'.2) (mtime r.2)).
    + split; [by right |]. intros x [-> | Hx]%elem_of_cons; [lia | by apply Hmin].
    + split; [by left |]. intros x [-> | Hx]%elem_of_cons; [lia |]. specialize (Hmin x Hx). lia.
  - subst t. split; [by left |]. by intros x ->%list_elem_of_singleton.
Qed.

Lemma Get_in t r : NoDup t.*1 -> r ∈ t -> Get r.1 t = Some r.2.
Proof.
  induction t as [|[k v] t IH]; [by intros _ H%not_elem_of_nil |].
  rewrite keys_cons. intros [Hk Hnd]%NoDup_cons. cbn [Get].
  intros [-> | Hr]%elem_of_cons; [by rewrite decide_True |].
  rewrite decide_False; [by apply IH |]. intros ->. apply Hk. by apply key_in.
Qed.

Lemma Delete_perm t r : NoDup t.*1 -> r ∈ t -> t ≡ₚ r :: Delete r.1 t.
Proof.
  induction t as [|[k v] t IH]; [by intros _ H%not_elem_of_nil |].
  rewrite keys_cons. intros [Hk Hnd]%NoDup_cons. rewrite Delete_cons.
  intros [-> | Hr]%elem_of_cons.
  - rewrite decide_True by done. cbn [fst]. by rewrite Delete_None by by apply Get_None.
  - rewrite decide_False by (intros ->; apply Hk; by apply key_in).
    rewrite (IH Hnd Hr) at 1. apply perm_swap.
Qed.

Lemma total_nonneg t : Forall (fun r => 0 <= size r.2 < 2 ^ 64) t -> 0 <= total t.
Proof. unfold total. induction 1; simpl in *; lia. Qed.

Lemma total_perm t u : t ≡ₚ u -> total t = total u.
Proof. unfold total. induction 1; simpl; lia. Qed.

(** ** Removing an entry *)

Lemma remove_part_unlinked e p r n fs :
  (forall p, unlink_ok e p = true) -> exists fs', remove_part e p (r, n, fs) = (r, n, fs').
Proof.
  intros Hu. unfold remove_part, File_Delete. rewrite Hu, andb_true_r.
  destruct (File_Exists p fs); by eexists.
Qed.

Lemma RemoveEntry_accounted e hash c :
  (forall p, unlink_ok e p = true) -> accounted c ->
  accounted (RemoveEntry e hash c).2 /\ entries (RemoveEntry e hash c).2 = Delete hash (entries c) /\
  max_size (RemoveEntry e hash c).2 = max_size c.
Proof.
  intros Hu [Hk Hs Ht]. unfold RemoveEntry.
  set (n := match Get hash (entries c) with Some v => size v | None => 0 end).
  assert (0 <= n < 2 ^ 64) as Hn.
  { unfold n. destruct (Get hash (entries c)) as [v|] eqn:Hg; [| lia].
    exact (proj1 (Forall_forall _ _) Hs _ (Get_elem _ _ _ Hg)). }
  destruct (remove_part_unlinked e (object_path hash c) true n (files c) Hu) as [f1 ->].
  destruct (remove_part_unlinked e (deps_path hash c) true n f1 Hu) as [f2 ->].
  destruct (remove_part_unlinked e (stderr_path hash c) true n f2 Hu) as [f3 ->].
  unfold File_Delete. rewrite Hu, andb_true_r.
  assert (exists r f4 n', n' = n /\
    (let '(ok, fs') := if File_Exists (manifest_path hash c) f3 then (true, delete (manifest_path hash c) f3)
                      else (false, f3) in
     let '(result, entry_size) := if ok : bool then (true, n)
       else (false, u64 (n - File_Size (manifest_path hash c) f3)) in
     (result, set_entries (match Get hash (entries c) with Some _ => Delete hash (entries c) | None => entries c end)
        (match Get hash (entries c) with Some _ => u64 (cache_size c - entry_size) | None => cache_size c end)
        (set_files fs' c)))
    = (r, set_entries (match Get hash (entries c) with Some _ => Delete hash (entries c) | None => entries c end)
        (match Get hash (entries c) with Some _ => u64 (cache_size c - n') | None => cache_size c end)
        (set_files f4 c))) as (r & f4 & n' & -> & ->).
  { unfold File_Size, File_Exists. destruct (f3 !! manifest_path hash c) as [x|] eqn:Hm.
    - rewrite bool_decide_true by by eexists. by eexists true, _, n.
    - rewrite bool_decide_false by by intros [? ?]. exists false, f3, n. split; [done |].
      change (Zlen (default [] (@None (list Z)))) with 0. by rewrite Z.sub_0_r, (wrap_small 64 n Hn). }
  simpl. assert ((match Get hash (entries c) with Some _ => Delete hash (entries c) | None => entries c end)
    = Delete hash (entries c)) as ->.
  { destruct (Get hash (entries c)) eqn:Hg; [done |]. by rewrite Delete_None. }
  split_and!; [| done | done]. constructor; simpl.
  - by apply Delete_keys.
  - by apply Delete_sizes.
  - unfold n. destruct (Get hash (entries c)) as [v|] eqn:Hg.
    + rewrite Ht, wrap_sub_l. by rewrite (Delete_total _ _ _ Hk Hg).
    + by rewrite Delete_None.
Qed.

Lemma GetEntrySize_range hash c :
  accounted c -> 0 <= (GetEntrySize parse hash c).2 < 2 ^ 64.
Proof.
  intros Hc. unfold GetEntrySize. destruct (Get hash (entries c)) as [v|] eqn:Hg.
  - exact (proj1 (Forall_forall _ _) (acc_sizes _ Hc) _ (Get_elem _ _ _ Hg)).
  - destruct (LoadFromFile parse _ _); simpl; [apply wrap_range; lia | lia].
Qed.

Lemma Set_accounted hash v n c :
  accounted c -> 0 <= size v < 2 ^ 64 ->
  n = u64 (cache_size c + size v - match Get hash (entries c) with Some w => size w | None => 0 end) ->
  accounted (set_entries (Set_ hash v (entries c)) n c).
Proof.
  intros [Hk Hs Ht] Hv ->. constructor; simpl.
  - by apply Set_keys.
  - unfold Set_. rewrite Forall_app, Forall_singleton. split; [by apply Delete_sizes | done].
  - rewrite Set_total by done. rewrite Ht.
    rewrite <-!Z.add_sub_assoc, wrap_add_l. done.
Qed.

Lemma clean_pop_accounted x c : accounted c -> accounted (clean_pop c x) /\ max_size (clean_pop c x) = max_size c.
Proof.
  intros Hc. destruct x as [time hash]. unfold clean_pop.
  pose proof (GetEntrySize_range hash c Hc) as Hr.
  destruct (Get hash (entries c)) as [v|] eqn:Hg.
  - split; [| done]. unfold GetEntrySize in Hr. rewrite Hg in Hr. apply Set_accounted; [done | done |].
    rewrite Hg. simpl. rewrite (acc_total _ Hc). replace (_ + size v - size v) with (u64 (total (entries c))) by lia.
    by rewrite wrap_wrap by lia.
  - destruct (GetEntrySize parse hash c) as [b sz]. split; [| done]. apply Set_accounted; [done | done |].
    rewrite Hg. simpl. f_equal. lia.
Qed.

Lemma clean_pops_accounted l c :
  accounted c -> accounted (foldl clean_pop c l) /\ max_size (foldl clean_pop c l) = max_size c.
Proof.
  revert c. induction l as [|x l IH]; intros c Hc; [done |].
  destruct (clean_pop_accounted x c Hc) as [H1 H2]. simpl. destruct (IH _ H1) as [H3 H4]. split; [done |]. congruence.
Qed.

(** ** The loop *)

(** The rows that a run of the loop takes out, oldest first. *)
Inductive evicts (bound : Z) : table -> table -> table -> Prop :=
| evicts_stop t : total t <= bound -> evicts bound t [] t
| evicts_next t r removed t' :
    bound < total t -> r ∈ t -> (forall r', r' ∈ t -> mtime r.2 <= mtime r'.2) ->
    evicts bound (Delete r.1 t) removed t' -> evicts bound t (r :: removed) t'.

Lemma evict_one e hash c :
  (forall p, unlink_ok e p = true) -> accounted c -> unlocked (manifest_path hash c) (lock_tables c) ->
  exists c', with_write_lock (manifest_path hash c) tt (fun c => (tt, (RemoveEntry e hash c).2)) c = Some (tt, c') /\
    accounted c' /\ entries c' = Delete hash (entries c) /\ max_size c' = max_size c /\
    lock_tables c' = lock_tables c /\ path_ c' = path_ c.
Proof.
  intros Hu Hc Hl.
  destruct (with_write_lock_free (manifest_path hash c) tt (fun c => (tt, (RemoveEntry e hash c).2)) c Hl) as [l ->];
    [intros c1; apply RemoveEntry_frame |].
  assert (accounted (set_locks l c)) as Hc' by (destruct Hc; by constructor).
  destruct (RemoveEntry_accounted e hash (set_locks l c) Hu Hc') as (H1 & H2 & H3).
  destruct (RemoveEntry_frame e hash (set_locks l c)) as (_ & H4 & _).
  eexists. split; [done |]. simpl. split_and!; [| done | done | done | done].
  destruct H1. by constructor.
Qed.

Lemma clean_loop_spec fuel e c :
  (forall p, unlink_ok e p = true) -> accounted c -> 0 <= max_size c -> total (entries c) < 2 ^ 64 ->
  (forall r, r ∈ entries c -> unlocked (manifest_path r.1 c) (lock_tables c)) ->
  (length (entries c) <= fuel)%nat ->
  exists c' removed, clean_loop fuel e c = Cleaned c' /\ accounted c' /\
    evicts (max_size c) (entries c) removed (entries c') /\
    cache_size c' = total (entries c') /\ cache_size c' <= max_size c /\
    entries c ≡ₚ removed ++ entries c'.
Proof.
  revert c. induction fuel as [|fuel IH]; intros c Hu Hc Hmax Htot Hlock Hlen.
  all: pose proof (total_nonneg _ (acc_sizes _ Hc)) as Hnn.
  all: assert (cache_size c = total (entries c)) as Hsz by (rewrite (acc_total _ Hc); by apply wrap_small).
  all: assert (cache_size c <= max_size c ->
    exists c' removed, Cleaned c = Cleaned c' /\ accounted c' /\
      evicts (max_size c) (entries c) removed (entries c') /\
      cache_size c' = total (entries c') /\ cache_size c' <= max_size c /\
      entries c ≡ₚ removed ++ entries c') as Hstop
    by (intros Hle; exists c, []; split_and!; [done | done | constructor; lia | done | done | done]).
  all: cbn [clean_loop]; destruct (Z.ltb_spec (max_size c) (cache_size c)) as [Hlt | Hle]; [| by apply Hstop].
  - exfalso. apply Nat.le_0_r, nil_length_inv in Hlen. rewrite Hlen in Hsz. simpl in Hsz. lia.
  - pose proof (First_spec (entries c)) as Hfirst. destruct (First (entries c)) as [r|].
    2: { rewrite Hfirst in Hsz. simpl in Hsz. lia. }
    destruct Hfirst as [Hin Hmin]. destruct r as [hash v].
    destruct (evict_one e hash c Hu Hc (Hlock _ Hin)) as (c1 & -> & Hc1 & He1 & Hm1 & Hl1 & Hp1).
    pose proof (Delete_perm _ _ (acc_keys _ Hc) Hin) as Hperm. cbn [fst] in Hperm.
    pose proof (total_perm _ _ Hperm) as Htp. rewrite total_cons in Htp.
    pose proof (proj1 (Forall_forall _ _) (acc_sizes _ Hc) _ Hin) as Hv. cbn [snd] in Hv.
    destruct (IH c1 Hu Hc1) as (c' & removed & -> & Hc' & Hev & Hsz' & Hle & Hp').
    + by rewrite Hm1.
    + rewrite He1. lia.
    + intros r Hr. rewrite He1 in Hr. apply list_elem_of_filter in Hr as [_ Hr]. rewrite Hl1.
      specialize (Hlock r Hr). unfold manifest_path, CommonPath, SecondPath in *. by rewrite Hp1.
    + apply Permutation_length in Hperm. simpl in Hperm. rewrite He1. lia.
    + rewrite He1, Hm1 in *. exists c', ((hash, v) :: removed). split_and!; [done | done | | done | done |].
      * apply evicts_next; [lia | done | done | done].
      * simpl. by rewrite <-Hp'.
Qed.

(** Everything evicted is at least as old as everything kept. *)
Lemma evicts_order bound t removed t' r r' :
  evicts bound t removed t' -> r ∈ removed -> r' ∈ t' -> mtime r.2 <= mtime r'.2.
Proof.
  intros Hev. induction Hev as [t Hle | t r0 removed t' Hlt Hin Hmin Hev IH]; intros Hr Hr'.
  - by apply not_elem_of_nil in Hr.
  - apply elem_of_cons in Hr as [-> | Hr]; [| by apply IH].
    apply Hmin. clear -Hev Hr'. assert (r' ∈ Delete r0.1 t) as H.
    { remember (Delete r0.1 t) as u eqn:Hu. clear Hu. induction Hev as [|u r1 rm u' _ _ _ _ IH]; [done |].
      specialize (IH Hr'). by apply list_elem_of_filter in IH as [_ IH]. }
    by apply list_elem_of_filter in H as [_ H].
Qed.

(** Nothing is evicted once the cache fits. *)
Lemma evicts_minimal bound t removed last t' :
  evicts bound t (removed ++ [last]) t' -> bound < total t' + size last.2 \/ ~ NoDup t.*1.
Proof.
  revert t. induction removed as [|r removed IH]; intros t Hev; inversion Hev as [|? ? ? ? Hlt Hin Hmin Hev' ]; subst.
  - inversion Hev'; subst. destruct (decide (NoDup t.*1)) as [Hnd |]; [left | by right].
    destruct last as [k v]. pose proof (Delete_total k t v Hnd (Get_in t (k, v) Hnd Hin)) as Ht. simpl in *. lia.
  - apply IH in Hev' as [? | Hnd]; [by left | right]. intros H. apply Hnd. by apply Delete_keys.
Qed.

(** ** Properties *)

(** C12: the cleaner, from a state whose size is the sum of the sizes in the index,
    and with a limit.  Each turn takes the list of used entries into the index
    and keeps the size of the cache equal to the sum of the sizes in the index;
    then, as long as no manifest of the index is locked, files can be deleted and the
    sum is below 2^64, the loop ends within one turn per row, never fails its [CHECK], leaves at most
    [max_size_] bytes, evicts only entries at least as old as everything it
    keeps, and stops as soon as the rest fits.  While the cache is too big and the
    oldest entry has a writer, the loop waits for it without doing anything.  When
    files cannot be deleted the [CHECK] can fail ([Clean_check_failure]). *)
Theorem Clean_spec (fuel : nat) (e : env) (l : list (Z * list Z)) (c : FileCache) :
  accounted c -> 0 < max_size c ->
  let c1 := foldl clean_pop c l in
  accounted c1 /\
  ((forall p, unlink_ok e p = true) -> total (entries c1) < 2 ^ 64 ->
   (forall r, r ∈ entries c1 -> unlocked (manifest_path r.1 c1) (lock_tables c1)) ->
   (length (entries c1) <= fuel)%nat ->
   exists c' removed, Clean fuel e l c = Cleaned c' /\ accounted c' /\
     entries c1 ≡ₚ removed ++ entries c' /\ cache_size c' = total (entries c') /\
     cache_size c' <= max_size c /\
     (forall r r', r ∈ removed -> r' ∈ entries c' -> mtime r.2 <= mtime r'.2) /\
     (forall older last, removed = older ++ [last] -> max_size c < cache_size c' + size last.2)) /\
  (max_size c1 < cache_size c1 ->
   (forall r, First (entries c1) = Some r -> manifest_path r.1 c1 ∈ write_locks (lock_tables c1)) ->
   First (entries c1) <> None -> Clean fuel e l c = Running).
Proof.
  intros Hc Hmax c1. destruct (clean_pops_accounted l c Hc) as [Hc1 Hm1]. fold c1 in Hc1, Hm1.
  assert (Clean fuel e l c = clean_loop fuel e c1) as Heq.
  { unfold Clean. fold c1. unfold UNLIMITED. rewrite Hm1. by replace (max_size c =? 0) with false by lia. }
  split; [done |]. rewrite Heq. split.
  - intros Hu Htot Hlock Hlen.
    destruct (clean_loop_spec fuel e c1 Hu Hc1 ltac:(lia) Htot Hlock Hlen)
      as (c' & removed & -> & Hc' & Hev & Hsz & Hle & Hperm).
    rewrite Hm1 in *. exists c', removed. split_and!; try done.
    + intros r r' Hr Hr'. by eapply evicts_order.
    + intros older last ->. apply evicts_minimal in Hev as [? | Hnd]; [lia |].
      by destruct (Hnd (acc_keys _ Hc1)).
  - intros Hlt Hlocked Hfirst. clear Heq.
    induction fuel as [|fuel IH]; cbn [clean_loop]; rewrite (proj2 (Z.ltb_lt _ _) Hlt); [done |].
    destruct (First (entries c1)) as [[hash v]|] eqn:Hf; [| done]. specialize (Hlocked _ eq_refl). simpl in Hlocked.
    unfold with_write_lock, WriteLock_acquire. rewrite bool_decide_true by done. simpl.
    replace (set_locks (lock_tables c1) c1) with c1 by by destruct c1. exact IH.
Qed.

End Cleaning.

Definition hash_a := lit "00000000000000000000000000000000-00000000-00000000".
Definition hash_b := lit "10000000000000000000000000000000-00000000-00000000".

(** Three entries, the limit leaves room for one. *)
Definition full_cache : FileCache :=
  {| files := ∅;
     entries := [(lit "aa", {| mtime := 5; size := 40; entry_version := 2 |});
                 (lit "bb", {| mtime := 3; size := 30; entry_version := 2 |});
                 (lit "cc", {| mtime := 9; size := 50; entry_version := 2 |})];
     database := ∅; new_entries := []; cache_size := 120; max_size := 60;
     lock_tables := no_locks; path_ := lit "/cache"; snappy_ := false |}.

Lemma full_cache_accounted : accounted full_cache.
Proof.
  constructor; simpl; [| by repeat constructor | by vm_compute].
  repeat (apply NoDup_cons; split; [by intros H; repeat (apply elem_of_cons in H as [H | H]; [done |]); apply not_elem_of_nil in H |]).
  constructor.
Qed.

Lemma Clean_spec_witness :
  exists c' removed, Clean toy_parse 3 good_env [] full_cache = Cleaned c' /\ accounted c' /\
    entries full_cache ≡ₚ removed ++ entries c' /\ cache_size c' <= 60.
Proof.
  destruct (Clean_spec toy_parse 3 good_env [] full_cache full_cache_accounted ltac:(simpl; lia)) as (_ & H & _).
  destruct H as (c' & removed & H1 & H2 & H3 & _ & H4 & _);
    [done | by vm_compute | intros r Hr; apply toy_unlocked | simpl; lia |].
  exists c', removed. split; [exact H1 |]. split; [exact H2 |]. split; [exact H3 | exact H4].
Defined.

(** An index from disk with a row for an entry whose files are gone. *)
Definition stale_cache : FileCache :=
  {| files := ∅; entries := [(hash_a, {| mtime := 1; size := 100; entry_version := 2 |})];
     database := ∅; new_entries := []; cache_size := 0; max_size := 50;
     lock_tables := no_locks; path_ := lit "/cache"; snappy_ := false |}.

Definition stuck_env : env :=
  {| mkdir_ok := true; writes := writes good_env; unlink_ok := fun _ => false; db_set_ok := true; now := 100 |}.

(** Two ways in which the cleaner reaches its failing [CHECK] and brings
    the daemon down.  A row that an on-disk index keeps for an entry whose files
    are gone is not counted by the scan of [Run] but subtracted when the cleaner
    removes it, so the size wraps around below zero, everything is evicted, and
    the index is empty while the cache still seems too large.  And when files
    cannot be deleted, their sizes stay counted although their row is gone. *)
Theorem Clean_check_failure :
  (let c := scan toy_print toy_parse good_env [] stale_cache in
   match Store toy_print toy_Compress good_env hash_b
           {| object := lit "a 60 byte object ..........................................."; deps := [];
              stderr := [] |} c with
   | Some c => let '(l, c) := reset_new_entries c in Clean toy_parse 10 good_env l c = Check_failed
   | None => False
   end) /\
  (match Store toy_print toy_Compress good_env hash_b
           {| object := lit "a 60 byte object ..........................................."; deps := [];
              stderr := [] |} (set_entries [] 0 stale_cache) with
   | Some c => let '(l, c) := reset_new_entries c in Clean toy_parse 10 stuck_env l c = Check_failed
   | None => False
   end).
Proof. split; vm_compute; reflexivity. Qed.
