(* ===== verification/CacheNames.v ===== *)
(** The names of cache entries: what [FileCache::Hash] builds and what the scan
    of [FileCache::Run] recognises ([src/src/cache/file_cache.cc]). *)

From S2P Require Import Prelude StringUtils ConstString ConstStringFind ConstStringHash CacheLocks FileCache CacheEntries CacheMigrate CacheClean.

#[local] Open Scope Z_scope.

Definition usable (s : ConstString) : Prop := wf s /\ Forall collapsible (rope s).

Lemma le_bytes_ok n w : bytes_ok (le_bytes n w).
Proof.
  revert w. induction n as [|n IH]; intros w; simpl; constructor; [| apply IH].
  unfold is_byte. apply Z.mod_pos_bound. lia.
Qed.

Lemma flat_hash_bytes l h : flat_hash l = Some h -> bytes_ok h.
Proof.
  unfold flat_hash. destruct l as [|b l].
  - intros [= <-]. repeat constructor; unfold is_byte; lia.
  - cbv zeta. destruct (tail_mix _ _ _) as [x|]; [| done]. cbn [mbind option_bind].
    destruct (finalize _ _) as [f1 f2]. intros Heq.
    assert (h = le_bytes 8 f1 ++ le_bytes 8 f2) as -> by congruence. apply Forall_app. split; apply le_bytes_ok.
Qed.

Lemma hex_digit_is_hex n : 0 <= n < 16 -> is_hex (hex_digit n) = true.
Proof.
  intros Hn. unfold is_hex, hex_digit. destruct (Z.ltb_spec n 10).
  - apply orb_true_intro. right. apply andb_true_intro. lia.
  - apply orb_true_intro. left. apply andb_true_intro. lia.
Qed.

Lemma Hexify_is_hex b : bytes_ok b -> forallb is_hex (Hexify b) = true.
Proof.
  induction 1 as [|x b Hx Hb IH]; [done |]. unfold Hexify in *. cbn [mbind list_bind app forallb].
  rewrite IH, !hex_digit_is_hex; [done | |]; unfold is_byte in Hx.
  - apply Z.mod_pos_bound. lia.
  - split; [apply Z.div_pos; lia | apply Z.div_lt_upper_bound; lia].
Qed.

(** The digits of a hash: [2 n] of them, but always 32 for the empty string. *)
Lemma hex_hash_digits s n :
  usable s -> (n <= 16)%nat ->
  exists x, hex_hash s n = Some x /\ forallb is_hex x = true /\
    length x = if decide (contents s = []) then 32%nat else (2 * n)%nat.
Proof.
  intros [Hwf Hc] Hn. destruct (hex_hash_total s n Hwf Hc) as (h & Hh & ->).
  eexists. split; [done |]. split.
  - apply Hexify_is_hex. apply Forall_take. by eapply flat_hash_bytes.
  - rewrite length_Hexify, length_take. destruct (flat_hash_total (contents s)) as (h' & Hh' & Hl).
    assert (h' = h) as -> by congruence. destruct (decide _); lia.
Qed.

Lemma hex_hash_contents s1 s2 n :
  usable s1 -> usable s2 -> contents s1 = contents s2 -> hex_hash s1 n = hex_hash s2 n.
Proof.
  intros [H1 H2] [H3 H4] Heq.
  destruct (hex_hash_total s1 n H1 H2) as (h1 & Hh1 & ->).
  destruct (hex_hash_total s2 n H3 H4) as (h2 & Hh2 & ->). rewrite <-Heq in *. congruence.
Qed.

Lemma path_div_suffix p q : head q <> Some 47 -> exists pre, path_div p q = pre ++ q.
Proof.
  intros Hq. unfold path_div. rewrite decide_False by done. destruct (last p) as [c|]; [| by exists []].
  destruct (c =? 47); [by exists p |]. exists (p ++ [47]). by rewrite <-app_assoc.
Qed.

Lemma forallb_drop {A} (f : A -> bool) n l : forallb f l = true -> forallb f (drop n l) = true.
Proof. rewrite !forallb_forall. intros H x Hx. apply H. apply list_elem_of_In, (subseteq_drop n). by apply list_elem_of_In. Qed.

(** A name in three fields as the scan expects it. *)
Lemma match_manifest_fields pre a b d :
  length a = 32%nat -> length b = 8%nat -> length d = 8%nat ->
  forallb is_hex a = true -> forallb is_hex b = true -> forallb is_hex d = true ->
  match_manifest (pre ++ (a ++ lit "-" ++ b ++ lit "-" ++ d) ++ lit ".manifest")
  = Some (a ++ lit "-" ++ b ++ lit "-" ++ d).
Proof.
  intros Ha Hb Hd Fa Fb Fd. unfold match_manifest. set (name := a ++ _).
  assert (length name = 50%nat) as Hn by (unfold name; rewrite !length_app, Ha, Hb, Hd; done).
  assert (length (pre ++ name ++ lit ".manifest") = (length pre + 59)%nat) as Hlen
    by (rewrite !length_app, Hn; simpl; lia).
  rewrite Hlen. replace (length pre + 59 - 59)%nat with (length pre) by lia.
  replace (length pre + 59 <? 59)%nat with false by (symmetry; apply Nat.ltb_ge; lia).
  rewrite drop_app_length.
  assert (take 50 (name ++ lit ".manifest") = name) as -> by (by rewrite take_app_length').
  assert (drop 50 (name ++ lit ".manifest") = lit ".manifest") as -> by (by rewrite drop_app_length').
  assert (take 32 name = a) as -> by (by apply take_app_length').
  assert (name !! 32%nat = Some 45) as -> by (unfold name; by rewrite lookup_app_r, Ha by lia).
  assert (drop 33 name = b ++ lit "-" ++ d) as ->
    by (unfold name; by rewrite drop_app_ge, Ha by lia).
  assert (name !! 41%nat = Some 45) as ->
    by (unfold name; rewrite lookup_app_r, Ha by lia; simpl; by rewrite lookup_app_r, Hb by lia).
  assert (drop 42 name = d) as ->
    by (unfold name; rewrite drop_app_ge, Ha by lia; simpl; by rewrite drop_app_ge, Hb by lia).
  rewrite take_app_length' by done. by rewrite Fa, Fb, Fd.
Qed.

Lemma CommonPath_suffix hash c :
  head hash <> Some 47 -> exists pre, manifest_path hash c = pre ++ hash ++ lit ".manifest".
Proof.
  intros Hh. destruct (path_div_suffix (SecondPath hash c) hash Hh) as [pre Hpre].
  exists pre. unfold manifest_path, CommonPath, AppendExtension. rewrite Hpre. by rewrite <-app_assoc.
Qed.

(** A name whose first field is followed by a dash that the scan meets among
    hexadecimal digits. *)
Lemma match_manifest_long pre (name : list Z) k :
  (50 <= length name)%nat -> name !! k = Some 45 ->
  (length name - 50 <= k < length name - 18)%nat -> match_manifest (pre ++ name ++ lit ".manifest") = None.
Proof.
  intros Hlen Hk Hrange. unfold match_manifest.
  destruct (length _ <? 59)%nat; [done |]. set (tail := drop _ _).
  assert (tail = drop (length name - 50) name ++ lit ".manifest") as ->.
  { unfold tail. rewrite !length_app. simpl (length (lit ".manifest")).
    replace (length pre + (length name + 9) - 59)%nat with (length pre + (length name - 50))%nat by lia.
    rewrite <-drop_drop, drop_app_length, drop_app_le by lia. done. }
  assert (forallb is_hex (take 32 (take 50 (drop (length name - 50) name ++ lit ".manifest"))) = false) as ->; [| done].
  apply not_true_is_false. rewrite forallb_forall. intros H.
  assert (is_hex 45 = true); [| done]. apply H. apply list_elem_of_In.
  apply list_elem_of_lookup. exists (k - (length name - 50))%nat.
  rewrite lookup_take_lt, lookup_take_lt, lookup_app_l by (rewrite ?length_drop; lia).
  rewrite lookup_drop. by replace (length name - 50 + (k - (length name - 50)))%nat with k by lia.
Qed.

Definition files_usable (extra : list (list Z * ConstString)) : Prop := Forall (fun f => usable f.2) extra.

Lemma literal_usable s : usable (of_String s).
Proof. split; [simpl; rewrite length_app; lia | constructor]. Qed.

Lemma buffer_usable h n : (n <= length h)%nat -> usable (of_buffer h n) /\ collapsible (of_buffer h n).
Proof. intros H. split; [split; [exact H | constructor] | done]. Qed.

Lemma HashCombine_total code extra :
  usable code -> files_usable extra ->
  exists x, HashCombine code extra = Some x /\ forallb is_hex x = true /\ length x = 32%nat.
Proof.
  intros Hc He. unfold HashCombine. destruct (decide (extra = [])) as [-> | Hne].
  - destruct (hex_hash_digits code 16 Hc ltac:(lia)) as (x & -> & Hx & Hl).
    exists x. split_and!; [done | done |]. rewrite Hl. by destruct (decide _).
  - destruct Hc as [Hwf Hcol]. destruct (Hash_flat code 16 Hwf Hcol) as (h & _ & Hlen & ->).
    cbn [mbind option_bind].
    assert (forall s n, usable s -> exists b, ConstStringHash.Hash s n = Some b /\ usable b /\ collapsible b) as Hash_usable.
    { intros s n [H1 H2]. destruct (Hash_flat s n H1 H2) as (h' & _ & Hl' & ->). eexists. split; [done |].
      apply buffer_usable. rewrite Hl'. destruct (decide _); lia. }
    assert (exists l, mapM (fun f => a ← ConstStringHash.Hash (of_String f.1) 4;
              b ← ConstStringHash.Hash f.2 16; Some [a; b]) extra = Some l /\
              Forall (fun s => usable s /\ collapsible s) (concat l)) as (l & -> & Hl).
    { clear Hne. induction He as [|f extra Hf He (l & Hl & Hu)]; [by exists [] |]. cbn [mapM].
      destruct (Hash_usable (of_String f.1) 4%nat) as (a & Ha & Hua & Hca).
      { apply literal_usable. }
      destruct (Hash_usable f.2 16%nat Hf) as (b & Hb & Hub & Hcb).
      rewrite Ha, Hb. cbn [mbind option_bind]. rewrite Hl. cbn [mbind option_bind].
      exists ([a; b] :: l). split; [done |]. constructor; [done |]. by constructor. }
    cbn [mbind option_bind]. set (s := of_buffer h _).
    assert (usable s /\ collapsible s) as Hs.
    { apply buffer_usable. rewrite Hlen. destruct (decide _); lia. }
    destruct (hex_hash_digits (of_rope (s :: concat l)) 16) as (x & -> & Hx & Hlx); [| lia |].
    { split.
      - apply wf_of_rope. constructor; [apply Hs |]. eapply Forall_impl; [exact Hl |]. intros y Hy. apply Hy.
      - constructor; [apply Hs |]. eapply Forall_impl; [exact Hl |]. intros y Hy. apply Hy. }
    exists x. split_and!; [done | done |]. rewrite Hlx. by case_decide.
Qed.

(** ** Property *)

(** The name of an entry is always defined.  When command line and version
    are not empty it has the 50 characters of the index's key column, the scan
    of [Run] recognises its manifest and gives the same name back, and it
    depends on the contents of the source, command line and version only.  With
    an empty command line the second field has 32 digits instead of 8, and the
    scan of [Run] never finds the entry again. *)
Theorem Hash_name (code command_line ver : ConstString) (extra : list (list Z * ConstString)) (c : FileCache) :
  usable code -> usable command_line -> usable ver -> files_usable extra -> contents ver <> [] ->
  exists name, Hash code extra command_line ver = Some name /\
    (contents command_line <> [] ->
       length name = 50%nat /\ match_manifest (manifest_path name c) = Some name) /\
    (contents command_line = [] -> match_manifest (manifest_path name c) = None) /\
    (forall code' command_line' ver', usable code' -> usable command_line' -> usable ver' ->
       contents code' = contents code -> contents command_line' = contents command_line ->
       contents ver' = contents ver -> extra = [] ->
       Hash code' extra command_line' ver' = Some name).
Proof.
  intros Hcode Hcl Hver Hextra Hne.
  destruct (HashCombine_total code extra Hcode Hextra) as (a & Ea & Fa & La).
  destruct (hex_hash_digits command_line 4 Hcl ltac:(lia)) as (b & Eb & Fb & Lb).
  destruct (hex_hash_digits ver 4 Hver ltac:(lia)) as (d & Ed & Fd & Ld). rewrite decide_False in Ld by done.
  exists (a ++ lit "-" ++ b ++ lit "-" ++ d).
  assert (Hash code extra command_line ver = Some (a ++ lit "-" ++ b ++ lit "-" ++ d)) as HH
    by (unfold Hash; rewrite Ea, Eb, Ed; done).
  assert (head (a ++ lit "-" ++ b ++ lit "-" ++ d) <> Some 47) as Hhead.
  { destruct a as [|x a]; [done |]. simpl in Fa. apply andb_prop in Fa as [Fx _]. intros [= ->]. done. }
  destruct (CommonPath_suffix _ c Hhead) as [pre Hpre].
  split_and!; [done | | |].
  - intros Hc. rewrite decide_False in Lb by done. split; [rewrite !length_app, La, Lb, Ld; done |].
    rewrite Hpre. by apply match_manifest_fields.
  - intros Hc. rewrite decide_True in Lb by done. rewrite Hpre.
    apply match_manifest_long with 32%nat; rewrite ?length_app, ?La, ?Lb, ?Ld; simpl; try lia.
    by rewrite lookup_app_r, La by lia.
  - intros code' cl' ver' H1 H2 H3 E1 E2 E3 ->. rewrite <-HH. unfold Hash, HashCombine.
    rewrite !decide_True by done.
    by rewrite (hex_hash_contents code' code 16), (hex_hash_contents cl' command_line 4),
      (hex_hash_contents ver' ver 4).
Qed.

Lemma Hash_name_witness :
  exists name, Hash (of_String (lit "int main() {}")) [] (of_String (lit "-c")) (of_String (lit "3.5")) = Some name /\
    length name = 50%nat /\ match_manifest (manifest_path name toy_cache) = Some name.
Proof.
  destruct (Hash_name (of_String (lit "int main() {}")) (of_String (lit "-c")) (of_String (lit "3.5")) [] toy_cache
              (literal_usable _) (literal_usable _) (literal_usable _)) as (name & H1 & H2 & _);
    [constructor | done |].
  exists name. split; [exact H1 | apply H2; done].
Defined.
