(* ===== verification/BitReflect.v ===== *)
(** Bit-level equations by computation.

    An expression over bounded variables, built from [Z.lor], [Z.land],
    [Z.shiftl], [Z.shiftr] and [wrap], is evaluated one bit at a time to the set
    of variable bits that it is the disjunction of; two expressions whose bits
    agree are equal.  [bitwise] reifies both sides of an equation and checks it
    by [vm_compute]. *)

From S2P Require Import Prelude.

#[local] Open Scope Z_scope.

Inductive bexp :=
| BVar (n : nat)
| BConst (c : Z)
| BOr (a b : bexp)
| BAnd (a b : bexp)
| BShl (a : bexp) (k : Z)
| BShr (a : bexp) (k : Z)
| BWrap (w : Z) (a : bexp).

(** Variables come with their values and their widths. *)
Abbreviation benv := (list (Z * Z)) (only parsing).

Definition var_value (env : benv) (n : nat) : Z := (nth n env (0, 0)).1.
Definition var_width (env : benv) (n : nat) : Z := (nth n env (0, 0)).2.

Fixpoint beval (env : benv) (e : bexp) : Z :=
  match e with
  | BVar n => var_value env n
  | BConst c => c
  | BOr a b => Z.lor (beval env a) (beval env b)
  | BAnd a b => Z.land (beval env a) (beval env b)
  | BShl a k => Z.shiftl (beval env a) k
  | BShr a k => Z.shiftr (beval env a) k
  | BWrap w a => wrap w (beval env a)
  end.

(** One bit: known, a disjunction of variable bits, or out of reach. *)
Inductive sbit := STrue | SAtoms (l : list (nat * Z)) | SFail.

Definition atom_lt (p q : nat * Z) : bool :=
  (p.1 <? q.1)%nat || ((p.1 =? q.1)%nat && (p.2 <? q.2)).
Definition atom_eq (p q : nat * Z) : bool := (p.1 =? q.1)%nat && (p.2 =? q.2).

Fixpoint add_atom (p : nat * Z) (l : list (nat * Z)) : list (nat * Z) :=
  match l with
  | [] => [p]
  | q :: l => if atom_lt p q then p :: q :: l else if atom_eq p q then q :: l else q :: add_atom p l
  end.

Fixpoint atoms_eq (l k : list (nat * Z)) : bool :=
  match l, k with
  | [], [] => true
  | p :: l, q :: k => atom_eq p q && atoms_eq l k
  | _, _ => false
  end.

Definition sor (a b : sbit) : sbit :=
  match a, b with
  | STrue, _ | _, STrue => STrue
  | SAtoms l, SAtoms k => SAtoms (foldr add_atom k l)
  | _, _ => SFail
  end.

Definition sand (a b : sbit) : sbit :=
  match a, b with
  | SAtoms [], _ | _, SAtoms [] => SAtoms []
  | STrue, x | x, STrue => x
  | SAtoms l, SAtoms k => if atoms_eq l k then SAtoms l else SFail
  | _, _ => SFail
  end.

Fixpoint bbit (env : benv) (e : bexp) (i : Z) : sbit :=
  if i <? 0 then SAtoms []
  else
    match e with
    | BVar n => if i <? var_width env n then SAtoms [(n, i)] else SAtoms []
    | BConst c => if Z.testbit c i then STrue else SAtoms []
    | BOr a b => sor (bbit env a i) (bbit env b i)
    | BAnd a b => sand (bbit env a i) (bbit env b i)
    | BShl a k => bbit env a (i - k)
    | BShr a k => if k <? 0 then SFail else bbit env a (i + k)
    | BWrap w a => if w <? 0 then SFail else if i <? w then bbit env a i else SAtoms []
    end.

(** A bound on the number of bits; [None] when a constant is negative. *)
Fixpoint bwidth (env : benv) (e : bexp) : option Z :=
  match e with
  | BVar n => Some (var_width env n)
  | BConst c => if c <? 0 then None else Some (if c =? 0 then 0 else Z.log2 c + 1)
  | BOr a b => x ← bwidth env a; y ← bwidth env b; Some (Z.max x y)
  | BAnd a b => x ← bwidth env a; y ← bwidth env b; Some (Z.min x y)
  | BShl a k => if k <? 0 then None else x ← bwidth env a; Some (x + k)
  | BShr a k => if k <? 0 then None else x ← bwidth env a; Some (Z.max 0 (x - k))
  | BWrap w a => if w <? 0 then None else x ← bwidth env a; Some (Z.min w x)
  end.

Definition sbit_eq (a b : sbit) : bool :=
  match a, b with
  | STrue, STrue => true
  | SAtoms l, SAtoms k => atoms_eq l k
  | _, _ => false
  end.

Definition bcheck (env : benv) (a b : bexp) : bool :=
  match bwidth env a, bwidth env b with
  | Some x, Some y =>
      forallb (fun i => sbit_eq (bbit env a (Z.of_nat i)) (bbit env b (Z.of_nat i)))
        (seq 0 (Z.to_nat (Z.max x y)))
  | _, _ => false
  end.

(** ** Soundness *)

Definition env_ok (env : benv) : Prop := Forall (fun p => 0 <= p.2 /\ 0 <= p.1 < 2 ^ p.2) env.

Definition atom_value (env : benv) (p : nat * Z) : bool := Z.testbit (var_value env p.1) p.2.

Definition agrees (env : benv) (s : sbit) (b : bool) : Prop :=
  match s with
  | STrue => b = true
  | SAtoms l => b = existsb (atom_value env) l
  | SFail => True
  end.

Lemma env_var env n : env_ok env -> 0 <= var_width env n /\ 0 <= var_value env n < 2 ^ var_width env n.
Proof.
  intros He. unfold var_width, var_value. destruct (decide (n < length env)%nat) as [Hn | Hn].
  - apply (proj1 (Forall_forall _ _) He), list_elem_of_In, nth_In. done.
  - rewrite nth_overflow by lia. simpl. lia.
Qed.

Lemma atom_eq_spec p q : atom_eq p q = true -> p = q.
Proof.
  unfold atom_eq. intros [H1 H2]%andb_prop. apply Nat.eqb_eq in H1. apply Z.eqb_eq in H2.
  destruct p, q. simpl in *. congruence.
Qed.

Lemma add_atom_spec env p l :
  existsb (atom_value env) (add_atom p l) = atom_value env p || existsb (atom_value env) l.
Proof.
  induction l as [|q l IH]; simpl; [done |]. destruct (atom_lt p q); [done |].
  destruct (atom_eq p q) eqn:He; simpl.
  - apply atom_eq_spec in He as ->. by destruct (atom_value env q).
  - rewrite IH. by destruct (atom_value env p), (atom_value env q).
Qed.

Lemma atoms_eq_spec l k : atoms_eq l k = true -> l = k.
Proof.
  revert k. induction l as [|p l IH]; intros [|q k]; simpl; try done.
  intros [H1%atom_eq_spec H2%IH]%andb_prop. congruence.
Qed.

Lemma sor_agrees env a b x y : agrees env a x -> agrees env b y -> agrees env (sor a b) (x || y).
Proof.
  destruct a as [| l |], b as [| k |]; cbn [sor agrees]; intros Ha Hb; try subst x; try subst y;
    rewrite ?orb_true_r; try done.
  induction l as [|p l IH]; simpl; [done |]. rewrite add_atom_spec, <-IH. by destruct (atom_value env p).
Qed.

Lemma sand_agrees env a b x y : agrees env a x -> agrees env b y -> agrees env (sand a b) (x && y).
Proof.
  destruct a as [| [|p l] |], b as [| [|q k] |]; cbn [sand agrees existsb]; intros Ha Hb;
    try subst x; try subst y; rewrite ?andb_false_r, ?andb_true_r; try done.
  destruct (atoms_eq (p :: l) (q :: k)) eqn:He; [| done]. apply atoms_eq_spec in He. injection He as <- <-.
  cbn [agrees existsb]. apply andb_diag.
Qed.

Lemma bbit_agrees env e i : env_ok env -> agrees env (bbit env e i) (Z.testbit (beval env e) i).
Proof.
  intros He. revert i. induction e as [n | c | a IHa b IHb | a IHa b IHb | a IHa k | a IHa k | w a IHa];
    intros i; cbn [bbit beval]; (destruct (Z.ltb_spec i 0) as [Hneg | Hpos]; [by apply Z.testbit_neg_r |]).
  - destruct (env_var env n He) as [H1 H2]. destruct (Z.ltb_spec i (var_width env n)); simpl.
    + unfold atom_value. simpl. by rewrite orb_false_r.
    + by apply testbit_high with (var_width env n).
  - by destruct (Z.testbit c i).
  - rewrite Z.lor_spec. by apply sor_agrees.
  - rewrite Z.land_spec. by apply sand_agrees.
  - rewrite Z.shiftl_spec by done. apply IHa.
  - destruct (Z.ltb_spec k 0); [done |]. rewrite Z.shiftr_spec by done. apply IHa.
  - destruct (Z.ltb_spec w 0); [done |]. rewrite wrap_testbit by lia.
    destruct (Z.ltb_spec i w); [apply IHa | done].
Qed.

Lemma lor_bound a b x y :
  0 <= x -> 0 <= y -> 0 <= a < 2 ^ x -> 0 <= b < 2 ^ y -> 0 <= Z.lor a b < 2 ^ Z.max x y.
Proof.
  intros Hx Hy Ha Hb.
  assert (2 ^ x <= 2 ^ Z.max x y) by (apply Z.pow_le_mono_r; lia).
  assert (2 ^ y <= 2 ^ Z.max x y) by (apply Z.pow_le_mono_r; lia).
  split; [apply Z.lor_nonneg; lia |].
  destruct (Z.eq_dec (Z.lor a b) 0) as [-> | Hz]; [lia |].
  apply Z.log2_lt_pow2; [pose proof (Z.lor_nonneg a b); lia |].
  rewrite Z.log2_lor by lia.
  destruct (Z.max_spec (Z.log2 a) (Z.log2 b)) as [[_ ->] | [_ ->]].
  - destruct (Z.eq_dec b 0) as [-> | Hb0]; [| apply Z.log2_lt_pow2; lia].
    simpl. destruct (Z.eq_dec a 0) as [-> | Ha0]; [by rewrite Z.lor_0_l in Hz |].
    pose proof (Z.log2_nonneg a). assert (Z.log2 a < Z.max x y) by (apply Z.log2_lt_pow2; lia). lia.
  - destruct (Z.eq_dec a 0) as [-> | Ha0]; [| apply Z.log2_lt_pow2; lia].
    simpl. destruct (Z.eq_dec b 0) as [-> | Hb0]; [by rewrite Z.lor_0_r in Hz |].
    pose proof (Z.log2_nonneg b). assert (Z.log2 b < Z.max x y) by (apply Z.log2_lt_pow2; lia). lia.
Qed.

Lemma land_bound a b x y :
  0 <= a < 2 ^ x -> 0 <= b < 2 ^ y -> 0 <= Z.land a b < 2 ^ Z.min x y.
Proof.
  intros Ha Hb. assert (0 <= Z.land a b) by (apply Z.land_nonneg; lia).
  assert (0 <= x) by (destruct (Z.ltb_spec x 0); [rewrite Z.pow_neg_r in Ha by done |]; lia).
  assert (0 <= y) by (destruct (Z.ltb_spec y 0); [rewrite Z.pow_neg_r in Hb by done |]; lia).
  split; [done |]. destruct (Z.eq_dec (Z.land a b) 0) as [-> | Hz]; [apply Z.pow_pos_nonneg; lia |].
  assert (a <> 0) by (intros ->; by rewrite Z.land_0_l in Hz).
  assert (b <> 0) by (intros ->; by rewrite Z.land_0_r in Hz).
  apply Z.log2_lt_pow2; [lia |]. pose proof (Z.log2_land a b ltac:(lia) ltac:(lia)).
  assert (Z.log2 a < x) by (apply Z.log2_lt_pow2; lia).
  assert (Z.log2 b < y) by (apply Z.log2_lt_pow2; lia). lia.
Qed.

Lemma bwidth_bound env e w :
  env_ok env -> bwidth env e = Some w -> 0 <= w /\ 0 <= beval env e < 2 ^ w.
Proof.
  intros He. revert w. induction e as [n | c | a IHa b IHb | a IHa b IHb | a IHa k | a IHa k | w' a IHa];
    intros w; cbn [bwidth beval].
  - intros [= <-]. by apply env_var.
  - destruct (Z.ltb_spec c 0); [done |]. intros [= <-]. destruct (Z.eqb_spec c 0) as [-> | Hc]; [done |].
    pose proof (Z.log2_nonneg c). split; [lia |]. split; [done |]. apply Z.log2_lt_pow2; lia.
  - destruct (bwidth env a) as [x|], (bwidth env b) as [y|]; try done. intros [= <-].
    destruct (IHa _ eq_refl), (IHb _ eq_refl). split; [lia |]. by apply lor_bound.
  - destruct (bwidth env a) as [x|], (bwidth env b) as [y|]; try done. intros [= <-].
    destruct (IHa _ eq_refl), (IHb _ eq_refl). split; [lia |]. by apply land_bound.
  - destruct (Z.ltb_spec k 0); [done |]. destruct (bwidth env a) as [x|]; [| done]. intros [= <-].
    destruct (IHa _ eq_refl) as [H1 H2]. split; [lia |]. rewrite Z.shiftl_mul_pow2, Z.pow_add_r by lia.
    assert (0 < 2 ^ k) by (apply Z.pow_pos_nonneg; lia). nia.
  - destruct (Z.ltb_spec k 0); [done |]. destruct (bwidth env a) as [x|]; [| done]. intros [= <-].
    destruct (IHa _ eq_refl) as [H1 H2]. split; [lia |]. rewrite Z.shiftr_div_pow2 by lia.
    assert (0 < 2 ^ k) by (apply Z.pow_pos_nonneg; lia). split; [apply Z.div_pos; lia |].
    apply Z.div_lt_upper_bound; [lia |]. rewrite <-Z.pow_add_r by lia.
    apply Z.lt_le_trans with (2 ^ x); [lia |]. apply Z.pow_le_mono_r; lia.
  - destruct (Z.ltb_spec w' 0); [done |]. destruct (bwidth env a) as [x|]; [| done]. intros [= <-].
    destruct (IHa _ eq_refl) as [H1 H2]. split; [lia |].
    pose proof (wrap_range w' ltac:(lia) (beval env a)).
    destruct (Z.min_spec w' x) as [[_ ->] | [Hle ->]]; [done |].
    rewrite wrap_small; [done |]. split; [lia |].
    apply Z.lt_le_trans with (2 ^ x); [lia |]. apply Z.pow_le_mono_r; lia.
Qed.

Theorem bcheck_sound env a b : env_ok env -> bcheck env a b = true -> beval env a = beval env b.
Proof.
  intros He. unfold bcheck. destruct (bwidth env a) as [x|] eqn:Ha, (bwidth env b) as [y|] eqn:Hb; try done.
  destruct (bwidth_bound _ _ _ He Ha) as [X1 X2], (bwidth_bound _ _ _ He Hb) as [Y1 Y2].
  rewrite forallb_forall. intros Hall. apply Z.bits_inj'. intros i Hi.
  destruct (Z.ltb_spec i (Z.max x y)) as [Hlt | Hge].
  - specialize (Hall (Z.to_nat i)). rewrite Z2Nat.id in Hall by done.
    assert (sbit_eq (bbit env a i) (bbit env b i) = true) as Heq
      by (apply Hall, in_seq; lia).
    pose proof (bbit_agrees env a i He) as Aa. pose proof (bbit_agrees env b i He) as Ab.
    destruct (bbit env a i), (bbit env b i); simpl in *; try done; [congruence |].
    apply atoms_eq_spec in Heq as ->. congruence.
  - rewrite (testbit_high _ x), (testbit_high _ y) by (done || lia). done.
Qed.

(** ** Reification *)

Ltac is_Z_literal t :=
  match t with
  | Z0 => idtac
  | Zpos ?p => is_pos_literal p
  | Zneg ?p => is_pos_literal p
  | _ => fail 1
  end
with is_pos_literal p :=
  match p with
  | xH => idtac
  | xO ?p => is_pos_literal p
  | xI ?p => is_pos_literal p
  | _ => fail 1
  end.

(** The width of a variable, from a hypothesis on its range. *)
Ltac var_bound t :=
  match goal with
  | H : is_byte t |- _ => constr:(8)
  | H : 0 <= t < 256 |- _ => constr:(8)
  | H : 0 <= t < 2 ^ ?w |- _ => constr:(w)
  end.

Ltac index_of t env :=
  match env with
  | (t, _) :: _ => constr:(0%nat)
  | _ :: ?env => let n := index_of t env in constr:(S n)
  end.

Ltac add_var t env :=
  match env with
  | _ => let _ := index_of t env in env
  | _ => let w := var_bound t in
         let e := eval cbv [app] in (env ++ [(t, w)]) in e
  end.

Ltac collect_vars t env :=
  lazymatch t with
  | Z.lor ?a ?b => let e := collect_vars a env in collect_vars b e
  | Z.land ?a ?b => let e := collect_vars a env in collect_vars b e
  | Z.shiftl ?a _ => collect_vars a env
  | Z.shiftr ?a _ => collect_vars a env
  | wrap _ ?a => collect_vars a env
  | _ => match t with
         | _ => let _ := match t with _ => is_Z_literal t end in env
         | _ => add_var t env
         end
  end.

Ltac reify t env :=
  lazymatch t with
  | Z.lor ?a ?b => let x := reify a env in let y := reify b env in constr:(BOr x y)
  | Z.land ?a ?b => let x := reify a env in let y := reify b env in constr:(BAnd x y)
  | Z.shiftl ?a ?k => let x := reify a env in constr:(BShl x k)
  | Z.shiftr ?a ?k => let x := reify a env in constr:(BShr x k)
  | wrap ?w ?a => let x := reify a env in constr:(BWrap w x)
  | _ => match t with
         | _ => let n := index_of t env in constr:(BVar n)
         | _ => constr:(BConst t)
         end
  end.

Ltac bitwise :=
  lazymatch goal with
  | |- ?x = ?y =>
      let env := collect_vars x (@nil (Z * Z)) in
      let env := collect_vars y env in
      let a := reify x env in
      let b := reify y env in
      change (beval env a = beval env b);
      apply bcheck_sound;
      [ unfold env_ok, is_byte in *; repeat (apply Forall_cons; split; [cbn [fst snd]; lia |]); apply Forall_nil; exact I
      | vm_compute; reflexivity ]
  end.

Example bitwise_example a b :
  is_byte a -> is_byte b ->
  Z.land (Z.lor (u32 (Z.shiftl a 14)) (Z.lor (Z.shiftl b 7) 3)) 0xff = Z.lor (wrap 8 (Z.shiftl (Z.land b 1) 7)) 3.
Proof. intros Ha Hb. bitwise. Qed.
