(* ===== verification/SqVarint.v ===== *)
(** SQLite's variable-length and fixed-length integers
    ([src/src/cache/sqlite3.c], part util.c). *)

From S2P Require Import Prelude BitReflect.

#[local] Open Scope Z_scope.

(** ** Writing

    The result is the list of the bytes written; its length is what the C
    functions return. *)

(** [p[i] = (u8)((v & 0x7f) | 0x80); v >>= 7;] for [n] bytes, the last one first. *)
Fixpoint put_high (n : nat) (v : Z) (p : list Z) : list Z :=
  match n with
  | O => p
  | S n => put_high n (Z.shiftr v 7) (wrap 8 (Z.lor (Z.land v 0x7f) 0x80) :: p)
  end.

(** The [do]-[while] loop that fills [buf]; [fuel] is the size of [buf]. *)
Fixpoint put_buf (fuel : nat) (v : Z) : list Z :=
  match fuel with
  | O => []
  | S fuel =>
      let b := wrap 8 (Z.lor (Z.land v 0x7f) 0x80) in
      let v := Z.shiftr v 7 in
      if v =? 0 then [b] else b :: put_buf fuel v
  end.

Definition putVarint64 (v : Z) : list Z :=
  if negb (Z.land v (u64 (Z.shiftl 0xff000000 32)) =? 0) then
    put_high 8 (Z.shiftr v 8) [wrap 8 v]
  else
    match put_buf 10 v with
    | [] => []
    | b :: buf => reverse (Z.land b 0x7f :: buf)
    end.

Definition sqlite3PutVarint (v : Z) : list Z :=
  if v <=? 0x7f then [wrap 8 (Z.land v 0x7f)]
  else if v <=? 0x3fff then
    [wrap 8 (Z.lor (Z.land (Z.shiftr v 7) 0x7f) 0x80); wrap 8 (Z.land v 0x7f)]
  else putVarint64 v.

Fixpoint varint_len (fuel : nat) (i v : Z) : Z :=
  match fuel with
  | O => i
  | S fuel =>
      let i := i + 1 in
      let v := Z.shiftr v 7 in
      if negb (v =? 0) && (i <? 9) then varint_len fuel i v else i
  end.

Definition sqlite3VarintLen (v : Z) : Z := varint_len 9 0 v.

(** ** Reading

    The number of bytes and the value; [None] when the bytes end inside the
    varint. *)

Definition SLOT_2_0 : Z := 0x001fc07f.
Definition SLOT_4_2_0 : Z := 0xf01fc07f.

(** [*v = ((u64)s)<<32 | a] *)
Definition join64 (s a : Z) : Z := Z.lor (u64 (Z.shiftl s 32)) a.

(** [x & 0x80] *)
Definition more (x : Z) : bool := negb (Z.land x 0x80 =? 0).

Definition sqlite3GetVarint (p : list Z) : option (Z * Z) :=
  match p with [] => None | p0 :: p =>
  let a := p0 in
  if negb (more a) then Some (1, a) else
  match p with [] => None | p1 :: p =>
  let b := p1 in
  if negb (more b) then Some (2, Z.lor (u32 (Z.shiftl (Z.land a 0x7f) 7)) b) else
  match p with [] => None | p2 :: p =>
  let a := Z.lor (u32 (Z.shiftl a 14)) p2 in
  if negb (more a) then
    Some (3, Z.lor (Z.land a SLOT_2_0) (u32 (Z.shiftl (Z.land b 0x7f) 7))) else
  let a := Z.land a SLOT_2_0 in
  match p with [] => None | p3 :: p =>
  let b := Z.lor (u32 (Z.shiftl b 14)) p3 in
  if negb (more b) then Some (4, Z.lor (u32 (Z.shiftl a 7)) (Z.land b SLOT_2_0)) else
  let b := Z.land b SLOT_2_0 in
  let s := a in
  match p with [] => None | p4 :: p =>
  let a := Z.lor (u32 (Z.shiftl a 14)) p4 in
  if negb (more a) then
    Some (5, join64 (Z.shiftr s 18) (Z.lor a (u32 (Z.shiftl b 7)))) else
  let s := Z.lor (u32 (Z.shiftl s 7)) b in
  match p with [] => None | p5 :: p =>
  let b := Z.lor (u32 (Z.shiftl b 14)) p5 in
  if negb (more b) then
    Some (6, join64 (Z.shiftr s 18) (Z.lor (u32 (Z.shiftl (Z.land a SLOT_2_0) 7)) b)) else
  match p with [] => None | p6 :: p =>
  let a := Z.lor (u32 (Z.shiftl a 14)) p6 in
  if negb (more a) then
    Some (7, join64 (Z.shiftr s 11)
               (Z.lor (Z.land a SLOT_4_2_0) (u32 (Z.shiftl (Z.land b SLOT_2_0) 7)))) else
  let a := Z.land a SLOT_2_0 in
  match p with [] => None | p7 :: p =>
  let b := Z.lor (u32 (Z.shiftl b 14)) p7 in
  if negb (more b) then
    Some (8, join64 (Z.shiftr s 4) (Z.lor (u32 (Z.shiftl a 7)) (Z.land b SLOT_4_2_0))) else
  match p with [] => None | p8 :: p =>
  let a := Z.lor (u32 (Z.shiftl a 15)) p8 in
  let a := Z.lor a (u32 (Z.shiftl (Z.land b SLOT_2_0) 8)) in
  let s := u32 (Z.shiftl s 4) in
  let b := Z.shiftr (Z.land p4 0x7f) 3 in
  let s := Z.lor s b in
  Some (9, join64 s a)
  end end end end end end end end end.

Definition SQLITE_MAX_U32 : Z := 0xffffffff.

Definition sqlite3GetVarint32 (p : list Z) : option (Z * Z) :=
  match p with [] => None | p0 :: q =>
  let a := p0 in
  match q with [] => None | p1 :: q =>
  let b := p1 in
  if negb (more b) then Some (2, Z.lor (u32 (Z.shiftl (Z.land a 0x7f) 7)) b) else
  match q with [] => None | p2 :: q =>
  let a := Z.lor (u32 (Z.shiftl a 14)) p2 in
  if negb (more a) then
    Some (3, Z.lor (Z.land a (Z.lor (Z.shiftl 0x7f 14) 0x7f)) (u32 (Z.shiftl (Z.land b 0x7f) 7))) else
  match sqlite3GetVarint p with
  | None => None
  | Some (n, v64) =>
      Some (n, if negb (Z.land v64 SQLITE_MAX_U32 =? v64) then 0xffffffff else u32 v64)
  end end end end.

(** The macro [getVarint32]. *)
Definition getVarint32 (p : list Z) : option (Z * Z) :=
  match p with
  | [] => None
  | p0 :: _ => if p0 <? 0x80 then Some (1, p0) else sqlite3GetVarint32 p
  end.

Definition sqlite3Get4byte (p : list Z) : option Z :=
  match p with
  | p0 :: p1 :: p2 :: p3 :: _ =>
      Some (Z.lor (Z.lor (Z.lor (u32 (Z.shiftl p0 24)) (Z.shiftl p1 16)) (Z.shiftl p2 8)) p3)
  | _ => None
  end.

Definition sqlite3Put4byte (v : Z) : list Z :=
  [wrap 8 (Z.shiftr v 24); wrap 8 (Z.shiftr v 16); wrap 8 (Z.shiftr v 8); wrap 8 v].

(** ** Reference: seven bits per byte while the high bit is set, eight bits in
    the ninth byte *)

Fixpoint read_groups (k : nat) (acc : Z) (p : list Z) : option (Z * Z) :=
  match p with
  | [] => None
  | b :: p =>
      match k with
      | O => Some (1, Z.lor (Z.shiftl acc 8) b)
      | S k =>
          if more b then '(n, v) ← read_groups k (Z.lor (Z.shiftl acc 7) (Z.land b 0x7f)) p; Some (n + 1, v)
          else Some (1, Z.lor (Z.shiftl acc 7) b)
      end
  end.

(** The high bit of a shifted sum is that of the byte read last. *)
Ltac high_bit :=
  match goal with
  | |- context [more ?x] =>
      match x with
      | Z.lor _ ?y => is_var y; replace (more x) with (more y) by (unfold more; do 2 f_equal; bitwise)
      end
  end.

(** A byte without its high bit. *)
Lemma no_more_small b : is_byte b -> more b = false -> 0 <= b < 2 ^ 7.
Proof.
  unfold is_byte, more. intros Hb H. apply negb_false_iff, Z.eqb_eq in H.
  assert (b = Z.land b 0x7f) as ->.
  { transitivity (Z.lor (Z.land b 0x7f) (Z.land b 0x80)); [bitwise | rewrite H; apply Z.lor_0_r]. }
  change 0x7f with (Z.ones 7). rewrite Z.land_ones by lia. apply Z.mod_pos_bound. lia.
Qed.

Lemma small_no_more b : 0 <= b < 2 ^ 7 -> more b = false.
Proof. intros Hb. unfold more. apply negb_false_iff, Z.eqb_eq. bitwise. Qed.

Ltac next_byte :=
  let b := fresh "b" in let Hb := fresh "Hb" in let E := fresh "E" in
  match goal with
  | H : bytes_ok ?p |- _ => destruct H as [|b ? Hb H]; [done |]
  | H : Forall is_byte ?p |- _ => destruct H as [|b ? Hb H]; [done |]
  end;
  cbn [read_groups]; try high_bit;
  destruct (more b) eqn:E; cbn [negb mbind option_bind];
  [clear E | apply no_more_small in E; [clear Hb; do 2 f_equal; bitwise | done]].

Lemma GetVarint_groups p : bytes_ok p -> sqlite3GetVarint p = read_groups 8 0 p.
Proof.
  intros Hp. unfold sqlite3GetVarint, join64, SLOT_2_0, SLOT_4_2_0.
  do 8 next_byte.
  destruct Hp as [|b8 ? Hb8 Hp]; [done |]. cbn [read_groups mbind option_bind]. do 2 f_equal. bitwise.
Qed.

(** ** Reading back what was written *)

Lemma shiftr_zero v k : 0 <= v -> 0 <= k -> (Z.shiftr v k =? 0) = (v <? 2 ^ k).
Proof.
  intros Hv Hk. rewrite Z.shiftr_div_pow2 by done. assert (0 < 2 ^ k) by (apply Z.pow_pos_nonneg; lia).
  apply eq_true_iff_eq. rewrite Z.eqb_eq, Z.ltb_lt, Z.div_small_iff by lia. lia.
Qed.

Lemma more_high x : 0 <= x < 2 ^ 64 -> more (wrap 8 (Z.lor (Z.land x 0x7f) 0x80)) = true.
Proof.
  intros Hx. unfold more. replace (Z.land _ 0x80) with 0x80; [done |]. symmetry. bitwise.
Qed.

Lemma shiftr_range v k : 0 <= v < 2 ^ 64 -> 0 <= k -> 0 <= Z.shiftr v k < 2 ^ 64.
Proof.
  intros Hv Hk. rewrite Z.shiftr_div_pow2 by done. assert (0 < 2 ^ k) by (apply Z.pow_pos_nonneg; lia).
  split; [apply Z.div_pos; lia |]. apply Z.div_lt_upper_bound; [done |]. nia.
Qed.

(** The bytes of a varint of at most eight bytes: group [i] of seven bits, high
    groups first, the last one without its high bit. *)
Definition group (v i : Z) : Z := wrap 8 (Z.lor (Z.land (Z.shiftr v (7 * i)) 0x7f) 0x80).

Lemma group_more v i : 0 <= v < 2 ^ 64 -> 0 <= i -> more (group v i) = true.
Proof. intros Hv Hi. apply more_high. apply shiftr_range; lia. Qed.

Lemma group_byte v i : is_byte (group v i).
Proof. unfold group, is_byte. change 256 with (2 ^ 8). apply wrap_range. lia. Qed.

Lemma group_0 v : Z.land (wrap 8 (Z.lor (Z.land v 0x7f) 0x80)) 0x7f = Z.land (group v 0) 0x7f.
Proof. unfold group. by rewrite Z.shiftr_0_r. Qed.

(** [put_buf] writes the groups from the low one on, up to the highest group
    that is not zero. *)
Lemma put_buf_groups n fuel i v :
  0 <= v -> 0 <= i -> (n < fuel)%nat ->
  2 ^ (7 * (i + Z.of_nat n)) <= v < 2 ^ (7 * (i + Z.of_nat n + 1)) \/ n = O /\ 0 <= v < 2 ^ (7 * (i + 1)) ->
  put_buf fuel (Z.shiftr v (7 * i)) = map (fun j => group v (i + Z.of_nat j)) (seq 0 (S n)).
Proof.
  intros Hv. revert fuel i. induction n as [|n IH]; intros [|fuel] i Hi Hf Hr; [lia | | lia |];
    cbn [put_buf]; rewrite Z.shiftr_shiftr by lia; replace (7 * i + 7) with (7 * (i + 1)) by lia;
    rewrite shiftr_zero by lia.
  - assert (v < 2 ^ (7 * (i + 1))) by (replace (i + Z.of_nat 0 + 1) with (i + 1) in Hr by lia; lia).
    replace (v <? 2 ^ (7 * (i + 1))) with true by lia. simpl. unfold group. by rewrite Z.add_0_r.
  - destruct Hr as [Hr | [? _]]; [| done].
    assert (2 ^ (7 * (i + 1)) <= 2 ^ (7 * (i + Z.of_nat (S n)))) by (apply Z.pow_le_mono_r; lia).
    replace (v <? 2 ^ (7 * (i + 1))) with false by lia.
    rewrite (IH fuel (i + 1)); [| lia | lia |].
    + change (seq 0 (S (S n))) with (0%nat :: seq 1 (S n)). cbn [map]. rewrite <-seq_shift, map_map.
      f_equal; [unfold group; by rewrite Z.add_0_r |]. apply map_ext. intros j. f_equal. lia.
    + left. replace (i + 1 + Z.of_nat n) with (i + Z.of_nat (S n)) by lia. done.
Qed.

(** Reading the groups [n - 1], ..., [0] after the part [acc] above them. *)
Lemma read_groups_groups n k v rest :
  0 <= v < 2 ^ 64 -> (n <= k)%nat -> (0 < n)%nat ->
  read_groups k (Z.shiftr v (7 * Z.of_nat n))
    (map (fun j => group v (Z.of_nat j)) (rev (seq 1 (n - 1))) ++ Z.land (group v 0) 0x7f :: rest)
  = Some (Z.of_nat n, v).
Proof.
  intros Hv. revert k. induction n as [|n IH]; intros k Hk Hn; [lia |].
  destruct k as [|k]; [lia |].
  assert (forall i, 0 <= i -> Z.lor (Z.shiftl (Z.shiftr v (7 * (i + 1))) 7) (Z.land (group v i) 0x7f)
                 = Z.shiftr v (7 * i)) as Hjoin.
  { intros i Hi. unfold group. replace (7 * (i + 1)) with (7 * i + 7) by lia.
    rewrite <-Z.shiftr_shiftr by lia. pose proof (shiftr_range v (7 * i) Hv ltac:(lia)) as Hx.
    set (x := Z.shiftr v (7 * i)) in *. bitwise. }
  destruct n as [|n].
  - change (1 - 1)%nat with 0%nat. cbn [seq rev map app read_groups]. rewrite small_no_more.
    + change (Z.of_nat 1) with (0 + 1). change (7 * (0 + 1)) with (7 * (0 + 1)).
      assert (Z.lor (Z.shiftl (Z.shiftr v (7 * (0 + 1))) 7) (Z.land (group v 0) 0x7f) = v) as Hv0
        by (rewrite (Hjoin 0) by lia; apply Z.shiftr_0_r).
      by rewrite Hv0.
    + change 0x7f with (Z.ones 7). rewrite Z.land_ones by lia. apply Z.mod_pos_bound. lia.
  - replace (S (S n) - 1)%nat with (S n) by lia. rewrite seq_S, rev_app_distr. cbn [rev app map read_groups].
    replace (1 + n)%nat with (S n) by lia.
    rewrite group_more by lia. replace (Z.of_nat (S (S n))) with (Z.of_nat (S n) + 1) by lia.
    rewrite Hjoin by lia. pose proof (IH k ltac:(lia) ltac:(lia)) as IHn.
    replace (S n - 1)%nat with n in IHn by lia. rewrite IHn. done.
Qed.

Definition groups (n : nat) (v : Z) : list Z :=
  map (fun j => group v (Z.of_nat j)) (rev (seq 1 (n - 1))) ++ [Z.land (group v 0) 0x7f].

(** [v] needs exactly [n] groups. *)
Definition needs (n : nat) (v : Z) : Prop :=
  (0 < n <= 8)%nat /\ 0 <= v < 2 ^ (7 * Z.of_nat n) /\ (n = 1%nat \/ 2 ^ (7 * (Z.of_nat n - 1)) <= v).

Lemma needs_some v : 0 <= v < 2 ^ 56 -> exists n, needs n v.
Proof.
  intros Hv. unfold needs.
  destruct (Z.ltb_spec v (2 ^ 7)); [exists 1%nat; simpl; lia |].
  destruct (Z.ltb_spec v (2 ^ 14)); [exists 2%nat; simpl; lia |].
  destruct (Z.ltb_spec v (2 ^ 21)); [exists 3%nat; simpl; lia |].
  destruct (Z.ltb_spec v (2 ^ 28)); [exists 4%nat; simpl; lia |].
  destruct (Z.ltb_spec v (2 ^ 35)); [exists 5%nat; simpl; lia |].
  destruct (Z.ltb_spec v (2 ^ 42)); [exists 6%nat; simpl; lia |].
  destruct (Z.ltb_spec v (2 ^ 49)); [exists 7%nat; simpl; lia |].
  exists 8%nat. simpl. lia.
Qed.

Lemma pow7_le n : (n <= 8)%nat -> 2 ^ (7 * Z.of_nat n) <= 2 ^ 56.
Proof. intros H. apply Z.pow_le_mono_r; lia. Qed.

Lemma mask_zero v : 0 <= v < 2 ^ 64 -> (Z.land v (u64 (Z.shiftl 0xff000000 32)) =? 0) = (v <? 2 ^ 56).
Proof.
  intros Hv. change (u64 (Z.shiftl 0xff000000 32)) with 0xff00000000000000. apply eq_true_iff_eq.
  rewrite Z.eqb_eq, Z.ltb_lt. split.
  - intros H. assert (v = Z.land v 0x00ffffffffffffff) as ->.
    { transitivity (Z.lor (Z.land v 0xff00000000000000) (Z.land v 0x00ffffffffffffff)); [bitwise |].
      by rewrite H, Z.lor_0_l. }
    change 0x00ffffffffffffff with (Z.ones 56). rewrite Z.land_ones by lia. apply Z.mod_pos_bound. lia.
  - intros H. assert (0 <= v < 2 ^ 56) as Hs by lia. clear Hv H. bitwise.
Qed.

Lemma PutVarint_groups n v : needs n v -> sqlite3PutVarint v = groups n v.
Proof.
  intros (Hn & Hv & Hmin). pose proof (pow7_le n ltac:(lia)) as H56.
  assert (0 <= v < 2 ^ 64) as H64 by (change (2 ^ 64) with (2 ^ 56 * 256); lia).
  unfold sqlite3PutVarint, groups.
  destruct (decide (n = 1%nat)) as [-> | H1].
  { assert (0 <= v < 2 ^ 7) as Hv7 by (simpl in Hv |- *; lia). replace (v <=? 0x7f) with true by lia.
    change (1 - 1)%nat with 0%nat. cbn [seq rev map app]. f_equal. unfold group. rewrite Z.shiftr_0_r. clear Hv H64. bitwise. }
  destruct Hmin as [? | Hmin]; [done |].
  destruct (decide (n = 2%nat)) as [-> | H2].
  { simpl in Hmin. assert (0 <= v < 2 ^ 14) as Hv14 by (simpl in Hv |- *; lia).
    replace (v <=? 0x7f) with false by lia. replace (v <=? 0x3fff) with true by lia.
    change (2 - 1)%nat with 1%nat. cbn [seq rev map app]. unfold group. change (7 * Z.of_nat 1) with 7. f_equal.
    f_equal. rewrite Z.shiftr_0_r. clear Hv H64. bitwise. }
  assert (2 ^ 14 <= 2 ^ (7 * (Z.of_nat n - 1))) by (apply Z.pow_le_mono_r; lia).
  replace (v <=? 0x7f) with false by lia. replace (v <=? 0x3fff) with false by lia.
  unfold putVarint64. rewrite mask_zero by done. replace (v <? 2 ^ 56) with true by lia. cbn [negb].
  destruct n as [|n]; [lia |].
  pose proof (put_buf_groups n 10 0 v ltac:(lia) ltac:(lia) ltac:(lia)) as Hbuf.
  rewrite Z.mul_0_r, Z.shiftr_0_r in Hbuf. rewrite Hbuf.
  - cbn [seq map]. change (0 + Z.of_nat 0) with 0. unfold reverse. rewrite rev_append_rev, app_nil_r. cbn [rev].
    f_equal. replace (S n - 1)%nat with n by lia. rewrite <-map_rev. done.
  - left. replace (0 + Z.of_nat n) with (Z.of_nat (S n) - 1) by lia.
    replace (Z.of_nat (S n) - 1 + 1) with (Z.of_nat (S n)) by lia. lia.
Qed.

Lemma length_groups n v : (0 < n)%nat -> length (groups n v) = n.
Proof. intros Hn. unfold groups. rewrite length_app, length_map, length_rev, length_seq. simpl. lia. Qed.

Lemma groups_bytes n v : bytes_ok (groups n v).
Proof.
  unfold groups. apply Forall_app. split.
  - apply Forall_map, Forall_forall. intros j _. apply group_byte.
  - rewrite Forall_singleton. unfold is_byte. change 0x7f with (Z.ones 7). rewrite Z.land_ones by lia.
    pose proof (Z.mod_pos_bound (group v 0) (2 ^ 7) ltac:(lia)). simpl in *. lia.
Qed.

Lemma read_back n v rest :
  needs n v -> read_groups 8 0 (groups n v ++ rest) = Some (Z.of_nat n, v).
Proof.
  intros (Hn & Hv & _). pose proof (pow7_le n ltac:(lia)) as H56.
  assert (0 <= v < 2 ^ 64) as H64 by (change (2 ^ 64) with (2 ^ 56 * 256); lia).
  unfold groups. rewrite <-app_assoc. cbn [app].
  rewrite <-(read_groups_groups n 8 v rest H64) by lia. f_equal. symmetry.
  apply Z.eqb_eq. rewrite shiftr_zero by lia. lia.
Qed.

Lemma varint_len_needs n fuel i v :
  0 <= v -> 0 <= i -> (n <= fuel)%nat -> i + Z.of_nat n <= 8 ->
  v < 2 ^ (7 * (i + Z.of_nat n)) -> n = O \/ n = 1%nat \/ 2 ^ (7 * (i + Z.of_nat n - 1)) <= v ->
  (0 < n)%nat -> varint_len fuel i (Z.shiftr v (7 * i)) = i + Z.of_nat n.
Proof.
  intros Hv. revert n i. induction fuel as [|fuel IH]; intros n i Hi Hf H8 Hlt Hmin Hn; [lia |].
  cbn [varint_len]. rewrite Z.shiftr_shiftr by lia. replace (7 * i + 7) with (7 * (i + 1)) by lia.
  rewrite shiftr_zero by lia. destruct (decide (n = 1%nat)) as [-> | Hn1].
  - replace (i + Z.of_nat 1) with (i + 1) in * by lia. by replace (v <? 2 ^ (7 * (i + 1))) with true by lia.
  - destruct Hmin as [? | [? | Hmin]]; [lia | lia |].
    assert (2 ^ (7 * (i + 1)) <= 2 ^ (7 * (i + Z.of_nat n - 1))) by (apply Z.pow_le_mono_r; lia).
    replace (v <? 2 ^ (7 * (i + 1))) with false by lia. replace (i + 1 <? 9) with true by lia. cbn [negb andb].
    rewrite (IH (n - 1)%nat (i + 1)); try lia.
    + replace (i + 1 + Z.of_nat (n - 1)) with (i + Z.of_nat n) by lia. done.
    + right. right. by replace (i + 1 + Z.of_nat (n - 1) - 1) with (i + Z.of_nat n - 1) by lia.
Qed.

(** Nine bytes. *)
Lemma PutVarint_nine v rest :
  2 ^ 56 <= v < 2 ^ 64 ->
  let p := sqlite3PutVarint v in
  bytes_ok p /\ length p = 9%nat /\ read_groups 8 0 (p ++ rest) = Some (9, v) /\ sqlite3VarintLen v = 9.
Proof.
  intros Hv p. unfold p, sqlite3PutVarint. replace (v <=? 0x7f) with false by lia.
  replace (v <=? 0x3fff) with false by lia. unfold putVarint64. rewrite mask_zero by lia.
  replace (v <? 2 ^ 56) with false by lia. cbn [negb put_high].
  assert (0 <= v < 2 ^ 64) as H64 by lia.
  assert (forall x, is_byte (wrap 8 x)) as Hb
    by (intros x; unfold is_byte; change 256 with (2 ^ 8); apply wrap_range; lia).
  split_and!; [repeat constructor; apply Hb | done | |].
  - cbn [read_groups app]. rewrite !more_high by (repeat apply shiftr_range; lia || done).
    cbn [mbind option_bind]. do 2 f_equal. bitwise.
  - unfold sqlite3VarintLen. cbn [varint_len]. rewrite !Z.shiftr_shiftr by lia.
    rewrite !shiftr_zero by lia. cbn [Z.add Pos.add Pos.succ Pos.add_carry].
    do 8 match goal with |- context [v <? ?x] => replace (v <? x) with false by (simpl; lia) end.
    by destruct (v <? _).
Qed.

(** ** The 32-bit form *)

Lemma read_groups_bound k acc p n v :
  (k <= 8)%nat -> 0 <= acc < 2 ^ (7 * (8 - Z.of_nat k)) -> bytes_ok p ->
  read_groups k acc p = Some (n, v) -> 1 <= n <= Z.of_nat k + 1 /\ n <= Zlen p /\ 0 <= v < 2 ^ 64.
Proof.
  revert acc p n v. induction k as [|k IH]; intros acc p n v Hk Hacc Hp; (destruct Hp as [|b p Hb Hp]; [done |]);
    cbn [read_groups]; rewrite Zlen_cons; pose proof (Zlen_nonneg p).
  - intros [= <- <-]. split_and!; [lia | lia | lia | | ].
    + apply Z.lor_nonneg. split; [apply Z.shiftl_nonneg; lia | unfold is_byte in Hb; lia].
    + rewrite Z.shiftl_mul_pow2 by lia.
      pose proof (lor_bound (acc * 2 ^ 8) b 64 8 ltac:(lia) ltac:(lia)) as Hl. unfold is_byte in Hb.
      change (2 ^ (7 * (8 - Z.of_nat 0))) with (2 ^ 56) in Hacc. simpl in Hl, Hacc |- *. apply Hl; lia.
  - assert (0 <= Z.lor (Z.shiftl acc 7) (Z.land b 0x7f) < 2 ^ (7 * (8 - Z.of_nat k))) as Hacc'.
    { replace (7 * (8 - Z.of_nat k)) with (7 * (8 - Z.of_nat (S k)) + 7) by lia.
      set (m := 7 * (8 - Z.of_nat (S k))) in *. rewrite Z.shiftl_mul_pow2 by lia.
      assert (0 <= Z.land b 0x7f < 2 ^ 7) as Hb7
        by (change 0x7f with (Z.ones 7); rewrite Z.land_ones by lia; apply Z.mod_pos_bound; lia).
      replace (m + 7) with (Z.max (m + 7) 7) by lia. apply lor_bound; [lia | lia | | done].
      rewrite Z.pow_add_r by lia. lia. }
    destruct (more b) eqn:E.
    + destruct (read_groups k _ p) as [[n' v']|] eqn:Hr; [| done]. cbn [mbind option_bind].
      intros [= <- <-]. destruct (IH _ _ _ _ ltac:(lia) Hacc' Hp Hr) as (? & ? & ?). split_and!; lia.
    + intros [= <- <-].
      apply no_more_small in E; [| done]. rewrite Z.shiftl_mul_pow2 by lia.
      pose proof (lor_bound (acc * 2 ^ 7) b 64 7 ltac:(lia) ltac:(lia)) as Hl.
      assert (2 ^ (7 * (8 - Z.of_nat (S k))) <= 2 ^ 49) by (apply Z.pow_le_mono_r; lia).
      split_and!; [lia | lia | lia | |]; apply Hl; simpl in *; lia.
Qed.

Lemma getVarint32_spec p n v :
  bytes_ok p -> sqlite3GetVarint p = Some (n, v) -> getVarint32 p = Some (n, Z.min v 0xffffffff).
Proof.
  intros Hp Hg. pose proof Hg as Hr. rewrite GetVarint_groups in Hr by done.
  destruct (read_groups_bound 8 0 p n v ltac:(lia) ltac:(simpl; lia) Hp Hr) as (_ & _ & Hv).
  assert (sqlite3GetVarint p = Some (n, v) ->
    match sqlite3GetVarint p with
    | None => None
    | Some (n, v64) => Some (n, if negb (Z.land v64 SQLITE_MAX_U32 =? v64) then 0xffffffff else u32 v64)
    end = Some (n, Z.min v 0xffffffff)) as Hlong.
  { intros ->. do 2 f_equal. unfold SQLITE_MAX_U32. change 0xffffffff with (Z.ones 32) at 1.
    rewrite Z.land_ones by lia. change (v mod 2 ^ 32) with (u32 v).
    destruct (Z.eqb_spec (u32 v) v) as [He | He]; cbn [negb].
    - pose proof (wrap_range 32 ltac:(lia) v). lia.
    - destruct (Z.leb_spec v 0xffffffff); [| lia]. rewrite wrap_small in He by lia. done. }
  specialize (Hlong Hg). unfold getVarint32, sqlite3GetVarint32. cbv zeta.
  destruct Hp as [|p0 p Hb0 Hp]; [done |].
  assert (more p0 = negb (p0 <? 0x80)) as Hm.
  { destruct (Z.ltb_spec p0 0x80) as [Hlt | Hge].
    - apply small_no_more. unfold is_byte in Hb0. lia.
    - destruct (more p0) eqn:E; [done |]. apply no_more_small in E; [| done]. lia. }
  unfold sqlite3GetVarint in Hg. cbv zeta in Hg. rewrite Hm in Hg.
  destruct (p0 <? 0x80) eqn:Hlt; cbn [negb] in Hg.
  { injection Hg as <- <-. unfold is_byte in Hb0. by rewrite Z.min_l by lia. }
  destruct Hp as [|p1 p Hb1 Hp]; [done |].
  destruct (more p1) eqn:E1; cbn [negb] in *.
  2: { injection Hg as <- <-. apply no_more_small in E1; [| done]. do 2 f_equal. symmetry. apply Z.min_l.
       pose proof (lor_bound (u32 (Z.shiftl (Z.land p0 0x7f) 7)) p1 32 7 ltac:(lia) ltac:(lia)
         (wrap_range 32 ltac:(lia) _) ltac:(lia)) as [_ Hl].
       change (2 ^ Z.max 32 7) with 4294967296 in Hl. lia. }
  destruct Hp as [|p2 p Hb2 Hp]; [done |].
  destruct (more (Z.lor (u32 (Z.shiftl p0 14)) p2)); cbn [negb] in *; [exact Hlong |].
  injection Hg as <- <-. do 2 f_equal. change (Z.lor (Z.shiftl 0x7f 14) 0x7f) with SLOT_2_0.
  symmetry. apply Z.min_l.
  assert (0 <= Z.lor (u32 (Z.shiftl p0 14)) p2 < 2 ^ 32) as Hx.
  { apply (lor_bound _ _ 32 8); [lia | lia | apply wrap_range; lia | unfold is_byte in Hb2; simpl; lia]. }
  pose proof (lor_bound (Z.land (Z.lor (u32 (Z.shiftl p0 14)) p2) SLOT_2_0)
    (u32 (Z.shiftl (Z.land p1 0x7f) 7)) 32 32 ltac:(lia) ltac:(lia)) as Hl.
  pose proof (land_bound _ SLOT_2_0 32 32 Hx ltac:(unfold SLOT_2_0; simpl; lia)).
  change (2 ^ Z.max 32 32) with (Z.succ 0xffffffff) in Hl. apply Z.lt_succ_r.
  apply Hl; [done | apply wrap_range; lia].
Qed.

Lemma Put4byte_get v rest :
  0 <= v < 2 ^ 32 -> sqlite3Get4byte (sqlite3Put4byte v ++ rest) = Some v.
Proof.
  intros Hv. unfold sqlite3Get4byte, sqlite3Put4byte. simpl app. cbv beta iota. f_equal. bitwise.
Qed.

(** What both readers find where [v] was written. *)
Lemma PutVarint_read (v : Z) (rest : list Z) :
  0 <= v < 2 ^ 64 -> bytes_ok rest ->
  let p := sqlite3PutVarint v in
  bytes_ok p /\ 1 <= Zlen p <= 9 /\ sqlite3VarintLen v = Zlen p /\
  sqlite3GetVarint (p ++ rest) = Some (Zlen p, v) /\
  getVarint32 (p ++ rest) = Some (Zlen p, Z.min v 0xffffffff) /\
  (v < 2 ^ 32 -> sqlite3Get4byte (sqlite3Put4byte v ++ rest) = Some v).
Proof.
  intros Hv Hrest p.
  assert (bytes_ok p /\ 1 <= Zlen p <= 9 /\ sqlite3VarintLen v = Zlen p /\
          read_groups 8 0 (p ++ rest) = Some (Zlen p, v)) as (H1 & H2 & H3 & H4).
  { destruct (Z.ltb_spec v (2 ^ 56)) as [Hlt | Hge].
    - destruct (needs_some v ltac:(lia)) as [n Hn]. pose proof Hn as (Hn8 & Hvn & Hmin).
      unfold p. rewrite (PutVarint_groups n) by done. unfold Zlen. rewrite length_groups by lia.
      split_and!; [apply groups_bytes | lia | lia | | by apply read_back].
      unfold sqlite3VarintLen. rewrite <-(Z.shiftr_0_r v) at 1.
      apply (varint_len_needs n 9 0 v); try lia.
      + exact (proj2 Hvn).
      + destruct Hmin; [right; by left | right; by right].
    - destruct (PutVarint_nine v rest ltac:(lia)) as (H1 & H2 & H3 & H4).
      unfold Zlen. fold p in H1, H2, H3. rewrite H2. by split_and!. }
  assert (bytes_ok (p ++ rest)) as Hall by by apply Forall_app.
  assert (sqlite3GetVarint (p ++ rest) = Some (Zlen p, v)) as Hg by by rewrite GetVarint_groups.
  split_and!; try done; try lia; [by apply getVarint32_spec | intros Hlt].
  apply Put4byte_get. lia.
Qed.

(** ** Properties *)

(** Writing any unsigned 64-bit integer as a varint takes the one to nine
    bytes that [sqlite3VarintLen] announces, and both readers give it back, the
    32-bit one saturated; what follows the varint does not matter.  The four-byte
    big-endian form gives a 32-bit value back. *)
Theorem PutVarint_roundtrip (v : Z) (rest : list Z) :
  0 <= v < 2 ^ 64 -> bytes_ok rest ->
  let p := sqlite3PutVarint v in
  bytes_ok p /\ 1 <= Zlen p <= 9 /\ sqlite3VarintLen v = Zlen p /\
  sqlite3GetVarint (p ++ rest) = Some (Zlen p, v) /\
  getVarint32 (p ++ rest) = Some (Zlen p, Z.min v 0xffffffff) /\
  (v < 2 ^ 32 -> sqlite3Get4byte (sqlite3Put4byte v ++ rest) = Some v).
Proof. apply PutVarint_read. Qed.

Lemma PutVarint_roundtrip_witness :
  0 <= 300 < 2 ^ 64 /\ bytes_ok [7] /\ sqlite3GetVarint [0x82; 0x2c; 7] = Some (2, 300).
Proof.
  assert (bytes_ok [7]) as H by (unfold bytes_ok; rewrite Forall_singleton; unfold is_byte; lia).
  split; [lia |]. split; [exact H |].
  exact (proj1 (proj2 (proj2 (proj2 (PutVarint_roundtrip 300 [7] ltac:(lia) H))))).
Defined.

(** On any bytes the unrolled reader computes seven bits per byte while the
    high bit is set and eight bits of the ninth byte; it uses one to nine bytes,
    never more than there are when it answers, and its value fits 64 bits; the
    32-bit reader uses the same bytes and saturates the value. *)
Theorem GetVarint_spec (p : list Z) :
  bytes_ok p ->
  sqlite3GetVarint p = read_groups 8 0 p /\
  forall n v, sqlite3GetVarint p = Some (n, v) ->
    1 <= n <= 9 /\ n <= Zlen p /\ 0 <= v < 2 ^ 64 /\ getVarint32 p = Some (n, Z.min v 0xffffffff).
Proof.
  intros Hp. split; [by apply GetVarint_groups |]. intros n v Hg.
  pose proof Hg as Hr. rewrite GetVarint_groups in Hr by done.
  destruct (read_groups_bound 8 0 p n v ltac:(lia) ltac:(simpl; lia) Hp Hr) as (H1 & H2 & H3).
  split_and!; try lia. by apply getVarint32_spec.
Qed.

Lemma GetVarint_spec_witness :
  bytes_ok (replicate 9 255) /\ getVarint32 (replicate 9 255) = Some (9, 0xffffffff).
Proof.
  assert (bytes_ok (replicate 9 255)) as H by (apply Forall_replicate; unfold is_byte; lia).
  split; [exact H |].
  destruct (proj2 (GetVarint_spec (replicate 9 255) H) 9 (2 ^ 64 - 1)) as (_ & _ & _ & Hg);
    [by vm_compute | exact Hg].
Defined.
