(* ===== verification/SqText.v ===== *)
(** SQLite's character tables, case-insensitive comparison and identifier
    quoting ([src/src/cache/sqlite3.c], parts global.c and util.c). *)

From S2P Require Import Prelude.

#[local] Open Scope Z_scope.

(** ** Character tables *)

Definition sqlite3UpperToLower : list Z :=
  [0; 1; 2; 3; 4; 5; 6; 7; 8; 9; 10; 11; 12; 13; 14; 15;
   16; 17; 18; 19; 20; 21; 22; 23; 24; 25; 26; 27; 28; 29; 30; 31;
   32; 33; 34; 35; 36; 37; 38; 39; 40; 41; 42; 43; 44; 45; 46; 47;
   48; 49; 50; 51; 52; 53; 54; 55; 56; 57; 58; 59; 60; 61; 62; 63;
   64; 97; 98; 99; 100; 101; 102; 103; 104; 105; 106; 107; 108; 109; 110; 111;
   112; 113; 114; 115; 116; 117; 118; 119; 120; 121; 122; 91; 92; 93; 94; 95;
   96; 97; 98; 99; 100; 101; 102; 103; 104; 105; 106; 107; 108; 109; 110; 111;
   112; 113; 114; 115; 116; 117; 118; 119; 120; 121; 122; 123; 124; 125; 126; 127;
   128; 129; 130; 131; 132; 133; 134; 135; 136; 137; 138; 139; 140; 141; 142; 143;
   144; 145; 146; 147; 148; 149; 150; 151; 152; 153; 154; 155; 156; 157; 158; 159;
   160; 161; 162; 163; 164; 165; 166; 167; 168; 169; 170; 171; 172; 173; 174; 175;
   176; 177; 178; 179; 180; 181; 182; 183; 184; 185; 186; 187; 188; 189; 190; 191;
   192; 193; 194; 195; 196; 197; 198; 199; 200; 201; 202; 203; 204; 205; 206; 207;
   208; 209; 210; 211; 212; 213; 214; 215; 216; 217; 218; 219; 220; 221; 222; 223;
   224; 225; 226; 227; 228; 229; 230; 231; 232; 233; 234; 235; 236; 237; 238; 239;
   240; 241; 242; 243; 244; 245; 246; 247; 248; 249; 250; 251; 252; 253; 254; 255].

Definition sqlite3CtypeMap : list Z :=
  [0; 0; 0; 0; 0; 0; 0; 0; 0; 1; 1; 1; 1; 1; 0; 0;
   0; 0; 0; 0; 0; 0; 0; 0; 0; 0; 0; 0; 0; 0; 0; 0;
   1; 0; 0; 0; 64; 0; 0; 0; 0; 0; 0; 0; 0; 0; 0; 0;
   12; 12; 12; 12; 12; 12; 12; 12; 12; 12; 0; 0; 0; 0; 0; 0;
   0; 10; 10; 10; 10; 10; 10; 2; 2; 2; 2; 2; 2; 2; 2; 2;
   2; 2; 2; 2; 2; 2; 2; 2; 2; 2; 2; 0; 0; 0; 0; 64;
   0; 42; 42; 42; 42; 42; 42; 34; 34; 34; 34; 34; 34; 34; 34; 34;
   34; 34; 34; 34; 34; 34; 34; 34; 34; 34; 34; 0; 0; 0; 0; 0;
   64; 64; 64; 64; 64; 64; 64; 64; 64; 64; 64; 64; 64; 64; 64; 64;
   64; 64; 64; 64; 64; 64; 64; 64; 64; 64; 64; 64; 64; 64; 64; 64;
   64; 64; 64; 64; 64; 64; 64; 64; 64; 64; 64; 64; 64; 64; 64; 64;
   64; 64; 64; 64; 64; 64; 64; 64; 64; 64; 64; 64; 64; 64; 64; 64;
   64; 64; 64; 64; 64; 64; 64; 64; 64; 64; 64; 64; 64; 64; 64; 64;
   64; 64; 64; 64; 64; 64; 64; 64; 64; 64; 64; 64; 64; 64; 64; 64;
   64; 64; 64; 64; 64; 64; 64; 64; 64; 64; 64; 64; 64; 64; 64; 64;
   64; 64; 64; 64; 64; 64; 64; 64; 64; 64; 64; 64; 64; 64; 64; 64].

Definition UpperToLower (x : Z) : Z := Znth sqlite3UpperToLower x.
Definition CtypeMap (x : Z) : Z := Znth sqlite3CtypeMap x.

Definition sqlite3Isspace (x : Z) : bool := negb (Z.land (CtypeMap x) 0x01 =? 0).
Definition sqlite3Isalnum (x : Z) : bool := negb (Z.land (CtypeMap x) 0x06 =? 0).
Definition sqlite3Isalpha (x : Z) : bool := negb (Z.land (CtypeMap x) 0x02 =? 0).
Definition sqlite3Isdigit (x : Z) : bool := negb (Z.land (CtypeMap x) 0x04 =? 0).
Definition sqlite3Isxdigit (x : Z) : bool := negb (Z.land (CtypeMap x) 0x08 =? 0).
Definition IdChar (x : Z) : bool := negb (Z.land (CtypeMap x) 0x46 =? 0).

(** ** Comparison

    A zero-terminated string is the list of the bytes before its terminator,
    which are not zero; [hd 0] reads the terminator. *)

Fixpoint icmp_loop (a b : list Z) : Z :=
  match a with
  | x :: a' =>
      if UpperToLower x =? UpperToLower (hd 0 b) then icmp_loop a' (tl b)
      else UpperToLower x - UpperToLower (hd 0 b)
  | [] => UpperToLower 0 - UpperToLower (hd 0 b)
  end.

Definition sqlite3_stricmp (zLeft zRight : option (list Z)) : Z :=
  match zLeft, zRight with
  | None, None => 0
  | None, Some _ => -1
  | Some _, None => 1
  | Some a, Some b => icmp_loop a b
  end.

(** [while( N-- > 0 && ... )] and the answer, which is 0 when [N] ran out. *)
Fixpoint nicmp_loop (a b : list Z) (N : nat) : Z :=
  match N with
  | O => 0
  | S N =>
      match a with
      | x :: a' =>
          if UpperToLower x =? UpperToLower (hd 0 b) then nicmp_loop a' (tl b) N
          else UpperToLower x - UpperToLower (hd 0 b)
      | [] => UpperToLower 0 - UpperToLower (hd 0 b)
      end
  end.

Definition sqlite3_strnicmp (zLeft zRight : option (list Z)) (N : Z) : Z :=
  match zLeft, zRight with
  | None, None => 0
  | None, Some _ => -1
  | Some _, None => 1
  | Some a, Some b => nicmp_loop a b (Z.to_nat N)
  end.

(** ** Identifier quoting

    [z] is the array that holds the string, rewritten in place; [None] when the
    loop runs past its end. *)

Fixpoint dequote_loop (fuel : nat) (quote : Z) (z : list Z) (i j : nat) : option (list Z * Z) :=
  match fuel with
  | O => None
  | S fuel =>
      match z !! i with
      | None => None
      | Some c =>
          if c =? quote then
            match z !! S i with
            | None => None
            | Some d =>
                if d =? quote then dequote_loop fuel quote (<[j := quote]> z) (S (S i)) (S j)
                else Some (<[j := 0]> z, Z.of_nat j)
            end
          else dequote_loop fuel quote (<[j := c]> z) (S i) (S j)
      end
  end.

Definition sqlite3Dequote (z : list Z) : option (list Z * Z) :=
  match z with
  | [] => None
  | q :: _ =>
      if (q =? 39) || (q =? 34) || (q =? 96) then dequote_loop (length z) q z 1 0
      else if q =? 91 then dequote_loop (length z) 93 z 1 0
      else Some (z, -1)
  end.

(** ** The tables *)

(** A byte property is decided by looking at the 256 bytes. *)
Lemma byte_forall (P : Z -> bool) :
  forallb (fun n => P (Z.of_nat n)) (seq 0 256) = true -> forall x, 0 <= x < 256 -> P x = true.
Proof.
  rewrite forallb_forall. intros H x Hx. specialize (H (Z.to_nat x)).
  rewrite Z2Nat.id in H by lia. apply H, in_seq. lia.
Qed.

Lemma UpperToLower_spec x : 0 <= x < 256 ->
  UpperToLower x = if (65 <=? x) && (x <=? 90) then x + 32 else x.
Proof.
  intros Hx. apply Z.eqb_eq.
  exact (byte_forall
           (fun x => UpperToLower x =? if (65 <=? x) && (x <=? 90) then x + 32 else x)
           ltac:(vm_compute; reflexivity) x Hx).
Qed.

Lemma UpperToLower_range x : 0 <= x < 256 -> 0 <= UpperToLower x < 256.
Proof. intros Hx. rewrite UpperToLower_spec by done. repeat case_if; lia. Qed.

Lemma UpperToLower_zero x : 0 <= x < 256 -> UpperToLower x = 0 <-> x = 0.
Proof. intros Hx. rewrite UpperToLower_spec by done. repeat case_if; lia. Qed.

(** The bytes of a C string. *)
Definition cstring (s : list Z) : Prop := Forall (fun x => 0 < x < 256) s.

#[export] Instance cstring_dec s : Decision (cstring s).
Proof. unfold cstring. apply _. Defined.

(** The case-folded string: what identifiers are compared by. *)
Definition fold_case (s : list Z) : list Z := UpperToLower <$> s.

Lemma icmp_loop_zero a b : cstring a -> cstring b ->
  icmp_loop a b = 0 <-> fold_case a = fold_case b.
Proof.
  intros Ha. revert b. induction Ha as [|x a Hx Ha IH]; intros b Hb.
  - destruct b as [|y b]; [done |]. apply Forall_cons in Hb as [Hy _]. simpl.
    pose proof (UpperToLower_zero y ltac:(lia)). change (UpperToLower 0) with 0.
    split; [lia | done].
  - destruct b as [|y b]; simpl.
    + change (UpperToLower 0) with 0. pose proof (UpperToLower_zero x ltac:(lia)).
      destruct (Z.eqb_spec (UpperToLower x) 0); [lia |]. split; [lia | done].
    + apply Forall_cons in Hb as [_ Hb].
      destruct (Z.eqb_spec (UpperToLower x) (UpperToLower y)) as [E | E].
      * rewrite (IH b Hb), E. split; [by intros <- | by intros [= ->]].
      * split; [lia | by intros [= ? _]].
Qed.

Lemma stricmp_zero a b : cstring a -> cstring b ->
  sqlite3_stricmp (Some a) (Some b) = 0 <-> fold_case a = fold_case b.
Proof. apply icmp_loop_zero. Qed.

Lemma nicmp_loop_zero n a b : cstring a -> cstring b ->
  nicmp_loop a b n = 0 <-> fold_case (take n a) = fold_case (take n b).
Proof.
  intros Ha. revert n b. induction Ha as [|x a Hx Ha IH]; intros [|n] b Hb; try done.
  - destruct b as [|y b]; [done |]. apply Forall_cons in Hb as [Hy _]. simpl.
    pose proof (UpperToLower_zero y ltac:(lia)). change (UpperToLower 0) with 0.
    split; [lia | done].
  - destruct b as [|y b]; simpl.
    + change (UpperToLower 0) with 0. pose proof (UpperToLower_zero x ltac:(lia)).
      destruct (Z.eqb_spec (UpperToLower x) 0); [lia |]. split; [lia | done].
    + apply Forall_cons in Hb as [_ Hb].
      destruct (Z.eqb_spec (UpperToLower x) (UpperToLower y)) as [E | E].
      * rewrite (IH n b Hb), E. split; [by intros <- | by intros [= ->]].
      * split; [lia | by intros [= ? _]].
Qed.

(** ** Quoting *)

Definition double_quote (q : Z) (s : list Z) : list Z :=
  s ≫= (fun c => if c =? q then [q; q] else [c]).

(** The closing quote of an opening one. *)
Definition closing (q : Z) : Z := if q =? 91 then 93 else q.

Definition quoted (q : Z) (s : list Z) : list Z :=
  q :: double_quote (closing q) s ++ [closing q].

Definition is_quote (q : Z) : Prop := q ∈ [39; 34; 96; 91].

(** The loop when the part before [i] is rewritten and [s] is still to come. *)
Lemma dequote_loop_ok q s : forall done mid rest fuel,
  (length (double_quote q s) < fuel)%nat ->
  mid <> [] -> hd_error rest <> Some q -> rest <> [] ->
  exists tail,
    dequote_loop fuel q (done ++ mid ++ double_quote q s ++ q :: rest)
      (length done + length mid) (length done) =
      Some (done ++ s ++ 0 :: tail, Z.of_nat (length done + length s)).
Proof.
  assert (Hins : forall (d : list Z) m r c, <[length d := c]> (d ++ m :: r) = (d ++ [c]) ++ r).
  { intros d m r c. rewrite insert_app_r_alt, Nat.sub_diag by lia. simpl. by rewrite <- app_assoc. }
  induction s as [|c s IH]; intros d mid rest fuel Hf Hm Hr Hn; destruct fuel as [|fuel]; try lia.
  - destruct mid as [|m mid]; [done |]. destruct rest as [|r rest]; [done |]. simpl dequote_loop.
    assert (forall k, (d ++ (m :: mid) ++ double_quote q [] ++ q :: r :: rest)
              !! (length d + length (m :: mid) + k)%nat = (q :: r :: rest) !! k) as Hl.
    { intros k. rewrite lookup_app_r, lookup_app_r by lia. simpl app. f_equal. lia. }
    pose proof (Hl 0%nat) as H0. pose proof (Hl 1%nat) as H1.
    rewrite Nat.add_0_r in H0. rewrite Nat.add_1_r in H1. simpl in H0, H1 |- *.
    rewrite H0, Z.eqb_refl, H1.
    destruct (Z.eqb_spec r q) as [-> | Hrq]; [done |].
    rewrite Hins, <- app_assoc, Nat.add_0_r. by eexists.
  - destruct mid as [|m mid]; [done |].
    assert (forall l k, (d ++ (m :: mid) ++ l) !! (length d + length (m :: mid) + k)%nat = l !! k)
      as Hl.
    { intros l k. rewrite lookup_app_r, lookup_app_r by lia. f_equal. lia. }
    change (double_quote q (c :: s)) with ((if c =? q then [q; q] else [c]) ++ double_quote q s) in *.
    rewrite length_app in Hf.
    simpl dequote_loop. destruct (Z.eqb_spec c q) as [-> | Hc].
    + pose proof (Hl ([q; q] ++ double_quote q s ++ q :: rest) 0%nat) as H0.
      pose proof (Hl ([q; q] ++ double_quote q s ++ q :: rest) 1%nat) as H1.
      rewrite Nat.add_0_r in H0. rewrite Nat.add_1_r in H1. simpl in H0, H1, Hf |- *.
      rewrite H0, Z.eqb_refl, H1, Z.eqb_refl, Hins.
      destruct (IH (d ++ [q]) (mid ++ [q; q]) rest fuel ltac:(lia) ltac:(by destruct mid) Hr Hn)
        as [tail Ht].
      exists tail. rewrite <- !app_assoc in Ht. simpl in Ht. rewrite <- !app_assoc. simpl.
      rewrite !length_app in Ht. simpl in Ht.
      replace (S (S (length d + S (length mid))))%nat
        with (length d + 1 + (length mid + 2))%nat by lia.
      replace (S (length d)) with (length d + 1)%nat by lia. rewrite Ht. do 3 f_equal. lia.
    + pose proof (Hl ([c] ++ double_quote q s ++ q :: rest) 0%nat) as H0.
      rewrite Nat.add_0_r in H0. simpl in H0, Hf |- *.
      rewrite H0. destruct (Z.eqb_spec c q) as [|_]; [done |]. rewrite Hins.
      destruct (IH (d ++ [c]) (mid ++ [c]) rest fuel ltac:(lia) ltac:(by destruct mid) Hr Hn)
        as [tail Ht].
      exists tail. rewrite <- !app_assoc in Ht. simpl in Ht. rewrite <- !app_assoc. simpl.
      rewrite !length_app in Ht. simpl in Ht.
      replace (S (length d + S (length mid)))%nat
        with (length d + 1 + (length mid + 1))%nat by lia.
      replace (S (length d)) with (length d + 1)%nat by lia. rewrite Ht. do 3 f_equal. lia.
Qed.

(** Dequoting inverts quoting.  For each of the four quote characters, a
    string of which the closing quotes are doubled and which is put between
    quotes is rewritten in place to the string, ended by a zero, and its length
    is returned; what follows the closing quote does not matter as long as it
    is not another one.  A string that starts with no quote is left alone. *)
Theorem Dequote_spec (z : list Z) (Hz : z <> []) :
  (forall q s rest, is_quote q -> z = quoted q s ++ rest ->
     rest <> [] -> hd_error rest <> Some (closing q) ->
     exists tail, sqlite3Dequote z = Some (s ++ 0 :: tail, Zlen s)) /\
  (~ is_quote (hd 0 z) -> sqlite3Dequote z = Some (z, -1)).
Proof.
  split.
  - intros q s rest Hq -> Hn Hr.
    destruct (dequote_loop_ok (closing q) s [] [q] rest (length (quoted q s ++ rest)))
      as [tail Ht]; try done.
    { unfold quoted. rewrite length_app. simpl. rewrite length_app. lia. }
    exists tail. unfold Zlen. simpl in Ht. unfold quoted in *. simpl app in *.
    rewrite <- app_assoc in *. simpl app in *.
    unfold is_quote in Hq. rewrite !elem_of_cons, elem_of_nil in Hq.
    destruct Hq as [-> | [-> | [-> | [-> | []]]]]; exact Ht.
  - destruct z as [|q z]; [done |]. simpl. unfold is_quote.
    rewrite !elem_of_cons, elem_of_nil. intros Hq.
    repeat case_if; [| | done].
    + exfalso. apply Hq. rewrite !orb_true_iff, !Z.eqb_eq in E. tauto.
    + exfalso. apply Hq. tauto.
Qed.

Lemma Dequote_spec_witness :
  quoted 34 [97; 34; 98] = [34; 97; 34; 34; 98; 34] /\
  (exists tail, sqlite3Dequote [34; 97; 34; 34; 98; 34; 0] = Some ([97; 34; 98] ++ 0 :: tail, 3)) /\
  sqlite3Dequote [97; 0] = Some ([97; 0], -1).
Proof.
  split; [reflexivity |]. split.
  - apply (proj1 (Dequote_spec [34; 97; 34; 34; 98; 34; 0] ltac:(discriminate)) 34 [97; 34; 98] [0]);
      [right; left | reflexivity | discriminate | discriminate].
  - apply (proj2 (Dequote_spec [97; 0] ltac:(discriminate))). vm_compute. 
    intros H. repeat (apply elem_of_cons in H as [H | H]; [discriminate |]). by apply elem_of_nil in H.
Defined.
