(* ===== verification/SqHash.v ===== *)
(** SQLite's hash table ([src/src/cache/sqlite3.c], part hash.c): the heap of
    its elements, the global doubly-linked list, the buckets and every operation,
    refined to a finite map keyed by case-folded strings. *)

From S2P Require Import Prelude SqText.

#[local] Open Scope Z_scope.

(** ** Data

    Pointers to elements are positive numbers, [None] is the null pointer; the
    [void *data] of an element is an integer, 0 when it is null. *)

Record HashElem := mkHashElem {
  next : option positive;
  prev : option positive;
  data : Z;
  pKey : list Z;
}.

Record _ht := mk_ht { bucket_count : Z; chain : option positive }.

Record Hash := mkHash {
  htsize : Z;
  count : Z;
  first : option positive;
  ht : option (list _ht);
}.

Record state := mkState { mem : gmap positive HashElem; pH : Hash }.

Definition set_next (n : option positive) (e : HashElem) : HashElem :=
  mkHashElem n (prev e) (data e) (pKey e).
Definition set_prev (p : option positive) (e : HashElem) : HashElem :=
  mkHashElem (next e) p (data e) (pKey e).
Definition set_first (f : option positive) (s : state) : state :=
  mkState (mem s) (mkHash (htsize (pH s)) (count (pH s)) f (ht (pH s))).
Definition set_ht (t : option (list _ht)) (s : state) : state :=
  mkState (mem s) (mkHash (htsize (pH s)) (count (pH s)) (first (pH s)) t).
Definition set_count (c : Z) (s : state) : state :=
  mkState (mem s) (mkHash (htsize (pH s)) c (first (pH s)) (ht (pH s))).

(** A write through a pointer; [None] when it does not point to an element. *)
Definition write (a : positive) (f : HashElem -> HashElem) (s : state) : option state :=
  e ← mem s !! a; Some (mkState (<[a := f e]> (mem s)) (pH s)).

(** ** Operations *)

Definition sqlite3HashInit : Hash := mkHash 0 0 None None.

(** [while( elem )]: frees the elements; [fuel] bounds the length of the list. *)
Fixpoint clear_loop (fuel : nat) (m : gmap positive HashElem) (elem : option positive) :
    option (gmap positive HashElem) :=
  match elem with
  | None => Some m
  | Some a =>
      match fuel with
      | O => None
      | S fuel => e ← m !! a; clear_loop fuel (delete a m) (next e)
      end
  end.

Definition sqlite3HashClear (s : state) : option state :=
  m ← clear_loop (size (mem s)) (mem s) (first (pH s));
  Some (mkState m (mkHash 0 0 None None)).

Fixpoint strHash_loop (h : Z) (z : list Z) : Z :=
  match z with
  | [] => h
  | c :: z => strHash_loop (Z.lxor (Z.lxor (u32 (Z.shiftl h 3)) h) (UpperToLower c)) z
  end.

Definition strHash (z : list Z) : Z := strHash_loop 0 z.

(** The second half of [insertElement]: the element goes before [pHead], or to
    the front of the list. *)
Definition link_element (s : state) (pHead : option positive) (pNew : positive) : option state :=
  match pHead with
  | Some a =>
      eh ← mem s !! a;
      s ← write pNew (fun e => set_prev (prev eh) (set_next (Some a) e)) s;
      s ← match prev eh with
          | Some p => write p (set_next (Some pNew)) s
          | None => Some (set_first (Some pNew) s)
          end;
      write a (set_prev (Some pNew)) s
  | None =>
      s ← write pNew (set_next (first (pH s))) s;
      s ← match first (pH s) with
          | Some a => write a (set_prev (Some pNew)) s
          | None => Some s
          end;
      s ← write pNew (set_prev None) s;
      Some (set_first (Some pNew) s)
  end.

Definition insertElement (s : state) (pEntry : option nat) (pNew : positive) : option state :=
  match pEntry with
  | None => link_element s None pNew
  | Some h =>
      bs ← ht (pH s);
      e ← bs !! h;
      link_element (set_ht (Some (<[h := mk_ht (bucket_count e + 1) (Some pNew)]> bs)) s)
        (if bucket_count e =? 0 then None else chain e) pNew
  end.

Definition SQLITE_MALLOC_SOFT_LIMIT : Z := 1024.
Definition sizeof_ht : Z := 16.

Definition bucket_of (key : list Z) (size : Z) : nat := Z.to_nat (strHash key mod size).

(** [for(elem=pH->first, pH->first=0; elem; elem = next_elem)] *)
Fixpoint rehash_loop (fuel : nat) (s : state) (new_size : Z) (elem : option positive) :
    option state :=
  match elem with
  | None => Some s
  | Some a =>
      match fuel with
      | O => None
      | S fuel =>
          e ← mem s !! a;
          s ← insertElement s (Some (bucket_of (pKey e) new_size)) a;
          rehash_loop fuel s new_size (next e)
      end
  end.

Section Allocator.
  (** The allocator: the address of a new element, and how many bytes an
      allocation of [n] bytes really has. *)
  Context (Malloc : gset positive -> positive) (MallocSize : Z -> Z).

(** [alloc] tells whether the allocation of the buckets succeeds. *)
Definition rehash (s : state) (new_size : Z) (alloc : bool) : option (bool * state) :=
  let new_size := if SQLITE_MALLOC_SOFT_LIMIT <? new_size * sizeof_ht
                  then SQLITE_MALLOC_SOFT_LIMIT / sizeof_ht else new_size in
  if new_size =? htsize (pH s) then Some (false, s)
  else if negb alloc then Some (false, s)
  else
    let n := MallocSize (new_size * sizeof_ht) / sizeof_ht in
    let s' := mkState (mem s) (mkHash n (count (pH s)) None
                                 (Some (replicate (Z.to_nat n) (mk_ht 0 None)))) in
    s' ← rehash_loop (size (mem s)) s' n (first (pH s));
    Some (true, s').

(** [while( count-- )]: the element found, if any. *)
Fixpoint find_loop (m : gmap positive HashElem) (key : list Z) (n : nat)
    (elem : option positive) : option (option positive) :=
  match n with
  | O => Some None
  | S n =>
      a ← elem;
      e ← m !! a;
      if sqlite3_stricmp (Some (pKey e)) (Some key) =? 0 then Some (Some a)
      else find_loop m key n (next e)
  end.

Definition findElementWithHash (s : state) (key : list Z) : option (option positive * nat) :=
  match ht (pH s) with
  | Some bs =>
      let h := bucket_of key (htsize (pH s)) in
      e ← bs !! h;
      r ← find_loop (mem s) key (Z.to_nat (bucket_count e)) (chain e);
      Some (r, h)
  | None =>
      r ← find_loop (mem s) key (Z.to_nat (count (pH s))) (first (pH s));
      Some (r, 0%nat)
  end.

(** The first half of [removeElementGivenHash]: the neighbours and [first] skip
    the element. *)
Definition unlink_element (s : state) (e : HashElem) : option state :=
  s ← match prev e with
      | Some p => write p (set_next (next e)) s
      | None => Some (set_first (next e) s)
      end;
  match next e with
  | Some n => write n (set_prev (prev e)) s
  | None => Some s
  end.

Definition removeElementGivenHash (s : state) (elem : positive) (h : nat) : option state :=
  e ← mem s !! elem;
  s ← unlink_element s e;
  s ← match ht (pH s) with
      | Some bs =>
          b ← bs !! h;
          let c := if decide (chain b = Some elem) then next e else chain b in
          Some (set_ht (Some (<[h := mk_ht (bucket_count b - 1) c]> bs)) s)
      | None => Some s
      end;
  let s := set_count (u32 (count (pH s) - 1)) (mkState (delete elem (mem s)) (pH s)) in
  if count (pH s) =? 0 then sqlite3HashClear s else Some s.

Definition sqlite3HashFind (s : state) (key : list Z) : option Z :=
  '(elem, _) ← findElementWithHash s key;
  match elem with
  | Some a => e ← mem s !! a; Some (data e)
  | None => Some 0
  end.

(** [elem_alloc] and [ht_alloc] tell whether the two allocations succeed. *)
Definition sqlite3HashInsert (s : state) (key : list Z) (d : Z) (elem_alloc ht_alloc : bool) :
    option (Z * state) :=
  '(elem, h) ← findElementWithHash s key;
  match elem with
  | Some a =>
      e ← mem s !! a;
      let old_data := data e in
      if d =? 0 then s ← removeElementGivenHash s a h; Some (old_data, s)
      else s ← write a (fun e => mkHashElem (next e) (prev e) d key) s; Some (old_data, s)
  | None =>
      if d =? 0 then Some (0, s)
      else if negb elem_alloc then Some (d, s)
      else
        let a := Malloc (dom (mem s)) in
        let s := mkState (<[a := mkHashElem None None d key]> (mem s)) (pH s) in
        let s := set_count (u32 (count (pH s) + 1)) s in
        '(h, s) ←
          (if (10 <=? count (pH s)) && (u32 (2 * htsize (pH s)) <? count (pH s)) then
             '(done, s) ← rehash s (u32 (count (pH s) * 2)) ht_alloc;
             Some (if done : bool then bucket_of key (htsize (pH s)) else h, s)
           else Some (h, s));
        s ← insertElement s (if ht (pH s) is Some _ then Some h else None) a;
        Some (0, s)
  end.

End Allocator.

(** ** The list on the heap

    An entry is an address, a key and a datum; [seg m p l n] says that the heap
    holds the entries of [l], linked in both directions, with [p] before and [n]
    after them. *)

Abbreviation entry := (positive * (list Z * Z))%type (only parsing).

Definition hdn (l : list entry) (n : option positive) : option positive :=
  match l with [] => n | x :: _ => Some x.1 end.

Fixpoint lastp (p : option positive) (l : list entry) : option positive :=
  match l with [] => p | x :: l => lastp (Some x.1) l end.

Fixpoint addrs (l : list entry) : list positive :=
  match l with [] => [] | x :: l => x.1 :: addrs l end.

Fixpoint seg (m : gmap positive HashElem) (p : option positive) (l : list entry)
    (n : option positive) : Prop :=
  match l with
  | [] => True
  | x :: l => m !! x.1 = Some (mkHashElem (hdn l n) p x.2.2 x.2.1) /\ seg m (Some x.1) l n
  end.

Lemma addrs_app l1 l2 : addrs (l1 ++ l2) = addrs l1 ++ addrs l2.
Proof. induction l1 as [|x l1 IH]; simpl; [done | by rewrite IH]. Qed.

Lemma addrs_fmap l : addrs l = l.*1.
Proof. induction l as [|x l IH]; simpl; [done | by rewrite IH]. Qed.

Lemma addrs_in a l : a ∈ addrs l <-> exists x, a = x.1 /\ x ∈ l.
Proof. rewrite addrs_fmap. apply list_elem_of_fmap. Qed.

Lemma hdn_app l1 l2 n : hdn (l1 ++ l2) n = hdn l1 (hdn l2 n).
Proof. by destruct l1. Qed.

Lemma lastp_snoc p l x : lastp p (l ++ [x]) = Some x.1.
Proof. revert p. induction l as [|y l IH]; intros p; [done | apply IH]. Qed.

Lemma seg_app m p l1 l2 n :
  seg m p (l1 ++ l2) n <-> seg m p l1 (hdn l2 n) /\ seg m (lastp p l1) l2 n.
Proof.
  revert p. induction l1 as [|x l1 IH]; intros p; simpl; [tauto |].
  rewrite IH, hdn_app. tauto.
Qed.

Lemma seg_frame m m' p l n :
  (forall a, a ∈ addrs l -> m' !! a = m !! a) -> seg m p l n -> seg m' p l n.
Proof.
  revert p. induction l as [|x l IH]; intros p Hm; simpl; [done |].
  intros [Hx Hl]. split.
  - rewrite Hm; [done | apply list_elem_of_here].
  - apply IH; [| done]. intros a Ha. apply Hm. by right.
Qed.

Lemma seg_insert m p l n a e : a ∉ addrs l -> seg m p l n -> seg (<[a := e]> m) p l n.
Proof.
  intros Ha. apply seg_frame. intros b Hb. apply lookup_insert_ne. by intros ->.
Qed.

Lemma seg_delete m p l n a : a ∉ addrs l -> seg m p l n -> seg (delete a m) p l n.
Proof.
  intros Ha. apply seg_frame. intros b Hb. apply lookup_delete_ne. by intros ->.
Qed.

Lemma seg_lookup m p l1 x l2 n : seg m p (l1 ++ x :: l2) n ->
  m !! x.1 = Some (mkHashElem (hdn l2 n) (lastp p l1) x.2.2 x.2.1).
Proof. rewrite seg_app. simpl. tauto. Qed.

Lemma seg_in m p l n a : seg m p l n -> a ∈ addrs l -> is_Some (m !! a).
Proof.
  intros Hs (x & -> & (l1 & l2 & ->)%list_elem_of_split)%list_elem_of_fmap.
  by erewrite seg_lookup.
Qed.

(** Writing the [prev] of the first entry and the [next] of the last one. *)
Lemma seg_set_prev s p q x l n : seg (mem s) p (x :: l) n -> x.1 ∉ addrs l ->
  exists e, write x.1 (set_prev q) s = Some (mkState (<[x.1 := e]> (mem s)) (pH s)) /\
            seg (<[x.1 := e]> (mem s)) q (x :: l) n.
Proof.
  intros [Hx Hl] Hn. eexists. unfold write. rewrite Hx. simpl. split; [done |].
  rewrite lookup_insert_eq. split; [done |]. by apply seg_insert.
Qed.

Lemma seg_set_next s p l x n n' : seg (mem s) p (l ++ [x]) n -> x.1 ∉ addrs l ->
  exists e, write x.1 (set_next n') s = Some (mkState (<[x.1 := e]> (mem s)) (pH s)) /\
            seg (<[x.1 := e]> (mem s)) p (l ++ [x]) n'.
Proof.
  rewrite seg_app. simpl. intros (Hl & Hx & _) Hn. eexists. unfold write. rewrite Hx. simpl.
  split; [done |]. rewrite seg_app. simpl. rewrite lookup_insert_eq.
  split; [| done]. by apply seg_insert.
Qed.

(** [m'] differs from [m] only in the elements at the addresses [X]. *)
Definition agree (X : list positive) (m m' : gmap positive HashElem) : Prop :=
  (forall b, b ∉ X -> m' !! b = m !! b) /\ dom m' = dom m.

Lemma agree_refl X m : agree X m m.
Proof. done. Qed.

Lemma agree_trans X m1 m2 m3 : agree X m1 m2 -> agree X m2 m3 -> agree X m1 m3.
Proof.
  intros [H1 D1] [H2 D2]. split; [| congruence]. intros b Hb. by rewrite H2, H1.
Qed.

Lemma agree_insert X m a e : a ∈ X -> is_Some (m !! a) -> agree X m (<[a := e]> m).
Proof.
  intros Ha He. split.
  - intros b Hb. apply lookup_insert_ne. by intros ->.
  - rewrite dom_insert_L. apply elem_of_dom in He. set_solver.
Qed.

#[local] Arguments write : simpl never.

Lemma write_at s a f e :
  mem s !! a = Some e -> write a f s = Some (mkState (<[a := f e]> (mem s)) (pH s)).
Proof. intros He. unfold write. by rewrite He. Qed.

(** The state after linking: only the list and [first] change. *)
Definition linked (s : state) (a : positive) (l l' : list entry) (s' : state) : Prop :=
  seg (mem s') None l' None /\
  agree (a :: addrs l) (mem s) (mem s') /\
  pH s' = mkHash (htsize (pH s)) (count (pH s)) (hdn l' None) (ht (pH s)).

Lemma link_front s a e l :
  seg (mem s) None l None -> first (pH s) = hdn l None -> NoDup (addrs l) -> a ∉ addrs l ->
  mem s !! a = Some e ->
  exists s', link_element s None a = Some s' /\ linked s a l ((a, (pKey e, data e)) :: l) s'.
Proof.
  intros Hs Hf Hn Ha He. unfold link_element. rewrite Hf.
  rewrite (write_at _ _ _ _ He). simpl. rewrite Hf.
  destruct l as [|y l].
  - simpl. erewrite write_at by apply lookup_insert_eq. simpl. rewrite insert_insert_eq.
    eexists. split; [done |]. repeat split; simpl.
    + by rewrite lookup_insert_eq.
    + intros b Hb. apply lookup_insert_ne. set_solver.
    + rewrite dom_insert_L. apply elem_of_dom_2 in He. set_solver.
  - simpl in *. apply not_elem_of_cons in Ha as [Hay Hal]. apply NoDup_cons in Hn as [Hy Hn].
    set (e1 := set_next (Some y.1) e).
    destruct (seg_set_prev (mkState (<[a := e1]> (mem s)) (pH s)) None (Some a) y l None)
      as (e2 & -> & H2); [apply seg_insert; [| done]; by apply not_elem_of_cons | done |].
    simpl in *.
    erewrite write_at by (simpl; rewrite lookup_insert_ne by done; apply lookup_insert_eq). simpl.
    eexists. split; [done |]. split; [| split]; [simpl | | done].
    + rewrite lookup_insert_eq. split; [done |].
      refine (seg_insert _ _ (y :: l) _ _ _ _ H2). by apply not_elem_of_cons.
    + apply agree_trans with (<[a := e1]> (mem s)); [apply agree_insert; [left | done] |].
      apply agree_trans with (<[y.1 := e2]> (<[a := e1]> (mem s))); (apply agree_insert; [set_solver |]).
      * rewrite lookup_insert_ne by done. destruct Hs as [-> _]. done.
      * rewrite lookup_insert_ne, lookup_insert_eq by done. done.
Qed.

Lemma link_before s a e l1 y l2 :
  seg (mem s) None (l1 ++ y :: l2) None -> first (pH s) = hdn (l1 ++ y :: l2) None ->
  NoDup (addrs (l1 ++ y :: l2)) -> a ∉ addrs (l1 ++ y :: l2) -> mem s !! a = Some e ->
  exists s', link_element s (Some y.1) a = Some s' /\
    linked s a (l1 ++ y :: l2) (l1 ++ (a, (pKey e, data e)) :: y :: l2) s'.
Proof.
  intros Hs Hf Hn Ha He. unfold link_element.
  rewrite (seg_lookup _ _ _ _ _ _ Hs). simpl. rewrite (write_at _ _ _ _ He). simpl.
  rewrite addrs_app in Hn, Ha. simpl in Hn, Ha.
  apply not_elem_of_app in Ha as [Ha1 Ha2]. apply NoDup_app in Hn as (Hn1 & Hn12 & Hn2).
  set (e1 := set_prev _ _).
  assert (agree (a :: addrs (l1 ++ y :: l2)) (mem s) (<[a := e1]> (mem s))) as Ha1'
    by (apply agree_insert; [left | done]).
  destruct l1 as [|q l1 _] using rev_ind.
  - simpl in *. apply not_elem_of_cons in Ha2 as [Hay Hal].
    apply NoDup_cons in Hn2 as [Hy _].
    destruct (seg_set_prev (mkState (<[a := e1]> (mem s))
       (pH (set_first (Some a) (mkState (<[a := e1]> (mem s)) (pH s))))) None (Some a) y l2 None)
      as (e2 & E2 & H2); [apply seg_insert; [| done]; by apply not_elem_of_cons | done |].
    unfold set_first in *. simpl in *. rewrite E2. eexists. split; [done |].
    split; [| split]; [simpl | | done].
    + rewrite lookup_insert_ne, lookup_insert_eq by done. by split.
    + eapply agree_trans; [exact Ha1' |]. apply agree_insert; [set_solver |].
      rewrite lookup_insert_ne by done. destruct Hs as [-> _]. done.
  - rewrite lastp_snoc. apply not_elem_of_cons in Ha2 as [Hay Hal].
    rewrite seg_app in Hs. destruct Hs as [Hs1 Hs2]. rewrite lastp_snoc in Hs2.
    rewrite addrs_app in Ha1, Hn1, Hn12. simpl in Hs1, Ha1, Hn1, Hn12.
    assert (q.1 ∉ y.1 :: addrs l2) as Hq by (apply Hn12; set_solver).
    assert (q.1 ∉ addrs l1) as Hq1 by (apply NoDup_app in Hn1; set_solver).
    destruct (seg_set_next (mkState (<[a := e1]> (mem s)) (pH s)) None l1 q (Some y.1) (Some a))
      as (e2 & -> & H2); [apply seg_insert; [| done]; rewrite addrs_app; done | done |].
    simpl in *.
    destruct (seg_set_prev (mkState (<[q.1 := e2]> (<[a := e1]> (mem s))) (pH s))
                (Some q.1) (Some a) y l2 None) as (e3 & -> & H3).
    { simpl. apply (seg_insert _ _ (y :: l2)); [exact Hq |].
      apply (seg_insert _ _ (y :: l2)); [| done]. by apply not_elem_of_cons. }
    { by apply NoDup_cons in Hn2 as [? _]. }
    eexists. split; [done |]. split; [| split]; simpl.
    + rewrite seg_app, lastp_snoc. simpl. repeat split; try apply H3.
      * apply seg_insert; [| done]. intros Hy. rewrite addrs_app in Hy.
        apply (Hn12 _ Hy). by left.
      * rewrite lookup_insert_ne, lookup_insert_ne, lookup_insert_eq by set_solver.
        unfold e1. by rewrite lastp_snoc.
    + eapply agree_trans; [exact Ha1' |].
      apply agree_trans with (<[q.1 := e2]> (<[a := e1]> (mem s)));
        (apply agree_insert; [rewrite !addrs_app; set_solver |]).
      * rewrite lookup_insert_ne by set_solver. rewrite seg_app in Hs1.
        destruct Hs1 as (_ & -> & _). done.
      * rewrite lookup_insert_ne, lookup_insert_ne by set_solver. destruct Hs2 as [-> _]. done.
    + destruct (pH s) as [n c f t]. simpl in *. rewrite Hf, !hdn_app. by destruct l1.
Qed.

(** ** Buckets *)

Definition in_bucket (n b : nat) (x : entry) : Prop := bucket_of x.2.1 (Z.of_nat n) = b.

#[local] Instance in_bucket_dec n b x : Decision (in_bucket n b x).
Proof. unfold in_bucket. apply _. Defined.

(** The entries of bucket [b] are contiguous in the list; the bucket counts them
    and points to the first one. *)
Definition bucket_ok (n b : nat) (e : _ht) (l : list entry) : Prop :=
  exists l1 l2, l = l1 ++ filter (in_bucket n b) l ++ l2 /\
    bucket_count e = Zlen (filter (in_bucket n b) l) /\
    (filter (in_bucket n b) l <> [] -> chain e = hdn (filter (in_bucket n b) l) None).

Definition buckets_ok (bs : list _ht) (l : list entry) : Prop :=
  forall b e, bs !! b = Some e -> bucket_ok (length bs) b e l.

Lemma filter_idem {A} (P : A -> Prop) `{!forall x, Decision (P x)} (l : list A) :
  filter P (filter P l) = filter P l.
Proof. apply filter_all. by intros x [Hx _]%list_elem_of_filter. Qed.

Lemma filter_outside {A} (P : A -> Prop) `{!forall x, Decision (P x)} (l l1 l2 : list A) :
  l = l1 ++ filter P l ++ l2 -> filter P l1 = [] /\ filter P l2 = [].
Proof.
  intros Hl. assert (length (filter P l) = length (filter P (l1 ++ filter P l ++ l2))) as Hn
    by (by rewrite <- Hl).
  rewrite !filter_app, filter_idem, !length_app in Hn.
  destruct (filter P l1), (filter P l2); simpl in Hn; [done | lia | lia | lia].
Qed.

(** An entry put anywhere but inside a contiguous part leaves it contiguous. *)
Lemma contig_insert {A} (x : A) l1 r m1 s m2 :
  l1 ++ r = m1 ++ s ++ m2 -> l1 = [] \/ (exists y r', r = y :: r' /\ y ∉ s) ->
  exists m1' m2', l1 ++ x :: r = m1' ++ s ++ m2'.
Proof.
  intros He Hy. destruct Hy as [-> | (y & r' & -> & Hy)].
  - exists (x :: m1), m2. simpl in *. by rewrite He.
  - apply app_eq_inv in He as [(k & -> & He) | (k & -> & He)].
    + apply app_eq_inv in He as [(k' & -> & He) | (k' & -> & ->)].
      * destruct k' as [|z k']; simpl in *.
        -- exists m1, (x :: m2). rewrite He. by rewrite app_nil_r, <- !app_assoc.
        -- exfalso. injection He as -> _. apply Hy, elem_of_app. right. left.
      * exists m1, (k' ++ x :: y :: r'). by rewrite <- !app_assoc.
    + destruct k as [|z k]; simpl in He.
      * destruct s as [|z s]; simpl in He.
        -- exists l1, (x :: m2). simpl. rewrite He. done.
        -- exfalso. injection He as -> _. apply Hy. left.
      * injection He as -> ->. exists (l1 ++ x :: z :: k), m2. by rewrite <- !app_assoc.
Qed.

Lemma buckets_insert bs l l' x b e0 l1 l2 :
  buckets_ok bs l -> bs !! b = Some e0 -> in_bucket (length bs) b x ->
  l = l1 ++ filter (in_bucket (length bs) b) l ++ l2 ->
  l1 = [] \/ filter (in_bucket (length bs) b) l <> [] ->
  l' = l1 ++ x :: filter (in_bucket (length bs) b) l ++ l2 ->
  buckets_ok (<[b := mk_ht (bucket_count e0 + 1) (Some x.1)]> bs) l'.
Proof.
  set (n := length bs). intros Hb He Hx Hl Hne Hl' c e Hc. unfold bucket_ok.
  rewrite length_insert. fold n.
  destruct (filter_outside _ _ _ _ Hl) as [Hf1 Hf2].
  destruct (decide (c = b)) as [-> | Hcb].
  - rewrite list_lookup_insert_eq in Hc by (by eapply lookup_lt_Some).
    injection Hc as <-. simpl.
    assert (filter (in_bucket n b) l' = x :: filter (in_bucket n b) l) as Hf.
    { rewrite Hl', filter_app, filter_cons_True, filter_app, filter_idem, Hf1, Hf2 by done.
      by rewrite app_nil_r. }
    rewrite Hf. exists l1, l2. simpl. split; [done |]. split; [| done].
    destruct (Hb b e0 He) as (_ & _ & _ & -> & _). rewrite Zlen_cons. done.
  - rewrite list_lookup_insert_ne in Hc by done.
    destruct (Hb c e Hc) as (m1 & m2 & Hm & Hcnt & Hch). fold n in Hm, Hcnt, Hch.
    assert (filter (in_bucket n c) l' = filter (in_bucket n c) l) as Hf.
    { transitivity (filter (in_bucket n c) (l1 ++ filter (in_bucket n b) l ++ l2));
        [| by rewrite <- Hl].
      rewrite Hl', !filter_app, filter_cons_False, !filter_app; [done |].
      unfold in_bucket in *. congruence. }
    rewrite Hf. destruct (contig_insert x l1 (filter (in_bucket n b) l ++ l2) m1
      (filter (in_bucket n c) l) m2) as (m1' & m2' & Hm').
    + by rewrite <- Hl.
    + destruct Hne as [Hne | Hne]; [by left | right].
      destruct (filter (in_bucket n b) l) as [|y s] eqn:Es; [done |].
      exists y, (s ++ l2). split; [done |]. intros [Hy _]%list_elem_of_filter.
      assert (y ∈ filter (in_bucket n b) l) as [Hyb _]%list_elem_of_filter by (rewrite Es; left).
      unfold in_bucket in *. congruence.
    + exists m1', m2'. rewrite Hl'. auto.
Qed.

Definition table_ok (h : Hash) (l : list entry) : Prop :=
  match ht h with
  | None => htsize h = 0
  | Some bs => htsize h = Zlen bs /\ bs <> [] /\ buckets_ok bs l
  end.

(** The state represents the list [l]. *)
Definition rep (s : state) (l : list entry) : Prop :=
  seg (mem s) None l None /\ first (pH s) = hdn l None /\ NoDup (addrs l) /\ table_ok (pH s) l.

Lemma bucket_of_lt k n : 0 < n -> (bucket_of k n < Z.to_nat n)%nat.
Proof. intros Hn. unfold bucket_of. pose proof (Z.mod_pos_bound (strHash k) n Hn). lia. Qed.

Lemma addrs_perm l l' : l ≡ₚ l' -> addrs l ≡ₚ addrs l'.
Proof. rewrite !addrs_fmap. by intros ->. Qed.

(** What linking a new element keeps. *)
Definition same_table (s s' : state) : Prop :=
  count (pH s') = count (pH s) /\ htsize (pH s') = htsize (pH s) /\
  (is_Some (ht (pH s')) <-> is_Some (ht (pH s))).

Lemma insertElement_ok s a e l :
  rep s l -> a ∉ addrs l -> mem s !! a = Some e ->
  exists s' l',
    insertElement s (if ht (pH s) is Some _ then Some (bucket_of (pKey e) (htsize (pH s))) else None)
      a = Some s' /\
    l' ≡ₚ (a, (pKey e, data e)) :: l /\ rep s' l' /\ same_table s s' /\
    agree (a :: addrs l) (mem s) (mem s').
Proof.
  intros (Hs & Hf & Hn & Ht) Ha He. set (x := (a, (pKey e, data e))). unfold table_ok in Ht.
  unfold insertElement. destruct (ht (pH s)) as [bs|] eqn:Hbs; cycle 1.
  - destruct (link_front s a e l Hs Hf Hn Ha He) as (s' & -> & Hs' & Hag & Hp).
    exists s', (x :: l). split; [done |]. split; [done |]. unfold rep, same_table, table_ok.
    rewrite Hp. simpl. rewrite Hbs.
    split; [split; [exact Hs' | split; [done | split; [by apply NoDup_cons | done]]] |].
    split; [done | exact Hag].
  - destruct Ht as (Hsz & Hne & Hok). rewrite Hsz.
    set (b := bucket_of (pKey e) (Zlen bs)). simpl.
    destruct (bs !! b) as [e0|] eqn:Eb; cycle 1.
    { apply lookup_ge_None in Eb. pose proof (bucket_of_lt (pKey e) (Zlen bs)) as Hlt.
      unfold Zlen in *. rewrite Nat2Z.id in Hlt. destruct bs; [done |].
      simpl in *. unfold b in Eb. lia. }
    assert (in_bucket (length bs) b x) as Hx by done. simpl.
    destruct (Hok b e0 Eb) as (l1 & l2 & Hl & Hcnt & Hch).
    set (f := filter (in_bucket (length bs) b) l) in *.
    set (s0 := set_ht (Some (<[b := mk_ht (bucket_count e0 + 1) (Some a)]> bs)) s).
    assert (exists s' l1' l2', link_element s0 (if bucket_count e0 =? 0 then None else chain e0) a
        = Some s' /\ linked s0 a l (l1' ++ x :: f ++ l2') s' /\ l = l1' ++ f ++ l2' /\
        (l1' = [] \/ f <> [])) as (s' & l1' & l2' & -> & (Hs' & Hag & Hp) & Hl' & Hne').
    { rewrite Hcnt. destruct f as [|y g] eqn:Ef.
      - destruct (link_front s0 a e l Hs Hf Hn Ha He) as (s' & Hs' & Hlk).
        exists s', [], l. auto.
      - rewrite Hch by done. simpl in Hl. rewrite Hl in Hs, Hf, Hn, Ha.
        destruct (link_before s0 a e l1 y (g ++ l2) Hs Hf Hn Ha He) as (s' & Hs' & Hlk).
        rewrite <- Hl in Hlk. rewrite Zlen_cons.
        destruct (Z.eqb_spec (Zlen g + 1) 0); [pose proof (Zlen_nonneg g); lia |].
        exists s', l1, l2. auto. }
    exists s', (l1' ++ x :: f ++ l2'). split; [done |].
    assert (l1' ++ x :: f ++ l2' ≡ₚ x :: l) as Hpm by (rewrite Hl'; by rewrite <- Permutation_middle).
    split; [done |]. unfold rep, same_table, table_ok. rewrite Hp. simpl. rewrite Hbs.
    split; [split; [exact Hs' | split; [done | split; [| split; [| split]]]] |].
    + rewrite (addrs_perm _ _ Hpm). by apply NoDup_cons.
    + unfold Zlen. by rewrite length_insert.
    + intros Hi. apply (f_equal length) in Hi. rewrite length_insert in Hi. by destruct bs.
    + apply (buckets_insert _ l _ x _ _ l1' l2' Hok Eb Hx Hl' Hne' eq_refl).
    + split; [done | exact Hag].
Qed.

(** ** Rehashing *)

Lemma rehash_loop_ok lr : forall s lc p fuel,
  rep s lc -> seg (mem s) p lr None -> NoDup (addrs (lr ++ lc)) -> is_Some (ht (pH s)) ->
  (length lr <= fuel)%nat ->
  exists s' l', rehash_loop fuel s (htsize (pH s)) (hdn lr None) = Some s' /\
    l' ≡ₚ lr ++ lc /\ rep s' l' /\ same_table s s' /\
    agree (addrs (lr ++ lc)) (mem s) (mem s').
Proof.
  induction lr as [|x lr IH]; intros s lc p fuel Hrep Hseg Hnd Hht Hf.
  - exists s, lc. simpl. destruct fuel; (split; [done |]; split; [done |]; split; [done |];
      split; [unfold same_table; tauto | apply agree_refl]).
  - destruct fuel as [|fuel]; simpl in Hf; [lia |]. simpl in Hseg, Hnd |- *.
    destruct Hseg as [Hx Hseg]. rewrite Hx. simpl.
    apply NoDup_cons in Hnd as [Hxn Hnd]. rewrite addrs_app in Hxn, Hnd.
    destruct (insertElement_ok s x.1 _ lc Hrep ltac:(set_solver) Hx)
      as (s1 & l1 & Hi & Hl1 & Hrep1 & Hst1 & Hag1).
    destruct Hht as [bs Hbs]. rewrite Hbs in Hi. simpl in Hi. rewrite Hi. simpl.
    assert (seg (mem s1) (Some x.1) lr None) as Hseg1.
    { apply seg_frame with (mem s); [| done]. intros b Hb. apply Hag1.
      apply NoDup_app in Hnd as (_ & Hd & _). set_solver. }
    destruct Hst1 as (Hc1 & Hz1 & Hh1).
    replace (htsize (pH s)) with (htsize (pH s1)) by done.
    assert (addrs l1 ≡ₚ x.1 :: addrs lc) as Hal by (by apply addrs_perm in Hl1).
    destruct (IH s1 l1 (Some x.1) fuel) as (s' & l' & -> & Hl' & Hrep' & (Hc' & Hz' & Hh') & Hag').
    + done.
    + done.
    + rewrite addrs_app, Hal, <- Permutation_middle. by apply NoDup_cons.
    + apply Hh1. by rewrite Hbs.
    + lia.
    + exists s', l'. split; [done |].
      split; [rewrite Hl', Hl1; destruct x as [? [? ?]]; by rewrite <- Permutation_middle |].
      split; [done |]. unfold same_table. rewrite Hc', Hz', Hh'. split; [done |].
      apply agree_trans with (mem s1).
      * destruct Hag1 as [Ha Hd]. split; [| done]. intros b Hb. apply Ha.
        rewrite addrs_app in Hb. set_solver.
      * destruct Hag' as [Ha Hd]. split; [| done]. intros b Hb. apply Ha.
        rewrite addrs_app, Hal in *. set_solver.
Qed.

Section Allocation.
  Context (Malloc : gset positive -> positive) (MallocSize : Z -> Z).
  (** [MallocSize] reports at least the bytes that were asked for. *)
  Hypothesis MallocSize_ok : forall n, 0 < n -> n <= MallocSize n.

Lemma rehash_ok s l n alloc :
  rep s l -> 0 < n -> (length l <= size (mem s))%nat ->
  exists b s' l', rehash MallocSize s n alloc = Some (b, s') /\ l' ≡ₚ l /\ rep s' l' /\
    count (pH s') = count (pH s) /\ agree (addrs l) (mem s) (mem s') /\
    (if b : bool then is_Some (ht (pH s')) else s' = s).
Proof using MallocSize_ok.
  intros Hrep Hn Hsz. unfold rehash.
  set (n' := if _ <? _ then _ else _).
  assert (0 < n') as Hn' by (unfold n'; case_if; [reflexivity | lia]).
  destruct (n' =? htsize (pH s)); [exists false, s, l; auto 10 using agree_refl |].
  destruct alloc; [| exists false, s, l; auto 10 using agree_refl]. simpl.
  set (k := MallocSize (n' * sizeof_ht) / sizeof_ht).
  assert (0 < k) as Hk.
  { unfold k, sizeof_ht. pose proof (MallocSize_ok (n' * 16) ltac:(lia)).
    apply Z.div_str_pos. lia. }
  set (s0 := mkState _ _). destruct Hrep as (Hs & Hf & Hnd & Ht).
  destruct (rehash_loop_ok l s0 [] None (size (mem s))) as (s' & l' & Hr & Hl & Hrep & Hst & Hag).
  - split; [done |]. split; [done |]. split; [constructor |]. unfold table_ok. simpl.
    unfold Zlen. rewrite length_replicate, Z2Nat.id by lia. split; [done |]. split.
    + destruct (Z.to_nat k) eqn:E; [lia | done].
    + intros b e [-> _]%lookup_replicate. exists [], []. done.
  - done.
  - by rewrite app_nil_r.
  - done.
  - done.
  - simpl in Hr. rewrite Hf, Hr. simpl. rewrite app_nil_r in Hl, Hag.
    destruct Hst as (Hc & _ & Hh). exists true, s', l'.
    split; [done |]. split; [done |]. split; [done |]. split; [done |]. split; [done |].
    apply Hh. done.
Qed.
End Allocation.

(** ** Finding *)

#[local] Arguments sqlite3_stricmp : simpl never.

Definition lfind (key : list Z) (l : list entry) : option entry :=
  List.find (fun x => bool_decide (fold_case x.2.1 = fold_case key)) l.

Lemma find_loop_ok key rest : cstring key -> forall l m p,
  seg m p (l ++ rest) None -> Forall (fun x : entry => cstring x.2.1) l ->
  find_loop m key (length l) (hdn (l ++ rest) None) = Some (fst <$> lfind key l).
Proof.
  intros Hk. induction l as [|x l IH]; intros m p Hs Hl; [done |].
  apply Forall_cons in Hl as [Hx Hl]. destruct Hs as [Hm Hs]. simpl find_loop. rewrite Hm. simpl.
  pose proof (stricmp_zero x.2.1 key Hx Hk) as Hc.
  destruct (Z.eqb_spec (sqlite3_stricmp (Some x.2.1) (Some key)) 0) as [E | E].
  - rewrite bool_decide_eq_true_2 by tauto. done.
  - rewrite bool_decide_eq_false_2 by tauto. apply (IH m (Some x.1)); done.
Qed.

Lemma strHash_loop_fold h z1 z2 : fold_case z1 = fold_case z2 -> strHash_loop h z1 = strHash_loop h z2.
Proof.
  revert h z2. induction z1 as [|c z1 IH]; intros h [|d z2] Hz; try done.
  injection Hz as Hc Hz. simpl. rewrite Hc. by apply IH.
Qed.

Lemma bucket_of_fold k1 k2 n : fold_case k1 = fold_case k2 -> bucket_of k1 n = bucket_of k2 n.
Proof. intros Hk. unfold bucket_of, strHash. by rewrite (strHash_loop_fold 0 _ _ Hk). Qed.

Lemma lfind_bucket key n l : lfind key (filter (in_bucket n (bucket_of key (Z.of_nat n))) l) = lfind key l.
Proof.
  induction l as [|x l IH]; [done |]. rewrite filter_cons. simpl.
  destruct (decide (fold_case x.2.1 = fold_case key)) as [E | E].
  - rewrite decide_True by (by apply bucket_of_fold). simpl. by rewrite !bool_decide_eq_true_2.
  - rewrite (bool_decide_eq_false_2 _ E).
    destruct (decide _); simpl; [rewrite (bool_decide_eq_false_2 _ E) |]; done.
Qed.

Definition keys_ok (l : list entry) : Prop := Forall (fun x : entry => cstring x.2.1) l.

(** The bucket of a key, when there are buckets. *)
Definition place (s : state) (key : list Z) : nat :=
  if ht (pH s) is Some _ then bucket_of key (htsize (pH s)) else 0%nat.

Lemma table_bucket h l bs key : table_ok h l -> ht h = Some bs ->
  exists e, bs !! bucket_of key (htsize h) = Some e /\
            bucket_ok (length bs) (bucket_of key (htsize h)) e l.
Proof.
  unfold table_ok. intros Ht Hb. rewrite Hb in Ht. destruct Ht as (Hz & Hne & Hok).
  destruct (lookup_lt_is_Some_2 bs (bucket_of key (htsize h))) as [e He].
  - rewrite Hz. pose proof (bucket_of_lt key (Zlen bs)) as Hlt. unfold Zlen in *.
    rewrite Nat2Z.id in Hlt. apply Hlt. destruct bs; simpl; [done | lia].
  - exists e. split; [done |]. by apply Hok.
Qed.

Lemma findElement_ok s l key : rep s l -> count (pH s) = Zlen l -> keys_ok l -> cstring key ->
  findElementWithHash s key = Some (fst <$> lfind key l, place s key).
Proof.
  intros (Hs & Hf & Hn & Ht) Hc Hok Hk. unfold findElementWithHash, place.
  destruct (ht (pH s)) as [bs|] eqn:Hb; cycle 1.
  - rewrite Hc, Hf. unfold Zlen. rewrite Nat2Z.id.
    pose proof (find_loop_ok key [] Hk l (mem s) None) as Hl. rewrite app_nil_r in Hl.
    by rewrite Hl.
  - destruct (table_bucket _ _ _ key Ht Hb) as (e & He & l1 & l2 & Hl & Hcnt & Hch).
    rewrite He. simpl. rewrite Hcnt. unfold Zlen. rewrite Nat2Z.id.
    unfold table_ok in Ht. rewrite Hb in Ht. destruct Ht as (Hz & _ & _). rewrite Hz in *.
    rewrite <- (lfind_bucket key (length bs) l).
    set (f := filter _ l) in *.
    replace (filter _ l) with f by done.
    destruct (decide (f = [])) as [Ef | Ef]; [by rewrite Ef |].
    rewrite Hch by done. rewrite Hl, seg_app in Hs. destruct Hs as [_ Hs].
    pose proof (find_loop_ok key l2 Hk f (mem s) (lastp None l1) Hs) as Hloop.
    replace (hdn f None) with (hdn (f ++ l2) None) by (by destruct f).
    rewrite Hloop; [done |]. unfold keys_ok in Hok. rewrite Hl in Hok.
    apply Forall_app in Hok as [_ Hok]. by apply Forall_app in Hok as [Hok _].
Qed.

(** ** Removing *)

Lemma unlink_element_ok s l1 x l2 :
  seg (mem s) None (l1 ++ x :: l2) None -> first (pH s) = hdn (l1 ++ x :: l2) None ->
  NoDup (addrs (l1 ++ x :: l2)) ->
  exists s1, unlink_element s (mkHashElem (hdn l2 None) (lastp None l1) x.2.2 x.2.1) = Some s1 /\
    seg (delete x.1 (mem s1)) None (l1 ++ l2) None /\ dom (mem s1) = dom (mem s) /\
    pH s1 = mkHash (htsize (pH s)) (count (pH s)) (hdn (l1 ++ l2) None) (ht (pH s)).
Proof.
  intros Hs Hf Hn. rewrite addrs_app in Hn. simpl in Hn. apply NoDup_app in Hn as (Hn1 & Hn12 & Hn2).
  apply NoDup_cons in Hn2 as [Hx Hn2]. rewrite seg_app in Hs. destruct Hs as [Hs1 [_ Hs2]].
  unfold unlink_element. simpl.
  assert (exists m1, match lastp None l1 with
            | Some p => write p (set_next (hdn l2 None)) s
            | None => Some (set_first (hdn l2 None) s)
            end = Some (mkState m1 (mkHash (htsize (pH s)) (count (pH s)) (hdn (l1 ++ l2) None) (ht (pH s)))) /\
            seg m1 None l1 (hdn l2 None) /\ seg m1 (Some x.1) l2 None /\ dom m1 = dom (mem s))
    as (m1 & -> & Hm1 & Hm2 & Hd).
  { destruct l1 as [|q l1 _] using rev_ind; simpl.
    - eexists. unfold set_first. auto.
    - rewrite lastp_snoc. rewrite addrs_app in Hn1, Hn12. simpl in Hn1, Hn12.
      assert (q.1 ∉ addrs l1) as Hq1 by (apply NoDup_app in Hn1; set_solver).
      destruct (seg_set_next s None l1 q _ (hdn l2 None) Hs1 Hq1) as (e & -> & He).
      eexists. split; [| split; [exact He | split]].
      + do 2 f_equal. destruct (pH s) as [n c f t]. simpl in *. rewrite Hf, !hdn_app. by destruct l1.
      + apply seg_insert; [| done]. assert (q.1 ∉ x.1 :: addrs l2) by (apply Hn12; set_solver).
        set_solver.
      + rewrite dom_insert_L. apply seg_app in Hs1 as (_ & Hq & _).
        apply elem_of_dom_2 in Hq. set_solver. }
  simpl. destruct l2 as [|y l2].
  - eexists. split; [done |]. simpl. rewrite app_nil_r in *. split; [| split; [done | done]].
    apply seg_delete; [| done]. intros Hx'. apply (Hn12 _ Hx'). left.
  - simpl in Hn2, Hx. apply NoDup_cons in Hn2 as [Hy Hn2].
    assert (y.1 ∉ addrs l1) as Hy1 by (intros Hy1; apply (Hn12 _ Hy1); simpl; right; left).
    destruct (seg_set_prev (mkState m1 (mkHash (htsize (pH s)) (count (pH s)) (hdn (l1 ++ y :: l2) None)
       (ht (pH s)))) (Some x.1) (lastp None l1) y l2 None Hm2 Hy) as (e & He & Hse).
    simpl in He. simpl. rewrite He. eexists. split; [done |]. simpl. split; [| split; [| done]].
    + rewrite seg_app. split.
      * apply seg_delete; [intros Hx'; apply (Hn12 _ Hx'); left |].
        apply seg_insert; [done |]. exact Hm1.
      * by apply seg_delete.
    + rewrite dom_insert_L. destruct Hm2 as [Hq _]. apply elem_of_dom_2 in Hq. set_solver.
Qed.

(** Removing is filtering. *)
Definition other (a : positive) (x : entry) : Prop := x.1 <> a.

#[local] Instance other_dec a x : Decision (other a x).
Proof. unfold other. apply _. Defined.

Lemma filter_other_id a l : a ∉ addrs l -> filter (other a) l = l.
Proof. intros Ha. apply filter_all. intros x Hx Hxa. apply Ha, addrs_in. eauto. Qed.

Lemma filter_other l1 x l2 : NoDup (addrs (l1 ++ x :: l2)) ->
  filter (other x.1) (l1 ++ x :: l2) = l1 ++ l2.
Proof.
  rewrite addrs_app. simpl. intros (H1 & H12 & [Hx H2]%NoDup_cons)%NoDup_app.
  rewrite filter_app, filter_cons_False by (intros H; by apply H).
  rewrite !filter_other_id; [done | done |]. intros Hx1. apply (H12 _ Hx1). left.
Qed.

Lemma split_unique l1 x l2 k1 k2 : NoDup (addrs (l1 ++ x :: l2)) ->
  l1 ++ x :: l2 = k1 ++ x :: k2 -> l1 = k1 /\ l2 = k2.
Proof.
  revert k1. induction l1 as [|y l1 IH]; intros [|z k1]; simpl; intros Hn He.
  - by injection He as ->.
  - injection He as <- ->. apply NoDup_cons in Hn as [Hn _]. exfalso. apply Hn.
    rewrite addrs_app. simpl. set_solver.
  - injection He as -> <-. apply NoDup_cons in Hn as [Hn _]. exfalso. apply Hn.
    rewrite addrs_app. simpl. set_solver.
  - injection He as -> He. apply NoDup_cons in Hn as [_ Hn].
    by destruct (IH _ Hn He) as [-> ->].
Qed.

Lemma addrs_filter P `{!forall x, Decision (P x)} l a : a ∈ addrs (filter P l) -> a ∈ addrs l.
Proof. intros (x & -> & [_ Hx]%list_elem_of_filter)%addrs_in. apply addrs_in. eauto. Qed.

Lemma filter_comm {A} (P Q : A -> Prop) `{!forall x, Decision (P x), !forall x, Decision (Q x)}
    (l : list A) : filter P (filter Q l) = filter Q (filter P l).
Proof.
  induction l as [|x l IH]; [done |]. rewrite !filter_cons.
  destruct (decide (P x)) as [HP | HP], (decide (Q x)) as [HQ | HQ]; rewrite ?filter_cons, IH;
    repeat (first [rewrite (decide_True _ _ HP) | rewrite (decide_False _ _ HP)
                  | rewrite (decide_True _ _ HQ) | rewrite (decide_False _ _ HQ)]); done.
Qed.

Lemma buckets_remove bs l1 x l2 b e0 :
  buckets_ok bs (l1 ++ x :: l2) -> NoDup (addrs (l1 ++ x :: l2)) ->
  bs !! b = Some e0 -> in_bucket (length bs) b x ->
  buckets_ok (<[b := mk_ht (bucket_count e0 - 1)
                       (if decide (chain e0 = Some x.1) then hdn l2 None else chain e0)]> bs)
    (l1 ++ l2).
Proof.
  intros Hok Hn He Hx c e Hc. rewrite length_insert. set (n := length bs) in *.
  unfold bucket_ok. rewrite <- (filter_other l1 x l2 Hn).
  set (l := l1 ++ x :: l2) in *. rewrite (filter_comm (in_bucket n c) (other x.1)).
  destruct (decide (c = b)) as [-> | Hcb].
  - rewrite list_lookup_insert_eq in Hc by (by eapply lookup_lt_Some). injection Hc as <-. simpl.
    destruct (Hok b e0 He) as (m1 & m2 & Hm & Hcnt & Hch). fold n in Hm, Hcnt, Hch.
    assert (x ∈ filter (in_bucket n b) l) as Hxf.
    { apply list_elem_of_filter. split; [done |]. unfold l. set_solver. }
    set (f := filter (in_bucket n b) l) in *.
    exists (filter (other x.1) m1), (filter (other x.1) m2). split; [by rewrite Hm at 1; rewrite !filter_app |].
    apply list_elem_of_split in Hxf as (f1 & f2 & Hf).
    assert (NoDup (addrs (f1 ++ x :: f2))) as Hnf.
    { rewrite <- Hf. rewrite Hm, !addrs_app in Hn. apply NoDup_app in Hn as (_ & _ & Hn).
      by apply NoDup_app in Hn as (Hn & _). }
    rewrite Hf, (filter_other _ _ _ Hnf). split.
    + rewrite Hcnt, Hf, !Zlen_app, Zlen_cons. lia.
    + intros Hne. rewrite Hch by (rewrite Hf; by destruct f1). rewrite Hf.
      destruct f1 as [|y f1]; simpl in *.
      * rewrite decide_True by done. rewrite Hf in Hm. simpl in Hm.
        destruct (split_unique l1 x l2 m1 (f2 ++ m2) Hn Hm) as [_ ->]. by destruct f2.
      * rewrite decide_False; [done |]. intros [= Hyx]. apply NoDup_cons in Hnf as [Hnf _].
        apply Hnf. rewrite Hyx, addrs_app. simpl. set_solver.
  - rewrite list_lookup_insert_ne in Hc by done.
    destruct (Hok c e Hc) as (m1 & m2 & Hm & Hcnt & Hch). fold n in Hm, Hcnt, Hch.
    set (f := filter (in_bucket n c) l) in *.
    assert (filter (other x.1) f = f) as Hf.
    { apply filter_other_id. intros (y & Hy & Hyf)%addrs_in.
      apply list_elem_of_filter in Hyf as [Hyb Hyl].
      assert (y = x) as ->; [| unfold in_bucket in *; congruence].
      destruct (list_elem_of_split _ _ Hyl) as (k1 & k2 & Hk). unfold l in Hyl, Hn.
      rewrite addrs_app in Hn. simpl in Hn. apply NoDup_app in Hn as (_ & Hn12 & [Hx2 _]%NoDup_cons).
      apply elem_of_app in Hyl as [Hyl | [Hyl | Hyl]%elem_of_cons]; [exfalso | done | exfalso].
      - apply (Hn12 y.1); [apply addrs_in; eauto | rewrite Hy; left].
      - apply Hx2, addrs_in. rewrite Hy. eauto. }
    rewrite Hf. exists (filter (other x.1) m1), (filter (other x.1) m2).
    split; [| done]. rewrite Hm at 1. rewrite !filter_app. by rewrite Hf.
Qed.

(** ** The map *)

Definition fkeys (l : list entry) : list (list Z) := (fun x : entry => fold_case x.2.1) <$> l.

Definition absm (l : list entry) : gmap (list Z) Z :=
  list_to_map ((fun x : entry => (fold_case x.2.1, x.2.2)) <$> l).

Lemma absm_dom_fst l : ((fun x : entry => (fold_case x.2.1, x.2.2)) <$> l).*1 = fkeys l.
Proof. unfold fkeys. by rewrite <- list_fmap_compose. Qed.

Lemma absm_perm l l' : l ≡ₚ l' -> NoDup (fkeys l) -> absm l = absm l'.
Proof. intros Hp Hn. apply list_to_map_proper; [by rewrite absm_dom_fst | by rewrite Hp]. Qed.

Lemma lfind_some key l x : lfind key l = Some x ->
  (exists l1 l2, l = l1 ++ x :: l2) /\ fold_case x.2.1 = fold_case key.
Proof.
  intros Hf. apply find_some in Hf as [Hin Hk]. apply bool_decide_eq_true in Hk.
  split; [| done]. apply in_split in Hin as (l1 & l2 & ->). eauto.
Qed.

Lemma lfind_none key l : lfind key l = None -> fold_case key ∉ fkeys l.
Proof.
  intros Hf (x & Hx & Hin)%list_elem_of_fmap.
  apply list_elem_of_In in Hin. pose proof (find_none _ _ Hf x Hin) as Hn.
  by apply bool_decide_eq_false in Hn.
Qed.

Lemma absm_lookup key l : NoDup (fkeys l) -> absm l !! fold_case key = (fun x => x.2.2) <$> lfind key l.
Proof.
  intros Hn. destruct (lfind key l) as [x|] eqn:Hf.
  - apply lfind_some in Hf as [(l1 & l2 & ->) Hk]. rewrite <- Hk. simpl.
    apply elem_of_list_to_map_1; [by rewrite absm_dom_fst |].
    apply list_elem_of_fmap. exists x. split; [done | set_solver].
  - apply not_elem_of_list_to_map_1. rewrite absm_dom_fst. by apply lfind_none.
Qed.

Lemma fkeys_middle l1 x l2 : fkeys (l1 ++ x :: l2) ≡ₚ fold_case x.2.1 :: fkeys (l1 ++ l2).
Proof. unfold fkeys. rewrite <- Permutation_middle. done. Qed.

Lemma absm_middle l1 x l2 : NoDup (fkeys (l1 ++ x :: l2)) ->
  absm (l1 ++ x :: l2) = <[fold_case x.2.1 := x.2.2]> (absm (l1 ++ l2)).
Proof.
  intros Hn. rewrite (absm_perm _ (x :: l1 ++ l2)); [done | | done].
  by rewrite <- Permutation_middle.
Qed.

Lemma absm_notin key l : key ∉ fkeys l -> absm l !! key = None.
Proof. intros Hn. apply not_elem_of_list_to_map_1. by rewrite absm_dom_fst. Qed.

(** The invariant: the heap holds exactly the elements of the list. *)
Definition inv (s : state) (l : list entry) : Prop :=
  rep s l /\ count (pH s) = Zlen l /\ dom (mem s) = list_to_set (addrs l) /\
  keys_ok l /\ NoDup (fkeys l).

Lemma inv_init : inv (mkState ∅ sqlite3HashInit) [].
Proof. split; [| by repeat constructor]. split; [done |]. split; [done |]. split; constructor. Qed.

Lemma inv_size s l : inv s l -> size (mem s) = length l.
Proof.
  intros ((_ & _ & Hn & _) & _ & Hd & _). rewrite <- size_dom, Hd, size_list_to_set by done.
  by rewrite addrs_fmap, length_fmap.
Qed.

Lemma clear_loop_ok l : forall m p, seg m p l None -> NoDup (addrs l) ->
  dom m = list_to_set (addrs l) -> clear_loop (length l) m (hdn l None) = Some ∅.
Proof.
  induction l as [|x l IH]; intros m p Hs Hn Hd.
  - simpl in *. f_equal. by apply dom_empty_inv_L.
  - destruct Hs as [Hx Hs]. simpl in Hn. apply NoDup_cons in Hn as [Hxn Hn]. simpl clear_loop.
    rewrite Hx. simpl. apply (IH _ (Some x.1)); [by apply seg_delete | done |].
    rewrite dom_delete_L, Hd. simpl. assert (x.1 ∉@{gset positive} list_to_set (addrs l)) by
      (by rewrite elem_of_list_to_set). set_solver.
Qed.

Lemma HashClear_ok s l : inv s l -> sqlite3HashClear s = Some (mkState ∅ sqlite3HashInit).
Proof.
  intros Hi. pose proof (inv_size _ _ Hi) as Hsz. destruct Hi as ((Hs & Hf & Hn & _) & _ & Hd & _).
  unfold sqlite3HashClear. rewrite Hsz, Hf, (clear_loop_ok _ _ _ Hs Hn Hd). done.
Qed.

Lemma remove_ok s l1 x l2 : inv s (l1 ++ x :: l2) -> Zlen (l1 ++ x :: l2) < 2 ^ 32 ->
  exists s', removeElementGivenHash s x.1 (place s x.2.1) = Some s' /\ inv s' (l1 ++ l2).
Proof.
  intros (Hrep & Hc & Hd & Hk & Hf) Hlt. pose proof Hrep as (Hs & Hfst & Hn & Ht).
  unfold removeElementGivenHash. rewrite (seg_lookup _ _ _ _ _ _ Hs). simpl.
  destruct (unlink_element_ok s l1 x l2 Hs Hfst Hn) as (s1 & -> & Hs1 & Hd1 & Hp1). simpl.
  set (l := l1 ++ x :: l2) in *.
  assert (exists t', match ht (pH s1) with
      | Some bs => b ← bs !! place s x.2.1;
          Some (set_ht (Some (<[place s x.2.1 := mk_ht (bucket_count b - 1)
             (if decide (chain b = Some x.1) then hdn l2 None else chain b)]> bs)) s1)
      | None => Some s1 end
      = Some (mkState (mem s1) (mkHash (htsize (pH s)) (count (pH s)) (hdn (l1 ++ l2) None) t')) /\
      table_ok (mkHash (htsize (pH s)) (u32 (count (pH s) - 1)) (hdn (l1 ++ l2) None) t') (l1 ++ l2))
    as (t' & -> & Ht').
  { rewrite Hp1. simpl. unfold place. destruct (ht (pH s)) as [bs|] eqn:Hb.
    - destruct (table_bucket _ _ _ x.2.1 Ht Hb) as (e & He & _). rewrite He. simpl.
      eexists. unfold set_ht. rewrite Hp1. simpl. split; [done |].
      unfold table_ok in *. rewrite Hb in Ht. destruct Ht as (Hz & Hne & Hok). simpl.
      split; [unfold Zlen; by rewrite length_insert | split].
      + intros Hi. apply (f_equal length) in Hi. rewrite length_insert in Hi. by destruct bs.
      + apply buckets_remove; try done. unfold in_bucket. by rewrite Hz.
    - exists None. destruct s1 as [m1 p1]. simpl in *. rewrite Hp1. split; [done |].
      unfold table_ok in *. by rewrite Hb in Ht. }
  simpl. rewrite Hc in *. unfold l in Hlt, Hk, Hf, Hd. rewrite Zlen_app, Zlen_cons in *.
  assert (u32 (Zlen l - 1) = Zlen (l1 ++ l2)) as Hcnt.
  { unfold l. rewrite !Zlen_app, Zlen_cons. rewrite wrap_small; [lia |].
    pose proof (Zlen_nonneg l1). pose proof (Zlen_nonneg l2). lia. }
  set (s' := set_count _ _).
  assert (inv s' (l1 ++ l2)) as Hinv.
  { assert (x.1 ∉ addrs l1 ++ addrs l2 /\ NoDup (addrs l1 ++ addrs l2)) as [Hxn Hn'].
    { apply NoDup_cons. unfold l in Hn. rewrite addrs_app in Hn. simpl in Hn.
      by rewrite Permutation_middle. }
    split; [split; [exact Hs1 | split; [done | split; [by rewrite addrs_app | exact Ht']]] |].
    split; [exact Hcnt |]. split; [| split].
    - simpl. rewrite dom_delete_L, Hd1, Hd. rewrite addrs_app. simpl.
      rewrite addrs_app. set_solver.
    - unfold keys_ok in *. apply Forall_app in Hk as [Hk1 [_ Hk2]%Forall_cons]. by apply Forall_app.
    - rewrite fkeys_middle in Hf. by apply NoDup_cons in Hf as [_ Hf]. }
  destruct (Z.eqb_spec (u32 (Zlen l - 1)) 0) as [E | E]; [| by exists s'].
  rewrite (HashClear_ok _ _ Hinv). eexists. split; [done |].
  rewrite Hcnt in E. unfold Zlen in E. destruct (l1 ++ l2); [apply inv_init | simpl in E; lia].
Qed.

(** ** Replacing the datum of an element *)

Definition replace_at (a : positive) (kv : list Z * Z) (x : entry) : entry :=
  if decide (x.1 = a) then (x.1, kv) else x.

Lemma replace_map l1 x l2 kv : NoDup (addrs (l1 ++ x :: l2)) ->
  replace_at x.1 kv <$> (l1 ++ x :: l2) = l1 ++ (x.1, kv) :: l2.
Proof.
  intros Hn. assert (forall l, x.1 ∉ addrs l -> replace_at x.1 kv <$> l = l) as Hid.
  { induction l as [|y l IH]; [done |]. simpl. intros [Hy Hl]%not_elem_of_cons.
    change (replace_at x.1 kv y :: (replace_at x.1 kv <$> l) = y :: l).
    rewrite IH by done. unfold replace_at. by rewrite decide_False. }
  rewrite addrs_app in Hn. simpl in Hn. apply NoDup_app in Hn as (_ & Hn & [Hx _]%NoDup_cons).
  rewrite fmap_app, fmap_cons, !Hid; [| done | intros Hx1; apply (Hn _ Hx1); left].
  unfold replace_at at 1. by rewrite decide_True.
Qed.

Lemma hdn_replace a kv (l : list entry) n : hdn (replace_at a kv <$> l) n = hdn l n.
Proof. destruct l as [|x l]; [done |]. simpl. unfold replace_at. by case_decide. Qed.

Lemma filter_replace n b a kv (l : list entry) :
  (forall x, x ∈ l -> x.1 = a -> fold_case x.2.1 = fold_case kv.1) ->
  filter (in_bucket n b) (replace_at a kv <$> l) = replace_at a kv <$> filter (in_bucket n b) l.
Proof.
  induction l as [|x l IH]; intros Hl; [done |]. rewrite fmap_cons, !filter_cons.
  rewrite IH by (intros y Hy; apply Hl; by right).
  assert (in_bucket n b (replace_at a kv x) <-> in_bucket n b x) as Hx.
  { unfold replace_at. case_decide as E; [| done]. unfold in_bucket. simpl.
    rewrite <- (bucket_of_fold x.2.1 kv.1); [done |]. apply Hl; [left | done]. }
  destruct (decide (in_bucket n b (replace_at a kv x))), (decide (in_bucket n b x)); tauto.
Qed.

Lemma table_replace h (l : list entry) a kv :
  (forall x, x ∈ l -> x.1 = a -> fold_case x.2.1 = fold_case kv.1) ->
  table_ok h l -> table_ok h (replace_at a kv <$> l).
Proof.
  unfold table_ok. intros Hl. destruct (ht h) as [bs|]; [| done].
  intros (Hz & Hne & Hok). split; [done | split; [done |]]. intros b e He.
  destruct (Hok b e He) as (m1 & m2 & Hm & Hcnt & Hch). unfold bucket_ok.
  rewrite (filter_replace _ _ _ _ _ Hl).
  exists (replace_at a kv <$> m1), (replace_at a kv <$> m2).
  split; [by rewrite Hm at 1; rewrite !fmap_app |]. rewrite hdn_replace.
  unfold Zlen in *. rewrite length_fmap. split; [done |]. intros Hf. apply Hch.
  intros E. apply Hf. by rewrite E.
Qed.

Lemma replace_ok s l1 x l2 key d : inv s (l1 ++ x :: l2) -> fold_case x.2.1 = fold_case key ->
  cstring key ->
  exists s', write x.1 (fun e => mkHashElem (next e) (prev e) d key) s = Some s' /\
    inv s' (l1 ++ (x.1, (key, d)) :: l2).
Proof.
  intros ((Hs & Hf & Hn & Ht) & Hc & Hd & Hk & Hfk) Hkey Hck.
  erewrite write_at by (apply (seg_lookup _ _ _ _ _ _ Hs)). eexists. split; [done |].
  assert (x.1 ∉ addrs l1 ++ addrs l2) as Hxn.
  { rewrite addrs_app in Hn. simpl in Hn. rewrite <- Permutation_middle in Hn.
    by apply NoDup_cons in Hn as [Hx _]. }
  apply not_elem_of_app in Hxn as [Hx1 Hx2].
  assert (addrs (l1 ++ (x.1, (key, d)) :: l2) = addrs (l1 ++ x :: l2)) as Ha
    by (rewrite !addrs_app; done).
  split; [split; [| split; [| split]] |].
  - simpl. rewrite seg_app in Hs |- *. destruct Hs as (Hs1 & _ & Hs2). split; [| split].
    + apply seg_insert; [done |]. exact Hs1.
    + apply lookup_insert_eq.
    + apply seg_insert; [done |]. exact Hs2.
  - simpl. rewrite Hf, !hdn_app. done.
  - by rewrite Ha.
  - rewrite <- (replace_map l1 x l2 (key, d) Hn). apply table_replace; [| done].
    intros y Hy Hyx. simpl.
    assert (y = x) as ->; [| done].
    apply elem_of_app in Hy as [Hy | [Hy | Hy]%elem_of_cons]; [exfalso | done | exfalso].
    + apply Hx1, addrs_in. eauto.
    + apply Hx2, addrs_in. eauto.
  - unfold inv. rewrite Ha. simpl. split; [| split; [| split]].
    + rewrite Hc, !Zlen_app, !Zlen_cons. done.
    + rewrite dom_insert_L, <- Hd. assert (x.1 ∈ dom (mem s)); [| set_solver].
      apply elem_of_dom. rewrite (seg_lookup _ _ _ _ _ _ Hs). done.
    + unfold keys_ok in *. apply Forall_app in Hk as [Hk1 [_ Hk2]%Forall_cons].
      apply Forall_app. split; [done |]. by apply Forall_cons.
    + rewrite fkeys_middle in Hfk |- *. simpl. by rewrite <- Hkey.
Qed.

(** ** The operations against the map *)

Definition spec_insert (M : gmap (list Z) Z) (key : list Z) (d : Z) (alloc : bool) :
    Z * gmap (list Z) Z :=
  match M !! fold_case key with
  | Some old => (old, if d =? 0 then delete (fold_case key) M else <[fold_case key := d]> M)
  | None => if d =? 0 then (0, M) else if alloc then (0, <[fold_case key := d]> M) else (d, M)
  end.

Definition spec_find (M : gmap (list Z) Z) (key : list Z) : Z := default 0 (M !! fold_case key).

(** A history of a table: searches, insertions and removals with the outcomes of
    their allocations, and clearing. *)
Inductive op :=
| Find (key : list Z)
| Insert (key : list Z) (d : Z) (elem_alloc ht_alloc : bool)
| Clear.

Definition op_key (o : op) : list Z :=
  match o with Find k => k | Insert k _ _ _ => k | Clear => [] end.

Definition spec_op (M : gmap (list Z) Z) (o : op) : Z * gmap (list Z) Z :=
  match o with
  | Find key => (spec_find M key, M)
  | Insert key d elem_alloc _ => spec_insert M key d elem_alloc
  | Clear => (0, ∅)
  end.

Fixpoint spec_run (M : gmap (list Z) Z) (os : list op) : list Z * gmap (list Z) Z :=
  match os with
  | [] => ([], M)
  | o :: os => let '(r, M) := spec_op M o in let '(rs, M) := spec_run M os in (r :: rs, M)
  end.

Section Refinement.
  Context (Malloc : gset positive -> positive) (MallocSize : Z -> Z).
  (** A new element does not overlap the live ones, and [MallocSize] reports at
      least the bytes that were asked for. *)
  Hypothesis Malloc_fresh : forall X, Malloc X ∉ X.
  Hypothesis MallocSize_ok : forall n, 0 < n -> n <= MallocSize n.

Definition do_op (s : state) (o : op) : option (Z * state) :=
  match o with
  | Find key => r ← sqlite3HashFind s key; Some (r, s)
  | Insert key d elem_alloc ht_alloc => sqlite3HashInsert Malloc MallocSize s key d elem_alloc ht_alloc
  | Clear => s ← sqlite3HashClear s; Some (0, s)
  end.

Fixpoint run (s : state) (os : list op) : option (list Z * state) :=
  match os with
  | [] => Some ([], s)
  | o :: os => '(r, s) ← do_op s o; '(rs, s) ← run s os; Some (r :: rs, s)
  end.

(** The growth before an insertion: [h] is the bucket of [key] in the table that there
    is then. *)
Lemma grow_ok s l key ha : rep s l -> 0 <= count (pH s) < 2 ^ 31 -> (length l <= size (mem s))%nat ->
  exists h s2 l2,
    (if (10 <=? count (pH s)) && (u32 (2 * htsize (pH s)) <? count (pH s))
     then '(b, s2) ← rehash MallocSize s (u32 (count (pH s) * 2)) ha;
          Some (if b : bool then bucket_of key (htsize (pH s2)) else place s key, s2)
     else Some (place s key, s)) = Some (h, s2) /\
    l2 ≡ₚ l /\ rep s2 l2 /\ count (pH s2) = count (pH s) /\ agree (addrs l) (mem s) (mem s2) /\
    (if ht (pH s2) is Some _ then Some h else None) =
    (if ht (pH s2) is Some _ then Some (bucket_of key (htsize (pH s2))) else None).
Proof using MallocSize_ok.
  intros Hrep Hc Hsz.
  assert ((if ht (pH s) is Some _ then Some (place s key) else None) =
            (if ht (pH s) is Some _ then Some (bucket_of key (htsize (pH s))) else None)) as Hpl.
  { unfold place. by destruct (ht (pH s)). }
  destruct (_ && _) eqn:Hcond; [| exists (place s key), s, l; auto 10 using agree_refl].
  bool_to_prop. assert (0 < u32 (count (pH s) * 2)) as Hpos by (rewrite wrap_small; lia).
  destruct (rehash_ok MallocSize MallocSize_ok s l _ ha Hrep Hpos Hsz) as (b & s2 & l2 & -> & Hl2 & Hrep2 & Hc2 & Hag & Hb).
  exists (if b then bucket_of key (htsize (pH s2)) else place s key), s2, l2.
  split; [done |]. split; [done |]. split; [done |]. split; [done |]. split; [done |].
  destruct b; [done | by rewrite Hb].
Qed.

Lemma insert_new_ok s l key d ha : inv s l -> lfind key l = None -> cstring key ->
  Zlen l + 1 < 2 ^ 31 -> d <> 0 ->
  exists s' l', sqlite3HashInsert Malloc MallocSize s key d true ha = Some (0, s') /\ inv s' l' /\
    exists a, l' ≡ₚ (a, (key, d)) :: l.
Proof using Malloc_fresh MallocSize_ok.
  intros Hi Hnone Hk Hlt Hd0. pose proof (inv_size _ _ Hi) as Hsz.
  destruct Hi as (Hrep & Hc & Hd & Hok & Hfk).
  unfold sqlite3HashInsert. rewrite (findElement_ok s l key Hrep Hc Hok Hk), Hnone. simpl.
  destruct (Z.eqb_spec d 0); [done |].
  set (a := Malloc (dom (mem s))). assert (a ∉ dom (mem s)) as Had by apply Malloc_fresh.
  assert (a ∉ addrs l) as Ha by (pose proof Had as Hf; rewrite Hd in Hf; by rewrite elem_of_list_to_set in Hf).
  set (e := mkHashElem None None d key).
  set (s1 := set_count _ _). pose proof (Zlen_nonneg l) as Hl0.
  change (u32 (count (pH s) + 1)) with (count (pH s1)).
  change (u32 (2 * htsize (pH s))) with (u32 (2 * htsize (pH s1))).
  change (place s key) with (place s1 key).
  assert (count (pH s1) = Zlen l + 1) as Hc1
    by (simpl; rewrite Hc; apply wrap_small; lia).
  assert (rep s1 l) as Hrep1.
  { destruct Hrep as (Hs & Hf & Hn & Ht). split; [by apply seg_insert |]. done. }
  assert (mem s1 !! a = Some e) as He1 by apply lookup_insert_eq.
  destruct (grow_ok s1 l key ha Hrep1 ltac:(lia)) as (h & s2 & l2 & -> & Hl2 & Hrep2 & Hc2 & Hag2 & Hh).
  { simpl. rewrite map_size_insert_None by (by apply not_elem_of_dom). lia. }
  simpl. assert (mem s2 !! a = Some e) as He2 by (rewrite (proj1 Hag2); [done | done]).
  destruct (insertElement_ok s2 a e l2 Hrep2) as (s3 & l3 & Hi3 & Hl3 & Hrep3 & Hst3 & Hag3);
    [by rewrite (addrs_perm _ _ Hl2) | done |].
  rewrite Hh. change key with (pKey e) at 1. rewrite Hi3. simpl.
  exists s3, l3. split; [done |]. rewrite Hl2 in Hl3. split; [| by exists a].
  destruct Hst3 as (Hc3 & _). split; [done |]. split; [| split; [| split]].
  - rewrite Hc3, Hc2, Hc1. unfold Zlen. rewrite Hl3. simpl. lia.
  - rewrite (proj2 Hag3), (proj2 Hag2). simpl. rewrite dom_insert_L, Hd.
    apply leibniz_equiv. rewrite (addrs_perm _ _ Hl3). done.
  - unfold keys_ok. rewrite Hl3. by apply Forall_cons.
  - unfold fkeys. rewrite Hl3. simpl. apply NoDup_cons. split; [by apply lfind_none | done].
Qed.

Lemma do_op_ok s l o : inv s l -> cstring (op_key o) -> Zlen l + 1 < 2 ^ 31 ->
  exists s' l', do_op s o = Some ((spec_op (absm l) o).1, s') /\ inv s' l' /\
    absm l' = (spec_op (absm l) o).2 /\ Zlen l' <= Zlen l + 1.
Proof using Malloc_fresh MallocSize_ok.
  intros Hi Hk Hlt. pose proof Hi as (Hrep & Hc & _ & Hok & Hfk).
  destruct o as [key | key d ea ha |]; simpl in Hk |- *.
  - exists s, l. unfold sqlite3HashFind, spec_find.
    rewrite (findElement_ok s l key Hrep Hc Hok Hk), (absm_lookup _ _ Hfk). simpl.
    destruct (lfind key l) as [x|] eqn:Hf; [| auto with lia]. simpl.
    apply lfind_some in Hf as [(l1 & l2 & ->) _]. destruct Hrep as (Hs & _).
    rewrite (seg_lookup _ _ _ _ _ _ Hs). simpl. auto with lia.
  - unfold spec_insert. rewrite (absm_lookup _ _ Hfk).
    destruct (lfind key l) as [x|] eqn:Hf; simpl.
    + unfold sqlite3HashInsert. rewrite (findElement_ok s l key Hrep Hc Hok Hk), Hf. simpl.
      apply lfind_some in Hf as [(l1 & l2 & ->) Hkey]. rewrite (absm_middle _ _ _ Hfk), <- Hkey.
      assert (fold_case x.2.1 ∉ fkeys (l1 ++ l2)) as Hni
        by (rewrite fkeys_middle in Hfk; by apply NoDup_cons in Hfk as [? _]).
      pose proof Hrep as (Hs & _). rewrite (seg_lookup _ _ _ _ _ _ Hs). simpl.
      rewrite !Zlen_app, !Zlen_cons in *.
      destruct (Z.eqb_spec d 0).
      * destruct (remove_ok s l1 x l2 Hi) as (s' & Hr & Hi');
          [rewrite Zlen_app, Zlen_cons; lia |].
        replace (place s key) with (place s x.2.1)
          by (unfold place; by rewrite (bucket_of_fold x.2.1 key)).
        rewrite Hr. simpl. exists s', (l1 ++ l2). rewrite Zlen_app.
        split; [done |]. split; [done |]. split; [| lia].
        by rewrite delete_insert_id by (by apply absm_notin).
      * destruct (replace_ok s l1 x l2 key d Hi Hkey Hk) as (s' & Hr & Hi').
        rewrite Hr. simpl. exists s', (l1 ++ (x.1, (key, d)) :: l2). split; [done |].
        split; [done |]. rewrite absm_middle by apply Hi'. simpl. rewrite <- Hkey, insert_insert_eq.
        rewrite Zlen_app, Zlen_cons. split; [done | lia].
    + destruct (Z.eqb_spec d 0) as [-> | Hd]; [| destruct ea].
      * unfold sqlite3HashInsert. rewrite (findElement_ok s l key Hrep Hc Hok Hk), Hf. simpl.
        exists s, l. auto with lia.
      * destruct (insert_new_ok s l key d ha Hi Hf Hk Hlt Hd) as (s' & l' & -> & Hi' & a & Hp).
        exists s', l'. split; [done |]. split; [done |].
        split; [rewrite (absm_perm _ _ Hp); [done | apply Hi'] |].
        unfold Zlen. rewrite (Permutation_length Hp). simpl. lia.
      * unfold sqlite3HashInsert. rewrite (findElement_ok s l key Hrep Hc Hok Hk), Hf. simpl.
        rewrite (proj2 (Z.eqb_neq d 0) Hd). exists s, l. auto with lia.
  - rewrite (HashClear_ok _ _ Hi). simpl. exists (mkState ∅ sqlite3HashInit), [].
    split; [done |]. split; [apply inv_init |]. pose proof (Zlen_nonneg l). split; [done |].
    rewrite Zlen_nil. lia.
Qed.

Lemma run_ok os : forall s l, inv s l -> Forall (fun o => cstring (op_key o)) os ->
  Zlen l + Zlen os < 2 ^ 31 ->
  exists s' l', run s os = Some ((spec_run (absm l) os).1, s') /\ inv s' l' /\
    absm l' = (spec_run (absm l) os).2.
Proof using Malloc_fresh MallocSize_ok.
  induction os as [|o os IH]; intros s l Hi Hk Hlt; simpl.
  - eauto.
  - apply Forall_cons in Hk as [Hk Hks]. rewrite Zlen_cons in Hlt. pose proof (Zlen_nonneg os).
    destruct (do_op_ok s l o Hi Hk ltac:(lia)) as (s1 & l1 & -> & Hi1 & Ha1 & Hlen). simpl.
    destruct (IH s1 l1 Hi1 Hks ltac:(lia)) as (s2 & l2 & -> & Hi2 & Ha2). simpl.
    exists s2, l2. destruct (spec_op (absm l) o) as [r M]. simpl in *. subst M.
    destruct (spec_run (absm l1) os) as [rs M]. auto.
Qed.

Lemma absm_size l : NoDup (fkeys l) -> size (absm l) = length l.
Proof.
  induction l as [|x l IH]; intros Hn; [done |].
  apply NoDup_cons in Hn as [Hx Hn]. unfold absm. rewrite fmap_cons. simpl.
  rewrite map_size_insert_None by (by apply (absm_notin (fold_case x.2.1))).
  unfold absm in IH. by rewrite IH.
Qed.

(** C29: the hash table is a map from case-folded strings to data.  Any history of
    searches, insertions, replacements, removals and clearings, whichever
    allocations fail, runs without following a wrong pointer and answers like the
    map: an insertion gives back the old datum, or the new one unchanged when the
    element cannot be allocated; a bucket array that cannot be allocated changes
    nothing.  [count] is the number of keys and the heap holds just as many
    elements, so none is leaked. *)
Theorem Hash_refines_map (os : list op) :
  Forall (fun o => cstring (op_key o)) os -> Zlen os < 2 ^ 31 ->
  exists s, run (mkState ∅ sqlite3HashInit) os = Some ((spec_run ∅ os).1, s) /\
    count (pH s) = Z.of_nat (size (spec_run ∅ os).2) /\
    size (mem s) = size (spec_run ∅ os).2 /\
    (forall key, cstring key -> sqlite3HashFind s key = Some (spec_find (spec_run ∅ os).2 key)).
Proof using Malloc_fresh MallocSize_ok.
  intros Hk Hlt.
  destruct (run_ok os _ [] inv_init Hk ltac:(rewrite Zlen_nil; lia)) as (s & l & Hr & Hi & Ha).
  change (absm []) with (∅ : gmap (list Z) Z) in *.
  exists s. split; [exact Hr |]. rewrite <- Ha.
  pose proof (inv_size _ _ Hi) as Hsz. pose proof Hi as (Hrep & Hc & _ & Hok & Hfk).
  rewrite (absm_size _ Hfk). split; [exact Hc |]. split; [exact Hsz |].
  intros key Hkey. unfold sqlite3HashFind, spec_find.
  rewrite (findElement_ok s l key Hrep Hc Hok Hkey), (absm_lookup _ _ Hfk). simpl.
  destruct (lfind key l) as [x|] eqn:Hf; [| done]. simpl.
  apply lfind_some in Hf as [(l1 & l2 & ->) _]. destruct Hrep as (Hs & _).
  by rewrite (seg_lookup _ _ _ _ _ _ Hs).
Qed.
End Refinement.

(** Twelve keys, which makes the table allocate its buckets, then a replacement
    under another spelling and a removal. *)
Definition sample_ops : list op :=
  ((fun i => Insert [97 + Z.of_nat i; 98] (Z.of_nat i + 1) true true) <$> seq 0 12) ++
  [Insert [65; 66] 50 true true; Insert [99; 66] 0 true true; Find [97; 98]; Find [99; 98];
   Insert [120] 7 false true].

Lemma Hash_refines_map_witness :
  (spec_run ∅ sample_ops).1 = replicate 12 0 ++ [1; 3; 50; 0; 7] /\
  exists s, run fresh (fun n => n) (mkState ∅ sqlite3HashInit) sample_ops
    = Some ((spec_run ∅ sample_ops).1, s) /\
    count (pH s) = Z.of_nat (size (spec_run ∅ sample_ops).2).
Proof.
  split; [vm_compute; reflexivity |].
  destruct (Hash_refines_map fresh (fun n => n) (fun X => is_fresh X) (fun n _ => Z.le_refl n)
              sample_ops) as (s & Hr & Hc & _).
  - apply (bool_decide_unpack (Forall (fun o => cstring (op_key o)) sample_ops)).
    vm_compute. exact I.
  - vm_compute. reflexivity.
  - exists s. split; [exact Hr | exact Hc].
Defined.
