(* ===== verification/SqArith.v ===== *)
(** SQLite's checked 64-bit arithmetic ([src/src/cache/sqlite3.c], part util.c). *)

From S2P Require Import Prelude SqText.

#[local] Open Scope Z_scope.

Definition LARGEST_INT64 : Z := 2 ^ 63 - 1.
Definition SMALLEST_INT64 : Z := - 2 ^ 63.

(** A signed 64-bit operation: [None] when it overflows, which is undefined. *)
Definition chk64 (x : Z) : option Z :=
  if (SMALLEST_INT64 <=? x) && (x <=? LARGEST_INT64) then Some x else None.

Definition int64 (x : Z) : Prop := - 2 ^ 63 <= x < 2 ^ 63.

#[export] Instance int64_dec x : Decision (int64 x).
Proof. unfold int64. apply _. Defined.

(** ** Checked arithmetic: the return code and the new [*pA] *)

Definition sqlite3AddInt64 (iA iB : Z) : option (Z * Z) :=
  if 0 <=? iB then
    d ← chk64 (LARGEST_INT64 - (if 0 <? iA then iA else 0));
    if (0 <? iA) && (d <? iB) then Some (1, iA)
    else r ← chk64 (iA + iB); Some (0, r)
  else
    s ← chk64 (if iA <? 0 then - (iA + LARGEST_INT64) else 0);
    t ← chk64 (iB + 1);
    if (iA <? 0) && (t <? s) then Some (1, iA)
    else r ← chk64 (iA + iB); Some (0, r).

Definition sqlite3SubInt64 (pA iB : Z) : option (Z * Z) :=
  if iB =? SMALLEST_INT64 then
    if 0 <=? pA then Some (1, pA)
    else r ← chk64 (pA - iB); Some (0, r)
  else
    b ← chk64 (- iB);
    sqlite3AddInt64 pA b.

Definition TWOPOWER32 : Z := 2 ^ 32.
Definition TWOPOWER31 : Z := 2 ^ 31.

Definition sqlite3MulInt64 (iA iB : Z) : option (Z * Z) :=
  let iA1 := Z.quot iA TWOPOWER32 in
  let iA0 := Z.rem iA TWOPOWER32 in
  let iB1 := Z.quot iB TWOPOWER32 in
  let iB0 := Z.rem iB TWOPOWER32 in
  (** the high part of the product *)
  let high (r : option Z) :=
    r ← r;
    if (r <? - TWOPOWER31) || (TWOPOWER31 <=? r) then Some (1, iA)
    else
      r ← chk64 (r * TWOPOWER32);
      l ← chk64 (iA0 * iB0);
      '(rc, r) ← sqlite3AddInt64 r l;
      if rc =? 0 then Some (0, r) else Some (1, iA) in
  if iA1 =? 0 then
    if iB1 =? 0 then r ← chk64 (iA * iB); Some (0, r)
    else high (chk64 (iA0 * iB1))
  else if iB1 =? 0 then high (chk64 (iA1 * iB0))
  else Some (1, iA).

Definition sqlite3AbsInt32 (x : Z) : Z :=
  if 0 <=? x then x else if x =? - 2 ^ 31 then 0x7fffffff else - x.

Lemma chk64_ok x : int64 x -> chk64 x = Some x.
Proof. unfold int64, chk64, SMALLEST_INT64, LARGEST_INT64. intros Hx. case_if; [done |].
  apply andb_false_iff in E as [E | E]; bool_to_prop; lia. Qed.

Lemma AddInt64_exact iA iB : int64 iA -> int64 iB ->
  sqlite3AddInt64 iA iB = if decide (int64 (iA + iB)) then Some (0, iA + iB) else Some (1, iA).
Proof.
  intros HA HB. unfold sqlite3AddInt64.
  destruct (Z.leb_spec 0 iB), (Z.ltb_spec 0 iA), (Z.ltb_spec iA 0); try lia;
    rewrite !(chk64_ok (LARGEST_INT64 - _)) || rewrite (chk64_ok (- _)), (chk64_ok (iB + 1))
      || rewrite (chk64_ok 0), (chk64_ok (iB + 1));
    unfold int64, LARGEST_INT64 in *; try lia; cbn [mbind option_bind andb];
    try match goal with |- context [?a <? ?b] => destruct (Z.ltb_spec a b) end;
    case_decide; try lia; try done; rewrite chk64_ok by done; done.
Qed.

Lemma SubInt64_exact iA iB : int64 iA -> int64 iB ->
  sqlite3SubInt64 iA iB = if decide (int64 (iA - iB)) then Some (0, iA - iB) else Some (1, iA).
Proof.
  unfold sqlite3SubInt64. intros HA HB. destruct (Z.eqb_spec iB SMALLEST_INT64) as [-> | Hne].
  - unfold SMALLEST_INT64, int64 in *. case_if.
    + case_decide; [lia | done].
    + rewrite chk64_ok by (unfold int64; lia). simpl. case_decide; [done | lia].
  - unfold SMALLEST_INT64 in Hne. rewrite chk64_ok by (unfold int64 in *; lia). simpl.
    rewrite AddInt64_exact by (unfold int64 in *; lia).
    by replace (iA + - iB) with (iA - iB) by lia.
Qed.

(** Both operands fit in 32 bits and a sign: the product is not checked. *)
Definition mul_unchecked (iA iB : Z) : Prop := Z.abs iA < 2 ^ 32 /\ Z.abs iB < 2 ^ 32.

#[local] Instance mul_unchecked_dec iA iB : Decision (mul_unchecked iA iB).
Proof. unfold mul_unchecked. apply _. Defined.

(** The high and the low part of a 64-bit integer. *)
Lemma split32 x : int64 x ->
  exists h l, Z.quot x TWOPOWER32 = h /\ Z.rem x TWOPOWER32 = l /\ x = h * 2 ^ 32 + l /\
    Z.abs l < 2 ^ 32 /\ - 2 ^ 31 <= h <= 2 ^ 31 /\ (0 < h -> 0 <= l) /\ (h < 0 -> l <= 0) /\
    (h = 0 <-> Z.abs x < 2 ^ 32).
Proof.
  intros Hx. unfold int64 in Hx. exists (Z.quot x TWOPOWER32), (Z.rem x TWOPOWER32).
  unfold TWOPOWER32. pose proof (Z.quot_rem' x (2 ^ 32)) as Hq.
  split; [done |]. split; [done |].
  destruct (Z.leb_spec 0 x).
  - pose proof (Z.rem_bound_pos x (2 ^ 32) ltac:(lia) ltac:(lia)). lia.
  - pose proof (Z.rem_bound_pos (- x) (2 ^ 32) ltac:(lia) ltac:(lia)) as Hr.
    rewrite Z.rem_opp_l in Hr by lia. lia.
Qed.

(** The branch with one operand that fits in 32 bits: [a] is that operand and
    [h], [l] are the parts of the other. *)
Lemma mul_high iA a h l :
  Z.abs a < 2 ^ 32 -> h <> 0 -> - 2 ^ 31 <= h <= 2 ^ 31 -> Z.abs l < 2 ^ 32 ->
  (0 < h -> 0 <= l) -> (h < 0 -> l <= 0) ->
  (r ← chk64 (a * h);
   if (r <? - TWOPOWER31) || (TWOPOWER31 <=? r) then Some (1, iA)
   else r ← chk64 (r * TWOPOWER32); l ← chk64 (a * l);
        '(rc, r) ← sqlite3AddInt64 r l; if rc =? 0 then Some (0, r) else Some (1, iA)) =
  if decide (int64 (a * (h * 2 ^ 32 + l))) then Some (0, a * (h * 2 ^ 32 + l)) else Some (1, iA).
Proof.
  intros Ha Hh Hhb Hl Hp Hn.
  assert (- (2 ^ 32 - 1) * 2 ^ 31 <= a * h <= (2 ^ 32 - 1) * 2 ^ 31) as Hah by nia.
  rewrite (chk64_ok (a * h)) by (unfold int64; lia). unfold TWOPOWER31, TWOPOWER32. cbn [mbind option_bind].
  assert (0 <= (a * h) * (a * l)) as Hsame.
  { replace ((a * h) * (a * l)) with ((a * a) * (h * l)) by lia.
    apply Z.mul_nonneg_nonneg; [nia |]. destruct (Z.leb_spec 0 h); nia. }
  replace (a * (h * 2 ^ 32 + l)) with (a * h * 2 ^ 32 + a * l) by lia.
  set (r := a * h) in *.
  destruct (Z.ltb_spec r (- 2 ^ 31)); cbn [orb].
  { case_decide as E; [| done]. unfold int64 in E. exfalso. nia. }
  destruct (Z.leb_spec (2 ^ 31) r); cbn [orb].
  { case_decide as E; [| done]. unfold int64 in E. exfalso. nia. }
  assert (Z.abs a <= 2 ^ 31) as Ha2 by (unfold r in *; nia).
  assert (int64 (r * 2 ^ 32)) as Hr64 by (unfold int64; lia).
  assert (int64 (a * l)) as Hl64 by (unfold int64; nia).
  rewrite (chk64_ok (r * _)) by done. cbn [mbind option_bind]. rewrite (chk64_ok (a * l)) by done. cbn [mbind option_bind].
  rewrite AddInt64_exact by done. case_decide; done.
Qed.

Lemma MulInt64_exact iA iB : int64 iA -> int64 iB ->
  sqlite3MulInt64 iA iB =
    if decide (int64 (iA * iB)) then Some (0, iA * iB)
    else if decide (mul_unchecked iA iB) then None else Some (1, iA).
Proof.
  intros HA HB. unfold sqlite3MulInt64.
  destruct (split32 iA HA) as (h & l & -> & -> & EA & Hl & Hh & Hp & Hn & H0).
  destruct (split32 iB HB) as (h' & l' & -> & -> & EB & Hl' & Hh' & Hp' & Hn' & H0').
  destruct (Z.eqb_spec h 0) as [Eh | Eh], (Z.eqb_spec h' 0) as [Eh' | Eh'].
  - unfold chk64. unfold int64 at 1, LARGEST_INT64, SMALLEST_INT64.
    rewrite (decide_True (P := mul_unchecked iA iB)) by (unfold mul_unchecked; tauto).
    case_decide as E; case_if; try done; [apply andb_false_iff in E0 as [? | ?] |]; bool_to_prop; lia.
  - rewrite (decide_False (P := mul_unchecked iA iB)) by (unfold mul_unchecked; tauto).
    assert (iA = l) as -> by lia. rewrite (mul_high l l h' l') by (done || lia).
    by rewrite <- EB.
  - rewrite (decide_False (P := mul_unchecked iA iB)) by (unfold mul_unchecked; tauto).
    assert (iB = l') as -> by lia. rewrite (Z.mul_comm h), (Z.mul_comm l).
    rewrite (mul_high iA l' h l) by (done || lia). rewrite <- EA. by rewrite (Z.mul_comm l').
  - rewrite (decide_False (P := mul_unchecked iA iB)) by (unfold mul_unchecked; tauto).
    case_decide as E; [| done]. exfalso. unfold int64 in E.
    assert (2 ^ 32 <= Z.abs iA) by lia. assert (2 ^ 32 <= Z.abs iB) by lia.
    assert (2 ^ 32 * 2 ^ 32 <= Z.abs iA * Z.abs iB) by nia. rewrite <- Z.abs_mul in *. lia.
Qed.

(** The checked 64-bit operations never overflow silently and report exactly
    the results that do not fit, leaving the operand alone, with one exception:
    when both factors are below 2^32 in absolute value the product is not checked,
    and 4294967295 * 4294967295 is computed with an overflow, which is undefined. *)
Theorem Int64_checked (iA iB : Z) (HA : int64 iA) (HB : int64 iB) :
  sqlite3AddInt64 iA iB =
    (if decide (int64 (iA + iB)) then Some (0, iA + iB) else Some (1, iA)) /\
  sqlite3SubInt64 iA iB =
    (if decide (int64 (iA - iB)) then Some (0, iA - iB) else Some (1, iA)) /\
  sqlite3MulInt64 iA iB =
    (if decide (int64 (iA * iB)) then Some (0, iA * iB)
     else if decide (mul_unchecked iA iB) then None else Some (1, iA)) /\
  sqlite3MulInt64 4294967295 4294967295 = None /\
  (- 2 ^ 31 <= iA < 2 ^ 31 -> sqlite3AbsInt32 iA = Z.min (Z.abs iA) (2 ^ 31 - 1)).
Proof.
  split; [by apply AddInt64_exact |]. split; [by apply SubInt64_exact |].
  split; [by apply MulInt64_exact |]. split; [reflexivity |].
  intros H. unfold sqlite3AbsInt32. repeat case_if; lia.
Qed.

Lemma Int64_checked_witness :
  int64 (2 ^ 62) /\ int64 2 /\ sqlite3MulInt64 (2 ^ 62) 2 = Some (1, 2 ^ 62) /\
  sqlite3AddInt64 (2 ^ 62) 2 = Some (0, 2 ^ 62 + 2).
Proof.
  assert (int64 (2 ^ 62)) as HA by (unfold int64; lia). assert (int64 2) as HB by (unfold int64; lia).
  split; [exact HA |]. split; [exact HB |].
  destruct (Int64_checked (2 ^ 62) 2 HA HB) as (Hadd & _ & Hmul & _ & _).
  split; [rewrite Hmul | rewrite Hadd]; reflexivity.
Defined.
