(* ===== verification/SqAtoi.v ===== *)
(** SQLite's reading of integers from text ([src/src/cache/sqlite3.c], part
    util.c). *)

From S2P Require Import Prelude BitReflect SqText SqArith.

#[local] Open Scope Z_scope.

(** ** Decimal text of a given length and encoding

    Encodings are 1 (UTF-8), 2 (UTF-16, low byte first) and 3 (high byte first).
    The pointer [zNum], which advances by [incr] up to [zEnd], is the list of the
    bytes it still visits. *)

Definition units (z : list Z) (zNum zEnd incr : Z) : list Z :=
  (fun k => Znth z (zNum + incr * k)) <$> seqZ 0 ((zEnd - zNum + incr - 1) / incr).

(** [for(i=3-enc; i<length && zNum[i]==0; i+=2){}] *)
Fixpoint u16_scan (fuel : nat) (z : list Z) (length i : Z) : Z :=
  match fuel with
  | O => i
  | S fuel => if (i <? length) && (Znth z i =? 0) then u16_scan fuel z length (i + 2) else i
  end.

Fixpoint skip_while (p : Z -> bool) (z : list Z) : list Z :=
  match z with
  | [] => []
  | c :: r => if p c then skip_while p r else z
  end.

Definition isdigit (c : Z) : bool := (48 <=? c) && (c <=? 57).

(** The digits: how many, their value in 64 bits, the last byte read, and what is
    left. *)
Fixpoint atoi_loop (z : list Z) (i u c : Z) : Z * Z * Z * list Z :=
  match z with
  | [] => (i, u, c, [])
  | x :: r =>
      if isdigit x then atoi_loop r (i + 1) (u64 (u64 (u * 10 + x) - 48)) x else (i, u, x, z)
  end.

Definition pow63 : list Z := lit "922337203685477580".

(** [for(i=0; c==0 && i<18; i++)] *)
Fixpoint pow63_loop (zNum p : list Z) : Z * list Z :=
  match p with
  | [] => (0, zNum)
  | d :: p =>
      let c := (hd 0 zNum - d) * 10 in
      if c =? 0 then pow63_loop (tl zNum) p else (c, tl zNum)
  end.

Definition compare2pow63 (zNum : list Z) : Z :=
  let '(c, zNum) := pow63_loop zNum pow63 in
  if c =? 0 then hd 0 zNum - 56 else c.

(** The function once [zNum], [zEnd] and [nonNum] are set: the return code and
    [*pNum]. *)
Definition atoi64_body (zNum : list Z) (nonNum : bool) : Z * Z :=
  let zNum := skip_while sqlite3Isspace zNum in
  let '(neg, zNum) :=
    match zNum with
    | c :: r => if c =? 45 then (true, r) else if c =? 43 then (false, r) else (false, zNum)
    | [] => (false, zNum)
    end in
  let zStart := zNum in
  let zNum := skip_while (fun c => c =? 48) zNum in
  let '(i, u, c, rest) := atoi_loop zNum 0 0 0 in
  let num :=
    if LARGEST_INT64 <? u then (if neg then SMALLEST_INT64 else LARGEST_INT64)
    else if neg then - u else u in
  if (negb (c =? 0) && (0 <? Zlen rest)) || ((i =? 0) && (Zlen zStart =? Zlen zNum)) ||
     (19 <? i) || nonNum
  then (1, num)
  else if i <? 19 then (0, num)
  else
    let c := compare2pow63 zNum in
    if c <? 0 then (0, num)
    else if 0 <? c then (1, num)
    else if neg then (0, num) else (2, num).

Definition sqlite3Atoi64 (z : list Z) (length enc : Z) : Z * Z :=
  if enc =? 1 then atoi64_body (units z 0 length 1) false
  else
    let i := u16_scan (Z.to_nat length) z length (3 - enc) in
    atoi64_body (units z (Z.land enc 1) (i + enc - 3) 2) (i <? length).

(** ** Literals: zero-terminated, decimal or hexadecimal *)

Definition sqlite3HexToInt (h : Z) : Z :=
  wrap 8 (Z.land (h + 9 * Z.land 1 (Z.shiftr h 6)) 0xf).

Definition sqlite3Strlen30 (z : list Z) : Z := Z.land 0x3fffffff (Zlen z).

(** [z[0]=='0' && (z[1]=='x' || z[1]=='X') && sqlite3Isxdigit(z[2])] *)
Definition hex_prefix (z : list Z) : bool :=
  match z with
  | z0 :: z1 :: z2 :: _ => (z0 =? 48) && ((z1 =? 120) || (z1 =? 88)) && sqlite3Isxdigit z2
  | _ => false
  end.

Fixpoint hex_loop (w : Z) (max : nat) (z : list Z) (k u : Z) : Z * Z * list Z :=
  match max, z with
  | S max, c :: r =>
      if sqlite3Isxdigit c then hex_loop w max r (k + 1) (wrap w (wrap w (u * 16) + sqlite3HexToInt c))
      else (k, u, z)
  | _, _ => (k, u, z)
  end.

Definition sqlite3DecOrHexToI64 (z : list Z) : Z * Z :=
  if hex_prefix z then
    let z := skip_while (fun c => c =? 48) (drop 2 z) in
    let '(k, u, rest) := hex_loop 64 (length z) z 0 0 in
    ((if (Zlen rest =? 0) && (k <=? 16) then 0 else 1), swrap 64 u)
  else sqlite3Atoi64 z (sqlite3Strlen30 z) 1.

(** [for(i=0; i<11 && (c = zNum[i] - '0')>=0 && c<=9; i++)] *)
Fixpoint dec_loop (max : nat) (z : list Z) (i v : Z) : Z * Z :=
  match max, z with
  | S max, c :: r => if isdigit c then dec_loop max r (i + 1) (v * 10 + (c - 48)) else (i, v)
  | _, _ => (i, v)
  end.

(** [Some] of the value when the C function returns 1. *)
Definition sqlite3GetInt32 (z : list Z) : option Z :=
  let decimal (neg : bool) (z : list Z) :=
    let '(i, v) := dec_loop 11 (skip_while (fun c => c =? 48) z) 0 0 in
    if 10 <? i then None
    else if 2147483647 <? v - (if neg then 1 else 0) then None
    else Some (if neg then - v else v) in
  if hd 0 z =? 45 then decimal true (tl z)
  else if hd 0 z =? 43 then decimal false (tl z)
  else if hex_prefix z then
    let '(_, u, rest) := hex_loop 32 8 (skip_while (fun c => c =? 48) (drop 2 z)) 0 0 in
    if (Z.land u 0x80000000 =? 0) && negb (sqlite3Isxdigit (hd 0 rest)) then Some (swrap 32 u)
    else None
  else decimal false z.

(** ** Digits and their values *)

Definition dval (a : Z) (ds : list Z) : Z := fold_left (fun a c => a * 10 + (c - 48)) ds a.
Definition digits (ds : list Z) : Prop := Forall (fun c => isdigit c = true) ds.

(** The list is empty or starts with a byte outside [p]. *)
Definition head_not (p : Z -> bool) (z : list Z) : Prop :=
  match z with [] => True | c :: _ => p c = false end.

Lemma isdigit_range c : isdigit c = true <-> 48 <= c <= 57.
Proof. unfold isdigit. rewrite andb_true_iff, !Z.leb_le. done. Qed.

Lemma dval_acc a ds : dval a ds = a * 10 ^ Zlen ds + dval 0 ds.
Proof.
  revert a. induction ds as [|c ds IH]; intros a; [unfold dval, Zlen; simpl; lia |].
  rewrite Zlen_cons, Z.pow_add_r by (done || lia).
  change (dval a (c :: ds)) with (dval (a * 10 + (c - 48)) ds).
  change (dval 0 (c :: ds)) with (dval (0 * 10 + (c - 48)) ds).
  rewrite (IH (a * 10 + _)), (IH (0 * 10 + _)). lia.
Qed.

Lemma dval_bound ds : digits ds -> 0 <= dval 0 ds < 10 ^ Zlen ds.
Proof.
  induction 1 as [|c ds Hc Hds IH]; [done |]. apply isdigit_range in Hc.
  change (dval 0 (c :: ds)) with (dval (0 * 10 + (c - 48)) ds).
  rewrite dval_acc, Zlen_cons, Z.pow_add_r by (done || lia). nia.
Qed.

Lemma dval_nonneg a ds : 0 <= a -> digits ds -> 0 <= dval a ds.
Proof. intros Ha Hd. rewrite dval_acc. pose proof (dval_bound ds Hd). nia. Qed.

(** A number with a first digit other than zero is at least a power of ten. *)
Lemma dval_lower c ds : digits (c :: ds) -> c <> 48 -> 10 ^ Zlen ds <= dval 0 (c :: ds).
Proof.
  intros [Hc Hd]%Forall_cons H0. apply isdigit_range in Hc.
  change (dval 0 (c :: ds)) with (dval (0 * 10 + (c - 48)) ds).
  rewrite dval_acc. pose proof (dval_bound ds Hd). nia.
Qed.

Lemma skip_while_app p l r : Forall (fun c => p c = true) l -> head_not p r ->
  skip_while p (l ++ r) = r.
Proof.
  intros Hl Hr. induction Hl as [|c l Hc Hl IH]; simpl; [| by rewrite Hc].
  destruct r as [|c r]; [done |]. simpl in *. by rewrite Hr.
Qed.

(** Leading zeros and what follows them. *)
Lemma split_zeros ds : digits ds -> exists zs sig,
  ds = zs ++ sig /\ Forall (fun c => (c =? 48) = true) zs /\ digits sig /\
  head_not (fun c => c =? 48) sig /\ dval 0 sig = dval 0 ds.
Proof.
  induction 1 as [|c ds Hc Hds IH].
  - exists [], []. repeat constructor.
  - destruct (Z.eqb_spec c 48) as [-> | Hne].
    + destruct IH as (zs & sig & -> & Hz & Hs & Hh & Hv). exists (48 :: zs), sig.
      split; [done |]. split; [by constructor |]. done.
    + exists [], (c :: ds). repeat split; try by constructor. simpl. by apply Z.eqb_neq.
Qed.

Lemma head_zero_app sig tl : digits sig -> head_not (fun c => c =? 48) sig -> head_not isdigit tl ->
  head_not (fun c => c =? 48) (sig ++ tl).
Proof.
  intros _ Hs Ht. destruct sig; [| done]. destruct tl as [|c tl]; [done |]. simpl in *.
  unfold isdigit in Ht. apply Z.eqb_neq. intros ->. done.
Qed.

Lemma u64_step u x : u64 (u64 (u64 u * 10 + x) - 48) = u64 (u * 10 + (x - 48)).
Proof.
  unfold wrap. rewrite Zminus_mod_idemp_l.
  replace (u mod 2 ^ 64 * 10 + x - 48) with (u mod 2 ^ 64 * 10 + (x - 48)) by lia.
  rewrite <- Zplus_mod_idemp_l, Zmult_mod_idemp_l, Zplus_mod_idemp_l. done.
Qed.

Lemma atoi_loop_ok ds : forall tl i u c, digits ds -> head_not isdigit tl ->
  exists c', atoi_loop (ds ++ tl) i (u64 u) c = (i + Zlen ds, u64 (dval u ds), c', tl) /\
    (tl <> [] -> c' = hd 0 tl).
Proof.
  induction ds as [|x ds IH]; intros tl i u c Hd Ht.
  - rewrite Zlen_nil, Z.add_0_r. destruct tl as [|x tl]; [by exists c |].
    simpl in *. rewrite Ht. by exists x.
  - apply Forall_cons in Hd as [Hx Hd]. simpl. rewrite Hx, u64_step.
    destruct (IH tl (i + 1) (u * 10 + (x - 48)) x Hd Ht) as (c' & -> & Hc). exists c'.
    split; [| done]. rewrite Zlen_cons. do 3 f_equal. lia.
Qed.

(** The comparison with 2^63, digit by digit. *)
Lemma pow63_loop_ok p : forall z tl a, digits p -> digits z -> length z = length p ->
  (pow63_loop (z ++ tl) p = (0, tl) /\ dval a z = dval a p) \/
  (exists c r, pow63_loop (z ++ tl) p = (c, r) /\ c < 0 /\ dval a z < dval a p) \/
  (exists c r, pow63_loop (z ++ tl) p = (c, r) /\ 0 < c /\ dval a p < dval a z).
Proof.
  induction p as [|d p IH]; intros [|x z] tl a Hp Hz Hl; try done; [by left |].
  apply Forall_cons in Hp as [Hd Hp]. apply Forall_cons in Hz as [Hx Hz]. injection Hl as Hl.
  apply isdigit_range in Hd, Hx. simpl.
  change (fold_left _ ?l ?b) with (dval b l).
  destruct (Z.eqb_spec ((x - d) * 10) 0).
  - assert (x = d) as -> by lia. apply IH; done.
  - right. rewrite (dval_acc (a * 10 + (x - 48)) z), (dval_acc (a * 10 + (d - 48)) p).
    assert (Zlen z = Zlen p) as -> by (unfold Zlen; lia).
    pose proof (dval_bound p Hp). pose proof (dval_bound z Hz) as Hzb.
    assert (Zlen z = Zlen p) as Hzl by (unfold Zlen; lia). rewrite Hzl in Hzb.
    destruct (Z.lt_total x d) as [Hlt | [-> | Hgt]]; [left | lia | right];
      (do 2 eexists; split; [reflexivity | nia]).
Qed.

Lemma compare2pow63_ok z tl : digits z -> Zlen z = 19 ->
  Z.compare (compare2pow63 (z ++ tl)) 0 = Z.compare (dval 0 z) (2 ^ 63).
Proof.
  intros Hz Hl. unfold compare2pow63.
  destruct z as [|x z _] using rev_ind; [done |]. rewrite Zlen_app, Zlen_cons, Zlen_nil in Hl.
  apply Forall_app in Hz as [Hz [Hx _]%Forall_cons]. apply isdigit_range in Hx.
  assert (dval 0 (z ++ [x]) = dval 0 z * 10 + (x - 48)) as -> by (unfold dval; by rewrite fold_left_app).
  rewrite <- app_assoc.
  assert (dval 0 pow63 = 922337203685477580) as Hp by reflexivity.
  destruct (pow63_loop_ok pow63 z ([x] ++ tl) 0) as [[-> E] | [(c & r & -> & Hc & E) | (c & r & -> & Hc & E)]].
  - repeat constructor.
  - done.
  - unfold Zlen in Hl. simpl. lia.
  - simpl hd. rewrite Hp in E. rewrite Z.eqb_refl, E.
    destruct (Z.compare_spec (x - 56) 0), (Z.compare_spec (922337203685477580 * 10 + (x - 48)) (2 ^ 63)); lia || done.
  - rewrite Hp in E. destruct (Z.eqb_spec c 0); [lia |].
    transitivity Lt; [by apply Z.compare_lt_iff | symmetry; apply Z.compare_lt_iff; lia].
  - rewrite Hp in E. destruct (Z.eqb_spec c 0); [lia |].
    transitivity Gt; [by apply Z.compare_gt_iff | symmetry; apply Z.compare_gt_iff; lia].
Qed.

(** ** Decimal text *)

(** The text of a number: spaces, a sign, digits, and what follows them. *)
Record numeral := mkNumeral {
  spaces : list Z;
  sign : list Z;
  digs : list Z;
  tail_ : list Z;
}.

Definition text (n : numeral) : list Z := spaces n ++ sign n ++ digs n ++ tail_ n.

Definition space_or_sign (c : Z) : bool := sqlite3Isspace c || (c =? 45) || (c =? 43).

Definition numeral_ok (n : numeral) : Prop :=
  Forall (fun c => sqlite3Isspace c = true) (spaces n) /\ sign n ∈ [[]; [45]; [43]] /\
  digits (digs n) /\ head_not isdigit (tail_ n) /\
  (sign n = [] -> digs n = [] -> head_not space_or_sign (tail_ n)).

Definition is_neg (n : numeral) : bool := bool_decide (sign n = [45]).
Definition value (n : numeral) : Z := if is_neg n then - dval 0 (digs n) else dval 0 (digs n).

(** There are digits, and nothing but a zero byte ends them. *)
Definition pure (n : numeral) : bool :=
  negb (bool_decide (digs n = [])) && (hd 0 (tail_ n) =? 0).

Definition atoi64_code (n : numeral) : Z :=
  if negb (pure n) then 1
  else if decide (int64 (value n)) then 0 else if value n =? 2 ^ 63 then 2 else 1.

Lemma digit_not_space c : isdigit c = true -> space_or_sign c = false.
Proof.
  rewrite isdigit_range. intros Hc.
  pose proof (byte_forall (fun c => negb (isdigit c) || negb (space_or_sign c))
    ltac:(vm_compute; reflexivity) c ltac:(lia)) as H.
  cbv beta in H. apply isdigit_range in Hc. rewrite Hc in H. simpl in H. by apply negb_true_iff in H.
Qed.

(** Up to the digits. *)
Lemma skip_to_sign n : numeral_ok n ->
  skip_while sqlite3Isspace (text n) = sign n ++ digs n ++ tail_ n /\
  match sign n ++ digs n ++ tail_ n with
  | c :: r => if c =? 45 then (true, r) else if c =? 43 then (false, r)
              else (false, sign n ++ digs n ++ tail_ n)
  | [] => (false, sign n ++ digs n ++ tail_ n)
  end = (is_neg n, digs n ++ tail_ n).
Proof.
  intros (Hsp & Hsg & Hd & Ht & Hno). unfold text.
  assert (sign n = [] -> head_not space_or_sign (digs n ++ tail_ n)) as Hh.
  { intros Hs. destruct (digs n) as [|c ds]; [by apply Hno |]. apply Forall_cons in Hd as [Hc _].
    by apply digit_not_space. }
  split.
  - apply skip_while_app; [done |]. rewrite !elem_of_cons, elem_of_nil in Hsg.
    destruct Hsg as [Hs | [-> | [-> | []]]]; [| done | done]. specialize (Hh Hs). rewrite Hs.
    simpl. destruct (digs n ++ tail_ n); [done |]. simpl in *. unfold space_or_sign in Hh.
    by apply orb_false_iff in Hh as [[H _]%orb_false_iff _].
  - unfold is_neg. rewrite !elem_of_cons, elem_of_nil in Hsg.
    destruct Hsg as [Hs | [-> | [-> | []]]]; [| done | done]. rewrite Hs. simpl.
    specialize (Hh Hs). destruct (digs n ++ tail_ n) as [|c r]; [done |]. simpl in Hh.
    unfold space_or_sign in Hh. apply orb_false_iff in Hh as [[_ H1]%orb_false_iff H2].
    by rewrite H1, H2.
Qed.

Lemma atoi64_body_ok n : numeral_ok n ->
  (atoi64_body (text n) false).1 = atoi64_code n /\
  (atoi64_code n = 0 -> (atoi64_body (text n) false).2 = value n) /\
  (atoi64_code n = 2 -> (atoi64_body (text n) false).2 = LARGEST_INT64).
Proof.
  intros Hok. pose proof Hok as (_ & _ & Hd & Ht & _). unfold atoi64_body.
  destruct (skip_to_sign n Hok) as [-> ->]. unfold atoi64_code, pure, value.
  destruct (split_zeros _ Hd) as (zs & sig & Hzs & Hz & Hsig & Hh & Hv).
  rewrite <- Hv.
  assert (digs n ++ tail_ n = zs ++ sig ++ tail_ n) as -> by (rewrite Hzs; by rewrite <- app_assoc).
  rewrite (skip_while_app (fun c => c =? 48) zs (sig ++ tail_ n) Hz (head_zero_app _ _ Hsig Hh Ht)).
  destruct (atoi_loop_ok sig (tail_ n) 0 0 0 Hsig Ht) as (c & Hloop & Hc).
  change (u64 0) with 0 in Hloop. rewrite Hloop.
  rewrite !Zlen_app. rewrite Z.add_0_l.
  pose proof (dval_bound sig Hsig) as Hb. pose proof (Zlen_nonneg sig) as Hl.
  assert (bool_decide (digs n = []) = (Zlen sig =? 0) && (Zlen zs + (Zlen sig + Zlen (tail_ n)) =? Zlen sig + Zlen (tail_ n))) as He.
  { rewrite Hzs. destruct zs as [|z zs], sig as [|s sig];
      [rewrite bool_decide_eq_true_2 by done | rewrite bool_decide_eq_false_2 by done ..];
      repeat match goal with |- context [?a =? ?b] => destruct (Z.eqb_spec a b) end;
      try done; unfold Zlen in *; simpl in *; lia. }
  assert (negb (c =? 0) && (0 <? Zlen (tail_ n)) = negb (hd 0 (tail_ n) =? 0)) as Hnum.
  { destruct (tail_ n) as [|x tl]; [by rewrite andb_false_r |]. rewrite Hc by done. simpl.
    destruct (Z.ltb_spec 0 (Zlen (x :: tl))); [by rewrite andb_true_r | unfold Zlen in *; simpl in *; lia]. }
  rewrite Hnum, He, negb_andb, negb_involutive, orb_false_r.
  rewrite (orb_comm (_ && _) (negb (hd _ _ =? 0))).
  destruct (negb _ || _) eqn:Hpure; [done |]. simpl.
  assert (Zlen sig <= 19 -> u64 (dval 0 sig) = dval 0 sig) as Hu.
  { intros H19. apply wrap_small. split; [lia |].
    pose proof (Z.pow_le_mono_r 10 (Zlen sig) 19). lia. }
  destruct (Z.ltb_spec 19 (Zlen sig)) as [H20 | H19]; simpl.
  { destruct sig as [|s sig]; [rewrite Zlen_nil in H20; lia |].
    pose proof (dval_lower s sig Hsig) as Hlow. simpl in Hh. apply Z.eqb_neq in Hh.
    specialize (Hlow Hh). rewrite Zlen_cons in H20.
    pose proof (Z.pow_le_mono_r 10 19 (Zlen sig) ltac:(lia) ltac:(lia)).
    unfold int64. rewrite decide_False by (destruct (is_neg n); lia).
    destruct (Z.eqb_spec (if is_neg n then - dval 0 (s :: sig) else dval 0 (s :: sig)) (2 ^ 63));
      [destruct (is_neg n); lia | done]. }
  rewrite Hu by done. unfold LARGEST_INT64, SMALLEST_INT64, int64.
  destruct (Z.ltb_spec (Zlen sig) 19) as [H18 | H18].
  - pose proof (Z.pow_le_mono_r 10 (Zlen sig) 18 ltac:(lia) ltac:(lia)).
    rewrite decide_True by (destruct (is_neg n); lia).
    destruct (Z.ltb_spec (2 ^ 63 - 1) (dval 0 sig)); [lia |]. simpl. split; [done | split; done].
  - pose proof (compare2pow63_ok sig (tail_ n) Hsig ltac:(lia)) as Hcmp.
    destruct (Z.ltb_spec (compare2pow63 (sig ++ tail_ n)) 0);
      [| destruct (Z.ltb_spec 0 (compare2pow63 (sig ++ tail_ n)))];
      destruct (Z.compare_spec (compare2pow63 (sig ++ tail_ n)) 0),
        (Z.compare_spec (dval 0 sig) (2 ^ 63)); try done; try lia; simpl;
      destruct (Z.ltb_spec (2 ^ 63 - 1) (dval 0 sig)); try lia;
      destruct (is_neg n); repeat case_decide; try lia;
      repeat match goal with |- context [?a =? ?b] => destruct (Z.eqb_spec a b) end;
      simpl; split_and!; try done; lia.
Qed.

(** ** Encodings *)

Fixpoint utf16le (s : list Z) : list Z :=
  match s with [] => [] | c :: s => c :: 0 :: utf16le s end.
Fixpoint utf16be (s : list Z) : list Z :=
  match s with [] => [] | c :: s => 0 :: c :: utf16be s end.

Definition encode (enc : Z) (s : list Z) : list Z :=
  if enc =? 1 then s else if enc =? 2 then utf16le s else utf16be s.

Lemma Znth_0 c z : Znth (c :: z) 0 = c.
Proof. done. Qed.

Lemma Znth_succ c z k : 0 <= k -> Znth (c :: z) (k + 1) = Znth z k.
Proof. intros Hk. unfold Znth. by replace (Z.to_nat (k + 1)) with (S (Z.to_nat k)) by lia. Qed.

Lemma units_step z p e w : 0 <= p -> 0 < w -> p < e ->
  units z p e w = Znth z p :: units z (p + w) e w.
Proof.
  intros Hp Hw He. unfold units.
  replace ((e - p + w - 1) / w) with ((e - (p + w) + w - 1) / w + 1)
    by (rewrite <- Z.div_add by lia; f_equal; lia).
  rewrite seqZ_cons by (pose proof (Z.div_pos (e - (p + w) + w - 1) w); lia).
  rewrite fmap_cons. f_equal; [f_equal; lia |].
  replace (Z.succ 0) with (0 + 1) by done. rewrite Z.pred_succ || idtac.
  replace (Z.pred ((e - (p + w) + w - 1) / w + 1)) with ((e - (p + w) + w - 1) / w) by lia.
  rewrite <- (fmap_add_seqZ 1 0), <- list_fmap_compose. apply list_fmap_ext.
  intros i k _. simpl. f_equal. lia.
Qed.

Lemma units_end z p e w : 0 < w -> e <= p -> units z p e w = [].
Proof.
  intros Hw He. unfold units. rewrite seqZ_nil; [done |].
  assert ((e - p + w - 1) / w < 1); [| lia]. apply Z.div_lt_upper_bound; lia.
Qed.

(** Skipping bytes in front. *)
Lemma units_skip pre z p e w : 0 <= p -> 0 < w ->
  units (pre ++ z) (Zlen pre + p) (Zlen pre + e) w = units z p e w.
Proof.
  intros Hp Hw. unfold units.
  replace (Zlen pre + e - (Zlen pre + p) + w - 1) with (e - p + w - 1) by lia.
  apply list_fmap_ext. intros i k Hk. apply lookup_seqZ in Hk as [-> _]. unfold Znth, Zlen.
  rewrite app_nth2 by lia. f_equal. lia.
Qed.

Lemma units_utf8 s rest : units (s ++ rest) 0 (Zlen s) 1 = s.
Proof.
  induction s as [|c s IH]; [by apply units_end |].
  rewrite Zlen_cons, units_step by (pose proof (Zlen_nonneg s); lia). f_equal.
  replace (Zlen s + 1) with (Zlen [c] + Zlen s) by (rewrite Zlen_cons, Zlen_nil; lia).
  change (0 + 1) with (Zlen [c] + 0). change ((c :: s) ++ rest) with ([c] ++ (s ++ rest)).
  rewrite units_skip by lia. apply IH.
Qed.

Lemma Zlen_utf16 s : Zlen (utf16le s) = 2 * Zlen s /\ Zlen (utf16be s) = 2 * Zlen s.
Proof.
  induction s as [|c s [IH1 IH2]]; [done |]. simpl utf16le. simpl utf16be.
  rewrite !Zlen_cons. lia.
Qed.

Lemma units_utf16le s rest : units (utf16le s ++ rest) 0 (2 * Zlen s) 2 = s.
Proof.
  induction s as [|c s IH]; [by apply units_end |].
  rewrite Zlen_cons, units_step by (pose proof (Zlen_nonneg s); lia). f_equal.
  replace (2 * (Zlen s + 1)) with (Zlen [c; 0] + 2 * Zlen s) by (rewrite !Zlen_cons, Zlen_nil; lia).
  change (0 + 2) with (Zlen [c; 0] + 0).
  change (utf16le (c :: s) ++ rest) with ([c; 0] ++ (utf16le s ++ rest)).
  rewrite units_skip by lia. apply IH.
Qed.

Lemma units_utf16be s rest : units (utf16be s ++ rest) 1 (2 * Zlen s) 2 = s.
Proof.
  induction s as [|c s IH]; [by apply units_end |].
  rewrite Zlen_cons, units_step by (pose proof (Zlen_nonneg s); lia). f_equal.
  replace (2 * (Zlen s + 1)) with (Zlen [0; c] + 2 * Zlen s) by (rewrite !Zlen_cons, Zlen_nil; lia).
  change (1 + 2) with (Zlen [0; c] + 1).
  change (utf16be (c :: s) ++ rest) with ([0; c] ++ (utf16be s ++ rest)).
  rewrite units_skip by lia. apply IH.
Qed.

(** The scan for a non-zero high byte reaches the end. *)
Lemma u16_scan_end z len h n : forall fuel i,
  (forall k, 0 <= k < n -> Znth z (h + 2 * k) = 0) -> h + 2 * (n - 1) < len -> len <= h + 2 * n ->
  0 <= i <= n -> (Z.to_nat (n - i) <= fuel)%nat -> u16_scan fuel z len (h + 2 * i) = h + 2 * n.
Proof.
  induction fuel as [|fuel IH]; intros i Hz Hl1 Hl2 Hi Hf; simpl.
  - replace i with n by lia. done.
  - destruct (Z.ltb_spec (h + 2 * i) len); simpl; [| f_equal; lia].
    rewrite Hz by lia. simpl. replace (h + 2 * i + 2) with (h + 2 * (i + 1)) by lia.
    apply IH; [done | done | done | lia | lia].
Qed.

Lemma utf16le_high s rest k : 0 <= k < Zlen s -> Znth (utf16le s ++ rest) (1 + 2 * k) = 0.
Proof.
  revert k. induction s as [|c s IH]; intros k Hk; [unfold Zlen in Hk; simpl in Hk; lia |].
  rewrite Zlen_cons in Hk. simpl. destruct (Z.eq_dec k 0) as [-> | Hne]; [done |].
  replace (1 + 2 * k) with (1 + 2 * (k - 1) + 1 + 1) by lia.
  rewrite !Znth_succ by lia. apply IH. lia.
Qed.

Lemma utf16be_high s rest k : 0 <= k < Zlen s -> Znth (utf16be s ++ rest) (0 + 2 * k) = 0.
Proof.
  revert k. induction s as [|c s IH]; intros k Hk; [unfold Zlen in Hk; simpl in Hk; lia |].
  rewrite Zlen_cons in Hk. destruct (Z.eq_dec k 0) as [-> | Hne]; [done |].
  change (utf16be (c :: s) ++ rest) with (0 :: c :: (utf16be s ++ rest)).
  replace (0 + 2 * k) with (0 + 2 * (k - 1) + 1 + 1) by lia.
  rewrite !Znth_succ by lia. apply IH. lia.
Qed.

Lemma Atoi64_units enc s rest : enc ∈ [1; 2; 3] ->
  sqlite3Atoi64 (encode enc s ++ rest) (Zlen (encode enc s)) enc = atoi64_body s false.
Proof.
  rewrite !elem_of_cons, elem_of_nil. pose proof (Zlen_utf16 s) as [Hle Hbe].
  pose proof (Zlen_nonneg s) as Hs.
  intros [-> | [-> | [-> | []]]]; unfold sqlite3Atoi64, encode; cbv [Z.eqb Pos.eqb].
  - by rewrite units_utf8.
  - rewrite Hle. change (3 - 2) with (1 + 2 * 0).
    rewrite (u16_scan_end _ _ 1 (Zlen s)); [| intros k Hk; by apply utf16le_high | lia ..].
    replace (1 + 2 * Zlen s + 2 - 3) with (2 * Zlen s) by lia. change (Z.land 2 1) with 0.
    rewrite units_utf16le. destruct (Z.ltb_spec (1 + 2 * Zlen s) (2 * Zlen s)); [lia | done].
  - rewrite Hbe. change (3 - 3) with (0 + 2 * 0).
    rewrite (u16_scan_end _ _ 0 (Zlen s)); [| intros k Hk; by apply utf16be_high | lia ..].
    replace (0 + 2 * Zlen s + 3 - 3) with (2 * Zlen s) by lia. change (Z.land 3 1) with 1.
    rewrite units_utf16be. destruct (Z.ltb_spec (0 + 2 * Zlen s) (2 * Zlen s)); [lia | done].
Qed.

(** ** Hexadecimal and 32-bit literals *)

Definition hval (a : Z) (hs : list Z) : Z := fold_left (fun a c => a * 16 + sqlite3HexToInt c) hs a.
Definition xdigits (hs : list Z) : Prop :=
  Forall (fun c => 0 <= c < 256 /\ sqlite3Isxdigit c = true) hs.

(** The value of a hexadecimal digit. *)
Definition xvalue (c : Z) : Z :=
  if isdigit c then c - 48 else if 97 <=? c then c - 87 else c - 55.

Lemma HexToInt_value c : 0 <= c < 256 -> sqlite3Isxdigit c = true ->
  sqlite3HexToInt c = xvalue c /\ 0 <= xvalue c < 16.
Proof.
  intros Hc Hx.
  pose proof (byte_forall (fun c => negb (sqlite3Isxdigit c) ||
    ((sqlite3HexToInt c =? xvalue c) && (0 <=? xvalue c) && (xvalue c <? 16)))
    ltac:(vm_compute; reflexivity) c Hc) as H.
  cbv beta in H. rewrite Hx in H. simpl in H. bool_to_prop. lia.
Qed.

Lemma hval_acc a hs : hval a hs = a * 16 ^ Zlen hs + hval 0 hs.
Proof.
  revert a. induction hs as [|c hs IH]; intros a; [unfold hval, Zlen; simpl; lia |].
  rewrite Zlen_cons, Z.pow_add_r by (done || lia).
  change (hval a (c :: hs)) with (hval (a * 16 + sqlite3HexToInt c) hs).
  change (hval 0 (c :: hs)) with (hval (0 * 16 + sqlite3HexToInt c) hs).
  rewrite (IH (a * 16 + _)), (IH (0 * 16 + _)). lia.
Qed.

Lemma hval_bound hs : xdigits hs -> 0 <= hval 0 hs < 16 ^ Zlen hs.
Proof.
  induction 1 as [|c hs [Hc Hx] Hhs IH]; [done |]. destruct (HexToInt_value c Hc Hx) as [He Hb].
  change (hval 0 (c :: hs)) with (hval (0 * 16 + sqlite3HexToInt c) hs).
  rewrite hval_acc, Zlen_cons, Z.pow_add_r by (done || lia). nia.
Qed.

Lemma hval_lower c hs : xdigits (c :: hs) -> c <> 48 -> 16 ^ Zlen hs <= hval 0 (c :: hs).
Proof.
  intros [[Hc Hx] Hhs]%Forall_cons H0. destruct (HexToInt_value c Hc Hx) as [He Hb].
  change (hval 0 (c :: hs)) with (hval (0 * 16 + sqlite3HexToInt c) hs).
  rewrite hval_acc. pose proof (hval_bound hs Hhs).
  assert (1 <= sqlite3HexToInt c); [| nia].
  pose proof (byte_forall (fun c => negb (sqlite3Isxdigit c) || (c =? 48) || (1 <=? sqlite3HexToInt c))
    ltac:(vm_compute; reflexivity) c Hc) as H1.
  cbv beta in H1. rewrite Hx in H1. destruct (Z.eqb_spec c 48); [done |]. simpl in H1. by bool_to_prop.
Qed.

Lemma split_xzeros hs : xdigits hs -> exists zs sig,
  hs = zs ++ sig /\ Forall (fun c => (c =? 48) = true) zs /\ xdigits sig /\
  head_not (fun c => c =? 48) sig /\ hval 0 sig = hval 0 hs.
Proof.
  induction 1 as [|c hs Hc Hds IH].
  - exists [], []. repeat constructor.
  - destruct (Z.eqb_spec c 48) as [-> | Hne].
    + destruct IH as (zs & sig & -> & Hz & Hs & Hh & Hv). exists (48 :: zs), sig.
      split; [done |]. split; [by constructor |]. done.
    + exists [], (c :: hs). repeat split; try by constructor. simpl. by apply Z.eqb_neq.
Qed.

Lemma hex_loop_ok w hs : 0 <= w -> forall max tl k u, xdigits hs -> head_not sqlite3Isxdigit tl ->
  hex_loop w max (hs ++ tl) k (wrap w u) =
    (k + Zlen (take max hs), wrap w (hval u (take max hs)), drop max hs ++ tl).
Proof.
  intros Hw. induction hs as [|c hs IH]; intros max tl k u Hh Ht.
  - rewrite take_nil, drop_nil, Zlen_nil, Z.add_0_r. simpl.
    destruct max, tl as [|x tl]; try done. simpl in *. by rewrite Ht.
  - apply Forall_cons in Hh as [[_ Hc] Hh]. destruct max as [|max]; simpl.
    + rewrite Zlen_nil, Z.add_0_r. done.
    + rewrite Hc. unfold wrap at 1 2 3. rewrite Zplus_mod_idemp_l.
      replace (u mod 2 ^ w * 16) with (16 * (u mod 2 ^ w)) by lia.
      rewrite <- Zplus_mod_idemp_l, Zmult_mod_idemp_r, Zplus_mod_idemp_l.
      replace (16 * u + sqlite3HexToInt c) with (u * 16 + sqlite3HexToInt c) by lia.
      change ((u * 16 + sqlite3HexToInt c) mod 2 ^ w) with (wrap w (u * 16 + sqlite3HexToInt c)).
      rewrite (IH max tl (k + 1) _ Hh Ht), Zlen_cons. f_equal. f_equal. lia.
Qed.

Lemma xdigit_zero_app sig tl : head_not (fun c => c =? 48) sig -> head_not sqlite3Isxdigit tl ->
  head_not (fun c => c =? 48) (sig ++ tl).
Proof.
  intros Hs Ht. destruct sig; [| done]. destruct tl as [|c tl]; [done |]. simpl in *.
  apply Z.eqb_neq. by intros ->.
Qed.

(** A hexadecimal literal. *)
Definition hex_text (x : Z) (hs tl : list Z) : list Z := 48 :: x :: hs ++ tl.

Definition hex_ok (x : Z) (hs tl : list Z) : Prop :=
  x ∈ [120; 88] /\ hs <> [] /\ xdigits hs /\ head_not sqlite3Isxdigit tl.

Lemma hex_prefix_ok x hs tl : hex_ok x hs tl -> hex_prefix (hex_text x hs tl) = true.
Proof.
  intros (Hx & Hne & Hh & _). destruct hs as [|c hs]; [done |].
  apply Forall_cons in Hh as [[_ Hc] _]. simpl. rewrite Hc.
  rewrite !elem_of_cons, elem_of_nil in Hx. by destruct Hx as [-> | [-> | []]].
Qed.

Lemma sign_bit u : 0 <= u < 2 ^ 32 -> (Z.land u 0x80000000 =? 0) = (u <? 2 ^ 31).
Proof.
  intros Hu. replace (Z.land u 0x80000000) with (Z.shiftl (Z.shiftr u 31) 31) by bitwise.
  rewrite Z.shiftl_mul_pow2, Z.shiftr_div_pow2 by lia.
  destruct (Z.ltb_spec u (2 ^ 31)).
  - by rewrite Z.div_small by lia.
  - apply Z.eqb_neq. assert (1 <= u / 2 ^ 31) by (apply Z.div_le_lower_bound; lia). lia.
Qed.

Lemma GetInt32_hex x hs tl : hex_ok x hs tl ->
  sqlite3GetInt32 (hex_text x hs tl) =
    if decide (hval 0 hs < 2 ^ 31) then Some (hval 0 hs) else None.
Proof.
  intros Hok. unfold sqlite3GetInt32. rewrite (hex_prefix_ok _ _ _ Hok).
  destruct Hok as (_ & _ & Hh & Ht).
  destruct (split_xzeros hs Hh) as (zs & sig & -> & Hz & Hs & Hhd & <-).
  replace (hd 0 (hex_text x (zs ++ sig) tl) =? 45) with false by done.
  replace (hd 0 (hex_text x (zs ++ sig) tl) =? 43) with false by done.
  unfold hex_text. simpl drop. rewrite drop_0.
  rewrite <- app_assoc.
  rewrite (skip_while_app (fun c => c =? 48) zs _ Hz (xdigit_zero_app _ _ Hhd Ht)).
  pose proof (hex_loop_ok 32 sig ltac:(lia) 8 tl 0 0 Hs Ht) as Hl. change (wrap 32 0) with 0 in Hl.
  rewrite Hl, sign_bit by (apply wrap_range; lia).
  pose proof (hval_bound sig Hs) as Hb. pose proof (Zlen_nonneg sig).
  destruct (Z.leb_spec (Zlen sig) 8) as [H8 | H8].
  - rewrite take_ge, drop_ge by (unfold Zlen in *; lia). simpl app.
    pose proof (Z.pow_le_mono_r 16 (Zlen sig) 8 ltac:(lia) ltac:(lia)).
    rewrite wrap_small by lia.
    assert (sqlite3Isxdigit (hd 0 tl) = false) as -> by (by destruct tl).
    rewrite andb_true_r. destruct (Z.ltb_spec (hval 0 sig) (2 ^ 31)); case_decide; try lia; [| done].
    by rewrite swrap_small by lia.
  - destruct (drop 8 sig) as [|c r] eqn:Ed.
    { apply (f_equal length) in Ed. rewrite length_drop in Ed. unfold Zlen in *. simpl in *. lia. }
    assert (sqlite3Isxdigit c = true) as Hc.
    { assert (xdigits (drop 8 sig)) as Hd by (by apply Forall_drop). rewrite Ed in Hd.
      by apply Forall_cons in Hd as [[_ Hc] _]. }
    simpl hd. rewrite Hc. simpl negb. rewrite andb_false_r.
    destruct sig as [|s sig]; [done |]. simpl in Hhd. apply Z.eqb_neq in Hhd.
    pose proof (hval_lower s sig Hs Hhd). rewrite Zlen_cons in H8.
    pose proof (Z.pow_le_mono_r 16 8 (Zlen sig) ltac:(lia) ltac:(lia)). case_decide; [lia | done].
Qed.

Lemma DecOrHex_hex x hs tl : hex_ok x hs tl ->
  sqlite3DecOrHexToI64 (hex_text x hs tl) =
    (if decide (tl = [] /\ hval 0 hs < 2 ^ 64) then 0 else 1, swrap 64 (wrap 64 (hval 0 hs))).
Proof.
  intros Hok. unfold sqlite3DecOrHexToI64. rewrite (hex_prefix_ok _ _ _ Hok).
  destruct Hok as (_ & _ & Hh & Ht).
  destruct (split_xzeros hs Hh) as (zs & sig & -> & Hz & Hs & Hhd & <-).
  unfold hex_text. simpl drop. rewrite drop_0, <- app_assoc.
  rewrite (skip_while_app (fun c => c =? 48) zs _ Hz (xdigit_zero_app _ _ Hhd Ht)).
  pose proof (hex_loop_ok 64 sig ltac:(lia) (length (sig ++ tl)) tl 0 0 Hs Ht) as Hl.
  change (wrap 64 0) with 0 in Hl. rewrite length_app in *.
  rewrite Hl, take_ge, drop_ge by lia. simpl app. f_equal.
  pose proof (hval_bound sig Hs) as Hb. pose proof (Zlen_nonneg sig).
  destruct tl as [|c tl]; cycle 1.
  { rewrite decide_False by (by intros [? _]).
    destruct (Z.eqb_spec (Zlen (c :: tl)) 0); [unfold Zlen in *; simpl in *; lia | done]. }
  change (Zlen [] =? 0) with true. rewrite andb_true_l, Z.add_0_l.
  destruct (Z.leb_spec (Zlen sig) 16).
  - pose proof (Z.pow_le_mono_r 16 (Zlen sig) 16 ltac:(lia) ltac:(lia)).
    rewrite decide_True; [done |]. split; [done | lia].
  - destruct sig as [|s sig]; [done |]. simpl in Hhd. apply Z.eqb_neq in Hhd.
    pose proof (hval_lower s sig Hs Hhd) as Hlow. rewrite Zlen_cons in *.
    pose proof (Z.pow_le_mono_r 16 16 (Zlen sig) ltac:(lia) ltac:(lia)).
    rewrite decide_False; [done |]. intros [_ H3]. lia.
Qed.

Lemma dec_loop_ok ds : forall max tl i v, digits ds -> head_not isdigit tl ->
  dec_loop max (ds ++ tl) i v = (i + Zlen (take max ds), dval v (take max ds)).
Proof.
  induction ds as [|x ds IH]; intros max tl i v Hd Ht.
  - rewrite take_nil, Zlen_nil, Z.add_0_r. simpl.
    destruct max, tl as [|x tl]; try done. simpl in *. by rewrite Ht.
  - apply Forall_cons in Hd as [Hx Hd]. destruct max as [|max]; simpl.
    + rewrite Zlen_nil, Z.add_0_r. done.
    + rewrite Hx, (IH max tl _ _ Hd Ht), Zlen_cons. f_equal. lia.
Qed.

Lemma GetInt32_dec n : numeral_ok n -> spaces n = [] -> (sign n = [] -> hex_prefix (text n) = false) ->
  sqlite3GetInt32 (text n) = if decide (- 2 ^ 31 <= value n < 2 ^ 31) then Some (value n) else None.
Proof.
  intros Hok Hsp Hx. destruct (skip_to_sign n Hok) as [_ Hsg].
  assert (text n = sign n ++ digs n ++ tail_ n) as Ht by (unfold text; by rewrite Hsp).
  set (body := fun neg z =>
    let '(i, v) := dec_loop 11 (skip_while (fun c => c =? 48) z) 0 0 in
    if 10 <? i then None
    else if 2147483647 <? v - (if neg : bool then 1 else 0) then None
    else Some (if neg then - v else v)).
  assert (sqlite3GetInt32 (text n) = body (is_neg n) (digs n ++ tail_ n)) as ->.
  { unfold sqlite3GetInt32. fold body. rewrite <- Ht in Hsg.
    destruct (text n) as [|c r] eqn:E; simpl in Hsg; cbn [hd tl]; [by injection Hsg as <- <- |].
    destruct (Z.eqb_spec c 45) as [-> | H45]; [by injection Hsg as <- <- |].
    destruct (Z.eqb_spec c 43) as [-> | H43]; [by injection Hsg as <- <- |].
    injection Hsg as <- <-. rewrite Hx; [done |].
    destruct Hok as (_ & Hs & _). rewrite !elem_of_cons, elem_of_nil in Hs.
    destruct Hs as [-> | [Hs | [Hs | []]]]; [done | |]; rewrite Hs in Ht; injection Ht as -> _; done. }
  pose proof Hok as (_ & _ & Hd & Htl & _). unfold body, value.
  destruct (split_zeros _ Hd) as (zs & sig & Hzs & Hz & Hsig & Hh & Hv). rewrite <- Hv.
  assert (digs n ++ tail_ n = zs ++ sig ++ tail_ n) as -> by (rewrite Hzs; by rewrite <- app_assoc).
  rewrite (skip_while_app (fun c => c =? 48) zs _ Hz (head_zero_app _ _ Hsig Hh Htl)).
  rewrite (dec_loop_ok sig 11 (tail_ n) 0 0 Hsig Htl), Z.add_0_l.
  pose proof (dval_bound sig Hsig) as Hb. pose proof (Zlen_nonneg sig).
  destruct (Z.leb_spec (Zlen sig) 10) as [H10 | H10].
  - rewrite take_ge by (unfold Zlen in *; lia).
    destruct (Z.ltb_spec 10 (Zlen sig)); [lia |].
    destruct (is_neg n); match goal with |- context [?a <? ?b] => destruct (Z.ltb_spec a b) end;
      case_decide; lia || done.
  - assert (Zlen (take 11 sig) = 11) as -> by (unfold Zlen in *; rewrite length_take; lia). simpl.
    destruct sig as [|s sig]; [done |]. simpl in Hh. apply Z.eqb_neq in Hh.
    pose proof (dval_lower s sig Hsig Hh). rewrite Zlen_cons in H10.
    pose proof (Z.pow_le_mono_r 10 10 (Zlen sig) ltac:(lia) ltac:(lia)).
    rewrite decide_False; [done |]. destruct (is_neg n); lia.
Qed.

(** ** Properties *)

(** Decimal text in any of the three encodings.  A number (spaces, an
    optional sign, digits, then the end or a zero byte) that fits 64 bits gives 0
    and its value, leading zeros and all; 9223372036854775808 gives 2 and the
    largest integer; a larger number, a number followed by anything else and text
    without digits give 1.  What follows the given length is not read. *)
Theorem Atoi64_spec (n : numeral) (enc : Z) (rest : list Z) :
  numeral_ok n -> enc ∈ [1; 2; 3] ->
  let z := encode enc (text n) in
  let r := sqlite3Atoi64 (z ++ rest) (Zlen z) enc in
  r.1 = atoi64_code n /\ (r.1 = 0 -> r.2 = value n) /\ (r.1 = 2 -> r.2 = LARGEST_INT64).
Proof.
  intros Hn He z r. unfold r, z. rewrite Atoi64_units by done.
  destruct (atoi64_body_ok n Hn) as (H1 & H2 & H3). rewrite H1. auto.
Qed.

Lemma Atoi64_spec_witness :
  let n := mkNumeral [32] [45] (lit "0009223372036854775808") [] in
  numeral_ok n /\ (sqlite3Atoi64 (encode 2 (text n) ++ [55; 0]) (Zlen (encode 2 (text n))) 2).1 = 0.
Proof.
  intros n. assert (numeral_ok n) as Hn.
  { split; [repeat constructor |]. split; [right; left |]. split; [repeat constructor |].
    split; [exact I | discriminate]. }
  split; [exact Hn |].
  rewrite (proj1 (Atoi64_spec n 2 [55; 0] Hn ltac:(right; left))). reflexivity.
Defined.

(** 32-bit and literal readers.  [sqlite3GetInt32] accepts exactly the decimal
    numbers of 32 bits and the hexadecimal ones below 2^31, ignoring what follows
    the digits; without digits it accepts too, with value 0.
    [sqlite3DecOrHexToI64] accepts exactly the hexadecimal literals of 64 bits,
    read as two's complement, and the decimal ones [sqlite3Atoi64] accepts. *)
Theorem Int_literals (n : numeral) (x : Z) (hs tl : list Z) :
  numeral_ok n -> spaces n = [] -> (sign n = [] -> hex_prefix (text n) = false) ->
  hex_ok x hs tl ->
  sqlite3GetInt32 (text n) =
    (if decide (- 2 ^ 31 <= value n < 2 ^ 31) then Some (value n) else None) /\
  sqlite3GetInt32 (hex_text x hs tl) =
    (if decide (hval 0 hs < 2 ^ 31) then Some (hval 0 hs) else None) /\
  sqlite3DecOrHexToI64 (hex_text x hs tl) =
    (if decide (tl = [] /\ hval 0 hs < 2 ^ 64) then 0 else 1, swrap 64 (wrap 64 (hval 0 hs))) /\
  (hex_prefix (text n) = false -> Zlen (text n) < 2 ^ 30 ->
   (sqlite3DecOrHexToI64 (text n)).1 = atoi64_code n).
Proof.
  intros Hn Hsp Hx Hh. split; [by apply GetInt32_dec |]. split; [by apply GetInt32_hex |].
  split; [by apply DecOrHex_hex |]. intros Hp Hl. unfold sqlite3DecOrHexToI64, sqlite3Strlen30.
  rewrite Hp, Z.land_comm. change 0x3fffffff with (Z.ones 30).
  rewrite Z.land_ones, Z.mod_small by (pose proof (Zlen_nonneg (text n)); lia).
  pose proof (Atoi64_units 1 (text n) [] ltac:(left)) as Hu. unfold encode in Hu. simpl in Hu.
  rewrite app_nil_r in Hu. rewrite Hu. apply (atoi64_body_ok n Hn).
Qed.

Lemma Int_literals_witness :
  let n := mkNumeral [] [45] (lit "2147483648") (lit "abc") in
  sqlite3GetInt32 (text n) = Some (- 2 ^ 31) /\
  sqlite3DecOrHexToI64 (lit "0xFFFFFFFFFFFFFFFF") = (0, -1).
Proof.
  intros n.
  destruct (Int_literals n 120 (lit "FFFFFFFFFFFFFFFF") []) as (H1 & _ & H3 & _).
  - split; [repeat constructor |]. split; [right; left |]. split; [repeat constructor |].
    split; [reflexivity | discriminate].
  - reflexivity.
  - discriminate.
  - split; [left |]. split; [discriminate |]. split; [| exact I].
    unfold xdigits. apply (bool_decide_unpack _). vm_compute. exact I.
  - split; [rewrite H1; reflexivity | exact H3].
Defined.
