(* ===== verification/SqKeywords.v ===== *)
(** SQLite's keywords: the generated hash table of [src/src/cache/sqlite3.c], part
    keywordhash.h, and what it stands for. *)

From S2P Require Import Prelude SqText.

#[local] Open Scope Z_scope.

(** The token codes of the grammar. *)
Inductive token :=
  | TK_SEMI | TK_EXPLAIN | TK_QUERY | TK_PLAN | TK_BEGIN | TK_TRANSACTION | TK_DEFERRED | TK_IMMEDIATE | TK_EXCLUSIVE
  | TK_COMMIT | TK_END | TK_ROLLBACK | TK_SAVEPOINT | TK_RELEASE | TK_TO | TK_TABLE | TK_CREATE | TK_IF | TK_NOT
  | TK_EXISTS | TK_TEMP | TK_LP | TK_RP | TK_AS | TK_WITHOUT | TK_COMMA | TK_ID | TK_INDEXED | TK_ABORT | TK_ACTION
  | TK_AFTER | TK_ANALYZE | TK_ASC | TK_ATTACH | TK_BEFORE | TK_BY | TK_CASCADE | TK_CAST | TK_COLUMNKW | TK_CONFLICT
  | TK_DATABASE | TK_DESC | TK_DETACH | TK_EACH | TK_FAIL | TK_FOR | TK_IGNORE | TK_INITIALLY | TK_INSTEAD
  | TK_LIKE_KW | TK_MATCH | TK_NO | TK_KEY | TK_OF | TK_OFFSET | TK_PRAGMA | TK_RAISE | TK_RECURSIVE | TK_REPLACE
  | TK_RESTRICT | TK_ROW | TK_TRIGGER | TK_VACUUM | TK_VIEW | TK_VIRTUAL | TK_WITH | TK_REINDEX | TK_RENAME
  | TK_CTIME_KW | TK_ANY | TK_OR | TK_AND | TK_IS | TK_BETWEEN | TK_IN | TK_ISNULL | TK_NOTNULL | TK_NE | TK_EQ
  | TK_GT | TK_LE | TK_LT | TK_GE | TK_ESCAPE | TK_BITAND | TK_BITOR | TK_LSHIFT | TK_RSHIFT | TK_PLUS | TK_MINUS
  | TK_STAR | TK_SLASH | TK_REM | TK_CONCAT | TK_COLLATE | TK_BITNOT | TK_STRING | TK_JOIN_KW | TK_CONSTRAINT
  | TK_DEFAULT | TK_NULL | TK_PRIMARY | TK_UNIQUE | TK_CHECK | TK_REFERENCES | TK_AUTOINCR | TK_ON | TK_INSERT
  | TK_DELETE | TK_UPDATE | TK_SET | TK_DEFERRABLE | TK_FOREIGN | TK_DROP | TK_UNION | TK_ALL | TK_EXCEPT
  | TK_INTERSECT | TK_SELECT | TK_VALUES | TK_DISTINCT | TK_DOT | TK_FROM | TK_JOIN | TK_USING | TK_ORDER | TK_GROUP
  | TK_HAVING | TK_LIMIT | TK_WHERE | TK_INTO | TK_INTEGER | TK_FLOAT | TK_BLOB | TK_VARIABLE | TK_CASE | TK_WHEN
  | TK_THEN | TK_ELSE | TK_INDEX | TK_ALTER | TK_ADD | TK_TO_TEXT | TK_TO_BLOB | TK_TO_NUMERIC | TK_TO_INT
  | TK_TO_REAL | TK_ISNOT | TK_END_OF_FILE | TK_ILLEGAL | TK_SPACE | TK_UNCLOSED_STRING | TK_FUNCTION.

(** ** The tables *)

Definition zText : list Z := lit
  ("REINDEXEDESCAPEACHECKEYBEFOREIGNOREGEXPLAINSTEADDATABASELECTABLEFTHENDEFERRABLEL" ++
   "SEXCEPTRANSACTIONATURALTERAISEXCLUSIVEXISTSAVEPOINTERSECTRIGGEREFERENCESCONSTRAI" ++
   "NTOFFSETEMPORARYUNIQUERYWITHOUTERELEASEATTACHAVINGROUPDATEBEGINNERECURSIVEBETWEE" ++
   "NOTNULLIKECASCADELETECASECOLLATECREATECURRENT_DATEDETACHIMMEDIATEJOINSERTMATCHPL" ++
   "ANALYZEPRAGMABORTVALUESVIRTUALIMITWHENWHERENAMEAFTEREPLACEANDEFAULTAUTOINCREMENT" ++
   "CASTCOLUMNCOMMITCONFLICTCROSSCURRENT_TIMESTAMPRIMARYDEFERREDISTINCTDROPFAILFROMF" ++
   "ULLGLOBYIFISNULLORDERESTRICTRIGHTROLLBACKROWUNIONUSINGVACUUMVIEWINITIALLY")%string.

Definition aHash : list Z :=
  [76; 105; 117; 74; 0; 45; 0; 0; 82; 0; 77; 0; 0; 42; 12; 78; 15; 0; 116; 85; 54; 112; 0; 19; 0; 0; 121; 0; 119;
   115; 0; 22; 93; 0; 9; 0; 0; 70; 71; 0; 69; 6; 0; 48; 90; 102; 0; 118; 101; 0; 0; 44; 0; 103; 24; 0; 17; 0; 122;
   53; 23; 0; 5; 110; 25; 96; 0; 0; 124; 106; 60; 123; 57; 28; 55; 0; 91; 0; 100; 26; 0; 99; 0; 0; 0; 95; 92; 97; 88;
   109; 14; 39; 108; 0; 81; 0; 18; 89; 111; 32; 0; 120; 80; 113; 62; 46; 84; 0; 0; 94; 40; 59; 114; 0; 36; 0; 0; 29;
   0; 86; 63; 64; 0; 20; 61; 0; 56].
Definition aNext : list Z :=
  [0; 0; 0; 0; 4; 0; 0; 0; 0; 0; 0; 0; 0; 0; 2; 0; 0; 0; 0; 0; 0; 13; 0; 0; 0; 0; 0; 7; 0; 0; 0; 0; 0; 0; 0; 0; 0; 0;
   0; 0; 0; 0; 0; 33; 0; 21; 0; 0; 0; 0; 0; 50; 0; 43; 3; 47; 0; 0; 0; 0; 30; 0; 58; 0; 38; 0; 0; 0; 1; 66; 0; 0; 67;
   0; 41; 0; 0; 0; 0; 0; 0; 49; 65; 0; 0; 0; 0; 31; 52; 16; 34; 10; 0; 0; 0; 0; 0; 0; 0; 11; 72; 79; 0; 8; 0; 104;
   98; 0; 107; 0; 87; 0; 75; 51; 0; 27; 37; 73; 83; 0; 35; 68; 0; 0].
Definition aLen : list Z :=
  [7; 7; 5; 4; 6; 4; 5; 3; 6; 7; 3; 6; 6; 7; 7; 3; 8; 2; 6; 5; 4; 4; 3; 10; 4; 6; 11; 6; 2; 7; 5; 5; 9; 6; 9; 9; 7;
   10; 10; 4; 6; 2; 3; 9; 4; 2; 6; 5; 7; 4; 5; 7; 6; 6; 5; 6; 5; 5; 9; 7; 7; 3; 2; 4; 4; 7; 3; 6; 4; 7; 6; 12; 6; 9;
   4; 6; 5; 4; 7; 6; 5; 6; 7; 5; 4; 5; 6; 5; 7; 3; 7; 13; 2; 2; 4; 6; 6; 8; 5; 17; 12; 7; 8; 8; 2; 4; 4; 4; 4; 4; 2;
   2; 6; 5; 8; 5; 8; 3; 5; 5; 6; 4; 9; 3].
Definition aOffset : list Z :=
  [0; 2; 2; 8; 9; 14; 16; 20; 23; 25; 25; 29; 33; 36; 41; 46; 48; 53; 54; 59; 62; 65; 67; 69; 78; 81; 86; 91; 95; 96;
   101; 105; 109; 117; 122; 128; 136; 142; 152; 159; 162; 162; 165; 167; 167; 171; 176; 179; 184; 184; 188; 192; 199;
   204; 209; 212; 218; 221; 225; 234; 240; 240; 240; 243; 246; 250; 251; 255; 261; 265; 272; 278; 290; 296; 305; 307;
   313; 318; 320; 327; 332; 337; 343; 349; 354; 358; 361; 367; 371; 378; 380; 387; 389; 391; 400; 404; 410; 416; 424;
   429; 429; 445; 452; 459; 460; 467; 471; 475; 479; 483; 486; 488; 490; 496; 500; 508; 513; 521; 524; 529; 534; 540;
   544; 549].
Definition aCode : list token :=
  [TK_REINDEX; TK_INDEXED; TK_INDEX; TK_DESC; TK_ESCAPE; TK_EACH; TK_CHECK; TK_KEY; TK_BEFORE; TK_FOREIGN; TK_FOR;
   TK_IGNORE; TK_LIKE_KW; TK_EXPLAIN; TK_INSTEAD; TK_ADD; TK_DATABASE; TK_AS; TK_SELECT; TK_TABLE; TK_JOIN_KW;
   TK_THEN; TK_END; TK_DEFERRABLE; TK_ELSE; TK_EXCEPT; TK_TRANSACTION; TK_ACTION; TK_ON; TK_JOIN_KW; TK_ALTER;
   TK_RAISE; TK_EXCLUSIVE; TK_EXISTS; TK_SAVEPOINT; TK_INTERSECT; TK_TRIGGER; TK_REFERENCES; TK_CONSTRAINT; TK_INTO;
   TK_OFFSET; TK_OF; TK_SET; TK_TEMP; TK_TEMP; TK_OR; TK_UNIQUE; TK_QUERY; TK_WITHOUT; TK_WITH; TK_JOIN_KW;
   TK_RELEASE; TK_ATTACH; TK_HAVING; TK_GROUP; TK_UPDATE; TK_BEGIN; TK_JOIN_KW; TK_RECURSIVE; TK_BETWEEN; TK_NOTNULL;
   TK_NOT; TK_NO; TK_NULL; TK_LIKE_KW; TK_CASCADE; TK_ASC; TK_DELETE; TK_CASE; TK_COLLATE; TK_CREATE; TK_CTIME_KW;
   TK_DETACH; TK_IMMEDIATE; TK_JOIN; TK_INSERT; TK_MATCH; TK_PLAN; TK_ANALYZE; TK_PRAGMA; TK_ABORT; TK_VALUES;
   TK_VIRTUAL; TK_LIMIT; TK_WHEN; TK_WHERE; TK_RENAME; TK_AFTER; TK_REPLACE; TK_AND; TK_DEFAULT; TK_AUTOINCR; TK_TO;
   TK_IN; TK_CAST; TK_COLUMNKW; TK_COMMIT; TK_CONFLICT; TK_JOIN_KW; TK_CTIME_KW; TK_CTIME_KW; TK_PRIMARY;
   TK_DEFERRED; TK_DISTINCT; TK_IS; TK_DROP; TK_FAIL; TK_FROM; TK_JOIN_KW; TK_LIKE_KW; TK_BY; TK_IF; TK_ISNULL;
   TK_ORDER; TK_RESTRICT; TK_JOIN_KW; TK_ROLLBACK; TK_ROW; TK_UNION; TK_USING; TK_VACUUM; TK_VIEW; TK_INITIALLY;
   TK_ALL].

(** ** Lookup *)

Definition charMap (c : Z) : Z := UpperToLower c.

(** [z] is the text from the identifier on, [n] its length. *)
Definition keyword_hash (z : list Z) (n : nat) : Z :=
  Z.lxor (Z.lxor (charMap (nth 0 z 0) * 4) (charMap (nth (n - 1) z 0) * 3)) (Z.of_nat n) mod 127.

(** The chain of the keywords with this hash; [i] is the index plus one. *)
Fixpoint keyword_loop (fuel : nat) (z : list Z) (n : nat) (i : Z) : token :=
  match fuel with
  | O => TK_ID
  | S fuel =>
      if i - 1 <? 0 then TK_ID
      else if (Znth aLen (i - 1) =? Z.of_nat n) && (nicmp_loop (drop (Z.to_nat (Znth aOffset (i - 1))) zText) z n =? 0)
      then nth (Z.to_nat (i - 1)) aCode TK_ID
      else keyword_loop fuel z n (Znth aNext (i - 1))
  end.

Definition keywordCode (z : list Z) (n : nat) : token :=
  if (n <? 2)%nat then TK_ID else keyword_loop 125 z n (Znth aHash (keyword_hash z n)).

(** ** The keywords *)

Definition keywords : list (string * token) :=
  [("REINDEX", TK_REINDEX); ("INDEXED", TK_INDEXED); ("INDEX", TK_INDEX); ("DESC", TK_DESC); ("ESCAPE", TK_ESCAPE);
   ("EACH", TK_EACH); ("CHECK", TK_CHECK); ("KEY", TK_KEY); ("BEFORE", TK_BEFORE); ("FOREIGN", TK_FOREIGN);
   ("FOR", TK_FOR); ("IGNORE", TK_IGNORE); ("REGEXP", TK_LIKE_KW); ("EXPLAIN", TK_EXPLAIN); ("INSTEAD", TK_INSTEAD);
   ("ADD", TK_ADD); ("DATABASE", TK_DATABASE); ("AS", TK_AS); ("SELECT", TK_SELECT); ("TABLE", TK_TABLE);
   ("LEFT", TK_JOIN_KW); ("THEN", TK_THEN); ("END", TK_END); ("DEFERRABLE", TK_DEFERRABLE); ("ELSE", TK_ELSE);
   ("EXCEPT", TK_EXCEPT); ("TRANSACTION", TK_TRANSACTION); ("ACTION", TK_ACTION); ("ON", TK_ON);
   ("NATURAL", TK_JOIN_KW); ("ALTER", TK_ALTER); ("RAISE", TK_RAISE); ("EXCLUSIVE", TK_EXCLUSIVE);
   ("EXISTS", TK_EXISTS); ("SAVEPOINT", TK_SAVEPOINT); ("INTERSECT", TK_INTERSECT); ("TRIGGER", TK_TRIGGER);
   ("REFERENCES", TK_REFERENCES); ("CONSTRAINT", TK_CONSTRAINT); ("INTO", TK_INTO); ("OFFSET", TK_OFFSET);
   ("OF", TK_OF); ("SET", TK_SET); ("TEMPORARY", TK_TEMP); ("TEMP", TK_TEMP); ("OR", TK_OR); ("UNIQUE", TK_UNIQUE);
   ("QUERY", TK_QUERY); ("WITHOUT", TK_WITHOUT); ("WITH", TK_WITH); ("OUTER", TK_JOIN_KW); ("RELEASE", TK_RELEASE);
   ("ATTACH", TK_ATTACH); ("HAVING", TK_HAVING); ("GROUP", TK_GROUP); ("UPDATE", TK_UPDATE); ("BEGIN", TK_BEGIN);
   ("INNER", TK_JOIN_KW); ("RECURSIVE", TK_RECURSIVE); ("BETWEEN", TK_BETWEEN); ("NOTNULL", TK_NOTNULL);
   ("NOT", TK_NOT); ("NO", TK_NO); ("NULL", TK_NULL); ("LIKE", TK_LIKE_KW); ("CASCADE", TK_CASCADE); ("ASC", TK_ASC);
   ("DELETE", TK_DELETE); ("CASE", TK_CASE); ("COLLATE", TK_COLLATE); ("CREATE", TK_CREATE);
   ("CURRENT_DATE", TK_CTIME_KW); ("DETACH", TK_DETACH); ("IMMEDIATE", TK_IMMEDIATE); ("JOIN", TK_JOIN);
   ("INSERT", TK_INSERT); ("MATCH", TK_MATCH); ("PLAN", TK_PLAN); ("ANALYZE", TK_ANALYZE); ("PRAGMA", TK_PRAGMA);
   ("ABORT", TK_ABORT); ("VALUES", TK_VALUES); ("VIRTUAL", TK_VIRTUAL); ("LIMIT", TK_LIMIT); ("WHEN", TK_WHEN);
   ("WHERE", TK_WHERE); ("RENAME", TK_RENAME); ("AFTER", TK_AFTER); ("REPLACE", TK_REPLACE); ("AND", TK_AND);
   ("DEFAULT", TK_DEFAULT); ("AUTOINCREMENT", TK_AUTOINCR); ("TO", TK_TO); ("IN", TK_IN); ("CAST", TK_CAST);
   ("COLUMN", TK_COLUMNKW); ("COMMIT", TK_COMMIT); ("CONFLICT", TK_CONFLICT); ("CROSS", TK_JOIN_KW);
   ("CURRENT_TIMESTAMP", TK_CTIME_KW); ("CURRENT_TIME", TK_CTIME_KW); ("PRIMARY", TK_PRIMARY);
   ("DEFERRED", TK_DEFERRED); ("DISTINCT", TK_DISTINCT); ("IS", TK_IS); ("DROP", TK_DROP); ("FAIL", TK_FAIL);
   ("FROM", TK_FROM); ("FULL", TK_JOIN_KW); ("GLOB", TK_LIKE_KW); ("BY", TK_BY); ("IF", TK_IF);
   ("ISNULL", TK_ISNULL); ("ORDER", TK_ORDER); ("RESTRICT", TK_RESTRICT); ("RIGHT", TK_JOIN_KW);
   ("ROLLBACK", TK_ROLLBACK); ("ROW", TK_ROW); ("UNION", TK_UNION); ("USING", TK_USING); ("VACUUM", TK_VACUUM);
   ("VIEW", TK_VIEW); ("INITIALLY", TK_INITIALLY); ("ALL", TK_ALL)].

(** What the table is for. *)
Definition keyword_of (word : list Z) : token :=
  match List.find (fun kw => bool_decide (fold_case (lit kw.1) = fold_case word)) keywords with
  | Some kw => kw.2
  | None => TK_ID
  end.

(** ** The hash table is the list of keywords *)

(** The keyword at an index of the tables, folded. *)
Definition word_at (i : Z) : list Z :=
  fold_case (take (Z.to_nat (Znth aLen i)) (drop (Z.to_nat (Znth aOffset i)) zText)).

(** The chain, followed with a folded word. *)
Fixpoint word_loop (fuel : nat) (w : list Z) (i : Z) : token :=
  match fuel with
  | O => TK_ID
  | S fuel =>
      if i - 1 <? 0 then TK_ID
      else if bool_decide (word_at (i - 1) = w) then nth (Z.to_nat (i - 1)) aCode TK_ID
      else word_loop fuel w (Znth aNext (i - 1))
  end.

Lemma tables_ok :
  length aCode = 124%nat /\ cstring zText /\
  forallb (fun i => (0 <=? Z.min (Znth aLen (Z.of_nat i)) (Znth aOffset (Z.of_nat i))) && (Znth aOffset (Z.of_nat i) + Znth aLen (Z.of_nat i) <=? 553))
    (seq 0 124) = true /\
  forallb (fun i => (Znth aHash (Z.of_nat i) <=? 124)) (seq 0 127) = true /\
  forallb (fun i => (Znth aNext (Z.of_nat i) <=? 124)) (seq 0 124) = true.
Proof. split_and!; [reflexivity | apply (bool_decide_unpack _); vm_compute; exact I | vm_compute; reflexivity ..]. Qed.

Lemma table_bound l k i :
  forallb (fun i => Znth l (Z.of_nat i) <=? 124) (seq 0 k) = true -> 0 <= i < Z.of_nat k -> Znth l i <= 124.
Proof.
  rewrite forallb_forall. intros H Hi. specialize (H (Z.to_nat i) ltac:(apply in_seq; lia)).
  rewrite Z2Nat.id in H by lia. by apply Z.leb_le.
Qed.

Lemma hash_bound z n : Znth aHash (keyword_hash z n) <= 124.
Proof. apply (table_bound _ 127); [apply tables_ok | apply Z.mod_pos_bound; lia]. Qed.

Lemma next_bound i : 0 <= i < 124 -> Znth aNext i <= 124.
Proof. apply (table_bound _ 124), tables_ok. Qed.

Lemma fold_idem x : 0 <= x < 256 -> UpperToLower (UpperToLower x) = UpperToLower x.
Proof.
  intros Hx. pose proof (UpperToLower_range x Hx). rewrite (UpperToLower_spec (UpperToLower x)) by lia.
  rewrite (UpperToLower_spec x) by lia. repeat case_if; lia.
Qed.

Lemma length_fold w : length (fold_case w) = length w.
Proof. apply length_fmap. Qed.

Lemma nth_fold w i : nth i (fold_case w) 0 = UpperToLower (nth i w 0).
Proof. revert i. induction w as [|x w IH]; intros [|i]; simpl; [done.. | apply IH]. Qed.

Lemma hash_fold z n : cstring z -> (2 <= n <= length z)%nat ->
  keyword_hash z n = keyword_hash (fold_case (take n z)) n.
Proof.
  intros Hz Hn. unfold keyword_hash, charMap. rewrite !nth_fold.
  assert (forall i, (i < n)%nat -> nth i (take n z) 0 = nth i z 0) as Ht.
  { intros i Hi. rewrite <-(take_drop n z) at 2. rewrite app_nth1; [done |]. rewrite length_take. lia. }
  assert (forall i, (i < n)%nat -> 0 <= nth i z 0 < 256) as Hb.
  { intros i Hi. apply Forall_nth with (d := 0) (i := i) in Hz; lia. }
  rewrite !Ht, !fold_idem by (first [apply Hb | idtac]; lia). done.
Qed.

(** One step of the chain compares folded words. *)
Lemma match_word z n i : cstring z -> (n <= length z)%nat -> 0 <= i < 124 ->
  (Znth aLen i =? Z.of_nat n) && (nicmp_loop (drop (Z.to_nat (Znth aOffset i)) zText) z n =? 0) =
  bool_decide (word_at i = fold_case (take n z)).
Proof.
  intros Hz Hn Hi. destruct tables_ok as (_ & Ht & Hl & _). rewrite forallb_forall in Hl.
  specialize (Hl (Z.to_nat i) ltac:(apply in_seq; lia)). rewrite Z2Nat.id in Hl by lia.
  apply andb_prop in Hl as [Hl1%Z.leb_le Hl2%Z.leb_le].
  set (o := Z.to_nat (Znth aOffset i)) in *.
  pose proof (nicmp_loop_zero n (drop o zText) z ltac:(by apply Forall_drop) Hz) as Hc.
  apply eq_iff_eq_true. rewrite andb_true_iff, !Z.eqb_eq, bool_decide_eq_true, Hc. unfold word_at. fold o.
  split.
  - intros [-> Hf]. by rewrite Nat2Z.id.
  - intros Hf. pose proof (f_equal length Hf) as He. rewrite !length_fold, !length_take, length_drop in He.
    change (length zText) with 553%nat in He. assert (Znth aLen i = Z.of_nat n) as Ha by lia. split; [done |].
    rewrite Ha, Nat2Z.id in Hf. exact Hf.
Qed.

Lemma loop_words fuel : forall z n i, cstring z -> (n <= length z)%nat -> i <= 124 ->
  keyword_loop fuel z n i = word_loop fuel (fold_case (take n z)) i.
Proof.
  induction fuel as [|fuel IH]; intros z n i Hz Hn Hi; [done |]. cbn [keyword_loop word_loop].
  destruct (Z.ltb_spec (i - 1) 0); [done |]. rewrite match_word by (done || lia).
  destruct (bool_decide _); [done |]. apply IH; [done | done |].
  apply next_bound. lia.
Qed.

(** The tables spell the keywords, in order. *)
Lemma words_are : map (fun i => word_at (Z.of_nat i)) (seq 0 124) = map (fun kw => fold_case (lit kw.1)) keywords.
Proof. vm_compute. reflexivity. Qed.

(** Every keyword is found in the chain of its hash. *)
Lemma words_found :
  map (fun kw => word_loop 125 (fold_case (lit kw.1)) (Znth aHash (keyword_hash (fold_case (lit kw.1)) (length (fold_case (lit kw.1)))))) keywords =
  map (fun kw => kw.2) keywords.
Proof. vm_compute. reflexivity. Qed.

Lemma no_word fuel w : (forall i, 0 <= i < 124 -> word_at i <> w) -> forall i, i <= 124 -> word_loop fuel w i = TK_ID.
Proof.
  intros Hw. induction fuel as [|fuel IH]; intros i Hi; [done |]. cbn [word_loop].
  destruct (Z.ltb_spec (i - 1) 0); [done |]. rewrite bool_decide_eq_false_2 by (apply Hw; lia). apply IH, next_bound. lia.
Qed.

(** Looking up a folded word. *)
Lemma word_loop_ok w : fold_case w = w -> (2 <= length w)%nat ->
  word_loop 125 w (Znth aHash (keyword_hash w (length w))) = keyword_of w.
Proof.
  intros Hf Hn. unfold keyword_of. rewrite Hf. destruct (List.find _ _) as [kw|] eqn:Hk.
  - apply List.find_some in Hk as [Hin <-%bool_decide_eq_true].
    pose proof words_found as Ha. rewrite map_ext_in_iff in Ha. exact (Ha kw Hin).
  - pose proof (List.find_none _ _ Hk) as Hno. apply no_word.
    + intros i Hi Hw. assert (In w (map (fun kw => fold_case (lit kw.1)) keywords)) as Hin.
      { rewrite <-words_are, <-Hw. apply in_map_iff. exists (Z.to_nat i). split; [by rewrite Z2Nat.id by lia | apply in_seq; lia]. }
      apply in_map_iff in Hin as (kw & He & Hin). specialize (Hno kw Hin). cbv beta in Hno.
      apply bool_decide_eq_false_1 in Hno. done.
    + apply hash_bound.
Qed.

Lemma fold_fold w : cstring w -> fold_case (fold_case w) = fold_case w.
Proof.
  unfold fold_case. intros Hw. rewrite <-list_fmap_compose. apply list_fmap_ext. intros i x Hx.
  apply Forall_lookup_1 with (i := i) (x := x) in Hw; [| done]. apply fold_idem. lia.
Qed.

Lemma short_word w : (length w < 2)%nat -> keyword_of w = TK_ID.
Proof.
  intros Hn. unfold keyword_of. destruct (List.find _ _) as [kw|] eqn:Hk; [| done].
  apply List.find_some in Hk as [Hin He%bool_decide_eq_true]. exfalso.
  assert (forallb (fun kw => 2 <=? length (lit kw.1))%nat keywords = true) as Hl by (vm_compute; reflexivity).
  rewrite forallb_forall in Hl. specialize (Hl kw Hin). apply Nat.leb_le in Hl.
  apply (f_equal length) in He. rewrite !length_fold in He. lia.
Qed.

Lemma keyword_of_fold w : cstring w -> keyword_of (fold_case w) = keyword_of w.
Proof. intros Hw. unfold keyword_of. by rewrite fold_fold. Qed.

(** The generated hash table is the list of the 124 keywords: an identifier's code
    is the one of the keyword it spells, in any case of letters, and [TK_ID] if it
    spells none; the text after the identifier does not matter. *)
Theorem keywordCode_spec (z : list Z) (n : nat) :
  cstring z -> (n <= length z)%nat -> keywordCode z n = keyword_of (take n z).
Proof.
  intros Hz Hn. unfold keywordCode. assert (cstring (take n z)) as Ht by (by apply Forall_take).
  destruct (Nat.ltb_spec n 2).
  - symmetry. apply short_word. rewrite length_take. lia.
  - assert (length (fold_case (take n z)) = n) as Hl by (rewrite length_fold, length_take; lia).
    rewrite hash_fold by (done || lia). rewrite loop_words; [| done | done |].
    + rewrite <-(keyword_of_fold (take n z)) by done. rewrite <-word_loop_ok; [| by apply fold_fold | lia]. by rewrite Hl.
    + apply hash_bound.
Qed.

Lemma keywordCode_spec_witness :
  cstring (lit "sElEcT hash") /\ keywordCode (lit "sElEcT hash") 6 = TK_SELECT /\
  keywordCode (lit "sElEcT hash") 6 = keyword_of (lit "sElEcT").
Proof.
  assert (cstring (lit "sElEcT hash")) as Hz by (apply (bool_decide_unpack _); vm_compute; exact I).
  split; [exact Hz |]. split; [vm_compute; reflexivity |].
  apply (keywordCode_spec (lit "sElEcT hash") 6 Hz). simpl. lia.
Defined.
