(* ===== verification/SqTokens.v ===== *)
(** SQLite's tokenizer: [sqlite3GetToken] and the loop of [sqlite3RunParser]
    ([src/src/cache/sqlite3.c], part tokenize.c).

    As in [SqText] a C string is the list of the bytes before its terminator;
    [nth i z 0] reads [z[i]], the terminator included. *)

From S2P Require Import Prelude SqText SqKeywords.

#[local] Open Scope Z_scope.

(** ** Scanning loops *)

(** [while( p(z[i]) ) i++], how far it gets; [p] is false of the terminator. *)
Fixpoint span (p : Z -> bool) (z : list Z) : nat :=
  match z with
  | c :: z => if p c then S (span p z) else 0
  | [] => 0
  end.

(** The loop over a comment; [c] is the character before [z]. *)
Fixpoint comment_loop (c : Z) (z : list Z) : nat * Z :=
  match z with
  | d :: z =>
      if (c =? 42) && (d =? 47) then (0%nat, c)
      else if d =? 0 then (0%nat, 0)
      else let '(n, c) := comment_loop d z in (S n, c)
  | [] => (0%nat, 0)
  end.

(** The loop over quoted text; the second result is the [c] it ends with. *)
Fixpoint quote_loop (delim : Z) (z : list Z) : nat * Z :=
  match z with
  | c :: z' =>
      if c =? 0 then (0%nat, 0)
      else if c =? delim then
        match z' with
        | d :: z'' => if d =? delim then let '(n, c) := quote_loop delim z'' in (S (S n), c) else (0%nat, c)
        | [] => (0%nat, c)
        end
      else let '(n, c) := quote_loop delim z' in (S n, c)
  | [] => (0%nat, 0)
  end.

(** The loop up to a closing bracket. *)
Fixpoint bracket_loop (c : Z) (z : list Z) : nat * Z :=
  if c =? 93 then (0%nat, c)
  else
    match z with
    | d :: z => if d =? 0 then (0%nat, 0) else let '(n, c) := bracket_loop d z in (S n, c)
    | [] => (0%nat, 0)
    end.

(** The loop over a variable's name: how far it gets, the [n] at its end and
    whether it found the token to be illegal. *)
Fixpoint var_loop (z : list Z) (n : nat) : nat * nat * bool :=
  match z with
  | c :: z' =>
      if c =? 0 then (0%nat, n, false)
      else if IdChar c then let '(i, n, b) := var_loop z' (S n) in (S i, n, b)
      else if (c =? 40) && (0 <? n)%nat then
        let k := span (fun c => negb (c =? 0) && negb (sqlite3Isspace c) && negb (c =? 41)) z' in
        if nth k z' 0 =? 41 then (S (S k), n, false) else (S k, n, true)
      else if c =? 58 then
        match z' with
        | d :: z'' => if d =? 58 then let '(i, n, b) := var_loop z'' n in (S (S i), n, b) else (0%nat, n, false)
        | [] => (0%nat, n, false)
        end
      else (0%nat, n, false)
  | [] => (0%nat, n, false)
  end.

(** ** The cases of [sqlite3GetToken]

    Length and type of the token at the start of [z]. *)

Definition comment_token (z : list Z) : nat * token :=
  if negb (nth 1 z 0 =? 42) || (nth 2 z 0 =? 0) then (1%nat, TK_SLASH)
  else let '(i, c) := comment_loop (nth 2 z 0) (drop 3 z) in
       ((3 + i + if (c =? 0)%Z then 0 else 1)%nat, TK_SPACE).

Definition less_token (z : list Z) : nat * token :=
  if nth 1 z 0 =? 61 then (2%nat, TK_LE)
  else if nth 1 z 0 =? 62 then (2%nat, TK_NE)
  else if nth 1 z 0 =? 60 then (2%nat, TK_LSHIFT)
  else (1%nat, TK_LT).

Definition greater_token (z : list Z) : nat * token :=
  if nth 1 z 0 =? 61 then (2%nat, TK_GE)
  else if nth 1 z 0 =? 62 then (2%nat, TK_RSHIFT)
  else (1%nat, TK_GT).

Definition quoted_token (delim : Z) (z : list Z) : nat * token :=
  let '(i, c) := quote_loop delim (drop 1 z) in
  if c =? 39 then ((1 + i + 1)%nat, TK_STRING)
  else if negb (c =? 0) then ((1 + i + 1)%nat, TK_ID)
  else ((1 + i)%nat, TK_ILLEGAL).

Definition number_token (z : list Z) : nat * token :=
  if (nth 0 z 0 =? 48) && ((nth 1 z 0 =? 120) || (nth 1 z 0 =? 88)) && sqlite3Isxdigit (nth 2 z 0) then
    ((3 + span sqlite3Isxdigit (drop 3 z))%nat, TK_INTEGER)
  else
    let i := span sqlite3Isdigit z in
    let '(i, t) :=
      if nth i z 0 =? 46 then ((i + 1 + span sqlite3Isdigit (drop (i + 1) z))%nat, TK_FLOAT) else (i, TK_INTEGER) in
    let '(i, t) :=
      if ((nth i z 0 =? 101) || (nth i z 0 =? 69)) &&
         (sqlite3Isdigit (nth (i + 1) z 0) ||
          ((nth (i + 1) z 0 =? 43) || (nth (i + 1) z 0 =? 45)) && sqlite3Isdigit (nth (i + 2) z 0))
      then ((i + 2 + span sqlite3Isdigit (drop (i + 2) z))%nat, TK_FLOAT) else (i, t) in
    let k := span IdChar (drop i z) in
    ((i + k)%nat, if (k =? 0)%nat then t else TK_ILLEGAL).

Definition bracket_token (z : list Z) : nat * token :=
  let '(i, c) := bracket_loop 91 (drop 1 z) in
  ((1 + i)%nat, if c =? 93 then TK_ID else TK_ILLEGAL).

Definition variable_token (z : list Z) : nat * token :=
  let '(i, n, illegal) := var_loop (drop 1 z) 0 in
  ((1 + i)%nat, if illegal || (n =? 0)%nat then TK_ILLEGAL else TK_VARIABLE).

Definition blob_token (z : list Z) : nat * token :=
  let i := (2 + span sqlite3Isxdigit (drop 2 z))%nat in
  let bad := negb (nth i z 0 =? 39) || Nat.odd i in
  let i := if bad then (i + span (fun c => negb (c =? 0) && negb (c =? 39))%Z (drop i z))%nat else i in
  ((i + if (nth i z 0 =? 0)%Z then 0 else 1)%nat, if bad then TK_ILLEGAL else TK_BLOB).

Definition identifier_token (z : list Z) : nat * token :=
  if negb (IdChar (nth 0 z 0)) then (1%nat, TK_ILLEGAL)
  else let i := (1 + span IdChar (drop 1 z))%nat in (i, keywordCode z i).

Definition sqlite3GetToken (z : list Z) : nat * token :=
  let c := nth 0 z 0 in
  if (c =? 32) || (c =? 9) || (c =? 10) || (c =? 12) || (c =? 13) then
    ((1 + span sqlite3Isspace (drop 1 z))%nat, TK_SPACE)
  else if c =? 45 then
    if nth 1 z 0 =? 45 then ((2 + span (fun c => negb (c =? 0) && negb (c =? 10))%Z (drop 2 z))%nat, TK_SPACE)
    else (1%nat, TK_MINUS)
  else if c =? 40 then (1%nat, TK_LP)
  else if c =? 41 then (1%nat, TK_RP)
  else if c =? 59 then (1%nat, TK_SEMI)
  else if c =? 43 then (1%nat, TK_PLUS)
  else if c =? 42 then (1%nat, TK_STAR)
  else if c =? 47 then comment_token z
  else if c =? 37 then (1%nat, TK_REM)
  else if c =? 61 then ((1 + if (nth 1 z 0 =? 61)%Z then 1 else 0)%nat, TK_EQ)
  else if c =? 60 then less_token z
  else if c =? 62 then greater_token z
  else if c =? 33 then (2%nat, if nth 1 z 0 =? 61 then TK_NE else TK_ILLEGAL)
  else if c =? 124 then if nth 1 z 0 =? 124 then (2%nat, TK_CONCAT) else (1%nat, TK_BITOR)
  else if c =? 44 then (1%nat, TK_COMMA)
  else if c =? 38 then (1%nat, TK_BITAND)
  else if c =? 126 then (1%nat, TK_BITNOT)
  else if (c =? 96) || (c =? 39) || (c =? 34) then quoted_token c z
  else if c =? 46 then if sqlite3Isdigit (nth 1 z 0) then number_token z else (1%nat, TK_DOT)
  else if (48 <=? c) && (c <=? 57) then number_token z
  else if c =? 91 then bracket_token z
  else if c =? 63 then ((1 + span sqlite3Isdigit (drop 1 z))%nat, TK_VARIABLE)
  else if (c =? 36) || (c =? 64) || (c =? 35) || (c =? 58) then variable_token z
  else if ((c =? 120) || (c =? 88)) && (nth 1 z 0 =? 39) then blob_token z
  else identifier_token z.

(** ** [sqlite3RunParser]

    The generated parser is a parameter: it gets a token, or none at the end, and
    changes its stack and [Parse]. *)

Record Parse := { rc : Z; zTail : nat; mallocFailed : bool; isInterrupted : bool }.

Definition set_rc (r : Z) (p : Parse) : Parse :=
  {| rc := r; zTail := zTail p; mallocFailed := mallocFailed p; isInterrupted := isInterrupted p |}.
Definition set_tail (i : nat) (p : Parse) : Parse :=
  {| rc := rc p; zTail := i; mallocFailed := mallocFailed p; isInterrupted := isInterrupted p |}.

(** The cases of the loop's [switch]. *)
Inductive arm := Arm_space | Arm_illegal | Arm_semi | Arm_default.

Definition switch (t : token) : arm :=
  match t with TK_SPACE => Arm_space | TK_ILLEGAL => Arm_illegal | TK_SEMI => Arm_semi | _ => Arm_default end.

Definition is_semi (t : option token) : bool :=
  match t with Some t => match switch t with Arm_semi => true | _ => false end | None => false end.

Definition SQLITE_OK : Z := 0.
Definition SQLITE_ERROR : Z := 1.
Definition SQLITE_NOMEM : Z := 7.
Definition SQLITE_INTERRUPT : Z := 9.
Definition SQLITE_TOOBIG : Z := 18.

Section Parser.
Context {E : Type} (sqlite3Parser : E -> option token -> list Z -> Parse -> E * Parse).

(** [sLastToken], [lastTokenParsed], the stack and [Parse]. *)
Record parser_state := { last_text : list Z; last_parsed : option token; engine : E; parse : Parse }.

Definition feed (t : option token) (s : parser_state) : parser_state :=
  let '(e, p) := sqlite3Parser (engine s) t (last_text s) (parse s) in
  {| last_text := last_text s; last_parsed := match t with Some _ => t | None => last_parsed s end; engine := e; parse := p |}.

Definition with_parse (p : Parse) (s : parser_state) : parser_state :=
  {| last_text := last_text s; last_parsed := last_parsed s; engine := engine s; parse := p |}.
Definition with_text (z : list Z) (s : parser_state) : parser_state :=
  {| last_text := z; last_parsed := last_parsed s; engine := engine s; parse := parse s |}.

(** [Overread]: a byte behind the terminator is read. *)
Inductive outcome :=
| Done (i : nat) (s : parser_state)
| Overread
| Out_of_fuel.

(** [zSql[i]]. *)
Definition read (z : list Z) (i : nat) : option Z := if (i <=? length z)%nat then Some (nth i z 0) else None.

(** The code after [abort_parse]. *)
Definition finish (z : list Z) (i : nat) (s : parser_state) : outcome :=
  match read z i with
  | None => Overread
  | Some c =>
      let s :=
        if (c =? 0) && (rc (parse s) =? SQLITE_OK) && negb (mallocFailed (parse s)) then
          let s := if is_semi (last_parsed s) then s
                   else let s := feed (Some TK_SEMI) s in with_parse (set_tail i (parse s)) s in
          if (rc (parse s) =? SQLITE_OK) && negb (mallocFailed (parse s)) then feed None s else s
        else s in
      Done i (if mallocFailed (parse s) then with_parse (set_rc SQLITE_NOMEM (parse s)) s else s)
  end.

Fixpoint parse_loop (fuel : nat) (mxSqlLen : Z) (z : list Z) (i : nat) (s : parser_state) : outcome :=
  match fuel with
  | O => Out_of_fuel
  | S fuel =>
      if mallocFailed (parse s) then finish z i s
      else
        match read z i with
        | None => Overread
        | Some c =>
            if c =? 0 then finish z i s
            else
              let '(n, t) := sqlite3GetToken (drop i z) in
              let s := with_text (take n (drop i z)) s in
              let i := (i + n)%nat in
              if mxSqlLen <? Z.of_nat i then finish z i (with_parse (set_rc SQLITE_TOOBIG (parse s)) s)
              else
                match switch t with
                | Arm_space =>
                    if isInterrupted (parse s) then finish z i (with_parse (set_rc SQLITE_INTERRUPT (parse s)) s)
                    else parse_loop fuel mxSqlLen z i s
                | Arm_illegal => finish z i (with_parse (set_rc SQLITE_ERROR (parse s)) s)
                | a =>
                    let s := match a with Arm_semi => with_parse (set_tail i (parse s)) s | _ => s end in
                    let s := feed (Some t) s in
                    if negb (rc (parse s) =? SQLITE_OK) then finish z i s else parse_loop fuel mxSqlLen z i s
                end
        end
  end.

(** [e] is the stack that [sqlite3ParserAlloc] makes. *)
Definition sqlite3RunParser (mxSqlLen : Z) (z : list Z) (e : E) (interrupted : bool) : outcome :=
  parse_loop (S (length z)) mxSqlLen z 0
    {| last_text := []; last_parsed := None; engine := e;
       parse := {| rc := SQLITE_OK; zTail := 0; mallocFailed := false; isInterrupted := interrupted |} |}.
End Parser.

Arguments parser_state : clear implicits.
Arguments outcome : clear implicits.

(** ** The text as tokens *)

(** All tokens of a text, spaces and comments included. *)
Fixpoint tokenize (fuel : nat) (z : list Z) : list (token * list Z) :=
  match fuel with
  | O => []
  | S fuel =>
      match z with
      | [] => []
      | _ => let '(n, t) := sqlite3GetToken z in (t, take n z) :: tokenize fuel (drop n z)
      end
  end.

Definition tokens (z : list Z) : list (token * list Z) := tokenize (length z) z.

Example tokens_example : map fst (tokens (lit "SELECT a, 'it''s' FROM t WHERE x1>=0x1F--c")) =
  [TK_SELECT; TK_SPACE; TK_ID; TK_COMMA; TK_SPACE; TK_STRING; TK_SPACE; TK_FROM; TK_SPACE; TK_ID; TK_SPACE; TK_WHERE;
   TK_SPACE; TK_ID; TK_GE; TK_INTEGER; TK_SPACE].
Proof. reflexivity. Qed.

(** ** Lengths *)

Lemma span_length p z : (span p z <= length z)%nat.
Proof. induction z as [|c z IH]; simpl; [done |]. destruct (p c); lia. Qed.

Lemma span_drop_length p k z : (k <= length z)%nat -> (k + span p (drop k z) <= length z)%nat.
Proof. intros Hk. pose proof (span_length p (drop k z)) as H. rewrite length_drop in H. lia. Qed.

Lemma nth_inside k z : nth k z 0 <> 0 -> (k < length z)%nat.
Proof. intros H. destruct (Nat.lt_ge_cases k (length z)) as [|Hk]; [done |]. by rewrite nth_overflow in H. Qed.

Lemma comment_length c z : (fst (comment_loop c z) + (if (snd (comment_loop c z) =? 0)%Z then 0 else 1) <= length z)%nat.
Proof.
  revert c. induction z as [|d z IH]; intros c; simpl; [done |]. repeat case_if; simpl; repeat case_if; try lia.
  - specialize (IH d). destruct (comment_loop d z) as [n c']. simpl in *. subst. simpl in IH. lia.
  - specialize (IH d). destruct (comment_loop d z) as [n c']. simpl in *. destruct (Z.eqb_spec c' 0); [done | lia].
Qed.

Lemma quote_length q z : (fst (quote_loop q z) + (if (snd (quote_loop q z) =? 0)%Z then 0 else 1) <= length z)%nat.
Proof.
  assert (forall k z, (length z <= k)%nat ->
    (fst (quote_loop q z) + (if (snd (quote_loop q z) =? 0)%Z then 0 else 1) <= length z)%nat) as H; [| by apply (H (length z))].
  clear z. induction k as [|k IH]; intros [|c z] Hk; simpl in *; try lia.
  destruct (Z.eqb_spec c 0); simpl; [lia |]. destruct (Z.eqb_spec c q); simpl.
  - destruct z as [|d z]; simpl; [destruct (_ =? _); lia |]. destruct (d =? q); simpl; [| destruct (_ =? _); lia].
    simpl in Hk. specialize (IH z ltac:(lia)). destruct (quote_loop q z). simpl in *. destruct (_ =? _); lia.
  - specialize (IH z ltac:(lia)). destruct (quote_loop q z). simpl in *. destruct (_ =? _); lia.
Qed.

Lemma bracket_length c z : (fst (bracket_loop c z) <= length z)%nat.
Proof.
  revert c. induction z as [|d z IH]; intros c; simpl; [by destruct (c =? 93) |].
  destruct (c =? 93), (d =? 0); simpl; try lia. specialize (IH d). destruct (bracket_loop d z). simpl in *. lia.
Qed.

Lemma var_length z n : (fst (fst (var_loop z n)) <= length z)%nat.
Proof.
  assert (forall k z n, (length z <= k)%nat -> (fst (fst (var_loop z n)) <= length z)%nat) as H; [| by apply (H (length z))].
  clear z n. induction k as [|k IH]; intros [|c z] n Hk; simpl in *; try lia.
  destruct (c =? 0); simpl; [lia |]. destruct (IdChar c).
  { specialize (IH z (S n) ltac:(lia)). destruct (var_loop z (S n)) as [[i ?] ?]. simpl in *. lia. }
  destruct ((c =? 40) && (0 <? n)%nat).
  { match goal with |- context [span ?p z] => pose proof (span_length p z); set (m := span p z) in * end.
    destruct (Z.eqb_spec (nth m z 0) 41) as [E|]; simpl; [| lia].
    assert (m < length z)%nat by (apply nth_inside; rewrite E; done). lia. }
  destruct (c =? 58); simpl; [| lia]. destruct z as [|d z]; simpl; [lia |]. destruct (d =? 58); simpl; [| lia].
  simpl in Hk. specialize (IH z n ltac:(lia)). destruct (var_loop z n) as [[i ?] ?]. simpl in *. lia.
Qed.

Lemma IdChar_byte c : 0 <= c < 256 ->
  IdChar c = ((48 <=? c) && (c <=? 57) || (65 <=? c) && (c <=? 90) || (97 <=? c) && (c <=? 122) || (c =? 95) || (c =? 36) || (128 <=? c)).
Proof.
  intros Hc. apply eqb_prop.
  exact (byte_forall (fun c => Bool.eqb (IdChar c) ((48 <=? c) && (c <=? 57) || (65 <=? c) && (c <=? 90) || (97 <=? c) && (c <=? 122) || (c =? 95) || (c =? 36) || (128 <=? c)))
    ltac:(vm_compute; reflexivity) c Hc).
Qed.

Lemma Isdigit_byte c : 0 <= c < 256 -> sqlite3Isdigit c = ((48 <=? c) && (c <=? 57)).
Proof.
  intros Hc. apply eqb_prop.
  exact (byte_forall (fun c => Bool.eqb (sqlite3Isdigit c) ((48 <=? c) && (c <=? 57))) ltac:(vm_compute; reflexivity) c Hc).
Qed.

Lemma number_length z : cstring z -> (48 <= nth 0 z 0 <= 57 \/ nth 0 z 0 = 46) ->
  (1 <= fst (number_token z) <= length z)%nat.
Proof.
  intros Hz H0. assert (0 < length z)%nat as Hl by (apply nth_inside; lia). unfold number_token.
  destruct (_ && _) eqn:Hx.
  { bool_to_prop. assert (2 < length z)%nat as Hlen.
    { apply nth_inside. intros E. rewrite E in *. done. }
    pose proof (span_drop_length sqlite3Isxdigit 3 z ltac:(lia)). simpl. lia. }
  clear Hx. cbv zeta. pose proof (span_length sqlite3Isdigit z) as H1. set (i := span sqlite3Isdigit z) in *.
  assert ((1 <= i)%nat \/ nth i z 0 = 46) as Hi.
  { destruct z as [|c z]; [simpl in Hl; lia |]. subst i. simpl in H0 |- *.
    rewrite Isdigit_byte by (apply Forall_cons in Hz as [? _]; lia).
    destruct H0 as [H0 | ->]; [left | by right]. destruct (Z.leb_spec 48 c), (Z.leb_spec c 57); simpl; lia. }
  set (f := if nth i z 0 =? 46 then _ else _).
  assert (1 <= fst f <= length z)%nat as Hf.
  { subst f. destruct (Z.eqb_spec (nth i z 0) 46) as [E|]; simpl; [| lia].
    assert (i < length z)%nat by (apply nth_inside; lia).
    pose proof (span_drop_length sqlite3Isdigit (i + 1) z ltac:(lia)). lia. }
  clearbody f. destruct f as [j t]. simpl in Hf.
  set (f := if _ && _ then _ else _).
  assert (1 <= fst f <= length z)%nat as Hf'.
  { subst f. destruct (_ && _) eqn:He; simpl; [| lia]. apply andb_prop in He as [_ He].
    assert (j + 2 <= length z)%nat as Hj.
    { apply orb_prop in He as [He | He]; [| apply andb_prop in He as [_ He]].
      - assert (j + 1 < length z)%nat; [| lia]. apply nth_inside. intros E. by rewrite E in He.
      - assert (j + 2 < length z)%nat; [| lia]. apply nth_inside. intros E. by rewrite E in He. }
    pose proof (span_drop_length sqlite3Isdigit (j + 2) z Hj). lia. }
  clearbody f. destruct f as [k t']. simpl in Hf'.
  pose proof (span_drop_length IdChar k z ltac:(lia)). simpl. lia.
Qed.

Lemma blob_length z : nth 1 z 0 = 39 -> (1 <= fst (blob_token z) <= length z)%nat.
Proof.
  intros H1. assert (1 < length z)%nat by (apply nth_inside; lia). unfold blob_token. cbv zeta. cbn [fst].
  pose proof (span_drop_length sqlite3Isxdigit 2 z ltac:(lia)) as Hi. set (i := (2 + span _ _)%nat) in *.
  set (j := if _ : bool then _ else i).
  assert (2 <= j <= length z)%nat as Hj.
  { subst j. destruct (_ || _); [| lia].
    match goal with |- context [span ?p (drop i z)] => pose proof (span_drop_length p i z ltac:(lia)) end. lia. }
  destruct (Z.eqb_spec (nth j z 0) 0) as [|E]; [lia |]. apply nth_inside in E. lia.
Qed.

(** The tokens of two or three characters. *)
Lemma small_length z : (0 < length z)%nat ->
  (1 <= fst (comment_token z) <= length z)%nat /\ (1 <= fst (less_token z) <= length z)%nat /\
  (1 <= fst (greater_token z) <= length z)%nat /\ (1 <= fst (bracket_token z) <= length z)%nat /\
  (1 <= fst (variable_token z) <= length z)%nat /\ (1 <= fst (identifier_token z) <= length z)%nat.
Proof.
  intros Hl. assert (forall k, nth k z 0 <> 0 -> (k < length z)%nat) as Hin by (intros; by apply nth_inside).
  assert (nth 1 z 0 = 0 \/ (1 < length z)%nat) as Hin1
    by (destruct (Z.eq_dec (nth 1 z 0) 0); [by left | right; by apply Hin]).
  split; [| split; [| split; [| split; [| split]]]].
  - unfold comment_token. destruct (_ || _) eqn:Hb; [simpl; lia |]. bool_to_prop. specialize (Hin 2%nat ltac:(lia)).
    pose proof (comment_length (nth 2 z 0) (drop 3 z)) as Hc. rewrite length_drop in Hc.
    destruct (comment_loop _ _) as [i c]. simpl in *. destruct (c =? 0)%Z; lia.
  - unfold less_token. repeat case_if; simpl; lia.
  - unfold greater_token. repeat case_if; simpl; lia.
  - unfold bracket_token. pose proof (bracket_length 91 (drop 1 z)) as Hc. rewrite length_drop in Hc.
    destruct (bracket_loop _ _). simpl in *. lia.
  - unfold variable_token. pose proof (var_length (drop 1 z) 0) as Hc. rewrite length_drop in Hc.
    destruct (var_loop _ _) as [[? ?] ?]. simpl in *. lia.
  - unfold identifier_token. destruct (negb _); [simpl; lia |]. cbv zeta. cbn [fst].
    pose proof (span_drop_length IdChar 1 z ltac:(lia)). lia.
Qed.

Lemma quoted_length q z : (0 < length z)%nat -> (1 <= fst (quoted_token q z) <= length z)%nat.
Proof.
  intros Hl. unfold quoted_token. pose proof (quote_length q (drop 1 z)) as Hc. rewrite length_drop in Hc.
  destruct (quote_loop _ _) as [i c]. simpl in *. repeat case_if; simpl; try lia.
  all: destruct (Z.eqb_spec c 0) in Hc; lia.
Qed.

(** A token is not empty and lies within the text, but for a ['!'] that ends it. *)
Lemma GetToken_length z : cstring z -> z <> [] -> z <> [33] ->
  (1 <= fst (sqlite3GetToken z) <= length z)%nat.
Proof.
  intros Hz Hn Hb. assert (0 < length z)%nat as Hl by (destruct z; [done | simpl; lia]).
  assert (forall k, nth k z 0 <> 0 -> (k < length z)%nat) as Hin by (intros; by apply nth_inside).
  destruct (small_length z Hl) as (? & ? & ? & ? & ? & ?).
  unfold sqlite3GetToken. cbv zeta. set (c := nth 0 z 0) in *.
  repeat match goal with |- (1 <= fst (if ?b then _ else _) <= _)%nat => destruct b eqn:?; bool_to_prop end;
    cbn [fst]; try done; try lia.
  - pose proof (span_drop_length sqlite3Isspace 1 z Hl). lia.
  - specialize (Hin 1%nat ltac:(lia)).
    match goal with |- context [span ?p _] => pose proof (span_drop_length p 2 z Hin) end. lia.
  - destruct (Z.eqb_spec (nth 1 z 0) 61); [specialize (Hin 1%nat ltac:(lia)) |]; lia.
  - subst c. destruct z as [|a [|b z]]; simpl in *; [lia | congruence | lia].
  - specialize (Hin 1%nat ltac:(lia)). lia.
  - by apply quoted_length.
  - apply number_length; [done | by right].
  - apply number_length; [done | left; lia].
  - pose proof (span_drop_length sqlite3Isdigit 1 z Hl). lia.
  - by apply blob_length.
Qed.

(** ** Nothing behind the terminator is read *)

Section Terminator.
Context (j : list Z).

Lemma span_nul p s : p 0 = false -> span p (s ++ 0 :: j) = span p s.
Proof. intros Hp. induction s as [|c s IH]; simpl; [by rewrite Hp | by rewrite IH]. Qed.

Lemma nth_nul k s : (k <= length s)%nat -> nth k (s ++ 0 :: j) 0 = nth k s 0.
Proof.
  intros Hk. destruct (Nat.eq_dec k (length s)) as [-> | Hn]; [| by rewrite app_nth1 by lia].
  rewrite app_nth2, Nat.sub_diag by lia. by rewrite (nth_overflow s) by lia.
Qed.

Lemma drop_nul k s : (k <= length s)%nat -> drop k (s ++ 0 :: j) = drop k s ++ 0 :: j.
Proof. intros Hk. by rewrite drop_app_le by lia. Qed.

Lemma comment_nul c s : comment_loop c (s ++ 0 :: j) = comment_loop c s.
Proof.
  revert c. induction s as [|d s IH]; intros c; simpl; [by rewrite andb_false_r |]. by rewrite IH.
Qed.

Lemma quote_nul q s : q <> 0 -> quote_loop q (s ++ 0 :: j) = quote_loop q s.
Proof.
  intros Hq. assert (forall k s, (length s <= k)%nat -> quote_loop q (s ++ 0 :: j) = quote_loop q s) as H; [| by apply (H (length s))].
  clear s. induction k as [|k IH]; intros [|c s] Hk; simpl in *; try lia; [done.. |].
  rewrite IH by lia. destruct s as [|d s]; simpl.
  - by destruct q.
  - simpl in Hk. by rewrite IH by lia.
Qed.

Lemma bracket_nul c s : bracket_loop c (s ++ 0 :: j) = bracket_loop c s.
Proof. revert c. induction s as [|d s IH]; intros c; simpl; [done |]. by rewrite IH. Qed.

Lemma var_nul s n : var_loop (s ++ 0 :: j) n = var_loop s n.
Proof.
  assert (forall k s n, (length s <= k)%nat -> var_loop (s ++ 0 :: j) n = var_loop s n) as H; [| by apply (H (length s))].
  clear s n. induction k as [|k IH]; intros [|c s] n Hk; simpl in *; try lia; [done.. |].
  rewrite IH by lia. rewrite span_nul, nth_nul by (done || apply span_length).
  destruct s as [|d s]; simpl; [done |]. simpl in Hk. by rewrite IH by lia.
Qed.

Lemma keyword_nul s n : (n <= length s)%nat -> keywordCode (s ++ 0 :: j) n = keywordCode s n.
Proof.
  intros Hn. unfold keywordCode. destruct (Nat.ltb_spec n 2); [done |].
  assert (keyword_hash (s ++ 0 :: j) n = keyword_hash s n) as -> by (unfold keyword_hash; by rewrite !nth_nul by lia).
  generalize (Znth aHash (keyword_hash s n)). generalize 125%nat. intros fuel. induction fuel as [|fuel IH]; intros i; [done |].
  cbn [keyword_loop]. rewrite IH.
  assert (forall a, nicmp_loop a (s ++ 0 :: j) n = nicmp_loop a s n) as ->; [| done].
  intros a. clear -Hn. revert s n Hn. induction a as [|y a IH]; intros s [|n] Hn; [done | | done |];
    (destruct s as [|x s]; [simpl in Hn; lia |]); simpl in *; [done |]. by rewrite IH by lia.
Qed.

Lemma number_nul s : cstring s -> (48 <= nth 0 s 0 <= 57 \/ nth 0 s 0 = 46) -> number_token (s ++ 0 :: j) = number_token s.
Proof.
  intros Hs H0. assert (0 < length s)%nat as Hl by (apply nth_inside; lia). unfold number_token. cbv zeta.
  assert ((nth 0 (s ++ 0 :: j) 0 =? 48) && ((nth 1 (s ++ 0 :: j) 0 =? 120) || (nth 1 (s ++ 0 :: j) 0 =? 88)) &&
          sqlite3Isxdigit (nth 2 (s ++ 0 :: j) 0) =
          (nth 0 s 0 =? 48) && ((nth 1 s 0 =? 120) || (nth 1 s 0 =? 88)) && sqlite3Isxdigit (nth 2 s 0)) as ->.
  { destruct s as [|a [|b s]]; simpl; [done | by rewrite !andb_false_r |]. destruct s; done. }
  destruct (_ && _) eqn:Hx.
  { assert (2 < length s)%nat as Hlen.
    { apply nth_inside. intros E. rewrite E in Hx. by rewrite andb_false_r in Hx. }
    by rewrite drop_nul, span_nul by (done || lia). }
  clear Hx. rewrite span_nul by done. pose proof (span_length sqlite3Isdigit s) as H1. set (i := span sqlite3Isdigit s) in *.
  rewrite nth_nul by done.
  set (f := if nth i s 0 =? 46 then _ else _). set (g := if nth i s 0 =? 46 then (_, _) else (i, TK_INTEGER)).
  assert (f = g /\ fst g <= length s)%nat as [-> Hg].
  { subst f g. destruct (Z.eqb_spec (nth i s 0) 46) as [E|]; [| done].
    assert (i < length s)%nat by (apply nth_inside; lia). rewrite drop_nul, span_nul by (done || lia). split; [done |].
    pose proof (span_drop_length sqlite3Isdigit (i + 1) s ltac:(lia)). simpl. lia. }
  clearbody g. destruct g as [k t]. simpl in Hg.
  set (f := if _ && _ then _ else _). set (g := if _ && _ then (_, _) else (k, t)) in |- *.
  assert (f = g /\ fst g <= length s)%nat as [-> Hg'].
  { subst f g. rewrite nth_nul by done.
    destruct (Nat.eq_dec k (length s)) as [-> | Hk]; [rewrite (nth_overflow s) by lia; simpl; done |].
    rewrite (nth_nul (k + 1)) by lia.
    destruct (Nat.eq_dec (k + 1) (length s)) as [Hk1 | Hk1].
    - rewrite (nth_overflow s (n := k + 1)) by lia. simpl. rewrite andb_false_r. done.
    - rewrite (nth_nul (k + 2)) by lia. destruct (_ && _); [| done]. rewrite drop_nul, span_nul by (done || lia). split; [done |].
      pose proof (span_drop_length sqlite3Isdigit (k + 2) s ltac:(lia)). simpl. lia. }
  clearbody g. destruct g as [k' t']. simpl in Hg'. by rewrite drop_nul, span_nul by (done || lia).
Qed.

Lemma GetToken_nul s : cstring s -> sqlite3GetToken (s ++ 0 :: j) = sqlite3GetToken s.
Proof.
  intros Hs. destruct (decide (s = [])) as [-> | Hn]; [by vm_compute |].
  assert (0 < length s)%nat as Hl by (destruct s; [done | simpl; lia]).
  assert (forall k, (k <= 1)%nat -> nth k (s ++ 0 :: j) 0 = nth k s 0) as Hnth by (intros; apply nth_nul; lia).
  unfold sqlite3GetToken. cbv zeta. rewrite !Hnth, !drop_nul, !span_nul by (done || lia).
  set (c := nth 0 s 0).
  repeat match goal with |- (if ?b then _ else _) = _ => destruct b eqn:?; bool_to_prop end; try done.
  - by rewrite drop_nul, span_nul by (done || (apply nth_inside; lia)).
  - unfold comment_token. rewrite Hnth by lia. destruct (Z.eqb_spec (nth 1 s 0) 42) as [E|]; [| done].
    assert (1 < length s)%nat by (apply nth_inside; lia). rewrite nth_nul by lia. cbn [negb orb].
    destruct (Z.eqb_spec (nth 2 s 0) 0) as [|E2]; [done |]. apply nth_inside in E2.
    by rewrite drop_nul, comment_nul by lia.
  - unfold less_token. by rewrite Hnth by lia.
  - unfold greater_token. by rewrite Hnth by lia.
  - unfold quoted_token. rewrite drop_nul, quote_nul; [done | | lia].
    intros Hc. rewrite Hc in *. done.
  - by apply number_nul; [| right].
  - apply number_nul; [done | left; lia].
  - unfold bracket_token. by rewrite drop_nul, bracket_nul by lia.
  - unfold variable_token. by rewrite drop_nul, var_nul by lia.
  - unfold blob_token. cbv zeta. rewrite drop_nul, span_nul by (done || (apply nth_inside; lia)).
    pose proof (span_drop_length sqlite3Isxdigit 2 s ltac:(apply nth_inside; lia)) as Hi.
    set (i := (2 + span _ _)%nat) in *. rewrite nth_nul, drop_nul, span_nul by (done || lia).
    destruct (negb _ || _); [| by rewrite nth_nul by lia].
    match goal with |- context [span ?p (drop i s)] => pose proof (span_drop_length p i s ltac:(lia)) end.
    by rewrite nth_nul by lia.
  - unfold identifier_token. rewrite Hnth by lia. destruct (negb _); [done |]. cbv zeta.
    rewrite drop_nul, span_nul by (done || lia). rewrite keyword_nul; [done |]. apply span_drop_length. lia.
Qed.
End Terminator.

(** ** The text is its tokens *)

Lemma GetToken_progress z : cstring z -> z <> [] -> (1 <= fst (sqlite3GetToken z))%nat.
Proof.
  intros Hz Hn. destruct (decide (z = [33])) as [-> |]; [vm_compute; lia | by apply GetToken_length].
Qed.

Lemma tokenize_fuel f1 : forall f2 z, cstring z -> (length z <= f1)%nat -> (length z <= f2)%nat ->
  tokenize f1 z = tokenize f2 z.
Proof.
  induction f1 as [|f1 IH]; intros [|f2] [|c z] Hz H1 H2; simpl in H1, H2; try done; try lia.
  cbn [tokenize]. pose proof (GetToken_progress (c :: z) Hz ltac:(done)) as Hp.
  destruct (sqlite3GetToken (c :: z)) as [n t]. simpl in Hp. f_equal.
  apply IH; [by apply Forall_drop | rewrite length_drop; simpl; lia ..].
Qed.

Lemma tokens_step z : cstring z -> z <> [] ->
  tokens z = (snd (sqlite3GetToken z), take (fst (sqlite3GetToken z)) z) :: tokens (drop (fst (sqlite3GetToken z)) z).
Proof.
  intros Hz Hn. unfold tokens at 1. destruct z as [|c z]; [done |]. cbn [length tokenize].
  pose proof (GetToken_progress (c :: z) Hz Hn) as Hp. destruct (sqlite3GetToken (c :: z)) as [n t]. simpl in Hp |- *.
  f_equal. apply tokenize_fuel; [by apply Forall_drop | rewrite length_drop; simpl in *; lia | done].
Qed.

(** Induction along the tokens. *)
Lemma tokens_ind (P : list Z -> Prop) :
  P [] -> (forall z, cstring z -> z <> [] -> P (drop (fst (sqlite3GetToken z)) z) -> P z) -> forall z, cstring z -> P z.
Proof.
  intros H0 HS z. remember (length z) as k eqn:Hk. assert (length z <= k)%nat as Hl by lia. clear Hk.
  revert z Hl. induction k as [|k IH]; intros z Hl Hz.
  - by destruct z; [| simpl in Hl; lia].
  - destruct (decide (z = [])) as [-> | Hn]; [done |]. apply HS; [done.. |].
    pose proof (GetToken_progress z Hz Hn). apply IH; [rewrite length_drop; lia | by apply Forall_drop].
Qed.

Lemma tokens_text z : cstring z -> mjoin (map snd (tokens z)) = z.
Proof.
  revert z. apply tokens_ind; [done |]. intros z Hz Hn IH. rewrite tokens_step by done. simpl. rewrite IH. apply take_drop.
Qed.

Definition blank (p : token * list Z) : bool := match switch p.1 with Arm_space => true | _ => false end.

(** The tokens that the parser gets. *)
Definition significant (z : list Z) : list (token * list Z) := List.filter (fun p => negb (blank p)) (tokens z).

Definition legal (z : list Z) : Prop := Forall (fun p => p.1 <> TK_ILLEGAL) (tokens z).

(** ** What the parser gets *)

Section Run.
Context {E : Type} (sqlite3Parser : E -> option token -> list Z -> Parse -> E * Parse).

Lemma finish_ok z i s : (i <= length z)%nat -> exists s', finish sqlite3Parser z i s = Done i s'.
Proof. intros Hi. unfold finish, read. destruct (Nat.leb_spec i (length z)); [eexists; done | lia]. Qed.

Definition fine (z : list Z) (o : outcome E) : Prop :=
  match o with
  | Done i _ => (i <= length z)%nat
  | Overread => last z = Some 33
  | Out_of_fuel => False
  end.

Lemma finish_fine z i n s : (i < length z)%nat -> (n <= length (drop i z))%nat \/ drop i z = [33] ->
  fine z (finish sqlite3Parser z (i + n) s).
Proof.
  rewrite length_drop. intros Hi Hn. destruct (Nat.le_gt_cases (i + n) (length z)) as [Hle | Hgt].
  - by destruct (finish_ok z (i + n) s Hle) as (s' & ->).
  - destruct Hn as [Hn | Hn]; [lia |]. unfold finish, read. destruct (Nat.leb_spec (i + n) (length z)); [lia |]. simpl.
    rewrite <-(take_drop i z), Hn. by rewrite last_snoc.
Qed.

Lemma parse_loop_fine mx z fuel : cstring z -> forall i s, (i <= length z)%nat -> (length z - i < fuel)%nat ->
  fine z (parse_loop sqlite3Parser fuel mx z i s).
Proof.
  intros Hz. induction fuel as [|fuel IH]; intros i s Hi Hf; [lia |]. cbn [parse_loop].
  assert (forall s, fine z (finish sqlite3Parser z i s)) as Hfin by (intros s'; by destruct (finish_ok z i s' Hi) as (? & ->)).
  destruct (mallocFailed (parse s)); [apply Hfin |]. unfold read. destruct (Nat.leb_spec i (length z)); [| lia].
  destruct (Z.eqb_spec (nth i z 0) 0) as [|E0]; [apply Hfin |]. apply nth_inside in E0.
  assert (cstring (drop i z)) as Hd by (by apply Forall_drop).
  assert (drop i z <> []) as Hdn by (intros E1; apply (f_equal length) in E1; rewrite length_drop in E1; simpl in E1; lia).
  pose proof (GetToken_progress _ Hd Hdn) as Hp.
  assert ((fst (sqlite3GetToken (drop i z)) <= length (drop i z))%nat \/ drop i z = [33]) as Hn
    by (destruct (decide (drop i z = [33])); [by right | left; by apply GetToken_length]).
  assert (sqlite3GetToken [33] = (2%nat, TK_ILLEGAL)) as Hbang by reflexivity.
  destruct (sqlite3GetToken (drop i z)) as [n t] eqn:Ht. simpl in Hp, Hn.
  assert (forall s, fine z (finish sqlite3Parser z (i + n) s)) as Hfin' by (intros; by apply finish_fine).
  destruct (_ <? _); [apply Hfin' |].
  assert (t <> TK_ILLEGAL -> forall s, fine z (parse_loop sqlite3Parser fuel mx z (i + n) s)) as Hloop.
  { intros Hil s'. rewrite length_drop in Hn. destruct Hn as [Hn | Hn]; [apply IH; lia |]. rewrite Hn, Hbang in Ht. by injection Ht as <- <-. }
  destruct (switch t) eqn:Hs; [| apply Hfin' | |].
  1: destruct (isInterrupted _); [apply Hfin' |].
  2-3: cbv zeta; destruct (negb _); [apply Hfin' |].
  all: apply Hloop; by intros ->.
Qed.

(** A parser that takes every token it gets. *)
Context (shift : E -> option token -> list Z -> E).
Context (Hshift : forall e t x p, sqlite3Parser e t x p = (shift e t x, p)).

Definition feed_all (e : E) (l : list (token * list Z)) : E := fold_left (fun e p => shift e (Some p.1) p.2) l e.

(** All of them, and what is added at the end of the text. *)
Definition delivered (z : list Z) (e : E) : E :=
  let text := default [] (snd <$> last (tokens z)) in
  let e := feed_all e (significant z) in
  let e := if is_semi (fst <$> last (significant z)) then e else shift e (Some TK_SEMI) text in
  shift e None text.

Definition nonblank (l : list (token * list Z)) : list (token * list Z) := List.filter (fun p => negb (blank p)) l.

(** The tokens of [seen] have been read. *)
Record ran (e : E) (seen : list (token * list Z)) (s : parser_state E) : Prop := {
  ran_engine : engine s = feed_all e (nonblank seen);
  ran_parsed : last_parsed s = fst <$> last (nonblank seen);
  ran_text : last_text s = default [] (snd <$> last seen);
  ran_rc : rc (parse s) = SQLITE_OK;
  ran_malloc : mallocFailed (parse s) = false;
  ran_interrupt : isInterrupted (parse s) = false
}.

Lemma nonblank_snoc seen p : nonblank (seen ++ [p]) = if blank p then nonblank seen else nonblank seen ++ [p].
Proof. unfold nonblank. rewrite List.filter_app. simpl. destruct (blank p); simpl; [by rewrite app_nil_r | done]. Qed.

Lemma feed_state t s : feed sqlite3Parser t s =
  {| last_text := last_text s; last_parsed := match t with Some _ => t | None => last_parsed s end;
     engine := shift (engine s) t (last_text s); parse := parse s |}.
Proof using Hshift. unfold feed. by rewrite Hshift. Qed.

Lemma ran_blank e seen t x s : ran e seen s -> blank (t, x) = true -> ran e (seen ++ [(t, x)]) (with_text x s).
Proof.
  intros [] Hb. split; simpl; rewrite ?nonblank_snoc, ?Hb; try done. by rewrite last_snoc.
Qed.

Lemma ran_token e seen t x s i : ran e seen s -> blank (t, x) = false ->
  ran e (seen ++ [(t, x)])
    {| last_text := x; last_parsed := Some t; engine := shift (engine s) (Some t) x; parse := set_tail i (parse s) |} /\
  ran e (seen ++ [(t, x)])
    {| last_text := x; last_parsed := Some t; engine := shift (engine s) (Some t) x; parse := parse s |}.
Proof.
  intros [] Hb. split; split; simpl; rewrite ?nonblank_snoc, ?Hb, ?last_snoc; try done;
    unfold feed_all in *; rewrite fold_left_app; simpl; by f_equal.
Qed.

(** One turn of the loop. *)
Lemma parse_loop_step mx z fuel i s e seen :
  cstring z -> Zlen z <= mx -> (i < length z)%nat -> ran e seen s ->
  let p := (snd (sqlite3GetToken (drop i z)), take (fst (sqlite3GetToken (drop i z))) (drop i z)) in
  p.1 <> TK_ILLEGAL ->
  (i + fst (sqlite3GetToken (drop i z)) <= length z)%nat /\
  exists s', ran e (seen ++ [p]) s' /\
    parse_loop sqlite3Parser (S fuel) mx z i s = parse_loop sqlite3Parser fuel mx z (i + fst (sqlite3GetToken (drop i z))) s'.
Proof using Hshift.
  intros Hz Hmx Hi Hs. set (d := drop i z).
  assert (cstring d) as Hd by (by apply Forall_drop).
  assert (length d = (length z - i)%nat) as Hdl by (unfold d; apply length_drop).
  assert (d <> []) as Hdn by (intros E0; rewrite E0 in Hdl; simpl in Hdl; lia).
  assert (d = [33] -> snd (sqlite3GetToken d) = TK_ILLEGAL) as Hbang by (by intros ->).
  pose proof (GetToken_length d Hd Hdn) as Hn. cbn [parse_loop]. rewrite (ran_malloc _ _ _ Hs). unfold read.
  destruct (Nat.leb_spec i (length z)); [| lia].
  destruct (Z.eqb_spec (nth i z 0) 0) as [E0|_].
  { exfalso. apply Forall_nth with (d := 0) (i := i) in Hz; [lia | done]. }
  destruct (sqlite3GetToken d) as [n t] eqn:Ht. cbn [fst snd]. intros Hill. unfold d in Ht. rewrite Ht.
  destruct (decide (d = [33])) as [Hb | Hb]; [by apply Hbang in Hb |]. specialize (Hn Hb). cbn [fst] in Hn.
  destruct (Z.ltb_spec mx (Z.of_nat (i + n))); [unfold Zlen in Hmx; lia |]. split; [lia |].
  assert (blank (t, take n d) = match switch t with Arm_space => true | _ => false end) as Hbl by done.
  destruct (switch t) eqn:Hsw; [| by destruct t | |];
    cbv zeta; rewrite ?feed_state; cbn [parse with_parse with_text set_tail rc isInterrupted].
  - rewrite (ran_interrupt _ _ _ Hs). eexists. split; [by apply (ran_blank e seen t) | done].
  - rewrite (ran_rc _ _ _ Hs). eexists. split; [exact (proj1 (ran_token e seen t (take n d) s (i + n) Hs Hbl)) | done].
  - rewrite (ran_rc _ _ _ Hs). eexists. split; [exact (proj2 (ran_token e seen t (take n d) s 0 Hs Hbl)) | done].
Qed.

Lemma parse_loop_runs mx z e l2 : cstring z -> Zlen z <= mx ->
  forall l i s seen fuel, (i <= length z)%nat -> (length z - i < fuel)%nat -> ran e seen s ->
  tokens (drop i z) = l ++ l2 -> Forall (fun p => p.1 <> TK_ILLEGAL) l ->
  exists k s' fuel', ran e (seen ++ l) s' /\ (k <= length z)%nat /\ (length z - k < fuel')%nat /\ tokens (drop k z) = l2 /\
    parse_loop sqlite3Parser fuel mx z i s = parse_loop sqlite3Parser fuel' mx z k s'.
Proof using Hshift.
  intros Hz Hmx l. induction l as [|p l IH]; intros i s seen fuel Hi Hf Hs Ht Hl.
  - exists i, s, fuel. by rewrite app_nil_r.
  - assert (drop i z <> []) as Hdn by (intros E0; by rewrite E0 in Ht).
    assert (i < length z)%nat as Hi'.
    { destruct (Nat.eq_dec i (length z)) as [-> |]; [by rewrite drop_all in Hdn | lia]. }
    assert (cstring (drop i z)) as Hd by (by apply Forall_drop).
    rewrite tokens_step in Ht by done. simpl in Ht. injection Ht as <- Ht. apply Forall_cons in Hl as [Hp Hl].
    destruct fuel as [|fuel]; [lia |].
    destruct (parse_loop_step mx z fuel i s e seen Hz Hmx Hi' Hs Hp) as (Hn & s' & Hs' & ->).
    rewrite drop_drop in Ht. pose proof (GetToken_progress _ Hd Hdn) as Hprog.
    destruct (IH (i + (sqlite3GetToken (drop i z)).1)%nat s' _ fuel ltac:(lia) ltac:(lia) Hs' Ht Hl) as (k & s'' & f' & Hr & H2).
    exists k, s'', f'. split; [by rewrite <-app_assoc in Hr | exact H2].
Qed.

Lemma tokens_only z l : cstring z -> tokens z = l -> z = mjoin (map snd l).
Proof. intros Hz <-. by rewrite tokens_text. Qed.

Lemma initial_ran e : ran e [] {| last_text := []; last_parsed := None; engine := e;
       parse := {| rc := SQLITE_OK; zTail := 0; mallocFailed := false; isInterrupted := false |} |}.
Proof. by split. Qed.

(** The end of a text of legal tokens. *)
Lemma finish_delivers z e s i : ran e (tokens z) s -> i = length z ->
  exists s', finish sqlite3Parser z i s = Done i s' /\ engine s' = delivered z e /\ rc (parse s') = SQLITE_OK.
Proof using Hshift.
  destruct s as [text parsed en [r tl m b]]. intros [H1 H2 H3 H4 H5 H6] ->. simpl in *. subst.
  unfold finish, read. rewrite Nat.leb_refl, nth_overflow by lia. unfold delivered, significant. fold (nonblank (tokens z)).
  eexists. split; [done |]. simpl. destruct (is_semi _); unfold feed; simpl; rewrite !Hshift; simpl; rewrite ?Hshift; done.
Qed.

Lemma RunParser_delivers mx z e : cstring z -> Zlen z <= mx -> legal z ->
  exists s, sqlite3RunParser sqlite3Parser mx z e false = Done (length z) s /\
    engine s = delivered z e /\ rc (parse s) = SQLITE_OK.
Proof using Hshift.
  intros Hz Hmx Hl. unfold sqlite3RunParser.
  destruct (parse_loop_runs mx z e [] Hz Hmx (tokens z) 0 _ [] (S (length z)) ltac:(lia) ltac:(lia) (initial_ran e)
    ltac:(by rewrite app_nil_r) Hl) as (k & s' & f' & Hr & Hk & Hf & Ht & ->).
  apply tokens_only in Ht; [| by apply Forall_drop]. apply (f_equal length) in Ht. rewrite length_drop in Ht. simpl in Ht.
  assert (k = length z) as -> by lia. destruct f' as [|f']; [lia |]. cbn [parse_loop]. rewrite (ran_malloc _ _ _ Hr).
  unfold read. rewrite Nat.leb_refl, nth_overflow by lia. simpl Z.eqb. by apply finish_delivers.
Qed.

(** A lone ['!'] at the end makes the loop step over the terminator. *)
Lemma RunParser_overreads mx z e l : cstring z -> Zlen z < mx -> tokens z = l ++ [(TK_ILLEGAL, [33])] ->
  Forall (fun p => p.1 <> TK_ILLEGAL) l -> sqlite3RunParser sqlite3Parser mx z e false = Overread.
Proof using Hshift.
  intros Hz Hmx Ht Hl. unfold sqlite3RunParser.
  destruct (parse_loop_runs mx z e _ Hz ltac:(lia) l 0 _ [] (S (length z)) ltac:(lia) ltac:(lia) (initial_ran e) Ht Hl)
    as (k & s' & f' & Hr & Hk & Hf & Ht' & ->).
  apply tokens_only in Ht'; [| by apply Forall_drop]. simpl in Ht'. pose proof (f_equal length Ht') as Hlen.
  rewrite length_drop in Hlen. simpl in Hlen.
  destruct f' as [|f']; [lia |]. cbn [parse_loop]. rewrite (ran_malloc _ _ _ Hr). unfold read.
  destruct (Nat.leb_spec k (length z)); [| lia].
  destruct (Z.eqb_spec (nth k z 0) 0) as [E0|_].
  { exfalso. apply Forall_nth with (d := 0) (i := k) in Hz; lia. }
  rewrite Ht'. change (sqlite3GetToken [33]) with (2%nat, TK_ILLEGAL). cbv beta iota. unfold Zlen in Hmx.
  destruct (Z.ltb_spec mx (Z.of_nat (k + 2))); unfold finish, read; destruct (Nat.leb_spec (k + 2) (length z)); done || lia.
Qed.
End Run.

(** C28: the tokenizer and the loop around it.  The tokens are the text: in order,
    none is empty, and what is behind the terminator has no influence on them.
    For any parser the loop ends within the text or reads a byte behind the
    terminator, and only a ['!'] at the end of the text makes it do so.  If every
    token is legal and the parser takes them all, it gets exactly the tokens that are
    not spaces or comments, then a semicolon if the last was none, then the end.
    If the only illegal token is a ['!'] at the end, the byte is always read. *)
Theorem RunParser_spec {E : Type} (sqlite3Parser : E -> option token -> list Z -> Parse -> E * Parse)
    (mx : Z) (z : list Z) (e : E) :
  cstring z -> Zlen z < mx ->
  mjoin (map snd (tokens z)) = z /\ Forall (fun p => p.2 <> []) (tokens z) /\
  (forall j, sqlite3GetToken (z ++ 0 :: j) = sqlite3GetToken z) /\
  (forall interrupted, fine z (sqlite3RunParser sqlite3Parser mx z e interrupted)) /\
  (forall shift, (forall e t x p, sqlite3Parser e t x p = (shift e t x, p)) ->
     (legal z -> exists s, sqlite3RunParser sqlite3Parser mx z e false = Done (length z) s /\
                   engine s = delivered shift z e /\ rc (parse s) = SQLITE_OK) /\
     (forall l, tokens z = l ++ [(TK_ILLEGAL, [33])] -> Forall (fun p => p.1 <> TK_ILLEGAL) l ->
        sqlite3RunParser sqlite3Parser mx z e false = Overread)).
Proof.
  intros Hz Hmx. split_and!.
  - by apply tokens_text.
  - revert z Hz Hmx. assert (forall z, cstring z -> Forall (fun p => p.2 <> []) (tokens z)) as H; [| by intros; apply H].
    apply tokens_ind; [by constructor |]. intros z Hz Hn IH. rewrite tokens_step by done. constructor; [| exact IH].
    pose proof (GetToken_progress z Hz Hn). simpl. destruct z, (fst _); done || lia.
  - intros j. by apply GetToken_nul.
  - intros b. apply parse_loop_fine; [done | lia ..].
  - intros shift Hs. split; [intros Hl; apply RunParser_delivers; [done | done | lia | done] |].
    intros l Ht Hl. by apply (RunParser_overreads sqlite3Parser shift Hs mx z e l).
Qed.

(** A parser that writes down what it gets. *)
Definition recorder (e : list (option token)) (t : option token) (_ : list Z) : list (option token) := e ++ [t].

Lemma RunParser_spec_witness :
  (exists s, sqlite3RunParser (fun e t x p => (recorder e t x, p)) 1000 (lit "END -- it") [] false = Done 9 s /\
     engine s = [Some TK_END; Some TK_SEMI; None]) /\
  sqlite3RunParser (fun e t x p => (recorder e t x, p)) 1000 (lit "END!") [] false = Overread.
Proof.
  split.
  - destruct (RunParser_spec (fun e t x p => (recorder e t x, p)) 1000 (lit "END -- it") []
      ltac:(apply (bool_decide_unpack _); vm_compute; exact I) ltac:(vm_compute; reflexivity)) as (_ & _ & _ & _ & H).
    destruct (H recorder ltac:(done)) as [Hd _]. destruct Hd as (s & H1 & H2 & _).
    + vm_compute. repeat constructor; discriminate.
    + exists s. split; [exact H1 | rewrite H2; vm_compute; reflexivity].
  - destruct (RunParser_spec (fun e t x p => (recorder e t x, p)) 1000 (lit "END!") []
      ltac:(apply (bool_decide_unpack _); vm_compute; exact I) ltac:(vm_compute; reflexivity)) as (_ & _ & _ & _ & H).
    destruct (H recorder ltac:(done)) as [_ Hb]. apply (Hb [(TK_END, lit "END")]); [vm_compute; reflexivity |].
    repeat constructor. discriminate.
Defined.
