(* ===== verification/SqPrint.v ===== *)
(** Reading back SQL text that was put together from words, numbers and quoted
    text: what [sqlite3GetToken] makes of it, and the literals
    ([sqlite3ExprAlloc], [codeInteger] in [src/src/cache/sqlite3.c]). *)

From S2P Require Import Prelude SqText SqArith SqAtoi SqKeywords SqTokens.

#[local] Open Scope Z_scope.

(** ** Literals *)

(** The part of an [Expr] that is made of a token. *)
Inductive literal :=
| IntValue (i : Z)              (* EP_IntValue, u.iValue *)
| Token_text (z : list Z).      (* u.zToken *)

(** [z] is the text from the token on, [n] the token's length.  [None]: dequoting
    runs out of the copy. *)
Definition sqlite3ExprAlloc (op : token) (z : list Z) (n : nat) (dequote : bool) : option literal :=
  match (match op with TK_INTEGER => sqlite3GetInt32 z | _ => None end) with
  | Some i => Some (IntValue i)
  | None =>
      let c := nth 0 z 0 in
      let copy := take n z ++ [0] in
      if dequote && (3 <=? n + 1)%nat && ((c =? 39) || (c =? 34) || (c =? 91) || (c =? 96)) then
        '(copy, _) ← sqlite3Dequote copy; Some (Token_text (until_nul copy))
      else Some (Token_text (until_nul copy))
  end.

(** The instruction that loads the literal. *)
Inductive load :=
| OP_Integer (i : Z)
| OP_Int64 (i : Z)
| OP_Real (z : list Z) (negative : bool)
| OP_String8 (z : list Z)
| Hex_too_big.

Definition codeInteger (e : literal) (negFlag : bool) : load :=
  match e with
  | IntValue i => OP_Integer (if negFlag then - i else i)
  | Token_text z =>
      let '(c, value) := sqlite3DecOrHexToI64 z in
      if (c =? 0) || (c =? 2) && negFlag then
        OP_Int64 (if negFlag then if c =? 2 then SMALLEST_INT64 else - value else value)
      else if sqlite3_strnicmp (Some z) (Some (lit "0x")) 2 =? 0 then Hex_too_big
      else OP_Real z negFlag
  end.

(** [sqlite3ExprCodeTarget] for integers and strings. *)
Definition code_literal (op : token) (e : literal) : option load :=
  match op, e with
  | TK_INTEGER, _ => Some (codeInteger e false)
  | TK_STRING, Token_text z => Some (OP_String8 z)
  | _, _ => None
  end.

(** A token of the text as the instruction that loads it. *)
Definition load_of (op : token) (z : list Z) (n : nat) : option load :=
  sqlite3ExprAlloc op z n true ≫= code_literal op.

(** ** Printed text *)

Inductive lexeme :=
| Word (w : list Z)
| Number (ds : list Z)
| Quoted (s : list Z)
| Punct (c : Z)
| Space.

Definition spell (x : lexeme) : list Z :=
  match x with
  | Word w => w
  | Number ds => ds
  | Quoted s => quoted 39 s
  | Punct c => [c]
  | Space => [32]
  end.

Definition print (l : list lexeme) : list Z := mjoin (map spell l).

Definition punctuation (c : Z) : token :=
  if c =? 40 then TK_LP else if c =? 41 then TK_RP else if c =? 44 then TK_COMMA
  else if c =? 59 then TK_SEMI else if c =? 42 then TK_STAR else TK_EQ.

Definition code (x : lexeme) : token :=
  match x with
  | Word w => keyword_of w
  | Number _ => TK_INTEGER
  | Quoted _ => TK_STRING
  | Punct c => punctuation c
  | Space => TK_SPACE
  end.

Definition letter (c : Z) : bool := (65 <=? c) && (c <=? 90) || (97 <=? c) && (c <=? 122) || (c =? 95).

Definition lexeme_ok (x : lexeme) : bool :=
  match x with
  | Word w => letter (nth 0 w 0) && forallb (fun c => IdChar c && (0 <? c) && (c <? 256)) w
  | Number ds => negb (bool_decide (ds = [])) && forallb isdigit ds
  | Quoted s => bool_decide (cstring s)
  | Punct c => bool_decide (c ∈ [40; 41; 44; 59; 42; 61])
  | Space => true
  end.

(** What may come next, zero at the end. *)
Definition may_precede (x : lexeme) (next : Z) : bool :=
  match x with
  | Word _ => negb (IdChar next) && negb (next =? 39)
  | Number _ => negb (IdChar next) && negb (next =? 46)
  | Quoted _ => negb (next =? 39)
  | Punct c => negb ((c =? 61) && (next =? 61))
  | Space => negb (sqlite3Isspace next)
  end.

Fixpoint well_spaced (l : list lexeme) : bool :=
  match l with
  | [] => true
  | x :: l => lexeme_ok x && may_precede x (nth 0 (print l) 0) && well_spaced l
  end.

(** ** What the tokenizer makes of it *)

Lemma span_app p a b : forallb p a = true -> p (nth 0 b 0) = false -> p 0 = false -> span p (a ++ b) = length a.
Proof.
  intros Ha Hb H0. induction a as [|c a IH]; simpl.
  - destruct b as [|d b]; [done |]. simpl in *. by rewrite Hb.
  - simpl in Ha. apply andb_prop in Ha as [Hc Ha]. by rewrite Hc, IH.
Qed.

(** The tests of [sqlite3GetToken] that fail for a known first byte. *)
Ltac token_tests :=
  repeat match goal with
  | |- context [?a =? ?b] => rewrite (proj2 (Z.eqb_neq a b)) by lia
  | |- context [?a =? ?b] => rewrite (proj2 (Z.eqb_eq a b)) by lia
  end; cbn [orb andb].

Lemma word_token w rest : lexeme_ok (Word w) = true -> may_precede (Word w) (nth 0 rest 0) = true -> cstring rest ->
  sqlite3GetToken (w ++ rest) = (length w, keyword_of w).
Proof.
  simpl. intros [Hl Hw]%andb_prop [Hi Hq]%andb_prop Hrest. destruct w as [|c w]; [done |]. simpl in Hl.
  assert (cstring (c :: w)) as Hc.
  { apply Forall_forall. intros x Hx. rewrite forallb_forall in Hw. specialize (Hw x ltac:(by apply list_elem_of_In)). bool_to_prop. lia. }
  assert (forallb IdChar (c :: w) = true) as Hid.
  { rewrite forallb_forall in *. intros x Hx. specialize (Hw x Hx). by bool_to_prop. }
  assert (identifier_token ((c :: w) ++ rest) = (length (c :: w), keyword_of (c :: w))) as Hit.
  { pose proof Hid as Hid'. cbn [forallb] in Hid'. apply andb_prop in Hid' as [Hc1 Hw1].
    unfold identifier_token. cbn [app nth]. rewrite Hc1. cbn [negb drop]. rewrite drop_0, span_app by (done || by apply negb_true_iff).
    cbv zeta. cbn [length Nat.add]. rewrite keywordCode_spec.
    - change (c :: w ++ rest) with ((c :: w) ++ rest). by rewrite take_app_length'.
    - change (cstring ((c :: w) ++ rest)). by apply Forall_app.
    - simpl. rewrite length_app. lia. }
  assert (nth 1 ((c :: w) ++ rest) 0 <> 39) as H39.
  { cbn [app nth]. destruct w as [|d w]; cbn [app nth].
    - destruct rest as [|d rest]; [done |]. by apply Z.eqb_neq, negb_true_iff.
    - intros ->. cbn [forallb] in Hid. rewrite (andb_comm (IdChar c)) in Hid. done. }
  rewrite <-Hit. clear Hit Hid. set (z := (c :: w) ++ rest) in *. unfold sqlite3GetToken. cbv zeta.
  change (nth 0 z 0) with c. apply Z.eqb_neq in H39. rewrite H39, andb_false_r.
  assert (65 <= c <= 90 \/ 97 <= c <= 122 \/ c = 95) as Hlc.
  { unfold letter in Hl. rewrite !orb_true_iff, !andb_true_iff, Z.eqb_eq, !Z.leb_le in Hl. lia. }
  clear -Hlc. token_tests. destruct (Z.leb_spec 48 c), (Z.leb_spec c 57); cbn [andb]; try lia; done.
Qed.

Lemma number_token_ok ds rest : lexeme_ok (Number ds) = true -> may_precede (Number ds) (nth 0 rest 0) = true ->
  cstring rest -> sqlite3GetToken (ds ++ rest) = (length ds, TK_INTEGER).
Proof.
  simpl. intros [Hn Hd]%andb_prop [Hi Hp]%andb_prop Hrest. apply negb_true_iff in Hi, Hp.
  destruct ds as [|c ds]; [done |]. clear Hn.
  assert (48 <= c <= 57) as Hc by (cbn [forallb] in Hd; apply andb_prop in Hd as [Hd _]; by apply isdigit_range).
  assert (forallb sqlite3Isdigit (c :: ds) = true) as Hds.
  { rewrite forallb_forall in *. intros x Hx. specialize (Hd x Hx). apply isdigit_range in Hd.
    rewrite Isdigit_byte by lia. apply andb_true_intro. lia. }
  assert (0 <= nth 0 rest 0 < 256) as Hb.
  { destruct rest; [simpl; lia |]. apply Forall_cons in Hrest as [? _]. simpl. lia. }
  assert (sqlite3Isdigit (nth 0 rest 0) = false) as Hnd.
  { rewrite Isdigit_byte by done. rewrite IdChar_byte in Hi by done. bool_to_prop. by destruct (_ && _). }
  assert (nth 0 rest 0 <> 120 /\ nth 0 rest 0 <> 88 /\ nth 0 rest 0 <> 101 /\ nth 0 rest 0 <> 69) as (Hx1 & Hx2 & He1 & He2).
  { split_and!; intros E; rewrite E in Hi; done. }
  assert (number_token ((c :: ds) ++ rest) = (length (c :: ds), TK_INTEGER)) as Hnt.
  { unfold number_token. set (z := (c :: ds) ++ rest).
    assert (((nth 1 z 0 =? 120) || (nth 1 z 0 =? 88)) = false) as Hx.
    { unfold z. destruct ds as [|d ds]; cbn [app nth].
      - by rewrite (proj2 (Z.eqb_neq _ _) Hx1), (proj2 (Z.eqb_neq _ _) Hx2).
      - cbn [forallb] in Hd. rewrite !andb_true_iff in Hd. destruct Hd as (_ & Hd & _). apply isdigit_range in Hd.
        apply orb_false_intro; apply Z.eqb_neq; lia. }
    rewrite Hx, andb_false_r. cbn [andb]. clear Hx. cbv zeta. unfold z. rewrite span_app by done. clear z.
    assert (forall k, nth (length (c :: ds) + k) ((c :: ds) ++ rest) 0 = nth k rest 0) as Hnth
      by (intros; rewrite app_nth2 by lia; f_equal; lia).
    pose proof (Hnth 0%nat) as H0. rewrite Nat.add_0_r in H0. rewrite H0, Hp, H0.
    rewrite (proj2 (Z.eqb_neq _ _) He1), (proj2 (Z.eqb_neq _ _) He2). cbn [orb andb]. rewrite drop_app_length.
    destruct rest as [|d rest]; simpl in *; rewrite ?Hi; f_equal; lia. }
  rewrite <-Hnt. clear Hnt. unfold sqlite3GetToken. cbn [app nth]. cbv zeta. clear -Hc. token_tests.
  destruct (Z.leb_spec 48 c), (Z.leb_spec c 57); cbn [andb]; lia || done.
Qed.

Lemma quote_loop_ok s rest : cstring s -> nth 0 rest 0 <> 39 ->
  quote_loop 39 (double_quote 39 s ++ 39 :: rest) = (length (double_quote 39 s), 39).
Proof.
  intros Hs Hr. induction Hs as [|c s Hc Hs IH].
  - simpl. destruct rest as [|d rest]; [done |]. simpl in Hr. by rewrite (proj2 (Z.eqb_neq _ _) Hr).
  - change (double_quote 39 (c :: s)) with ((if c =? 39 then [39; 39] else [c]) ++ double_quote 39 s).
    destruct (Z.eqb_spec c 39) as [-> | H39].
    + cbn [app quote_loop]. change (39 =? 0) with false. change (39 =? 39) with true. cbv iota.
      by rewrite IH.
    + cbn [app quote_loop]. rewrite (proj2 (Z.eqb_neq c 0)), (proj2 (Z.eqb_neq c 39)) by lia.
      by rewrite IH.
Qed.

Lemma quoted_token_ok s rest : cstring s -> nth 0 rest 0 <> 39 ->
  sqlite3GetToken (quoted 39 s ++ rest) = (length (quoted 39 s), TK_STRING).
Proof.
  intros Hs Hr. unfold quoted. change (closing 39) with 39. cbn [app].
  change (sqlite3GetToken (39 :: ?z)) with (quoted_token 39 (39 :: z)).
  unfold quoted_token. cbn [drop]. rewrite drop_0, <-app_assoc. cbn [app]. rewrite quote_loop_ok by done.
  change (39 =? 39) with true. cbn [length]. rewrite length_app. cbn [length]. done.
Qed.

Lemma lexeme_token x rest : lexeme_ok x = true -> may_precede x (nth 0 rest 0) = true -> cstring rest ->
  sqlite3GetToken (spell x ++ rest) = (length (spell x), code x).
Proof.
  intros Hx Hn Hr. destruct x as [w | ds | s | c |].
  - by apply word_token.
  - by apply number_token_ok.
  - simpl in *. apply bool_decide_eq_true in Hx. apply quoted_token_ok; [done |]. by apply Z.eqb_neq, negb_true_iff.
  - simpl in Hx, Hn. apply bool_decide_eq_true in Hx. rewrite !elem_of_cons, elem_of_nil in Hx.
    destruct Hx as [-> | [-> | [-> | [-> | [-> | [-> | []]]]]]]; try done.
    change (sqlite3GetToken (spell (Punct 61) ++ rest)) with ((1 + if (nth 0 rest 0 =? 61)%Z then 1 else 0)%nat, TK_EQ).
    by destruct (nth 0 rest 0 =? 61).
  - simpl in Hn. change (sqlite3GetToken (spell Space ++ rest)) with ((1 + span sqlite3Isspace rest)%nat, TK_SPACE).
    destruct rest as [|d rest]; [done |]. simpl in *. apply negb_true_iff in Hn. by rewrite Hn.
Qed.

Lemma double_quote_cstring s : cstring s -> cstring (double_quote 39 s).
Proof.
  induction 1 as [|c s Hc Hs IH]; [constructor |].
  change (cstring ((if c =? 39 then [39; 39] else [c]) ++ double_quote 39 s)). apply Forall_app. split; [| done].
  case_if; repeat constructor; lia.
Qed.

Lemma spell_cstring x : lexeme_ok x = true -> cstring (spell x) /\ spell x <> [].
Proof.
  destruct x as [w | ds | s | c |]; simpl.
  - intros [Hl Hw]%andb_prop. split; [| by intros ->]. apply Forall_forall. intros x Hx. rewrite forallb_forall in Hw.
    specialize (Hw x ltac:(by apply list_elem_of_In)). bool_to_prop. lia.
  - intros [Hn Hd]%andb_prop. split; [| by intros ->]. apply Forall_forall. intros x Hx. rewrite forallb_forall in Hd.
    specialize (Hd x ltac:(by apply list_elem_of_In)). apply isdigit_range in Hd. lia.
  - intros Hs%bool_decide_eq_true. split; [| done]. unfold quoted. change (closing 39) with 39.
    constructor; [lia |]. apply Forall_app. split; [by apply double_quote_cstring | repeat constructor].
  - intros Hc%bool_decide_eq_true. split; [| done]. rewrite !elem_of_cons, elem_of_nil in Hc. repeat constructor; lia.
  - intros _. split; [repeat constructor | done].
Qed.

Lemma print_cstring l : well_spaced l = true -> cstring (print l).
Proof.
  unfold print. induction l as [|x l IH]; simpl; [constructor |]. intros [[Hx _]%andb_prop Hl]%andb_prop. apply Forall_app.
  split; [by apply spell_cstring | by apply IH].
Qed.

(** The tokens of printed text are what was printed. *)
Lemma print_tokens l : well_spaced l = true -> tokens (print l) = map (fun x => (code x, spell x)) l.
Proof.
  induction l as [|x l IH]; [done |]. cbn [well_spaced]. intros [[Hx Hn]%andb_prop Hl]%andb_prop.
  change (print (x :: l)) with (spell x ++ print l). destruct (spell_cstring x Hx) as [Hc Hne].
  assert (cstring (spell x ++ print l)) as Hz by (apply Forall_app; split; [done | by apply print_cstring]).
  rewrite tokens_step; [| done | by intros [? _]%app_nil].
  rewrite lexeme_token by (done || by apply print_cstring). cbn [fst snd].
  rewrite take_app_length, drop_app_length. cbn [map]. by rewrite IH.
Qed.

Lemma code_legal x : lexeme_ok x = true -> code x <> TK_ILLEGAL.
Proof.
  destruct x as [w | ds | s | c |]; simpl; try done.
  - intros _. unfold keyword_of. destruct (List.find _ _) as [kw|] eqn:Hk; [| done].
    apply List.find_some in Hk as [Hin _].
    assert (forallb (fun kw => match switch kw.2 with Arm_illegal => false | _ => true end) keywords = true) as H by (vm_compute; reflexivity).
    rewrite forallb_forall in H. specialize (H kw Hin). by intros E; rewrite E in H.
  - intros _. unfold punctuation. by repeat case_if.
Qed.

Lemma print_legal l : well_spaced l = true -> legal (print l).
Proof.
  intros Hl. unfold legal. rewrite print_tokens by done. induction l as [|x l IH]; simpl; constructor.
  - simpl in *. apply andb_prop in Hl as [[Hx _]%andb_prop _]. by apply code_legal.
  - simpl in Hl. apply andb_prop in Hl as [_ Hl]. by apply IH.
Qed.

(** ** Decimal numbers *)

(** [std::to_string] of an unsigned integer of at most [fuel] digits. *)
Fixpoint dec_digits (fuel : nat) (n : Z) (acc : list Z) : list Z :=
  match fuel with
  | O => acc
  | S fuel => if n <? 10 then (48 + n) :: acc else dec_digits fuel (n / 10) ((48 + n mod 10) :: acc)
  end.

Definition to_string (n : Z) : list Z := dec_digits 20 n [].

Lemma dec_digits_ok fuel : forall n acc, 0 <= n < 10 ^ Z.of_nat fuel -> (fuel <> 0)%nat -> digits acc ->
  digits (dec_digits fuel n acc) /\ dec_digits fuel n acc <> [] /\
  (length (dec_digits fuel n acc) <= fuel + length acc)%nat /\
  dval 0 (dec_digits fuel n acc) = n * 10 ^ Zlen acc + dval 0 acc.
Proof.
  induction fuel as [|fuel IH]; intros n acc Hn Hf Hacc; [lia |]. cbn [dec_digits].
  destruct (Z.ltb_spec n 10) as [H10 | H10].
  - split_and!; [| done | simpl; lia |].
    + constructor; [apply isdigit_range; lia | done].
    + change (dval 0 (48 + n :: acc)) with (dval (0 * 10 + (48 + n - 48)) acc). rewrite dval_acc. f_equal. lia.
  - rewrite Nat2Z.inj_succ, Z.pow_succ_r in Hn by lia.
    destruct (Nat.eq_dec fuel 0) as [-> | Hf']; [simpl in Hn; lia |].
    pose proof (Z.mod_pos_bound n 10 ltac:(lia)) as Hm.
    destruct (IH (n / 10) (48 + n mod 10 :: acc)) as (H1 & H2 & H3 & H4); [| done | |].
    + split; [apply Z.div_pos; lia | apply Z.div_lt_upper_bound; lia].
    + constructor; [apply isdigit_range; lia | done].
    + split_and!; [done.. | simpl in H3; lia |]. rewrite H4.
      change (dval 0 (48 + n mod 10 :: acc)) with (dval (0 * 10 + (48 + n mod 10 - 48)) acc).
      rewrite dval_acc, Zlen_cons, Z.pow_add_r by (done || lia). change (10 ^ 1) with 10.
      rewrite (Z.div_mod n 10) at 3 by lia. lia.
Qed.

Lemma to_string_ok n : 0 <= n < 2 ^ 64 ->
  digits (to_string n) /\ to_string n <> [] /\ (length (to_string n) <= 20)%nat /\ dval 0 (to_string n) = n.
Proof.
  intros Hn. destruct (dec_digits_ok 20 n []) as (H1 & H2 & H3 & H4); [lia | done | constructor |].
  change (dec_digits 20 n []) with (to_string n) in *. split_and!; [done.. | simpl in H3; lia |].
  rewrite H4. unfold Zlen. simpl. lia.
Qed.

Lemma to_string_lexeme n : 0 <= n < 2 ^ 64 -> lexeme_ok (Number (to_string n)) = true.
Proof.
  intros Hn. destruct (to_string_ok n Hn) as (H1 & H2 & _). simpl. rewrite bool_decide_eq_false_2 by done. simpl.
  apply forallb_forall. intros x Hx. unfold digits in H1; rewrite Forall_forall in H1. apply H1. by apply list_elem_of_In.
Qed.

Lemma until_nul_cstring z : cstring z -> until_nul (z ++ [0]) = z.
Proof.
  induction 1 as [|c z Hc Hz IH]; [done |]. simpl. rewrite (proj2 (Z.eqb_neq c 0)) by lia. by rewrite IH.
Qed.

(** A number literal, whatever may follow it. *)
Definition number_load (n : Z) : load :=
  if n <? 2 ^ 31 then OP_Integer n else if n <? 2 ^ 63 then OP_Int64 n else OP_Real (to_string n) false.

Lemma digits_prefix ds rest : digits ds -> ds <> [] -> IdChar (nth 0 rest 0) = false -> hex_prefix (ds ++ rest) = false.
Proof.
  intros Hd Hn Hr. destruct ds as [|a [|b ds]]; [done | |].
  - destruct rest as [|c [|d rest]]; [done.. |]. simpl in *.
    assert (((c =? 120) || (c =? 88)) = false) as ->; [| by rewrite andb_false_r].
    apply orb_false_intro; apply Z.eqb_neq; intros ->; done.
  - apply Forall_cons in Hd as [_ [Hb _]%Forall_cons]. apply isdigit_range in Hb.
    destruct (ds ++ rest) as [|d r] eqn:E; simpl; rewrite E; [done |].
    rewrite (proj2 (Z.eqb_neq b 120)), (proj2 (Z.eqb_neq b 88)) by lia. by rewrite andb_false_r.
Qed.

Lemma load_number n rest : 0 <= n < 2 ^ 64 -> IdChar (nth 0 rest 0) = false ->
  load_of TK_INTEGER (to_string n ++ rest) (length (to_string n)) = Some (number_load n).
Proof.
  intros Hn Hr. destruct (to_string_ok n Hn) as (Hd & Hne & Hl & Hv). set (ds := to_string n) in *.
  unfold load_of, sqlite3ExprAlloc.
  set (num := fun tl => mkNumeral [] [] ds tl).
  assert (forall tl, IdChar (nth 0 tl 0) = false -> numeral_ok (num tl)) as Hok.
  { intros tl Ht. split_and!; [constructor | left | done | | done]. unfold num. simpl.
    destruct tl as [|c tl]; [done |]. simpl in *. apply not_true_is_false. intros Hc. apply isdigit_range in Hc.
    rewrite IdChar_byte in Ht by lia. bool_to_prop.
    match goal with H : (48 <=? c) && (c <=? 57) = false |- _ => rewrite andb_false_iff, !Z.leb_gt in H; lia end. }
  assert (forall tl, value (num tl) = n) as Hval by done.
  pose proof (GetInt32_dec (num rest) (Hok rest Hr) eq_refl) as Hg. change (text (num rest)) with (ds ++ rest) in Hg.
  rewrite Hg by (intros _; by apply digits_prefix). clear Hg. rewrite Hval. unfold number_load. case_decide as Hc; cbn [mbind option_bind].
  - destruct (Z.ltb_spec n (2 ^ 31)); [done | lia].
  - destruct (Z.ltb_spec n (2 ^ 31)); [lia |].
    assert (cstring ds) as Hcs by (eapply Forall_impl; [exact Hd |]; intros x Hx%isdigit_range; lia).
    assert (48 <= nth 0 (ds ++ rest) 0 <= 57) as H0.
    { destruct ds as [|c ds']; [done |]. apply Forall_cons in Hd as [Hd%isdigit_range _]. exact Hd. }
    set (c := nth 0 (ds ++ rest) 0) in *. clearbody c. token_tests. rewrite andb_false_r. cbn [mbind option_bind code_literal].
    rewrite take_app_length, until_nul_cstring by done. unfold codeInteger.
    pose proof (atoi64_body_ok (num []) (Hok [] eq_refl)) as Ha. unfold sqlite3DecOrHexToI64.
    pose proof (digits_prefix ds [] Hd Hne eq_refl) as Hp. rewrite app_nil_r in Hp. rewrite Hp.
    assert (sqlite3Strlen30 ds = Zlen ds) as ->.
    { unfold sqlite3Strlen30. rewrite Z.land_comm. change 0x3fffffff with (Z.ones 30).
      rewrite Z.land_ones, Z.mod_small by (unfold Zlen; lia). done. }
    pose proof (Atoi64_units 1 ds [] ltac:(left)) as Hu. unfold encode in Hu. simpl in Hu. rewrite app_nil_r in Hu. rewrite Hu.
    assert (text (num []) = ds) as Ht by (unfold text; simpl; by rewrite app_nil_r). rewrite Ht, Hval in Ha.
    assert (atoi64_code (num []) = if n <? 2 ^ 63 then 0 else if n =? 2 ^ 63 then 2 else 1) as Hcode.
    { unfold atoi64_code, pure. rewrite Hval. simpl. rewrite bool_decide_eq_false_2 by done. simpl.
      destruct (Z.ltb_spec n (2 ^ 63)); case_decide as Hi; unfold int64 in *; try done; lia. }
    destruct (atoi64_body ds false) as [r v]. simpl in Ha. destruct Ha as (-> & Ha & _). rewrite Hcode in *.
    assert ((sqlite3_strnicmp (Some ds) (Some (lit "0x")) 2 =? 0) = false) as Hnx.
    { apply Z.eqb_neq. unfold sqlite3_strnicmp. change (Z.to_nat 2) with 2%nat. rewrite nicmp_loop_zero; [| done | repeat constructor; lia].
      intros E. destruct ds as [|a [|b ds]]; try done. unfold fold_case in E. simpl in E. injection E as _ E.
      apply Forall_cons in Hd as [_ [Hb%isdigit_range _]%Forall_cons]. rewrite UpperToLower_spec in E by lia.
      vm_compute (UpperToLower _) in E. destruct (_ && _) in E; lia. }
    destruct (Z.ltb_spec n (2 ^ 63)); [by rewrite Ha |]. rewrite andb_false_r, orb_false_r, Hnx.
    by destruct (n =? 2 ^ 63).
Qed.

(** A quoted text literal. *)
Lemma load_quoted s rest : cstring s ->
  load_of TK_STRING (quoted 39 s ++ rest) (length (quoted 39 s)) = Some (OP_String8 s).
Proof.
  intros Hs. unfold load_of, sqlite3ExprAlloc. rewrite take_app_length.
  change (nth 0 (quoted 39 s ++ rest) 0) with 39. cbn [Z.eqb Pos.eqb orb andb].
  assert ((3 <=? length (quoted 39 s) + 1)%nat = true) as ->.
  { apply Nat.leb_le. unfold quoted. simpl. rewrite length_app. simpl. lia. }
  destruct (Dequote_spec (quoted 39 s ++ [0]) ltac:(done)) as [Hq _].
  destruct (Hq 39 s [0] ltac:(left) eq_refl ltac:(done) ltac:(done)) as (tail & ->).
  cbn [andb mbind option_bind code_literal]. do 2 f_equal. clear Hq.
  induction Hs as [|c s Hc Hs IH]; [done |]. simpl. by rewrite (proj2 (Z.eqb_neq c 0)), IH by lia.
Qed.
