(* ===== verification/CacheStatements.v ===== *)
(** The statements that the index of the cache gives to SQLite
    ([src/src/cache/database_sqlite.cc]): text put together around a key, as
    SQLite's tokenizer reads it. *)

From S2P Require Import Prelude StringUtils ConstString ConstStringFind ConstStringHash CacheLocks FileCache CacheEntries CacheMigrate CacheClean CacheNames SqText SqArith SqAtoi SqKeywords SqTokens SqPrint.

#[local] Open Scope Z_scope.

(** ** The texts *)

Definition Get_sql (key : list Z) : list Z :=
  lit "SELECT mtime, size, version FROM entries WHERE hash = '" ++ key ++ lit "'".

Definition Set_sql (key : list Z) (v : Value) : list Z :=
  lit "INSERT OR REPLACE INTO entries (hash, mtime, size, version) VALUES ('" ++ key ++ lit "', " ++
  to_string (mtime v) ++ lit ", " ++ to_string (size v) ++ lit ", " ++ to_string (entry_version v) ++ lit ");".

Definition Delete_sql (key : list Z) : list Z := lit "DELETE FROM entries WHERE hash = '" ++ key ++ lit "'".

Definition First_sql : list Z := lit "SELECT mtime, size, version, hash FROM entries ORDER BY mtime ASC".

Definition TableExists_sql (name : list Z) : list Z :=
  lit "SELECT name FROM sqlite_master WHERE type='table' AND name = '" ++ name ++ lit "'".

Definition Create_sql : list Z :=
  lit ("CREATE TABLE entries(" ++
       "    hash CHAR(50) PRIMARY KEY NOT NULL," ++
       "    mtime INT NOT NULL," ++
       "    size INT NOT NULL," ++
       "    version INT NOT NULL" ++ ");")%string.

Definition Index_sql : list Z := lit "CREATE INDEX mtime_idx ON entries (mtime);".
Definition GetVersion_sql : list Z := lit "PRAGMA user_version".
Definition BeginTransaction_sql : list Z := lit "BEGIN TRANSACTION".
Definition EndTransaction_sql : list Z := lit "END TRANSACTION".

(** ** The texts as lexemes *)

(** A key that can stand between quotes as it is. *)
Definition plain (key : list Z) : Prop := Forall (fun c => 0 < c < 256 /\ c <> 39) key.

#[export] Instance plain_dec key : Decision (plain key).
Proof. unfold plain. apply _. Defined.

Definition word (s : string) : lexeme := Word (lit s).

Definition select_lexemes (key : list Z) : list lexeme :=
  [word "SELECT"; Space; word "mtime"; Punct 44; Space; word "size"; Punct 44; Space; word "version"; Space; word "FROM";
   Space; word "entries"; Space; word "WHERE"; Space; word "hash"; Space; Punct 61; Space; Quoted key].

Definition insert_lexemes (key : list Z) (m s v : Z) : list lexeme :=
  [word "INSERT"; Space; word "OR"; Space; word "REPLACE"; Space; word "INTO"; Space; word "entries"; Space; Punct 40;
   word "hash"; Punct 44; Space; word "mtime"; Punct 44; Space; word "size"; Punct 44; Space; word "version"; Punct 41;
   Space; word "VALUES"; Space; Punct 40; Quoted key; Punct 44; Space; Number (to_string m); Punct 44; Space;
   Number (to_string s); Punct 44; Space; Number (to_string v); Punct 41; Punct 59].

Definition delete_lexemes (key : list Z) : list lexeme :=
  [word "DELETE"; Space; word "FROM"; Space; word "entries"; Space; word "WHERE"; Space; word "hash"; Space; Punct 61;
   Space; Quoted key].

Lemma quoted_plain key : plain key -> quoted 39 key = 39 :: key ++ [39].
Proof.
  intros Hk. unfold quoted. change (closing 39) with 39. do 2 f_equal.
  induction Hk as [|c key [_ Hc] Hk IH]; [done |]. 
  change (double_quote 39 (c :: key)) with ((if c =? 39 then [39; 39] else [c]) ++ double_quote 39 key).
  by rewrite (proj2 (Z.eqb_neq c 39)), IH by done.
Qed.

Lemma plain_cstring key : plain key -> cstring key.
Proof. intros Hk. eapply Forall_impl; [exact Hk |]. by intros c [? _]. Qed.

Lemma printed key v : plain key ->
  Get_sql key = print (select_lexemes key) /\
  Set_sql key v = print (insert_lexemes key (mtime v) (size v) (entry_version v)) /\
  Delete_sql key = print (delete_lexemes key).
Proof.
  intros Hk. pose proof (quoted_plain key Hk) as Hq. unfold print, select_lexemes, insert_lexemes, delete_lexemes. 
  cbn [map spell mjoin list_join]. rewrite Hq. split_and!.
  - unfold Get_sql. simpl. by rewrite app_nil_r.
  - unfold Set_sql. generalize (to_string (mtime v)) (to_string (size v)) (to_string (entry_version v)). intros m n o.
    simpl. rewrite <-!app_assoc. by simpl.
  - unfold Delete_sql. simpl. by rewrite app_nil_r.
Qed.

Lemma head_digit n l : 0 <= n < 2 ^ 64 -> 48 <= nth 0 (print (Number (to_string n) :: l)) 0 <= 57.
Proof.
  intros Hn. destruct (to_string_ok n Hn) as (Hd & Hne & _). unfold print. cbn [map spell mjoin list_join].
  destruct (to_string n) as [|c ds]; [done |]. apply Forall_cons in Hd as [Hc%isdigit_range _]. exact Hc.
Qed.

Lemma space_before_digit n l : 0 <= n < 2 ^ 64 -> may_precede Space (nth 0 (print (Number (to_string n) :: l)) 0) = true.
Proof.
  intros Hn. pose proof (head_digit n l Hn) as H. set (c := nth 0 _ 0) in *. clearbody c. simpl. apply negb_true_iff.
  apply not_true_is_false. intros Hs.
  assert (forall c, 0 <= c < 256 -> negb ((48 <=? c) && (c <=? 57)) || negb (sqlite3Isspace c) = true) as Hb.
  { apply (byte_forall (fun c => negb ((48 <=? c) && (c <=? 57)) || negb (sqlite3Isspace c))). by vm_compute. }
  specialize (Hb c ltac:(lia)). rewrite Hs, orb_false_r in Hb. bool_to_prop. lia.
Qed.

(** Each condition on the spacing is a computation or one of the lemmas above. *)
Ltac spaced :=
  cbn [well_spaced]; repeat match goal with |- _ && _ = true => apply andb_true_intro; split end;
  lazymatch goal with
  | |- lexeme_ok (Number (to_string _)) = true => by apply to_string_lexeme
  | |- may_precede Space (nth 0 (print (Number (to_string _) :: _)) 0) = true => by apply space_before_digit
  | |- lexeme_ok (Quoted _) = true => by apply bool_decide_eq_true_2, plain_cstring
  | |- _ => lazy; reflexivity
  end.

Lemma lexemes_spaced key m s v : plain key -> 0 <= m < 2 ^ 64 -> 0 <= s < 2 ^ 64 -> 0 <= v < 2 ^ 64 ->
  well_spaced (select_lexemes key) = true /\ well_spaced (insert_lexemes key m s v) = true /\
  well_spaced (delete_lexemes key) = true.
Proof.
  intros Hk Hm Hs Hv. unfold select_lexemes, insert_lexemes, delete_lexemes. split; [| split]; spaced.
Qed.

(** ** The literals of a text *)

(** The literals in the order of the text. *)
Fixpoint loads_of (fuel : nat) (z : list Z) : list load :=
  match fuel with
  | O => []
  | S fuel =>
      match z with
      | [] => []
      | _ =>
          let '(n, t) := sqlite3GetToken z in
          match load_of t z n with Some l => [l] | None => [] end ++ loads_of fuel (drop n z)
      end
  end.

Definition loads (z : list Z) : list load := loads_of (length z) z.

Definition lexeme_load (x : lexeme) : list load :=
  match x with Number ds => [number_load (dval 0 ds)] | Quoted s => [OP_String8 s] | _ => [] end.

(** The lexemes of the statements: a number is the decimal form of one. *)
Definition printed_number (x : lexeme) : Prop :=
  match x with Number ds => exists n, 0 <= n < 2 ^ 64 /\ ds = to_string n | _ => True end.

Lemma load_lexeme x rest : lexeme_ok x = true -> printed_number x -> may_precede x (nth 0 rest 0) = true ->
  match load_of (code x) (spell x ++ rest) (length (spell x)) with Some l => [l] | None => [] end = lexeme_load x.
Proof.
  assert (forall t, t <> TK_INTEGER -> t <> TK_STRING -> forall z n, load_of t z n = None) as Hno.
  { intros t H1 H2 z n. unfold load_of. destruct (sqlite3ExprAlloc t z n true) as [e|]; [| done].
    cbn [mbind option_bind]. by destruct t, e. }
  destruct x as [w | ds | s | c |]; intros Hx Hp Hn; cbn [code spell lexeme_load].
  - rewrite Hno; [done | |]; unfold keyword_of; destruct (List.find _ _) as [kw|] eqn:Hk; try done;
      apply List.find_some in Hk as [Hin _].
    all: assert (forallb (fun kw => match kw.2 with TK_INTEGER | TK_STRING => false | _ => true end) keywords = true) as H
      by (vm_compute; reflexivity); rewrite forallb_forall in H; specialize (H kw Hin); by intros E; rewrite E in H.
  - destruct Hp as (n & Hr & ->). simpl in Hn. apply andb_prop in Hn as [Hn%negb_true_iff _].
    rewrite load_number by done. by destruct (to_string_ok n Hr) as (_ & _ & _ & ->).
  - rewrite load_quoted; [done |]. simpl in Hx. by apply bool_decide_eq_true in Hx.
  - rewrite Hno; [done | |]; unfold punctuation; by repeat case_if.
  - by rewrite Hno.
Qed.

Lemma loads_of_fuel f1 : forall f2 z, cstring z -> (length z <= f1)%nat -> (length z <= f2)%nat ->
  loads_of f1 z = loads_of f2 z.
Proof.
  induction f1 as [|f1 IH]; intros [|f2] [|c z] Hz H1 H2; simpl in H1, H2; try done; try lia.
  cbn [loads_of]. pose proof (GetToken_progress (c :: z) Hz ltac:(done)) as Hp.
  destruct (sqlite3GetToken (c :: z)) as [n t]. simpl in Hp. f_equal.
  apply IH; [by apply Forall_drop | rewrite length_drop; simpl; lia ..].
Qed.

Lemma print_loads l : well_spaced l = true -> Forall printed_number l -> loads (print l) = l ≫= lexeme_load.
Proof.
  induction l as [|x l IH]; [done |]. cbn [well_spaced]. intros [[Hx Hn]%andb_prop Hl]%andb_prop [Hp Hps]%Forall_cons.
  pose proof (print_cstring l Hl) as Hcl. destruct (spell_cstring x Hx) as [Hc Hne].
  change (print (x :: l)) with (spell x ++ print l). unfold loads.
  destruct (spell x ++ print l) as [|c z] eqn:E; [by apply app_nil in E as [? _] |]. cbn [length loads_of]. rewrite <-E.
  rewrite lexeme_token by done. rewrite load_lexeme by done. rewrite drop_app_length.
  rewrite (loads_of_fuel _ (length (print l))); [| done | | done].
  - change ((x :: l) ≫= lexeme_load) with (lexeme_load x ++ (l ≫= lexeme_load)). by rewrite <-IH.
  - apply (f_equal length) in E. rewrite length_app in E. simpl in E.
    destruct (decide (length (spell x) = 0%nat)) as [E0%nil_length_inv |]; [done |]. lia.
Qed.

(** ** Keys *)

Lemma is_hex_plain l : forallb is_hex l = true -> plain l.
Proof.
  rewrite forallb_forall. intros H. apply Forall_forall. intros c Hc. specialize (H c ltac:(by apply list_elem_of_In)).
  unfold is_hex in H. rewrite orb_true_iff, !andb_true_iff, !Z.leb_le in H. lia.
Qed.

Lemma Hash_name_plain code extra command_line ver name :
  usable code -> usable command_line -> usable ver -> files_usable extra ->
  Hash code extra command_line ver = Some name -> plain name.
Proof.
  intros Hcode Hcl Hver Hextra. destruct (HashCombine_total code extra Hcode Hextra) as (a & Ea & Fa & _).
  destruct (hex_hash_digits command_line 4 Hcl ltac:(lia)) as (b & Eb & Fb & _).
  destruct (hex_hash_digits ver 4 Hver ltac:(lia)) as (d & Ed & Fd & _).
  unfold Hash. rewrite Ea, Eb, Ed. intros [= <-].
  pose proof is_hex_plain as Hp.
  apply Forall_app; split; [by apply Hp |]. apply Forall_cons_2; [lia |].
  apply Forall_app; split; [by apply Hp |]. apply Forall_cons_2; [lia |]. by apply Hp.
Qed.

(** What the parser gets of a text: the codes of the tokens. *)
Definition codes (z : list Z) : list token := map fst (significant z).

Lemma print_codes l : well_spaced l = true ->
  codes (print l) = map code (List.filter (fun x => match x with Space => false | _ => true end) l).
Proof.
  intros Hl. unfold codes, significant. rewrite print_tokens by done.
  assert (Forall (fun x => lexeme_ok x = true) l) as Hok.
  { induction l as [|x l IH]; constructor; simpl in Hl; apply andb_prop in Hl as [[Hx _]%andb_prop Hl]; [done | by apply IH]. }
  clear Hl. induction Hok as [|x l Hx Hok IH]; [done |]. cbn [map List.filter].
  assert (blank (code x, spell x) = match x with Space => true | _ => false end) as ->.
  { unfold blank. cbn [fst]. destruct x as [w | ds | s | c |]; try done; cbn [code].
    - unfold keyword_of. destruct (List.find _ _) as [kw|] eqn:Hk; [| done]. apply List.find_some in Hk as [Hin _].
      assert (forallb (fun kw => match switch kw.2 with Arm_space => false | _ => true end) keywords = true) as H by (vm_compute; reflexivity).
      rewrite forallb_forall in H. specialize (H kw Hin). by destruct (switch kw.2).
    - unfold punctuation. by repeat case_if. }
  destruct x; simpl; by f_equal.
Qed.

(** The literals of the statements. *)
Lemma statement_loads key v : plain key -> 0 <= mtime v < 2 ^ 64 -> 0 <= size v < 2 ^ 64 -> 0 <= entry_version v < 2 ^ 32 ->
  loads (Get_sql key) = [OP_String8 key] /\ loads (Delete_sql key) = [OP_String8 key] /\
  loads (Set_sql key v) = [OP_String8 key; number_load (mtime v); number_load (size v); number_load (entry_version v)].
Proof.
  intros Hk Hm Hs Hv.
  destruct (lexemes_spaced key (mtime v) (size v) (entry_version v) Hk Hm Hs ltac:(lia)) as (S1 & S2 & S3).
  assert (Forall printed_number (insert_lexemes key (mtime v) (size v) (entry_version v))) as P2.
  { unfold insert_lexemes. repeat apply Forall_cons_2; try exact I; try apply Forall_nil_2;
      [exists (mtime v) | exists (size v) | exists (entry_version v)]; (split; [lia | reflexivity]). }
  assert (forall l, Forall (fun x => match x with Number _ => False | _ => True end) l -> Forall printed_number l) as P0.
  { intros l Hl. eapply Forall_impl; [exact Hl |]. by intros []. }
  destruct (printed key v Hk) as (E1 & E2 & E3). rewrite E1, E2, E3. clear E1 E2 E3.
  split; [rewrite (print_loads _ S1); [reflexivity | apply P0; repeat constructor] |].
  split; [rewrite (print_loads _ S3); [reflexivity | apply P0; repeat constructor] |].
  rewrite (print_loads _ S2 P2). unfold insert_lexemes, word. cbn [mbind list_bind lexeme_load app].
  destruct (to_string_ok _ Hm) as (_ & _ & _ & ->), (to_string_ok _ Hs) as (_ & _ & _ & ->),
    (to_string_ok (entry_version v) ltac:(lia)) as (_ & _ & _ & ->). reflexivity.
Qed.

(** The texts without a key. *)
Definition fixed_texts : list (list Z) :=
  [TableExists_sql (lit "entries"); Create_sql; Index_sql; GetVersion_sql; First_sql; BeginTransaction_sql; EndTransaction_sql].

Lemma legal_computed z : forallb (fun p => match p.1 with TK_ILLEGAL => false | _ => true end) (tokens z) = true -> legal z.
Proof. unfold legal. rewrite forallb_forall. intros H. apply List.Forall_forall. intros [t x] Hin. by specialize (H _ Hin); destruct t. Qed.

Lemma fixed_texts_legal : Forall (fun sql => cstring sql /\ legal sql) fixed_texts.
Proof.
  unfold fixed_texts. repeat apply Forall_cons_2; try apply Forall_nil_2;
    (split; [apply (bool_decide_unpack _); vm_compute; exact I | apply legal_computed; vm_compute; reflexivity]).
Qed.

(** C18: the statements around a key that is the name of an entry.  The names that
    [FileCache::Hash] makes can stand between quotes: they hold no quote and no NUL.
    For such a key, times and sizes below 2^64 and a version below 2^32, the tokens of
    [Get], [Set] and [Delete] are those of one statement each, with the key as the
    only string, as it is; the literals of the new row are the key and the three
    values, exactly as long as they are less than 2^63 (a larger one is loaded as a
    real number).  The texts without a key are statements too: the table and its
    index are created with these columns, the table is asked for by the name
    'entries'.  A parser that takes all it gets is given all tokens of each of these
    texts that is not longer than the limit, and the end. *)
Theorem statements_read (key : list Z) (v : Value) (mx : Z) :
  plain key -> 0 <= mtime v < 2 ^ 64 -> 0 <= size v < 2 ^ 64 -> 0 <= entry_version v < 2 ^ 32 ->
  (forall code extra command_line ver name, usable code -> usable command_line -> usable ver -> files_usable extra ->
     Hash code extra command_line ver = Some name -> plain name) /\
  codes (Get_sql key) = [TK_SELECT; TK_ID; TK_COMMA; TK_ID; TK_COMMA; TK_ID; TK_FROM; TK_ID; TK_WHERE; TK_ID; TK_EQ; TK_STRING] /\
  codes (Set_sql key v) =
    [TK_INSERT; TK_OR; TK_REPLACE; TK_INTO; TK_ID; TK_LP; TK_ID; TK_COMMA; TK_ID; TK_COMMA; TK_ID; TK_COMMA; TK_ID; TK_RP;
     TK_VALUES; TK_LP; TK_STRING; TK_COMMA; TK_INTEGER; TK_COMMA; TK_INTEGER; TK_COMMA; TK_INTEGER; TK_RP; TK_SEMI] /\
  codes (Delete_sql key) = [TK_DELETE; TK_FROM; TK_ID; TK_WHERE; TK_ID; TK_EQ; TK_STRING] /\
  loads (Get_sql key) = [OP_String8 key] /\ loads (Delete_sql key) = [OP_String8 key] /\
  loads (Set_sql key v) =
    [OP_String8 key; number_load (mtime v); number_load (size v); number_load (entry_version v)] /\
  codes First_sql = [TK_SELECT; TK_ID; TK_COMMA; TK_ID; TK_COMMA; TK_ID; TK_COMMA; TK_ID; TK_FROM; TK_ID; TK_ORDER; TK_BY;
                     TK_ID; TK_ASC] /\
  codes (TableExists_sql (lit "entries")) =
    [TK_SELECT; TK_ID; TK_FROM; TK_ID; TK_WHERE; TK_ID; TK_EQ; TK_STRING; TK_AND; TK_ID; TK_EQ; TK_STRING] /\
  loads (TableExists_sql (lit "entries")) = [OP_String8 (lit "table"); OP_String8 (lit "entries")] /\
  codes Create_sql =
    [TK_CREATE; TK_TABLE; TK_ID; TK_LP; TK_ID; TK_ID; TK_LP; TK_INTEGER; TK_RP; TK_PRIMARY; TK_KEY; TK_NOT; TK_NULL; TK_COMMA;
     TK_ID; TK_ID; TK_NOT; TK_NULL; TK_COMMA; TK_ID; TK_ID; TK_NOT; TK_NULL; TK_COMMA; TK_ID; TK_ID; TK_NOT; TK_NULL;
     TK_RP; TK_SEMI] /\
  codes Index_sql = [TK_CREATE; TK_INDEX; TK_ID; TK_ON; TK_ID; TK_LP; TK_ID; TK_RP; TK_SEMI] /\
  codes GetVersion_sql = [TK_PRAGMA; TK_ID] /\ codes BeginTransaction_sql = [TK_BEGIN; TK_TRANSACTION] /\
  codes EndTransaction_sql = [TK_END; TK_TRANSACTION] /\
  (forall E (sqlite3Parser : E -> option token -> list Z -> Parse -> E * Parse) shift e sql,
     sql ∈ [Get_sql key; Set_sql key v; Delete_sql key] ++ fixed_texts -> Zlen sql <= mx ->
     (forall e t x p, sqlite3Parser e t x p = (shift e t x, p)) ->
     exists s, sqlite3RunParser sqlite3Parser mx sql e false = Done (length sql) s /\
       engine s = delivered shift sql e /\ rc (parse s) = SQLITE_OK).
Proof.
  intros Hk Hm Hs Hv.
  destruct (lexemes_spaced key (mtime v) (size v) (entry_version v) Hk Hm Hs ltac:(lia)) as (S1 & S2 & S3).
  destruct (statement_loads key v Hk Hm Hs Hv) as (L1 & L3 & L2).
  destruct (printed key v Hk) as (E1 & E2 & E3). rewrite L1, L2, L3, E1, E2, E3. clear E1 E2 E3 L1 L2 L3.
  split; [exact Hash_name_plain |].
  split; [rewrite (print_codes _ S1); lazy; reflexivity |].
  split; [rewrite (print_codes _ S2); lazy; reflexivity |].
  split; [rewrite (print_codes _ S3); lazy; reflexivity |].
  do 3 (split; [reflexivity |]). do 8 (split; [vm_compute; reflexivity |]).
  intros E sqlite3Parser shift e sql Hin Hlen Hshift.
  assert (cstring sql /\ legal sql) as [Hc Hl].
  { apply elem_of_app in Hin as [Hin | Hin]; [| exact (proj1 (Forall_forall _ _) fixed_texts_legal sql Hin)].
    assert (exists l, sql = print l /\ well_spaced l = true) as (l & -> & Hl)
      by (rewrite !elem_of_cons, elem_of_nil in Hin; destruct Hin as [-> | [-> | [-> | []]]]; by eexists).
    split; [by apply print_cstring | by apply print_legal]. }
  by apply RunParser_delivers.
Qed.

(** A key that holds a quote would change the statement. *)
Example quote_in_key : codes (Delete_sql (lit "' OR '1'='1")) =
  [TK_DELETE; TK_FROM; TK_ID; TK_WHERE; TK_ID; TK_EQ; TK_STRING; TK_OR; TK_STRING; TK_EQ; TK_STRING].
Proof. vm_compute. reflexivity. Qed.

Lemma statements_read_witness :
  let v := {| mtime := 1700000000; size := 2 ^ 40; entry_version := 1 |} in
  plain (lit "0badcafe-12-34") /\
  loads (Set_sql (lit "0badcafe-12-34") v) =
    [OP_String8 (lit "0badcafe-12-34"); OP_Integer 1700000000; OP_Int64 (2 ^ 40); OP_Integer 1].
Proof.
  intros v. assert (plain (lit "0badcafe-12-34")) as Hk by (apply (bool_decide_unpack _); vm_compute; exact I).
  split; [exact Hk |].
  destruct (statements_read (lit "0badcafe-12-34") v 1000 Hk ltac:(done) ltac:(done) ltac:(done))
    as (_ & _ & _ & _ & _ & _ & H & _). exact H.
Defined.
