(* ===== verification/SqBitvec.v ===== *)
(** SQLite's sparse bitmap ([src/src/cache/sqlite3.c], part bitvec.c), refined to
    a set of page numbers. *)

From S2P Require Import Prelude.

#[local] Open Scope Z_scope.

(** ** Data *)

Definition BITVEC_SZ : Z := 512.
Definition BITVEC_USIZE : Z := (BITVEC_SZ - 3 * 4) / 8 * 8.
Definition BITVEC_SZELEM : Z := 8.
Definition BITVEC_NELEM : Z := BITVEC_USIZE / 1.
Definition BITVEC_NBIT : Z := BITVEC_NELEM * BITVEC_SZELEM.
Definition BITVEC_NINT : Z := BITVEC_USIZE / 4.
Definition BITVEC_MXHASH : Z := BITVEC_NINT / 2.
Definition BITVEC_HASH (x : Z) : Z := (x * 1) mod BITVEC_NINT.
Definition BITVEC_NPTR : Z := BITVEC_USIZE / 8.

Definition SQLITE_OK : Z := 0.
Definition SQLITE_NOMEM : Z := 7.

(** The three readings of the union are its three constructors. *)
Inductive Bitvec := mkBitvec (iSize nSet iDivisor : Z) (u : union)
with union :=
| aBitmap (l : list Z)
| aHash (l : list Z)
| apSub (l : list (option Bitvec)).

Definition iSize (p : Bitvec) : Z := let '(mkBitvec s _ _ _) := p in s.
Definition nSet (p : Bitvec) : Z := let '(mkBitvec _ n _ _) := p in n.
Definition iDivisor (p : Bitvec) : Z := let '(mkBitvec _ _ d _) := p in d.
Definition u (p : Bitvec) : union := let '(mkBitvec _ _ _ w) := p in w.

(** A zeroed structure: the size decides how its zeroes are read. *)
Definition sqlite3BitvecCreate (size : Z) : Bitvec :=
  mkBitvec size 0 0
    (if size <=? BITVEC_NBIT then aBitmap (replicate (Z.to_nat BITVEC_NELEM) 0)
     else aHash (replicate (Z.to_nat BITVEC_NINT) 0)).

(** ** Operations

    [None]: a wrong union member or a loop out of fuel, neither of which happens
    on the structures the operations build. *)

Definition get (l : list Z) (k : Z) : option Z := l !! Z.to_nat k.
Definition put (l : list Z) (k x : Z) : list Z := <[Z.to_nat k := x]> l.

(** [while( p->u.aHash[h] )] of the test. *)
Fixpoint test_probe (fuel : nat) (l : list Z) (h i : Z) : option bool :=
  match fuel with
  | O => None
  | S fuel =>
      v ← get l h;
      if v =? 0 then Some false
      else if v =? i then Some true
      else test_probe fuel l ((h + 1) mod BITVEC_NINT) i
  end.

(** [i] counts from 0 here. *)
Fixpoint test_loop (fuel : nat) (p : Bitvec) (i : Z) : option bool :=
  match fuel with
  | O => None
  | S fuel =>
      match u p with
      | apSub l =>
          sub ← l !! Z.to_nat (i / iDivisor p);
          match sub with
          | None => Some false
          | Some q => test_loop fuel q (i mod iDivisor p)
          end
      | aBitmap l =>
          v ← get l (i / BITVEC_SZELEM);
          Some (negb (Z.land v (Z.shiftl 1 (Z.land i (BITVEC_SZELEM - 1))) =? 0))
      | aHash l => test_probe (S (Z.to_nat BITVEC_NINT)) l (BITVEC_HASH i) (i + 1)
      end
  end.

(** The recursion is at most five levels deep for 32-bit sizes. *)
Definition BITVEC_FUEL : nat := 11.

Definition sqlite3BitvecTest (p : option Bitvec) (i : Z) : option bool :=
  match p with
  | None => Some false
  | Some p =>
      if (iSize p <? i) || (i =? 0) then Some false else test_loop BITVEC_FUEL p (i - 1)
  end.

(** The [do]-[while] of the insertion: [i] is found, or a free place. *)
Fixpoint set_probe (fuel : nat) (l : list Z) (h i : Z) : option (option Z) :=
  match fuel with
  | O => None
  | S fuel =>
      v ← get l h;
      if v =? i then Some None
      else
        let h := if BITVEC_NINT <=? h + 1 then 0 else h + 1 in
        w ← get l h;
        if w =? 0 then Some (Some h) else set_probe fuel l h i
  end.

Section Allocator.
  (** Whether the [n]-th allocation succeeds. *)
  Context (malloc : nat -> bool).

(** A result: the code, the bitmap and the number of allocations so far. *)
Abbreviation result := (option (Z * Bitvec * nat)) (only parsing).

(** [for(j=0; j<BITVEC_NINT; j++)]: the old values are set again. *)
Definition set_all (set : Bitvec -> Z -> nat -> result) (r : result) (aiValues : list Z) : result :=
  foldl (fun acc v =>
      '(rc, p, n) ← acc;
      if v =? 0 then Some (rc, p, n)
      else '(rc', p, n) ← set p (v - 1) n; Some (Z.lor rc rc', p, n))
    r aiValues.

(** [bitvec_set_rehash] with a full table: the bitmap is divided. *)
Definition set_rehash (set : Bitvec -> Z -> nat -> result) (p : Bitvec) (l : list Z) (i : Z) (n : nat) :
    result :=
  if malloc n then
    let p := mkBitvec (iSize p) (nSet p) ((iSize p + BITVEC_NPTR - 1) / BITVEC_NPTR)
               (apSub (replicate (Z.to_nat BITVEC_NPTR) None)) in
    set_all set (set p (i - 1) (S n)) l
  else Some (SQLITE_NOMEM, p, S n).

(** [bitvec_set_end] *)
Definition set_end (p : Bitvec) (l : list Z) (h i : Z) (n : nat) : result :=
  Some (SQLITE_OK, mkBitvec (iSize p) (nSet p + 1) (iDivisor p) (aHash (put l h i)), n).

(** The hash-table part; [i] counts from 1. *)
Definition set_hash (set : Bitvec -> Z -> nat -> result) (p : Bitvec) (l : list Z) (h i : Z) (n : nat) :
    result :=
  v ← get l h;
  if v =? 0 then
    if nSet p <? BITVEC_NINT - 1 then set_end p l h i n
    else if BITVEC_MXHASH <=? nSet p then set_rehash set p l i n
    else set_end p l h i n
  else
    r ← set_probe (S (Z.to_nat BITVEC_NINT)) l h i;
    match r with
    | None => Some (SQLITE_OK, p, n)
    | Some h => if BITVEC_MXHASH <=? nSet p then set_rehash set p l i n else set_end p l h i n
    end.

(** [i] counts from 0. *)
Fixpoint set_at (fuel : nat) (p : Bitvec) (i : Z) (n : nat) : result :=
  match fuel with
  | O => None
  | S fuel =>
      match u p with
      | apSub l =>
          let bin := Z.to_nat (i / iDivisor p) in
          sub ← l !! bin;
          let '(sub, n) :=
            match sub with
            | Some q => (Some q, n)
            | None =>
                (if malloc n then Some (sqlite3BitvecCreate (iDivisor p)) else None, S n)
            end in
          match sub with
          | None => Some (SQLITE_NOMEM, p, n)
          | Some q =>
              '(rc, q, n) ← set_at fuel q (i mod iDivisor p) n;
              Some (rc, mkBitvec (iSize p) (nSet p) (iDivisor p) (apSub (<[bin := Some q]> l)), n)
          end
      | aBitmap l =>
          v ← get l (i / BITVEC_SZELEM);
          Some (SQLITE_OK,
                mkBitvec (iSize p) (nSet p) (iDivisor p)
                  (aBitmap (put l (i / BITVEC_SZELEM)
                     (Z.lor v (Z.shiftl 1 (Z.land i (BITVEC_SZELEM - 1)))))),
                n)
      | aHash l => set_hash (set_at fuel) p l (BITVEC_HASH i) (i + 1) n
      end
  end.

Definition sqlite3BitvecSet (p : option Bitvec) (i : Z) (n : nat) :
    option (Z * option Bitvec * nat) :=
  match p with
  | None => Some (SQLITE_OK, None, n)
  | Some p => '(rc, p, n) ← set_at BITVEC_FUEL p (i - 1) n; Some (rc, Some p, n)
  end.
End Allocator.

(** [while( p->u.aHash[h] )] of the clearing: the next free place. *)
Fixpoint free_probe (fuel : nat) (l : list Z) (h : Z) : option Z :=
  match fuel with
  | O => None
  | S fuel =>
      v ← get l h;
      if v =? 0 then Some h
      else free_probe fuel l (if BITVEC_NINT <=? h + 1 then 0 else h + 1)
  end.

(** The hash table rebuilt without [i]. *)
Definition rebuild (l : list Z) (i : Z) : option (list Z * Z) :=
  foldl (fun acc v =>
      '(t, n) ← acc;
      if (v =? 0) || (v =? i) then Some (t, n)
      else h ← free_probe (S (Z.to_nat BITVEC_NINT)) t (BITVEC_HASH (v - 1));
           Some (put t h v, n + 1))
    (Some (replicate (Z.to_nat BITVEC_NINT) 0, 0)) l.

Fixpoint clear_at (fuel : nat) (p : Bitvec) (i : Z) : option Bitvec :=
  match fuel with
  | O => None
  | S fuel =>
      match u p with
      | apSub l =>
          let bin := Z.to_nat (i / iDivisor p) in
          sub ← l !! bin;
          match sub with
          | None => Some p
          | Some q =>
              q ← clear_at fuel q (i mod iDivisor p);
              Some (mkBitvec (iSize p) (nSet p) (iDivisor p) (apSub (<[bin := Some q]> l)))
          end
      | aBitmap l =>
          v ← get l (i / BITVEC_SZELEM);
          Some (mkBitvec (iSize p) (nSet p) (iDivisor p)
                  (aBitmap (put l (i / BITVEC_SZELEM)
                     (Z.land v (Z.lnot (Z.shiftl 1 (Z.land i (BITVEC_SZELEM - 1))))))))
      | aHash l =>
          '(t, n) ← rebuild l (i + 1);
          Some (mkBitvec (iSize p) n (iDivisor p) (aHash t))
      end
  end.

Definition sqlite3BitvecClear (p : option Bitvec) (i : Z) : option (option Bitvec) :=
  match p with
  | None => Some None
  | Some p => p ← clear_at BITVEC_FUEL p (i - 1); Some (Some p)
  end.

Definition sqlite3BitvecSize (p : Bitvec) : Z := iSize p.

(** ** Slots *)

Lemma NINT_eq : BITVEC_NINT = 124.
Proof. reflexivity. Qed.
Lemma NBIT_eq : BITVEC_NBIT = 3968.
Proof. reflexivity. Qed.
Lemma NPTR_eq : BITVEC_NPTR = 62.
Proof. reflexivity. Qed.

Lemma get_Znth l k : 0 <= k < Zlen l -> get l k = Some (Znth l k).
Proof.
  intros Hk. unfold get, Znth, Zlen in *.
  destruct (lookup_lt_is_Some_2 l (Z.to_nat k)) as [x Hx]; [lia |].
  rewrite Hx. f_equal. symmetry. by apply nth_lookup_Some with (d := 0) in Hx.
Qed.

Lemma put_split l k x : 0 <= k < Zlen l ->
  exists l1 l2, l = l1 ++ Znth l k :: l2 /\ put l k x = l1 ++ x :: l2.
Proof.
  intros Hk. pose proof (get_Znth l k Hk) as Hg. unfold get in Hg. unfold put.
  exists (take (Z.to_nat k) l), (drop (S (Z.to_nat k)) l).
  split; [by rewrite take_drop_middle |].
  rewrite insert_take_drop; [done | unfold Zlen in Hk; lia].
Qed.

Lemma Znth_put l k x j : 0 <= k < Zlen l -> 0 <= j -> Znth (put l k x) j = if j =? k then x else Znth l j.
Proof.
  intros Hk Hj. unfold Znth, put. rewrite !nth_lookup. destruct (Z.eqb_spec j k) as [-> | Hne].
  - rewrite list_lookup_insert_eq; [done | unfold Zlen in Hk; lia].
  - rewrite list_lookup_insert_ne; [done | lia].
Qed.

Lemma Zlen_put l k x : Zlen (put l k x) = Zlen l.
Proof. unfold Zlen, put. by rewrite length_insert. Qed.

Lemma Znth_elem l k : 0 <= k < Zlen l -> Znth l k ∈ l.
Proof.
  intros Hk. destruct (put_split l k 0 Hk) as (l1 & l2 & Hl & _).
  set (x := Znth l k) in *. clearbody x. subst l. set_solver.
Qed.

Lemma elem_Znth l x : x ∈ l -> exists k, 0 <= k < Zlen l /\ Znth l k = x.
Proof.
  intros [k Hk]%list_elem_of_lookup. exists (Z.of_nat k). pose proof (lookup_lt_Some _ _ _ Hk).
  split; [unfold Zlen; lia |]. unfold Znth. rewrite Nat2Z.id.
  by apply nth_lookup_Some with (d := 0) in Hk.
Qed.

(** How many entries are not zero. *)
Definition used (l : list Z) : Z := Zlen (filter (fun v => v <> 0) l).

Lemma used_bound l : 0 <= used l <= Zlen l.
Proof. unfold used, Zlen. pose proof (length_filter (fun v : Z => v <> 0) l). lia. Qed.

Lemma used_free l : used l < Zlen l -> exists k, 0 <= k < Zlen l /\ Znth l k = 0.
Proof.
  intros Hu. destruct (decide (0 ∈ l)) as [H0 | H0]; [by apply elem_Znth |].
  unfold used in Hu. rewrite filter_all in Hu; [lia |]. intros x Hx Hx0. congruence.
Qed.

Lemma put_used l k x : 0 <= k < Zlen l -> Znth l k = 0 -> x <> 0 -> used (put l k x) = used l + 1.
Proof.
  intros Hk H0 Hx. destruct (put_split l k x Hk) as (l1 & l2 & Hl & ->). rewrite H0 in Hl.
  unfold used. rewrite Hl. rewrite !filter_app, filter_cons_True, filter_cons_False by (done || tauto).
  rewrite !Zlen_app, Zlen_cons. lia.
Qed.

Lemma put_elem l k x y : 0 <= k < Zlen l -> Znth l k = 0 -> y <> 0 -> y ∈ put l k x <-> y = x \/ y ∈ l.
Proof.
  intros Hk H0 Hy. destruct (put_split l k x Hk) as (l1 & l2 & Hl & ->). rewrite H0 in Hl.
  rewrite Hl. rewrite !elem_of_app, !elem_of_cons. intuition congruence.
Qed.

(** ** Linear probing *)

(** The [e]-th place to try for the value [v]. *)
Definition pos (v : Z) (e : nat) : Z := (v - 1 + Z.of_nat e) mod BITVEC_NINT.

Lemma pos_range v e : 0 <= pos v e < 124.
Proof. unfold pos. rewrite NINT_eq. apply Z.mod_pos_bound. lia. Qed.

Lemma pos_0 v : pos v 0 = BITVEC_HASH (v - 1).
Proof. unfold pos, BITVEC_HASH. f_equal. lia. Qed.

Lemma pos_S v e : (pos v e + 1) mod BITVEC_NINT = pos v (S e).
Proof. unfold pos. rewrite Zplus_mod_idemp_l. f_equal. lia. Qed.

Lemma pos_S_wrap v e : (if BITVEC_NINT <=? pos v e + 1 then 0 else pos v e + 1) = pos v (S e).
Proof.
  rewrite <- pos_S. pose proof (pos_range v e). rewrite NINT_eq in *.
  destruct (Z.leb_spec 124 (pos v e + 1)).
  - replace (pos v e + 1) with 124 by lia. done.
  - rewrite Z.mod_small; lia.
Qed.

(** Every place is tried. *)
Lemma pos_onto v k : 0 <= k < 124 -> exists e, (e < 124)%nat /\ pos v e = k.
Proof.
  intros Hk. exists (Z.to_nat ((k - (v - 1)) mod 124)).
  pose proof (Z.mod_pos_bound (k - (v - 1)) 124 ltac:(lia)). split; [lia |].
  unfold pos. rewrite Z2Nat.id by lia. rewrite NINT_eq, Zplus_mod_idemp_r.
  rewrite Z.mod_small; lia.
Qed.

(** Each value is at the end of a run of used places that starts at its hash. *)
Definition probed (l : list Z) : Prop :=
  forall k, 0 <= k < 124 -> Znth l k <> 0 ->
  exists d, k = pos (Znth l k) d /\ forall e, (e < d)%nat -> Znth l (pos (Znth l k) e) <> 0.

Definition table (l : list Z) : Prop := Zlen l = 124 /\ probed l /\ used l <= 123.

Lemma first_index (P : nat -> bool) z : P z = true ->
  exists m, (m <= z)%nat /\ P m = true /\ forall j, (j < m)%nat -> P j = false.
Proof.
  revert P. induction z as [|z IH]; intros P Hz.
  - exists 0%nat. split; [lia |]. split; [done | lia].
  - destruct (P 0%nat) eqn:H0; [exists 0%nat; split; [lia |]; split; [done | lia] |].
    destruct (IH (fun j => P (S j)) Hz) as (m & Hm & Hp & Hmin).
    exists (S m). split; [lia |]. split; [done |]. intros [|j] Hj; [done | apply Hmin; lia].
Qed.

(** The first place for [v] that is free or holds [v]. *)
Lemma stop_index l v : Zlen l = 124 -> used l <= 123 ->
  exists m, (m < 124)%nat /\ (Znth l (pos v m) = 0 \/ Znth l (pos v m) = v) /\
    forall j, (j < m)%nat -> Znth l (pos v j) <> 0 /\ Znth l (pos v j) <> v.
Proof.
  intros Hl Hu. destruct (used_free l) as (k & Hk & H0); [lia |]. rewrite Hl in Hk.
  destruct (pos_onto v k Hk) as (z & Hz & <-).
  destruct (first_index (fun e => (Znth l (pos v e) =? 0) || (Znth l (pos v e) =? v)) z)
    as (m & Hm & Hp & Hmin); [by rewrite H0 |].
  exists m. split; [lia |]. apply orb_true_iff in Hp. rewrite !Z.eqb_eq in Hp. split; [done |].
  intros j Hj. specialize (Hmin j Hj). apply orb_false_iff in Hmin. by rewrite !Z.eqb_neq in Hmin.
Qed.

Lemma probed_found l v m : Zlen l = 124 -> probed l -> v <> 0 ->
  (forall j, (j < m)%nat -> Znth l (pos v j) <> 0 /\ Znth l (pos v j) <> v) ->
  Znth l (pos v m) = 0 -> v ∉ l.
Proof.
  intros Hl Hp Hv Hmin H0 (k & Hk & Hkv)%elem_Znth. rewrite Hl in Hk.
  destruct (Hp k Hk ltac:(congruence)) as (d & Hd & Hrun). rewrite Hkv in *.
  destruct (Nat.lt_total d m) as [Hlt | [-> | Hgt]].
  - destruct (Hmin d Hlt) as [_ Hne]. congruence.
  - congruence.
  - by apply (Hrun m Hgt).
Qed.

Lemma test_probe_run l v : Zlen l = 124 -> forall m fuel e,
  (forall j, (j < m)%nat -> Znth l (pos v (e + j)) <> 0 /\ Znth l (pos v (e + j)) <> v) ->
  Znth l (pos v (e + m)) = 0 \/ Znth l (pos v (e + m)) = v -> (m < fuel)%nat -> v <> 0 ->
  test_probe fuel l (pos v e) v = Some (Znth l (pos v (e + m)) =? v).
Proof.
  intros Hl. induction m as [|m IH]; intros fuel e Hrun Hend Hf Hv; destruct fuel as [|fuel]; try lia;
    simpl; rewrite get_Znth by (rewrite Hl; apply pos_range); simpl.
  - rewrite Nat.add_0_r in *. destruct Hend as [-> | ->].
    + rewrite Z.eqb_refl. f_equal. symmetry. apply Z.eqb_neq. done.
    + rewrite Z.eqb_refl. by rewrite (proj2 (Z.eqb_neq v 0)).
  - destruct (Hrun 0%nat ltac:(lia)) as [H0 Hnv]. rewrite Nat.add_0_r in *.
    rewrite (proj2 (Z.eqb_neq _ _) H0), (proj2 (Z.eqb_neq _ _) Hnv), pos_S.
    replace (e + S m)%nat with (S e + m)%nat in * by lia. apply IH; [| done | lia | done].
    intros j Hj. replace (S e + j)%nat with (e + S j)%nat by lia. apply Hrun. lia.
Qed.

Lemma test_probe_ok l v : table l -> v <> 0 ->
  test_probe (S (Z.to_nat BITVEC_NINT)) l (BITVEC_HASH (v - 1)) v = Some (bool_decide (v ∈ l)).
Proof.
  intros (Hl & Hp & Hu) Hv. destruct (stop_index l v Hl Hu) as (m & Hm & Hend & Hmin).
  rewrite <- pos_0. rewrite (test_probe_run l v Hl m _ 0); [| done | done | rewrite NINT_eq; lia | done].
  f_equal. simpl. destruct (Z.eqb_spec (Znth l (pos v m)) v) as [E | E]; symmetry.
  - apply bool_decide_eq_true. rewrite <- E. apply Znth_elem. rewrite Hl. apply pos_range.
  - apply bool_decide_eq_false. destruct Hend as [H0 | ?]; [| done].
    by apply (probed_found l v m).
Qed.

Lemma set_probe_run l v : Zlen l = 124 -> forall m fuel e,
  (forall j, (j < m)%nat -> Znth l (pos v (e + j)) <> 0 /\ Znth l (pos v (e + j)) <> v) ->
  Znth l (pos v (e + m)) = 0 \/ Znth l (pos v (e + m)) = v -> (m < fuel)%nat -> v <> 0 ->
  Znth l (pos v e) <> 0 ->
  set_probe fuel l (pos v e) v =
    Some (if Znth l (pos v (e + m)) =? v then None else Some (pos v (e + m))).
Proof.
  intros Hl. induction m as [|m IH]; intros fuel e Hrun Hend Hf Hv Hne; destruct fuel as [|fuel];
    try lia; simpl; rewrite (get_Znth l (pos v e)) by (rewrite Hl; apply pos_range); simpl.
  - rewrite Nat.add_0_r in *. destruct Hend as [? | ->]; [done |]. by rewrite Z.eqb_refl.
  - destruct (Hrun 0%nat ltac:(lia)) as [H0 Hnv]. rewrite Nat.add_0_r in *.
    rewrite (proj2 (Z.eqb_neq _ _) Hnv), pos_S_wrap, get_Znth by (rewrite Hl; apply pos_range). simpl.
    replace (e + S m)%nat with (S e + m)%nat in * by lia.
    destruct (Z.eqb_spec (Znth l (pos v (S e))) 0) as [E | E].
    + assert (m = 0%nat) as ->.
      { destruct m; [done |]. destruct (Hrun 1%nat ltac:(lia)) as [H1 _].
        by replace (e + 1)%nat with (S e) in H1 by lia. }
      rewrite Nat.add_0_r, E. by rewrite (proj2 (Z.eqb_neq 0 v)).
    + apply IH; [| done | lia | done | done].
      intros j Hj. replace (S e + j)%nat with (e + S j)%nat by lia. apply Hrun. lia.
Qed.

Lemma free_probe_run l v : Zlen l = 124 -> forall m fuel e,
  (forall j, (j < m)%nat -> Znth l (pos v (e + j)) <> 0) -> Znth l (pos v (e + m)) = 0 ->
  (m < fuel)%nat -> free_probe fuel l (pos v e) = Some (pos v (e + m)).
Proof.
  intros Hl. induction m as [|m IH]; intros fuel e Hrun Hend Hf; destruct fuel as [|fuel]; try lia;
    simpl; rewrite get_Znth by (rewrite Hl; apply pos_range); simpl.
  - rewrite Nat.add_0_r in *. by rewrite Hend.
  - pose proof (Hrun 0%nat ltac:(lia)) as H0. rewrite Nat.add_0_r in *.
    rewrite (proj2 (Z.eqb_neq _ _) H0), pos_S_wrap.
    replace (e + S m)%nat with (S e + m)%nat in * by lia. apply IH; [| done | lia].
    intros j Hj. replace (S e + j)%nat with (e + S j)%nat by lia. apply Hrun. lia.
Qed.

(** Filling the free place at the end of the run of [v]. *)
Lemma probed_put l v m : Zlen l = 124 -> probed l -> v <> 0 -> Znth l (pos v m) = 0 ->
  (forall j, (j < m)%nat -> Znth l (pos v j) <> 0) -> probed (put l (pos v m) v).
Proof.
  intros Hl Hp Hv H0 Hrun k Hk Hne.
  assert (forall j, 0 <= j < 124 -> Znth l j <> 0 -> Znth (put l (pos v m) v) j <> 0) as Hmono.
  { intros j Hj Hnj. rewrite Znth_put by (rewrite ?Hl; apply pos_range || lia).
    destruct (j =? pos v m); done. }
  rewrite Znth_put in Hne |- * by (rewrite ?Hl; apply pos_range || lia).
  destruct (Z.eqb_spec k (pos v m)) as [-> | Hkm].
  - exists m. split; [done |]. intros e He. apply Hmono; [apply pos_range | by apply Hrun].
  - destruct (Hp k Hk Hne) as (d & Hd & Hr). exists d. split; [done |].
    intros e He. apply Hmono; [apply pos_range | by apply Hr].
Qed.

#[local] Arguments test_probe : simpl never.
#[local] Arguments set_probe : simpl never.
#[local] Arguments free_probe : simpl never.

Lemma probe_put l v m : table l -> v <> 0 -> Znth l (pos v m) = 0 ->
  (forall j, (j < m)%nat -> Znth l (pos v j) <> 0) -> used l < 123 ->
  table (put l (pos v m) v) /\ used (put l (pos v m) v) = used l + 1 /\
  forall x, x <> 0 -> x ∈ put l (pos v m) v <-> x = v \/ x ∈ l.
Proof.
  intros (Hl & Hp & Hu) Hv H0 Hrun Hlt. pose proof (pos_range v m) as Hr. rewrite <- Hl in Hr.
  pose proof (put_used l (pos v m) v Hr H0 Hv) as Hus.
  split; [| split; [done |]]; [| intros x Hx; by apply put_elem].
  split; [by rewrite Zlen_put |]. split; [by apply probed_put | lia].
Qed.

Lemma table_empty : table (replicate (Z.to_nat BITVEC_NINT) 0).
Proof.
  rewrite NINT_eq. split; [done |]. split; [| done].
  intros k Hk Hne. exfalso. apply Hne. unfold Znth. rewrite nth_lookup.
  rewrite lookup_replicate_2; [done | lia].
Qed.

Lemma rebuild_ok l i : used l <= 123 -> exists t n, rebuild l i = Some (t, n) /\
  table t /\ n = used t /\ used t <= used l /\ forall x, x <> 0 -> x ∈ t <-> x ∈ l /\ x <> i.
Proof.
  induction l as [|v l IH] using rev_ind; intros Hu.
  - exists (replicate (Z.to_nat BITVEC_NINT) 0), 0. split; [done |]. split; [apply table_empty |].
    split; [done |]. split; [done |]. intros x Hx. split; [| by intros [?%elem_of_nil _]].
    intros [? _]%elem_of_replicate. done.
  - assert (used (l ++ [v]) = used l + if decide (v <> 0) then 1 else 0) as Huv.
    { unfold used. rewrite filter_app, Zlen_app. f_equal. by destruct (decide (v <> 0)) as [H|H];
        [rewrite filter_cons_True | rewrite filter_cons_False]. }
    assert (used l <= 123) as Hul by (destruct (decide (v <> 0)); lia).
    destruct (IH Hul) as (t & n & Ht & Htab & Hn & Hut & Hx).
    unfold rebuild. rewrite foldl_snoc. fold (rebuild l i). rewrite Ht. cbn [mbind option_bind].
    destruct (Z.eqb_spec v 0) as [Ev | Ev]; [| destruct (Z.eqb_spec v i) as [Ei | Ei]]; cbn [orb].
    + exists t, n. split; [done |]. split; [done |]. split; [done |].
      split; [rewrite decide_False in Huv by tauto; lia |].
      intros x Hx0. rewrite (Hx x Hx0). set_solver.
    + exists t, n. split; [done |]. split; [done |]. split; [done |].
      split; [rewrite decide_True in Huv by done; lia |].
      intros x Hx0. rewrite (Hx x Hx0). set_solver.
    + rewrite decide_True in Huv by done.
      destruct Htab as (Hlt & Hpt & Hu3).
      destruct (used_free t) as (k & Hk & H0); [lia |]. rewrite Hlt in Hk.
      destruct (pos_onto v k Hk) as (z & Hz & <-).
      destruct (first_index (fun e => Znth t (pos v e) =? 0) z) as (m & Hm & Hp & Hmin);
        [by rewrite H0 |].
      apply Z.eqb_eq in Hp.
      assert (forall j, (j < m)%nat -> Znth t (pos v j) <> 0) as Hrun
        by (intros j Hj; by apply Z.eqb_neq, Hmin).
      rewrite <- pos_0, (free_probe_run t v Hlt m) by (done || (rewrite NINT_eq; lia)). cbn [mbind option_bind Nat.add].
      destruct (probe_put t v m) as (Htab' & Hus & Hmem); [done.. | lia |].
      exists (put t (pos v m) v), (n + 1). split; [done |]. split; [done |]. split; [lia |].
      split; [lia |]. intros x Hx0. rewrite (Hmem x Hx0), (Hx x Hx0). set_solver.
Qed.

(** ** Bits *)

Definition bit (l : list Z) (i : Z) : bool := Z.testbit (Znth l (i / 8)) (i mod 8).

Lemma land_pow2 v k : 0 <= k -> negb (Z.land v (Z.shiftl 1 k) =? 0) = Z.testbit v k.
Proof.
  intros Hk. rewrite Z.shiftl_1_l. destruct (Z.testbit v k) eqn:E.
  - apply negb_true_iff, Z.eqb_neq. intros H. apply (f_equal (fun x => Z.testbit x k)) in H.
    rewrite Z.land_spec, E, Z.pow2_bits_true, Z.bits_0 in H by done. done.
  - apply negb_false_iff, Z.eqb_eq. apply Z.bits_inj'. intros j Hj.
    rewrite Z.land_spec, Z.bits_0. destruct (Z.eq_dec k j) as [<- | Hne]; [by rewrite E |].
    rewrite Z.pow2_bits_false by done. apply andb_false_r.
Qed.

Lemma low3 i : Z.land i (BITVEC_SZELEM - 1) = i mod 8.
Proof. change (BITVEC_SZELEM - 1) with (Z.ones 3). by rewrite Z.land_ones by lia. Qed.

Lemma shiftl_testbit k j : 0 <= k -> 0 <= j -> Z.testbit (Z.shiftl 1 k) j = (j =? k).
Proof.
  intros Hk Hj. rewrite Z.shiftl_1_l. destruct (Z.eqb_spec j k) as [-> | Hne].
  - by rewrite Z.pow2_bits_true.
  - by rewrite Z.pow2_bits_false by done.
Qed.

(** Two positions of the bitmap are equal when their bytes and bits are. *)
Lemma bit_pos i j : (i / 8 = j / 8 /\ i mod 8 = j mod 8) <-> i = j.
Proof.
  split; [| by intros ->]. intros [Hd Hm].
  rewrite (Z.div_mod i 8), (Z.div_mod j 8) by lia. by rewrite Hd, Hm.
Qed.

Lemma bit_update l i j (f : Z -> Z) (b : bool) : 0 <= i -> 0 <= j -> i / 8 < Zlen l ->
  (forall v k, 0 <= k -> Z.testbit (f v) k = if k =? i mod 8 then b else Z.testbit v k) ->
  bit (put l (i / 8) (f (Znth l (i / 8)))) j = if j =? i then b else bit l j.
Proof.
  intros Hi Hj Hl Hf. unfold bit.
  pose proof (Z.div_pos i 8 Hi ltac:(lia)). pose proof (Z.div_pos j 8 Hj ltac:(lia)).
  pose proof (Z.mod_pos_bound j 8 ltac:(lia)) as Hm.
  rewrite Znth_put by lia. destruct (Z.eqb_spec (j / 8) (i / 8)) as [E | E].
  - rewrite Hf by lia. rewrite E. destruct (Z.eqb_spec (j mod 8) (i mod 8)) as [E' | E'].
    + assert (j = i) as -> by (by apply bit_pos). by rewrite Z.eqb_refl.
    + destruct (Z.eqb_spec j i) as [-> | ]; [done | done].
  - destruct (Z.eqb_spec j i) as [-> | ]; [done | done].
Qed.

(** ** What a bitmap represents

    [rep n p size P]: [p] handles the [size] positions from 0 on, those of [P]
    are set, and at most [n] levels of sub-bitmaps are below. *)

Definition divisor (size : Z) : Z := (size + BITVEC_NPTR - 1) / BITVEC_NPTR.

Inductive rep : nat -> Bitvec -> Z -> (Z -> Prop) -> Prop :=
| rep_bitmap n size ns l P :
    0 < size <= BITVEC_NBIT -> Zlen l = BITVEC_NELEM ->
    (forall i, 0 <= i < size -> bit l i = true <-> P i) ->
    rep n (mkBitvec size ns 0 (aBitmap l)) size P
| rep_hash n size l P :
    BITVEC_NBIT < size <= BITVEC_NBIT * BITVEC_NPTR ^ Z.of_nat n -> table l ->
    (forall v, v ∈ l -> v <> 0 -> 0 < v <= size) ->
    (forall i, 0 <= i < size -> i + 1 ∈ l <-> P i) ->
    rep n (mkBitvec size (used l) 0 (aHash l)) size P
| rep_sub n size ns l P :
    BITVEC_NBIT < size <= BITVEC_NBIT * BITVEC_NPTR ^ Z.of_nat (S n) ->
    length l = Z.to_nat BITVEC_NPTR ->
    (forall b, l !! b = Some None -> forall i, 0 <= i < size -> i / divisor size = Z.of_nat b -> ~ P i) ->
    (forall b q, l !! b = Some (Some q) ->
       rep n q (divisor size)
         (fun j => Z.of_nat b * divisor size + j < size /\ P (Z.of_nat b * divisor size + j))) ->
    rep (S n) (mkBitvec size ns (divisor size) (apSub l)) size P.

Lemma rep_size n p size P : rep n p size P -> iSize p = size /\ 0 < size.
Proof. pose proof NBIT_eq. inversion 1; subst; simpl; lia. Qed.

Lemma rep_ext n p size P Q : rep n p size P -> (forall i, 0 <= i < size -> P i <-> Q i) ->
  rep n p size Q.
Proof.
  intros Hr. revert Q. induction Hr as [n size ns l P Hs Hl Hb | n size l P Hs Ht Hv Hb
    | n size ns l P Hs Hl Hnone Hsub IH]; intros Q HQ.
  - constructor; [done | done |]. intros i Hi. rewrite (Hb i Hi). by apply HQ.
  - constructor; [done | done | done |]. intros i Hi. rewrite (Hb i Hi). by apply HQ.
  - constructor; [done | done | |].
    + intros b Hbn i Hi Hdiv HQi. apply (Hnone b Hbn i Hi Hdiv). by apply HQ.
    + intros b q Hq. apply (IH b q Hq). intros i Hi.
      destruct (rep_size _ _ _ _ (Hsub b q Hq)) as [_ Hpos].
      split; intros [Hlt HP]; (split; [done |]); apply (HQ (Z.of_nat b * divisor size + i)); try done; nia.
Qed.

Lemma divisor_ok n size : BITVEC_NBIT < size <= BITVEC_NBIT * BITVEC_NPTR ^ Z.of_nat (S n) ->
  0 < divisor size <= BITVEC_NBIT * BITVEC_NPTR ^ Z.of_nat n /\
  (forall i, 0 <= i < size -> 0 <= i / divisor size < 62 /\ 0 <= i mod divisor size < divisor size).
Proof.
  rewrite NBIT_eq, NPTR_eq. unfold divisor. rewrite NPTR_eq. intros Hs.
  rewrite Nat2Z.inj_succ, Z.pow_succ_r in Hs by lia.
  pose proof (Z.pow_pos_nonneg 62 (Z.of_nat n) ltac:(lia) ltac:(lia)).
  pose proof (Z.div_mod (size + 62 - 1) 62 ltac:(lia)) as Hd.
  pose proof (Z.mod_pos_bound (size + 62 - 1) 62 ltac:(lia)).
  set (d := (size + 62 - 1) / 62) in *. split; [lia |].
  intros i Hi. split; [| apply Z.mod_pos_bound; lia].
  split; [apply Z.div_pos; lia | apply Z.div_lt_upper_bound; lia].
Qed.

Lemma Znth_zeros n k : Znth (replicate n 0) k = 0.
Proof.
  unfold Znth. rewrite nth_lookup. destruct (decide (Z.to_nat k < n)%nat).
  - by rewrite lookup_replicate_2.
  - rewrite lookup_ge_None_2; [done | rewrite length_replicate; lia].
Qed.

Lemma create_rep n size : 0 < size <= BITVEC_NBIT * BITVEC_NPTR ^ Z.of_nat n ->
  rep n (sqlite3BitvecCreate size) size (fun _ => False).
Proof.
  intros Hs. unfold sqlite3BitvecCreate. destruct (Z.leb_spec size BITVEC_NBIT) as [Hb | Hb].
  - apply rep_bitmap; [lia | unfold Zlen; by rewrite length_replicate |].
    intros i Hi. unfold bit. rewrite Znth_zeros, Z.bits_0. done.
  - replace 0 with (used (replicate (Z.to_nat BITVEC_NINT) 0)) at 1 by reflexivity.
    apply rep_hash; [lia | apply table_empty | |].
    + by intros v [-> _]%elem_of_replicate.
    + intros i Hi. split; [| done]. intros [Hv _]%elem_of_replicate. lia.
Qed.

Lemma test_ok n p size P : rep n p size P -> forall i fuel, 0 <= i < size -> (n < fuel)%nat ->
  exists b, test_loop fuel p i = Some b /\ (b = true <-> P i).
Proof.
  induction 1 as [n size ns l P Hs Hl Hb | n size l P Hs Ht Hv Hb
    | n size ns l P Hs Hl Hnone Hsub IH]; intros i [|fuel] Hi Hf; try lia; simpl.
  - pose proof NBIT_eq. rewrite get_Znth; cycle 1.
    { rewrite Hl. change (BITVEC_NELEM) with 496. change BITVEC_SZELEM with 8.
      split; [apply Z.div_pos; lia | apply Z.div_lt_upper_bound; lia]. }
    cbn [mbind option_bind]. rewrite low3, land_pow2 by (apply Z.mod_pos_bound; lia).
    eexists. split; [reflexivity |]. by apply Hb.
  - pose proof (test_probe_ok l (i + 1) Ht ltac:(lia)) as Hp.
    replace (i + 1 - 1) with i in Hp by lia. rewrite Hp. eexists. split; [reflexivity |].
    rewrite bool_decide_eq_true. by apply Hb.
  - destruct (divisor_ok n size Hs) as [Hd Hdiv]. destruct (Hdiv i Hi) as [Hq Hm].
    destruct (lookup_lt_is_Some_2 l (Z.to_nat (i / divisor size))) as [[q|] Hlk].
    { rewrite Hl, NPTR_eq. lia. }
    + rewrite Hlk. simpl. destruct (IH _ q Hlk (i mod divisor size) fuel Hm ltac:(lia)) as (b & -> & Hb).
      exists b. split; [done |]. rewrite Hb, Z2Nat.id by lia.
      replace (i / divisor size * divisor size + i mod divisor size) with i
        by (rewrite (Z.div_mod i (divisor size)) at 1; lia).
      split; [by intros [_ HP] | intros HP; split; [lia | done]].
    + rewrite Hlk. simpl. exists false. split; [done |]. split; [done |]. intros HP. exfalso.
      apply (Hnone _ Hlk i Hi); [lia | done].
Qed.

(** ** Setting *)

Section Setting.
  Context (malloc : nat -> bool).

(** The outcome of setting position [i] in a bitmap of the positions [P]: no other
    position appears, and none is missing unless memory ran out. *)
Definition set_result (n : nat) (size : Z) (P : Z -> Prop) (i : Z)
    (r : option (Z * Bitvec * nat)) : Prop :=
  exists rc p' k' P', r = Some (rc, p', k') /\ rep n p' size P' /\
    (forall j, 0 <= j < size -> P' j -> j = i \/ P j) /\
    (rc = 0 -> forall j, 0 <= j < size -> j = i \/ P j -> P' j) /\
    (rc = 0 \/ rc = 7) /\ ((forall k, malloc k = true) -> rc = 0).

Definition is_sub (p : Bitvec) : Prop := exists l, u p = apSub l.

(** The sub-bitmap of block [b], if there is one to set a bit in. *)
Lemma choose_sub n size ns l P b sub k :
  rep (S n) (mkBitvec size ns (divisor size) (apSub l)) size P -> l !! b = Some sub ->
  exists q k', rep n q (divisor size) (fun j => Z.of_nat b * divisor size + j < size /\ P (Z.of_nat b * divisor size + j)) /\
    (let '(s, k0) := match sub with
       | Some q => (Some q, k)
       | None => (if malloc k then Some (sqlite3BitvecCreate (divisor size)) else None, S k) end in
     (s = Some q \/ (s = None /\ malloc k = false)) /\ k0 = k').
Proof.
  intros Hr Hlk. inversion Hr as [| | n' sz ns' l' P0 Hs Hl Hnone Hsub]; subst. destruct sub as [q|].
  - exists q, k. split; [by apply Hsub | by split; [left |]].
  - destruct (divisor_ok n size Hs) as [Hd _]. exists (sqlite3BitvecCreate (divisor size)), (S k). split.
    + apply rep_ext with (fun _ => False); [by apply create_rep |].
      intros j Hj. split; [done |]. intros [Hlt HP].
      apply (Hnone b Hlk (Z.of_nat b * divisor size + j)); [nia | | done].
      symmetry. apply Z.div_unique with j; lia.
    + destruct (malloc k); auto.
Qed.

(** A new sub-bitmap in block [b]. *)
Lemma insert_sub n size ns l P b q Q :
  rep (S n) (mkBitvec size ns (divisor size) (apSub l)) size P -> (b < length l)%nat -> rep n q (divisor size) Q ->
  (forall j, 0 <= j < divisor size -> Q j -> Z.of_nat b * divisor size + j < size) ->
  rep (S n) (mkBitvec size ns (divisor size) (apSub (<[b := Some q]> l))) size
    (fun j => if decide (j / divisor size = Z.of_nat b) then Q (j mod divisor size) else P j).
Proof.
  intros Hr Hbl Hrq HQ. inversion Hr as [| | n' sz ns' l' P0 Hs Hl Hnone Hsub]; subst.
  destruct (divisor_ok n size Hs) as [Hd _]. set (d := divisor size) in *.
  assert (forall c j, 0 <= j < d -> (Z.of_nat c * d + j) / d = Z.of_nat c /\ (Z.of_nat c * d + j) mod d = j) as Hsplit.
  { intros c j Hj. split; symmetry; [apply Z.div_unique with j | apply Z.mod_unique with (Z.of_nat c)]; lia. }
  apply rep_sub; [done | by rewrite length_insert | |].
  - intros c Hc j Hj Hjc. fold d in Hjc. destruct (decide (c = b)) as [-> | Hne].
    { rewrite list_lookup_insert_eq in Hc by done. done. }
    rewrite list_lookup_insert_ne in Hc by done. rewrite decide_False by lia.
    by apply (Hnone c Hc j Hj).
  - intros c r Hc. fold d. destruct (decide (c = b)) as [-> | Hne].
    + rewrite list_lookup_insert_eq in Hc by done. injection Hc as <-.
      apply rep_ext with Q; [done |]. intros j Hj. destruct (Hsplit b j Hj) as [-> ->].
      rewrite decide_True by done. split; [| by intros [_ ?]]. intros Hq. split; [by apply HQ | done].
    + rewrite list_lookup_insert_ne in Hc by done.
      apply rep_ext with (fun j => Z.of_nat c * d + j < size /\ P (Z.of_nat c * d + j)); [by apply Hsub |].
      intros j Hj. destruct (Hsplit c j Hj) as [-> _]. rewrite decide_False by lia. done.
Qed.

(** Setting in the sub-bitmaps, given setting one level down. *)
Lemma set_sub n size P p i k fuel :
  (forall q size Q j k, rep n q size Q -> 0 <= j < size ->
     set_result n size Q j (set_at malloc fuel q j k)) ->
  rep (S n) p size P -> is_sub p -> 0 <= i < size ->
  exists rc p' k' P', set_at malloc (S fuel) p i k = Some (rc, p', k') /\ is_sub p' /\
    rep (S n) p' size P' /\
    (forall j, 0 <= j < size -> P' j -> j = i \/ P j) /\
    (rc = 0 -> forall j, 0 <= j < size -> j = i \/ P j -> P' j) /\
    (rc = 0 \/ rc = 7) /\ ((forall k, malloc k = true) -> rc = 0).
Proof.
  intros IH Hr [l0 Hu] Hi. pose proof Hr as Hr0.
  inversion Hr as [| | n' sz ns l P0 Hs Hl Hnone Hsub]; subst; simpl in Hu; try done.
  set (d := divisor size) in *. destruct (divisor_ok n size Hs) as [Hd Hdiv]. fold d in Hd, Hdiv.
  destruct (Hdiv i Hi) as [Hq Hm]. set (b := Z.to_nat (i / d)).
  assert (forall j, j / d = Z.of_nat b -> j = Z.of_nat b * d + j mod d) as Hjb
    by (intros j E; rewrite <- E, (Z.div_mod j d) at 1; lia).
  assert (i = Z.of_nat b * d + i mod d) as Hib by (apply Hjb; lia).
  assert (b < length l)%nat as Hbl by (rewrite Hl, NPTR_eq; lia).
  destruct (lookup_lt_is_Some_2 l b Hbl) as [sub Hlk]. simpl. fold d. fold b. rewrite Hlk.
  cbn [mbind option_bind]. destruct (choose_sub n size ns l P b sub k Hr0 Hlk) as (q & k' & Hrq & Hsel). fold d in Hrq, Hsel.
  destruct (match sub with Some _ => _ | None => _ end) as [s k0]. destruct Hsel as [[-> | [-> Hfail]] ->]; cycle 1.
  { exists SQLITE_NOMEM, (mkBitvec size ns d (apSub l)), k', P. split; [done |].
    split; [by exists l |]. split; [done |]. split; [auto |]. split; [done |]. split; [by right |].
    intros Hall. by rewrite Hall in Hfail. }
  destruct (IH q d _ (i mod d) k' Hrq Hm) as (rc & q' & k2 & Q & -> & Hrq' & Hsubset & Hfull & Hrc & Hall).
  cbn [mbind option_bind]. simpl iSize. simpl nSet. simpl iDivisor.
  exists rc, (mkBitvec size ns d (apSub (<[b := Some q']> l))), k2,
    (fun j => if decide (j / d = Z.of_nat b) then Q (j mod d) else P j).
  split; [done |]. split; [by eexists |]. split; [| split; [| split; [| done]]].
  - apply insert_sub; [done | done | done |]. intros j Hj HQ. fold d. destruct (Hsubset j Hj HQ) as [-> | [? _]]; lia.
  - intros j Hj. case_decide as E; [| auto]. intros HQ. specialize (Hjb j E).
    destruct (Hsubset (j mod d) ltac:(apply Z.mod_pos_bound; lia) HQ) as [Hjm | [_ HP]];
      [left; lia | right; by rewrite <- Hjb in HP].
  - intros H0 j Hj HjP. case_decide as E; [specialize (Hjb j E) | destruct HjP as [-> | HP]; [lia | done]].
    apply Hfull; [done | apply Z.mod_pos_bound; lia |].
    destruct HjP as [-> | HP]; [by left | right]. split; [lia | by rewrite <- Hjb].
Qed.

Lemma set_all_cons set rc p k v l :
  set_all set (Some (rc, p, k)) (v :: l) =
  set_all set (if v =? 0 then Some (rc, p, k)
               else '(rc', p, k) ← set p (v - 1) k; Some (Z.lor rc rc', p, k)) l.
Proof. done. Qed.

(** Rehashing: the values go one by one into an empty divided bitmap. *)
Lemma set_values n fuel size :
  (forall q size Q j k, rep n q size Q -> 0 <= j < size ->
     set_result n size Q j (set_at malloc fuel q j k)) ->
  forall l rc p k P, rep (S n) p size P -> is_sub p -> rc = 0 \/ rc = 7 ->
  (forall v, v ∈ l -> v <> 0 -> 0 < v <= size) ->
  exists rc' p' k' P',
    set_all (set_at malloc (S fuel))
      (Some (rc, p, k)) l = Some (rc', p', k') /\ rep (S n) p' size P' /\
    (forall j, 0 <= j < size -> P' j -> P j \/ j + 1 ∈ l) /\
    (rc' = 0 -> rc = 0 /\ forall j, 0 <= j < size -> P j \/ j + 1 ∈ l -> P' j) /\
    (rc' = 0 \/ rc' = 7) /\ (rc = 0 -> (forall k, malloc k = true) -> rc' = 0).
Proof.
  intros IH. induction l as [|v l IHl]; intros rc p k P Hr Hsub Hrc Hl.
  - exists rc, p, k, P. split; [done |]. split; [done |]. split; [by left |].
    split; [| done]. intros ->. split; [done |]. intros j _ [HP | []%elem_of_nil]. done.
  - assert (forall v, v ∈ l -> v <> 0 -> 0 < v <= size) as Hl' by (intros w Hw; apply Hl; by right).
    rewrite set_all_cons.
    destruct (Z.eqb_spec v 0) as [-> | Hv].
    + destruct (IHl rc p k P Hr Hsub Hrc Hl') as (rc' & p' & k' & P' & -> & Hr' & H1 & H2 & H3 & H4).
      exists rc', p', k', P'. split; [done |]. split; [done |]. split; [| split; [| done]].
      * intros j Hj HP. destruct (H1 j Hj HP); [by left | right; by right].
      * intros H0. destruct (H2 H0) as [H5 H6]. split; [done |]. intros j Hj [HP | Hin]; [auto |].
        apply elem_of_cons in Hin as [? | Hin]; [lia | auto].
    + pose proof (Hl v ltac:(left) Hv) as Hvs.
      destruct (set_sub n size P p (v - 1) k fuel IH Hr Hsub ltac:(lia))
        as (rc1 & p1 & k1 & P1 & -> & Hsub1 & Hr1 & Hs1 & Hf1 & Hc1 & Ha1). cbn [mbind option_bind].
      assert (Z.lor rc rc1 = 0 \/ Z.lor rc rc1 = 7) as Hrc1
        by (destruct Hrc as [-> | ->], Hc1 as [-> | ->]; auto).
      destruct (IHl (Z.lor rc rc1) p1 k1 P1 Hr1 Hsub1 Hrc1 Hl')
        as (rc' & p' & k' & P' & -> & Hr' & H1 & H2 & H3 & H4).
      exists rc', p', k', P'. split; [done |]. split; [done |]. split; [| split; [| split; [done |]]].
      * intros j Hj HP. destruct (H1 j Hj HP) as [HP1 | ?]; [| right; by right].
        destruct (Hs1 j Hj HP1) as [-> | ?]; [| by left].
        right. apply elem_of_cons. left. lia.
      * intros H0. destruct (H2 H0) as [[-> ->]%Z.lor_eq_0_iff H6]. split; [done |].
        intros j Hj [HP | Hin]; [apply H6; [done | left; apply Hf1; auto] |].
        apply elem_of_cons in Hin as [Hjv | Hin]; [| auto].
        apply H6; [done |]. left. apply Hf1; [done | done | left; lia].
      * intros -> Hall. apply H4; [| done]. by rewrite (Ha1 Hall).
Qed.

Lemma set_bitmap n size ns l P i k fuel : rep n (mkBitvec size ns 0 (aBitmap l)) size P ->
  0 <= i < size -> set_result n size P i (set_at malloc (S fuel) (mkBitvec size ns 0 (aBitmap l)) i k).
Proof.
  intros Hr Hi. inversion Hr as [? ? ? ? ? Hs Hl Hb | |]; subst.
  pose proof NBIT_eq. change BITVEC_NELEM with 496 in Hl. simpl. change BITVEC_SZELEM with 8.
  assert (0 <= i / 8 < 496) as Hq by (split; [apply Z.div_pos; lia | apply Z.div_lt_upper_bound; lia]).
  rewrite get_Znth by lia. cbn [mbind option_bind].
  exists 0. do 2 eexists. exists (fun j => j = i \/ P j). split; [reflexivity |].
  split; [| split; [done | split; [done | split; [by left | done]]]].
  apply rep_bitmap; [lia | by rewrite Zlen_put |]. intros j Hj.
  rewrite (bit_update l i j (fun v => Z.lor v (Z.shiftl 1 (Z.land i (8 - 1)))) true); cycle 1.
  { lia. } { lia. } { lia. }
  { intros v k' Hk. rewrite Z.lor_spec. change (8 - 1) with (BITVEC_SZELEM - 1). rewrite low3.
    rewrite shiftl_testbit by (done || (apply Z.mod_pos_bound; lia)).
    destruct (k' =? i mod 8); [apply orb_true_r | apply orb_false_r]. }
  destruct (Z.eqb_spec j i); [tauto |]. rewrite (Hb j Hj). tauto.
Qed.

(** Rebuilding the table as sub-bitmaps, with the new value. *)
Lemma set_rehash_ok n size P l i k fuel :
  (forall q size Q j k, rep n q size Q -> 0 <= j < size -> set_result n size Q j (set_at malloc fuel q j k)) ->
  BITVEC_NBIT < size <= BITVEC_NBIT * BITVEC_NPTR ^ Z.of_nat (S n) ->
  rep (S n) (mkBitvec size (used l) 0 (aHash l)) size P ->
  (forall v, v ∈ l -> v <> 0 -> 0 < v <= size) -> (forall j, 0 <= j < size -> j + 1 ∈ l <-> P j) -> 0 <= i < size ->
  set_result (S n) size P i
    (set_rehash malloc (set_at malloc (S fuel)) (mkBitvec size (used l) 0 (aHash l)) l (i + 1) k).
Proof.
  intros IH Hs Hr Hv Hb Hi. set (p := mkBitvec size (used l) 0 (aHash l)).
  unfold set_rehash. destruct (malloc k) eqn:Hm; cycle 1.
  { exists 7, p, (S k), P. split; [done |]. split; [done |]. split; [auto |]. split; [done |].
    split; [by right |]. intros Hall. by rewrite Hall in Hm. }
  replace (i + 1 - 1) with i by lia.
  assert (rep (S n) (mkBitvec size (used l) (divisor size)
    (apSub (replicate (Z.to_nat BITVEC_NPTR) None))) size (fun _ => False)) as Hempty.
  { apply rep_sub; [done | by rewrite length_replicate | by intros b _ j _ _ [] |].
    intros b q [[=] _]%lookup_replicate. }
  destruct (set_sub n size _ _ i (S k) fuel IH Hempty ltac:(by eexists) Hi)
    as (rc1 & p1 & k1 & P1 & E & Hsub1 & Hr1 & Hs1 & Hf1 & Hc1 & Ha1).
  change ((iSize p + BITVEC_NPTR - 1) / BITVEC_NPTR) with (divisor size). simpl iSize. simpl nSet.
  rewrite E.
  destruct (set_values n fuel size IH l rc1 p1 k1 P1 Hr1 Hsub1 Hc1 Hv)
    as (rc' & p' & k2 & P' & -> & Hr' & H1 & H2 & H3 & H4).
  exists rc', p', k2, P'. split; [done |]. split; [done |]. split; [| split; [| split; [done | auto]]].
  - intros j Hj HP. destruct (H1 j Hj HP) as [HP1 | Hin]; [| right; by apply Hb].
    destruct (Hs1 j Hj HP1) as [-> | []]. by left.
  - intros H0 j Hj HP. destruct (H2 H0) as [-> H6]. apply H6; [done |].
    destruct HP as [-> | HP]; [left; apply Hf1; auto | right; by apply Hb].
Qed.

(** A new value at the end of its run. *)
Lemma set_end_ok n size P l i k m :
  BITVEC_NBIT < size <= BITVEC_NBIT * BITVEC_NPTR ^ Z.of_nat n -> table l ->
  (forall v, v ∈ l -> v <> 0 -> 0 < v <= size) -> (forall j, 0 <= j < size -> j + 1 ∈ l <-> P j) -> 0 <= i < size ->
  Znth l (pos (i + 1) m) = 0 -> used l < 123 -> (forall j, (j < m)%nat -> Znth l (pos (i + 1) j) <> 0) ->
  set_result n size P i (set_end (mkBitvec size (used l) 0 (aHash l)) l (pos (i + 1) m) (i + 1) k).
Proof.
  intros Hs Ht Hv Hb Hi H0 Hu Hrun. destruct (probe_put l (i + 1) m Ht ltac:(lia) H0 Hrun Hu) as (Ht' & Hus & Hmem).
  exists 0. do 2 eexists. exists (fun j => j = i \/ P j). split; [reflexivity |].
  split; [| split; [done | split; [done | split; [by left | done]]]].
  simpl. rewrite <- Hus. apply rep_hash; [done | done | |].
  - intros v Hvin Hv0. apply Hmem in Hvin; [| done]. destruct Hvin as [-> | Hvin]; [lia | by apply Hv].
  - intros j Hj. rewrite Hmem by lia. rewrite (Hb j Hj). intuition lia.
Qed.

Lemma set_ok n : forall p size P i k fuel, rep n p size P -> 0 <= i < size -> (2 * n < fuel)%nat ->
  set_result n size P i (set_at malloc fuel p i k).
Proof.
  induction n as [n IHn] using lt_wf_ind. intros p size P i k [|fuel] Hr Hi Hf; [lia |].
  assert (forall n', n = S n' -> (2 * n' < pred fuel)%nat -> forall q size Q j k, rep n' q size Q ->
    0 <= j < size -> set_result n' size Q j (set_at malloc (pred fuel) q j k)) as IH1.
  { intros n' -> Hf' q sz Q j k' Hq Hj. apply IHn; [lia | done | done | done]. }
  inversion Hr as [? ? ns l ? Hs Hl Hb | ? ? l ? Hs Ht Hv Hb | n' ? ns l ? Hs Hl Hnone Hsub]; subst.
  - apply set_bitmap; done.
  - destruct n as [|n].
    { pose proof NBIT_eq. rewrite Z.pow_0_r in Hs. lia. }
    destruct fuel as [|fuel]; [lia |]. simpl pred in IH1.
    specialize (IH1 n eq_refl ltac:(lia)).
    set (p := mkBitvec size (used l) 0 (aHash l)).
    pose proof (fun k => set_rehash_ok n size P l i k fuel IH1 Hs Hr Hv Hb Hi) as Hrehash. fold p in Hrehash.
    pose proof (fun m => set_end_ok (S n) size P l i k m Hs Ht Hv Hb Hi) as Hend. fold p in Hend.
    destruct Ht as (Hlen & Hprobed & Hused).
    change (set_at malloc (S (S fuel)) p i k)
      with (set_hash malloc (set_at malloc (S fuel)) p l (BITVEC_HASH i) (i + 1) k).
    unfold set_hash.
    replace (BITVEC_HASH i) with (pos (i + 1) 0) by (rewrite pos_0; f_equal; lia).
    rewrite get_Znth by (rewrite Hlen; apply pos_range). cbn [mbind option_bind].
    change (nSet p) with (used l) in *. change BITVEC_MXHASH with 62. change (BITVEC_NINT - 1) with 123.
    destruct (Z.eqb_spec (Znth l (pos (i + 1) 0)) 0) as [E0 | E0].
    + destruct (Z.ltb_spec (used l) 123); [apply (Hend 0%nat); [done | lia | lia] |].
      destruct (Z.leb_spec 62 (used l)); [apply Hrehash | lia].
    + destruct (stop_index l (i + 1) Hlen Hused) as (m & Hm & Hstop & Hmin).
      rewrite (set_probe_run l (i + 1) Hlen m _ 0); [| done | done | rewrite NINT_eq; lia | lia | done].
      cbn [mbind option_bind Nat.add].
      destruct (Z.eqb_spec (Znth l (pos (i + 1) m)) (i + 1)) as [Ei | Ei].
      * exists 0, p, k, P. split; [done |]. split; [done |]. split; [auto |]. split; [| auto].
        intros _ j Hj [-> | HP]; [| done]. apply Hb; [done |]. rewrite <- Ei. apply Znth_elem.
        rewrite Hlen. apply pos_range.
      * destruct (Z.leb_spec 62 (used l)); [apply Hrehash |].
        apply Hend; [by destruct Hstop | lia |]. intros j Hj. by apply Hmin.
  - destruct (set_sub n' size P (mkBitvec size ns (divisor size) (apSub l)) i k fuel) as (rc & p' & k' & P' & E & _ & H); [| exact Hr | by eexists | done |].
    { intros q sz Q j k' Hq Hj. apply IHn; [lia | done | done | lia]. }
    rewrite E. exists rc, p', k', P'. split; [done | exact H].
Qed.
End Setting.

(** ** Clearing *)

Lemma clear_ok n p size P : rep n p size P -> forall i fuel, 0 <= i < size -> (n < fuel)%nat ->
  exists p', clear_at fuel p i = Some p' /\ rep n p' size (fun j => P j /\ j <> i).
Proof.
  induction 1 as [n size ns l P Hs Hl Hb | n size l P Hs Ht Hv Hb
    | n size ns l P Hs Hl Hnone Hsub IH]; intros i [|fuel] Hi Hf; try lia; simpl.
  - pose proof NBIT_eq. change BITVEC_SZELEM with 8. pose proof Hl as Hl'. change BITVEC_NELEM with 496 in Hl'.
    assert (0 <= i / 8 < 496) as Hq by (split; [apply Z.div_pos; lia | apply Z.div_lt_upper_bound; lia]).
    rewrite get_Znth by lia. cbn [mbind option_bind]. eexists. split; [reflexivity |].
    apply rep_bitmap; [lia | by rewrite Zlen_put |]. intros j Hj.
    rewrite (bit_update l i j (fun v => Z.land v (Z.lnot (Z.shiftl 1 (Z.land i (8 - 1))))) false); cycle 1.
    { lia. } { lia. } { lia. }
    { intros v k' Hk. rewrite Z.land_spec, Z.lnot_spec by done.
      change (8 - 1) with (BITVEC_SZELEM - 1). rewrite low3.
      rewrite shiftl_testbit by (done || (apply Z.mod_pos_bound; lia)).
      destruct (k' =? i mod 8); [apply andb_false_r | apply andb_true_r]. }
    destruct (Z.eqb_spec j i); [split; [done | tauto] |]. rewrite (Hb j Hj). tauto.
  - destruct (rebuild_ok l (i + 1)) as (t & k & -> & Htab & -> & _ & Hmem); [apply Ht |].
    cbn [mbind option_bind]. eexists. split; [reflexivity |]. apply rep_hash; [done | done | |].
    + intros v Hvt Hv0. apply Hv; [| done]. by apply (Hmem v Hv0).
    + intros j Hj. rewrite Hmem, (Hb j Hj) by lia. intuition lia.
  - destruct (divisor_ok n size Hs) as [Hd Hdiv]. set (d := divisor size) in *.
    destruct (Hdiv i Hi) as [Hq Hm]. set (b := Z.to_nat (i / d)).
    assert (Z.of_nat b = i / d) as Hb by (unfold b; lia).
    assert (i = Z.of_nat b * d + i mod d) as Hib by (rewrite Hb, (Z.div_mod i d) at 1; lia).
    assert (b < length l)%nat as Hbl by (rewrite Hl, NPTR_eq; lia).
    destruct (lookup_lt_is_Some_2 l b Hbl) as [[q|] Hlk]; rewrite Hlk; cbn [mbind option_bind]; cycle 1.
    { eexists. split; [reflexivity |]. apply rep_ext with P; [by apply rep_sub |].
      intros j Hj. split; [| tauto]. intros HP. split; [done |]. intros ->.
      by apply (Hnone b Hlk i Hi). }
    destruct (IH b q Hlk (i mod d) fuel Hm ltac:(lia)) as (q' & -> & Hrq'). cbn [mbind option_bind].
    eexists. split; [reflexivity |]. fold d. apply rep_sub; [done | by rewrite length_insert | |].
    + intros c Hc j Hj Hjc [HP _]. destruct (decide (c = b)) as [-> | Hne].
      { rewrite list_lookup_insert_eq in Hc by done. done. }
      rewrite list_lookup_insert_ne in Hc by done. by apply (Hnone c Hc j Hj).
    + intros c r Hc. fold d. destruct (decide (c = b)) as [-> | Hne].
      * rewrite list_lookup_insert_eq in Hc by done. injection Hc as <-.
        eapply rep_ext; [exact Hrq' |]. intros j Hj. simpl. split; intros Hx; split_and!; try tauto.
        -- intros E. apply (proj2 Hx). lia.
        -- intros E. apply (proj2 (proj2 Hx)). lia.
      * rewrite list_lookup_insert_ne in Hc by done. eapply rep_ext; [apply (Hsub c r Hc) |].
        intros j Hj. fold d. simpl. split; [| tauto]. intros [Hlt HP]. split_and!; try done.
        intros E. apply Hne, Nat2Z.inj. rewrite Hb. apply Z.div_unique with j; lia.
Qed.

(** ** The set of page numbers *)

(** [p] is a bitmap for the pages [1..size] and holds those of [S]. *)
Definition bitset (p : Bitvec) (size : Z) (S : gset Z) : Prop :=
  rep 4 p size (fun i => i + 1 ∈ S).

Lemma bitset_set malloc p size S i n : bitset p size S -> 1 <= i <= size ->
  exists rc p' n' S', sqlite3BitvecSet malloc (Some p) i n = Some (rc, Some p', n') /\
    bitset p' size S' /\ S' ⊆ {[i]} ∪ S /\
    (rc = SQLITE_OK /\ S' = {[i]} ∪ S \/ rc = SQLITE_NOMEM) /\
    ((forall k, malloc k = true) -> rc = SQLITE_OK).
Proof.
  intros Hp Hi. unfold sqlite3BitvecSet.
  destruct (set_ok malloc 4 p size _ (i - 1) n BITVEC_FUEL Hp ltac:(lia) ltac:(unfold BITVEC_FUEL; lia))
    as (rc & p' & n' & P' & -> & Hr & Hs & Hf & Hrc & Hall).
  exists rc, p', n'. simpl. destruct (Z.eq_dec rc 0) as [-> | Hne].
  - exists ({[i]} ∪ S). split; [done |]. split; [| split; [done | split; [by left | done]]].
    eapply rep_ext; [exact Hr |]. intros j Hj. simpl. rewrite elem_of_union, elem_of_singleton.
    split; [intros HP; destruct (Hs j Hj HP); [left; lia | by right] |].
    intros HP. apply Hf; [done | done |]. destruct HP; [left; lia | by right].
  - exists (filter (fun j => test_loop 5 p' (j - 1) = Some true) ({[i]} ∪ S)).
    split; [done |]. split; [| split; [| split; [right; tauto | done]]].
    + eapply rep_ext; [exact Hr |]. intros j Hj. cbv beta.
      rewrite elem_of_filter, elem_of_union, elem_of_singleton.
      replace (j + 1 - 1) with j by lia.
      destruct (test_ok _ _ _ _ Hr j 5 Hj ltac:(lia)) as (b & -> & Hb).
      split; [| intros [[= ->] _]; by apply Hb].
      intros HP. split; [f_equal; by apply Hb |]. destruct (Hs j Hj HP); [left; lia | by right].
    + intros j. rewrite elem_of_filter. tauto.
Qed.

(** C30: a bitmap created for fewer than 2^32 pages is a set of page numbers,
    whichever of the three representations it is in.  Testing terminates and is
    membership, and false out of range; clearing removes; setting adds, and when
    memory runs out it says so, invents no page and leaves a valid bitmap; a null
    bitmap is the empty set.  No access leaves its array. *)
Theorem Bitvec_refines_set (size : Z) (S : gset Z) (p : Bitvec) (i : Z) (malloc : nat -> bool) (n : nat) :
  0 < size < 2 ^ 32 -> bitset p size S -> 1 <= i <= size ->
  bitset (sqlite3BitvecCreate size) size ∅ /\
  sqlite3BitvecSize p = size /\
  sqlite3BitvecTest (Some p) i = Some (bool_decide (i ∈ S)) /\
  (forall j, j = 0 \/ size < j -> sqlite3BitvecTest (Some p) j = Some false) /\
  (exists p', sqlite3BitvecClear (Some p) i = Some (Some p') /\ bitset p' size (S ∖ {[i]})) /\
  (exists rc p' n' S', sqlite3BitvecSet malloc (Some p) i n = Some (rc, Some p', n') /\
     bitset p' size S' /\ S' ⊆ {[i]} ∪ S /\
     (rc = SQLITE_OK /\ S' = {[i]} ∪ S \/ rc = SQLITE_NOMEM) /\
     ((forall k, malloc k = true) -> rc = SQLITE_OK)) /\
  sqlite3BitvecTest None i = Some false /\ sqlite3BitvecClear None i = Some None /\
  sqlite3BitvecSet malloc None i n = Some (SQLITE_OK, None, n).
Proof.
  intros Hsize Hp Hi. destruct (rep_size _ _ _ _ Hp) as [Hsz _].
  split; [| split; [done | split; [| split; [| split; [| split; [by apply bitset_set | done]]]]]].
  - apply rep_ext with (fun _ => False); [apply create_rep; rewrite NBIT_eq, NPTR_eq; lia |].
    intros j _. split; [done | set_solver].
  - unfold sqlite3BitvecTest. rewrite Hsz.
    destruct (Z.ltb_spec size i); [lia |]. destruct (Z.eqb_spec i 0); [lia |]. simpl orb.
    destruct (test_ok _ _ _ _ Hp (i - 1) BITVEC_FUEL ltac:(lia) ltac:(unfold BITVEC_FUEL; lia))
      as (b & -> & Hb). f_equal. replace (i - 1 + 1) with i in Hb by lia.
    destruct b; symmetry; [apply bool_decide_eq_true; by apply Hb |].
    apply bool_decide_eq_false. intros HS. by apply Hb in HS.
  - intros j Hj. unfold sqlite3BitvecTest. rewrite Hsz.
    destruct (Z.ltb_spec size j), (Z.eqb_spec j 0); try done; lia.
  - destruct (clear_ok _ _ _ _ Hp (i - 1) BITVEC_FUEL ltac:(lia) ltac:(unfold BITVEC_FUEL; lia))
      as (p' & E & Hr). exists p'. unfold sqlite3BitvecClear. rewrite E. split; [done |].
    eapply rep_ext; [exact Hr |]. intros j Hj. simpl.
    rewrite elem_of_difference, elem_of_singleton. split; (intros [HS Hne]; split; [done | lia]).
Qed.

(** Eighty colliding pages of a large file divide the bitmap. *)
Definition sample_bitvec : option (Z * option Bitvec * nat) :=
  foldl (fun acc k => '(_, p, n) ← acc; sqlite3BitvecSet (fun _ => true) p (k * 124 + 1) n)
    (Some (0, Some (sqlite3BitvecCreate 1000000), 0%nat)) (seqZ 0 80).

Example sample_bitvec_divided :
  match sample_bitvec with
  | Some (_, Some p, _) =>
      (iDivisor p, sqlite3BitvecTest (Some p) 125, sqlite3BitvecTest (Some p) 126)
  | _ => (0, None, None)
  end = (16130, Some true, Some false).
Proof. vm_compute. reflexivity. Qed.

Lemma Bitvec_refines_set_witness :
  (exists p n, sqlite3BitvecSet (fun _ => true) (Some (sqlite3BitvecCreate 1000000)) 7 0
     = Some (SQLITE_OK, Some p, n)) /\
  sqlite3BitvecTest (Some (sqlite3BitvecCreate 1000000)) 7 = Some false.
Proof.
  assert (bitset (sqlite3BitvecCreate 1000000) 1000000 ∅) as Hb.
  { apply rep_ext with (fun _ => False).
    - apply create_rep. rewrite NBIT_eq, NPTR_eq. lia.
    - intros j _. split; [intros [] | intros Hj; exact (not_elem_of_empty _ Hj)]. }
  destruct (Bitvec_refines_set 1000000 ∅ (sqlite3BitvecCreate 1000000) 7 (fun _ => true) 0
              ltac:(lia) Hb ltac:(lia))
    as (_ & _ & Ht & _ & _ & (rc & p' & n' & S' & Hs & _ & _ & _ & Hok) & _).
  split; [| exact Ht]. exists p', n'. rewrite (Hok (fun _ => eq_refl)) in Hs. exact Hs.
Defined.
