(* ===== verification/SqRowset.v ===== *)
(** SQLite's row sets: sets of row ids that are filled by inserts and read either by
    tests or in order ([src/src/cache/sqlite3.c], part rowset.c).

    A list of entries linked by [pRight] is the list of its values, a tree its tree
    of values: every entry belongs to one of them.  [pLast] is the last entry of
    [pEntry] as long as inserts are allowed.  [None] is a failed assertion or a
    bucket behind the array. *)

From S2P Require Import Prelude.
From stdpp Require Import gmap sorting.

#[local] Open Scope Z_scope.

(** ** State *)

Inductive tree := Leaf | Node (pLeft : tree) (v : Z) (pRight : tree).

(** [forest] holds the [pLeft] of each entry of [pForest]. *)
Record RowSet := {
  chunks : nat;
  pEntry : list Z;
  nFresh : nat;
  forest : list tree;
  rs_sorted : bool;     (* ROWSET_SORTED *)
  rs_next : bool;       (* ROWSET_NEXT *)
  iBatch : Z
}.

(** [ROWSET_ENTRY_PER_CHUNK]: an entry has 24 bytes. *)
Definition ROWSET_ENTRY_PER_CHUNK : nat := (1024 - 8) / 24.

(** [n] entries fit behind the [RowSet]. *)
Definition sqlite3RowSetInit (n : nat) : RowSet :=
  {| chunks := 0; pEntry := []; nFresh := n; forest := []; rs_sorted := true; rs_next := false; iBatch := 0 |}.

Definition sqlite3RowSetClear (p : RowSet) : RowSet :=
  {| chunks := 0; pEntry := []; nFresh := 0; forest := []; rs_sorted := true; rs_next := false; iBatch := iBatch p |}.

Definition with_entries (l : list Z) (sorted : bool) (p : RowSet) : RowSet :=
  {| chunks := chunks p; pEntry := l; nFresh := nFresh p; forest := forest p; rs_sorted := sorted; rs_next := rs_next p;
     iBatch := iBatch p |}.
Definition with_forest (f : list tree) (p : RowSet) : RowSet :=
  {| chunks := chunks p; pEntry := pEntry p; nFresh := nFresh p; forest := f; rs_sorted := rs_sorted p;
     rs_next := rs_next p; iBatch := iBatch p |}.
Definition with_batch (b : Z) (p : RowSet) : RowSet :=
  {| chunks := chunks p; pEntry := pEntry p; nFresh := nFresh p; forest := forest p; rs_sorted := rs_sorted p;
     rs_next := rs_next p; iBatch := b |}.
Definition with_next (p : RowSet) : RowSet :=
  {| chunks := chunks p; pEntry := pEntry p; nFresh := nFresh p; forest := forest p; rs_sorted := rs_sorted p;
     rs_next := true; iBatch := iBatch p |}.

(** ** Operations *)

(** The row set with one entry less to give away; [None] when a chunk is needed and
    [malloc] says no. *)
Definition rowSetEntryAlloc (malloc : bool) (p : RowSet) : option RowSet :=
  let take chunks fresh :=
    {| chunks := chunks; pEntry := pEntry p; nFresh := fresh; forest := forest p; rs_sorted := rs_sorted p;
       rs_next := rs_next p; iBatch := iBatch p |} in
  match nFresh p with
  | O => if malloc then Some (take (S (chunks p)) (pred ROWSET_ENTRY_PER_CHUNK)) else None
  | S n => Some (take (chunks p) n)
  end.

(** The second result: [mallocFailed] has been set. *)
Definition sqlite3RowSetInsert (malloc : bool) (rowid : Z) (p : RowSet) : option (RowSet * bool) :=
  if rs_next p then None
  else
    match rowSetEntryAlloc malloc p with
    | None => Some (p, true)
    | Some p =>
        let sorted := match last (pEntry p) with
                      | Some v => rs_sorted p && negb (rowid <=? v)
                      | None => rs_sorted p
                      end in
        Some (with_entries (pEntry p ++ [rowid]) sorted p, false)
    end.

Fixpoint rowSetEntryMerge (pA : list Z) : list Z -> list Z :=
  fix merge_b (pB : list Z) : list Z :=
    match pA, pB with
    | a :: pA', b :: pB' =>
        if a <? b then a :: rowSetEntryMerge pA' pB
        else if b <? a then b :: merge_b pB'
        else rowSetEntryMerge pA' pB
    | [], _ => pB
    | _, [] => pA
    end.

(** [for(i=0; aBucket[i]; i++)] and the store after it. *)
Fixpoint carry (aBucket : list (list Z)) (pIn : list Z) : option (list (list Z)) :=
  match aBucket with
  | [] => None
  | [] :: bs => Some (pIn :: bs)
  | b :: bs => bs ← carry bs (rowSetEntryMerge b pIn); Some ([] :: bs)
  end.

Fixpoint fill (aBucket : list (list Z)) (pIn : list Z) : option (list (list Z)) :=
  match pIn with
  | [] => Some aBucket
  | v :: pIn => aBucket ← carry aBucket [v]; fill aBucket pIn
  end.

Definition rowSetEntrySort (pIn : list Z) : option (list Z) :=
  aBucket ← fill (replicate 40 []) pIn; Some (fold_left rowSetEntryMerge aBucket []).

Fixpoint rowSetTreeToList (pIn : tree) : list Z :=
  match pIn with
  | Leaf => []
  | Node l v r => rowSetTreeToList l ++ v :: rowSetTreeToList r
  end.

(** The tree and the unused part of the list. *)
Fixpoint rowSetNDeepTree (ppList : list Z) (iDepth : nat) : tree * list Z :=
  match ppList, iDepth with
  | [], _ => (Leaf, [])
  | _, O => (Leaf, ppList)
  | v :: rest, S O => (Node Leaf v Leaf, rest)
  | _, S iDepth =>
      let '(l, rest) := rowSetNDeepTree ppList iDepth in
      match rest with
      | [] => (l, [])
      | v :: rest => let '(r, rest) := rowSetNDeepTree rest iDepth in (Node l v r, rest)
      end
  end.

Fixpoint grow (fuel : nat) (p : tree) (pList : list Z) (iDepth : nat) : option tree :=
  match pList with
  | [] => Some p
  | v :: rest =>
      match fuel with
      | O => None
      | S fuel => let '(r, rest) := rowSetNDeepTree rest iDepth in grow fuel (Node p v r) rest (S iDepth)
      end
  end.

Definition rowSetListToTree (pList : list Z) : option tree :=
  match pList with
  | [] => None
  | v :: rest => grow (length rest) (Node Leaf v Leaf) rest 1
  end.

(** The loop over the forest: the sorted entries go to the first entry without a
    tree, the trees before it are merged into them.  The second result is the list
    that is left over at the end of the forest. *)
Fixpoint settle (f : list tree) (p : list Z) : option (list tree * option (list Z)) :=
  match f with
  | [] => Some ([], Some p)
  | Leaf :: f => t ← rowSetListToTree p; Some (t :: f, None)
  | t :: f => '(f, over) ← settle f (rowSetEntryMerge (rowSetTreeToList t) p); Some (Leaf :: f, over)
  end.

Fixpoint search (p : tree) (iRowid : Z) : bool :=
  match p with
  | Leaf => false
  | Node l v r => if v <? iRowid then search r iRowid else if iRowid <? v then search l iRowid else true
  end.

(** The entries become visible. *)
Definition new_batch (malloc : bool) (b : Z) (p : RowSet) : option (RowSet * bool) :=
  match pEntry p with
  | [] => Some (with_batch b p, false)
  | _ =>
      l ← (if rs_sorted p then Some (pEntry p) else rowSetEntrySort (pEntry p));
      '(f, over) ← settle (forest p) l;
      '(p, failed) ←
        match over with
        | None => Some (with_forest f p, false)
        | Some l =>
            match rowSetEntryAlloc malloc p with
            | None => Some (with_forest f p, true)
            | Some p => t ← rowSetListToTree l; Some (with_forest (f ++ [t]) p, false)
            end
        end;
      Some (with_batch b (with_entries [] true p), failed)
  end.

Definition sqlite3RowSetTest (malloc : bool) (b : Z) (iRowid : Z) (p : RowSet) : option (RowSet * bool * bool) :=
  if rs_next p then None
  else
    '(p, failed) ← (if b =? iBatch p then Some (p, false) else new_batch malloc b p);
    Some (p, existsb (fun t => search t iRowid) (forest p), failed).

Definition rowSetToList (p : RowSet) : option RowSet :=
  match forest p with
  | [] =>
      l ← (if rs_sorted p then Some (pEntry p) else rowSetEntrySort (pEntry p));
      Some (with_next (with_entries l (rs_sorted p) p))
  | _ => None
  end.

Definition sqlite3RowSetNext (p : RowSet) : option (RowSet * option Z) :=
  p ← (if rs_next p then Some p else rowSetToList p);
  match pEntry p with
  | [] => Some (p, None)
  | v :: rest =>
      let p := with_entries rest (rs_sorted p) p in
      Some (match rest with [] => sqlite3RowSetClear p | _ => p end, Some v)
  end.

Example rowset_ex :
  match (p ← sqlite3RowSetInsert true 5 (sqlite3RowSetInit 3); p ← sqlite3RowSetInsert true 2 p.1;
         p ← sqlite3RowSetTest true 1 5 p.1; p ← sqlite3RowSetTest true 1 3 p.1.1; Some (p.1.2, forest p.1.1)) with
  | Some r => r = (false, [Node (Node Leaf 2 Leaf) 5 Leaf])
  | None => False
  end.
Proof. reflexivity. Qed.

(** ** Lists *)

(** Sorted without duplicates. *)
Abbreviation increasing := (StronglySorted Z.lt).

Lemma merge_unfold pA pB : rowSetEntryMerge pA pB =
  match pA, pB with
  | a :: pA', b :: pB' =>
      if a <? b then a :: rowSetEntryMerge pA' pB
      else if b <? a then b :: rowSetEntryMerge pA pB'
      else rowSetEntryMerge pA' pB
  | [], _ => pB
  | _, [] => pA
  end.
Proof. by destruct pA, pB. Qed.

Lemma merge_spec pA : forall pB, increasing pA -> increasing pB ->
  increasing (rowSetEntryMerge pA pB) /\ forall v, v ∈ rowSetEntryMerge pA pB <-> v ∈ pA \/ v ∈ pB.
Proof.
  induction pA as [|a pA IHA]; intros pB.
  { intros _ HB. rewrite merge_unfold. destruct pB; (split; [done |]); intros v; rewrite elem_of_nil; tauto. }
  induction pB as [|b pB IHB]; intros HA HB; rewrite merge_unfold.
  { split; [done |]. intros v. rewrite (elem_of_nil v). tauto. }
  pose proof HA as [HA' Fa]%StronglySorted_inv. pose proof HB as [HB' Fb]%StronglySorted_inv.
  rewrite Forall_forall in Fa, Fb.
  destruct (Z.ltb_spec a b); [| destruct (Z.ltb_spec b a)].
  - destruct (IHA (b :: pB) HA' HB) as [Hs Hin]. split.
    + constructor; [done |]. apply Forall_forall. intros x [Hx | Hx]%Hin; [by apply Fa |].
      apply elem_of_cons in Hx as [-> | Hx]; [done |]. specialize (Fb x Hx). lia.
    + intros v. rewrite elem_of_cons, Hin, (elem_of_cons pA). tauto.
  - destruct (IHB HA HB') as [Hs Hin]. split.
    + constructor; [done |]. apply Forall_forall. intros x [Hx | Hx]%Hin; [| by apply Fb].
      apply elem_of_cons in Hx as [-> | Hx]; [done |]. specialize (Fa x Hx). lia.
    + intros v. rewrite elem_of_cons, Hin, (elem_of_cons pB). tauto.
  - assert (a = b) as -> by lia. destruct (IHA (b :: pB) HA' HB) as [Hs Hin]. split; [done |].
    intros v. rewrite Hin, !elem_of_cons. tauto.
Qed.

(** ** Sorting *)

Definition held (bs : list (list Z)) (v : Z) : Prop := Exists (fun b => v ∈ b) bs.

(** The number of entries put in, as a binary number. *)
Fixpoint occupied (bs : list (list Z)) : Z :=
  match bs with
  | [] => 0
  | b :: bs => (match b with [] => 0 | _ => 1 end) + 2 * occupied bs
  end.

Lemma carry_spec bs : forall l, Forall increasing bs -> increasing l -> l <> [] ->
  occupied bs + 1 < 2 ^ Zlen bs ->
  exists bs', carry bs l = Some bs' /\ Forall increasing bs' /\ Zlen bs' = Zlen bs /\
    occupied bs' = occupied bs + 1 /\ forall v, held bs' v <-> held bs v \/ v ∈ l.
Proof.
  unfold held. induction bs as [|b bs IH]; intros l Hbs Hl Hn Ho.
  - unfold Zlen in Ho. simpl in Ho. lia.
  - apply Forall_cons in Hbs as [Hb Hbs]. rewrite Zlen_cons, Z.pow_add_r in Ho by (done || apply Zlen_nonneg).
    destruct b as [|x b]; cbn [carry occupied] in *.
    + exists (l :: bs). split; [done |]. split; [by constructor |]. split; [by rewrite !Zlen_cons |]. split.
      * cbn [occupied]. destruct l; [done | lia].
      * intros v. rewrite !Exists_cons, elem_of_nil. tauto.
    + destruct (merge_spec (x :: b) l Hb Hl) as [Hm Hin].
      destruct (IH (rowSetEntryMerge (x :: b) l)) as (bs' & -> & H1 & H2 & H3 & H4); [done | done | | lia |].
      { intros E. assert (x ∈ (@nil Z)) as Hx; [| by apply elem_of_nil in Hx]. rewrite <-E. apply Hin. left. by left. }
      eexists. split; [done |]. split; [by repeat constructor |]. split; [rewrite !Zlen_cons; lia |]. split; [cbn [occupied]; lia |].
      intros v. rewrite !Exists_cons, H4, Hin, elem_of_nil. tauto.
Qed.

Lemma fill_buckets l : forall bs, Forall increasing bs -> occupied bs + Zlen l < 2 ^ Zlen bs ->
  exists bs', fill bs l = Some bs' /\ Forall increasing bs' /\ forall v, held bs' v <-> held bs v \/ v ∈ l.
Proof.
  induction l as [|x l IH]; intros bs Hbs Ho; cbn [fill].
  - exists bs. split_and!; [done.. |]. intros v. rewrite elem_of_nil. tauto.
  - rewrite Zlen_cons in Ho. pose proof (Zlen_nonneg l).
    destruct (carry_spec bs [x]) as (bs1 & -> & H1 & H2 & H3 & H4); [done | by repeat constructor | done | lia |].
    cbn [mbind option_bind]. destruct (IH bs1 H1) as (bs2 & -> & H5 & H6); [rewrite H2, H3; lia |].
    exists bs2. split_and!; [done.. |]. intros v. rewrite H6, H4, list_elem_of_singleton, elem_of_cons. tauto.
Qed.

Lemma fold_merge_spec bs : forall acc, Forall increasing bs -> increasing acc ->
  increasing (fold_left rowSetEntryMerge bs acc) /\
  forall v, v ∈ fold_left rowSetEntryMerge bs acc <-> v ∈ acc \/ held bs v.
Proof.
  unfold held. induction bs as [|b bs IH]; intros acc Hbs Ha; simpl.
  - split; [done |]. intros v. rewrite Exists_nil. tauto.
  - apply Forall_cons in Hbs as [Hb Hbs]. destruct (merge_spec acc b Ha Hb) as [Hm Hin].
    destruct (IH _ Hbs Hm) as [H1 H2]. split; [done |]. intros v. rewrite H2, Hin, Exists_cons. tauto.
Qed.

Lemma sort_spec l : Zlen l < 2 ^ 40 ->
  exists l', rowSetEntrySort l = Some l' /\ increasing l' /\ forall v, v ∈ l' <-> v ∈ l.
Proof.
  intros Hl. unfold rowSetEntrySort.
  assert (forall v, held (replicate 40 []) v <-> False) as H0.
  { intros v. unfold held. rewrite Exists_exists. split; [| done]. intros (b & Hb & Hv).
    apply elem_of_replicate in Hb as [-> _]. by apply elem_of_nil in Hv. }
  destruct (fill_buckets l (replicate 40 [])) as (bs & -> & H1 & H2).
  - apply Forall_replicate. constructor.
  - exact Hl.
  - cbn [mbind option_bind]. destruct (fold_merge_spec bs [] H1 ltac:(constructor)) as [H3 H4].
    eexists. split; [done |]. split; [done |]. intros v. rewrite H4, H2, H0, elem_of_nil. tauto.
Qed.

(** ** Trees *)

Fixpoint depth (t : tree) : nat := match t with Leaf => 0 | Node l _ r => S (Nat.max (depth l) (depth r)) end.

(** No tree is deeper than one more than the logarithm of its size. *)
Definition balanced (t : tree) : Prop := (2 ^ depth t <= 2 * length (rowSetTreeToList t))%nat.

Lemma search_spec t v : increasing (rowSetTreeToList t) -> search t v = true <-> v ∈ rowSetTreeToList t.
Proof.
  induction t as [|l IHl x r IHr]; intros Hs; cbn [rowSetTreeToList search] in *; [by rewrite elem_of_nil |].
  apply StronglySorted_app in Hs as (Hlx & Hl & [Hr Hx]%StronglySorted_inv). rewrite Forall_forall in Hx.
  specialize (IHl Hl). specialize (IHr Hr). rewrite elem_of_app, elem_of_cons.
  destruct (Z.ltb_spec x v); [| destruct (Z.ltb_spec v x)].
  - rewrite IHr. split; [tauto |]. intros [Hv | [-> | Hv]]; [| lia | done]. specialize (Hlx v x Hv ltac:(left)). lia.
  - rewrite IHl. split; [tauto |]. intros [Hv | [-> | Hv]]; [done | lia |]. specialize (Hx v Hv). lia.
  - split; [| done]. intros _. right. left. lia.
Qed.

Lemma NDeepTree_unfold v l d : d <> 0%nat ->
  rowSetNDeepTree (v :: l) (S d) =
    let '(t, rest) := rowSetNDeepTree (v :: l) d in
    match rest with
    | [] => (t, [])
    | w :: rest => let '(r, rest) := rowSetNDeepTree rest d in (Node t w r, rest)
    end.
Proof. by destruct d. Qed.

(** Enough entries make a perfect tree. *)
Lemma NDeepTree_spec d : forall l, (d <> 0)%nat ->
  let '(t, rest) := rowSetNDeepTree l d in
  rowSetTreeToList t ++ rest = l /\ (depth t <= d)%nat /\ (rest <> [] -> length (rowSetTreeToList t) = 2 ^ d - 1)%nat.
Proof.
  induction d as [|d IH]; intros l Hd; [done |]. destruct l as [|v l]; [simpl; split_and!; [done | lia | done] |].
  destruct (Nat.eq_dec d 0%nat) as [-> | Hd']; [simpl; split_and!; [done | lia | done] |].
  rewrite NDeepTree_unfold by done. specialize (IH (v :: l) Hd') as IHl.
  destruct (rowSetNDeepTree (v :: l) d) as [t [|w rest]].
  - destruct IHl as (H1 & H2 & _). split_and!; [done | lia | done].
  - destruct IHl as (H1 & H2 & H3). specialize (IH rest Hd') as IHr.
    destruct (rowSetNDeepTree rest d) as [r rest']. destruct IHr as (H4 & H5 & H6). cbn [rowSetTreeToList depth].
    split_and!; [by rewrite <-app_assoc; simpl; rewrite H4 | lia |]. intros Hn.
    rewrite length_app. cbn [length]. rewrite H3, H6 by done. pose proof (Nat.pow_nonzero 2 d ltac:(lia)).
    rewrite (Nat.pow_succ_r' 2 d). lia.
Qed.

Lemma grow_spec fuel : forall p l d, (length l <= fuel)%nat -> (d <> 0)%nat -> (depth p <= d)%nat ->
  (l <> [] -> length (rowSetTreeToList p) = 2 ^ d - 1)%nat -> (2 ^ d <= 2 * length (rowSetTreeToList p))%nat ->
  exists t, grow fuel p l d = Some t /\ rowSetTreeToList t = rowSetTreeToList p ++ l /\ balanced t.
Proof.
  unfold balanced. induction fuel as [|fuel IH]; intros p l d Hf Hd Hp Hl H2; destruct l as [|v l]; simpl in Hf; try lia.
  1-2: exists p; split; [by simpl |]; split; [by rewrite app_nil_r |];
    pose proof (Nat.pow_le_mono_r 2 (depth p) d ltac:(lia) Hp); lia.
  cbn [grow]. pose proof (NDeepTree_spec d l Hd) as Hn. destruct (rowSetNDeepTree l d) as [r rest].
  destruct Hn as (Hr & Hdr & Hlr). specialize (Hl ltac:(done)). pose proof (Nat.pow_nonzero 2 d ltac:(lia)).
  destruct (IH (Node p v r) rest (S d)) as (t & -> & Ht & Hb).
  - subst l. rewrite length_app in Hf. lia.
  - lia.
  - simpl. lia.
  - intros Hn. simpl. rewrite length_app. simpl. rewrite Hl, Hlr by done. lia.
  - rewrite Nat.pow_succ_r'. cbn [rowSetTreeToList]. rewrite length_app. cbn [length]. lia.
  - exists t. split; [done |]. split; [| done]. rewrite Ht. cbn [rowSetTreeToList]. rewrite <-app_assoc. simpl. by rewrite Hr.
Qed.

Lemma ListToTree_spec l : l <> [] ->
  exists t, rowSetListToTree l = Some t /\ rowSetTreeToList t = l /\ balanced t.
Proof.
  destruct l as [|v l]; [done |]. intros _.
  destruct (grow_spec (length l) (Node Leaf v Leaf) l 1) as (t & Ht & Hl & Hb); simpl; try lia. by exists t.
Qed.

(** ** The forest *)

Definition forest_ok (f : list tree) : Prop := Forall (fun t => increasing (rowSetTreeToList t) /\ (t = Leaf \/ balanced t)) f.

Definition in_forest (f : list tree) (v : Z) : Prop := Exists (fun t => v ∈ rowSetTreeToList t) f.

Lemma settle_spec f : forall p, forest_ok f -> increasing p -> p <> [] ->
  exists f' over, settle f p = Some (f', over) /\ forest_ok f' /\
    match over with
    | None => forall v, in_forest f' v <-> in_forest f v \/ v ∈ p
    | Some l => (forall v, ~ in_forest f' v) /\ increasing l /\ l <> [] /\ forall v, v ∈ l <-> in_forest f v \/ v ∈ p
    end.
Proof.
  unfold in_forest. induction f as [|t f IH]; intros p Hf Hp Hn; cbn [settle].
  - exists [], (Some p). split; [done |]. split; [constructor |]. split; [intros v H; by apply Exists_nil in H |].
    split; [done |]. split; [done |]. intros v. rewrite Exists_nil. tauto.
  - apply Forall_cons in Hf as [[Ht Hb] Hf]. destruct t as [|l v r].
    + destruct (ListToTree_spec p Hn) as (t & -> & Hl & Hbt). exists (t :: f), None. split; [done |].
      split; [constructor; [split; [by rewrite Hl | by right] | done] |]. intros v. rewrite !Exists_cons, Hl. cbn [rowSetTreeToList].
      rewrite elem_of_nil. tauto.
    + set (t := Node l v r) in *. destruct (merge_spec (rowSetTreeToList t) p Ht Hp) as [Hm Hin].
      assert (rowSetEntryMerge (rowSetTreeToList t) p <> []) as Hmn.
      { intros E. assert (v ∈ (@nil Z)) as Hv; [| by apply elem_of_nil in Hv]. rewrite <-E. apply Hin. left. simpl.
        rewrite elem_of_app, elem_of_cons. auto. }
      destruct (IH _ Hf Hm Hmn) as (f' & over & -> & Hf' & Hover). exists (Leaf :: f'), over. split; [done |].
      split; [constructor; [| done]; split; [constructor | by left] |]. destruct over as [k |].
      * destruct Hover as (H1 & H2 & H3 & H4). split; [| split; [done |]; split; [done |]].
        -- intros w. rewrite Exists_cons. cbn [rowSetTreeToList]. rewrite elem_of_nil. intros [[] | H]. by apply (H1 w).
        -- intros w. rewrite H4, Hin, Exists_cons. tauto.
      * intros w. rewrite !Exists_cons, Hover, Hin. cbn [rowSetTreeToList]. rewrite elem_of_nil. tauto.
Qed.

Lemma existsb_search f v : forest_ok f -> existsb (fun t => search t v) f = true <-> in_forest f v.
Proof.
  unfold in_forest. induction 1 as [|t f [Ht _] Hf IH]; simpl; [by rewrite Exists_nil |].
  by rewrite orb_true_iff, search_spec, IH, Exists_cons.
Qed.

(** ** A row set is two sets *)

(** What has been made visible to tests, and what has been inserted since. *)
Record sets := { visible : gset Z; pending : gset Z; batch : Z }.

Inductive op := Insert (rowid : Z) | Test (b rowid : Z).

(** [failed]: the operation ran out of memory. *)
Definition spec_op (o : op) (failed : bool) (s : sets) : sets * option bool :=
  match o with
  | Insert v => (if failed then s else {| visible := visible s; pending := {[v]} ∪ pending s; batch := batch s |}, None)
  | Test b v =>
      let s := if b =? batch s then s
               else {| visible := if failed then ∅ else visible s ∪ pending s; pending := ∅; batch := b |} in
      (s, Some (bool_decide (v ∈ visible s)))
  end.

Definition run_op (malloc : bool) (o : op) (p : RowSet) : option (RowSet * option bool * bool) :=
  match o with
  | Insert v => '(p, failed) ← sqlite3RowSetInsert malloc v p; Some (p, None, failed)
  | Test b v => '(p, r, failed) ← sqlite3RowSetTest malloc b v p; Some (p, Some r, failed)
  end.

(** A sequence of operations, the answers of [malloc], and what comes back. *)
Fixpoint run (l : list (bool * op)) (p : RowSet) : option (RowSet * list (option bool * bool)) :=
  match l with
  | [] => Some (p, [])
  | (m, o) :: l => '(p, r, failed) ← run_op m o p; '(p, rs) ← run l p; Some (p, (r, failed) :: rs)
  end.

Fixpoint spec_run (l : list (bool * op)) (failures : list bool) (s : sets) : sets * list (option bool) :=
  match l, failures with
  | (_, o) :: l, f :: fs => let '(s, r) := spec_op o f s in let '(s, rs) := spec_run l fs s in (s, r :: rs)
  | _, _ => (s, [])
  end.

(** All entries in order. *)
Fixpoint drain (fuel : nat) (p : RowSet) : option (list Z) :=
  match fuel with
  | O => None
  | S fuel =>
      '(p, r) ← sqlite3RowSetNext p;
      match r with
      | Some v => l ← drain fuel p; Some (v :: l)
      | None => Some []
      end
  end.

(** [n] bounds the inserts so far. *)
Record represents (n : nat) (p : RowSet) (s : sets) : Prop := {
  rep_next : rs_next p = false;
  rep_sorted : rs_sorted p = true -> increasing (pEntry p);
  rep_length : (length (pEntry p) <= n)%nat;
  rep_pending : forall v, v ∈ pEntry p <-> v ∈ pending s;
  rep_forest : forest_ok (forest p);
  rep_visible : forall v, in_forest (forest p) v <-> v ∈ visible s;
  rep_batch : iBatch p = batch s
}.

Lemma alloc_spec m p p' : rowSetEntryAlloc m p = Some p' ->
  pEntry p' = pEntry p /\ forest p' = forest p /\ rs_sorted p' = rs_sorted p /\ rs_next p' = rs_next p /\ iBatch p' = iBatch p.
Proof. unfold rowSetEntryAlloc. destruct (nFresh p), m; try done; by intros [= <-]. Qed.

Lemma alloc_fails m p : rowSetEntryAlloc m p = None -> m = false.
Proof. unfold rowSetEntryAlloc. by destruct (nFresh p), m. Qed.

Lemma increasing_snoc l v : increasing l -> (forall w, last l = Some w -> w < v) -> increasing (l ++ [v]).
Proof.
  intros Hl Hv. apply StronglySorted_app_2; [| done | by repeat constructor].
  intros x y Hx ->%list_elem_of_singleton. destruct (last l) as [w|] eqn:Hw.
  - apply last_Some in Hw as [k ->]. specialize (Hv w eq_refl). apply elem_of_app in Hx as [Hx | ->%list_elem_of_singleton]; [| done].
    apply StronglySorted_app in Hl as [Hl _]. specialize (Hl x w Hx ltac:(left)). lia.
  - apply last_None in Hw as ->. by apply elem_of_nil in Hx.
Qed.

Lemma increasing_NoDup l : increasing l -> NoDup l.
Proof.
  induction 1 as [|v l Hl IH Hv]; constructor; [| done]. intros Hin. rewrite Forall_forall in Hv.
  specialize (Hv v Hin). lia.
Qed.

Lemma Insert_represents n m v p s : represents n p s ->
  exists p' failed, sqlite3RowSetInsert m v p = Some (p', failed) /\ (m = true -> failed = false) /\
    represents (S n) p' (spec_op (Insert v) failed s).1.
Proof.
  intros []. unfold sqlite3RowSetInsert. rewrite rep_next0. destruct (rowSetEntryAlloc m p) as [q|] eqn:Ha.
  - apply alloc_spec in Ha as (Hp & Hf & Hs & Hx & Hb). eexists _, false. split; [done |]. split; [done |].
    split; simpl; rewrite ?Hp, ?Hf, ?Hs, ?Hx, ?Hb; try done.
    + intros H. apply increasing_snoc.
      * apply rep_sorted0. destruct (last (pEntry p)); [by apply andb_prop in H as [H _] | done].
      * intros w Hw. rewrite Hw in H. bool_to_prop. lia.
    + rewrite length_app. simpl. lia.
    + intros w. rewrite elem_of_app, list_elem_of_singleton, rep_pending0. set_solver.
  - apply alloc_fails in Ha as ->. exists p, true. split; [done |]. split; [done |]. split; try done. lia.
Qed.

Lemma new_batch_represents n m b p s : represents n p s -> Z.of_nat n < 2 ^ 40 ->
  exists p' failed, new_batch m b p = Some (p', failed) /\ (m = true -> failed = false) /\
    represents n p' {| visible := if failed then ∅ else visible s ∪ pending s; pending := ∅; batch := b |}.
Proof.
  intros [] Hn. unfold new_batch. destruct (pEntry p) as [|x l] eqn:He.
  { exists (with_batch b p), false. split; [done |]. split; [done |]. split; simpl; rewrite ?He; try done.
    - intros v. rewrite elem_of_nil. set_solver.
    - intros v. rewrite elem_of_union, <-rep_pending0, rep_visible0, elem_of_nil. tauto. }
  rewrite <-He in *.
  assert (exists l', (if rs_sorted p then Some (pEntry p) else rowSetEntrySort (pEntry p)) = Some l' /\ increasing l' /\
            (forall v, v ∈ l' <-> v ∈ pEntry p) /\ l' <> []) as (l' & -> & Hl' & Hin & Hne).
  { assert (forall l', (forall v, v ∈ l' <-> v ∈ pEntry p) -> l' <> []) as Hne.
    { intros l' Hl' ->. assert (x ∈ (@nil Z)) as Hx; [| by apply elem_of_nil in Hx]. apply Hl'. rewrite He. left. }
    destruct (rs_sorted p); [exists (pEntry p); by split_and!; [| apply rep_sorted0 | | apply Hne] |].
    destruct (sort_spec (pEntry p)) as (l' & -> & H1 & H2); [unfold Zlen; lia |]. exists l'. split_and!; auto. }
  cbn [mbind option_bind]. destruct (settle_spec (forest p) l' rep_forest0 Hl' Hne) as (f & over & -> & Hf & Hover).
  cbn [mbind option_bind]. destruct over as [k|].
  - destruct Hover as (H1 & H2 & H3 & H4). destruct (rowSetEntryAlloc m p) as [q|] eqn:Ha.
    + apply alloc_spec in Ha as (Hp & Hff & Hs & Hx & Hb). destruct (ListToTree_spec k H3) as (t & -> & Hk & Hbt).
      cbn [mbind option_bind]. eexists _, false. split; [done |]. split; [done |].
      split; simpl; rewrite ?Hx; try done; try (by constructor); try lia.
      * set_solver.
      * apply Forall_app. split; [done |]. constructor; [| constructor]. rewrite Hk. auto.
      * intros v. unfold in_forest in *. rewrite Exists_app, Exists_cons, Exists_nil, Hk, H4, Hin, elem_of_union, rep_visible0, rep_pending0.
        specialize (H1 v). tauto.
    + apply alloc_fails in Ha as ->. cbn [mbind option_bind]. eexists _, true. split; [done |]. split; [done |].
      split; simpl; try done; try (by constructor); try lia.
      * set_solver.
      * intros v. specialize (H1 v). set_solver.
  - cbn [mbind option_bind]. eexists _, false. split; [done |]. split; [done |].
    split; simpl; try done; try (by constructor); try lia.
    + set_solver.
    + intros v. by rewrite Hover, Hin, elem_of_union, rep_visible0, rep_pending0.
Qed.

Lemma Test_represents n m b v p s : represents n p s -> Z.of_nat n < 2 ^ 40 ->
  exists p' failed, sqlite3RowSetTest m b v p = Some (p', bool_decide (v ∈ visible (spec_op (Test b v) failed s).1), failed) /\
    (m = true -> failed = false) /\ represents n p' (spec_op (Test b v) failed s).1.
Proof.
  intros Hr Hn. unfold sqlite3RowSetTest. rewrite (rep_next _ _ _ Hr), (rep_batch _ _ _ Hr).
  assert (forall p s, represents n p s -> existsb (fun t => search t v) (forest p) = bool_decide (v ∈ visible s)) as Hans.
  { intros p' s' []. apply eq_iff_eq_true. by rewrite existsb_search, bool_decide_eq_true, rep_visible0. }
  cbn [spec_op fst]. destruct (b =? batch s).
  - exists p, false. cbn [mbind option_bind]. by rewrite (Hans p s Hr).
  - destruct (new_batch_represents n m b p s Hr Hn) as (p' & failed & -> & Hm & Hr'). exists p', failed.
    cbn [mbind option_bind]. by rewrite (Hans _ _ Hr').
Qed.

Lemma run_represents l : forall n p s, represents n p s -> Z.of_nat (n + length l) < 2 ^ 40 ->
  exists p' rs, run l p = Some (p', rs) /\ length rs = length l /\
    map fst rs = (spec_run l (map snd rs) s).2 /\ represents (n + length l) p' (spec_run l (map snd rs) s).1 /\
    (Forall (fun x => x.1 = true) l -> Forall (fun r => r.2 = false) rs).
Proof.
  induction l as [|[m o] l IH]; intros n p s Hr Hn; cbn [run].
  { exists p, []. rewrite Nat.add_0_r. by split_and!. }
  cbn [length] in *.
  assert (exists p' failed, run_op m o p = Some (p', (spec_op o failed s).2, failed) /\ (m = true -> failed = false) /\
            represents (S n) p' (spec_op o failed s).1) as (p' & failed & -> & Hm & Hr').
  { destruct o as [v | b v]; cbn [run_op].
    - destruct (Insert_represents n m v p s Hr) as (p' & failed & -> & H). by exists p', failed.
    - destruct (Test_represents n m b v p s Hr ltac:(lia)) as (p' & failed & -> & H1 & H2). exists p', failed.
      split; [done |]. split; [done |]. destruct H2. split; try done. lia. }
  cbn [mbind option_bind]. destruct (IH (S n) p' _ Hr' ltac:(lia)) as (p'' & rs & -> & H1 & H2 & H3 & H4).
  cbn [mbind option_bind]. eexists _, _. split; [done |]. cbn [length map fst snd spec_run].
  destruct (spec_op o failed s) as [s1 r1]. simpl in H2, H3 |- *. destruct (spec_run l (map snd rs) s1) as [s2 r2].
  simpl in *. replace (n + S (length l))%nat with (S (n + length l)) by lia. split_and!; [lia | by f_equal | done |].
  intros [Hm' Hl]%Forall_cons. constructor; [by apply Hm | by apply H4].
Qed.

Lemma drain_list fuel : forall p, rs_next p = true -> (length (pEntry p) < fuel)%nat -> drain fuel p = Some (pEntry p).
Proof.
  induction fuel as [|fuel IH]; intros p Hp Hf; [lia |]. cbn [drain]. unfold sqlite3RowSetNext. rewrite Hp.
  cbn [mbind option_bind]. destruct (pEntry p) as [|v l] eqn:E; [done |]. cbn [mbind option_bind].
  destruct l as [|w l].
  - destruct fuel as [|fuel]; [simpl in Hf; lia |]. done.
  - rewrite IH; [done | done | simpl in *; lia].
Qed.

Lemma drain_spec n p s : represents n p s -> Z.of_nat n < 2 ^ 40 -> forest p = [] ->
  exists l, drain (S (S (size (pending s)))) p = Some l /\ increasing l /\ forall v, v ∈ l <-> v ∈ pending s.
Proof.
  intros [] Hn Hf.
  assert (exists l', (if rs_sorted p then Some (pEntry p) else rowSetEntrySort (pEntry p)) = Some l' /\ increasing l' /\
            (forall v, v ∈ l' <-> v ∈ pending s)) as (l' & Hsort & Hl' & Hin).
  { destruct (rs_sorted p); [exists (pEntry p); by split_and!; [| apply rep_sorted0 |] |].
    destruct (sort_spec (pEntry p)) as (l' & -> & H1 & H2); [unfold Zlen; lia |]. exists l'. split_and!; [done.. |].
    intros v. by rewrite H2. }
  exists l'. split; [| done].
  assert (length l' <= size (pending s))%nat as Hlen.
  { assert (NoDup l') as Hnd by (by apply increasing_NoDup).
    rewrite <-(size_list_to_set (C := gset Z) l') by done. apply subseteq_size. intros v. by rewrite elem_of_list_to_set, Hin. }
  assert (drain (S (S (size (pending s)))) p = drain (S (S (size (pending s)))) (with_next (with_entries l' (rs_sorted p) p))) as ->.
  { cbn [drain]. unfold sqlite3RowSetNext, rowSetToList. rewrite rep_next0, Hf, Hsort. done. }
  apply drain_list; [done | simpl; lia].
Qed.

(** C31: a row set is a set of visible row ids and one of pending ones.  Whatever is
    inserted and tested in whatever order, up to 2^40 operations, the sort never runs
    out of its buckets, no assertion fails, and a test says whether the row id had been
    inserted before the last change of the batch number; only a failed allocation loses
    entries: an insert its own, the first test of a batch, when it cannot allocate
    the entry for the tree, all that was inserted before.  The trees that are
    searched are never deeper than one more than the logarithm of their size.  As long as
    no test has built one, the pending entries come out in increasing order, each once. *)
Theorem Rowset_refines_set (n : nat) (l : list (bool * op)) :
  Zlen l < 2 ^ 40 ->
  exists p rs, run l (sqlite3RowSetInit n) = Some (p, rs) /\
    let s := spec_run l (map snd rs) {| visible := ∅; pending := ∅; batch := 0 |} in
    map fst rs = s.2 /\ (Forall (fun x => x.1 = true) l -> Forall (fun r => r.2 = false) rs) /\
    Forall (fun t => t = Leaf \/ (2 ^ depth t <= 2 * length (rowSetTreeToList t))%nat) (forest p) /\
    (forest p = [] -> exists es, drain (S (S (size (pending s.1)))) p = Some es /\ increasing es /\
       forall v, v ∈ es <-> v ∈ pending s.1).
Proof.
  intros Hl. assert (represents 0 (sqlite3RowSetInit n) {| visible := ∅; pending := ∅; batch := 0 |}) as H0.
  { split; simpl; try done; try constructor.
    - by intros ?%elem_of_nil.
    - set_solver.
    - unfold in_forest. by intros ?%Exists_nil.
    - set_solver. }
  destruct (run_represents l 0 _ _ H0 ltac:(unfold Zlen in Hl; lia)) as (p & rs & H1 & H2 & H3 & H4 & H5).
  exists p, rs. split; [done |]. cbv zeta. split; [done |]. split; [done |]. split.
  - eapply Forall_impl; [exact (rep_forest _ _ _ H4) |]. by intros t [_ ?].
  - intros Hf. eapply drain_spec; [exact H4 | unfold Zlen in Hl; lia | done].
Qed.

Lemma Rowset_refines_set_witness :
  exists p rs, run [(true, Insert 7); (true, Insert 3); (true, Test 1 7); (true, Insert 9); (true, Test 1 9); (true, Test 2 9)]
                 (sqlite3RowSetInit 1) = Some (p, rs) /\
    map fst rs = [None; None; Some true; None; Some false; Some true].
Proof.
  destruct (Rowset_refines_set 1 [(true, Insert 7); (true, Insert 3); (true, Test 1 7); (true, Insert 9); (true, Test 1 9); (true, Test 2 9)]
              ltac:(done)) as (p & rs & H1 & H2 & _).
  exists p, rs. split; [exact H1 |]. vm_compute in H1. injection H1 as _ <-. reflexivity.
Defined.
