(* ===== verification/SqSerial.v ===== *)
(** SQLite's records: how values are written into a row or an index entry and read
    back ([src/src/cache/sqlite3.c], parts vdbeaux.c and vdbe.c).

    A buffer is the list of its bytes; [None] is a read behind its end, or a failed
    assertion. *)

From S2P Require Import Prelude BitReflect SqVarint.

#[local] Open Scope Z_scope.

(** ** Values *)

(** The contents of a [Mem] that holds one type.  A double is its 64 bits; [nZero]
    counts the zeros that follow [z] ([MEM_Zero]). *)
Inductive Mem :=
| Null
| Int (i : Z)
| Real (r : Z)
| Str (z : list Z)
| Blob (z : list Z) (nZero : nat).

(** [isnan] *)
Definition sqlite3IsNaN (r : Z) : bool := 0x7ff0000000000000 <? r mod 2 ^ 63.

(** ** Serial types *)

Definition MAX_6BYTE : Z := 0x00008000 * 2 ^ 32 - 1.

Definition sqlite3VdbeSerialType (pMem : Mem) (file_format : Z) : Z :=
  match pMem with
  | Null => 0
  | Int i =>
      let u := if i <? 0 then u64 (Z.lnot i) else i in
      if u <=? 127 then if (Z.land i 1 =? i) && (4 <=? file_format) then u32 (8 + u) else 1
      else if u <=? 32767 then 2
      else if u <=? 8388607 then 3
      else if u <=? 2147483647 then 4
      else if u <=? MAX_6BYTE then 5
      else 6
  | Real _ => 7
  | Str z => u32 (Zlen z * 2 + 12 + 1)
  | Blob z nZero => u32 ((Zlen z + Z.of_nat nZero) * 2 + 12)
  end.

Definition aSize : list Z := [0; 1; 2; 3; 4; 6; 8; 8; 0; 0; 0; 0].

Definition sqlite3VdbeSerialTypeLen (serial_type : Z) : Z :=
  if 12 <=? serial_type then (serial_type - 12) / 2 else Znth aSize serial_type.

(** ** Writing a value *)

(** [buf[--i] = (u8)(v&0xFF); v >>= 8;] *)
Fixpoint put_be (i : nat) (v : Z) (buf : list Z) : list Z :=
  match i with O => buf | S i => put_be i (Z.shiftr v 8) (Z.land v 0xff :: buf) end.

(** The bytes written. *)
Definition sqlite3VdbeSerialPut (pMem : Mem) (serial_type : Z) : list Z :=
  if (serial_type <=? 7) && (0 <? serial_type) then
    let v := match pMem with Int i => u64 i | Real r => r | _ => 0 end in
    put_be (Z.to_nat (sqlite3VdbeSerialTypeLen serial_type)) v []
  else if 12 <=? serial_type then match pMem with Str z | Blob z _ => z | _ => [] end
  else [].

(** ** Reading a value *)

Definition ONE_BYTE_INT (x : list Z) : option Z := match x with x0 :: _ => Some (i8 x0) | _ => None end.

Definition TWO_BYTE_INT (x : list Z) : option Z :=
  match x with x0 :: x1 :: _ => Some (Z.lor (256 * i8 x0) x1) | _ => None end.

Definition THREE_BYTE_INT (x : list Z) : option Z :=
  match x with x0 :: x1 :: x2 :: _ => Some (Z.lor (Z.lor (65536 * i8 x0) (Z.shiftl x1 8)) x2) | _ => None end.

Definition FOUR_BYTE_UINT (x : list Z) : option Z :=
  match x with
  | x0 :: x1 :: x2 :: x3 :: _ => Some (Z.lor (Z.lor (Z.lor (u32 (Z.shiftl x0 24)) (Z.shiftl x1 16)) (Z.shiftl x2 8)) x3)
  | _ => None
  end.

Definition FOUR_BYTE_INT (x : list Z) : option Z :=
  match x with
  | x0 :: x1 :: x2 :: x3 :: _ => Some (Z.lor (Z.lor (Z.lor (16777216 * i8 x0) (Z.shiftl x1 16)) (Z.shiftl x2 8)) x3)
  | _ => None
  end.

(** [FOUR_BYTE_UINT(buf+2) + (((i64)1)<<32)*TWO_BYTE_INT(buf)] *)
Definition SIX_BYTE_INT (buf : list Z) : option Z :=
  lo ← FOUR_BYTE_UINT (drop 2 buf); hi ← TWO_BYTE_INT buf; Some (lo + 2 ^ 32 * hi).

(** [(x<<32) + y] *)
Definition eight_bytes (buf : list Z) : option Z :=
  x ← FOUR_BYTE_UINT buf; y ← FOUR_BYTE_UINT (drop 4 buf); Some (u64 (u64 (Z.shiftl x 32) + y)).

Definition serialGet (buf : list Z) (serial_type : Z) : option (Z * Mem) :=
  x ← eight_bytes buf;
  Some (8, if serial_type =? 6 then Int (i64 x) else if sqlite3IsNaN x then Null else Real x).

(** The number of bytes read and the value. *)
Definition sqlite3VdbeSerialGet (buf : list Z) (serial_type : Z) : option (Z * Mem) :=
  if (serial_type =? 0) || (serial_type =? 10) || (serial_type =? 11) then Some (0, Null)
  else if serial_type =? 1 then i ← ONE_BYTE_INT buf; Some (1, Int i)
  else if serial_type =? 2 then i ← TWO_BYTE_INT buf; Some (2, Int i)
  else if serial_type =? 3 then i ← THREE_BYTE_INT buf; Some (3, Int i)
  else if serial_type =? 4 then i ← FOUR_BYTE_INT buf; Some (4, Int i)
  else if serial_type =? 5 then i ← SIX_BYTE_INT buf; Some (6, Int i)
  else if (serial_type =? 6) || (serial_type =? 7) then serialGet buf serial_type
  else if (serial_type =? 8) || (serial_type =? 9) then Some (0, Int (serial_type - 8))
  else
    let n := (serial_type - 12) / 2 in
    if Zlen buf <? n then None
    else
      let z := take (Z.to_nat n) buf in
      Some (n, if Z.odd serial_type then Str z else Blob z 0).

(** ** Records *)

(** The pass from the last field to the first: the fields with their serial types,
    [nData], [nHdr] before the size of the header, [nZero].  A blob that is followed by
    data is expanded. *)
Fixpoint scan (file_format : Z) (l : list Mem) : list (Mem * Z) * Z * Z * Z :=
  match l with
  | [] => ([], 0, 0, 0)
  | pRec :: l =>
      let '(fields, nData, nHdr, nZero) := scan file_format l in
      let serial_type := sqlite3VdbeSerialType pRec file_format in
      let len := sqlite3VdbeSerialTypeLen serial_type in
      let '(pRec, len, nZero) :=
        match pRec with
        | Blob z (S _ as n) =>
            if negb (nData =? 0) then (Blob (z ++ replicate n 0) 0, len, nZero)
            else (pRec, len - Z.of_nat n, nZero + Z.of_nat n)
        | _ => (pRec, len, nZero)
        end in
      ((pRec, serial_type) :: fields, nData + len,
       nHdr + (if serial_type <=? 127 then 1 else sqlite3VarintLen serial_type), nZero)
  end.

(** The size of the header with its own size. *)
Definition header_size (nHdr : Z) : Z :=
  if nHdr <=? 126 then nHdr + 1
  else
    let nVarint := sqlite3VarintLen nHdr in
    let nHdr := nHdr + nVarint in
    if nVarint <? sqlite3VarintLen nHdr then nHdr + 1 else nHdr.

(** The macro [putVarint32]. *)
Definition putVarint32 (v : Z) : list Z := if v <? 0x80 then [v] else sqlite3PutVarint v.

Inductive record :=
| Made (z : list Z) (nZero : nat)
| Too_big
| No_mem.

(** [OP_MakeRecord] on registers that have their affinities; [malloc] says whether
    allocations succeed. *)
Definition MakeRecord (malloc : bool) (limit file_format : Z) (l : list Mem) : option record :=
  let '(fields, nData, nHdr, nZero) := scan file_format l in
  let nHdr := header_size nHdr in
  let nByte := nHdr + nData in
  if limit <? nByte + nZero then Some Too_big
  else if negb malloc then Some No_mem
  else
    let header := putVarint32 nHdr ++ mjoin (map (fun f => putVarint32 f.2) fields) in
    let data := mjoin (map (fun f => sqlite3VdbeSerialPut f.1 f.2) fields) in
    if (Zlen header =? nHdr) && (Zlen header + Zlen data =? nByte) then Some (Made (header ++ data) (Z.to_nat nZero))
    else None.

Definition Zdrop (i : Z) (l : list Z) : list Z := drop (Z.to_nat i) l.

(** The loop stops after [nField] fields, but not before the first. *)
Fixpoint unpack_loop (nField : nat) (aKey : list Z) (szHdr idx d : Z) : option (list Mem) :=
  if (idx <? szHdr) && (d <=? Zlen aKey) then
    '(n, serial_type) ← getVarint32 (Zdrop idx aKey);
    '(len, m) ← sqlite3VdbeSerialGet (Zdrop d aKey) serial_type;
    l ← match nField with
        | S (S _ as nField) => unpack_loop nField aKey szHdr (idx + n) (d + len)
        | _ => Some []
        end;
    Some (m :: l)
  else Some [].

Definition sqlite3VdbeRecordUnpack (nField : nat) (aKey : list Z) : option (list Mem) :=
  '(idx, szHdr) ← getVarint32 aKey; unpack_loop nField aKey szHdr idx szHdr.

(** ** Integers in bytes *)

Lemma lor_add a b k : 0 <= k -> 0 <= b < 2 ^ k -> Z.lor (2 ^ k * a) b = 2 ^ k * a + b.
Proof.
  intros Hk Hb. pose proof (Z.add_lor_land (2 ^ k * a) b) as Hadd.
  enough (Z.land (2 ^ k * a) b = 0) by lia. apply Z.bits_inj'. intros i Hi.
  rewrite Z.land_spec, Z.bits_0, Z.mul_comm. destruct (Z.ltb_spec i k).
  - by rewrite Z.mul_pow2_bits_low.
  - rewrite (testbit_high b k i) by done. apply andb_false_r.
Qed.

Lemma swrap_join w k a b : 0 < w -> 0 <= k -> 0 <= b < 2 ^ k -> swrap (w + k) (2 ^ k * a + b) = 2 ^ k * swrap w a + b.
Proof.
  intros Hw Hk Hb. unfold swrap. replace (w + k - 1) with (k + (w - 1)) by lia. rewrite !Z.pow_add_r by lia.
  replace (2 ^ k * a + b + 2 ^ k * 2 ^ (w - 1)) with (b + (a + 2 ^ (w - 1)) * 2 ^ k) by lia.
  rewrite (Z.mul_comm (2 ^ w)), Z.rem_mul_r by (apply Z.pow_nonzero || apply Z.pow_pos_nonneg; lia).
  rewrite Z.mod_add by lia. rewrite Z.div_add by lia. rewrite (Z.mod_small b), (Z.div_small b) by lia. rewrite Z.add_0_l. ring.
Qed.

(** The value of bytes, the high one first. *)
Definition be_value (l : list Z) : Z := fold_left (fun a b => 2 ^ 8 * a + b) l 0.

Lemma put_be_app n v buf : put_be n v buf = put_be n v [] ++ buf.
Proof.
  revert v buf. induction n as [|n IH]; intros v buf; [done |]. simpl.
  rewrite IH, (IH _ [_]). by rewrite <-app_assoc.
Qed.

Lemma put_be_spec n v : Zlen (put_be n v []) = Z.of_nat n /\ bytes_ok (put_be n v []) /\
  be_value (put_be n v []) = v mod 2 ^ (8 * Z.of_nat n).
Proof.
  revert v. induction n as [|n IH]; intros v; cbn [put_be].
  { split_and!; [done | constructor |]. by rewrite Z.mod_1_r. }
  rewrite put_be_app. destruct (IH (Z.shiftr v 8)) as (H1 & H2 & H3).
  assert (Z.land v 0xff = v mod 2 ^ 8) as Hl by (apply (Z.land_ones v 8); lia).
  pose proof (Z.mod_pos_bound v (2 ^ 8) ltac:(lia)) as Hm. split_and!.
  - autorewrite with zlen. lia.
  - apply Forall_app. split; [done |]. repeat constructor; rewrite Hl; simpl in Hm; lia.
  - unfold be_value in *. rewrite fold_left_app, H3. simpl fold_left. rewrite Hl, Z.shiftr_div_pow2 by lia.
    replace (8 * Z.of_nat (S n)) with (8 + 8 * Z.of_nat n) by lia. rewrite Z.pow_add_r by lia.
    rewrite Z.rem_mul_r by (apply Z.pow_nonzero || apply Z.pow_pos_nonneg; lia). lia.
Qed.

Lemma i64_u64 i : - 2 ^ 63 <= i < 2 ^ 63 -> i64 (u64 i) = i.
Proof.
  intros Hi. unfold swrap, wrap. rewrite Zplus_mod_idemp_l, Z.mod_small by lia. lia.
Qed.

Lemma be_range l : bytes_ok l -> 0 <= be_value l < 2 ^ (8 * Zlen l).
Proof.
  intros Hl. induction l as [|b l IH] using rev_ind; [done |].
  apply Forall_app in Hl as [Hl Hb]. apply Forall_cons in Hb as [Hb _]. unfold is_byte in Hb.
  specialize (IH Hl). unfold be_value in *. rewrite fold_left_app. cbn [fold_left]. autorewrite with zlen.
  replace (8 * (Zlen l + (0 + 1))) with (8 + 8 * Zlen l) by lia.
  rewrite Z.pow_add_r by (pose proof (Zlen_nonneg l); lia).
  lia.
Qed.


Ltac cut_bytes :=
  repeat match goal with
  | H : bytes_ok (_ :: _) |- _ => inversion_clear H
  | H : Forall is_byte (_ :: _) |- _ => inversion_clear H
  | H : is_byte _ |- _ => unfold is_byte in H
  end.

Ltac solve_bytes := repeat first [apply Forall_cons_2 | apply Forall_nil_2]; done.

Lemma ONE_BYTE_value x0 rest : ONE_BYTE_INT (x0 :: rest) = Some (swrap 8 (be_value [x0])).
Proof. done. Qed.

Lemma TWO_BYTE_value x0 x1 rest : is_byte x1 -> TWO_BYTE_INT (x0 :: x1 :: rest) = Some (swrap 16 (be_value [x0; x1])).
Proof.
  unfold is_byte. intros H1. unfold TWO_BYTE_INT, be_value. cbn [fold_left]. f_equal.
  change 256 with (2 ^ 8). rewrite lor_add by lia. change 16 with (8 + 8). by rewrite swrap_join by lia.
Qed.

Lemma THREE_BYTE_value x0 x1 x2 rest : is_byte x1 -> is_byte x2 ->
  THREE_BYTE_INT (x0 :: x1 :: x2 :: rest) = Some (swrap 24 (be_value [x0; x1; x2])).
Proof.
  unfold is_byte. intros H1 H2. unfold THREE_BYTE_INT, be_value. cbn [fold_left]. f_equal.
  rewrite Z.shiftl_mul_pow2 by lia. change 65536 with (2 ^ 16). rewrite (lor_add _ (x1 * 2 ^ 8)) by lia.
  replace (2 ^ 16 * i8 x0 + x1 * 2 ^ 8) with (2 ^ 8 * (2 ^ 8 * i8 x0 + x1)) by lia. rewrite lor_add by lia.
  change 24 with (16 + 8). rewrite swrap_join by lia. change 16 with (8 + 8). by rewrite swrap_join by lia.
Qed.

Lemma FOUR_BYTE_value x0 x1 x2 x3 rest : is_byte x1 -> is_byte x2 -> is_byte x3 ->
  FOUR_BYTE_INT (x0 :: x1 :: x2 :: x3 :: rest) = Some (swrap 32 (be_value [x0; x1; x2; x3])).
Proof.
  unfold is_byte. intros H1 H2 H3. unfold FOUR_BYTE_INT, be_value. cbn [fold_left]. f_equal.
  rewrite !Z.shiftl_mul_pow2 by lia. change 16777216 with (2 ^ 24). rewrite (lor_add _ (x1 * 2 ^ 16)) by lia.
  replace (2 ^ 24 * i8 x0 + x1 * 2 ^ 16) with (2 ^ 16 * (2 ^ 8 * i8 x0 + x1)) by lia. rewrite (lor_add _ (x2 * 2 ^ 8)) by lia.
  replace (2 ^ 16 * (2 ^ 8 * i8 x0 + x1) + x2 * 2 ^ 8) with (2 ^ 8 * (2 ^ 8 * (2 ^ 8 * i8 x0 + x1) + x2)) by lia.
  rewrite lor_add by lia. change 32 with (24 + 8). rewrite swrap_join by lia. change 24 with (16 + 8).
  rewrite swrap_join by lia. change 16 with (8 + 8). by rewrite swrap_join by lia.
Qed.

Lemma FOUR_BYTE_UINT_value x0 x1 x2 x3 rest : is_byte x0 -> is_byte x1 -> is_byte x2 -> is_byte x3 ->
  FOUR_BYTE_UINT (x0 :: x1 :: x2 :: x3 :: rest) = Some (be_value [x0; x1; x2; x3]).
Proof.
  unfold is_byte. intros H0 H1 H2 H3. unfold FOUR_BYTE_UINT, be_value. cbn [fold_left]. f_equal.
  rewrite !Z.shiftl_mul_pow2 by lia. rewrite wrap_small by lia.
  replace (x0 * 2 ^ 24) with (2 ^ 24 * x0) by lia. rewrite (lor_add _ (x1 * 2 ^ 16)) by lia.
  replace (2 ^ 24 * x0 + x1 * 2 ^ 16) with (2 ^ 16 * (2 ^ 8 * x0 + x1)) by lia. rewrite (lor_add _ (x2 * 2 ^ 8)) by lia.
  replace (2 ^ 16 * (2 ^ 8 * x0 + x1) + x2 * 2 ^ 8) with (2 ^ 8 * (2 ^ 8 * (2 ^ 8 * x0 + x1) + x2)) by lia.
  rewrite lor_add by lia. lia.
Qed.

Lemma SIX_BYTE_value x0 x1 x2 x3 x4 x5 rest : bytes_ok [x0; x1; x2; x3; x4; x5] ->
  SIX_BYTE_INT (x0 :: x1 :: x2 :: x3 :: x4 :: x5 :: rest) = Some (swrap 48 (be_value [x0; x1; x2; x3; x4; x5])).
Proof.
  intros H. cut_bytes. unfold SIX_BYTE_INT. cbn [drop]. rewrite FOUR_BYTE_UINT_value, TWO_BYTE_value by done.
  cbn [mbind option_bind]. f_equal. pose proof (be_range [x2; x3; x4; x5] ltac:(solve_bytes)) as Hr.
  change (Zlen [x2; x3; x4; x5]) with 4 in Hr. simpl (8 * 4) in Hr.
  rewrite Z.add_comm. change 48 with (16 + 32). rewrite <-swrap_join by lia. f_equal. unfold be_value. cbn [fold_left]. lia.
Qed.

Lemma eight_bytes_value x0 x1 x2 x3 x4 x5 x6 x7 rest : bytes_ok [x0; x1; x2; x3; x4; x5; x6; x7] ->
  eight_bytes (x0 :: x1 :: x2 :: x3 :: x4 :: x5 :: x6 :: x7 :: rest) = Some (be_value [x0; x1; x2; x3; x4; x5; x6; x7]).
Proof.
  intros H. pose proof (be_range _ H) as Hall. cut_bytes. unfold eight_bytes. cbn [drop]. rewrite !FOUR_BYTE_UINT_value by done.
  cbn [mbind option_bind]. f_equal. rewrite Z.shiftl_mul_pow2 by lia.
  pose proof (be_range [x0; x1; x2; x3] ltac:(solve_bytes)) as Hr.
  change (Zlen [x0; x1; x2; x3]) with 4 in Hr. simpl (8 * 4) in Hr. rewrite (wrap_small 64 (_ * 2 ^ 32)) by lia.
  assert (be_value [x0; x1; x2; x3] * 2 ^ 32 + be_value [x4; x5; x6; x7] = be_value [x0; x1; x2; x3; x4; x5; x6; x7]) as ->
    by (unfold be_value; cbn [fold_left]; lia).
  by apply wrap_small.
Qed.

Lemma int_back w i : 0 < w <= 64 -> - 2 ^ (w - 1) <= i < 2 ^ (w - 1) -> swrap w (u64 i mod 2 ^ w) = i.
Proof.
  intros Hw Hi. transitivity (swrap w i); [| apply swrap_small; lia].
  assert (2 ^ w <> 0) by (apply Z.pow_nonzero; lia).
  unfold swrap, wrap. rewrite Zplus_mod_idemp_l. do 1 f_equal. rewrite (Z.add_mod (i mod _)), (Z.add_mod i) by done.
  do 2 f_equal. apply Z.mod_mod_divide. exists (2 ^ (64 - w)). rewrite <-Z.pow_add_r by lia. f_equal. lia.
Qed.

(** ** Reading back what was written *)

(** The values that registers hold. *)
Definition mem_ok (m : Mem) : Prop :=
  match m with
  | Null => True
  | Int i => - 2 ^ 63 <= i < 2 ^ 63
  | Real r => 0 <= r < 2 ^ 64
  | Str z => bytes_ok z /\ Zlen z <= 10 ^ 9
  | Blob z n => bytes_ok z /\ Zlen z + Z.of_nat n <= 10 ^ 9
  end.

(** What a value becomes: SQLite has no NaN, and the zeros of a blob are bytes. *)
Definition stored (m : Mem) : Mem :=
  match m with
  | Real r => if sqlite3IsNaN r then Null else Real r
  | Blob z n => Blob (z ++ replicate n 0) 0
  | _ => m
  end.

Definition zeros (m : Mem) : list Z := match m with Blob _ n => replicate n 0 | _ => [] end.

(** All the bytes of a value. *)
Definition content (ff : Z) (m : Mem) : list Z := sqlite3VdbeSerialPut m (sqlite3VdbeSerialType m ff) ++ zeros m.

(** The integers that a type of [n] bytes can hold. *)
Lemma read_int n i l : Zlen l = Z.of_nat n -> bytes_ok l -> be_value l = u64 i mod 2 ^ (8 * Z.of_nat n) -> (0 < n <= 8)%nat ->
  - 2 ^ (8 * Z.of_nat n - 1) <= i < 2 ^ (8 * Z.of_nat n - 1) -> swrap (8 * Z.of_nat n) (be_value l) = i.
Proof. intros Hl Hb -> Hn Hi. apply int_back; lia. Qed.

Lemma Int_back i n l rest : Zlen l = Z.of_nat n -> bytes_ok l -> be_value l = u64 i mod 2 ^ (8 * Z.of_nat n) ->
  - 2 ^ (8 * Z.of_nat n - 1) <= i < 2 ^ (8 * Z.of_nat n - 1) ->
  (n = 1%nat -> sqlite3VdbeSerialGet (l ++ rest) 1 = Some (1, Int i)) /\
  (n = 2%nat -> sqlite3VdbeSerialGet (l ++ rest) 2 = Some (2, Int i)) /\
  (n = 3%nat -> sqlite3VdbeSerialGet (l ++ rest) 3 = Some (3, Int i)) /\
  (n = 4%nat -> sqlite3VdbeSerialGet (l ++ rest) 4 = Some (4, Int i)) /\
  (n = 6%nat -> sqlite3VdbeSerialGet (l ++ rest) 5 = Some (6, Int i)) /\
  (n = 8%nat -> sqlite3VdbeSerialGet (l ++ rest) 6 = Some (8, Int i)).
Proof.
  intros Hl Hb Hv Hi. assert (length l = n) as Hn by (unfold Zlen in Hl; lia).
  assert (n = 1 \/ n = 2 \/ n = 3 \/ n = 4 \/ n = 6 \/ n = 8 -> swrap (8 * Z.of_nat n) (be_value l) = i)%nat as Hback
    by (intros; apply (read_int n i l); done || lia).
  split_and!; intros ->; specialize (Hback ltac:(lia)); clear Hi Hl Hv;
    do 9 (try (destruct l as [|? l]; try discriminate Hn)); clear Hn; unfold sqlite3VdbeSerialGet, serialGet; cbn [app Z.eqb orb Pos.eqb];
    try (rewrite SIX_BYTE_value by done); try (rewrite eight_bytes_value by done); cut_bytes;
    rewrite ?ONE_BYTE_value, ?TWO_BYTE_value, ?THREE_BYTE_value, ?FOUR_BYTE_value by done;
    cbn [mbind option_bind]; do 3 f_equal; exact Hback.
Qed.

(** The serial types of integers. *)
Lemma SerialType_int i ff : - 2 ^ 63 <= i < 2 ^ 63 ->
  sqlite3VdbeSerialType (Int i) ff =
    if (- 2 ^ 7 <=? i) && (i <? 2 ^ 7) then
      if ((i =? 0) || (i =? 1)) && (4 <=? ff) then 8 + i else 1
    else if (- 2 ^ 15 <=? i) && (i <? 2 ^ 15) then 2
    else if (- 2 ^ 23 <=? i) && (i <? 2 ^ 23) then 3
    else if (- 2 ^ 31 <=? i) && (i <? 2 ^ 31) then 4
    else if (- 2 ^ 47 <=? i) && (i <? 2 ^ 47) then 5 else 6.
Proof.
  intros Hi. unfold sqlite3VdbeSerialType, MAX_6BYTE.
  assert ((Z.land i 1 =? i) = (i =? 0) || (i =? 1)) as ->.
  { change 1 with (Z.ones 1) at 1. rewrite Z.land_ones by lia. pose proof (Z.mod_pos_bound i (2 ^ 1) ltac:(lia)).
    destruct (Z.eqb_spec i 0) as [-> | ?]; [done |]. destruct (Z.eqb_spec i 1) as [-> | ?]; [done |].
    destruct (Z.eqb_spec (i mod 2 ^ 1) i); [lia | done]. }
  assert (forall k, 0 < k -> k <= 63 -> ((if i <? 0 then u64 (Z.lnot i) else i) <=? 2 ^ k - 1) = (- 2 ^ k <=? i) && (i <? 2 ^ k)) as Hu.
  { intros k Hk Hk'. unfold Z.lnot. assert (0 < 2 ^ k <= 2 ^ 63) by (split; [apply Z.pow_pos_nonneg | apply Z.pow_le_mono_r]; lia).
    destruct (Z.ltb_spec i 0); [rewrite wrap_small by lia |];
      apply eq_true_iff_eq; rewrite andb_true_iff, !Z.leb_le, Z.ltb_lt; lia. }
  change 127 with (2 ^ 7 - 1). change 32767 with (2 ^ 15 - 1). change 8388607 with (2 ^ 23 - 1).
  change 2147483647 with (2 ^ 31 - 1). change (0x00008000 * 2 ^ 32 - 1) with (2 ^ 47 - 1). rewrite !Hu by lia.
  destruct ((- 2 ^ 7 <=? i) && (i <? 2 ^ 7)); [| done].
  destruct (Z.eqb_spec i 0) as [-> | ?]; [done |]. destruct (Z.eqb_spec i 1) as [-> | ?]; done.
Qed.

(** Its length says how many bytes there are, and reading gives the value. *)
Definition reads_back (ff : Z) (m : Mem) : Prop :=
  let t := sqlite3VdbeSerialType m ff in
  0 <= t < 2 ^ 32 /\ bytes_ok (content ff m) /\ Zlen (content ff m) = sqlite3VdbeSerialTypeLen t /\
  forall rest, sqlite3VdbeSerialGet (content ff m ++ rest) t = Some (sqlite3VdbeSerialTypeLen t, stored m).

Lemma Int_reads_back ff i : mem_ok (Int i) -> reads_back ff (Int i).
Proof.
  intros Hi. cbn [mem_ok] in Hi. unfold reads_back, content. rewrite SerialType_int by done. cbn [zeros stored].
  assert (forall n, (0 < n)%nat -> (n <= 8)%nat -> - 2 ^ (8 * Z.of_nat n - 1) <= i < 2 ^ (8 * Z.of_nat n - 1) ->
            bytes_ok (put_be n (u64 i) []) /\ Zlen (put_be n (u64 i) []) = Z.of_nat n) as Hput.
  { intros n Hn Hn' Hr. by destruct (put_be_spec n (u64 i)) as (H1 & H2 & H3). }
  assert (forall n, - 2 ^ (8 * Z.of_nat n - 1) <= i < 2 ^ (8 * Z.of_nat n - 1) -> forall rest, _) as Hget
    by (intros n Hr rest; destruct (put_be_spec n (u64 i)) as (H1 & H2 & H3); exact (Int_back i n _ rest H1 H2 H3 Hr)).
  repeat case_if; subst; try lia; rewrite app_nil_r.
  1: destruct (Z.eqb_spec i 0) as [-> | ?]; [| destruct (Z.eqb_spec i 1) as [-> | ?]; [| done]]; split_and!; try lia; constructor || done.
  1: specialize (Hput 1%nat); specialize (Hget 1%nat).
  2: specialize (Hput 2%nat); specialize (Hget 2%nat).
  3: specialize (Hput 3%nat); specialize (Hget 3%nat).
  4: specialize (Hput 4%nat); specialize (Hget 4%nat).
  5: specialize (Hput 6%nat); specialize (Hget 6%nat).
  6: specialize (Hput 8%nat); specialize (Hget 8%nat).
  all: destruct Hput as [Hb Hl]; [lia | lia | simpl; lia |]; specialize (Hget ltac:(simpl; lia));
    (split_and!; [lia | lia | exact Hb | exact Hl | intros rest; rewrite <-app_assoc || idtac; by apply Hget]).
Qed.

Lemma Real_reads_back ff r : mem_ok (Real r) -> reads_back ff (Real r).
Proof.
  intros Hr. cbn [mem_ok] in Hr. unfold reads_back, content. cbn [sqlite3VdbeSerialType zeros stored].
  destruct (put_be_spec 8 r) as (H1 & H2 & H3). unfold sqlite3VdbeSerialPut. cbn [Z.leb Z.ltb Z.compare Pos.compare Pos.compare_cont andb].
  change (Z.to_nat (sqlite3VdbeSerialTypeLen 7)) with 8%nat. rewrite app_nil_r. split_and!; [lia | lia | done | done |]. intros rest.
  rewrite (Z.mod_small r) in H3 by (simpl; lia). set (l := put_be 8 r []) in *. clearbody l.
  assert (length l = 8%nat) as Hl by (unfold Zlen in H1; lia). do 9 (try (destruct l as [|? l]; try discriminate Hl)).
  unfold sqlite3VdbeSerialGet, serialGet. cbn [Z.eqb Pos.eqb orb app]. rewrite eight_bytes_value by done. rewrite H3. done.
Qed.

Lemma long_type n b : 0 <= n <= 10 ^ 9 -> 0 <= b <= 1 -> let t := u32 (n * 2 + 12 + b) in
  t = n * 2 + 12 + b /\ sqlite3VdbeSerialTypeLen t = n /\ Z.odd t = (b =? 1).
Proof.
  intros Hn Hb t. assert (t = n * 2 + 12 + b) as -> by (apply wrap_small; lia). split_and!; [done | |].
  - unfold sqlite3VdbeSerialTypeLen. replace (12 <=? n * 2 + 12 + b) with true by lia.
    replace (n * 2 + 12 + b - 12) with (b + n * 2) by lia. rewrite Z.div_add, Z.div_small by lia. lia.
  - replace (n * 2 + 12 + b) with (b + 2 * (n + 6)) by lia. rewrite Z.odd_add_mul_2.
    assert (b = 0 \/ b = 1) as [-> | ->] by lia; done.
Qed.

Lemma SerialGet_long t buf : 12 <= t -> sqlite3VdbeSerialGet buf t =
  if Zlen buf <? sqlite3VdbeSerialTypeLen t then None
  else let z := take (Z.to_nat (sqlite3VdbeSerialTypeLen t)) buf in
       Some (sqlite3VdbeSerialTypeLen t, if Z.odd t then Str z else Blob z 0).
Proof.
  intros Ht. unfold sqlite3VdbeSerialGet, sqlite3VdbeSerialTypeLen. replace (12 <=? t) with true by lia.
  by repeat (match goal with |- context [t =? ?k] => replace (t =? k) with false by lia end).
Qed.

Lemma long_reads_back t z rest b : t = Zlen z * 2 + 12 + b -> sqlite3VdbeSerialTypeLen t = Zlen z -> 0 <= b ->
  sqlite3VdbeSerialGet (z ++ rest) t = Some (Zlen z, if Z.odd t then Str z else Blob z 0).
Proof.
  intros Ht Hl Hb. pose proof (Zlen_nonneg z). pose proof (Zlen_nonneg rest). rewrite SerialGet_long, Hl by lia. autorewrite with zlen.
  replace (_ <? _) with false by lia. unfold Zlen. rewrite Nat2Z.id, take_app_length. done.
Qed.

Lemma mem_reads_back ff m : mem_ok m -> reads_back ff m.
Proof.
  destruct m as [| i | r | z | z n]; [| apply Int_reads_back | apply Real_reads_back | |]; intros Hm.
  - unfold reads_back, content. split_and!; try lia; constructor || done.
  - destruct Hm as [Hb Hl]. pose proof (Zlen_nonneg z). unfold reads_back, content. cbn [sqlite3VdbeSerialType zeros stored].
    destruct (long_type (Zlen z) 1 ltac:(lia) ltac:(lia)) as (Ht & Hlen & Hodd). cbv zeta in *. rewrite Hlen.
    unfold sqlite3VdbeSerialPut. rewrite app_nil_r. replace (_ <=? 7) with false by lia. replace (12 <=? _) with true by lia. cbn [andb].
    split_and!; [lia | lia | done | done |]. intros rest. rewrite (long_reads_back _ z rest 1) by (done || lia). by rewrite Hodd.
  - destruct Hm as [Hb Hl]. pose proof (Zlen_nonneg z). unfold reads_back, content. cbn [sqlite3VdbeSerialType zeros stored].
    destruct (long_type (Zlen z + Z.of_nat n) 0 ltac:(lia) ltac:(lia)) as (Ht & Hlen & Hodd). cbv zeta in *. rewrite !Z.add_0_r in *. rewrite Hlen.
    unfold sqlite3VdbeSerialPut. replace (_ <=? 7) with false by lia. replace (12 <=? _) with true by lia. cbn [andb].
    assert (Zlen (z ++ replicate n 0) = Zlen z + Z.of_nat n) as Hz by (unfold Zlen; rewrite length_app, length_replicate; lia).
    split_and!; [lia | lia | | done |].
    + apply Forall_app. split; [done |]. apply Forall_replicate. unfold is_byte. lia.
    + intros rest. rewrite (long_reads_back _ (z ++ replicate n 0) rest 0) by (rewrite ?Hz; done || lia). rewrite Hz. by rewrite Hodd.
Qed.

(** ** Headers *)

Lemma putVarint32_read v rest : 0 <= v < 2 ^ 32 -> bytes_ok rest ->
  bytes_ok (putVarint32 v) /\ 1 <= Zlen (putVarint32 v) /\
  Zlen (putVarint32 v) = (if v <=? 127 then 1 else sqlite3VarintLen v) /\
  getVarint32 (putVarint32 v ++ rest) = Some (Zlen (putVarint32 v), v).
Proof.
  intros Hv Hrest. destruct (PutVarint_read v rest ltac:(lia) Hrest) as (H1 & H2 & H3 & _ & H5 & _).
  unfold putVarint32. destruct (Z.ltb_spec v 0x80).
  - replace (v <=? 127) with true by lia. split_and!; [repeat constructor; lia | done | done |].
    cbn [app getVarint32]. by replace (v <? 0x80) with true by lia.
  - replace (v <=? 127) with false by lia. split_and!; [done | lia | done |]. rewrite H5. do 2 f_equal. lia.
Qed.

Lemma VarintLen_range v k : (1 <= k <= 5)%nat -> 2 ^ (7 * (Z.of_nat k - 1)) <= v < 2 ^ (7 * Z.of_nat k) -> sqlite3VarintLen v = Z.of_nat k.
Proof.
  intros Hk Hv. assert (0 < 2 ^ (7 * (Z.of_nat k - 1))) by (apply Z.pow_pos_nonneg; lia).
  pose proof (varint_len_needs k 9 0 v) as H0. rewrite Z.mul_0_r, Z.shiftr_0_r, !Z.add_0_l in H0. unfold sqlite3VarintLen.
  apply H0; lia.
Qed.

Lemma VarintLen_bounds v : 128 <= v < 2 ^ 32 ->
  2 <= sqlite3VarintLen v <= 5 /\ 2 ^ (7 * (sqlite3VarintLen v - 1)) <= v < 2 ^ (7 * sqlite3VarintLen v).
Proof.
  intros Hv.
  assert (2 ^ 7 <= v < 2 ^ 14 \/ 2 ^ 14 <= v < 2 ^ 21 \/ 2 ^ 21 <= v < 2 ^ 28 \/ 2 ^ 28 <= v < 2 ^ 35) as H by lia.
  destruct H as [H | [H | [H | H]]]; [rewrite (VarintLen_range v 2) | rewrite (VarintLen_range v 3) | rewrite (VarintLen_range v 4) |
    rewrite (VarintLen_range v 5)]; try (simpl; lia).
Qed.

Lemma header_size_spec n : 0 <= n <= 10 ^ 9 -> let h := header_size n in
  n + 1 <= h <= n + 5 /\ h = Zlen (putVarint32 h) + n.
Proof.
  intros Hn h. unfold h, header_size. destruct (Z.leb_spec n 126).
  - unfold putVarint32. replace (n + 1 <? 0x80) with true by lia. change (Zlen [n + 1]) with 1. lia.
  - assert (forall v, 128 <= v < 2 ^ 32 -> Zlen (putVarint32 v) = sqlite3VarintLen v) as Hlen.
    { intros v Hv. destruct (putVarint32_read v [] ltac:(lia) ltac:(constructor)) as (_ & _ & -> & _). by replace (v <=? 127) with false by lia. }
    destruct (Z.eq_dec n 127) as [-> | ?]; [vm_compute; split; [split; discriminate | done] |].
    destruct (VarintLen_bounds n ltac:(lia)) as [Hk Hr]. set (k := sqlite3VarintLen n) in *.
    destruct (VarintLen_bounds (n + k) ltac:(lia)) as [Hk' Hr']. set (k' := sqlite3VarintLen (n + k)) in *.
    assert (k <= k' <= k + 1 /\ (k' = k + 1 -> sqlite3VarintLen (n + k + 1) = k + 1)) as [Hkk Hnext].
    { assert (k = 2 \/ k = 3 \/ k = 4 \/ k = 5) as Hcases by lia. 
      assert (k' = 2 \/ k' = 3 \/ k' = 4 \/ k' = 5) as Hcases' by lia. 
      destruct (VarintLen_bounds (n + k + 1) ltac:(lia)) as [Hk'' Hr'']. set (k'' := sqlite3VarintLen (n + k + 1)) in *.
      assert (k'' = 2 \/ k'' = 3 \/ k'' = 4 \/ k'' = 5) as Hcases'' by lia. clearbody k k' k''.
      destruct Hcases as [-> | [-> | [-> | ->]]], Hcases' as [-> | [-> | [-> | ->]]], Hcases'' as [-> | [-> | [-> | ->]]];
        simpl in Hr, Hr', Hr''; lia. }
    destruct (Z.ltb_spec k k').
    + rewrite Hlen by lia. rewrite Hnext by lia. lia.
    + rewrite Hlen by lia. fold k'. lia.
Qed.

(** ** Records *)

Definition types (ff : Z) (l : list Mem) : list Z := map (fun m => sqlite3VdbeSerialType m ff) l.
Definition type_bytes (ff : Z) (l : list Mem) : list Z := mjoin (map putVarint32 (types ff l)).
Definition contents (ff : Z) (l : list Mem) : list Z := mjoin (map (content ff) l).

(** The number of bytes of a record, with the zeros at its end. *)
Definition record_length (ff : Z) (l : list Mem) : Z :=
  header_size (Zlen (type_bytes ff l)) + Zlen (contents ff l).

Lemma expanded_type ff z n : sqlite3VdbeSerialType (Blob (z ++ replicate n 0) 0) ff = sqlite3VdbeSerialType (Blob z n) ff.
Proof. simpl. unfold Zlen. rewrite length_app, length_replicate. f_equal. lia. Qed.

(** What the first pass finds. *)
Record scanned (ff : Z) (l : list Mem) (fields : list (Mem * Z)) (nData nHdr nZero : Z) : Prop := {
  sc_types : map snd fields = types ff l;
  sc_data : mjoin (map (fun f => sqlite3VdbeSerialPut f.1 f.2) fields) ++ replicate (Z.to_nat nZero) 0 = contents ff l;
  sc_nData : nData = Zlen (mjoin (map (fun f => sqlite3VdbeSerialPut f.1 f.2) fields));
  sc_nHdr : nHdr = Zlen (type_bytes ff l);
  sc_nZero : 0 <= nZero
}.

Lemma contents_cons ff m l : contents ff (m :: l) = content ff m ++ contents ff l.
Proof. done. Qed.

Lemma type_bytes_cons ff m l : type_bytes ff (m :: l) = putVarint32 (sqlite3VdbeSerialType m ff) ++ type_bytes ff l.
Proof. done. Qed.

Lemma Put_blob ff z n z' n' : mem_ok (Blob z n) ->
  sqlite3VdbeSerialPut (Blob z' n') (sqlite3VdbeSerialType (Blob z n) ff) = z'.
Proof.
  intros [_ Hm]. pose proof (Zlen_nonneg z). unfold sqlite3VdbeSerialPut. cbn [sqlite3VdbeSerialType].
  destruct (long_type (Zlen z + Z.of_nat n) 0 ltac:(lia) ltac:(lia)) as (Hty & _). rewrite Z.add_0_r in Hty. rewrite Hty.
  replace (_ <=? 7) with false by lia. by replace (12 <=? _) with true by lia.
Qed.

Lemma scanned_cons ff m l fields nData nHdr nZero pRec k nZero' :
  mem_ok m -> scanned ff l fields nData nHdr nZero ->
  let t := sqlite3VdbeSerialType m ff in
  sqlite3VdbeSerialPut pRec t ++ mjoin (map (fun f => sqlite3VdbeSerialPut f.1 f.2) fields) ++ replicate (Z.to_nat nZero') 0 =
    content ff m ++ contents ff l ->
  k = Zlen (sqlite3VdbeSerialPut pRec t) -> 0 <= nZero' ->
  scanned ff (m :: l) ((pRec, t) :: fields) (nData + k) (nHdr + (if t <=? 127 then 1 else sqlite3VarintLen t)) nZero'.
Proof.
  intros Hm [Ht Hd HnD HnH HnZ] t Hput -> Hz. destruct (mem_reads_back ff m Hm) as (Ht32 & _).
  destruct (putVarint32_read t [] Ht32 ltac:(constructor)) as (_ & _ & Hv & _).
  split; cbn [map snd fst mjoin list_join]; rewrite ?Zlen_app.
  - by rewrite Ht.
  - by rewrite <-app_assoc.
  - unfold mjoin in *. lia.
  - rewrite type_bytes_cons, Zlen_app. fold t. lia.
  - done.
Qed.

Lemma scan_spec ff l : Forall mem_ok l -> forall fields nData nHdr nZero, scan ff l = (fields, nData, nHdr, nZero) ->
  scanned ff l fields nData nHdr nZero.
Proof.
  intros Hl. induction Hl as [|m l Hm Hl IH]; intros fields nData nHdr nZero.
  - intros [= <- <- <- <-]. by split.
  - cbn [scan]. destruct (scan ff l) as [[[fields' nData'] nHdr'] nZero'] eqn:Hs. specialize (IH _ _ _ _ eq_refl).
    pose proof IH as [_ Hd HnD _ HnZ]. destruct (mem_reads_back ff m Hm) as (_ & _ & Hlen & _). cbv zeta.
    assert (zeros m = [] -> scanned ff (m :: l) ((m, sqlite3VdbeSerialType m ff) :: fields') (nData' + sqlite3VdbeSerialTypeLen (sqlite3VdbeSerialType m ff))
      (nHdr' + (if sqlite3VdbeSerialType m ff <=? 127 then 1 else sqlite3VarintLen (sqlite3VdbeSerialType m ff))) nZero') as Hplain.
    { intros Hz. unfold content in Hlen. rewrite Hz, app_nil_r in Hlen. apply (scanned_cons ff m l fields' nData' nHdr' nZero'); try done.
      unfold content. by rewrite Hz, app_nil_r, <-Hd. }
    destruct m as [| i | r | z | z [|n]]; try (intros [= <- <- <- <-]; by apply Hplain).
    clear Hplain. assert (Zlen (replicate (S n) 0) = Z.of_nat (S n)) as Hrep by (unfold Zlen; by rewrite length_replicate).
    pose proof (fun z' n' => Put_blob ff z (S n) z' n' Hm) as Hp. unfold content in Hlen. rewrite Hp, Zlen_app in Hlen. cbn [zeros] in Hlen.
    rewrite Hrep in Hlen.
    assert (Zlen (z ++ replicate (S n) 0) = Zlen z + Z.of_nat (S n)) as Hzn by (by rewrite Zlen_app, Hrep).
    destruct (Z.eqb_spec nData' 0) as [-> | Hn0]; cbn [negb]; intros Heq; injection Heq as <- <- <- <-;
      try change (0 :: replicate n 0) with (replicate (S n) 0); (apply (scanned_cons ff (Blob z (S n)) l fields' _ nHdr' nZero'); [done | done | | rewrite Hp, ?Hzn; cbn [sqlite3VdbeSerialType] in Hlen; lia | lia]);
      rewrite Hp; unfold content; rewrite Hp; cbn [zeros]; [| by rewrite Hd].
    assert (mjoin (map (fun f : Mem * Z => sqlite3VdbeSerialPut f.1 f.2) fields') = []) as E.
    { destruct (mjoin _) as [|? r] in HnD |- *; [done |]. autorewrite with zlen in HnD. pose proof (Zlen_nonneg r). lia. }
    rewrite <-Hd, E. cbn [app]. rewrite <-app_assoc, <-replicate_add. do 2 f_equal. lia.
Qed.

(** ** The round trip *)

Lemma types_range ff l : Forall mem_ok l -> Forall (fun t => 0 <= t < 2 ^ 32) (types ff l).
Proof. intros Hl. apply Forall_map. eapply Forall_impl; [exact Hl |]. intros m Hm. apply (mem_reads_back ff m Hm). Qed.

Lemma type_bytes_ok ff l : Forall mem_ok l -> bytes_ok (type_bytes ff l) /\ bytes_ok (contents ff l).
Proof.
  intros Hl. induction Hl as [|m l Hm Hl [IH1 IH2]]; [split; constructor |]. destruct (mem_reads_back ff m Hm) as (Ht & Hc & _).
  rewrite type_bytes_cons, contents_cons. split; apply Forall_app; split; try done. 
  by apply (putVarint32_read _ [] Ht ltac:(constructor)).
Qed.

Lemma Zdrop_app (a b : list Z) : Zdrop (Zlen a) (a ++ b) = b.
Proof. unfold Zdrop, Zlen. by rewrite Nat2Z.id, drop_app_length. Qed.

Lemma unpack_loop_step nField aKey szHdr idx d : unpack_loop nField aKey szHdr idx d =
  if (idx <? szHdr) && (d <=? Zlen aKey) then
    '(n, serial_type) ← getVarint32 (Zdrop idx aKey);
    '(len, m) ← sqlite3VdbeSerialGet (Zdrop d aKey) serial_type;
    l ← (if (nField <=? 1)%nat then Some [] else unpack_loop (pred nField) aKey szHdr (idx + n) (d + len));
    Some (m :: l)
  else Some [].
Proof. by destruct nField as [|[|n]]. Qed.

(** The loop, with [l1] read and [l2] to come. *)
Lemma unpack_loop_reads ff size l2 : Forall mem_ok l2 -> forall nField l1, Forall mem_ok l1 ->
  bytes_ok size ->
  let h := size ++ type_bytes ff l1 in
  let aKey := (h ++ type_bytes ff l2) ++ contents ff l1 ++ contents ff l2 in
  unpack_loop nField aKey (Zlen (h ++ type_bytes ff l2)) (Zlen h) (Zlen (h ++ type_bytes ff l2) + Zlen (contents ff l1)) =
    Some (take (Nat.max 1 nField) (map stored l2)).
Proof.
  intros Hl2. induction Hl2 as [|m l2 Hm Hl2 IH]; intros nField l1 Hl1 Hsize h aKey.
  - rewrite unpack_loop_step, app_nil_r, Z.ltb_irrefl. by destruct (Nat.max 1 nField).
  - destruct (mem_reads_back ff m Hm) as (Ht & Hc & Hlen & Hget). set (t := sqlite3VdbeSerialType m ff) in *.
    destruct (type_bytes_ok ff l1 Hl1) as [Hb1 Hc1]. destruct (type_bytes_ok ff l2 Hl2) as [Hb2 Hc2].
    assert (bytes_ok (type_bytes ff l2 ++ contents ff l1 ++ content ff m ++ contents ff l2)) as Hrest
      by (unfold bytes_ok in *; rewrite !Forall_app; done).
    destruct (putVarint32_read t _ Ht Hrest) as (_ & Hpos & _ & Hread).
    assert (Zdrop (Zlen h) aKey = putVarint32 t ++ type_bytes ff l2 ++ contents ff l1 ++ content ff m ++ contents ff l2) as Hd1.
    { unfold aKey. rewrite <-app_assoc, Zdrop_app, type_bytes_cons, contents_cons, <-!app_assoc. done. }
    assert (Zdrop (Zlen (h ++ type_bytes ff (m :: l2)) + Zlen (contents ff l1)) aKey = content ff m ++ contents ff l2) as Hd2.
    { unfold aKey. rewrite <-Zlen_app, app_assoc, Zdrop_app. by rewrite contents_cons. }
    assert ((Zlen h <? Zlen (h ++ type_bytes ff (m :: l2))) && (Zlen (h ++ type_bytes ff (m :: l2)) + Zlen (contents ff l1) <=? Zlen aKey) = true) as Hgo.
    { unfold aKey. rewrite !Zlen_app, type_bytes_cons, Zlen_app. fold t. pose proof (Zlen_nonneg (type_bytes ff l2)).
      pose proof (Zlen_nonneg (contents ff (m :: l2))). lia. }
    specialize (IH (pred nField) (l1 ++ [m]) ltac:(apply Forall_app; auto) Hsize). cbv zeta in IH.
    assert (type_bytes ff (l1 ++ [m]) = type_bytes ff l1 ++ putVarint32 t) as Htb
      by (unfold type_bytes, types; rewrite !map_app, join_app; cbn [map mjoin list_join]; by rewrite app_nil_r).
    assert (contents ff (l1 ++ [m]) = contents ff l1 ++ content ff m) as Hcb
      by (unfold contents; rewrite !map_app, join_app; cbn [map mjoin list_join]; by rewrite app_nil_r).
    rewrite Htb, Hcb in IH.
    rewrite unpack_loop_step, Hgo, Hd1, Hread. cbn [mbind option_bind]. rewrite Hd2, Hget. cbn [mbind option_bind map].
    destruct (Nat.leb_spec nField 1); [by replace (Nat.max 1 nField) with 1%nat by lia |].
    rewrite <-Hlen. subst aKey h. rewrite type_bytes_cons, contents_cons. fold t. clear Hd1 Hd2 Hgo.
    rewrite !Zlen_app, <-!app_assoc in *.
    match goal with |- context [unpack_loop ?p ?q ?x ?y ?z] =>
      assert (unpack_loop p q x y z = Some (take (Nat.max 1 (pred nField)) (map stored l2))) as -> by (rewrite <-IH; f_equal; lia) end.
    cbn [mbind option_bind]. by replace (Nat.max 1 nField) with (S (Nat.max 1 (pred nField))) by lia.
Qed.

Definition record_bytes (ff : Z) (l : list Mem) : list Z :=
  (putVarint32 (header_size (Zlen (type_bytes ff l))) ++ type_bytes ff l) ++ contents ff l.

Lemma VarintLen_nonneg v : 0 <= sqlite3VarintLen v.
Proof.
  unfold sqlite3VarintLen. enough (forall fuel i v, i <= varint_len fuel i v) by auto.
  clear v. induction fuel as [|fuel IH]; intros i v; cbn [varint_len]; [lia |]. case_if; [| lia]. specialize (IH (i + 1) (Z.shiftr v 7)). lia.
Qed.

Lemma header_size_ge n : n <= header_size n.
Proof.
  unfold header_size. pose proof (VarintLen_nonneg n). repeat case_if; lia.
Qed.

Lemma MakeRecord_made malloc limit ff l : Forall mem_ok l -> 0 <= limit <= 10 ^ 9 ->
  if limit <? record_length ff l then MakeRecord malloc limit ff l = Some Too_big
  else if negb malloc then MakeRecord malloc limit ff l = Some No_mem
  else exists z n, MakeRecord malloc limit ff l = Some (Made z n) /\ z ++ replicate n 0 = record_bytes ff l /\
         Zlen (record_bytes ff l) = record_length ff l.
Proof.
  intros Hl Hlim. unfold MakeRecord. destruct (scan ff l) as [[[fields nData] nHdr] nZero] eqn:Hs.
  destruct (scan_spec ff l Hl _ _ _ _ Hs) as [Ht Hd HnD HnH HnZ]. cbv zeta.
  assert (header_size nHdr + nData + nZero = record_length ff l) as ->.
  { unfold record_length. rewrite <-Hd, Zlen_app, <-HnD, <-HnH. unfold Zlen. rewrite length_replicate. lia. }
  destruct (Z.ltb_spec limit (record_length ff l)) as [|Hle]; [done |]. destruct malloc; [| done]. cbn [negb].
  unfold record_length in Hle. rewrite <-HnH in Hle. pose proof (header_size_ge nHdr). pose proof (Zlen_nonneg (contents ff l)).
  pose proof (Zlen_nonneg (type_bytes ff l)). destruct (header_size_spec nHdr ltac:(lia)) as [_ Hh].
  assert (mjoin (map (fun f : Mem * Z => putVarint32 f.2) fields) = type_bytes ff l) as ->
    by (unfold type_bytes; rewrite <-Ht, map_map; done).
  rewrite !Zlen_app, <-HnH, <-HnD, <-Hh, !Z.eqb_refl. cbn [andb]. eexists _, _. split; [done |].
  unfold record_bytes, record_length. rewrite <-HnH, <-app_assoc, Hd, !Zlen_app, <-HnH, <-Hh. done.
Qed.

Lemma record_bytes_read ff l nField : Forall mem_ok l -> Zlen (type_bytes ff l) <= 10 ^ 9 -> l <> [] ->
  bytes_ok (record_bytes ff l) /\
  sqlite3VdbeRecordUnpack nField (record_bytes ff l) = Some (take (Nat.max 1 nField) (map stored l)).
Proof.
  intros Hl Hlen Hne. destruct (type_bytes_ok ff l Hl) as [Hb Hc]. pose proof (Zlen_nonneg (type_bytes ff l)).
  destruct (header_size_spec (Zlen (type_bytes ff l)) ltac:(lia)) as [Hr Hh]. cbv zeta in *. set (h := header_size _) in *.
  destruct (putVarint32_read h (type_bytes ff l ++ contents ff l) ltac:(lia) ltac:(by apply Forall_app)) as (Hp & _ & _ & Hg).
  split; [unfold record_bytes, bytes_ok in *; by rewrite !Forall_app |].
  unfold sqlite3VdbeRecordUnpack, record_bytes. fold h. rewrite <-app_assoc, Hg. cbn [mbind option_bind].
  pose proof (unpack_loop_reads ff (putVarint32 h) l Hl nField [] ltac:(constructor) Hp) as H1. cbv zeta in H1.
  change (type_bytes ff []) with (@nil Z) in H1. change (contents ff []) with (@nil Z) in H1.
  rewrite app_nil_r, app_nil_l, Zlen_nil, Z.add_0_r, <-app_assoc in H1. rewrite <-H1. f_equal; rewrite Zlen_app; lia.
Qed.

(** C33: records.  The values of a row or an index entry become a record exactly when they fit
    the length limit and memory is there; no assertion of [OP_MakeRecord] fails, and the
    record has the length that its two passes announce.  With its zeros it is read back,
    without a read behind its end, as the fields that were written, however many of
    them are asked for (at least one).  Only a NaN comes back as a NULL. *)
Theorem MakeRecord_roundtrip (malloc : bool) (limit ff : Z) (l : list Mem) :
  l <> [] -> Forall mem_ok l -> 0 <= limit <= 10 ^ 9 ->
  if limit <? record_length ff l then MakeRecord malloc limit ff l = Some Too_big
  else if negb malloc then MakeRecord malloc limit ff l = Some No_mem
  else exists z n, MakeRecord malloc limit ff l = Some (Made z n) /\ bytes_ok z /\
    Zlen z + Z.of_nat n = record_length ff l /\
    forall nField, sqlite3VdbeRecordUnpack nField (z ++ replicate n 0) = Some (take (Nat.max 1 nField) (map stored l)).
Proof.
  intros Hne Hl Hlim. pose proof (MakeRecord_made malloc limit ff l Hl Hlim) as Hm.
  destruct (Z.ltb_spec limit (record_length ff l)) as [|Hle]; [done |]. destruct malloc; [| done]. cbn [negb] in *.
  destruct Hm as (z & n & Hm & Hz & Hlen). exists z, n.
  assert (Zlen (type_bytes ff l) <= 10 ^ 9) as Hsmall.
  { unfold record_length in Hle. pose proof (header_size_ge (Zlen (type_bytes ff l))). pose proof (Zlen_nonneg (contents ff l)). lia. }
  destruct (record_bytes_read ff l 0 Hl Hsmall Hne) as [Hb _]. rewrite <-Hz in Hb, Hlen. apply Forall_app in Hb as [Hb _].
  rewrite Zlen_app in Hlen. unfold Zlen at 2 in Hlen. rewrite length_replicate in Hlen. split_and!; [done | done | done |].
  intros nField. rewrite Hz. by apply record_bytes_read.
Qed.

(** A row of the cache's index. *)
Definition a_row : list Mem := [Str (lit "0badcafe-12-34"); Int 1700000000; Int (2 ^ 40); Int 1].

Lemma MakeRecord_roundtrip_witness :
  exists z n, MakeRecord true 1000000 4 a_row = Some (Made z n) /\
    sqlite3VdbeRecordUnpack 4 (z ++ replicate n 0) = Some a_row.
Proof.
  pose proof (MakeRecord_roundtrip true 1000000 4 a_row ltac:(done)) as H.
  destruct H as (z & n & H1 & _ & _ & H2).
  - repeat apply Forall_cons_2; try apply Forall_nil_2; cbn [mem_ok]; try lia.
    split; [apply lit_bytes_ok | vm_compute; discriminate].
  - lia.
  - exists z, n. split; [exact H1 | exact (H2 4%nat)].
Defined.
