(* ===== verification/SqReals.v ===== *)
(** Doubles among SQLite's values ([src/src/cache/sqlite3.c], part vdbemem.c).

    A double is its 64 bits: sign, exponent and fraction.  Comparing and converting are
    those of IEEE 754, written out on the bits. *)

From S2P Require Import Prelude SqText SqAtoi SqSerial.

#[local] Open Scope Z_scope.

(** ** Comparing and converting *)

(** The order of doubles is the order of these numbers. *)
Definition real_key (r : Z) : Z := if r <? 2 ^ 63 then r else 2 ^ 63 - r.

(** [a<b] and [a<=b] *)
Definition real_lt (a b : Z) : bool := negb (sqlite3IsNaN a) && negb (sqlite3IsNaN b) && (real_key a <? real_key b).
Definition real_le (a b : Z) : bool := negb (sqlite3IsNaN a) && negb (sqlite3IsNaN b) && (real_key a <=? real_key b).

(** [(double)i], rounded to nearest, ties to even. *)
Definition double_of_int (i : Z) : Z :=
  let a := Z.abs i in
  if a =? 0 then 0
  else
    let n := Z.log2 a in
    let m :=
      if n <=? 52 then Z.shiftl a (52 - n)
      else
        let q := Z.shiftr a (n - 52) in
        let r := a - Z.shiftl q (n - 52) in
        let half := 2 ^ (n - 53) in
        if (half <? r) || (r =? half) && Z.odd q then q + 1 else q in
    (if i <? 0 then 2 ^ 63 else 0) + Z.shiftl (n + 1022) 52 + m.

(** [(i64)r] of a double within the range. *)
Definition int_of_double (r : Z) : Z :=
  let e := Z.land (Z.shiftr r 52) 0x7ff in
  let f := Z.land r (2 ^ 52 - 1) in
  let m := if e =? 0 then f else f + 2 ^ 52 in
  let s := (if e =? 0 then 1 else e) - 1075 in
  let a := if 0 <=? s then Z.shiftl m s else Z.shiftr m (- s) in
  if r <? 2 ^ 63 then a else - a.

(** ** Integers from values *)

Definition maxInt : Z := 2 ^ 63 - 1.
Definition minInt : Z := - 2 ^ 63.

Definition doubleToInt64 (r : Z) : Z :=
  if real_le r (double_of_int minInt) then minInt
  else if real_le (double_of_int maxInt) r then maxInt
  else int_of_double r.

(** Texts are in UTF-8. *)
Definition sqlite3VdbeIntValue (pMem : Mem) : Z :=
  match pMem with
  | Int i => i
  | Real r => doubleToInt64 r
  | Str z | Blob z _ => snd (sqlite3Atoi64 z (Zlen z) 1)
  | Null => 0
  end.

(** [None] is the failed assertion that the value is a double. *)
Definition sqlite3VdbeIntegerAffinity (pMem : Mem) : option Mem :=
  match pMem with
  | Real r =>
      let ix := doubleToInt64 r in
      let equal := negb (sqlite3IsNaN r) && (real_key r =? real_key (double_of_int ix)) in
      Some (if equal && (minInt <? ix) && (ix <? maxInt) then Int ix else pMem)
  | _ => None
  end.

(** ** Lemmas *)

Lemma real_lt_asym a b : real_lt a b && real_lt b a = false.
Proof.
  unfold real_lt. destruct (sqlite3IsNaN a), (sqlite3IsNaN b); simpl; try done.
  destruct (Z.ltb_spec (real_key a) (real_key b)), (Z.ltb_spec (real_key b) (real_key a)); done || lia.
Qed.

(** The bits of a positive integer that a double holds exactly. *)
Lemma double_bits a : 0 < a < 2 ^ 53 -> let n := Z.log2 a in
  0 <= n <= 52 /\ 2 ^ n <= a < 2 ^ (n + 1) /\ double_of_int a = (n + 1023) * 2 ^ 52 + (a * 2 ^ (52 - n) - 2 ^ 52) /\
  0 <= a * 2 ^ (52 - n) - 2 ^ 52 < 2 ^ 52.
Proof.
  intros Ha n. pose proof (Z.log2_spec a ltac:(lia)) as Hl. fold n in Hl. rewrite <-Z.add_1_r in Hl.
  pose proof (Z.log2_nonneg a) as H0. fold n in H0. assert (n < 53) as H53 by (apply (Z.log2_lt_pow2 a); lia).
  assert (2 ^ n * 2 ^ (52 - n) = 2 ^ 52) as Hp by (rewrite <-Z.pow_add_r by lia; f_equal; lia).
  assert (0 < 2 ^ (52 - n)) by (apply Z.pow_pos_nonneg; lia). rewrite Z.pow_add_r in Hl by lia. change (2 ^ 1) with 2 in Hl.
  split_and!; try lia; [rewrite Z.pow_add_r by lia; lia | | nia | nia].
  unfold double_of_int. rewrite Z.abs_eq by lia. replace (a =? 0) with false by lia. fold n. replace (n <=? 52) with true by lia.
  replace (a <? 0) with false by lia. rewrite !Z.shiftl_mul_pow2 by lia. lia.
Qed.

Lemma double_opp a : 0 < a -> double_of_int (- a) = 2 ^ 63 + double_of_int a.
Proof.
  intros Ha. unfold double_of_int. rewrite Z.abs_opp. rewrite Z.abs_eq by lia. replace (a =? 0) with false by lia.
  replace (- a <? 0) with true by lia. replace (a <? 0) with false by lia. lia.
Qed.

(** Small integers keep their order. *)
Lemma double_increasing a b : 0 < a < b -> b < 2 ^ 53 -> double_of_int a < double_of_int b.
Proof.
  intros Hab Hb. destruct (double_bits a ltac:(lia)) as (Hn & Hr & -> & Hf). destruct (double_bits b ltac:(lia)) as (Hn' & Hr' & -> & Hf').
  assert (Z.log2 a <= Z.log2 b) as Hle by (apply Z.log2_le_mono; lia). set (n := Z.log2 a) in *. set (n' := Z.log2 b) in *.
  destruct (Z.eq_dec n n') as [-> | ?]; [| lia]. assert (0 < 2 ^ (52 - n')) by (apply Z.pow_pos_nonneg; lia). nia.
Qed.

Lemma double_range a : 0 < a < 2 ^ 53 -> 0 < double_of_int a < 1076 * 2 ^ 52.
Proof. intros Ha. destruct (double_bits a Ha) as (Hn & _ & -> & Hf). lia. Qed.

(** The place of an integer in the order of doubles. *)
Lemma real_key_int i : - 2 ^ 53 < i < 2 ^ 53 ->
  sqlite3IsNaN (double_of_int i) = false /\
  real_key (double_of_int i) = Z.sgn i * double_of_int (Z.abs i) /\ - (1076 * 2 ^ 52) < real_key (double_of_int i) < 1076 * 2 ^ 52.
Proof.
  intros Hi. unfold sqlite3IsNaN, real_key. destruct (Z.lt_trichotomy i 0) as [H | [-> | H]]; [| done |].
  - pose proof (double_opp (- i) ltac:(lia)) as Ho. rewrite Z.opp_involutive in Ho. rewrite Ho.
    pose proof (double_range (- i) ltac:(lia)) as Hr. rewrite Z.abs_neq, Z.sgn_neg by lia. set (r := double_of_int (- i)) in *. clearbody r.
    replace (2 ^ 63 + r) with (r + 1 * 2 ^ 63) by lia. rewrite Z.mod_add, Z.mod_small by lia.
    replace (_ <? r) with false by lia. replace (_ <? 2 ^ 63) with false by lia. lia.
  - pose proof (double_range i ltac:(lia)) as Hr. rewrite Z.abs_eq, Z.sgn_pos by lia. set (r := double_of_int i) in *. clearbody r.
    rewrite Z.mod_small by lia. replace (_ <? r) with false by lia. replace (_ <? 2 ^ 63) with true by lia. lia.
Qed.

Lemma int_of_double_pos a : 0 < a < 2 ^ 53 -> int_of_double (double_of_int a) = a.
Proof.
  intros Ha. pose proof (double_range a Ha) as Hr. destruct (double_bits a Ha) as (Hn & _ & Hb & Hf). unfold int_of_double.
  replace (_ <? 2 ^ 63) with true by lia. rewrite Hb. set (n := Z.log2 a) in *. set (f := a * 2 ^ (52 - n) - 2 ^ 52) in *.
  change (2 ^ 52 - 1) with (Z.ones 52). rewrite Z.land_ones by lia. rewrite Z.shiftr_div_pow2 by lia.
  replace ((n + 1023) * 2 ^ 52 + f) with (f + (n + 1023) * 2 ^ 52) by lia. rewrite Z.mod_add, Z.div_add by lia.
  rewrite Z.mod_small, Z.div_small by lia. change 0x7ff with (Z.ones 11). rewrite Z.land_ones, Z.mod_small by lia.
  replace (0 + (n + 1023) =? 0) with false by lia. destruct (Z.leb_spec 0 (0 + (n + 1023) - 1075)).
  - assert (n = 52) as E by lia. unfold f. rewrite E. rewrite Z.shiftl_mul_pow2 by lia. simpl. lia.
  - rewrite Z.shiftr_div_pow2 by lia. replace (- (0 + (n + 1023) - 1075)) with (52 - n) by lia. unfold f.
    replace (a * 2 ^ (52 - n) - 2 ^ 52 + 2 ^ 52) with (a * 2 ^ (52 - n)) by lia. apply Z.div_mul. apply Z.pow_nonzero; lia.
Qed.

Lemma int_of_double_int i : - 2 ^ 53 < i < 2 ^ 53 -> int_of_double (double_of_int i) = i.
Proof.
  intros Hi. destruct (Z.lt_trichotomy i 0) as [H | [-> | H]]; [| done | apply int_of_double_pos; lia].
  pose proof (int_of_double_pos (- i) ltac:(lia)) as Hp. pose proof (double_range (- i) ltac:(lia)) as Hr.
  pose proof (double_opp (- i) ltac:(lia)) as Ho. rewrite Z.opp_involutive in Ho. rewrite Ho. clear Ho.
  set (r := double_of_int (- i)) in *. clearbody r. unfold int_of_double in *. replace (r <? 2 ^ 63) with true in Hp by lia.
  replace (2 ^ 63 + r <? 2 ^ 63) with false by lia. change (2 ^ 52 - 1) with (Z.ones 52) in *. rewrite !Z.land_ones in * by lia.
  rewrite !Z.shiftr_div_pow2 in * by lia. change 0x7ff with (Z.ones 11) in *. rewrite !Z.land_ones in * by lia.
  replace (2 ^ 63 + r) with (r + (2 ^ 11) * 2 ^ 52) by lia. rewrite Z.mod_add, Z.div_add by lia.
  replace (r / 2 ^ 52 + 2 ^ 11) with (r / 2 ^ 52 + 1 * 2 ^ 11) by lia. rewrite Z.mod_add by lia.
  cbv zeta in *. lia.
Qed.

Lemma real_lt_int a b : - 2 ^ 53 < a < 2 ^ 53 -> - 2 ^ 53 < b < 2 ^ 53 -> real_lt (double_of_int a) (double_of_int b) = (a <? b).
Proof.
  intros Ha Hb. unfold real_lt. destruct (real_key_int a Ha) as (-> & -> & _). destruct (real_key_int b Hb) as (-> & -> & _). cbn [negb andb].
  assert (forall c, - 2 ^ 53 < c < 2 ^ 53 -> c <> 0 -> 0 < double_of_int (Z.abs c)) as Hpos by (intros; apply double_range; lia).
  assert (forall c d, 0 < c -> 0 < d -> c < 2 ^ 53 -> d < 2 ^ 53 -> (double_of_int c <? double_of_int d) = (c <? d)) as Hinc.
  { intros c d Hc Hd Hc' Hd'. destruct (Z.lt_trichotomy c d) as [H | [-> | H]].
    - pose proof (double_increasing c d ltac:(lia) Hd'). lia.
    - by rewrite !Z.ltb_irrefl.
    - pose proof (double_increasing d c ltac:(lia) Hc'). lia. }
  destruct (Z.lt_trichotomy a 0) as [Ea | [-> | Ea]], (Z.lt_trichotomy b 0) as [Eb | [-> | Eb]];
    rewrite ?(Z.sgn_neg _ Ea), ?(Z.sgn_pos _ Ea), ?(Z.sgn_neg _ Eb), ?(Z.sgn_pos _ Eb); cbn [Z.sgn];
    try pose proof (Hpos a Ha ltac:(lia)); try pose proof (Hpos b Hb ltac:(lia)); try lia.
  - pose proof (Hinc (Z.abs b) (Z.abs a) ltac:(lia) ltac:(lia) ltac:(lia) ltac:(lia)). lia.
  - pose proof (Hinc (Z.abs a) (Z.abs b) ltac:(lia) ltac:(lia) ltac:(lia) ltac:(lia)). lia.
Qed.

Lemma key_of_bounds : real_key (double_of_int minInt) = - (1086 * 2 ^ 52) /\ sqlite3IsNaN (double_of_int minInt) = false /\
  real_key (double_of_int maxInt) = 1086 * 2 ^ 52 /\ sqlite3IsNaN (double_of_int maxInt) = false.
Proof. by vm_compute. Qed.

Lemma doubleToInt64_int i : - 2 ^ 53 < i < 2 ^ 53 -> doubleToInt64 (double_of_int i) = i.
Proof.
  intros Hi. destruct (real_key_int i Hi) as (Hn & _ & Hk). destruct key_of_bounds as (K1 & K2 & K3 & K4).
  unfold doubleToInt64, real_le. rewrite Hn, K1, K2, K3, K4. cbn [negb andb].
  replace (_ <=? - _) with false by lia. replace (_ <=? real_key _) with false by lia. by apply int_of_double_int.
Qed.

Lemma int_of_double_bound r : 0 <= r < 2 ^ 64 -> - (1086 * 2 ^ 52) < real_key r < 1086 * 2 ^ 52 -> minInt < int_of_double r < maxInt + 1.
Proof.
  unfold real_key, int_of_double, minInt, maxInt. intros Hr Hk. change (2 ^ 52 - 1) with (Z.ones 52). change 0x7ff with (Z.ones 11).
  rewrite !Z.land_ones, Z.shiftr_div_pow2 by lia. pose proof (Z.mod_pos_bound r (2 ^ 52) ltac:(lia)) as Hf. set (f := r mod 2 ^ 52) in *.
  assert (0 <= (r / 2 ^ 52) mod 2 ^ 11 <= 1085) as He.
  { destruct (Z.ltb_spec r (2 ^ 63)).
    - assert (r / 2 ^ 52 < 1086) by (apply Z.div_lt_upper_bound; lia). pose proof (Z.div_pos r (2 ^ 52) ltac:(lia) ltac:(lia)).
      rewrite Z.mod_small by lia. lia.
    - replace r with ((r - 2 ^ 63) + (2 ^ 11) * 2 ^ 52) by lia. rewrite Z.div_add by lia.
      replace ((r - 2 ^ 63) / 2 ^ 52 + 2 ^ 11) with ((r - 2 ^ 63) / 2 ^ 52 + 1 * 2 ^ 11) by lia. rewrite Z.mod_add by lia.
      assert ((r - 2 ^ 63) / 2 ^ 52 < 1086) by (apply Z.div_lt_upper_bound; lia).
      pose proof (Z.div_pos (r - 2 ^ 63) (2 ^ 52) ltac:(lia) ltac:(lia)). rewrite Z.mod_small by lia. lia. }
  set (e := (r / 2 ^ 52) mod 2 ^ 11) in *. clearbody e f. cbv zeta.
  set (m := if e =? 0 then f else f + 2 ^ 52). assert (0 <= m < 2 ^ 53) as Hm by (unfold m; destruct (e =? 0); lia). clearbody m.
  set (s := (if e =? 0 then 1 else e) - 1075). assert (s <= 10) as Hs by (unfold s; destruct (e =? 0); lia). clearbody s.
  assert (0 <= (if 0 <=? s then Z.shiftl m s else Z.shiftr m (- s)) < 2 ^ 63) as Ha.
  { destruct (Z.leb_spec 0 s).
    - rewrite Z.shiftl_mul_pow2 by lia. assert (0 < 2 ^ s <= 2 ^ 10) by (split; [apply Z.pow_pos_nonneg | apply Z.pow_le_mono_r]; lia). nia.
    - rewrite Z.shiftr_div_pow2 by lia. assert (0 < 2 ^ (- s)) by (apply Z.pow_pos_nonneg; lia).
      split; [apply Z.div_pos; lia |]. apply Z.div_lt_upper_bound; [lia | nia]. }
  destruct (r <? 2 ^ 63); lia.
Qed.

(** Doubles and 64-bit integers.  A double that is not a NaN becomes an integer in range, and
    the nearest one there is when it is out of range.  The INTEGER affinity makes an
    integer of a double only when nothing is lost, and does not change what is
    read as an integer.  Between -2^53 and 2^53 every integer is a double, the order is
    the same, and the affinity gives the integer back. *)
Theorem IntegerAffinity_spec (r i j : Z) :
  0 <= r < 2 ^ 64 -> sqlite3IsNaN r = false -> - 2 ^ 53 < i < 2 ^ 53 -> - 2 ^ 53 < j < 2 ^ 53 ->
  minInt <= doubleToInt64 r <= maxInt /\
  (real_key r <= real_key (double_of_int minInt) -> doubleToInt64 r = minInt) /\
  (real_key (double_of_int maxInt) <= real_key r -> doubleToInt64 r = maxInt) /\
  (exists m, sqlite3VdbeIntegerAffinity (Real r) = Some m /\ sqlite3VdbeIntValue m = sqlite3VdbeIntValue (Real r) /\
     (m = Real r \/ exists ix, m = Int ix /\ minInt < ix < maxInt /\ real_key (double_of_int ix) = real_key r)) /\
  real_lt (double_of_int i) (double_of_int j) = (i <? j) /\
  sqlite3VdbeIntegerAffinity (Real (double_of_int i)) = Some (Int i).
Proof.
  intros Hr Hn Hi Hj. destruct key_of_bounds as (K1 & K2 & K3 & K4).
  assert (minInt < maxInt) as Hmm by done.
  assert (doubleToInt64 r = if real_key r <=? - (1086 * 2 ^ 52) then minInt else if 1086 * 2 ^ 52 <=? real_key r then maxInt
    else int_of_double r) as Hd by (unfold doubleToInt64, real_le; by rewrite Hn, K1, K2, K3, K4).
  split; [| split_and!].
  - rewrite Hd. destruct (Z.leb_spec (real_key r) (- (1086 * 2 ^ 52))); [lia |]. destruct (Z.leb_spec (1086 * 2 ^ 52) (real_key r)); [lia |].
    pose proof (int_of_double_bound r Hr ltac:(lia)). lia.
  - rewrite Hd, K1. intros H. by replace (_ <=? - _) with true by lia.
  - rewrite Hd, K3. intros H. replace (_ <=? - _) with false by lia. by replace (_ <=? real_key r) with true by lia.
  - eexists. split; [done |]. cbv zeta. case_if; [| by split; [| left]]. bool_to_prop. split; [done |]. right. eexists. split_and!; [done | lia | lia | lia].
  - by apply real_lt_int.
  - cbn [sqlite3VdbeIntegerAffinity]. rewrite doubleToInt64_int by done. destruct (real_key_int i Hi) as (-> & _). rewrite Z.eqb_refl. cbn [negb andb].
    unfold minInt, maxInt in *. replace (_ <? i) with true by lia. by replace (i <? _) with true by lia.
Qed.

Lemma IntegerAffinity_spec_witness :
  doubleToInt64 0x43f0000000000000 = maxInt /\ sqlite3VdbeIntegerAffinity (Real (double_of_int (-7))) = Some (Int (-7)).
Proof.
  destruct (IntegerAffinity_spec 0x43f0000000000000 (-7) 0 ltac:(lia) ltac:(vm_compute; reflexivity) ltac:(lia) ltac:(lia))
    as (_ & _ & H1 & _ & _ & H2).
  split; [apply H1; vm_compute; discriminate | exact H2].
Defined.

(** Half a number is cut off towards zero, and [0.5] is no integer. *)
Example cut_off : doubleToInt64 0xc004000000000000 = -2 /\ sqlite3VdbeIntegerAffinity (Real 0x3fe0000000000000) = Some (Real 0x3fe0000000000000).
Proof. by vm_compute. Qed.
