(* ===== verification/SqRecord.v ===== *)
(** The order of SQLite's records ([src/src/cache/sqlite3.c], part vdbeaux.c): the
    comparison of a record with an unpacked key, its two faster versions and the choice
    between them, against the comparison of values field by field.

    [None] is a read behind the end of a buffer or an array.  A comparison gives its
    result and whether it found the record to be corrupt. *)

From S2P Require Import Prelude BitReflect SqVarint SqSerial SqReals.

#[local] Open Scope Z_scope.

(** ** Comparing two values *)

(** The sign of a comparison, as [-1], [0] or [1]. *)
Definition three_way (lt gt : bool) : Z := if lt then -1 else if gt then 1 else 0.

Fixpoint memcmp (a b : list Z) (n : nat) : Z :=
  match n, a, b with
  | S n, x :: a, y :: b => if x =? y then memcmp a b n else three_way (x <? y) true
  | _, _, _ => 0
  end.

Definition sqlite3BlobCompare (z1 z2 : list Z) : Z :=
  let c := memcmp z1 z2 (Nat.min (length z1) (length z2)) in
  if negb (c =? 0) then c else Zlen z1 - Zlen z2.

(** [xCmp] of a collating sequence in the encoding of the strings. *)
Abbreviation CollSeq := (list Z -> list Z -> Z).

Definition sqlite3MemCompare (pMem1 pMem2 : Mem) (pColl : option CollSeq) : Z :=
  match pMem1, pMem2 with
  | Null, Null => 0
  | Null, _ => -1
  | _, Null => 1
  | Int i1, Int i2 => three_way (i1 <? i2) (i2 <? i1)
  | Int i1, Real r2 => three_way (real_lt (double_of_int i1) r2) (real_lt r2 (double_of_int i1))
  | Real r1, Int i2 => three_way (real_lt r1 (double_of_int i2)) (real_lt (double_of_int i2) r1)
  | Real r1, Real r2 => three_way (real_lt r1 r2) (real_lt r2 r1)
  | (Int _ | Real _), _ => -1
  | _, (Int _ | Real _) => 1
  | Str z1, Str z2 => match pColl with Some xCmp => xCmp z1 z2 | None => sqlite3BlobCompare z1 z2 end
  | Str _, Blob _ _ => -1
  | Blob _ _, Str _ => 1
  | Blob z1 _, Blob z2 _ => sqlite3BlobCompare z1 z2
  end.

(** ** Comparing a record with a key *)

Record KeyInfo := { aSortOrder : list bool; aColl : list (option CollSeq); nField : nat; nXField : nat }.

(** [aMem] has the [nField] values of the key. *)
Record UnpackedRecord := { pKeyInfo : KeyInfo; aMem : list Mem; default_rc : Z; r1 : Z; r2 : Z }.

Definition vdbeRecordDecodeInt (serial_type : Z) (aKey : list Z) : option Z :=
  if (serial_type =? 0) || (serial_type =? 1) then ONE_BYTE_INT aKey
  else if serial_type =? 2 then TWO_BYTE_INT aKey
  else if serial_type =? 3 then THREE_BYTE_INT aKey
  else if serial_type =? 4 then y ← FOUR_BYTE_UINT aKey; Some (i32 y)
  else if serial_type =? 5 then SIX_BYTE_INT aKey
  else if serial_type =? 6 then
    x ← FOUR_BYTE_UINT aKey; y ← FOUR_BYTE_UINT (drop 4 aKey); Some (i64 (Z.lor (u64 (Z.shiftl x 32)) y))
  else Some (serial_type - 8).

Definition byte_at (aKey : list Z) (i : Z) : option Z := aKey !! Z.to_nat i.

(** One field: what the loop finds, with the serial type it goes on with. *)
Inductive compared := Corrupt | Rc (rc serial_type : Z).

Definition compare_field (aKey1 : list Z) (idx1 d1 : Z) (pRhs : Mem) (pColl : option CollSeq) : option compared :=
  match pRhs with
  | Int rhs =>
      serial_type ← byte_at aKey1 idx1;
      rc ←
        (if 12 <=? serial_type then Some 1
         else if serial_type =? 0 then Some (-1)
         else if serial_type =? 7 then
           lhs ← eight_bytes (Zdrop d1 aKey1);
           Some (three_way (real_lt lhs (double_of_int rhs)) (real_lt (double_of_int rhs) lhs))
         else
           lhs ← vdbeRecordDecodeInt serial_type (Zdrop d1 aKey1); Some (three_way (lhs <? rhs) (rhs <? lhs)));
      Some (Rc rc serial_type)
  | Real rhs =>
      serial_type ← byte_at aKey1 idx1;
      rc ←
        (if 12 <=? serial_type then Some 1
         else if serial_type =? 0 then Some (-1)
         else
           lhs ←
             (if serial_type =? 7 then eight_bytes (Zdrop d1 aKey1)
              else
                '(_, mem1) ← sqlite3VdbeSerialGet (Zdrop d1 aKey1) serial_type;
                match mem1 with Int i => Some (double_of_int i) | _ => None end);
           Some (three_way (real_lt lhs rhs) (real_lt rhs lhs)));
      Some (Rc rc serial_type)
  | Str z =>
      '(_, serial_type) ← getVarint32 (Zdrop idx1 aKey1);
      if serial_type <? 12 then Some (Rc (-1) serial_type)
      else if negb (Z.odd serial_type) then Some (Rc 1 serial_type)
      else
        let n := (serial_type - 12) / 2 in
        if Zlen aKey1 <? d1 + n then Some Corrupt
        else
          let z1 := take (Z.to_nat n) (Zdrop d1 aKey1) in
          Some (Rc (match pColl with Some xCmp => xCmp z1 z | None => sqlite3BlobCompare z1 z end) serial_type)
  | Blob z _ =>
      '(_, serial_type) ← getVarint32 (Zdrop idx1 aKey1);
      if (serial_type <? 12) || Z.odd serial_type then Some (Rc (-1) serial_type)
      else
        let nStr := (serial_type - 12) / 2 in
        if Zlen aKey1 <? d1 + nStr then Some Corrupt
        else Some (Rc (sqlite3BlobCompare (take (Z.to_nat nStr) (Zdrop d1 aKey1)) z) serial_type)
  | Null => serial_type ← byte_at aKey1 idx1; Some (Rc (if serial_type =? 0 then 0 else 1) serial_type)
  end.

(** The loop, from field [i] on, which is the first of [pRhs]. *)
Fixpoint compare_loop (pKeyInfo : KeyInfo) (default_rc : Z) (aKey1 : list Z) (szHdr1 idx1 d1 : Z) (i : nat) (pRhs : list Mem)
    : option (Z * bool) :=
  match pRhs with
  | [] => None
  | m :: pRhs =>
      pColl ← aColl pKeyInfo !! i;
      c ← compare_field aKey1 idx1 d1 m pColl;
      match c with
      | Corrupt => Some (0, true)
      | Rc rc serial_type =>
          if negb (rc =? 0) then
            desc ← aSortOrder pKeyInfo !! i; Some (if desc : bool then - rc else rc, false)
          else
            let d1 := d1 + sqlite3VdbeSerialTypeLen serial_type in
            let idx1 := idx1 + sqlite3VarintLen serial_type in
            if (idx1 <? szHdr1) && match pRhs with [] => false | _ => true end && (d1 <=? Zlen aKey1)
            then compare_loop pKeyInfo default_rc aKey1 szHdr1 idx1 d1 (S i) pRhs
            else Some (default_rc, false)
      end
  end.

Definition sqlite3VdbeRecordCompareWithSkip (aKey1 : list Z) (pPKey2 : UnpackedRecord) (bSkip : bool) : option (Z * bool) :=
  let loop := compare_loop (pKeyInfo pPKey2) (default_rc pPKey2) aKey1 in
  if bSkip then
    '(n, s1) ← getVarint32 (Zdrop 1 aKey1);
    szHdr1 ← byte_at aKey1 0;
    loop szHdr1 (1 + n) (szHdr1 + sqlite3VdbeSerialTypeLen s1) 1%nat (tail (aMem pPKey2))
  else
    '(idx1, szHdr1) ← getVarint32 aKey1;
    if Zlen aKey1 <? szHdr1 then Some (0, true) else loop szHdr1 idx1 szHdr1 0%nat (aMem pPKey2).

Definition sqlite3VdbeRecordCompare (aKey1 : list Z) (pPKey2 : UnpackedRecord) : option (Z * bool) :=
  sqlite3VdbeRecordCompareWithSkip aKey1 pPKey2 false.

(** The first fields are equal. *)
Definition compare_rest (aKey1 : list Z) (pPKey2 : UnpackedRecord) : option (Z * bool) :=
  match aMem pPKey2 with
  | _ :: _ :: _ => sqlite3VdbeRecordCompareWithSkip aKey1 pPKey2 true
  | _ => Some (default_rc pPKey2, false)
  end.

(** [v] is the first value of the key. *)
Definition vdbeRecordCompareInt (aKey1 : list Z) (pPKey2 : UnpackedRecord) (v : Z) : option (Z * bool) :=
  b ← byte_at aKey1 0;
  let aKey := Zdrop (Z.land b 0x3f) aKey1 in
  serial_type ← byte_at aKey1 1;
  if (1 <=? serial_type) && (serial_type <=? 9) && negb (serial_type =? 7) then
    lhs ← (if serial_type =? 8 then Some 0 else if serial_type =? 9 then Some 1 else vdbeRecordDecodeInt serial_type aKey);
    if lhs <? v then Some (r1 pPKey2, false)
    else if v <? lhs then Some (r2 pPKey2, false)
    else compare_rest aKey1 pPKey2
  else sqlite3VdbeRecordCompare aKey1 pPKey2.

(** [z] is the first value of the key. *)
Definition vdbeRecordCompareString (aKey1 : list Z) (pPKey2 : UnpackedRecord) (z : list Z) : option (Z * bool) :=
  '(_, serial_type) ← getVarint32 (Zdrop 1 aKey1);
  if serial_type <? 12 then Some (r1 pPKey2, false)
  else if negb (Z.odd serial_type) then Some (r2 pPKey2, false)
  else
    szHdr ← byte_at aKey1 0;
    let nStr := (serial_type - 12) / 2 in
    if Zlen aKey1 <? szHdr + nStr then Some (0, true)
    else
      let z1 := take (Z.to_nat nStr) (Zdrop szHdr aKey1) in
      let c := memcmp z1 z (Nat.min (length z) (Z.to_nat nStr)) in
      let res := if c =? 0 then nStr - Zlen z else c in
      if 0 <? res then Some (r2 pPKey2, false)
      else if res <? 0 then Some (r1 pPKey2, false)
      else compare_rest aKey1 pPKey2.

(** The function that [sqlite3VdbeFindCompare] returns. *)
Inductive RecordCompare := Compare_int (v : Z) | Compare_string (z : list Z) | Compare_any.

Definition sqlite3VdbeFindCompare (p : UnpackedRecord) : option (UnpackedRecord * RecordCompare) :=
  if (nField (pKeyInfo p) + nXField (pKeyInfo p) <=? 13)%nat then
    m ← head (aMem p);
    desc ← head (aSortOrder (pKeyInfo p));
    let p := {| pKeyInfo := pKeyInfo p; aMem := aMem p; default_rc := default_rc p;
                r1 := if desc : bool then 1 else -1; r2 := if desc : bool then -1 else 1 |} in
    match m with
    | Int v => Some (p, Compare_int v)
    | Str z => coll ← head (aColl (pKeyInfo p)); Some (p, match coll with None => Compare_string z | Some _ => Compare_any end)
    | _ => Some (p, Compare_any)
    end
  else Some (p, Compare_any).

Definition run_compare (aKey1 : list Z) (f : UnpackedRecord * RecordCompare) : option (Z * bool) :=
  match f.2 with
  | Compare_int v => vdbeRecordCompareInt aKey1 f.1 v
  | Compare_string z => vdbeRecordCompareString aKey1 f.1 z
  | Compare_any => sqlite3VdbeRecordCompare aKey1 f.1
  end.

(** ** Reference: the fields in order, by [sqlite3MemCompare] *)

Fixpoint compare_values (k : KeyInfo) (default_rc : Z) (i : nat) (ls rs : list Mem) : Z :=
  match ls, rs with
  | l :: ls, r :: rs =>
      let c := sqlite3MemCompare l r (default None (aColl k !! i)) in
      if c =? 0 then compare_values k default_rc (S i) ls rs
      else if default false (aSortOrder k !! i) then - c else c
  | _, _ => default_rc
  end.

(** ** Where the fields are *)

Record located (ff : Z) (aKey : list Z) (szHdr idx d : Z) (ls : list Mem) : Prop := {
  loc_types : exists X, bytes_ok X /\ Zdrop idx aKey = type_bytes ff ls ++ X;
  loc_data : Zdrop d aKey = contents ff ls;
  loc_idx : 0 <= idx /\ szHdr = idx + Zlen (type_bytes ff ls);
  loc_d : 0 <= d /\ Zlen aKey = d + Zlen (contents ff ls)
}.

Lemma Zdrop_add i a b l : 0 <= i -> Zdrop i l = a ++ b -> Zdrop (i + Zlen a) l = b.
Proof.
  intros Hi H. unfold Zdrop in *. pose proof (Zlen_nonneg a). rewrite Z2Nat.inj_add, <-drop_drop, H by done.
  unfold Zlen. by rewrite Nat2Z.id, drop_app_length.
Qed.

Lemma VarintLen_put t : 0 <= t < 2 ^ 32 -> sqlite3VarintLen t = Zlen (putVarint32 t).
Proof.
  intros Ht. destruct (putVarint32_read t [] Ht ltac:(constructor)) as (_ & _ & -> & _). case_if; [| done].
  destruct (Z.eq_dec t 0) as [-> | ?]; [done |]. apply (VarintLen_range t 1); simpl; lia.
Qed.

Lemma located_tail ff aKey szHdr idx d m ls : mem_ok m -> Forall mem_ok ls -> located ff aKey szHdr idx d (m :: ls) ->
  let t := sqlite3VdbeSerialType m ff in
  located ff aKey szHdr (idx + sqlite3VarintLen t) (d + sqlite3VdbeSerialTypeLen t) ls.
Proof.
  intros Hm Hls [(X & HX & Hty) Hda [Hi Hsz] [Hd Hlen]] t. destruct (mem_reads_back ff m Hm) as (Ht & Hc & Hl & _). fold t in Ht, Hl.
  rewrite VarintLen_put by done. rewrite <-Hl. rewrite type_bytes_cons in *. rewrite contents_cons in *. fold t in Hty, Hsz.
  rewrite Zlen_app in *. pose proof (Zlen_nonneg (putVarint32 t)). pose proof (Zlen_nonneg (content ff m)). split; try lia.
  - exists X. split; [done |]. rewrite <-app_assoc in Hty. by apply Zdrop_add.
  - by apply Zdrop_add.
Qed.

(** The first byte of a serial type is the type, or shows that it is large. *)
Lemma type_byte aKey idx t X : 0 <= t < 2 ^ 32 -> bytes_ok X -> Zdrop idx aKey = putVarint32 t ++ X ->
  exists b, byte_at aKey idx = Some b /\ (t < 128 -> b = t) /\ (128 <= t -> 128 <= b).
Proof.
  intros Ht HX Hd. destruct (putVarint32_read t X Ht HX) as (Hb & Hl & _ & Hg).
  destruct (putVarint32 t) as [|b bs] eqn:E; [done |]. exists b. split_and!.
  - unfold byte_at. rewrite <-(Nat.add_0_r (Z.to_nat idx)), <-lookup_drop. unfold Zdrop in Hd. by rewrite Hd.
  - intros H. unfold putVarint32 in E. replace (t <? 0x80) with true in E by lia. congruence.
  - intros H. cbn [app getVarint32] in Hg. destruct (Z.ltb_spec b 0x80); [| lia]. injection Hg as _ ->. lia.
Qed.

(** ** One field *)

Definition not_nan (m : Mem) : Prop := match m with Real r => sqlite3IsNaN r = false | _ => True end.

(** The values of a key: blobs are expanded. *)
Definition key_ok (m : Mem) : Prop := mem_ok m /\ not_nan m /\ match m with Blob _ n => n = O | _ => True end.

Lemma DecodeInt_spec ff i rest : mem_ok (Int i) -> bytes_ok rest ->
  let t := sqlite3VdbeSerialType (Int i) ff in
  1 <= t <= 9 /\ t <> 7 /\ vdbeRecordDecodeInt t (content ff (Int i) ++ rest) = Some i /\
  (t = 8 -> i = 0) /\ (t = 9 -> i = 1).
Proof.
  intros Hi Hrest t. destruct (mem_reads_back ff (Int i) Hi) as (_ & Hc & _ & Hget). specialize (Hget rest). fold t in Hget.
  assert (1 <= t <= 9 /\ t <> 7 /\ (t = 8 -> i = 0) /\ (t = 9 -> i = 1)) as (H1 & H2 & H3 & H4).
  { unfold t. rewrite SerialType_int by exact Hi. repeat case_if; lia. }
  split_and!; try done; try lia. assert (bytes_ok (content ff (Int i) ++ rest)) as Hb by (by apply Forall_app).
  cbn [stored] in Hget. set (buf := content ff (Int i) ++ rest) in *. clearbody buf t.
  assert (t = 1 \/ t = 2 \/ t = 3 \/ t = 4 \/ t = 5 \/ t = 6 \/ t = 8 \/ t = 9) as Ht by lia.
  destruct Ht as [-> | [-> | [-> | [-> | [-> | [-> | [-> | ->]]]]]]]; unfold sqlite3VdbeSerialGet, serialGet in Hget;
    cbn [Z.eqb Pos.eqb orb] in Hget; unfold vdbeRecordDecodeInt; cbn [Z.eqb Pos.eqb orb].
  - destruct (ONE_BYTE_INT buf); by simplify_eq/=.
  - destruct (TWO_BYTE_INT buf); by simplify_eq/=.
  - destruct (THREE_BYTE_INT buf); by simplify_eq/=.
  - destruct buf as [|x0 [|x1 [|x2 [|x3 buf]]]]; try done. cut_bytes. rewrite FOUR_BYTE_value in Hget by done.
    rewrite FOUR_BYTE_UINT_value by done. by simplify_eq/=.
  - destruct (SIX_BYTE_INT buf); by simplify_eq/=.
  - unfold eight_bytes in Hget. destruct (FOUR_BYTE_UINT buf) as [x|] eqn:Ex; [| done]. simpl in Hget |- *.
    destruct (FOUR_BYTE_UINT (drop 4 buf)) as [y|] eqn:Ey; [| done]. simpl in Hget |- *. injection Hget as <-. do 2 f_equal.
    assert (forall l v, bytes_ok l -> FOUR_BYTE_UINT l = Some v -> 0 <= v < 2 ^ 32) as Hu.
    { intros l v Hl. destruct l as [|x0 [|x1 [|x2 [|x3 l]]]]; try done. 
      assert (bytes_ok [x0; x1; x2; x3]) as Hl4 by (cut_bytes; solve_bytes). pose proof (be_range _ Hl4). cut_bytes.
      rewrite FOUR_BYTE_UINT_value by done. intros [= <-]. done. }
    pose proof (Hu _ _ Hb Ex). pose proof (Hu _ _ (Forall_drop _ _ _ Hb) Ey).
    rewrite Z.shiftl_mul_pow2 by lia. rewrite (wrap_small 64 (x * 2 ^ 32)) by lia. rewrite wrap_small by lia.
    rewrite Z.mul_comm. rewrite lor_add by lia. done.
  - injection Hget as <-. done.
  - injection Hget as <-. done.
Qed.

Lemma eight_bytes_back ff r rest : mem_ok (Real r) -> not_nan (Real r) -> eight_bytes (content ff (Real r) ++ rest) = Some r.
Proof.
  intros Hr Hn. destruct (mem_reads_back ff (Real r) Hr) as (_ & _ & _ & Hget). specialize (Hget rest). cbn in Hn.
  cbn [stored] in Hget. rewrite Hn in Hget. unfold sqlite3VdbeSerialGet, serialGet in Hget. cbn [sqlite3VdbeSerialType Z.eqb Pos.eqb orb] in Hget.
  destruct (eight_bytes _) as [x|]; [| done]. simpl in Hget. destruct (sqlite3IsNaN x); by simplify_eq/=.
Qed.

(** Which types a value can have. *)
Lemma type_kind ff m : mem_ok m -> let t := sqlite3VdbeSerialType m ff in
  match m with
  | Null => t = 0
  | Int _ => 1 <= t <= 9 /\ t <> 7
  | Real _ => t = 7
  | Str z => 12 <= t /\ (t - 12) / 2 = Zlen z /\ Z.odd t = true
  | Blob z n => 12 <= t /\ (t - 12) / 2 = Zlen (z ++ replicate n 0) /\ Z.odd t = false
  end.
Proof.
  intros Hm t. subst t. destruct m as [| i | r | z | z n]; [done | | done | |].
  - destruct (DecodeInt_spec ff i [] Hm ltac:(constructor)) as (H1 & H2 & _). done.
  - destruct Hm as [_ Hl]. pose proof (Zlen_nonneg z). cbn [sqlite3VdbeSerialType].
    destruct (long_type (Zlen z) 1 ltac:(lia) ltac:(lia)) as (Ht & Hlen & Hodd). cbv zeta in *.
    unfold sqlite3VdbeSerialTypeLen in Hlen. replace (12 <=? _) with true in Hlen by lia. split_and!; [lia | done | done].
  - destruct Hm as [_ Hl]. pose proof (Zlen_nonneg z). cbn [sqlite3VdbeSerialType].
    destruct (long_type (Zlen z + Z.of_nat n) 0 ltac:(lia) ltac:(lia)) as (Ht & Hlen & Hodd). cbv zeta in *. rewrite Z.add_0_r in *.
    unfold sqlite3VdbeSerialTypeLen in Hlen. replace (12 <=? _) with true in Hlen by lia.
    split_and!; [lia | | done]. rewrite Hlen, Zlen_app. unfold Zlen at 3. by rewrite length_replicate.
Qed.

Lemma take_content (z X : list Z) : take (Z.to_nat (Zlen z)) (z ++ X) = z.
Proof. unfold Zlen. by rewrite Nat2Z.id, take_app_length. Qed.

Lemma content_text ff z : mem_ok (Str z) -> content ff (Str z) = z.
Proof.
  intros Hm. destruct (type_kind ff _ Hm) as (Ht & _). unfold content. cbn [zeros]. rewrite app_nil_r. unfold sqlite3VdbeSerialPut.
  replace (_ <=? 7) with false by lia. by replace (12 <=? _) with true by lia.
Qed.

Lemma content_blob ff z n : mem_ok (Blob z n) -> content ff (Blob z n) = z ++ replicate n 0.
Proof. intros Hm. unfold content. by rewrite Put_blob. Qed.

Section Field.
Context (ff : Z) (aKey : list Z) (szHdr idx d : Z) (m : Mem) (ls : list Mem).
Context (Hm : mem_ok m) (Hn : not_nan m) (Hls : Forall mem_ok ls) (Hloc : located ff aKey szHdr idx d (m :: ls)).

Lemma field_data : Zdrop d aKey = content ff m ++ contents ff ls /\ bytes_ok (contents ff ls) /\ d + Zlen (content ff m) <= Zlen aKey.
Proof using Hls Hloc.
  destruct Hloc as [_ Hda _ [_ Hlen]]. rewrite contents_cons in *. rewrite Zlen_app in Hlen. pose proof (Zlen_nonneg (contents ff ls)).
  split_and!; [done | by apply type_bytes_ok | lia].
Qed.

Lemma field_byte : exists b, byte_at aKey idx = Some b /\
  (sqlite3VdbeSerialType m ff < 128 -> b = sqlite3VdbeSerialType m ff) /\ (128 <= sqlite3VdbeSerialType m ff -> 128 <= b).
Proof using Hm Hls Hloc.
  destruct Hloc as [(X & HX & Hty) _ _ _]. rewrite type_bytes_cons, <-app_assoc in Hty. destruct (mem_reads_back ff m Hm) as (Ht & _).
  eapply type_byte; [exact Ht | | exact Hty]. apply Forall_app. split; [by apply type_bytes_ok | done].
Qed.

Lemma field_varint : exists n, getVarint32 (Zdrop idx aKey) = Some (n, sqlite3VdbeSerialType m ff).
Proof using Hm Hls Hloc.
  destruct Hloc as [(X & HX & Hty) _ _ _]. rewrite type_bytes_cons, <-app_assoc in Hty. destruct (mem_reads_back ff m Hm) as (Ht & _).
  rewrite Hty. eexists. apply putVarint32_read; [done |]. apply Forall_app. split; [by apply type_bytes_ok | done].
Qed.

Lemma compare_field_spec pRhs pColl : key_ok pRhs ->
  exists t, compare_field aKey idx d pRhs pColl = Some (Rc (sqlite3MemCompare (stored m) pRhs pColl) t) /\
    (sqlite3MemCompare (stored m) pRhs pColl = 0 -> t = sqlite3VdbeSerialType m ff).
Proof using Hm Hn Hls Hloc.
  intros (Hr & Hrn & Hz). pose proof (type_kind ff m Hm) as Hk. cbv zeta in Hk.
  destruct field_data as (Hd & Hrest & Hlen). destruct field_byte as (b & Hb & Hb1 & Hb2). destruct field_varint as (n & Hv).
  assert (match m with Str _ | Blob _ _ => True | _ => b = sqlite3VdbeSerialType m ff end) as Hsmall
    by (destruct m; try done; apply Hb1; lia).
  assert (match m with Str _ | Blob _ _ => 12 <= b | _ => True end) as Hlarge
    by (destruct m; try done; destruct (Z.ltb_spec (sqlite3VdbeSerialType m ff) 128); lia).
  destruct pRhs as [| i2 | q2 | z2 | z2 n2]; cbn [compare_field]; rewrite ?Hb, ?Hv; cbn [mbind option_bind].
  - (* NULL *)
    exists b. destruct m as [| i | q | z | z k]; cbn [stored] in *; try rewrite Hn; cbn [sqlite3MemCompare];
      [rewrite Hsmall, Hk; done | | | |]; (destruct (Z.eqb_spec b 0); [lia |]; split; [done | discriminate]).
  - (* an integer *)
    exists b. destruct m as [| i | q | z | z k]; cbn [stored] in *; try rewrite Hn; cbn [sqlite3MemCompare];
      rewrite ?Hsmall, ?Hk in *; try done.
    + destruct (DecodeInt_spec ff i (contents ff ls) Hm Hrest) as (Ht & Ht7 & Hdec & _). rewrite Hd, Hdec.
      replace (12 <=? _) with false by lia. repeat (match goal with |- context [sqlite3VdbeSerialType (Int i) ff =? ?x] =>
        replace (sqlite3VdbeSerialType (Int i) ff =? x) with false by lia end). done.
    + cbn [Z.leb Z.eqb Z.compare Pos.compare Pos.compare_cont Pos.eqb]. rewrite Hd, eight_bytes_back by done. done.
    + replace (12 <=? b) with true by lia. done.
    + replace (12 <=? b) with true by lia. done.
  - (* a double *)
    exists b. destruct m as [| i | q | z | z k]; cbn [stored] in *; try rewrite Hn; cbn [sqlite3MemCompare];
      rewrite ?Hsmall, ?Hk in *; try done.
    + destruct (mem_reads_back ff (Int i) Hm) as (_ & _ & _ & Hget). rewrite Hd, Hget. cbn [mbind option_bind stored].
      replace (12 <=? _) with false by lia. repeat (match goal with |- context [sqlite3VdbeSerialType (Int i) ff =? ?x] =>
        replace (sqlite3VdbeSerialType (Int i) ff =? x) with false by lia end). done.
    + cbn [Z.leb Z.eqb Z.compare Pos.compare Pos.compare_cont Pos.eqb]. rewrite Hd, eight_bytes_back by done. done.
    + replace (12 <=? b) with true by lia. done.
    + replace (12 <=? b) with true by lia. done.
  - (* a text *)
    eexists. destruct m as [| i | q | z | z k]; cbn [stored] in *; try rewrite Hn; cbn [sqlite3MemCompare].
    1-3: replace (_ <? 12) with true by lia; done.
    + destruct Hk as (H12 & Hl & Hodd). replace (_ <? 12) with false by lia. rewrite Hodd, Hl, content_text in * by done. cbn [negb].
      replace (_ <? _) with false by lia. rewrite Hd, take_content. done.
    + destruct Hk as (H12 & Hl & Hodd). replace (_ <? 12) with false by lia. rewrite Hodd. done.
  - (* a blob *)
    eexists. destruct m as [| i | q | z | z k]; cbn [stored] in *; try rewrite Hn; cbn [sqlite3MemCompare].
    1-3: replace (_ <? 12) with true by lia; done.
    + destruct Hk as (H12 & Hl & Hodd). rewrite Hodd, orb_true_r. done.
    + destruct Hk as (H12 & Hl & Hodd). replace (_ <? 12) with false by lia. rewrite Hodd, Hl, content_blob in * by done. cbn [orb].
      replace (_ <? _) with false by lia. rewrite Hd, take_content. done.
Qed.
End Field.

(** ** All fields *)

Lemma lookup_short {A} (l : list A) (i n : nat) : (i + S n <= length l)%nat -> exists x, l !! i = Some x.
Proof. intros H. destruct (l !! i) eqn:E; [by eexists |]. apply lookup_ge_None_1 in E. lia. Qed.

Lemma compare_loop_spec ff k dflt aKey szHdr rs : Forall key_ok rs ->
  forall ls i idx d, rs <> [] -> ls <> [] -> Forall mem_ok ls -> Forall not_nan ls -> located ff aKey szHdr idx d ls ->
  (i + length rs <= length (aSortOrder k))%nat -> (i + length rs <= length (aColl k))%nat ->
  compare_loop k dflt aKey szHdr idx d i rs = Some (compare_values k dflt i (map stored ls) rs, false).
Proof.
  intros Hrs. induction Hrs as [|r rs Hr Hrs IH]; intros ls i idx d Hr0 Hl0 Hls Hnan Hloc Ho Hc; [done |]. clear Hr0.
  destruct ls as [|m ls]; [done |]. apply Forall_cons in Hls as [Hm Hls]. apply Forall_cons in Hnan as [Hn Hnan]. cbn [length] in Ho, Hc.
  destruct (lookup_short _ _ _ Hc) as [coll Ecoll]. destruct (lookup_short _ _ _ Ho) as [desc Edesc].
  destruct (compare_field_spec ff aKey szHdr idx d m ls Hm Hn Hls Hloc r coll Hr) as (t & Hf & Ht).
  cbn [compare_loop map compare_values]. rewrite Ecoll, Edesc. cbn [mbind option_bind from_option id]. rewrite Hf. cbn [mbind option_bind].
  destruct (Z.eqb_spec (sqlite3MemCompare (stored m) r coll) 0) as [E0 | E0]; [| done]. cbn [negb]. rewrite (Ht E0).
  pose proof (located_tail ff aKey szHdr idx d m ls Hm Hls Hloc) as Htail. cbv zeta in Htail.
  destruct ls as [|m' ls].
  - destruct Htail as [_ _ [_ Hsz] _]. change (type_bytes ff []) with (@nil Z) in Hsz. rewrite Zlen_nil, Z.add_0_r in Hsz.
    replace (_ <? szHdr) with false by lia. done.
  - destruct rs as [|r' rs]; [by rewrite andb_false_r |]. pose proof Htail as [_ _ [_ Hsz] [_ Hlen]].
    apply Forall_cons in Hls as [Hm' Hls']. destruct (mem_reads_back ff m' Hm') as (Ht' & _).
    rewrite type_bytes_cons, Zlen_app in Hsz. rewrite contents_cons, Zlen_app in Hlen.
    destruct (putVarint32_read _ [] Ht' ltac:(constructor)) as (_ & Hpos & _).
    pose proof (Zlen_nonneg (type_bytes ff ls)). pose proof (Zlen_nonneg (contents ff ls)). pose proof (Zlen_nonneg (content ff m')).
    replace (_ <? szHdr) with true by lia. replace (_ <=? Zlen aKey) with true by lia. cbn [andb].
    apply IH; try done; [by constructor | simpl in *; lia | simpl in *; lia].
Qed.

Lemma record_located ff ls : Forall mem_ok ls -> Zlen (type_bytes ff ls) <= 10 ^ 9 ->
  let h := header_size (Zlen (type_bytes ff ls)) in
  let aKey := record_bytes ff ls in
  getVarint32 aKey = Some (Zlen (putVarint32 h), h) /\ located ff aKey h (Zlen (putVarint32 h)) h ls /\ h <= Zlen aKey.
Proof.
  intros Hls Hlen h aKey. destruct (type_bytes_ok ff ls Hls) as [Hb Hc]. pose proof (Zlen_nonneg (type_bytes ff ls)).
  pose proof (Zlen_nonneg (contents ff ls)).
  destruct (header_size_spec (Zlen (type_bytes ff ls)) ltac:(lia)) as [Hr Hh]. cbv zeta in *. fold h in Hr, Hh.
  destruct (putVarint32_read h (type_bytes ff ls ++ contents ff ls) ltac:(lia) ltac:(by apply Forall_app)) as (Hp & _ & _ & Hg).
  unfold aKey, record_bytes. fold h. split_and!.
  - by rewrite <-app_assoc.
  - split; rewrite ?Zlen_app; try lia.
    + exists (contents ff ls). split; [done |]. by rewrite <-app_assoc, Zdrop_app.
    + replace h with (Zlen (putVarint32 h ++ type_bytes ff ls)) at 1 by (rewrite Zlen_app; lia). by rewrite Zdrop_app.
  - rewrite !Zlen_app. lia.
Qed.

(** At most thirteen fields: the size of the header is one byte. *)
Lemma small_header ff ls : Forall mem_ok ls -> (length ls <= 13)%nat ->
  Zlen (type_bytes ff ls) <= 5 * Z.of_nat (length ls) /\ header_size (Zlen (type_bytes ff ls)) = Zlen (type_bytes ff ls) + 1 /\
  byte_at (record_bytes ff ls) 0 = Some (header_size (Zlen (type_bytes ff ls))) /\
  Zdrop 1 (record_bytes ff ls) = type_bytes ff ls ++ contents ff ls.
Proof.
  intros Hls Hn. assert (Zlen (type_bytes ff ls) <= 5 * Z.of_nat (length ls)) as Hle.
  { clear Hn. induction Hls as [|m ls Hm Hls IH]; [done |]. rewrite type_bytes_cons, Zlen_app. cbn [length].
    destruct (mem_reads_back ff m Hm) as (Ht & _). destruct (putVarint32_read _ [] Ht ltac:(constructor)) as (_ & _ & Hl & _).
    revert Hl. case_if; [lia |]. destruct (VarintLen_bounds (sqlite3VdbeSerialType m ff) ltac:(lia)). lia. }
  pose proof (Zlen_nonneg (type_bytes ff ls)).
  assert (header_size (Zlen (type_bytes ff ls)) = Zlen (type_bytes ff ls) + 1) as Hh
    by (unfold header_size; by replace (_ <=? 126) with true by lia).
  unfold record_bytes. rewrite Hh. unfold putVarint32. replace (_ <? 0x80) with true by lia. done.
Qed.

(** The comparison without the first field. *)
Lemma compare_rest_spec ff k dflt x y m ls r rs :
  Forall mem_ok (m :: ls) -> Forall not_nan (m :: ls) -> (length (m :: ls) <= 13)%nat -> Forall key_ok (r :: rs) ->
  (length rs <= length ls)%nat ->
  (length (r :: rs) <= length (aSortOrder k))%nat -> (length (r :: rs) <= length (aColl k))%nat ->
  compare_rest (record_bytes ff (m :: ls)) {| pKeyInfo := k; aMem := r :: rs; default_rc := dflt; r1 := x; r2 := y |} =
    Some (compare_values k dflt 1 (map stored ls) rs, false).
Proof.
  intros Hls Hnan Hn Hrs Hle Ho Hc. unfold compare_rest. cbn [aMem default_rc].
  destruct rs as [|r' rs]; [by destruct ls|]. destruct ls as [|m' ls]; [simpl in Hle; lia |].
  destruct (small_header ff (m :: m' :: ls) Hls Hn) as (H5 & Hh & Hb & Hd).
  destruct (record_located ff (m :: m' :: ls) Hls ltac:(simpl in *; lia)) as (_ & Hloc & _). cbv zeta in Hloc.
  apply Forall_cons in Hls as [Hm Hls]. apply Forall_cons in Hnan as [_ Hnan]. apply Forall_cons in Hrs as [_ Hrs].
  destruct (mem_reads_back ff m Hm) as (Ht & _). set (ls' := m' :: ls) in *.
  unfold sqlite3VdbeRecordCompareWithSkip. cbn [pKeyInfo default_rc aMem tail].
  assert (bytes_ok (type_bytes ff ls' ++ contents ff (m :: ls'))) as Hrest.
  { apply Forall_app. split; apply type_bytes_ok; [done | by constructor]. }
  destruct (putVarint32_read _ _ Ht Hrest) as (_ & _ & _ & Hg). rewrite Hd, type_bytes_cons, <-app_assoc, Hg. cbn [mbind option_bind].
  rewrite Hb. cbn [mbind option_bind].
  pose proof (located_tail ff _ _ _ _ m ls' Hm Hls Hloc) as Htail. cbv zeta in Htail. rewrite VarintLen_put in Htail by done.
  assert (Zlen (putVarint32 (header_size (Zlen (type_bytes ff (m :: ls'))))) = 1) as H1.
  { rewrite Hh. unfold putVarint32. replace (_ <? 0x80) with true by (simpl in H5, Hn; lia). done. }
  rewrite H1 in Htail. apply compare_loop_spec with (ff := ff) (ls := ls'); try done; simpl in *; lia.
Qed.

Definition same_sign (a b : Z) : Prop := Z.sgn a = Z.sgn b.

Section Compare.
Context (ff : Z) (k : KeyInfo) (dflt x y : Z) (m : Mem) (ls : list Mem) (r : Mem) (rs : list Mem).
Context (Hls : Forall mem_ok (m :: ls)) (Hnan : Forall not_nan (m :: ls)) (Hrs : Forall key_ok (r :: rs)).
Context (Ho : (length (r :: rs) <= length (aSortOrder k))%nat) (Hc : (length (r :: rs) <= length (aColl k))%nat).

Abbreviation key := (record_bytes ff (m :: ls)).
Abbreviation right_key := {| pKeyInfo := k; aMem := r :: rs; default_rc := dflt; r1 := x; r2 := y |}.
Abbreviation reference := (compare_values k dflt 0 (map stored (m :: ls)) (r :: rs)).

Lemma RecordCompare_reference : Zlen (type_bytes ff (m :: ls)) <= 10 ^ 9 ->
  sqlite3VdbeRecordCompare key right_key = Some (reference, false).
Proof using Hls Hnan Hrs Ho Hc.
  intros Hlen. destruct (record_located ff (m :: ls) Hls Hlen) as (Hg & Hloc & Hh). cbv zeta in *.
  unfold sqlite3VdbeRecordCompare, sqlite3VdbeRecordCompareWithSkip. rewrite Hg. cbn [mbind option_bind pKeyInfo aMem default_rc].
  replace (_ <? _) with false by lia. by apply compare_loop_spec with (ff := ff) (ls := m :: ls).
Qed.

(** At most thirteen fields, and no more in the key than in the record. *)
Context (Hn : (length (m :: ls) <= 13)%nat) (Hle : (length rs <= length ls)%nat).
Context (desc : bool) (Hdesc : head (aSortOrder k) = Some desc).
Context (Hx : x = if desc then 1 else -1) (Hy : y = if desc then -1 else 1).

Lemma header_data :
  Zlen (type_bytes ff (m :: ls)) <= 10 ^ 9 /\ byte_at key 0 = Some (header_size (Zlen (type_bytes ff (m :: ls)))) /\
  header_size (Zlen (type_bytes ff (m :: ls))) = Zlen (type_bytes ff (m :: ls)) + 1 /\
  Zdrop (header_size (Zlen (type_bytes ff (m :: ls)))) key = content ff m ++ contents ff ls /\
  Zlen key = header_size (Zlen (type_bytes ff (m :: ls))) + Zlen (content ff m) + Zlen (contents ff ls) /\
  bytes_ok (type_bytes ff ls ++ contents ff (m :: ls)) /\
  Zdrop 1 key = putVarint32 (sqlite3VdbeSerialType m ff) ++ type_bytes ff ls ++ contents ff (m :: ls).
Proof using Hls Hn.
  clear - Hls Hn.
  destruct (small_header ff (m :: ls) Hls Hn) as (H5 & Hh & Hb & Hd).
  assert (Zlen (type_bytes ff (m :: ls)) <= 10 ^ 9) as Hlen by (cbn [length] in Hn, H5; lia).
  destruct (record_located ff (m :: ls) Hls Hlen) as (_ & [_ Hda _ [_ Hl]] & _).
  pose proof Hls as Hls'. apply Forall_cons in Hls' as [Hm Hl'].
  split_and!; [done | done | done | | | |].
  - by rewrite Hda, contents_cons.
  - rewrite Hl, contents_cons, Zlen_app. lia.
  - apply Forall_app. split; by apply type_bytes_ok.
  - by rewrite Hd, type_bytes_cons, <-app_assoc.
Qed.

(** The first fields decide, or are equal. *)
Lemma first_field_decides (coll : option CollSeq) c : head (aColl k) = Some coll ->
  c = sqlite3MemCompare (stored m) r coll ->
  (c < 0 -> same_sign x reference) /\ (0 < c -> same_sign y reference) /\
  (c = 0 -> compare_rest key right_key = Some (reference, false)).
Proof using Hls Hnan Hrs Ho Hc Hn Hle Hdesc Hx Hy.
  intros Hcoll ->. cbn [map compare_values].
  assert (aColl k !! 0%nat = Some coll) as -> by (by destruct (aColl k)).
  assert (aSortOrder k !! 0%nat = Some desc) as -> by (by destruct (aSortOrder k)). cbn [from_option id].
  set (c := sqlite3MemCompare _ _ _). split_and!.
  - intros H. replace (c =? 0) with false by lia. rewrite Hx. unfold same_sign. destruct desc; destruct c; done.
  - intros H. replace (c =? 0) with false by lia. rewrite Hy. unfold same_sign. destruct desc; destruct c; done.
  - intros ->. cbn [Z.eqb]. by apply compare_rest_spec.
Qed.

Lemma CompareInt_spec v : r = Int v -> exists c, vdbeRecordCompareInt key right_key v = Some (c, false) /\ same_sign c reference.
Proof using Hls Hnan Hrs Ho Hc Hn Hle Hdesc Hx Hy.
  intros Hr. destruct header_data as (Hlen & Hb & Hh & Hd & Hl & Hrest & Hd1).
  assert (exists coll, head (aColl k) = Some coll) as [coll Ecoll] by (clear - Hc; destruct (aColl k); [simpl in Hc; lia | by eexists]).
  destruct (first_field_decides coll _ Ecoll eq_refl) as (Hlt & Hgt & Heq).
  pose proof Hls as Hls'. apply Forall_cons in Hls' as [Hm Hl']. destruct (mem_reads_back ff m Hm) as (Ht & _).
  destruct (type_byte key 1 _ _ Ht Hrest Hd1) as (b & Hb1 & Hsmall & Hlarge).
  unfold vdbeRecordCompareInt. rewrite Hb, Hb1. cbn [mbind option_bind].
  assert (Hgen : exists c, sqlite3VdbeRecordCompare key right_key = Some (c, false) /\ same_sign c reference)
    by (eexists; split; [by apply RecordCompare_reference | done]).
  destruct ((1 <=? b) && (b <=? 9) && negb (b =? 7)) eqn:Eb; [| exact Hgen].
  bool_to_prop. assert (sqlite3VdbeSerialType m ff = b) as Etb by (destruct (Z.ltb_spec (sqlite3VdbeSerialType m ff) 128); lia).
  pose proof (type_kind ff m Hm) as Hk. cbv zeta in Hk. destruct m as [| i | q | z | z n]; try lia.
  assert (Zlen (type_bytes ff (Int i :: ls)) <= 61) as H61.
  { rewrite type_bytes_cons, Zlen_app, Etb. unfold putVarint32. replace (b <? 0x80) with true by lia. change (Zlen [b]) with 1.
    destruct (small_header ff ls Hl' ltac:(cbn [length] in *; lia)) as (H5 & _). cbn [length] in *. lia. }
  assert (Z.land (header_size (Zlen (type_bytes ff (Int i :: ls)))) 0x3f = header_size (Zlen (type_bytes ff (Int i :: ls)))) as ->.
  { pose proof (Zlen_nonneg (type_bytes ff (Int i :: ls))). change 0x3f with (Z.ones 6). rewrite Z.land_ones by lia. apply Z.mod_small. simpl. lia. }
  rewrite Hd. destruct (DecodeInt_spec ff i (contents ff ls) Hm ltac:(by apply type_bytes_ok)) as (_ & _ & Hdec & H8 & H9). rewrite Etb in Hdec, H8, H9.
  assert ((if b =? 8 then Some 0 else if b =? 9 then Some 1 else vdbeRecordDecodeInt b (content ff (Int i) ++ contents ff ls)) = Some i) as ->.
  { destruct (Z.eqb_spec b 8) as [E8 | _]; [by rewrite H8 |]. destruct (Z.eqb_spec b 9) as [E9 | _]; [by rewrite H9 | done]. }
  cbn [mbind option_bind]. rewrite Hr in Hlt, Hgt, Heq |- *.
  cbn [stored sqlite3MemCompare] in Hlt, Hgt, Heq. unfold three_way in *. cbn [r1 r2].
  destruct (Z.ltb_spec i v); [eexists; split; [done | by apply Hlt] |].
  destruct (Z.ltb_spec v i); [eexists; split; [done | by apply Hgt] |].
  eexists. split; [by apply Heq | done].
Qed.

Lemma CompareString_spec z : r = Str z -> head (aColl k) = Some None ->
  exists c, vdbeRecordCompareString key right_key z = Some (c, false) /\ same_sign c reference.
Proof using Hls Hnan Hrs Ho Hc Hn Hle Hdesc Hx Hy.
  intros Hr Hcoll. destruct header_data as (Hlen & Hb & Hh & Hd & Hl & Hrest & Hd1).
  pose proof Hls as Hls'. apply Forall_cons in Hls' as [Hm Hl']. pose proof Hnan as Hnan'. apply Forall_cons in Hnan' as [Hn' _].
  destruct (mem_reads_back ff m Hm) as (Ht & _).
  destruct (putVarint32_read _ _ Ht Hrest) as (_ & _ & _ & Hg).
  destruct (first_field_decides None _ Hcoll eq_refl) as (Hlt & Hgt & Heq). rewrite Hr in Hlt, Hgt, Heq |- *.
  unfold vdbeRecordCompareString. rewrite Hd1, Hg, Hb. cbn [mbind option_bind r1 r2].
  pose proof (type_kind ff m Hm) as Hk. cbv zeta in Hk.
  destruct m as [| i | q | z1 | z1 n]; cbn [stored] in Hlt, Hgt, Heq; try rewrite Hn' in Hlt; cbn [sqlite3MemCompare] in Hlt, Hgt, Heq.
  1-3: replace (_ <? 12) with true by lia; eexists; split; [done | by apply Hlt].
  - destruct Hk as (H12 & Hl1 & Hodd). replace (_ <? 12) with false by lia. rewrite Hodd, Hl1, content_text in * by done. cbn [negb].
    pose proof (Zlen_nonneg (contents ff ls)). replace (_ <? _) with false by lia. rewrite Hd, take_content.
    assert ((if memcmp z1 z (Nat.min (length z) (Z.to_nat (Zlen z1))) =? 0 then Zlen z1 - Zlen z
             else memcmp z1 z (Nat.min (length z) (Z.to_nat (Zlen z1)))) = sqlite3BlobCompare z1 z) as ->.
    { unfold sqlite3BlobCompare. replace (Z.to_nat (Zlen z1)) with (length z1) by (unfold Zlen; lia). rewrite Nat.min_comm. 
      by destruct (_ =? 0). }
    destruct (Z.ltb_spec 0 (sqlite3BlobCompare z1 z)); [eexists; split; [done | by apply Hgt] |].
    destruct (Z.ltb_spec (sqlite3BlobCompare z1 z) 0); [eexists; split; [done | by apply Hlt] |].
    eexists. split; [apply Heq; lia | done].
  - destruct Hk as (H12 & Hl1 & Hodd). replace (_ <? 12) with false by lia. rewrite Hodd. cbn [negb].
    eexists. split; [done | by apply Hgt].
Qed.
End Compare.

(** ** The order *)

Lemma memcmp_swap a b n : memcmp b a n = - memcmp a b n.
Proof.
  revert a b. induction n as [|n IH]; intros [|p a] [|q b]; try done. cbn [memcmp]. rewrite (Z.eqb_sym q p).
  destruct (Z.eqb_spec p q); [apply IH |]. unfold three_way.
  destruct (Z.ltb_spec p q), (Z.ltb_spec q p); done || lia.
Qed.

Lemma BlobCompare_swap a b : sqlite3BlobCompare b a = - sqlite3BlobCompare a b.
Proof.
  unfold sqlite3BlobCompare. rewrite (Nat.min_comm (length b)), memcmp_swap. 
  destruct (Z.eqb_spec (memcmp a b (Nat.min (length a) (length b))) 0) as [-> | ?]; [simpl; lia |].
  replace (- memcmp _ _ _ =? 0) with false by lia. done.
Qed.

(** The bytes decide one after the other; the shorter of two equal beginnings is less. *)
Lemma BlobCompare_cons p a q b : sqlite3BlobCompare (p :: a) (q :: b) =
  if p =? q then sqlite3BlobCompare a b else three_way (p <? q) true.
Proof.
  unfold sqlite3BlobCompare. cbn [length Nat.min memcmp]. destruct (Z.eqb_spec p q).
  - destruct (negb _); [done |]. rewrite !Zlen_cons. lia.
  - unfold three_way. by destruct (p <? q).
Qed.

Lemma BlobCompare_zero a b : sqlite3BlobCompare a b = 0 <-> a = b.
Proof.
  split; [| intros ->; pose proof (BlobCompare_swap b b); lia]. revert b.
  induction a as [|p a IH]; intros [|q b]; [done | | |].
  - cbn. rewrite Zlen_cons. pose proof (Zlen_nonneg b). rewrite Zlen_nil. lia.
  - cbn. rewrite Zlen_cons. pose proof (Zlen_nonneg a). rewrite Zlen_nil. lia.
  - rewrite BlobCompare_cons. destruct (Z.eqb_spec p q) as [-> | ?]; [by intros ->%IH |]. unfold three_way. by destruct (p <? q).
Qed.

Lemma BlobCompare_nil b : sqlite3BlobCompare [] b = - Zlen b.
Proof. done. Qed.

Lemma BlobCompare_trans a b c : sqlite3BlobCompare a b <= 0 -> sqlite3BlobCompare b c <= 0 -> sqlite3BlobCompare a c <= 0.
Proof.
  revert b c. induction a as [|p a IH]; intros b c Hab Hbc; [rewrite BlobCompare_nil; pose proof (Zlen_nonneg c); lia |].
  destruct b as [|q b].
  { rewrite BlobCompare_swap, BlobCompare_nil in Hab. rewrite Zlen_cons in Hab. pose proof (Zlen_nonneg a). lia. }
  destruct c as [|u c].
  { rewrite BlobCompare_swap, BlobCompare_nil in Hbc. rewrite Zlen_cons in Hbc. pose proof (Zlen_nonneg b). lia. }
  rewrite BlobCompare_cons in *. unfold three_way in *.
  destruct (Z.eqb_spec p q) as [-> | ?].
  - destruct (Z.eqb_spec q u); [by eapply IH | done].
  - destruct (Z.ltb_spec p q); [| lia]. destruct (Z.eqb_spec q u) as [-> | ?].
    + replace (p =? u) with false by lia. by replace (p <? u) with true by lia.
    + destruct (Z.ltb_spec q u); [| lia]. replace (p =? u) with false by lia. by replace (p <? u) with true by lia.
Qed.

Lemma three_way_swap lt gt : lt && gt = false -> three_way gt lt = - three_way lt gt.
Proof. by destruct lt, gt. Qed.

(** Swapping two values swaps the result. *)
Lemma MemCompare_swap a b : sqlite3MemCompare b a None = - sqlite3MemCompare a b None.
Proof.
  destruct a, b; cbn [sqlite3MemCompare]; try done; try apply BlobCompare_swap; apply three_way_swap; try apply real_lt_asym.
  destruct (Z.ltb_spec i i0), (Z.ltb_spec i0 i); done || lia.
Qed.

Definition no_real (m : Mem) : Prop := match m with Real _ => False | Blob _ n => n = O | _ => True end.

Lemma MemCompare_zero a b : no_real a -> no_real b -> sqlite3MemCompare a b None = 0 <-> a = b.
Proof.
  intros Ha Hb. destruct a, b; cbn [sqlite3MemCompare no_real] in *; try done; subst; try rewrite BlobCompare_zero;
    try (split; [intros [=] || intros -> | intros [=]]; by subst).
  unfold three_way. destruct (Z.ltb_spec i i0); [split; [done | intros [=]; lia] |].
  destruct (Z.ltb_spec i0 i); [split; [done | intros [=]; lia] |]. split; [intros _; f_equal; lia | done].
Qed.

(** Numbers of both kinds that doubles hold exactly are in the order of the integers. *)
Lemma MemCompare_mixed i j : - 2 ^ 53 < i < 2 ^ 53 -> - 2 ^ 53 < j < 2 ^ 53 ->
  sqlite3MemCompare (Int i) (Real (double_of_int j)) None = three_way (i <? j) (j <? i) /\
  sqlite3MemCompare (Real (double_of_int i)) (Real (double_of_int j)) None = three_way (i <? j) (j <? i).
Proof. intros Hi Hj. cbn [sqlite3MemCompare]. by rewrite !real_lt_int. Qed.

Lemma MemCompare_trans a b c : no_real a -> no_real b -> no_real c ->
  sqlite3MemCompare a b None <= 0 -> sqlite3MemCompare b c None <= 0 -> sqlite3MemCompare a c None <= 0.
Proof.
  intros Ha Hb Hc. destruct a, b, c; cbn [sqlite3MemCompare no_real] in *; try done; try lia; try apply BlobCompare_trans.
  unfold three_way. destruct (Z.ltb_spec i i0), (Z.ltb_spec i0 i), (Z.ltb_spec i0 i1), (Z.ltb_spec i1 i0),
    (Z.ltb_spec i i1), (Z.ltb_spec i1 i); lia.
Qed.

(** Lists of as many values, by the BINARY collation. *)
Section Order.
Context (k : KeyInfo) (Hbin : forall i, default None (aColl k !! i) = None).

Lemma compare_values_swap i ls rs : compare_values k 0 i rs ls = - compare_values k 0 i ls rs.
Proof using Hbin.
  revert i rs. induction ls as [|l ls IH]; intros i [|r rs]; try done. cbn [compare_values]. rewrite Hbin, MemCompare_swap.
  destruct (Z.eqb_spec (sqlite3MemCompare l r None) 0) as [-> | ?]; [apply IH |].
  replace (- _ =? 0) with false by lia. by destruct (default false _).
Qed.

Lemma compare_values_zero i ls rs : length ls = length rs -> Forall no_real ls -> Forall no_real rs ->
  compare_values k 0 i ls rs = 0 <-> ls = rs.
Proof using Hbin.
  intros Hlen Hls. revert i rs Hlen. induction Hls as [|l ls Hl Hls IH]; intros i [|r rs] Hlen Hrs; try done.
  apply Forall_cons in Hrs as [Hr Hrs]. cbn [compare_values]. rewrite Hbin. pose proof (MemCompare_zero l r Hl Hr) as Hz.
  destruct (Z.eqb_spec (sqlite3MemCompare l r None) 0) as [E | E].
  - rewrite IH by (done || (simpl in Hlen; lia)). apply Hz in E as ->. split; [by intros -> | by intros [=]].
  - split; [destruct (default false _); lia |]. intros [= -> ->]. by destruct E; apply Hz.
Qed.

Lemma compare_values_trans i ls ms rs : length ls = length ms -> length ms = length rs ->
  Forall no_real ls -> Forall no_real ms -> Forall no_real rs ->
  compare_values k 0 i ls ms <= 0 -> compare_values k 0 i ms rs <= 0 -> compare_values k 0 i ls rs <= 0.
Proof using Hbin.
  intros H1 H2 Hls. revert i ms rs H1 H2. induction Hls as [|l ls Hl Hls IH]; intros i [|m ms] [|r rs] H1 H2 Hms Hrs; try done.
  apply Forall_cons in Hms as [Hm Hms]. apply Forall_cons in Hrs as [Hr Hrs]. cbn [compare_values]. rewrite Hbin.
  pose proof (MemCompare_zero l m Hl Hm) as Z1. pose proof (MemCompare_zero m r Hm Hr) as Z2. pose proof (MemCompare_zero l r Hl Hr) as Z3.
  pose proof (MemCompare_trans l m r Hl Hm Hr) as T1. pose proof (MemCompare_trans r m l Hr Hm Hl) as T2.
  rewrite (MemCompare_swap m r), (MemCompare_swap l m), (MemCompare_swap l r) in T2.
  destruct (Z.eqb_spec (sqlite3MemCompare l m None) 0) as [E1 | E1].
  - apply Z1 in E1 as ->. destruct (Z.eqb_spec (sqlite3MemCompare m r None) 0); [| done].
    apply IH; done || (simpl in *; lia).
  - destruct (Z.eqb_spec (sqlite3MemCompare m r None) 0) as [E2 | E2].
    + apply Z2 in E2 as ->. replace (_ =? 0) with false by lia. done.
    + destruct (Z.eqb_spec (sqlite3MemCompare l r None) 0) as [E3 | E3].
      * apply Z3 in E3 as ->. rewrite (MemCompare_swap r m). destruct (default false _); lia.
      * destruct (default false _); lia.
Qed.
End Order.

(** ** Properties *)

(** A key with [r1] and [r2] not yet set. *)
Definition key_of (k : KeyInfo) (dflt : Z) (rs : list Mem) : UnpackedRecord :=
  {| pKeyInfo := k; aMem := rs; default_rc := dflt; r1 := 0; r2 := 0 |}.

(** The key's arrays have an element for every field. *)
Definition key_info_ok (k : KeyInfo) (rs : list Mem) : Prop :=
  (length rs <= length (aSortOrder k))%nat /\ (length rs <= length (aColl k))%nat.

Lemma FindCompare_spec ff k dflt m ls r rs :
  Forall mem_ok (m :: ls) -> Forall not_nan (m :: ls) -> Forall key_ok (r :: rs) -> key_info_ok k (r :: rs) ->
  Zlen (type_bytes ff (m :: ls)) <= 10 ^ 9 ->
  (length (m :: ls) <= nField k + nXField k)%nat -> (length rs <= length ls)%nat ->
  exists f c, sqlite3VdbeFindCompare (key_of k dflt (r :: rs)) = Some f /\
    run_compare (record_bytes ff (m :: ls)) f = Some (c, false) /\
    same_sign c (compare_values k dflt 0 (map stored (m :: ls)) (r :: rs)).
Proof.
  intros Hls Hnan Hrs [Ho Hc] Hlen Hn Hle. unfold sqlite3VdbeFindCompare, key_of. cbn [pKeyInfo aMem default_rc].
  assert (forall x y, exists c, sqlite3VdbeRecordCompare (record_bytes ff (m :: ls)) {| pKeyInfo := k; aMem := r :: rs; default_rc := dflt; r1 := x; r2 := y |}
    = Some (c, false) /\ same_sign c (compare_values k dflt 0 (map stored (m :: ls)) (r :: rs))) as Hany
    by (intros; eexists; split; [by apply RecordCompare_reference | done]).
  destruct (Nat.leb_spec (nField k + nXField k) 13); [| destruct (Hany 0 0) as (c & ?); by exists ({| pKeyInfo := k; aMem := r :: rs; default_rc := dflt; r1 := 0; r2 := 0 |}, Compare_any), c].
  destruct (head (aSortOrder k)) as [desc|] eqn:Ed; [| destruct (aSortOrder k); [simpl in Ho; lia | done]].
  destruct (head (aColl k)) as [coll|] eqn:Ec; [| destruct (aColl k); [simpl in Hc; lia | done]].
  cbn [head mbind option_bind]. set (x := if desc then 1 else -1). set (y := if desc then -1 else 1).
  assert (length (m :: ls) <= 13)%nat as H13 by lia. destruct (Hany x y) as (c & Hany').
  destruct r as [| v | q | z | z n]; try (by eexists _, c).
  - destruct (CompareInt_spec ff k dflt x y m ls (Int v) rs Hls Hnan Hrs Ho Hc H13 Hle desc Ed eq_refl eq_refl v eq_refl) as (c' & ?).
    by eexists _, c'.
  - destruct coll as [xCmp|]; [by eexists _, c |].
    destruct (CompareString_spec ff k dflt x y m ls (Str z) rs Hls Hnan Hrs Ho Hc H13 Hle desc Ed eq_refl eq_refl z eq_refl Ec) as (c' & ?).
    by eexists _, c'.
Qed.

(** C32: the order of records.  A record that [OP_MakeRecord] made compares with a key as its
    fields compare with those of the key, in order, whichever collations and directions
    are asked for; it is never taken for corrupt and nothing behind it is read.  When
    the key has no more fields than the record, the version of the comparison that
    [sqlite3VdbeFindCompare] chooses has a result of the same sign.  If moreover no field is a
    double, all collations are BINARY, the key has as many fields as the record and
    [default_rc] is 0, the result is zero only when all fields are equal.  (The comment
    on the comparison allows keys with more fields than the record; the fast versions
    are wrong for them, see [fewer_fields].) *)
Theorem RecordCompare_spec (limit ff dflt : Z) (k : KeyInfo) (ls rs : list Mem) (z : list Z) (n : nat) :
  ls <> [] -> rs <> [] -> Forall mem_ok ls -> Forall not_nan ls -> Forall key_ok rs -> key_info_ok k rs ->
  0 <= limit <= 10 ^ 9 -> MakeRecord true limit ff ls = Some (Made z n) ->
  let reference := compare_values k dflt 0 (map stored ls) rs in
  sqlite3VdbeRecordCompare (z ++ replicate n 0) (key_of k dflt rs) = Some (reference, false) /\
  ((length rs <= length ls <= nField k + nXField k)%nat ->
   exists f c, sqlite3VdbeFindCompare (key_of k dflt rs) = Some f /\
     run_compare (z ++ replicate n 0) f = Some (c, false) /\ same_sign c reference /\
     (dflt = 0 -> length rs = length ls -> (forall i, default None (aColl k !! i) = None) ->
      Forall no_real (map stored ls) -> Forall no_real rs -> c = 0 <-> map stored ls = rs)).
Proof.
  intros Hl0 Hr0 Hls Hnan Hrs Hk Hlim Hmake reference.
  pose proof (MakeRecord_made true limit ff ls Hls Hlim) as Hm. rewrite Hmake in Hm.
  destruct (Z.ltb_spec limit (record_length ff ls)) as [|Hfit]; [done |]. destruct Hm as (z' & n' & [= <- <-] & Hz & _). rewrite Hz.
  assert (Zlen (type_bytes ff ls) <= 10 ^ 9) as Hlen.
  { unfold record_length in Hfit. pose proof (header_size_ge (Zlen (type_bytes ff ls))). pose proof (Zlen_nonneg (contents ff ls)). lia. }
  destruct ls as [|m ls]; [done |]. destruct rs as [|r rs]; [done |]. split.
  - destruct Hk. by apply RecordCompare_reference.
  - intros [Hle Hn]. destruct (FindCompare_spec ff k dflt m ls r rs Hls Hnan Hrs Hk Hlen Hn ltac:(simpl in Hle; lia)) as (f & c & Hf & Hc & Hs).
    exists f, c. split_and!; [done | done | done |]. intros -> Hsame Hbin H1 H2.
    rewrite <-(compare_values_zero k Hbin 0 (map stored (m :: ls)) (r :: rs)) by (rewrite ?length_map; done).
    unfold same_sign in Hs. fold reference in Hs |- *. destruct c, reference; simpl in Hs; done || lia.
Qed.

(** The index of the cache by time: the time and the row's number. *)
Definition mtime_idx : KeyInfo := {| aSortOrder := [false; false]; aColl := [None; None]; nField := 2; nXField := 0 |}.

Lemma RecordCompare_spec_witness :
  let row := [Int 1700000000; Int 7] in let key := [Int 1700000000; Int 9] in
  exists z n, MakeRecord true 1000000 4 row = Some (Made z n) /\
    sqlite3VdbeRecordCompare (z ++ replicate n 0) (key_of mtime_idx 0 key) = Some (-1, false).
Proof.
  intros row key. eexists _, _. split; [vm_compute; reflexivity |].
  exact (proj1 (RecordCompare_spec 1000000 4 0 mtime_idx row key [3; 4; 1; 101; 83; 241; 0; 7] 0 ltac:(done) ltac:(done)
    ltac:(solve_bytes) ltac:(solve_bytes) ltac:(solve_bytes) ltac:(split; simpl; lia) ltac:(lia) ltac:(vm_compute; reflexivity))).
Defined.

(** A record with fewer fields than the key: the fast versions compare what is behind
    the header as if it were a type. *)
Example fewer_fields :
  let aKey := [2; 15; 97] in let key := key_of mtime_idx 0 [Str (lit "a"); Int 7] in
  MakeRecord true 1000 4 [Str (lit "a")] = Some (Made aKey 0) /\
  sqlite3VdbeRecordCompare aKey key = Some (0, false) /\
  (f ← sqlite3VdbeFindCompare key; run_compare aKey f) = Some (1, false).
Proof. vm_compute. done. Qed.

(** Integers and doubles: 2^53 and 2^53 + 1 are both equal to the double 2^53, but not to
    each other. *)
Example mixed_not_transitive :
  let r := Real (double_of_int (2 ^ 53)) in
  sqlite3MemCompare (Int (2 ^ 53)) r None = 0 /\ sqlite3MemCompare r (Int (2 ^ 53 + 1)) None = 0 /\
  sqlite3MemCompare (Int (2 ^ 53)) (Int (2 ^ 53 + 1)) None = -1.
Proof. vm_compute. done. Qed.

(** [1.0], [-2.0] and the rounding of [2^53 + 3] and [2^63 - 1]. *)
Example doubles :
  double_of_int 1 = 0x3ff0000000000000 /\ double_of_int (-2) = 0xc000000000000000 /\
  double_of_int (2 ^ 53 + 3) = double_of_int (2 ^ 53 + 4) /\ double_of_int (2 ^ 63 - 1) = 0x43e0000000000000 /\
  real_lt (double_of_int (-2)) (double_of_int 1) = true.
Proof. vm_compute. done. Qed.
