(* ===== verification/CacheRows.v ===== *)
(** The rows of the cache's index as SQLite stores and finds them
    ([src/src/cache/database_sqlite.cc], [src/src/cache/sqlite3.c]): from the text of a
    statement to the values of a record, and the order of the entries of the two indices.

    The table [entries] has an index on [hash], which its primary key makes, and
    [mtime_idx].  The entries of an index are the indexed value and the number of the row. *)

From S2P Require Import Prelude FileCache SqVarint SqPrint CacheStatements SqSerial SqReals SqRecord.

#[local] Open Scope Z_scope.

(** ** From literals to rows *)

(** The value that an instruction loads.  The affinities of the columns, TEXT and INTEGER,
    leave texts and integers as they are. *)
Definition loaded (l : load) : option Mem :=
  match l with OP_Integer i | OP_Int64 i => Some (Int i) | OP_String8 z => Some (Str z) | _ => None end.

Definition registers (sql : list Z) : option (list Mem) := mapM loaded (loads sql).

Definition MTIME : nat := 0.
Definition SIZE : nat := 1.
Definition VERSION : nat := 2.

(** What [SQLite::Get] makes of the columns [mtime], [size] and [version] of a row, which
    [sqlite3_column_int64] reads; a column that is not there is a NULL. *)
Definition value_of_row (row : list Mem) : Value :=
  let column i := sqlite3VdbeIntValue (default Null (row !! S i)) in
  {| mtime := u64 (column MTIME); size := u64 (column SIZE); entry_version := u32 (column VERSION) |}.

(** The columns of [Set]'s statement are in the order of the table. *)
Definition row_of (key : list Z) (v : Value) : list Mem := [Str key; Int (mtime v); Int (size v); Int (entry_version v)].

(** ** The indices *)

Definition hash_entry (key : list Z) (rowid : Z) : list Mem := [Str key; Int rowid].
Definition mtime_entry (v : Value) (rowid : Z) : list Mem := [Int (mtime v); Int rowid].

(** Both are ascending and BINARY, over one column and the number of the row; the
    comparison reads only the sum of [nField] and [nXField]. *)
Definition index_info : KeyInfo := {| aSortOrder := [false; false]; aColl := [None; None]; nField := 2; nXField := 0 |}.

(** The comparison of an entry, as the record it is stored as, with a key. *)
Definition compare_entry (ff : Z) (entry key : list Mem) : option Z :=
  r ← MakeRecord true (10 ^ 9) ff entry;
  match r with
  | Made z n =>
      f ← sqlite3VdbeFindCompare (key_of index_info 0 key);
      '(c, corrupt) ← run_compare (z ++ replicate n 0) f;
      if corrupt : bool then None else Some c
  | _ => None
  end.

(** ** Lemmas *)

Definition in_range (v : Value) : Prop :=
  0 <= mtime v < 2 ^ 63 /\ 0 <= size v < 2 ^ 63 /\ 0 <= entry_version v < 2 ^ 32.

Definition short (key : list Z) : Prop := Zlen key <= 10 ^ 8.

Lemma loaded_number n : 0 <= n < 2 ^ 63 -> loaded (number_load n) = Some (Int n).
Proof. intros Hn. unfold number_load. repeat case_if; done || lia. Qed.

Lemma registers_set key v : plain key -> in_range v -> registers (Set_sql key v) = Some (row_of key v).
Proof.
  intros Hk (Hm & Hs & Hv). unfold registers.
  destruct (statement_loads key v Hk ltac:(lia) ltac:(lia) Hv) as (_ & _ & ->).
  cbn [mapM loaded]. rewrite !loaded_number by lia. done.
Qed.

Lemma registers_get key v : plain key -> in_range v ->
  registers (Get_sql key) = Some [Str key] /\ registers (Delete_sql key) = Some [Str key].
Proof.
  intros Hk (Hm & Hs & Hv). unfold registers.
  destruct (statement_loads key v Hk ltac:(lia) ltac:(lia) Hv) as (-> & -> & _). done.
Qed.

Lemma plain_bytes key : plain key -> bytes_ok key.
Proof. intros Hk. eapply Forall_impl; [exact Hk |]. unfold is_byte. simpl. lia. Qed.

Lemma str_ok key : plain key -> short key -> key_ok (Str key).
Proof. intros Hk Hs. unfold short in Hs. split; [split; [by apply plain_bytes | lia] | done]. Qed.

Lemma int_ok i : - 2 ^ 63 <= i < 2 ^ 63 -> key_ok (Int i).
Proof. intros Hi. by split_and!. Qed.

Lemma key_ok_mem l : Forall key_ok l -> Forall mem_ok l /\ Forall not_nan l /\ map stored l = l.
Proof.
  intros Hl. split; [eapply Forall_impl; [exact Hl | by intros m (? & _)] |].
  split; [eapply Forall_impl; [exact Hl | by intros m (_ & ? & _)] |].
  induction Hl as [|m l (_ & Hn & Hz) Hl IH]; [done |]. cbn [map]. rewrite IH. f_equal.
  destruct m as [| | r | | z n]; cbn in *; try done; [by rewrite Hn | subst; by rewrite app_nil_r].
Qed.

(** Values that take at most [b] bytes make a record of at most [b] bytes and a header. *)
Lemma record_fits ff l : Forall key_ok l -> (length l <= 13)%nat -> Zlen (contents ff l) <= 10 ^ 9 - 100 -> record_length ff l <= 10 ^ 9.
Proof.
  intros Hl Hn Hc. destruct (key_ok_mem l Hl) as (Hm & _). destruct (small_header ff l Hm Hn) as (H5 & Hh & _).
  unfold record_length. lia.
Qed.

Lemma content_length ff m : key_ok m ->
  Zlen (content ff m) <= match m with Str z | Blob z _ => Zlen z | _ => 8 end.
Proof.
  intros (Hm & Hn & Hz). destruct (mem_reads_back ff m Hm) as (_ & _ & Hl & _). destruct m as [| i | r | z | z n].
  - rewrite Hl. done.
  - rewrite Hl. destruct (DecodeInt_spec ff i [] Hm ltac:(constructor)) as (Ht & _). cbv zeta in Ht.
    set (t := sqlite3VdbeSerialType (Int i) ff) in *. clearbody t.
    assert (t = 1 \/ t = 2 \/ t = 3 \/ t = 4 \/ t = 5 \/ t = 6 \/ t = 7 \/ t = 8 \/ t = 9) as Hc by lia.
    repeat (destruct Hc as [-> | Hc]; [done |]). by rewrite Hc.
  - rewrite Hl. done.
  - by rewrite content_text.
  - rewrite content_blob by done. subst. by rewrite app_nil_r.
Qed.

(** An entry of an index compares as its values do. *)
Lemma compare_entry_spec ff m e r key : Forall key_ok (m :: e) -> Forall key_ok (r :: key) -> (length (m :: e) <= 2)%nat ->
  (length key <= length e)%nat -> Zlen (contents ff (m :: e)) <= 10 ^ 9 - 100 ->
  exists c, compare_entry ff (m :: e) (r :: key) = Some c /\ same_sign c (compare_values index_info 0 0 (m :: e) (r :: key)).
Proof.
  intros He Hk Hn Hle Hc. destruct (key_ok_mem _ He) as (Hm & Hnn & Hst). unfold compare_entry.
  pose proof (record_fits ff (m :: e) He ltac:(lia) Hc) as Hfit.
  pose proof (MakeRecord_made true (10 ^ 9) ff (m :: e) Hm ltac:(lia)) as Hmade.
  destruct (Z.ltb_spec (10 ^ 9) (record_length ff (m :: e))); [lia |]. destruct Hmade as (z & n & -> & Hz & _). cbn [mbind option_bind]. rewrite Hz.
  destruct (small_header ff (m :: e) Hm ltac:(lia)) as (H5 & _).
  destruct (FindCompare_spec ff index_info 0 m e r key Hm Hnn Hk) as (f & c & Hf & Hrun & Hs); [split; simpl in *; lia | lia | simpl in *; lia | done |].
  rewrite Hf. cbn [mbind option_bind]. rewrite Hrun. cbn [mbind option_bind]. exists c. split; [done |]. by rewrite Hst in Hs.
Qed.

Lemma same_sign_zero a b : same_sign a b -> a = 0 <-> b = 0.
Proof. unfold same_sign. destruct a, b; simpl; intros; split; done || lia. Qed.

Lemma same_sign_neg a b : same_sign a b -> a < 0 <-> b < 0.
Proof. unfold same_sign. destruct a, b; simpl; intros; split; done || lia. Qed.

Lemma compare_hash ff key rowid key' : plain key -> short key -> - 2 ^ 63 <= rowid < 2 ^ 63 -> plain key' -> short key' ->
  exists c, compare_entry ff (hash_entry key rowid) [Str key'] = Some c /\ (c = 0 <-> key = key').
Proof.
  intros Hk Hs Hr Hk' Hs'. pose proof (str_ok key Hk Hs) as K1. pose proof (int_ok rowid Hr) as K2. pose proof (str_ok key' Hk' Hs') as K3.
  destruct (compare_entry_spec ff (Str key) [Int rowid] (Str key') []) as (c & Hc & Hsame); [solve_bytes | solve_bytes | simpl; lia | simpl; lia | |].
  - rewrite !contents_cons, !Zlen_app. pose proof (content_length ff _ K1). pose proof (content_length ff _ K2). cbn in *.
    unfold short in Hs. rewrite Zlen_nil. lia.
  - exists c. split; [done |]. rewrite (same_sign_zero _ _ Hsame). cbn [compare_values index_info aColl lookup list_lookup from_option id sqlite3MemCompare].
    rewrite <-BlobCompare_zero. destruct (Z.eqb_spec (sqlite3BlobCompare key key') 0); [done |]. cbn. done.
Qed.

Lemma compare_mtime ff v rowid v' rowid' : in_range v -> in_range v' -> - 2 ^ 63 <= rowid < 2 ^ 63 -> - 2 ^ 63 <= rowid' < 2 ^ 63 ->
  exists c, compare_entry ff (mtime_entry v rowid) (mtime_entry v' rowid') = Some c /\
    (c < 0 <-> mtime v < mtime v' \/ mtime v = mtime v' /\ rowid < rowid').
Proof.
  intros (Hm & _) (Hm' & _) Hr Hr'. pose proof (int_ok (mtime v) ltac:(lia)) as K1. pose proof (int_ok rowid Hr) as K2.
  pose proof (int_ok (mtime v') ltac:(lia)) as K3. pose proof (int_ok rowid' Hr') as K4.
  destruct (compare_entry_spec ff (Int (mtime v)) [Int rowid] (Int (mtime v')) [Int rowid']) as (c & Hc & Hsame);
    [solve_bytes | solve_bytes | simpl; lia | simpl; lia | |].
  - rewrite !contents_cons, !Zlen_app. pose proof (content_length ff _ K1). pose proof (content_length ff _ K2). cbn in *.
    rewrite Zlen_nil. lia.
  - exists c. split; [done |]. rewrite (same_sign_neg _ _ Hsame).
    cbn [compare_values index_info aColl aSortOrder lookup list_lookup from_option id sqlite3MemCompare]. unfold three_way.
    destruct (Z.ltb_spec (mtime v) (mtime v')); [cbn; lia |]. destruct (Z.ltb_spec (mtime v') (mtime v)); [cbn; lia |]. cbn.
    destruct (Z.ltb_spec rowid rowid'); [cbn; lia |]. destruct (Z.ltb_spec rowid' rowid); cbn; lia.
Qed.

(** C19: an entry of the cache's index between the program and SQLite's records.  The
    literals of [Set]'s statement make a record from which [Get]'s columns read the
    value that was set, as long as its numbers are below 2^63.  The literal of [Get]'s and
    [Delete]'s statements is equal to the entry of the index on [hash] exactly when the
    keys are the same bytes, and the entries of [mtime_idx], which [First] goes through,
    are ordered by time, and by the row for the same time; the comparisons are the
    ones SQLite chooses, on the records as they are stored. *)
Theorem index_rows (ff rowid rowid' : Z) (key key' : list Z) (v v' : Value) :
  plain key -> plain key' -> short key -> short key' -> in_range v -> in_range v' ->
  - 2 ^ 63 <= rowid < 2 ^ 63 -> - 2 ^ 63 <= rowid' < 2 ^ 63 ->
  (exists row z n, registers (Set_sql key v) = Some row /\ MakeRecord true (10 ^ 9) ff row = Some (Made z n) /\
     exists back, sqlite3VdbeRecordUnpack 4 (z ++ replicate n 0) = Some back /\ head back = Some (Str key) /\ value_of_row back = v) /\
  (exists r c, registers (Get_sql key') = Some r /\ registers (Delete_sql key') = Some r /\
     compare_entry ff (hash_entry key rowid) r = Some c /\ (c = 0 <-> key = key')) /\
  (exists c, compare_entry ff (mtime_entry v rowid) (mtime_entry v' rowid') = Some c /\
     (c < 0 <-> mtime v < mtime v' \/ mtime v = mtime v' /\ rowid < rowid')).
Proof.
  intros Hk Hk' Hs Hs' Hv Hv' Hr Hr'. pose proof Hv as (Hm & Hsz & Hver). split_and!.
  - exists (row_of key v). rewrite registers_set by done.
    assert (Forall key_ok (row_of key v)) as Hrow.
    { unfold row_of. repeat apply Forall_cons_2; try apply Forall_nil_2; [by apply str_ok | apply int_ok; lia ..]. }
    destruct (key_ok_mem _ Hrow) as (Hmem & _ & Hst).
    assert (record_length ff (row_of key v) <= 10 ^ 9) as Hfit.
    { apply record_fits; [done | simpl; lia |]. unfold row_of in *. apply Forall_cons in Hrow as [K1 [K2 [K3 [K4 _]%Forall_cons]%Forall_cons]%Forall_cons].
      rewrite !contents_cons, !Zlen_app. pose proof (content_length ff _ K1). pose proof (content_length ff _ K2).
      pose proof (content_length ff _ K3). pose proof (content_length ff _ K4). cbn in *. unfold short in Hs. rewrite Zlen_nil. lia. }
    pose proof (MakeRecord_made true (10 ^ 9) ff (row_of key v) Hmem ltac:(lia)) as Hmade.
    destruct (Z.ltb_spec (10 ^ 9) (record_length ff (row_of key v))); [lia |]. destruct Hmade as (z & n & Hz & Hb & _). exists z, n.
    split; [done |]. split; [done |]. exists (row_of key v). rewrite Hb.
    destruct (small_header ff (row_of key v) Hmem ltac:(simpl; lia)) as (H5 & _).
    destruct (record_bytes_read ff (row_of key v) 4 Hmem ltac:(simpl in H5; lia) ltac:(done)) as [_ ->]. rewrite Hst.
    split; [done |]. split; [done |]. unfold value_of_row, row_of. cbn. rewrite !wrap_small by lia. by destruct v.
  - destruct (registers_get key' v Hk' Hv) as [-> ->]. destruct (compare_hash ff key rowid key' Hk Hs Hr Hk' Hs') as (c & Hc & Hz).
    by exists [Str key'], c.
  - by apply compare_mtime.
Qed.

Lemma index_rows_witness :
  let v := {| mtime := 1700000000; size := 2 ^ 40; entry_version := 1 |} in
  let v' := {| mtime := 1700000001; size := 3; entry_version := 1 |} in
  exists c, compare_entry 4 (mtime_entry v 8) (mtime_entry v' 7) = Some c /\ c < 0.
Proof.
  intros v v'. assert (plain (lit "0badcafe-12-34")) as Hk by (apply (bool_decide_unpack _); vm_compute; exact I).
  assert (short (lit "0badcafe-12-34")) as Hs by (vm_compute; discriminate).
  assert (in_range v) as H1 by (split; simpl; lia). assert (in_range v') as H2 by (split; simpl; lia).
  destruct (index_rows 4 8 7 _ _ v v' Hk Hk Hs Hs H1 H2 ltac:(lia) ltac:(lia)) as (_ & _ & c & Hc & Hlt).
  exists c. split; [exact Hc | apply Hlt; left; simpl; lia].
Defined.
