(* ===== verification/Messages.v ===== *)
(** The messages the client and the daemons exchange: [src/src/base/base.proto],
    [src/src/daemon/remote.proto], [src/src/daemon/configuration.proto] and
    [src/src/net/universal.proto].  An optional field is an [option] and its
    accessor gives the declared default; a repeated field is a list. *)

From S2P Require Import Prelude.

#[local] Open Scope Z_scope.

(** ** base.proto *)

Record Plugin := { plugin_name : list Z; plugin_path : option (list Z) }.

Record Compiler := {
  compiler_version : list Z;
  compiler_path : option (list Z);
  plugins : list Plugin;
}.

Record Argument := { index : Z; values : list (list Z) }.

Record Flags := {
  compiler : Compiler;
  output : option (list Z);
  input : option (list Z);
  other : list Argument;
  deps_file : option (list Z);
  language : option (list Z);
  non_cached : list Argument;
  cc_only : list Argument;
  action : list Z;
  non_direct : list Argument;
  sanitize_blacklist : option (list Z);
  included_files : list (list Z);
  rewrite_includes : option bool;
}.

Record Local_ := { local_flags : Flags; current_dir : list Z; user_id : option Z }.

(** ** universal.proto *)

Inductive Code :=
| OK | INCONSEQUENT | NETWORK | BAD_MESSAGE | EMPTY_MESSAGE | EXECUTION | OVERLOAD | NO_VERSION.

#[export] Instance Code_eq_dec : EqDecision Code.
Proof. solve_decision. Defined.

Record Status := { code : Code; description : option (list Z) }.

(** ** remote.proto *)

Record Remote := {
  remote_flags : Flags;
  source : option (list Z);
  remote_blacklist : option (list Z);
  handled_hash : option (list Z);
}.

Record Result := {
  result_obj : list Z;
  result_deps : option (list Z);
  from_cache : option bool;
  hash_match : option bool;
}.

(** What an endpoint receives: the extensions that are set. *)
Record Reply := { reply_status : option Status; reply_result : option Result }.

(** ** configuration.proto *)

Record Host := {
  host : list Z;
  port : Z;
  threads : Z;
  disabled : bool;
  ipv6 : bool;
  shard : option Z;
}.

Record CacheConf := { cache_disabled : bool; direct : bool }.

Record EmitterConf := {
  remotes : list Host;
  only_failed : bool;
  coordinators : list Host;
  total_shards : option Z;
  shard_queue_limit : option Z;
}.

Record CoordinatorConf := {
  coordinator_remotes : list Host;
  coordinator_total_shards : option Z;
  coordinator_shard_queue_limit : option Z;
}.

Record Configuration := {
  emitter : option EmitterConf;
  absorber : option Host;
  coordinator : option CoordinatorConf;
  pool_capacity : Z;
  versions : list Compiler;
  cache_conf : option CacheConf;
}.

(** ** Accessors and setters *)

(** The accessor of an optional string. *)
Definition str (s : option (list Z)) : list Z := default [] s.

Definition has {A} (x : option A) : bool := match x with Some _ => true | None => false end.

Definition set_compiler (c : Compiler) (f : Flags) : Flags :=
  {| compiler := c; output := output f; input := input f; other := other f; deps_file := deps_file f;
     language := language f; non_cached := non_cached f; cc_only := cc_only f; action := action f;
     non_direct := non_direct f; sanitize_blacklist := sanitize_blacklist f;
     included_files := included_files f; rewrite_includes := rewrite_includes f |}.

Definition set_compiler_path (p : option (list Z)) (c : Compiler) : Compiler :=
  {| compiler_version := compiler_version c; compiler_path := p; plugins := plugins c |}.

Definition set_plugins (l : list Plugin) (c : Compiler) : Compiler :=
  {| compiler_version := compiler_version c; compiler_path := compiler_path c; plugins := l |}.

Definition clear_plugin_path (p : Plugin) : Plugin :=
  {| plugin_name := plugin_name p; plugin_path := None |}.

Definition set_output (o : option (list Z)) (f : Flags) : Flags :=
  {| compiler := compiler f; output := o; input := input f; other := other f; deps_file := deps_file f;
     language := language f; non_cached := non_cached f; cc_only := cc_only f; action := action f;
     non_direct := non_direct f; sanitize_blacklist := sanitize_blacklist f;
     included_files := included_files f; rewrite_includes := rewrite_includes f |}.

Definition set_input (i : option (list Z)) (f : Flags) : Flags :=
  {| compiler := compiler f; output := output f; input := i; other := other f; deps_file := deps_file f;
     language := language f; non_cached := non_cached f; cc_only := cc_only f; action := action f;
     non_direct := non_direct f; sanitize_blacklist := sanitize_blacklist f;
     included_files := included_files f; rewrite_includes := rewrite_includes f |}.

Definition set_deps_file (d : option (list Z)) (f : Flags) : Flags :=
  {| compiler := compiler f; output := output f; input := input f; other := other f; deps_file := d;
     language := language f; non_cached := non_cached f; cc_only := cc_only f; action := action f;
     non_direct := non_direct f; sanitize_blacklist := sanitize_blacklist f;
     included_files := included_files f; rewrite_includes := rewrite_includes f |}.

Definition set_language (l : option (list Z)) (f : Flags) : Flags :=
  {| compiler := compiler f; output := output f; input := input f; other := other f;
     deps_file := deps_file f; language := l; non_cached := non_cached f; cc_only := cc_only f;
     action := action f; non_direct := non_direct f; sanitize_blacklist := sanitize_blacklist f;
     included_files := included_files f; rewrite_includes := rewrite_includes f |}.

Definition set_non_cached (l : list Argument) (f : Flags) : Flags :=
  {| compiler := compiler f; output := output f; input := input f; other := other f;
     deps_file := deps_file f; language := language f; non_cached := l; cc_only := cc_only f;
     action := action f; non_direct := non_direct f; sanitize_blacklist := sanitize_blacklist f;
     included_files := included_files f; rewrite_includes := rewrite_includes f |}.

Definition set_cc_only (l : list Argument) (f : Flags) : Flags :=
  {| compiler := compiler f; output := output f; input := input f; other := other f;
     deps_file := deps_file f; language := language f; non_cached := non_cached f; cc_only := l;
     action := action f; non_direct := non_direct f; sanitize_blacklist := sanitize_blacklist f;
     included_files := included_files f; rewrite_includes := rewrite_includes f |}.

Definition set_action (a : list Z) (f : Flags) : Flags :=
  {| compiler := compiler f; output := output f; input := input f; other := other f;
     deps_file := deps_file f; language := language f; non_cached := non_cached f; cc_only := cc_only f;
     action := a; non_direct := non_direct f; sanitize_blacklist := sanitize_blacklist f;
     included_files := included_files f; rewrite_includes := rewrite_includes f |}.

Definition set_sanitize_blacklist (s : option (list Z)) (f : Flags) : Flags :=
  {| compiler := compiler f; output := output f; input := input f; other := other f;
     deps_file := deps_file f; language := language f; non_cached := non_cached f; cc_only := cc_only f;
     action := action f; non_direct := non_direct f; sanitize_blacklist := s;
     included_files := included_files f; rewrite_includes := rewrite_includes f |}.
