(* ===== verification/CacheFrame.v ===== *)
(** Which files an operation of the cache may change: only those of the entry it
    works on, which lie under the directory of the cache
    ([src/src/cache/file_cache.cc]). *)

From S2P Require Import Prelude StringUtils ConstString ConstStringFind ConstStringHash CacheLocks FileCache CacheEntries.

#[local] Open Scope Z_scope.

(** ** The files of an entry *)

Definition entry_file (hash : list Z) (c : FileCache) (p : path) : Prop :=
  exists ext, 47 ∉ ext /\ p = AppendExtension (CommonPath hash c) ext.

(** Names that are one path component without an extension, as [Hash] builds. *)
Definition plain (hash : list Z) : Prop := 47 ∉ hash /\ 46 ∉ hash.

Definition touches (hash : list Z) (c c' : FileCache) : Prop :=
  path_ c' = path_ c /\ forall q, ~ entry_file hash c q -> files c' !! q = files c !! q.

Lemma touches_refl hash c : touches hash c c.
Proof. done. Qed.

Lemma entry_file_ext hash c c' p : path_ c' = path_ c -> entry_file hash c' p <-> entry_file hash c p.
Proof. intros Hp. unfold entry_file, CommonPath, SecondPath. by rewrite Hp. Qed.

Lemma touches_trans hash c1 c2 c3 : touches hash c1 c2 -> touches hash c2 c3 -> touches hash c1 c3.
Proof.
  intros [P1 H1] [P2 H2]. split; [congruence |]. intros q Hq. rewrite H2, H1; [done | done |].
  by rewrite (entry_file_ext _ _ _ _ P1).
Qed.

Lemma entry_files hash c :
  entry_file hash c (manifest_path hash c) /\ entry_file hash c (object_path hash c) /\
  entry_file hash c (deps_path hash c) /\ entry_file hash c (stderr_path hash c).
Proof. split_and!; eexists; (split; [| reflexivity]); by apply (bool_decide_unpack _). Qed.

Lemma entry_file_tmp hash c p : entry_file hash c p -> entry_file hash c (p ++ lit ".tmp").
Proof.
  intros (ext & He & ->). exists (ext ++ lit ".tmp"). unfold AppendExtension. rewrite <-!app_assoc.
  split; [| done]. apply not_elem_of_app. split; [done |]. by apply (bool_decide_unpack _).
Qed.

(** ** Two entries share no file; entries lie in the cache directory *)

Lemma path_div_below p q : p <> [] -> head q <> Some 47 -> exists pre, path_div p q = pre ++ [47] ++ q.
Proof.
  intros Hp Hq. unfold path_div. rewrite decide_False by done.
  destruct p as [|x p _] using rev_ind; [done |]. rewrite last_snoc.
  destruct (Z.eqb_spec x 47) as [-> |]; [exists p; by rewrite <-app_assoc | by exists (p ++ [x])].
Qed.

Lemma path_div_nonempty p q : q <> [] -> path_div p q <> [].
Proof. intros Hq. unfold path_div. repeat case_match; destruct p, q; done. Qed.

Lemma path_div_prefix p q : head q <> Some 47 -> p `prefix_of` path_div p q.
Proof.
  intros Hq. unfold path_div. rewrite decide_False by done.
  destruct (last p) as [x|] eqn:Hl; [case_match; by apply prefix_app_r |].
  apply last_None in Hl as ->. apply prefix_nil.
Qed.

Lemma plain_head hash : 47 ∉ hash -> head hash <> Some 47.
Proof. destruct hash as [|x hash]; [done |]. intros H [= ->]. apply H. by left. Qed.

Lemma plain_nth hash i : 47 ∉ hash -> Znth hash i <> 47.
Proof.
  intros H Heq. unfold Znth in Heq. destruct (nth_in_or_default (Z.to_nat i) hash 0) as [Hin | Hd].
  - rewrite Heq in Hin. by apply list_elem_of_In in Hin.
  - rewrite Hd in Heq. done.
Qed.

Lemma CommonPath_below hash c : 47 ∉ hash -> exists pre, CommonPath hash c = pre ++ [47] ++ hash.
Proof.
  intros Hh. apply path_div_below; [| by apply plain_head]. by apply path_div_nonempty.
Qed.

Lemma entry_file_prefix hash c p : 47 ∉ hash -> entry_file hash c p -> path_ c `prefix_of` p.
Proof.
  intros Hh (ext & _ & ->). unfold AppendExtension. apply prefix_app_r. unfold CommonPath, SecondPath.
  assert (forall i, head [Znth hash i] <> Some 47) as Hn
    by (intros i [= Heq]; by apply (plain_nth hash i Hh)).
  do 2 (etransitivity; [apply path_div_prefix, Hn |]). apply path_div_prefix. by apply plain_head.
Qed.

(** What follows the last slash is determined. *)
Lemma last_component (pre1 pre2 x y : list Z) :
  47 ∉ x -> 47 ∉ y -> pre1 ++ [47] ++ x = pre2 ++ [47] ++ y -> x = y.
Proof.
  revert pre2. induction pre1 as [|a pre1 IH]; intros [|b pre2] Hx Hy Heq; simpl in Heq.
  - congruence.
  - injection Heq as <- Heq. destruct Hx. rewrite Heq. apply elem_of_app. right. left.
  - injection Heq as -> Heq. destruct Hy. rewrite <-Heq. apply elem_of_app. right. left.
  - injection Heq as -> Heq. by eapply IH.
Qed.

Lemma before_dot (x1 x2 y1 y2 : list Z) : 46 ∉ x1 -> 46 ∉ x2 -> x1 ++ 46 :: y1 = x2 ++ 46 :: y2 -> x1 = x2.
Proof.
  revert x2. induction x1 as [|a x1 IH]; intros [|b x2] H1 H2 Heq; simpl in Heq; simplify_eq; [done | | |].
  - destruct H2. by left.
  - destruct H1. by left.
  - apply not_elem_of_cons in H1 as [_ H1], H2 as [_ H2]. f_equal. by eapply IH.
Qed.

Lemma entry_file_inj h1 h2 c p : plain h1 -> plain h2 -> entry_file h1 c p -> entry_file h2 c p -> h1 = h2.
Proof.
  intros [S1 D1] [S2 D2] (e1 & E1 & ->) (e2 & E2 & Heq). unfold AppendExtension in Heq.
  destruct (CommonPath_below h1 c S1) as [pre1 P1], (CommonPath_below h2 c S2) as [pre2 P2].
  rewrite P1, P2, <-!app_assoc in Heq.
  assert (h1 ++ lit "." ++ e1 = h2 ++ lit "." ++ e2) as Hn.
  { eapply last_component; [| | exact Heq]; rewrite !not_elem_of_app; split_and!; try done;
      by apply (bool_decide_unpack _). }
  exact (before_dot h1 h2 e1 e2 D1 D2 Hn).
Qed.

(** ** The operations *)

Lemma File_Write_touches e hash c p x :
  entry_file hash c p -> touches hash c (set_files (File_Write e p x (files c)).2 c).
Proof.
  intros Hp. split; [done |]. intros q Hq. simpl. unfold File_Write.
  assert (q <> p) by (by intros ->). assert (q <> p ++ lit ".tmp") by (intros ->; by apply Hq, entry_file_tmp).
  destruct (w_open (writes e p)), (w_rename (writes e p)); simpl;
    by rewrite ?lookup_insert_ne, ?lookup_delete_ne.
Qed.

Lemma RemoveEntry_touches e hash c : touches hash c (RemoveEntry e hash c).2.
Proof.
  split; [apply RemoveEntry_frame |]. intros q Hq. unfold RemoveEntry.
  destruct (entry_files hash c) as (Hm & Ho & Hd & Hs).
  assert (forall p, entry_file hash c p -> q <> p) as Hne by (intros p Hp ->; done).
  destruct (remove_part _ (stderr_path hash c) _) as [[r n] fs] eqn:Hr.
  assert (fs !! q = files c !! q) as Hfs.
  { apply (f_equal snd) in Hr. cbn [snd] in Hr. subst fs. by rewrite !remove_part_path by (apply Hne; assumption). }
  unfold File_Delete. destruct (_ && _); simpl; [rewrite lookup_delete_ne by (specialize (Hne _ Hm); congruence) |]; done.
Qed.

Section Operations.
Context (print : Manifest -> list Z) (Compress : list Z -> option (list Z)).

Lemma store_file_touches e hash c p x packed :
  entry_file hash c p -> touches hash c (store_file e p x packed c).2.
Proof.
  intros Hp. unfold store_file. case_decide; [apply touches_refl |].
  pose proof (File_Write_touches e hash c p packed Hp). by destruct (File_Write e p packed (files c)).
Qed.

Lemma RemoveEntry_after e hash c c' : touches hash c c' -> touches hash c (RemoveEntry e hash c').2.
Proof. intros H. eapply touches_trans; [exact H | apply RemoveEntry_touches]. Qed.

Lemma SaveToFile_touches e hash c c' m l :
  touches hash c c' ->
  touches hash c
    (let '(ok, fs) := SaveToFile print e (manifest_path hash c') m (files c') in
     let c := set_files fs c' in
     if negb ok then (tt, (RemoveEntry e hash c).2) else (tt, set_new_entries (new_entries c ++ l) c)).2.
Proof.
  intros Hc. unfold SaveToFile.
  pose proof (File_Write_touches e hash c' (manifest_path hash c') (print m) (proj1 (entry_files hash c'))) as Hw.
  destruct (File_Write e (manifest_path hash c') (print m) (files c')) as [ok fs].
  destruct ok; simpl; [| apply RemoveEntry_after]; eapply touches_trans; eauto.
Qed.

Lemma store_body_touches e hash entry c : touches hash c (store_body print Compress e hash entry c).2.
Proof.
  unfold store_body. destruct (mkdir_ok e); simpl; [| apply touches_refl].
  destruct (entry_files hash c) as (_ & _ & _ & Hs).
  pose proof (store_file_touches e hash c (stderr_path hash c) (stderr entry) (stderr entry) Hs) as T1.
  destruct (store_file e (stderr_path hash c) _ _ c) as [ok1 c1]. simpl in T1.
  destruct ok1; simpl; [| by apply RemoveEntry_after]. case_match; [| by apply RemoveEntry_after].
  destruct (entry_files hash c1) as (_ & Ho & _ & _).
  pose proof (store_file_touches e hash c1 (object_path hash c1) (object entry) l Ho) as T2.
  destruct (store_file e (object_path hash c1) _ _ c1) as [ok2 c2]. simpl in T2.
  pose proof (touches_trans _ _ _ _ T1 T2) as T12.
  destruct ok2; simpl; [| by apply RemoveEntry_after].
  destruct (entry_files hash c2) as (_ & _ & Hd & _).
  pose proof (store_file_touches e hash c2 (deps_path hash c2) (deps entry) (deps entry) Hd) as T3.
  destruct (store_file e (deps_path hash c2) _ _ c2) as [ok3 c3]. simpl in T3.
  pose proof (touches_trans _ _ _ _ T12 T3) as T123.
  destruct ok3; simpl; [| by apply RemoveEntry_after]. by apply SaveToFile_touches.
Qed.

Lemma dostore_body_touches e orig headers pre dir hash c :
  touches orig c (dostore_body print e orig headers pre dir hash c).2.
Proof.
  unfold dostore_body. destruct (mkdir_ok e); simpl; [| apply touches_refl].
  destruct (hash_headers _ _ headers _ _ _) as [hs st]. destruct (hash_headers _ _ pre _ _ _) as [hs' st'].
  destruct (rope_hash hs') as [key|]; [| apply touches_refl].
  destruct (db_set_ok e); simpl; [| apply touches_refl]. set (c1 := set_database _ c).
  apply (touches_trans _ _ c1); [done |]. apply (SaveToFile_touches e orig c1 c1), touches_refl.
Qed.

End Operations.

(** What an entry holds is unchanged by work on another entry. *)
Lemma stored_touches parse Uncompress orig hash entry c c' :
  plain orig -> plain hash -> orig <> hash -> touches orig c c' ->
  stored parse Uncompress hash entry c -> stored parse Uncompress hash entry c'.
Proof.
  intros Po Ph Hne [Hp Hf] (m & v & Hm & Hk & Hr).
  assert (forall p, entry_file hash c p -> files c' !! p = files c !! p) as Hsame.
  { intros p He. apply Hf. intros Ho. apply Hne. by eapply entry_file_inj. }
  destruct (entry_files hash c) as (Em & Eo & Ed & Es).
  assert (CommonPath hash c' = CommonPath hash c) as Hcp by (unfold CommonPath, SecondPath; by rewrite Hp).
  exists m, v. split_and!; [| done |].
  - rewrite <-Hm. unfold LoadFromFile, File_Read, manifest_path in *. rewrite Hcp. by rewrite Hsame.
  - rewrite <-Hr. unfold read_entry, File_Read, stderr_path, object_path, deps_path in *. rewrite Hcp.
    by rewrite !Hsame.
Qed.
