(* ===== verification/CommandLines.v ===== *)
(** Command lines and dependency files of the compilation daemons: the helpers
    and the process arguments of [src/src/daemon/compilation_daemon.cc].  A
    [CommandLine] is the string its [Immutable] holds. *)

From S2P Require Import Prelude StringUtils Messages.

#[local] Open Scope Z_scope.

(** ** Paths *)

Definition slash : Z := 47.

Definition GetRelativePath (current_dir input : list Z) : list Z :=
  if (length input <? length current_dir)%nat then input
  else if (length input =? length current_dir)%nat
  then (if decide (input = current_dir) then lit "." else input)
  else if decide (substr input 0 (length current_dir) = current_dir)
  then drop (length current_dir + 1) input
  else input.

(** [path[0]] of an empty string is its terminator. *)
Definition GetFullPath (current_dir path : list Z) : list Z :=
  if Znth path 0 =? slash then path else current_dir ++ lit "/" ++ path.

(** [find_last_of('/')] *)
Fixpoint find_last_of (c : Z) (s : list Z) : option nat :=
  match s with
  | [] => None
  | x :: s => match find_last_of c s with
              | Some i => Some (S i)
              | None => if x =? c then Some 0%nat else None
              end
  end.

(** ** Argument lists *)

(** [std::multimap::emplace]: after the elements with an equal key. *)
Fixpoint emplace (k : Z) (v : list Z) (m : list (Z * list Z)) : list (Z * list Z) :=
  match m with
  | [] => [(k, v)]
  | (k', v') :: m' => if k <? k' then (k, v) :: m else (k', v') :: emplace k v m'
  end.

Definition emplace_arg (m : list (Z * list Z)) (arg : Argument) : list (Z * list Z) :=
  fold_left (fun m value => emplace (index arg) value m) (values arg) m.

Definition argument_map (arg_lists : list (list Argument)) : list (Z * list Z) :=
  fold_left (fun m arg_list => fold_left emplace_arg arg_list m) arg_lists [].

Definition CreateArgumentList (arg_lists : list (list Argument)) : list (list Z) :=
  (argument_map arg_lists).*2.

(** ** Cache command lines *)

Definition language_suffix (flags : Flags) : list Z :=
  match language flags with Some l => lit " -x " ++ l | None => [] end.

Definition CommandLineForSimpleCache (flags : Flags) : list Z :=
  let arg_list := CreateArgumentList [other flags; cc_only flags] in
  JoinString [32] arg_list ++ language_suffix flags.

(** [flags.input().substr(0, flags.input().find_last_of('/'))] *)
Definition input_path (flags : Flags) : list Z :=
  match find_last_of slash (str (input flags)) with
  | Some i => substr (str (input flags)) 0 i
  | None => str (input flags)
  end.

Definition CommandLineForDirectCache (current_dir : list Z) (flags : Flags) : list Z :=
  let args_list := CreateArgumentList [other flags; cc_only flags; non_cached flags] in
  JoinString [32] args_list ++ language_suffix flags
    ++ lit " -I" ++ GetRelativePath current_dir (input_path flags).

(** ** Dependency files *)

(** [ParseDeps(deps, headers)]: [None] is undefined behaviour ([front] of an
    empty list), [Some None] the answer [false]. *)
Definition ParseDeps (deps : list Z) (headers : list (list Z)) : option (option (list (list Z))) :=
  deps ← Replace deps [92; 10] [];
  lines ← SplitString_nl deps [];
  front ← head lines;
  match find_sub [58] front with
  | None => Some None
  | Some deps_start => Some <$> SplitString_char 32 (drop (deps_start + 1) front) headers
  end.

(** ** The compiler process *)

Record Process := { exec_path : list Z; cwd_path : list Z; uid : Z; args : list (list Z) }.

Definition SAME_UID : Z := 0.

(** The arguments after the indexed ones. *)
Definition plugin_args (flags : Flags) : list (list Z) :=
  plugins (compiler flags) ≫= fun plugin => [lit "-load"; str (plugin_path plugin)].

Definition optional_arg (name : list Z) (value : option (list Z)) : list (list Z) :=
  match value with Some v => [name; v] | None => [] end.

Definition CreateProcess (flags : Flags) (user_id : Z) (cwd : list Z) : Process :=
  {| exec_path := str (compiler_path (compiler flags)); cwd_path := cwd; uid := user_id;
     args := CreateArgumentList [other flags; non_cached flags; non_direct flags]
             ++ [action flags]
             ++ plugin_args flags
             ++ optional_arg (lit "-dependency-file") (deps_file flags)
             ++ optional_arg (lit "-x") (language flags)
             ++ match sanitize_blacklist flags with
                | Some l => [lit "-fsanitize-blacklist=" ++ l]
                | None => []
                end
             ++ optional_arg (lit "-o") (output flags)
             ++ match input flags with Some i => [i] | None => [] end |}.

(** ** Lemmas: the multimap is the stable sort of the values by index *)

(** The values with their indices, in the order of the lists. *)
Definition arg_entries (l : list Argument) : list (Z * list Z) :=
  l ≫= fun a => map (pair (index a)) (values a).

Definition keys_sorted (m : list (Z * list Z)) : Prop := StronglySorted Z.le m.*1.

Lemma keys_sorted_cons k v m :
  keys_sorted ((k, v) :: m) <-> keys_sorted m /\ (forall p, p ∈ m -> k <= p.1).
Proof.
  unfold keys_sorted. rewrite fmap_cons. split.
  - intros [Hm Hk]%StronglySorted_inv. split; [done |].
    exact (proj1 (Forall_forall _ _) (proj1 (Forall_fmap fst _ m) Hk)).
  - intros [Hm Hk]. constructor; [done |].
    exact (proj2 (Forall_fmap fst _ m) (proj2 (Forall_forall _ _) Hk)).
Qed.

Lemma emplace_perm k v m : emplace k v m ≡ₚ (k, v) :: m.
Proof.
  induction m as [|[k' v'] m IH]; [done |]. cbn [emplace]. case_if; [done |].
  rewrite IH. apply Permutation_swap.
Qed.

Lemma emplace_keys_sorted k v m : keys_sorted m -> keys_sorted (emplace k v m).
Proof.
  induction m as [|[k' v'] m IH]; cbn [emplace]; intros Hm; [by repeat constructor |].
  apply keys_sorted_cons in Hm as Hm'. destruct Hm' as [Hs Hk]. case_if; apply keys_sorted_cons.
  - split; [done |]. intros p [-> | Hp]%elem_of_cons; simpl; [lia |]. specialize (Hk p Hp). lia.
  - split; [by apply IH |]. intros p Hp. rewrite emplace_perm in Hp.
    apply elem_of_cons in Hp as [-> | Hp]; [simpl; lia | by apply Hk].
Qed.

Lemma emplace_filter k v m i :
  keys_sorted m ->
  filter (fun p => p.1 = i) (emplace k v m)
  = filter (fun p => p.1 = i) m ++ (if decide (k = i) then [(k, v)] else []).
Proof.
  induction m as [|[k' v'] m IH]; cbn [emplace]; intros Hm.
  - rewrite filter_cons, filter_nil. simpl. by case_decide.
  - apply keys_sorted_cons in Hm as [Hm Hk']. case_if.
    + rewrite filter_cons. simpl. case_decide as Hk; [| by rewrite app_nil_r]. subst i.
      assert (filter (fun p : Z * list Z => p.1 = k) ((k', v') :: m) = []) as ->; [| done].
      apply filter_none. intros p [-> | Hp]%elem_of_cons; simpl; [lia |]. specialize (Hk' p Hp). lia.
    + rewrite !(filter_cons _ (k', v')), IH by done. destruct (decide ((k', v').1 = i)); done.
Qed.

(** What the map holds after inserting a list of entries. *)
Record map_of (entries m : list (Z * list Z)) : Prop := {
  map_sorted : keys_sorted m;
  map_stable : forall i, filter (fun p => p.1 = i) m = filter (fun p => p.1 = i) entries;
  map_perm : m ≡ₚ entries
}.

Lemma map_of_emplace l k v m : map_of l m -> map_of (l ++ [(k, v)]) (emplace k v m).
Proof.
  intros [Hs Hf Hp]. split.
  - by apply emplace_keys_sorted.
  - intros i. rewrite emplace_filter, filter_app, Hf, filter_cons, filter_nil by done. done.
  - rewrite emplace_perm, Hp. apply Permutation_cons_append.
Qed.

Lemma map_of_arg l a m : map_of l m -> map_of (l ++ map (pair (index a)) (values a)) (emplace_arg m a).
Proof.
  unfold emplace_arg. generalize (values a) as vs. intros vs. revert l m.
  induction vs as [|v vs IH]; intros l m Hm; simpl; [by rewrite app_nil_r |].
  replace (l ++ _ :: _) with ((l ++ [(index a, v)]) ++ map (pair (index a)) vs) by (by rewrite <-app_assoc).
  apply IH. by apply map_of_emplace.
Qed.

Lemma map_of_args l al m : map_of l m -> map_of (l ++ arg_entries al) (fold_left emplace_arg al m).
Proof.
  revert l m. induction al as [|a al IH]; intros l m Hm; simpl; [by rewrite app_nil_r |].
  rewrite app_assoc. apply IH. by apply map_of_arg.
Qed.

Lemma arg_entries_app l k : arg_entries (l ++ k) = arg_entries l ++ arg_entries k.
Proof. apply bind_app. Qed.

Lemma argument_map_of als : map_of (arg_entries (concat als)) (argument_map als).
Proof.
  unfold argument_map.
  cut (forall l m, map_of l m ->
         map_of (l ++ arg_entries (concat als)) (fold_left (fun m al => fold_left emplace_arg al m) als m)).
  { intros H. apply (H [] []). split; [constructor | done | done]. }
  induction als as [|al als IH]; intros l m Hm; simpl; [by rewrite app_nil_r |].
  rewrite arg_entries_app, app_assoc. apply IH. by apply map_of_args.
Qed.

(** Two sorted lists with the same entries under every key are equal. *)
Lemma sorted_head (k k2 : Z) (v v2 : list Z) m1 m2 :
  keys_sorted ((k2, v2) :: m2) ->
  filter (fun p => p.1 = k) ((k, v) :: m1) = filter (fun p => p.1 = k) ((k2, v2) :: m2) -> k2 <= k.
Proof.
  intros [_ H2]%keys_sorted_cons Hf. rewrite (filter_cons_True _ (k, v)) in Hf by done.
  assert ((k, v) ∈ filter (fun p : Z * list Z => p.1 = k) ((k2, v2) :: m2)) as Hin
    by (rewrite <-Hf; left).
  apply list_elem_of_filter in Hin as [_ [[= -> ->] | Hin]%elem_of_cons]; [done |]. exact (H2 _ Hin).
Qed.

Lemma sorted_stable_eq (m1 m2 : list (Z * list Z)) :
  keys_sorted m1 -> keys_sorted m2 ->
  (forall i, filter (fun p => p.1 = i) m1 = filter (fun p => p.1 = i) m2) -> m1 = m2.
Proof.
  revert m2. induction m1 as [|[k v] m1 IH]; intros m2 H1 H2 Hf.
  - destruct m2 as [|[k v] m2]; [done |]. specialize (Hf k).
    by rewrite filter_nil, filter_cons_True in Hf.
  - destruct m2 as [|[k2 v2] m2].
    { specialize (Hf k). by rewrite filter_nil, filter_cons_True in Hf. }
    assert (k = k2) as <-.
    { apply Z.le_antisymm; [| by eapply sorted_head].
      eapply (sorted_head k2 k v2 v); [exact H1 | symmetry; apply Hf]. }
    pose proof (Hf k) as Hfk. rewrite !filter_cons_True in Hfk by done. simplify_eq.
    apply keys_sorted_cons in H1 as [H1 _], H2 as [H2 _].
    f_equal. apply IH; [done | done |]. intros i. specialize (Hf i).
    rewrite !filter_cons in Hf. simpl in Hf. destruct (decide (k = i)); [by simplify_eq | done].
Qed.

Lemma filter_key_entry i a :
  filter (fun p => p.1 = i) (map (pair (index a)) (values a))
  = if decide (index a = i) then map (pair (index a)) (values a) else [].
Proof.
  case_decide as Hi.
  - apply filter_all. by intros p (v & -> & _)%list_elem_of_fmap.
  - apply filter_none. by intros p (v & -> & _)%list_elem_of_fmap.
Qed.

Lemma filter_key_entries i l :
  filter (fun p => p.1 = i) (arg_entries l) = arg_entries (filter (fun a => index a = i) l).
Proof.
  induction l as [|a l IH]; [done |]. unfold arg_entries in *. cbn [mbind list_bind].
  rewrite filter_app, IH, filter_key_entry, filter_cons. by case_decide.
Qed.

Lemma values_of_entries l : (arg_entries l).*2 = l ≫= values.
Proof.
  induction l as [|a l IH]; [done |]. unfold arg_entries in *. cbn [mbind list_bind].
  rewrite fmap_app, IH. f_equal. induction (values a) as [|v vs IHv]; [done |]. simpl. by f_equal.
Qed.

Lemma keys_of_entries l :
  StronglySorted Z.le (index <$> l) -> keys_sorted (arg_entries l).
Proof.
  induction l as [|a l IH]; cbn [fmap list_fmap]; intros Hs; [constructor |].
  apply StronglySorted_inv in Hs as [Hs Ha]. specialize (IH Hs).
  unfold arg_entries in *. cbn [mbind list_bind].
  induction (values a) as [|v vs IHv]; [exact IH |]. simpl. apply keys_sorted_cons. split; [exact IHv |].
  intros p [(w & -> & _)%list_elem_of_fmap | Hp]%elem_of_app; [done |].
  apply list_elem_of_bind in Hp as (b & (w & -> & _)%list_elem_of_fmap & Hb). simpl.
  eapply (proj1 (Forall_forall _ _) Ha). by apply list_elem_of_fmap_2.
Qed.

Lemma strongly_sorted_le l : StronglySorted Z.lt l -> StronglySorted Z.le l.
Proof. induction 1 as [|x l _ IH Hx]; constructor; [done |]. eapply Forall_impl; [exact Hx |]. simpl. lia. Qed.

(** With distinct indices the lists can be told apart by their elements only. *)
Lemma filter_index_unique i (l k : list Argument) :
  StronglySorted Z.lt (index <$> l) -> k ≡ₚ l ->
  filter (fun a => index a = i) k = filter (fun a => index a = i) l.
Proof.
  intros Hs Hp.
  assert (length (filter (fun a => index a = i) l) <= 1)%nat as Hlen.
  { clear Hp. induction l as [|a l IH]; cbn [fmap list_fmap] in *; [simpl; lia |].
    apply StronglySorted_inv in Hs as [Hs Ha]. rewrite filter_cons. case_decide as Hi; [| by apply IH].
    rewrite filter_none; [done |]. intros b Hb.
    assert (index a < index b); [| lia].
    eapply (proj1 (Forall_forall _ _) Ha). by apply list_elem_of_fmap_2. }
  assert (filter (fun a => index a = i) k ≡ₚ filter (fun a => index a = i) l) as Hf by (by rewrite Hp).
  destruct (filter _ l) as [|a [|]]; simpl in *; [| | lia].
  - by apply Permutation_nil_r in Hf.
  - by apply Permutation_singleton_r in Hf.
Qed.

Lemma CreateArgumentList_stable als l :
  StronglySorted Z.le (index <$> l) ->
  (forall i, filter (fun a => index a = i) (concat als) = filter (fun a => index a = i) l) ->
  CreateArgumentList als = l ≫= values.
Proof.
  intros Hs Hi. unfold CreateArgumentList. destruct (argument_map_of als) as [Hk Hf _].
  rewrite (sorted_stable_eq (argument_map als) (arg_entries l)); [apply values_of_entries | done | |].
  - by apply keys_of_entries.
  - intros i. by rewrite Hf, !filter_key_entries, Hi.
Qed.

Lemma CreateArgumentList_eq als l :
  concat als ≡ₚ l -> StronglySorted Z.lt (index <$> l) -> CreateArgumentList als = l ≫= values.
Proof.
  intros Hp Hs. apply CreateArgumentList_stable; [by apply strongly_sorted_le |].
  intros i. by apply filter_index_unique.
Qed.

(** ** Lemmas: splitting a command line *)

Lemma fields_snoc_char d (x y : list Z) :
  fields [d] (x ++ d :: y) = fields [d] x ++ fields [d] y.
Proof.
  remember (length x) as n eqn:Hn. revert x Hn. induction n as [n IH] using lt_wf_ind. intros x ->.
  rewrite (fields_unfold [d] x) by done. destruct (find_sub [d] x) as [i|] eqn:Hf.
  - pose proof (find_sub_bound _ _ _ Hf) as Hb. simpl in Hb.
    apply find_sub_Some in Hf as (H1 & H2 & H3).
    rewrite fields_unfold by done. rewrite (proj2 (find_sub_Some _ _ i)).
    + rewrite take_app_le by lia. simpl length. rewrite drop_app_le by lia. simpl. f_equal.
      eapply IH; [| reflexivity]. rewrite length_drop. lia.
    + rewrite length_app. split_and!; [| lia |].
      * rewrite drop_app_le by lia. by apply prefix_app_r.
      * intros j Hj Hpre. apply (H3 j Hj). rewrite drop_app_le in Hpre by lia.
        destruct (drop j x) as [|c r] eqn:Hd.
        -- apply (f_equal length) in Hd. rewrite length_drop in Hd. simpl in Hd. lia.
        -- apply prefix_cons_inv_1 in Hpre as ->. apply prefix_cons, prefix_nil.
  - rewrite fields_unfold by done. rewrite (proj2 (find_sub_Some _ _ (length x))).
    + simpl length. rewrite take_app_length, <-Nat.add_1_r.
      change (x ++ d :: y) with (x ++ [d] ++ y). rewrite app_assoc.
      by rewrite drop_app_length' by (rewrite length_app; simpl; lia).
    + rewrite drop_app_length, length_app. split_and!; [apply prefix_cons, prefix_nil | lia |].
      intros j Hj Hpre. eapply (proj1 (find_sub_None _ _) Hf j).
      rewrite drop_app_le in Hpre by lia. destruct (drop j x) as [|c r] eqn:Hd.
      * apply (f_equal length) in Hd. rewrite length_drop in Hd. simpl in Hd. lia.
      * apply prefix_cons_inv_1 in Hpre as ->. apply prefix_cons, prefix_nil.
Qed.

(** The words of a string. *)
Definition words (s : list Z) : list (list Z) := filter nonempty (fields [32] s).

Definition is_word (w : list Z) : Prop := w <> [] /\ 32 ∉ w.

#[export] Instance is_word_dec w : Decision (is_word w).
Proof. apply _. Defined.

Lemma words_app x y : words (x ++ 32 :: y) = words x ++ words y.
Proof. unfold words. by rewrite fields_snoc_char, filter_app. Qed.

Lemma words_word w : is_word w -> words w = [w].
Proof.
  intros [Hw Hs]. unfold words. pose proof (fields_join_char 32 [w] ltac:(done) ltac:(by repeat constructor)) as Hf.
  simpl in Hf. rewrite Hf. apply filter_nonempty_all. by constructor.
Qed.

Lemma words_join l : Forall is_word l -> words (join [32] l) = l.
Proof.
  intros HF. unfold words. destruct (decide (l = [])) as [-> | Hl]; [done |].
  rewrite fields_join_char; [| done | by eapply Forall_impl; [exact HF |]; intros ? []].
  apply filter_nonempty_all. by eapply Forall_impl; [exact HF |]; intros ? [].
Qed.

Lemma SplitString_words s : SplitString_char 32 s [] = Some (words s).
Proof. unfold SplitString_char. by rewrite SplitString_eq. Qed.

(** The words a language adds. *)
Definition language_args (flags : Flags) : list (list Z) :=
  match language flags with Some l => [lit "-x"; l] | None => [] end.

Lemma words_language s flags :
  Forall is_word (language_args flags) -> words (s ++ language_suffix flags) = words s ++ language_args flags.
Proof.
  unfold language_args, language_suffix. destruct (language flags) as [l|]; intros Hl; [| by rewrite !app_nil_r].
  apply Forall_cons in Hl as [_ [Hl _]%Forall_cons].
  change (lit " -x " ++ l) with (32 :: (lit "-x" ++ 32 :: l)).
  rewrite !words_app, (words_word l) by done. reflexivity.
Qed.

Lemma words_arguments als :
  Forall (fun a => Forall is_word (values a)) (concat als) ->
  words (JoinString [32] (CreateArgumentList als)) = CreateArgumentList als.
Proof.
  intros Ha. rewrite JoinString_eq. apply words_join. unfold CreateArgumentList.
  destruct (argument_map_of als) as [_ _ ->]. rewrite values_of_entries.
  apply Forall_bind. exact Ha.
Qed.

(** ** Lemmas: dependency files *)

(** [Replace(deps, "\\\n", "")] as a total function. *)
Definition unfold_lines (s : list Z) : list Z := join [] (fields [92; 10] s).

Lemma join_nil_concat (l : list (list Z)) : join [] l = concat l.
Proof.
  induction l as [|x l IH]; [done |]. destruct l; [simpl; by rewrite app_nil_r |].
  rewrite join_cons by done. simpl in *. by rewrite IH.
Qed.

Lemma find_sub_cons p c s :
  find_sub p (c :: s) = if decide (p `prefix_of` c :: s) then Some 0%nat else S <$> find_sub p s.
Proof. done. Qed.

Lemma unfold_lines_cons c s : c <> 92 -> unfold_lines (c :: s) = c :: unfold_lines s.
Proof.
  intros Hc. unfold unfold_lines. rewrite !join_nil_concat, (fields_unfold _ (c :: s)), (fields_unfold _ s) by done.
  rewrite find_sub_cons, decide_False by (intros H%prefix_cons_inv_1; congruence).
  by destruct (find_sub [92; 10] s).
Qed.

Lemma unfold_lines_app x s : 92 ∉ x -> unfold_lines (x ++ s) = x ++ unfold_lines s.
Proof.
  induction x as [|c x IH]; intros Hx; [done |]. apply not_elem_of_cons in Hx as [Hc Hx].
  simpl. rewrite unfold_lines_cons by congruence. by rewrite IH.
Qed.

Lemma unfold_lines_continuation s : unfold_lines (92 :: 10 :: s) = unfold_lines s.
Proof.
  unfold unfold_lines. rewrite !join_nil_concat, (fields_unfold _ (92 :: _)) by done.
  rewrite find_sub_cons, decide_True by (by exists s). done.
Qed.

(** A rule of a dependency file as clang prints it: the target, a colon, then
    each prerequisite after a space or after a continued line, and a newline. *)
Definition separator (folded : bool) : list Z := if folded then 32 :: 92 :: 10 :: [32; 32] else [32].

Definition prerequisites (l : list (bool * list Z)) : list Z := l ≫= fun p => separator p.1 ++ p.2.

Definition make_rule (target : list Z) (l : list (bool * list Z)) : list Z :=
  target ++ 58 :: prerequisites l ++ [10].

(** The same without the continuations. *)
Definition flat (l : list (bool * list Z)) : list Z :=
  l ≫= fun p : bool * list Z => (if p.1 then [32; 32; 32] else [32]) ++ p.2.

Definition plain_name (x : list Z) : Prop := x <> [] /\ 32 ∉ x /\ 10 ∉ x /\ 92 ∉ x.

Lemma unfold_prerequisites l s :
  Forall (fun p : bool * list Z => plain_name p.2) l ->
  unfold_lines (prerequisites l ++ s) = flat l ++ unfold_lines s.
Proof.
  induction 1 as [|[b x] l (_ & _ & _ & Hx) HF IH]; [done |].
  unfold prerequisites, flat in *. cbn [mbind list_bind fst snd] in *. rewrite <-!app_assoc.
  assert (forall t : list Z, unfold_lines (separator b ++ t) = (if b then [32; 32; 32] else [32]) ++ unfold_lines t) as ->.
  { intros t. destruct b; simpl; rewrite unfold_lines_cons by done; [| done].
    rewrite unfold_lines_continuation, !unfold_lines_cons by done. done. }
  by rewrite unfold_lines_app, IH.
Qed.

Lemma words_flat l :
  Forall (fun p : bool * list Z => plain_name p.2) l -> words (flat l) = l.*2.
Proof.
  induction l as [|[b x] l IH] using rev_ind; intros HF; [done |].
  apply Forall_app in HF as [HF [(H1 & H2 & _) _]%Forall_cons].
  unfold flat in *. rewrite bind_app, fmap_app. cbn [mbind list_bind fst snd]. rewrite app_nil_r.
  assert (is_word x) as Hx by (split; assumption).
  destruct b; cbn [app]; rewrite ?words_app.
  - change (32 :: 32 :: x) with ([] ++ 32 :: ([] ++ 32 :: x)). rewrite !words_app, IH, (words_word x) by done. done.
  - rewrite IH, (words_word x) by done. done.
Qed.

Lemma flat_no_newline l : Forall (fun p : bool * list Z => plain_name p.2) l -> 10 ∉ flat l.
Proof.
  induction 1 as [|[b x] l (_ & _ & Hx & _) HF IH]; [apply not_elem_of_nil |].
  unfold flat in *. cbn [mbind list_bind fst snd] in *. rewrite !not_elem_of_app. split; [| done].
  split; [| done]. destruct b; by apply (bool_decide_unpack _).
Qed.

Lemma find_sub_char c (x y : list Z) : c ∉ x -> find_sub [c] (x ++ c :: y) = Some (length x).
Proof.
  intros Hc. apply find_sub_Some. rewrite drop_app_length, length_app.
  split_and!; [apply prefix_cons, prefix_nil | lia |].
  intros j Hj Hpre. rewrite drop_app_le in Hpre by lia.
  destruct (drop j x) as [|d r] eqn:Hd.
  - apply (f_equal length) in Hd. rewrite length_drop in Hd. simpl in Hd. lia.
  - apply prefix_cons_inv_1 in Hpre as <-. apply Hc. eapply (subseteq_drop j). rewrite Hd. by left.
Qed.

Lemma first_line line rest :
  line <> [] -> 10 ∉ line ->
  head (filter nonempty (fields [10] (line ++ 10 :: rest))) = Some line.
Proof.
  intros Hl Hn. rewrite fields_unfold, find_sub_char by done.
  rewrite take_app_length, filter_cons_True by done. done.
Qed.

Lemma ParseDeps_eq deps headers :
  ParseDeps deps headers
  = front ← head (filter nonempty (fields [10] (unfold_lines deps)));
    match find_sub [58] front with
    | None => Some None
    | Some i => Some (Some (headers ++ words (drop (i + 1) front)))
    end.
Proof.
  unfold ParseDeps. rewrite Replace_eq by done. cbn [mbind option_bind].
  rewrite SplitString_nl_eq. cbn [mbind option_bind]. rewrite app_nil_l.
  fold (unfold_lines deps). destruct (head _) as [front|]; [| done]. cbn [mbind option_bind].
  destruct (find_sub _ _); [| done]. unfold SplitString_char. by rewrite SplitString_eq.
Qed.

(** ** Lemmas: relative paths *)

Lemma GetRelativePath_below dir c rest : GetRelativePath dir (dir ++ c :: rest) = rest.
Proof.
  unfold GetRelativePath, substr. rewrite length_app. simpl length.
  destruct (Nat.ltb_spec (length dir + S (length rest)) (length dir)); [lia |].
  destruct (Nat.eqb_spec (length dir + S (length rest)) (length dir)); [lia |].
  rewrite drop_0, take_app_length, decide_True by done.
  by rewrite <-drop_drop, drop_app_length.
Qed.

Lemma GetRelativePath_other dir input : ~ dir `prefix_of` input -> GetRelativePath dir input = input.
Proof.
  intros Hp. unfold GetRelativePath, substr. case_match; [done |].
  case_match; [case_decide as Heq; [subst; by destruct Hp | done] |].
  case_decide as Heq; [| done]. destruct Hp. rewrite drop_0 in Heq. rewrite <-Heq at 1. apply prefix_take.
Qed.

(** ** A concrete command *)

Definition example_flags : Flags :=
  {| compiler := {| compiler_version := lit "clang 4.0"; compiler_path := Some (lit "/bin/clang");
                    plugins := [{| plugin_name := lit "p"; plugin_path := Some (lit "/p.so") |}] |};
     output := Some (lit "t.o"); input := Some (lit "/src/a/t.cc");
     other := [{| index := 1; values := [lit "-cc1"] |}; {| index := 4; values := [lit "-O2"] |}];
     deps_file := Some (lit "t.d"); language := Some (lit "c++");
     non_cached := [{| index := 3; values := [lit "-I"; lit "inc"] |}];
     cc_only := [{| index := 5; values := [lit "-mrelax-all"] |}]; action := lit "-emit-obj";
     non_direct := [{| index := 2; values := [lit "-MT"; lit "t.o"] |}];
     sanitize_blacklist := None; included_files := []; rewrite_includes := Some false |}.

(** ** Properties *)

(** The compiler gets the client's arguments in the client's order.  The
    client numbers its arguments and deals them into groups; whatever group an
    argument went to, the list of indexed arguments of the process is the
    original one, and it precedes the action and the options the daemon adds.
    In general the list is the stable sort of the values by index. *)
Theorem argument_order (flags : Flags) (user_id : Z) (cwd : list Z) (l : list Argument) :
  (exists m, CreateArgumentList [other flags; non_cached flags; non_direct flags] = m.*2 /\
             map_of (arg_entries (other flags ++ non_cached flags ++ non_direct flags)) m) /\
  (other flags ++ non_cached flags ++ non_direct flags ≡ₚ l ->
   StronglySorted Z.lt (index <$> l) ->
   args (CreateProcess flags user_id cwd)
   = (l ≫= values) ++ [action flags]
     ++ (plugins (compiler flags) ≫= fun p => [lit "-load"; str (plugin_path p)])
     ++ optional_arg (lit "-dependency-file") (deps_file flags)
     ++ optional_arg (lit "-x") (language flags)
     ++ (match sanitize_blacklist flags with Some b => [lit "-fsanitize-blacklist=" ++ b] | None => [] end)
     ++ optional_arg (lit "-o") (output flags)
     ++ match input flags with Some i => [i] | None => [] end).
Proof.
  split.
  - exists (argument_map [other flags; non_cached flags; non_direct flags]). split; [done |].
    pose proof (argument_map_of [other flags; non_cached flags; non_direct flags]) as H.
    simpl in H. by rewrite app_nil_r in H.
  - intros Hp Hs. simpl. rewrite (CreateArgumentList_eq _ l); [done | | done].
    simpl. by rewrite app_nil_r.
Qed.

Lemma argument_order_witness :
  args (CreateProcess example_flags 0 [])
  = [lit "-cc1"; lit "-MT"; lit "t.o"; lit "-I"; lit "inc"; lit "-O2"; lit "-emit-obj"; lit "-load"; lit "/p.so";
     lit "-dependency-file"; lit "t.d"; lit "-x"; lit "c++"; lit "-o"; lit "t.o"; lit "/src/a/t.cc"].
Proof.
  pose (l := [{| index := 1; values := [lit "-cc1"] |}; {| index := 2; values := [lit "-MT"; lit "t.o"] |};
              {| index := 3; values := [lit "-I"; lit "inc"] |}; {| index := 4; values := [lit "-O2"] |}]).
  rewrite (proj2 (argument_order example_flags 0 [] l)); [reflexivity | | by repeat constructor].
  unfold l. simpl. apply perm_skip.
  etransitivity; [apply (Permutation_app_comm [_; _] [_]) |]. apply perm_skip. apply perm_swap.
Defined.

(** The command line of the two caches can be read back: its words are the
    cached arguments in order, the language and, for the direct cache, the
    directory of the input, as long as no argument is empty or holds a space;
    an argument that holds one is the same key as two arguments.  The action,
    the output and the dependency file are part of neither key (nor the input of
    the simple one), although another action is another process. *)
Theorem cache_command_lines (flags : Flags) (dir : list Z) :
  (Forall (fun a => Forall is_word (values a)) (other flags ++ cc_only flags ++ non_cached flags) ->
   Forall is_word (language_args flags) -> 32 ∉ GetRelativePath dir (input_path flags) ->
   SplitString_char 32 (CommandLineForSimpleCache flags) []
   = Some (CreateArgumentList [other flags; cc_only flags] ++ language_args flags) /\
   SplitString_char 32 (CommandLineForDirectCache dir flags) []
   = Some (CreateArgumentList [other flags; cc_only flags; non_cached flags] ++ language_args flags
           ++ [lit "-I" ++ GetRelativePath dir (input_path flags)])) /\
  (forall a o d i, let flags' := set_action a (set_output o (set_deps_file d flags)) in
   CommandLineForSimpleCache (set_input i flags') = CommandLineForSimpleCache flags /\
   CommandLineForDirectCache dir flags' = CommandLineForDirectCache dir flags) /\
  (forall a uid cwd, a <> action flags ->
   args (CreateProcess (set_action a flags) uid cwd) <> args (CreateProcess flags uid cwd)) /\
  CreateArgumentList [[{| index := 1; values := [lit "-D"; lit "X"] |}]]
    <> CreateArgumentList [[{| index := 1; values := [lit "-D X"] |}]] /\
  JoinString [32] (CreateArgumentList [[{| index := 1; values := [lit "-D"; lit "X"] |}]])
  = JoinString [32] (CreateArgumentList [[{| index := 1; values := [lit "-D X"] |}]]).
Proof.
  split_and!; [| done | | done | done].
  - intros Ha Hl Hd. rewrite !SplitString_words.
    assert (Forall (fun a => Forall is_word (values a)) (concat [other flags; cc_only flags])) as Ha1.
    { simpl. rewrite app_nil_r. rewrite app_assoc in Ha. by apply Forall_app in Ha as [? _]. }
    assert (Forall (fun a => Forall is_word (values a)) (concat [other flags; cc_only flags; non_cached flags]))
      as Ha2 by (simpl; by rewrite app_nil_r).
    unfold CommandLineForSimpleCache, CommandLineForDirectCache.
    split; f_equal; [by rewrite words_language, words_arguments |].
    change (lit " -I" ++ ?x) with (32 :: (lit "-I" ++ x)).
    rewrite app_assoc, words_app, words_language, words_arguments, words_word; [by rewrite <-app_assoc | | done | done].
    split; [done |]. apply not_elem_of_app. split; [by apply (bool_decide_unpack _) | done].
  - intros a uid cwd Ha Heq. simpl in Heq. apply app_inv_head in Heq. by simplify_eq.
Qed.

Lemma cache_command_lines_witness :
  SplitString_char 32 (CommandLineForDirectCache (lit "/src") example_flags) []
  = Some [lit "-cc1"; lit "-I"; lit "inc"; lit "-O2"; lit "-mrelax-all"; lit "-x"; lit "c++"; lit "-Ia"].
Proof.
  rewrite (proj2 (proj1 (cache_command_lines example_flags (lit "/src")) ltac:(by apply (bool_decide_unpack _))
                    ltac:(by apply (bool_decide_unpack _)) ltac:(by apply (bool_decide_unpack _)))).
  reflexivity.
Defined.

(** Paths relative to the current directory: for a path below it the result
    is exact and [GetFullPath] inverts it, any other path is unchanged.  The
    boundary is not tested: for a sibling whose name extends the directory's
    the next character is dropped and the result names a file inside the
    directory. *)
Theorem relative_path (dir rest : list Z) :
  (Znth rest 0 <> slash ->
   GetRelativePath dir (dir ++ slash :: rest) = rest /\
   GetFullPath dir (GetRelativePath dir (dir ++ slash :: rest)) = dir ++ slash :: rest) /\
  GetRelativePath dir dir = lit "." /\
  (forall input, ~ dir `prefix_of` input -> GetRelativePath dir input = input) /\
  (forall c, c <> slash -> Znth rest 0 <> slash ->
   GetFullPath dir (GetRelativePath dir (dir ++ c :: rest)) = dir ++ slash :: rest /\
   GetFullPath dir (GetRelativePath dir (dir ++ c :: rest)) <> dir ++ c :: rest).
Proof.
  assert (Znth rest 0 <> slash -> GetFullPath dir rest = dir ++ slash :: rest) as Hfull.
  { intros Hr. unfold GetFullPath. by rewrite (proj2 (Z.eqb_neq _ _) Hr). }
  split_and!.
  - intros Hr. rewrite GetRelativePath_below. auto.
  - unfold GetRelativePath. by rewrite Nat.ltb_irrefl, Nat.eqb_refl, decide_True.
  - apply GetRelativePath_other.
  - intros c Hc Hr. rewrite GetRelativePath_below, Hfull by done. split; [done |].
    intros Heq%app_inv_head. congruence.
Qed.

Lemma relative_path_witness :
  GetRelativePath (lit "/a/b") (lit "/a/b/foo/t.cc") = lit "foo/t.cc" /\
  GetFullPath (lit "/a/b") (GetRelativePath (lit "/a/b") (lit "/a/bXfoo")) = lit "/a/b/foo".
Proof.
  destruct (relative_path (lit "/a/b") (lit "foo/t.cc")) as [H1 _].
  destruct (relative_path (lit "/a/b") (lit "foo")) as (_ & _ & _ & H2).
  split; [exact (proj1 (H1 ltac:(done))) | exact (proj1 (H2 88 ltac:(done) ltac:(done)))].
Defined.

(** A dependency file in clang's layout (a target, a colon, prerequisites
    separated by spaces and continued lines, then anything, such as the phony
    rules of [-MP]) is read back: [ParseDeps] returns exactly the names.  A name
    with a space, which make writes with a backslash, is split; a file that
    holds nothing but newlines is undefined behaviour; without a colon in the
    first line the answer is [false]. *)
Theorem ParseDeps_roundtrip (target : list Z) (l : list (bool * list Z)) (rest : list Z)
    (headers : list (list Z)) :
  (58 ∉ target -> 10 ∉ target -> 92 ∉ target -> Forall (fun p => plain_name p.2) l ->
   ParseDeps (make_rule target l ++ rest) headers = Some (Some (headers ++ l.*2))) /\
  ParseDeps (lit "t.o: a.c my\ file.h") [] = Some (Some [lit "a.c"; lit "my\"; lit "file.h"]) /\
  ParseDeps [10] headers = None /\
  ParseDeps (lit "t.o a.c") headers = Some None.
Proof.
  split_and!; [| by vm_compute | done | done]. intros Ht Hn Hb HF.
  rewrite ParseDeps_eq. unfold make_rule. rewrite <-!app_assoc. cbn [app]. rewrite unfold_lines_app by done.
  rewrite unfold_lines_cons, <-app_assoc, unfold_prerequisites by done.
  cbn [app]. rewrite unfold_lines_cons by done.
  replace (target ++ 58 :: flat l ++ 10 :: unfold_lines rest)
    with ((target ++ 58 :: flat l) ++ 10 :: unfold_lines rest) by (by rewrite <-app_assoc).
  rewrite first_line.
  - cbn [mbind option_bind]. rewrite find_sub_char by done.
    rewrite <-drop_drop, drop_app_length. change (drop 1 (58 :: flat l)) with (flat l). by rewrite words_flat.
  - by destruct target.
  - rewrite not_elem_of_app, not_elem_of_cons. split_and!; [done | done | by apply flat_no_newline].
Qed.

Lemma ParseDeps_roundtrip_witness :
  ParseDeps (make_rule (lit "t.o") [(false, lit "t.cc"); (true, lit "/usr/include/a.h")] ++ [10] ++ lit "a.h:") []
  = Some (Some [lit "t.cc"; lit "/usr/include/a.h"]).
Proof.
  apply (proj1 (ParseDeps_roundtrip (lit "t.o") [(false, lit "t.cc"); (true, lit "/usr/include/a.h")]
                  ([10] ++ lit "a.h:") [])).
  1-3: by apply (bool_decide_unpack _).
  repeat constructor; try discriminate; by apply (bool_decide_unpack _).
Defined.
