(* ===== verification/CompilationDaemon.v ===== *)
(** [daemon::CompilationDaemon], the base of the emitter and the absorber: the
    compiler of a request, the checks of a configuration, and the two levels of
    the cache ([src/src/daemon/compilation_daemon.cc]). *)

From S2P Require Import Prelude StringUtils ConstString ConstStringFind ConstStringHash CacheLocks FileCache CacheEntries CacheFrame CacheMigrate CacheClean CacheNames Messages CommandLines.

#[local] Open Scope Z_scope.

(** ** The compiler of a request *)

(** [getCompilerPath]: the path of the first configured version that matches. *)
Fixpoint getCompilerPath (versions : list Compiler) (version : list Z) : option (list Z) :=
  match versions with
  | [] => None
  | conf_version :: versions =>
      if decide (compiler_version conf_version = version) then Some (str (compiler_path conf_version))
      else getCompilerPath versions version
  end.

(** [plugin_map.emplace]: an existing key keeps its value. *)
Definition emplace_plugin (plugin_map : gmap (list Z) (list Z)) (p : Plugin) : gmap (list Z) (list Z) :=
  match plugin_map !! plugin_name p with
  | Some _ => plugin_map
  | None => <[plugin_name p := str (plugin_path p)]> plugin_map
  end.

Definition getPluginsByCompilerVersion (versions : list Compiler) (version : list Z)
    : gmap (list Z) (list Z) :=
  fold_left (fun m conf_version =>
               if decide (compiler_version conf_version = version)
               then fold_left emplace_plugin (plugins conf_version) m else m) versions ∅.

(** The loop over the plugins of a request; it stops at the first plugin that
    is not configured. *)
Fixpoint setup_plugins (plugin_map : gmap (list Z) (list Z)) (l : list Plugin) : bool * list Plugin :=
  match l with
  | [] => (true, [])
  | p :: rest =>
      if has (plugin_path p) then
        let '(ok, rest) := setup_plugins plugin_map rest in (ok, p :: rest)
      else
        match plugin_map !! plugin_name p with
        | None => (false, l)
        | Some path =>
            let '(ok, rest) := setup_plugins plugin_map rest in
            (ok, {| plugin_name := plugin_name p; plugin_path := Some path |} :: rest)
        end
  end.

Definition no_version (text version : list Z) : Status :=
  {| code := NO_VERSION; description := Some (text ++ version) |}.

(** [SetupCompiler(flags, status)], both pointers given: the answer, the flags
    and the status it leaves.  [mutable_path()] creates the field, so that it is
    there, empty, even when the version is unknown. *)
Definition SetupCompiler (conf : Configuration) (flags : Flags) (status : Status)
    : bool * Flags * Status :=
  if has (compiler_path (compiler flags)) then (true, flags, status)
  else
    let version := compiler_version (compiler flags) in
    match getCompilerPath (versions conf) version with
    | None =>
        (false, set_compiler (set_compiler_path (Some []) (compiler flags)) flags,
         no_version (lit "Compiler not found: ") version)
    | Some path =>
        let compiler1 := set_compiler_path (Some path) (compiler flags) in
        let '(ok, l) := setup_plugins (getPluginsByCompilerVersion (versions conf) version)
                          (plugins compiler1) in
        let flags := set_compiler (set_plugins l compiler1) flags in
        if ok then (true, flags, status)
        else (false, flags, no_version (lit "Plugin not found: ") version)
    end.

(** [CompilationDaemon::Check]; the required fields, which [CheckInitialized]
    tests, are fields of the records. *)
Definition has_text (s : option (list Z)) : bool :=
  match s with Some (_ :: _) => true | _ => false end.

Definition Check_versions (conf : Configuration) : bool :=
  forallb (fun version => has_text (compiler_path version) &&
                          forallb (fun plugin => has_text (plugin_path plugin)) (plugins version))
    (versions conf).

(** ** The cache of a daemon *)

(** [cache_] is null unless [cache_on]; [cache] holds the file system too. *)
Record Daemon := { conf : Configuration; cache_on : bool; cache : FileCache }.

Definition with_cache (d : Daemon) (c : FileCache) : Daemon :=
  {| conf := conf d; cache_on := cache_on d; cache := c |}.

Abbreviation extra_files := (list (list Z * ConstString)) (only parsing).

Definition GenerateHash (flags : Flags) (code : ConstString) (extra : extra_files) : option (list Z) :=
  FileCache.Hash code extra (of_String (CommandLineForSimpleCache flags))
    (of_String (compiler_version (compiler flags))).

(** [ReadExtraFiles]: [None] is the answer [false]. *)
Definition ReadExtraFiles (flags : Flags) (current_dir : list Z) (fs : gmap path (list Z))
    : option extra_files :=
  match sanitize_blacklist flags with
  | None => Some []
  | Some blacklist =>
      contents ← File_Read (GetFullPath current_dir blacklist) fs;
      Some [(SANITIZE_BLACKLIST, of_buffer contents (length contents))]
  end.

Definition direct_on (d : Daemon) : bool :=
  cache_on d && match cache_conf (conf d) with Some cc => direct cc | None => false end.

Section Caches.
Context (print : Manifest -> list Z) (parse : list Z -> option Manifest).
Context (Compress Uncompress : list Z -> option (list Z)).
Context (clang_version : list Z).

Definition SearchSimpleCache (e : env) (hash : list Z) (entry : Entry) (d : Daemon)
    : option ((bool * Entry) * Daemon) :=
  if negb (cache_on d) then Some ((false, entry), d)
  else '(r, c) ← Find parse Uncompress e hash entry (cache d); Some (r, with_cache d c).

(** The name of a direct entry; [clang_version] is [clang::getClangFullVersion()]. *)
Definition direct_hash (flags : Flags) (current_dir : list Z) (code : list Z) (extra : extra_files)
    : option (list Z) :=
  UnhandledHash (of_String clang_version) (of_buffer code (length code)) extra
    (of_String (CommandLineForDirectCache current_dir flags))
    (of_String (compiler_version (compiler flags))).

Definition SearchDirectCache (e : env) (flags : Flags) (current_dir : list Z) (entry : Entry) (d : Daemon)
    : option ((bool * Entry) * Daemon) :=
  if negb (direct_on d) then Some ((false, entry), d)
  else
    match File_Read (GetFullPath current_dir (str (input flags))) (files (cache d)) with
    | None => Some ((false, entry), d)
    | Some code =>
        match ReadExtraFiles flags current_dir (files (cache d)) with
        | None => Some ((false, entry), d)
        | Some extra =>
            hash ← direct_hash flags current_dir code extra;
            '(r, c) ← FindDirect parse Uncompress e hash current_dir entry (cache d);
            Some (r, with_cache d c)
        end
    end.

Definition UpdateSimpleCache (e : env) (hash : list Z) (entry : Entry) (d : Daemon) : option Daemon :=
  if negb (cache_on d) then Some d
  else c ← Store print Compress e hash entry (cache d); Some (with_cache d c).

Definition UpdateDirectCache (e : env) (message : Local_) (source : ConstString) (extra : extra_files)
    (entry : Entry) (d : Daemon) : option Daemon :=
  if negb (direct_on d) then Some d
  else if decide (deps entry = []) then Some d
  else
    let flags := local_flags message in
    hash ← GenerateHash flags source extra;
    parsed ← ParseDeps (deps entry) [];
    match parsed with
    | None => Some d
    | Some headers =>
        match File_Read (GetFullPath (current_dir message) (str (input flags))) (files (cache d)) with
        | None => Some d
        | Some original_code =>
            orig ← direct_hash flags (current_dir message) original_code extra;
            c ← DoStore print e orig headers (included_files flags) (current_dir message) hash (cache d);
            Some (with_cache d c)
        end
    end.

End Caches.

(** ** Lemmas: the plugins of a version *)

(** The configured paths of a plugin of a version, in order. *)
Definition configured_plugin (versions : list Compiler) (version name : list Z) : list (list Z) :=
  filter (fun v => compiler_version v = version) versions ≫=
    fun v => map (fun p => str (plugin_path p)) (filter (fun p => plugin_name p = name) (plugins v)).

Lemma emplace_plugins_lookup l m name :
  fold_left emplace_plugin l m !! name
  = match m !! name with
    | Some x => Some x
    | None => head (map (fun p => str (plugin_path p)) (filter (fun p => plugin_name p = name) l))
    end.
Proof.
  revert m. induction l as [|p l IH]; intros m; simpl; [by destruct (m !! name) |].
  rewrite IH, filter_cons. unfold emplace_plugin. destruct (m !! plugin_name p) as [y|] eqn:Hp.
  - case_decide as Hn; [subst name; by rewrite Hp | done].
  - case_decide as Hn; [subst name; by rewrite lookup_insert_eq, Hp | by rewrite lookup_insert_ne].
Qed.

Lemma head_app {A} (l k : list A) : head (l ++ k) = match head l with Some x => Some x | None => head k end.
Proof. by destruct l. Qed.

Lemma getPlugins_lookup vs version name :
  getPluginsByCompilerVersion vs version !! name = head (configured_plugin vs version name).
Proof.
  unfold getPluginsByCompilerVersion, configured_plugin.
  cut (forall m : gmap (list Z) (list Z),
    fold_left (fun m v => if decide (compiler_version v = version) then fold_left emplace_plugin (plugins v) m else m) vs m
      !! name
    = match m !! name with
      | Some x => Some x
      | None => head (filter (fun v => compiler_version v = version) vs ≫=
                  fun v => map (fun p => str (plugin_path p)) (filter (fun p => plugin_name p = name) (plugins v)))
      end).
  { intros H. by rewrite H, lookup_empty. }
  induction vs as [|v vs IH]; intros m; cbn [fold_left]; [by destruct (m !! name) |].
  rewrite IH, filter_cons. case_decide as Hv; [| done].
  cbn [mbind list_bind]. rewrite head_app, emplace_plugins_lookup. by destruct (m !! name).
Qed.

(** A request's plugin and the one the daemon runs. *)
Definition plugin_set (m : gmap (list Z) (list Z)) (p p' : Plugin) : Prop :=
  plugin_name p' = plugin_name p /\
  plugin_path p' = match plugin_path p with Some path => Some path | None => m !! plugin_name p end /\
  has (plugin_path p') = true.

Lemma setup_plugins_spec m l :
  map plugin_name (setup_plugins m l).2 = map plugin_name l /\
  ((setup_plugins m l).1 = true <-> forall p, p ∈ l -> plugin_path p = None -> is_Some (m !! plugin_name p)) /\
  ((setup_plugins m l).1 = true -> Forall2 (plugin_set m) l (setup_plugins m l).2).
Proof.
  induction l as [|p l (IH1 & IH2 & IH3)]; simpl.
  { split_and!; [done | | by constructor]. split; [intros _ p Hp; by apply not_elem_of_nil in Hp | done]. }
  destruct (plugin_path p) as [path|] eqn:Hp; simpl.
  - destruct (setup_plugins m l) as [ok r]. simpl in *. split_and!.
    + by f_equal.
    + rewrite IH2. split; [intros H q [-> | Hq]%elem_of_cons; [congruence | by apply H] | intros H q Hq; apply H; by right].
    + intros Hok. constructor; [| by apply IH3]. unfold plugin_set. by rewrite Hp.
  - destruct (m !! plugin_name p) as [path|] eqn:Hm; simpl.
    + destruct (setup_plugins m l) as [ok r]. simpl in *. split_and!.
      * by f_equal.
      * rewrite IH2. split; [| intros H q Hq; apply H; by right].
        intros H q [-> | Hq]%elem_of_cons; [by rewrite Hm | by apply H].
      * intros Hok. constructor; [| by apply IH3]. unfold plugin_set. simpl. by rewrite Hp, Hm.
    + split_and!; [done | | done]. split; [done |]. intros H. destruct (H p ltac:(left) Hp) as [x Hx]. congruence.
Qed.

(** ** Lemmas: names and locks *)

Lemma hex_plain x : forallb is_hex x = true -> plain x.
Proof.
  rewrite forallb_forall. intros H. split; intros Hin; apply list_elem_of_In in Hin; by specialize (H _ Hin).
Qed.

Lemma Hash_plain code extra command_line ver :
  usable code -> usable command_line -> usable ver -> files_usable extra ->
  exists name, FileCache.Hash code extra command_line ver = Some name /\ plain name.
Proof.
  intros H1 H2 H3 H4. unfold FileCache.Hash.
  destruct (HashCombine_total code extra H1 H4) as (a & -> & Fa & _).
  destruct (hex_hash_digits command_line 4 H2 ltac:(lia)) as (b & -> & Fb & _).
  destruct (hex_hash_digits ver 4 H3 ltac:(lia)) as (d & -> & Fd & _). cbn [mbind option_bind].
  eexists. split; [done |]. apply hex_plain in Fa as [A1 A2], Fb as [B1 B2], Fd as [D1 D2].
  split; rewrite !not_elem_of_app; split_and!; try done; by apply (bool_decide_unpack _).
Qed.

Lemma GenerateHash_plain flags code extra :
  usable code -> files_usable extra ->
  exists name, GenerateHash flags code extra = Some name /\ plain name.
Proof. intros. apply Hash_plain; auto using literal_usable. Qed.

Lemma ReadExtraFiles_usable flags dir fs extra :
  ReadExtraFiles flags dir fs = Some extra -> files_usable extra.
Proof.
  unfold ReadExtraFiles. destruct (sanitize_blacklist flags); [| by intros [= <-]; constructor].
  intros (x & _ & [= <-])%bind_Some. constructor; [| constructor]. by apply buffer_usable.
Qed.

Lemma ReadExtraFiles_ext flags dir fs fs' :
  (forall b, sanitize_blacklist flags = Some b -> fs' !! GetFullPath dir b = fs !! GetFullPath dir b) ->
  ReadExtraFiles flags dir fs' = ReadExtraFiles flags dir fs.
Proof.
  intros H. unfold ReadExtraFiles, File_Read. destruct (sanitize_blacklist flags) as [b|]; [| done]. by rewrite H.
Qed.

Lemma direct_hash_plain clang_version flags dir code extra :
  files_usable extra -> exists name, direct_hash clang_version flags dir code extra = Some name /\ plain name.
Proof.
  intros He. apply Hash_plain; [by apply buffer_usable | apply literal_usable | | done].
  assert (forall s, wf (of_String s)) as Hs by apply literal_usable.
  split; [by repeat apply cs_add_spec | by repeat constructor].
Qed.

(** ** Lemmas: storing, with the locks *)

Definition all_free (c : FileCache) : Prop := forall p, unlocked p (lock_tables c).

Section Storing.
Context (print : Manifest -> list Z) (parse : list Z -> option Manifest).
Context (Compress Uncompress : list Z -> option (list Z)).
Hypothesis parse_print : forall m, parse (print m) = Some m.
Hypothesis uncompress_compress : forall x y, Compress x = Some y -> Uncompress y = Some x.

Lemma Store_ok e hash entry c :
  all_free c -> all_succeed Compress e c (object entry) ->
  exists c', Store print Compress e hash entry c = Some c' /\ lock_tables c' = lock_tables c /\
    touches hash c c' /\ stored parse Uncompress hash entry c'.
Proof.
  intros Hl Hall. unfold Store.
  destruct (with_write_lock_free (manifest_path hash c) tt (store_body print Compress e hash entry) c (Hl _)) as [l ->].
  { intros c1. by apply (store_body_spec print parse Compress Uncompress). }
  destruct (store_body_spec print parse Compress Uncompress parse_print uncompress_compress e hash entry
              (set_locks l c)) as (_ & _ & _ & Hst).
  pose proof (store_body_touches print Compress e hash entry (set_locks l c)) as Ht.
  eexists. split; [done |]. split_and!; [done | exact Ht | by apply Hst].
Qed.

Lemma DoStore_ok e orig headers pre dir hash c :
  all_free c -> mkdir_ok e = true -> db_set_ok e = true ->
  (forall p, w_open (writes e p) = true /\ w_bytes (writes e p) = None /\ w_rename (writes e p) = true) ->
  headers ++ pre <> [] ->
  (forall h, h ∈ headers -> is_Some (File_Hash (header_path dir h) [lit "__DATE__"; lit "__TIME__"] (files c))) ->
  (forall h, h ∈ pre -> is_Some (File_Hash (header_path dir h) [] (files c))) ->
  (forall h, h ∈ headers ++ pre -> ~ entry_file orig c (header_path dir h)) ->
  exists c', DoStore print e orig headers pre dir hash c = Some c' /\ lock_tables c' = lock_tables c /\
    touches orig c c' /\ linked parse orig dir hash (headers ++ pre) c'.
Proof.
  intros Hl Hm Hdb Hw Hne Hh Hp Hout. unfold DoStore.
  destruct (with_write_lock_free (manifest_path orig c) tt (dostore_body print e orig headers pre dir hash) c (Hl _))
    as [l ->]; [intros; apply dostore_body_frame |].
  pose proof (dostore_body_touches print e orig headers pre dir hash (set_locks l c)) as Ht.
  destruct (dostore_linked print parse parse_print e orig headers pre dir hash (set_locks l c)) as [Hlink _]; try done.
  - intros h Hin. specialize (Hout h Hin). destruct (entry_files orig c) as [Em _].
    split; intros Heq; apply Hout; rewrite Heq; [done | by apply entry_file_tmp].
  - eexists. split; [done |]. split_and!; [done | exact Ht | exact Hlink].
Qed.

End Storing.

(** ** Lemmas: configured compilers *)

Lemma getCompilerPath_Some vs version path :
  getCompilerPath vs version = Some path ->
  exists v, v ∈ vs /\ compiler_version v = version /\ path = str (compiler_path v).
Proof.
  induction vs as [|v vs IH]; simpl; [done |]. case_decide as Hv.
  - intros [= <-]. exists v. split_and!; [left | done | done].
  - intros (w & ? & ? & ?)%IH. exists w. split_and!; [by right | done | done].
Qed.

Lemma getCompilerPath_None vs version :
  getCompilerPath vs version = None <-> forall v, v ∈ vs -> compiler_version v <> version.
Proof.
  induction vs as [|v vs IH]; simpl; [split; [intros _ v Hv; by apply not_elem_of_nil in Hv | done] |].
  case_decide as Hv.
  - split; [done |]. intros H. by destruct (H v ltac:(left)).
  - rewrite IH. split; [intros H w [-> | Hw]%elem_of_cons; auto | intros H w Hw; apply H; by right].
Qed.

Lemma Check_versions_path conf v :
  Check_versions conf = true -> v ∈ versions conf ->
  has_text (Some (str (compiler_path v))) = true /\
  forall p, p ∈ plugins v -> has_text (Some (str (plugin_path p))) = true.
Proof.
  unfold Check_versions. rewrite forallb_forall. intros H Hv%list_elem_of_In. specialize (H v Hv).
  apply andb_prop in H as [Hp Hpl]. rewrite forallb_forall in Hpl.
  split; [by destruct (compiler_path v) |].
  intros p Hin%list_elem_of_In. specialize (Hpl p Hin). by destruct (plugin_path p).
Qed.

Lemma configured_plugin_elem vs version name path :
  path ∈ configured_plugin vs version name ->
  exists v p, v ∈ vs /\ p ∈ plugins v /\ path = str (plugin_path p).
Proof.
  unfold configured_plugin. intros (v & (p & -> & Hp)%list_elem_of_fmap & Hv)%list_elem_of_bind.
  apply list_elem_of_filter in Hp as [_ Hp], Hv as [_ Hv]. by exists v, p.
Qed.

(** ** Properties *)

(** [SetupCompiler] changes nothing but the paths of the compiler and its
    plugins.  A request that names a compiler path is left alone; otherwise it
    succeeds exactly when its version is configured and so is every plugin
    without a path, and it then takes the first configured path of each.  On
    failure the status is [NO_VERSION], and the request is left with a path,
    empty or not, so that a second call answers [true] and changes nothing. *)
Theorem SetupCompiler_spec (conf : Configuration) (flags : Flags) (status : Status) :
  let version := compiler_version (compiler flags) in
  let '(ok, flags', status') := SetupCompiler conf flags status in
  flags' = set_compiler (compiler flags') flags /\
  compiler_version (compiler flags') = version /\
  map plugin_name (plugins (compiler flags')) = map plugin_name (plugins (compiler flags)) /\
  (has (compiler_path (compiler flags)) = true -> ok = true /\ flags' = flags /\ status' = status) /\
  (has (compiler_path (compiler flags)) = false ->
   (ok = true <->
    (exists v, v ∈ versions conf /\ compiler_version v = version) /\
    forall p, p ∈ plugins (compiler flags) -> plugin_path p = None ->
      configured_plugin (versions conf) version (plugin_name p) <> []) /\
   (ok = true -> status' = status /\ compiler_path (compiler flags') = getCompilerPath (versions conf) version /\
    Forall2 (fun p p' => plugin_path p' = match plugin_path p with
                                          | Some path => Some path
                                          | None => head (configured_plugin (versions conf) version (plugin_name p))
                                          end) (plugins (compiler flags)) (plugins (compiler flags'))) /\
   (ok = false -> code status' = NO_VERSION /\ forall s, SetupCompiler conf flags' s = (true, flags', s))).
Proof.
  cbv zeta. unfold SetupCompiler at 1. destruct flags as [c]. simpl.
  destruct (compiler_path c) as [path|] eqn:Hpath; simpl; [by split_and! |].
  destruct (getCompilerPath (versions conf) (compiler_version c)) as [path|] eqn:Hv.
  - destruct (setup_plugins_spec (getPluginsByCompilerVersion (versions conf) (compiler_version c)) (plugins c))
      as (Hn & Hok & Hset).
    destruct (setup_plugins _ (plugins c)) as [ok l]. simpl in *.
    assert (forall p, is_Some (getPluginsByCompilerVersion (versions conf) (compiler_version c) !! plugin_name p)
                      <-> configured_plugin (versions conf) (compiler_version c) (plugin_name p) <> []) as Hp.
    { intros p. rewrite getPlugins_lookup. destruct (configured_plugin _ _ _); simpl; by split. }
    assert (exists v, v ∈ versions conf /\ compiler_version v = compiler_version c) as Hex
      by (apply getCompilerPath_Some in Hv as (v & ? & ? & _); by exists v).
    destruct ok; simpl; (split_and!; [done | done | done | done |]); intros _; split_and!; try done.
    + split; [| done]. intros _. split; [done |]. intros p Hin Hnone. by apply Hp, Hok.
    + intros _. split_and!; [done | done |]. eapply Forall2_impl; [by apply Hset |].
      intros p p' (_ & -> & _). destruct (plugin_path p); [done |]. apply getPlugins_lookup.
    + split; [done |]. intros [_ H]. apply Hok. intros p Hin Hnone. by apply Hp, H.
  - simpl. split_and!; try done. intros _. split_and!; try done.
    split; [done |]. intros [(v & Hin & Heq) _]. by destruct (proj1 (getCompilerPath_None _ _) Hv v Hin).
Qed.

Definition example_conf : Configuration :=
  {| emitter := None; absorber := None; coordinator := None; pool_capacity := 16;
     versions := [{| compiler_version := lit "4.0"; compiler_path := Some (lit "/clang4");
                     plugins := [{| plugin_name := lit "p"; plugin_path := Some (lit "/p.so") |}] |};
                  {| compiler_version := lit "4.0"; compiler_path := Some (lit "/other");
                     plugins := [{| plugin_name := lit "q"; plugin_path := Some (lit "/q.so") |}] |}];
     cache_conf := Some {| cache_disabled := false; direct := true |} |}.

Definition request (names : list (list Z)) : Flags :=
  set_compiler {| compiler_version := lit "4.0"; compiler_path := None;
                  plugins := map (fun n => {| plugin_name := n; plugin_path := None |}) names |} example_flags.

Lemma SetupCompiler_spec_witness :
  has (compiler_path (compiler (request [lit "q"; lit "x"]))) = false /\
  let '(ok, flags', status) := SetupCompiler example_conf (request [lit "q"; lit "x"]) {| code := OK; description := None |} in
  ok = false /\ code status = NO_VERSION.
Proof.
  split; [done |].
  pose proof (SetupCompiler_spec example_conf (request [lit "q"; lit "x"]) {| code := OK; description := None |}) as H.
  cbv zeta in H. destruct (SetupCompiler _ _ _) as [[ok flags'] status] eqn:E.
  destruct H as (_ & _ & _ & _ & H). destruct (H ltac:(done)) as (_ & _ & H').
  assert (ok = false) as Hok by (vm_compute in E; congruence). split; [done | by apply H'].
Defined.

(** C40: a daemon that starts with a checked configuration never runs a request
    without a compiler: after a successful [SetupCompiler] of a request that
    came without paths, the compiler and every plugin have a non-empty one. *)
Theorem SetupCompiler_checked (conf : Configuration) (flags : Flags) (status : Status) :
  Check_versions conf = true -> compiler_path (compiler flags) = None ->
  Forall (fun p => plugin_path p = None) (plugins (compiler flags)) ->
  let '(ok, flags', _) := SetupCompiler conf flags status in
  ok = true ->
  has_text (compiler_path (compiler flags')) = true /\
  Forall (fun p => has_text (plugin_path p) = true) (plugins (compiler flags')).
Proof.
  intros Hc Hnone Hpl. unfold SetupCompiler. rewrite Hnone. simpl.
  destruct (getCompilerPath (versions conf) _) as [path|] eqn:Hv; [| done].
  destruct (setup_plugins_spec (getPluginsByCompilerVersion (versions conf) (compiler_version (compiler flags)))
              (plugins (compiler flags))) as (_ & _ & Hset).
  destruct (setup_plugins _ _) as [ok l]. simpl in *. destruct ok; [| done]. simpl. intros _. split.
  - apply getCompilerPath_Some in Hv as (v & Hin & _ & ->). by apply (Check_versions_path conf).
  - specialize (Hset eq_refl). clear -Hc Hpl Hset. induction Hset as [|p p' l l' (_ & Hp & Hhas) Hset IH]; [done |].
    apply Forall_cons in Hpl as [Hpn Hpl]. constructor; [| by apply IH].
    rewrite Hpn, getPlugins_lookup in Hp. rewrite Hp in *.
    destruct (configured_plugin _ _ _) as [|x xs] eqn:Hx; [done |]. cbn [head].
    destruct (configured_plugin_elem (versions conf) (compiler_version (compiler flags)) (plugin_name p) x)
      as (v & q & Hin & Hq & ->); [rewrite Hx; left |].
    by apply (Check_versions_path conf v).
Qed.

Lemma SetupCompiler_checked_witness :
  Check_versions example_conf = true /\
  has_text (compiler_path (compiler (SetupCompiler example_conf (request [lit "q"; lit "p"])
                                       {| code := OK; description := None |}).1.2)) = true.
Proof.
  split; [reflexivity |].
  pose proof (SetupCompiler_checked example_conf (request [lit "q"; lit "p"]) {| code := OK; description := None |}) as H.
  assert ((SetupCompiler example_conf (request [lit "q"; lit "p"]) {| code := OK; description := None |}).1.1 = true)
    as Hok by reflexivity.
  destruct (SetupCompiler _ _ _) as [[ok flags'] status]. simpl in Hok.
  apply H; [reflexivity | reflexivity | by repeat constructor | exact Hok].
Defined.

(** ** Lemmas: files outside the cache *)

Definition outside (c : FileCache) (p : path) : Prop := ~ path_ c `prefix_of` p.

Lemma touches_outside hash c c' p : 47 ∉ hash -> touches hash c c' -> outside c p -> files c' !! p = files c !! p.
Proof. intros Hh [_ Hf] Hp. apply Hf. intros He. by eapply Hp, entry_file_prefix. Qed.

Lemma outside_path c c' p : path_ c' = path_ c -> outside c p -> outside c' p.
Proof. unfold outside. by intros ->. Qed.

Lemma ParseDeps_nil headers : ParseDeps [] headers = None.
Proof. by rewrite ParseDeps_eq. Qed.

(** The files a compilation reads besides the headers. *)
Definition own_files (flags : Flags) (dir : list Z) : list path :=
  GetFullPath dir (str (input flags)) ::
  match sanitize_blacklist flags with Some b => [GetFullPath dir b] | None => [] end.

Lemma ReadExtraFiles_outside flags dir c c' hash :
  47 ∉ hash -> touches hash c c' -> Forall (outside c) (own_files flags dir) ->
  ReadExtraFiles flags dir (files c') = ReadExtraFiles flags dir (files c).
Proof.
  intros Hh Ht Ho. apply ReadExtraFiles_ext. intros b Hb. unfold own_files in Ho. rewrite Hb in Ho.
  apply Forall_cons in Ho as [_ [Ho _]%Forall_cons]. by eapply touches_outside.
Qed.

Lemma File_Hash_outside p skip c c' hash :
  47 ∉ hash -> touches hash c c' -> outside c p -> File_Hash p skip (files c') = File_Hash p skip (files c).
Proof. intros. apply File_Hash_ext. by eapply touches_outside. Qed.

Section Roundtrip.
Context (print : Manifest -> list Z) (parse : list Z -> option Manifest).
Context (Compress Uncompress : list Z -> option (list Z)) (clang_version : list Z).

(** What makes a compilation cacheable in both levels. *)
Record cacheable (e : env) (d : Daemon) (message : Local_) (source : ConstString) (extra : extra_files)
    (entry : Entry) (code : list Z) (headers : list (list Z)) : Prop := {
  ca_on : direct_on d = true;
  ca_free : all_free (cache d);
  ca_env : all_succeed Compress e (cache d) (object entry);
  ca_database : db_set_ok e = true;
  ca_source : usable source;
  ca_extra : ReadExtraFiles (local_flags message) (current_dir message) (files (cache d)) = Some extra;
  ca_code : files (cache d) !! GetFullPath (current_dir message) (str (input (local_flags message))) = Some code;
  ca_deps : ParseDeps (deps entry) [] = Some (Some headers);
  ca_some : headers ++ included_files (local_flags message) <> [];
  ca_headers : forall h, h ∈ headers ->
    is_Some (File_Hash (header_path (current_dir message) h) [lit "__DATE__"; lit "__TIME__"] (files (cache d)));
  ca_included : forall h, h ∈ included_files (local_flags message) ->
    is_Some (File_Hash (header_path (current_dir message) h) [] (files (cache d)));
  ca_outside : Forall (outside (cache d))
    (own_files (local_flags message) (current_dir message)
     ++ map (header_path (current_dir message)) (headers ++ included_files (local_flags message)));
  ca_distinct : direct_hash clang_version (local_flags message) (current_dir message) code extra
    <> GenerateHash (local_flags message) source extra
}.

Lemma outside_entry orig c h dir l :
  47 ∉ orig -> Forall (outside c) (map (header_path dir) l) -> h ∈ l -> ~ entry_file orig c (header_path dir h).
Proof.
  intros Ho Hall Hh He. rewrite Forall_forall in Hall.
  apply (Hall (header_path dir h)); [by apply list_elem_of_fmap_2 |]. by eapply entry_file_prefix.
Qed.

Lemma own_files_outside flags dir c c' hash code extra :
  47 ∉ hash -> touches hash c c' -> Forall (outside c) (own_files flags dir) ->
  files c !! GetFullPath dir (str (input flags)) = Some code -> ReadExtraFiles flags dir (files c) = Some extra ->
  files c' !! GetFullPath dir (str (input flags)) = Some code /\ ReadExtraFiles flags dir (files c') = Some extra.
Proof.
  intros Hh Ht Ho <- <-. split; [| by eapply ReadExtraFiles_outside].
  apply Forall_cons in Ho as [Hin _]. by eapply touches_outside.
Qed.

Lemma headers_outside dir l c c' hash :
  47 ∉ hash -> touches hash c c' -> Forall (outside c) (map (header_path dir) l) ->
  forall h skip, h ∈ l -> File_Hash (header_path dir h) skip (files c') = File_Hash (header_path dir h) skip (files c).
Proof.
  intros Hh Ht Ho h skip Hin. eapply File_Hash_outside; [exact Hh | exact Ht |].
  rewrite Forall_forall in Ho. apply Ho. by apply list_elem_of_fmap_2.
Qed.

Lemma UpdateDirectCache_stores e message source extra entry d hash orig code headers c :
  direct_on d = true -> GenerateHash (local_flags message) source extra = Some hash ->
  ParseDeps (deps entry) [] = Some (Some headers) ->
  files (cache d) !! GetFullPath (current_dir message) (str (input (local_flags message))) = Some code ->
  direct_hash clang_version (local_flags message) (current_dir message) code extra = Some orig ->
  DoStore print e orig headers (included_files (local_flags message)) (current_dir message) hash (cache d) = Some c ->
  UpdateDirectCache print clang_version e message source extra entry d = Some (with_cache d c).
Proof.
  intros Hon Hhash Hdeps Hcode Horig Hdo. unfold UpdateDirectCache, File_Read.
  rewrite Hon, decide_False by (intros Hd; by rewrite Hd, ParseDeps_nil in Hdeps). cbv zeta. cbn [negb].
  rewrite Hhash. cbn [mbind option_bind]. rewrite Hdeps. cbn [mbind option_bind].
  rewrite Hcode, Horig. cbn [mbind option_bind]. by rewrite Hdo.
Qed.

Lemma SearchDirectCache_finds e flags dir entry d code extra orig r c :
  direct_on d = true -> files (cache d) !! GetFullPath dir (str (input flags)) = Some code ->
  ReadExtraFiles flags dir (files (cache d)) = Some extra ->
  direct_hash clang_version flags dir code extra = Some orig ->
  FindDirect parse Uncompress e orig dir entry (cache d) = Some (r, c) ->
  SearchDirectCache parse Uncompress clang_version e flags dir entry d = Some (r, with_cache d c).
Proof.
  intros Hon Hcode Hextra Horig Hfind. unfold SearchDirectCache, File_Read. rewrite Hon. cbn [negb].
  rewrite Hcode, Hextra, Horig. cbn [mbind option_bind]. by rewrite Hfind.
Qed.

(** C7: the two levels of a daemon's cache work together.  When a compilation
    is put into both (its writes succeed, the database takes the name, its headers can be read and hold no
    date, its files lie outside the cache), the same request, before anything
    is preprocessed, gets exactly the stored entry from the direct cache, and
    the preprocessed source gets it from the simple cache. *)
Theorem Update_then_Search (e e' : env) (d : Daemon) (message : Local_) (source : ConstString)
    (extra : extra_files) (entry : Entry) (code : list Z) (headers : list (list Z)) :
  (forall m, parse (print m) = Some m) -> (forall x y, Compress x = Some y -> Uncompress y = Some x) ->
  cacheable e d message source extra entry code headers ->
  exists hash d1 d2, GenerateHash (local_flags message) source extra = Some hash /\
    UpdateSimpleCache print Compress e hash entry d = Some d1 /\
    UpdateDirectCache print clang_version e message source extra entry d1 = Some d2 /\
    (exists d3, SearchDirectCache parse Uncompress clang_version e' (local_flags message) (current_dir message)
                  blank d2 = Some ((true, entry), d3)) /\
    (exists d3, SearchSimpleCache parse Uncompress e' hash blank d2 = Some ((true, entry), d3)).
Proof.
  intros Hpp Huc [Hon Hfree Henv Hdb Hsrc Hextra Hcode Hdeps Hsome Hhdr Hinc Hout Hdist].
  set (flags := local_flags message) in *. set (dir := current_dir message) in *.
  apply Forall_app in Hout as [Hown Hout].
  assert (cache_on d = true) as Hcon by (unfold direct_on in Hon; by apply andb_prop in Hon as [? _]).
  pose proof (ReadExtraFiles_usable _ _ _ _ Hextra) as Heu.
  destruct (GenerateHash_plain flags source extra Hsrc Heu) as (hash & Hhash & Ph).
  destruct (direct_hash_plain clang_version flags dir code extra Heu) as (orig & Horig & Po).
  assert (orig <> hash) as Hne by (intros ->; apply Hdist; congruence).
  destruct (Store_ok print parse Compress Uncompress Hpp Huc e hash entry (cache d) Hfree Henv)
    as (c1 & Hstore & Hl1 & T1 & Hst1).
  destruct (own_files_outside flags dir _ _ hash code extra (proj1 Ph) T1 Hown Hcode Hextra) as [Hcode1 Hextra1].
  pose proof (headers_outside dir _ _ _ hash (proj1 Ph) T1 Hout) as Hh1.
  assert (forall l, Forall (outside (cache d)) l -> Forall (outside c1) l) as Hout1
    by (intros l Hl; eapply Forall_impl; [exact Hl |]; intros p; apply outside_path, T1).
  destruct (DoStore_ok print parse Hpp e orig headers (included_files flags) dir hash c1)
    as (c2 & Hdo & Hl2 & T2 & Hlink).
  { intros p. rewrite Hl1. apply Hfree. }
  { apply Henv. }
  { exact Hdb. }
  { apply Henv. }
  { done. }
  { intros h Hh. rewrite Hh1 by (apply elem_of_app; by left). by apply Hhdr. }
  { intros h Hh. rewrite Hh1 by (apply elem_of_app; by right). by apply Hinc. }
  { intros h Hh. eapply outside_entry; [apply Po | by apply Hout1 | done]. }
  destruct (own_files_outside flags dir _ _ orig code extra (proj1 Po) T2 (Hout1 _ Hown) Hcode1 Hextra1) as [Hcode2 Hextra2].
  assert (stored parse Uncompress hash entry c2) as Hst2 by (by eapply (stored_touches _ _ orig)).
  assert (all_free c2) as Hfree2 by (intros p; rewrite Hl2, Hl1; apply Hfree).
  exists hash, (with_cache d c1), (with_cache d c2). split; [done |]. split_and!.
  - unfold UpdateSimpleCache. rewrite Hcon. cbn [negb]. by rewrite Hstore.
  - by eapply (UpdateDirectCache_stores e message source extra entry (with_cache d c1)).
  - destruct (FindDirect_linked parse Uncompress e' orig dir hash (headers ++ included_files flags) entry c2)
      as (c3 & Hfind); [apply Hfree2 | apply Hfree2 | | done | done |].
    + intros Heq. apply Hne. apply (entry_file_inj _ _ c2 (manifest_path orig c2));
        [exact Po | exact Ph | apply entry_files | rewrite <-Heq; apply entry_files].
    + eexists. by eapply SearchDirectCache_finds.
  - unfold SearchSimpleCache. cbn [cache_on cache with_cache]. rewrite Hcon. cbn [negb].
    destruct (Find_stored parse Uncompress e' hash entry c2 (Hfree2 _) Hst2) as (c3 & -> & _). by eexists.
Qed.

End Roundtrip.

(** A concrete compilation. *)
Definition example_daemon : Daemon :=
  {| conf := example_conf; cache_on := true;
     cache := set_files (<[lit "/src/a/t.cc" := lit "#include <a.h>"]> (files toy_cache)) toy_cache |}.

Definition example_message : Local_ :=
  {| local_flags := example_flags; current_dir := lit "/src"; user_id := None |}.

Definition example_entry : Entry :=
  {| object := lit "ELF"; deps := lit "t.o: a/t.cc a.h"; stderr := lit "warning" |}.

Lemma Update_then_Search_witness :
  exists hash d1 d2,
    UpdateSimpleCache toy_print toy_Compress good_env hash example_entry example_daemon = Some d1 /\
    UpdateDirectCache toy_print (lit "clang 4") good_env example_message (of_String (lit "int a;")) [] example_entry d1
    = Some d2 /\
    exists d3, SearchDirectCache toy_parse toy_Uncompress (lit "clang 4") good_env example_flags (lit "/src") blank d2
      = Some ((true, example_entry), d3).
Proof.
  destruct (Update_then_Search toy_print toy_parse toy_Compress toy_Uncompress (lit "clang 4") good_env good_env
              example_daemon example_message (of_String (lit "int a;")) [] example_entry (lit "#include <a.h>")
              [lit "a/t.cc"; lit "a.h"] toy_parse_print toy_uncompress_compress)
    as (hash & d1 & d2 & _ & H1 & H2 & H3 & _); [| by exists hash, d1, d2].
  constructor.
  - reflexivity.
  - intros p. apply toy_unlocked.
  - split_and!; [done | done | by eexists].
  - reflexivity.
  - apply literal_usable.
  - reflexivity.
  - reflexivity.
  - vm_compute. reflexivity.
  - done.
  - intros h [-> | [-> | []%not_elem_of_nil]%elem_of_cons]%elem_of_cons; eexists; vm_compute; reflexivity.
  - intros h []%not_elem_of_nil.
  - repeat constructor; by apply (bool_decide_unpack _).
  - intros Heq. vm_compute in Heq. discriminate Heq.
Defined.
