(* ===== verification/EmitterTasks.v ===== *)
(** What the workers of [daemon::Emitter] do with one task: the bodies of
    [DoCheckCache], [DoLocalExecute] and [DoRemoteExecute]
    ([src/src/daemon/emitter.cc]) between taking the task from its queue and
    letting go of it.

    What the rest of the world answers while a task is handled (the client's
    connection, system calls, processes, the remote daemon, the random shard) is
    a [world].  A preprocessed source and a hash are the strings they hold; the
    empty one stands for "not yet there", as in the code.  The change of the
    owner of an output file, which only logs its failure, is left out. *)

From S2P Require Import Prelude LockedQueue StringUtils ConstString ConstStringFind ConstStringHash CacheLocks FileCache CacheEntries Messages CommandLines CompilationDaemon.

#[local] Open Scope Z_scope.

(** ** Tasks and their surroundings *)

Record Task := {
  connection : nat;
  message : Local_;
  source : list Z;
  task_extra : list (list Z * ConstString);
  handled_hash : list Z;
  changed_shard : bool;
}.

Definition new_task (conn : nat) (msg : Local_) : Task :=
  {| connection := conn; message := msg; source := []; task_extra := []; handled_hash := [];
     changed_shard := false |}.

Definition set_flags (f : Flags) (m : Local_) : Local_ :=
  {| local_flags := f; current_dir := current_dir m; user_id := user_id m |}.

Definition with_flags (f : Flags) (t : Task) : Task :=
  {| connection := connection t; message := set_flags f (message t); source := source t;
     task_extra := task_extra t; handled_hash := handled_hash t; changed_shard := changed_shard t |}.
Definition with_source (s : list Z) (t : Task) : Task :=
  {| connection := connection t; message := message t; source := s; task_extra := task_extra t;
     handled_hash := handled_hash t; changed_shard := changed_shard t |}.
Definition with_extra (x : list (list Z * ConstString)) (t : Task) : Task :=
  {| connection := connection t; message := message t; source := source t; task_extra := x;
     handled_hash := handled_hash t; changed_shard := changed_shard t |}.
Definition with_hash (h : list Z) (t : Task) : Task :=
  {| connection := connection t; message := message t; source := source t; task_extra := task_extra t;
     handled_hash := h; changed_shard := changed_shard t |}.
Definition with_changed_shard (t : Task) : Task :=
  {| connection := connection t; message := message t; source := source t; task_extra := task_extra t;
     handled_hash := handled_hash t; changed_shard := true |}.

(** What a finished process leaves. *)
Record run_result := {
  proc_ok : bool;
  proc_stdout : list Z;
  proc_stderr : list Z;
  proc_error : list Z;
  proc_files : gmap path (list Z);
}.

Record world := {
  closed : bool;                                             (* [IsClosed()] *)
  calls : env;
  run : Process -> list Z -> gmap path (list Z) -> run_result;
  connected : bool;                                          (* [Connect] *)
  sent : bool;                                               (* [SendSync] *)
  received : option Reply;                                   (* [ReadSync] *)
  random : Z;                                                (* the distribution *)
}.

(** What becomes of a task. *)
Inductive outcome :=
| Closed
| Reported (status : Status)
| To_failed (t : Task)
| To_all (t : Task) (shard : Z).

(** ** Helpers of [emitter.cc] *)

(** [distribution] yields a number in [[0, total_shards - 2]]. *)
Definition FindNewShard (total_shards current_shard new_shard : Z) : Z :=
  if current_shard <=? new_shard then u32 (new_shard + 1) else new_shard.

Definition GetOutputPath (m : Local_) : path :=
  let output := str (output (local_flags m)) in
  if Znth output 0 =? slash then output else current_dir m ++ lit "/" ++ output.

Definition GetDepsPath (m : Local_) : path :=
  let deps_file := str (deps_file (local_flags m)) in
  if Znth deps_file 0 =? slash then deps_file else current_dir m ++ lit "/" ++ deps_file.

Definition files_of (d : Daemon) : gmap path (list Z) := files (cache d).
Definition set_daemon_files (fs : gmap path (list Z)) (d : Daemon) : Daemon :=
  with_cache d (set_files fs (cache d)).

Definition user (m : Local_) : Z := default SAME_UID (user_id m).

(** The flags of the preprocessor run. *)
Definition pp_flags (f : Flags) : Flags :=
  set_sanitize_blacklist None
    (set_compiler (set_plugins [] (compiler f))
       (set_action (lit "-E") (set_output (Some (lit "-")) (set_cc_only [] f)))).

(** [GenerateSource]: the preprocessed source, [None] on failure. *)
Definition GenerateSource (w : world) (m : Local_) (d : Daemon) : option (list Z) * Daemon :=
  let process := CreateProcess (pp_flags (local_flags m)) (user m) (current_dir m) in
  let r := run w process [] (files_of d) in
  (if proc_ok r then Some (proc_stdout r) else None, set_daemon_files (proc_files r) d).

(** The little-endian number in the first four bytes of the hash of the hash. *)
Definition CalculateShard (handled_hash : list Z) (total_shards : Z) : option Z :=
  h ← ConstStringHash.Hash (of_String handled_hash) 4;
  b ← string_copy_collapse h true;
  if (length b <? 4)%nat then None
  else Some ((Znth b 0 + 256 * Znth b 1 + 65536 * Znth b 2 + 16777216 * Znth b 3) mod total_shards).

Definition File_Write_daemon (w : world) (p : path) (x : list Z) (d : Daemon) : bool * Daemon :=
  let '(ok, fs) := File_Write (calls w) p x (files_of d) in (ok, set_daemon_files fs d).

(** The message to the remote daemon: [SetExtraFiles] and the filter of the
    outgoing flags. *)
Definition SetExtraFiles (extra : list (list Z * ConstString)) : option (list Z) :=
  contents <$> (snd <$> head (filter (fun f => f.1 = SANITIZE_BLACKLIST) extra)).

Definition filter_flags (f : Flags) : Flags :=
  let c := compiler f in
  set_deps_file None
    (set_non_cached []
       (set_input None
          (set_output None
             (set_compiler (set_compiler_path None (set_plugins (map clear_plugin_path (plugins c)) c)) f)))).

Definition outgoing (t : Task) : Remote :=
  {| remote_flags := filter_flags (local_flags (message t)); Messages.source := Some (source t);
     remote_blacklist := SetExtraFiles (task_extra t); Messages.handled_hash := Some (handled_hash t) |}.

Definition status_ok : Status := {| code := OK; description := None |}.
Definition ok_with (text : list Z) : Status := {| code := OK; description := Some text |}.

Definition has_cache_conf (c : Configuration) : bool :=
  match cache_conf c with Some cc => negb (cache_disabled cc) | None => false end.

Definition emitter_of (c : Configuration) : EmitterConf :=
  default {| remotes := []; only_failed := false; coordinators := []; total_shards := None;
             Messages.shard_queue_limit := None |} (emitter c).
Definition limit_of (c : Configuration) : Z := default 0 (Messages.shard_queue_limit (emitter_of c)).

(** ** The workers *)

Section Workers.
Context (print : Manifest -> list Z) (parse : list Z -> option Manifest).
Context (Compress Uncompress : list Z -> option (list Z)) (clang_version : list Z).

(** The lambda [RestoreFromCache] of [DoCheckCache]; [None] inside is [false]. *)
Definition RestoreFromCache (w : world) (m : Local_) (entry : Entry) (src : list Z)
    (extra : list (list Z * ConstString)) (d : Daemon) : option (option Status * Daemon) :=
  let '(ok, d) := File_Write_daemon w (GetOutputPath m) (object entry) d in
  if negb ok then Some (None, d)
  else
    let '(ok, d) := if has (deps_file (local_flags m))
                    then File_Write_daemon w (GetDepsPath m) (deps entry) d else (true, d) in
    if negb ok then Some (None, d)
    else
      d ← (if decide (src = []) then Some d
           else UpdateDirectCache print clang_version (calls w) m (of_String src) extra entry d);
      Some (Some (ok_with (stderr entry)), d).

(** The rest of [DoCheckCache] after the direct cache; [found] is what the
    lookup left in [entry]. *)
Definition check_simple (w : world) (wconf : Configuration) (t : Task) (found : Entry) (d : Daemon)
    : option (outcome * Daemon) :=
  let '(ok, flags, status) := SetupCompiler (conf d) (local_flags (message t)) status_ok in
  let t := with_flags flags t in
  if negb ok then Some (Reported status, d)
  else
    let '(src, d) := GenerateSource w (message t) d in
    match src with
    | None => Some (To_failed t, d)
    | Some src =>
        let t := with_source src t in
        match ReadExtraFiles flags (current_dir (message t)) (files_of d) with
        | None => Some (To_failed t, d)
        | Some extra =>
            let t := with_extra extra t in
            hash ← GenerateHash flags (of_String src) extra;
            let t := with_hash hash t in
            '(r, d) ← SearchSimpleCache parse Uncompress (calls w) hash found d;
            let '(hit, entry) := r in
            '(r, d) ← (if hit : bool then RestoreFromCache w (message t) entry src extra d else Some (None, d));
            match r with
            | Some status => Some (Reported status, d)
            | None =>
                match total_shards (emitter_of wconf) with
                | Some total => shard ← CalculateShard hash total; Some (To_all t shard, d)
                | None => Some (To_all t (Z.of_nat LockedQueue.DEFAULT_SHARD), d)
                end
            end
        end
    end.

Definition check_cache_task (w : world) (wconf : Configuration) (t : Task) (d : Daemon)
    : option (outcome * Daemon) :=
  if closed w then Some (Closed, d)
  else
    let m := message t in
    '(r, d) ← SearchDirectCache parse Uncompress clang_version (calls w) (local_flags m) (current_dir m) blank d;
    let '(hit, entry) := r in
    '(r, d) ← (if hit : bool then RestoreFromCache w m entry [] [] d else Some (None, d));
    match r with
    | Some status => Some (Reported status, d)
    | None => check_simple w wconf t entry d
    end.

(** The hash of a task, made when it is not there yet. *)
Definition task_hash (t : Task) : option (list Z) :=
  if decide (handled_hash t = [])
  then GenerateHash (local_flags (message t)) (of_String (source t)) (task_extra t)
  else Some (handled_hash t).

(** [UpdateSimpleCache] and [UpdateDirectCache] of a finished compilation. *)
Definition update_caches (w : world) (t : Task) (hash : list Z) (entry : Entry) (d : Daemon) : option Daemon :=
  d ← UpdateSimpleCache print Compress (calls w) hash entry d;
  UpdateDirectCache print clang_version (calls w) (message t) (of_String (source t)) (task_extra t) entry d.

(** What a failed local process reports. *)
Definition failure_text (r : run_result) : list Z :=
  if decide (proc_stderr r <> []) then proc_stderr r
  else if decide (proc_error r <> []) then proc_error r
  else if decide (proc_stdout r <> []) then proc_stdout r
  else lit "without errors".

Definition local_task (w : world) (t : Task) (d : Daemon) : option (outcome * Daemon) :=
  if closed w then Some (Closed, d)
  else
    let '(ok, flags, status) := SetupCompiler (conf d) (local_flags (message t)) status_ok in
    let t := with_flags flags t in
    if negb ok then Some (Reported status, d)
    else
      let m := message t in
      let r := run w (CreateProcess flags (user m) (current_dir m)) [] (files_of d) in
      let d := set_daemon_files (proc_files r) d in
      if negb (proc_ok r) then
        Some (Reported {| code := EXECUTION; description := Some (failure_text r) |}, d)
      else
        let reported := Reported (ok_with (proc_stderr r)) in
        if decide (source t = []) then Some (reported, d)
        else
          match File_Read (GetOutputPath m) (files_of d),
                (if has (deps_file flags) then File_Read (GetDepsPath m) (files_of d) else Some []) with
          | Some obj, Some dep =>
              hash ← task_hash t;
              d ← update_caches w t hash {| object := obj; deps := dep; stderr := proc_stderr r |} d;
              Some (reported, d)
          | _, _ => Some (reported, d)
          end.

(** A failed connection: the task moves to another shard once, when sharding is
    strict, and is left to the local workers otherwise. *)
Definition not_connected (w : world) (wconf : Configuration) (shard : Z) (t : Task) : outcome :=
  match total_shards (emitter_of wconf) with
  | Some total =>
      if negb (limit_of wconf =? 0) && negb (changed_shard t)
      then To_all (with_changed_shard t) (FindNewShard total shard (random w))
      else To_failed t
  | None => To_failed t
  end.

(** The lambda [GenerateEntry]; the status it reads is the one made after the
    output was written, which has no description. *)
Definition GenerateEntry (m : Local_) (result : Result) (d : Daemon) : option Entry :=
  dep ← (match result_deps result with
         | Some dep => Some dep
         | None => if has (deps_file (local_flags m)) then File_Read (GetDepsPath m) (files_of d) else Some []
         end);
  Some {| object := result_obj result; deps := dep; stderr := str (description status_ok) |}.

(** What follows a reply of the remote daemon. *)
Definition handle_reply (w : world) (t : Task) (hash : list Z) (reply : Reply) (d : Daemon)
    : option (outcome * Daemon) :=
  if match reply_status reply with Some s => bool_decide (code s <> OK) | None => false end
  then Some (To_failed t, d)
  else
    match reply_result reply with
    | None => Some (To_failed t, d)
    | Some result =>
        let m := message t in
        let '(ok, d) := File_Write_daemon w (GetOutputPath m) (result_obj result) d in
        if negb ok then Some (To_failed t, d)
        else
          match GenerateEntry m result d with
          | Some entry => d ← update_caches w t hash entry d; Some (Reported status_ok, d)
          | None => Some (Reported status_ok, d)
          end
    end.

(** [wconf] is the configuration the worker saw when it started. *)
Definition remote_task (w : world) (wconf : Configuration) (shard : Z) (t : Task) (d : Daemon)
    : option (outcome * Daemon) :=
  if closed w then Some (Closed, d)
  else
    let '(ok, flags, status) := SetupCompiler (conf d) (local_flags (message t)) status_ok in
    let t := with_flags flags t in
    if negb ok then Some (Reported status, d)
    else
      let '(src, d) := if decide (source t = []) then GenerateSource w (message t) d
                       else (Some (source t), d) in
      match src with
      | None => Some (To_failed t, d)
      | Some src =>
          let t := with_source src t in
          if negb (connected w) then Some (not_connected w wconf shard t, d)
          else
            hash ← task_hash t;
            let t := with_hash hash t in
            if negb (sent w) then Some (To_all t shard, d)
            else
              match received w with
              | None => Some (To_failed t, d)
              | Some reply => handle_reply w t hash reply d
              end
      end.

End Workers.
