(* ===== verification/EmitterReplies.v ===== *)
(** What an emitter's client finds on its disk when it is told that its
    compilation succeeded ([src/src/daemon/emitter.cc]). *)

From S2P Require Import Prelude LockedQueue StringUtils ConstString ConstStringFind ConstStringHash CacheLocks FileCache CacheEntries CacheFrame CacheMigrate CacheClean CacheNames Messages CommandLines CompilationDaemon EmitterTasks.

#[local] Open Scope Z_scope.

(** ** Lemmas: files outside the cache stay *)

Definition keeps_outside (c c' : FileCache) : Prop :=
  path_ c' = path_ c /\ forall p, outside c p -> files c' !! p = files c !! p.

#[export] Instance keeps_outside_preorder : PreOrder keeps_outside.
Proof.
  split; [by intros ? |]. intros c1 c2 c3 [P1 H1] [P2 H2]. split; [congruence |].
  intros p Hp. rewrite H2, H1; [done | done | by eapply outside_path].
Qed.

Lemma touches_keeps hash c c' : plain hash -> touches hash c c' -> keeps_outside c c'.
Proof. intros [Hs _] Ht. split; [apply Ht |]. intros p Hp. by eapply touches_outside. Qed.

Lemma with_write_lock_keeps {A} p (no_lock : A) body c a c' :
  (forall c, keeps_outside c (body c).2) -> with_write_lock p no_lock body c = Some (a, c') -> keeps_outside c c'.
Proof.
  intros Hb. unfold with_write_lock. destruct (WriteLock_acquire _ _) as [[] l]; [| by intros [= _ <-]].
  specialize (Hb (set_locks l c)). destruct (body (set_locks l c)) as [b c1].
  intros (l' & _ & [= _ <-])%bind_Some. exact Hb.
Qed.

Lemma with_read_lock_keeps {A} p (no_lock : A) body c a c' :
  (forall c, keeps_outside c (body c).2) -> with_read_lock p no_lock body c = Some (a, c') -> keeps_outside c c'.
Proof.
  intros Hb. unfold with_read_lock. destruct (ReadLock_acquire _ _ _) as [[] l]; [| by intros [= _ <-]].
  specialize (Hb (set_locks l c)). destruct (body (set_locks l c)) as [b c1].
  intros (l' & _ & [= _ <-])%bind_Some. exact Hb.
Qed.

Definition daemon_keeps (d d' : Daemon) : Prop := conf d' = conf d /\ keeps_outside (cache d) (cache d').

#[export] Instance daemon_keeps_preorder : PreOrder daemon_keeps.
Proof.
  split; [by intros d; split |]. intros d1 d2 d3 [C1 H1] [C2 H2]. split; [congruence |]. by etransitivity.
Qed.

Section Keeps.
Context (print : Manifest -> list Z) (parse : list Z -> option Manifest).
Context (Compress Uncompress : list Z -> option (list Z)) (clang_version : list Z).

Lemma Find_keeps e hash entry c r c' : Find parse Uncompress e hash entry c = Some (r, c') -> keeps_outside c c'.
Proof.
  apply with_read_lock_keeps. intros c1. unfold find_body. destruct (LoadFromFile _ _ _) as [m|]; [| done].
  by destruct (kind m) as [[|]|].
Qed.

Lemma FindDirect_keeps e orig dir entry c r c' :
  FindDirect parse Uncompress e orig dir entry c = Some (r, c') -> keeps_outside c c'.
Proof.
  unfold FindDirect. destruct (with_read_lock _ _ _ _) as [[[r'|] c1]|] eqn:Hl; [| done | done].
  intros [= _ <-]. revert Hl. apply with_read_lock_keeps. intros c2. unfold find_direct_body.
  destruct (LoadFromFile _ _ _) as [m|]; [| done]. destruct (kind m) as [[headers|]|]; [| done | done].
  destruct (mapM _ headers) as [hs|]; [| done]. destruct (rope_hash _) as [key|]; [| done].
  destruct (database _ !! key) as [hash|]; [| done].
  destruct (Find _ _ _ _ _ _) as [[r2 c3]|] eqn:Hf; [| done]. by apply Find_keeps in Hf.
Qed.

Lemma SearchSimple_keeps e hash entry d r d' :
  SearchSimpleCache parse Uncompress e hash entry d = Some (r, d') -> daemon_keeps d d'.
Proof.
  unfold SearchSimpleCache. destruct (cache_on d); cbn [negb]; [| by intros [= _ <-]].
  intros ([r1 c] & Hf & [= _ <-])%bind_Some. split; [done |]. by apply Find_keeps in Hf.
Qed.

Lemma SearchDirect_keeps e flags dir entry d r d' :
  SearchDirectCache parse Uncompress clang_version e flags dir entry d = Some (r, d') -> daemon_keeps d d'.
Proof.
  unfold SearchDirectCache. destruct (direct_on d); cbn [negb]; [| by intros [= _ <-]].
  destruct (File_Read _ _); [| by intros [= _ <-]]. destruct (ReadExtraFiles _ _ _); [| by intros [= _ <-]].
  intros (hash & _ & ([r1 c] & Hf & [= _ <-])%bind_Some)%bind_Some. split; [done |]. by apply FindDirect_keeps in Hf.
Qed.

Lemma UpdateSimple_keeps e hash entry d d' :
  plain hash -> UpdateSimpleCache print Compress e hash entry d = Some d' -> daemon_keeps d d'.
Proof.
  intros Hp. unfold UpdateSimpleCache. destruct (cache_on d); cbn [negb]; [| by intros [= <-]].
  intros (c & (r & Hs & ->)%fmap_Some & [= <-])%bind_Some. split; [done |]. destruct r as [a c].
  eapply with_write_lock_keeps; [| exact Hs]. intros c1. eapply touches_keeps; [exact Hp | apply store_body_touches].
Qed.

Lemma UpdateDirect_keeps e m src extra entry d d' :
  files_usable extra ->
  UpdateDirectCache print clang_version e m src extra entry d = Some d' -> daemon_keeps d d'.
Proof.
  intros He. unfold UpdateDirectCache. destruct (direct_on d); cbn [negb]; [| by intros [= <-]].
  destruct (decide _); [by intros [= <-] |]. cbv zeta. intros (hash & _ & (parsed & _ & H)%bind_Some)%bind_Some.
  destruct parsed as [headers|]; [| by injection H as <-].
  destruct (File_Read _ _) as [code|]; [| by injection H as <-].
  destruct (direct_hash_plain clang_version (local_flags m) (current_dir m) code extra He) as (orig & Ho & Hp).
  rewrite Ho in H. cbn [mbind option_bind] in H.
  apply bind_Some in H as (c & (r & Hs & ->)%fmap_Some & [= <-]). split; [done |]. destruct r as [a c].
  eapply with_write_lock_keeps; [| exact Hs]. intros c1. eapply touches_keeps; [exact Hp | apply dostore_body_touches].
Qed.

Lemma update_caches_keeps w t hash entry d d' :
  plain hash -> files_usable (task_extra t) ->
  update_caches print Compress clang_version w t hash entry d = Some d' -> daemon_keeps d d'.
Proof.
  intros Hp He. unfold update_caches. intros (d1 & H1 & H2)%bind_Some.
  apply UpdateSimple_keeps in H1; [| done]. apply UpdateDirect_keeps in H2; [| done]. by etransitivity.
Qed.

End Keeps.

(** ** Lemmas: the message of a task *)

Lemma SetupCompiler_flags conf flags status :
  (SetupCompiler conf flags status).1.2 = set_compiler (compiler (SetupCompiler conf flags status).1.2) flags /\
  ((SetupCompiler conf flags status).1.1 = false -> code (SetupCompiler conf flags status).2 = NO_VERSION).
Proof.
  unfold SetupCompiler. destruct flags. simpl. destruct (has _); [done |].
  destruct (getCompilerPath _ _); [| done]. destruct (setup_plugins _ _) as [ok pl]. by destruct ok.
Qed.

Lemma paths_set_compiler c m :
  GetOutputPath (set_flags (set_compiler c (local_flags m)) m) = GetOutputPath m /\
  GetDepsPath (set_flags (set_compiler c (local_flags m)) m) = GetDepsPath m.
Proof. by destruct m as [[]]. Qed.

Lemma File_Write_daemon_spec w p x d ok d' :
  File_Write_daemon w p x d = (ok, d') ->
  conf d' = conf d /\ path_ (cache d') = path_ (cache d) /\
  (ok = true -> files_of d' !! p = Some x) /\
  (ok = true -> forall q, q <> p -> q <> p ++ lit ".tmp" -> files_of d' !! q = files_of d !! q).
Proof.
  unfold File_Write_daemon. destruct (File_Write _ _ _ _) as [ok' fs] eqn:Hw. intros [= <- <-].
  split_and!; [done | done | |]; intros ->; apply File_Write_ok in Hw as [? ?]; auto.
Qed.

(** ** What a reply promises *)

Section Replies.
Context (print : Manifest -> list Z) (parse : list Z -> option Manifest).
Context (Compress Uncompress : list Z -> option (list Z)) (clang_version : list Z).

(** The output and the dependency file of a request do not clash with each other
    nor with the cache. *)
Record clear_paths (c : FileCache) (m : Local_) : Prop := {
  cp_output : outside c (GetOutputPath m);
  cp_deps : has (deps_file (local_flags m)) = true ->
    outside c (GetDepsPath m) /\ GetOutputPath m <> GetDepsPath m /\
    GetOutputPath m <> GetDepsPath m ++ lit ".tmp"
}.

Lemma clear_paths_ext c c' m : path_ c' = path_ c -> clear_paths c m -> clear_paths c' m.
Proof. intros Hp [Ho Hd]. constructor; unfold outside in *; by rewrite Hp. Qed.

Lemma clear_paths_flags c m comp :
  clear_paths c m -> clear_paths c (set_flags (set_compiler comp (local_flags m)) m).
Proof.
  destruct (paths_set_compiler comp m) as [E1 E2]. intros [Ho Hd]. constructor; rewrite ?E1, ?E2; [done |].
  intros Hh. apply Hd. by destruct m as [[]].
Qed.

(** The client's files hold an entry. *)
Definition delivered (m : Local_) (entry : Entry) (d : Daemon) : Prop :=
  files_of d !! GetOutputPath m = Some (object entry) /\
  (has (deps_file (local_flags m)) = true -> files_of d !! GetDepsPath m = Some (deps entry)).

Lemma delivered_keeps m entry d d' :
  clear_paths (cache d) m -> daemon_keeps d d' -> delivered m entry d -> delivered m entry d'.
Proof.
  intros [Ho Hd] [_ [_ Hk]] [H1 H2]. split; [unfold files_of in *; by rewrite Hk |].
  intros Hh. unfold files_of in *. rewrite Hk; [by apply H2 | by apply Hd].
Qed.

Lemma RestoreFromCache_delivers w m entry src extra d s d' :
  clear_paths (cache d) m -> files_usable extra ->
  RestoreFromCache print clang_version w m entry src extra d = Some (Some s, d') ->
  delivered m entry d' /\ s = ok_with (stderr entry).
Proof.
  intros Hc He. unfold RestoreFromCache.
  destruct (File_Write_daemon w (GetOutputPath m) (object entry) d) as [ok1 d1] eqn:H1.
  apply File_Write_daemon_spec in H1 as (C1 & P1 & W1 & _). destruct ok1; cbn [negb]; [| done].
  specialize (W1 eq_refl).
  assert (exists ok2 d2, (if has (deps_file (local_flags m)) then File_Write_daemon w (GetDepsPath m) (deps entry) d1
                          else (true, d1)) = (ok2, d2) /\ (ok2 = true -> path_ (cache d2) = path_ (cache d1) /\ delivered m entry d2))
    as (ok2 & d2 & -> & Hd2).
  { destruct (has (deps_file (local_flags m))) eqn:Hh.
    - destruct (File_Write_daemon w (GetDepsPath m) (deps entry) d1) as [ok2 d2] eqn:H2.
      exists ok2, d2. split; [done |]. intros ->. apply File_Write_daemon_spec in H2 as (C2 & P2 & W2 & F2).
      split; [done |]. destruct (cp_deps _ _ Hc Hh) as (_ & N1 & N2).
      split; [rewrite F2; [done | done | done | done] | intros _; by apply W2].
    - exists true, d1. split; [done |]. intros _. split; [done |]. split; [done | by rewrite Hh]. }
  destruct ok2; cbn [negb]; [| done]. destruct (Hd2 eq_refl) as [P2 Hd]. clear Hd2.
  intros (d3 & H3 & [= <- <-])%bind_Some. split; [| done].
  destruct (decide (src = [])); [by injection H3 as <- |].
  eapply delivered_keeps; [| eapply UpdateDirect_keeps; [exact He | exact H3] | exact Hd].
  destruct Hc as [Ho Hdp]. unfold outside in *. rewrite <-P1, <-P2 in *. by constructor.
Qed.

Lemma RestoreFromCache_path w m entry src extra d r d' :
  files_usable extra ->
  RestoreFromCache print clang_version w m entry src extra d = Some (r, d') -> path_ (cache d') = path_ (cache d).
Proof.
  intros He. unfold RestoreFromCache.
  destruct (File_Write_daemon _ _ _ d) as [ok1 d1] eqn:H1. apply File_Write_daemon_spec in H1 as (_ & P1 & _).
  destruct ok1; cbn [negb]; [| by intros [= _ <-]].
  assert (exists ok2 d2, (if has (deps_file (local_flags m)) then File_Write_daemon w (GetDepsPath m) (deps entry) d1
                          else (true, d1)) = (ok2, d2) /\ path_ (cache d2) = path_ (cache d1)) as (ok2 & d2 & -> & P2).
  { destruct (has _); [| by exists true, d1].
    destruct (File_Write_daemon _ _ _ d1) as [ok2 d2] eqn:H2. apply File_Write_daemon_spec in H2 as (_ & P2 & _).
    by exists ok2, d2. }
  destruct ok2; cbn [negb]; [| intros [= _ <-]; congruence].
  intros (d3 & H3 & [= _ <-])%bind_Some. case_decide; [injection H3 as <-; congruence |].
  apply UpdateDirect_keeps in H3 as [_ [P3 _]]; [congruence | done].
Qed.

(** The entry that the lookup by the preprocessed source finds for a task, when the
    lookup before it has left [left]. *)
Definition found_simple (w : world) (t : Task) (left : Entry) (d : Daemon) (entry : Entry) : Prop :=
  let flags := (SetupCompiler (conf d) (local_flags (message t)) status_ok).1.2 in
  exists src d1 extra hash d2,
    GenerateSource w (message (with_flags flags t)) d = (Some src, d1) /\
    ReadExtraFiles flags (current_dir (message t)) (files_of d1) = Some extra /\
    GenerateHash flags (of_String src) extra = Some hash /\
    SearchSimpleCache parse Uncompress (calls w) hash left d1 = Some ((true, entry), d2).

(** The entry that a cache worker finds: directly, or by the preprocessed source,
    possibly after the direct entry could not be restored. *)
Definition found_entry (w : world) (t : Task) (d : Daemon) (entry : Entry) : Prop :=
  exists hit left d1,
    SearchDirectCache parse Uncompress clang_version (calls w) (local_flags (message t)) (current_dir (message t)) blank d
      = Some ((hit, left), d1) /\
    ((hit = true /\ left = entry) \/ (hit = false /\ found_simple w t left d1 entry) \/
     exists d2, hit = true /\
       RestoreFromCache print clang_version w (message t) left [] [] d1 = Some (None, d2) /\ found_simple w t left d2 entry).

Lemma check_simple_delivers w wconf t left d s d' :
  clear_paths (cache d) (message t) -> code s = OK ->
  check_simple print parse Uncompress clang_version w wconf t left d = Some (Reported s, d') ->
  exists entry, found_simple w t left d entry /\ delivered (message t) entry d' /\ description s = Some (stderr entry).
Proof.
  intros Hc Hs. unfold check_simple, found_simple.
  destruct (SetupCompiler_flags (conf d) (local_flags (message t)) status_ok) as [Hf Hno].
  destruct (SetupCompiler _ _ _) as [[ok flags] status]. simpl in Hf, Hno. cbn [fst snd].
  destruct ok; cbn [negb]; [| intros [= <- _]; rewrite Hno in Hs by done; done].
  destruct (GenerateSource w _ d) as [src d1] eqn:Hg. destruct src as [src|]; [| done].
  assert (path_ (cache d1) = path_ (cache d)) as P1 by (unfold GenerateSource in Hg; by injection Hg as _ <-).
  destruct (ReadExtraFiles _ _ _) as [extra|] eqn:Hx; [| done].
  pose proof (ReadExtraFiles_usable _ _ _ _ Hx) as He. intros (hash & Hhash & ([[hit found] d2] & Hsearch & ([r2 d3] & Hr & H)%bind_Some)%bind_Some)%bind_Some.
  destruct r2 as [s'|].
  - injection H as -> <-. destruct hit; [| done]. rename found into entry.
    pose proof (SearchSimple_keeps _ _ _ _ _ _ _ _ Hsearch) as [_ [P2 _]].
    destruct (paths_set_compiler (compiler flags) (message t)) as [E1 E2].
    cbn [message with_flags with_source with_extra with_hash] in Hr. rewrite Hf in Hr.
    destruct (RestoreFromCache_delivers w (set_flags (set_compiler (compiler flags) (local_flags (message t))) (message t))
                entry src extra d2 s d3) as [[D1 D2] ->]; [| done | exact Hr |].
    + apply clear_paths_flags. eapply clear_paths_ext; [| exact Hc]. congruence.
    + exists entry. split_and!; [| | done].
      * by exists src, d1, extra, hash, d2.
      * rewrite E1 in D1. split; [done |]. intros Hh. rewrite <-E2. apply D2. by destruct (message t) as [[]].
  - destruct (total_shards _); [| done]. by apply bind_Some in H as (shard & _ & H').
Qed.

Lemma check_cache_delivers w wconf t s d d' :
  clear_paths (cache d) (message t) -> code s = OK ->
  check_cache_task print parse Uncompress clang_version w wconf t d = Some (Reported s, d') ->
  exists entry, found_entry w t d entry /\ delivered (message t) entry d' /\ description s = Some (stderr entry).
Proof.
  intros Hc Hs. unfold check_cache_task. destruct (closed w); [done |].
  intros ([[hit entry] d1] & Hd & H)%bind_Some. pose proof (SearchDirect_keeps _ _ _ _ _ _ _ _ _ _ Hd) as [_ [P1 _]].
  pose proof (clear_paths_ext _ _ _ P1 Hc) as Hc1. destruct hit.
  - apply bind_Some in H as ([[s'|] d2] & Hr & H').
    + injection H' as -> <-. apply RestoreFromCache_delivers in Hr as [Hdel ->]; [| done | constructor].
      exists entry. split_and!; [| done | done]. exists true, entry, d1. split; [done | by left].
    + pose proof (RestoreFromCache_path _ _ _ _ _ _ _ _ (Forall_nil_2 _) Hr) as P2.
      eapply check_simple_delivers in H' as (entry' & Hf & H'); [| by eapply clear_paths_ext | exact Hs].
      exists entry'. split; [| exact H']. exists true, entry, d1. split; [done |]. do 2 right. by exists d2.
  - cbn [mbind option_bind] in H. eapply check_simple_delivers in H as (entry' & Hf & H); [| exact Hc1 | exact Hs].
    exists entry'. split; [| exact H]. exists false, entry, d1. split; [done |]. right. by left.
Qed.

Lemma task_hash_plain t hash :
  files_usable (task_extra t) -> (handled_hash t <> [] -> plain (handled_hash t)) -> task_hash t = Some hash ->
  plain hash.
Proof.
  intros He Hh. unfold task_hash. case_decide as Hd; [| intros [= <-]; by apply Hh].
  destruct (GenerateHash_plain (local_flags (message t)) (of_String (source t)) (task_extra t)) as (h & -> & Hp);
    [apply literal_usable | done | by intros [= <-]].
Qed.

Lemma handle_reply_delivers w t hash reply d s d' :
  clear_paths (cache d) (message t) -> files_usable (task_extra t) -> plain hash ->
  handle_reply print Compress clang_version w t hash reply d = Some (Reported s, d') ->
  exists res, reply_result reply = Some res /\ (forall st, reply_status reply = Some st -> code st = OK) /\
    files_of d' !! GetOutputPath (message t) = Some (result_obj res) /\ s = status_ok.
Proof.
  intros Hc He Hp. unfold handle_reply.
  destruct (match reply_status reply with Some s => _ | None => _ end) eqn:Hst; [done |].
  destruct (reply_result reply) as [res|]; [| done].
  destruct (File_Write_daemon w (GetOutputPath (message t)) (result_obj res) d) as [ok d1] eqn:H1.
  apply File_Write_daemon_spec in H1 as (_ & P1 & W1 & _). destruct ok; cbn [negb]; [| done].
  intros H. exists res. split; [done |]. split.
  { intros st Hr. rewrite Hr in Hst. by apply bool_decide_eq_false, dec_stable in Hst. }
  destruct (GenerateEntry _ _ _) as [entry|].
  - apply bind_Some in H as (d2 & Hu & [= <- <-]). split; [| done].
    apply update_caches_keeps in Hu as [_ [_ Hk]]; [| done | done]. unfold files_of in *.
    rewrite Hk; [by apply W1 |]. unfold outside. rewrite P1. apply Hc.
  - injection H as <- <-. split; [by apply W1 | done].
Qed.

Lemma remote_delivers w wconf shard t s d d' :
  clear_paths (cache d) (message t) -> files_usable (task_extra t) ->
  (handled_hash t <> [] -> plain (handled_hash t)) -> code s = OK ->
  remote_task print Compress clang_version w wconf shard t d = Some (Reported s, d') ->
  exists reply res, received w = Some reply /\ reply_result reply = Some res /\
    (forall st, reply_status reply = Some st -> code st = OK) /\
    files_of d' !! GetOutputPath (message t) = Some (result_obj res) /\
    description s = None /\
    forall m d0 entry, GenerateEntry m res d0 = Some entry -> object entry = result_obj res /\ stderr entry = [].
Proof.
  intros Hc He Hh Hs. unfold remote_task. destruct (closed w); [done |].
  destruct (SetupCompiler_flags (conf d) (local_flags (message t)) status_ok) as [Hf Hno].
  destruct (SetupCompiler _ _ _) as [[ok flags] status]. simpl in Hf, Hno.
  destruct ok; cbn [negb]; [| intros [= <- _]; rewrite Hno in Hs by done; done].
  destruct (if decide _ then _ else _) as [src d1] eqn:Hg. destruct src as [src|]; [| done].
  assert (path_ (cache d1) = path_ (cache d)) as P1.
  { case_decide; [unfold GenerateSource in Hg; by injection Hg as _ <- | by injection Hg as _ <-]. }
  destruct (connected w); cbn [negb].
  2: { unfold not_connected. intros [= H]. destruct (total_shards _); [destruct (negb _ && negb _) |]; done. }
  intros (hash & Hhash & H)%bind_Some. apply task_hash_plain in Hhash; [| done | done].
  destruct (sent w); cbn [negb] in H; [| done]. destruct (received w) as [reply|]; [| done].
  destruct (paths_set_compiler (compiler flags) (message t)) as [E1 _].
  apply handle_reply_delivers in H as (res & Hr & Hst & Hfile & ->); [| | done | done].
  - exists reply, res. cbn [message with_flags with_source with_hash] in Hfile. rewrite Hf, E1 in Hfile.
    split_and!; [done | done | done | done | done |].
    intros m d0 entry. unfold GenerateEntry. by intros (dep & _ & [= <-])%bind_Some.
  - cbn [message with_flags with_source with_hash]. rewrite Hf. apply clear_paths_flags.
    by eapply clear_paths_ext.
Qed.

(** ** Property *)

(** C6: a client that is told OK finds its result.  From the cache: the output and
    the dependency file hold the object and the dependencies of an entry that a
    lookup has found, and the description is its error output.  From a remote
    daemon: the output holds the object of the received result, whose status,
    if any, was OK.  What the remote compiler printed is dropped, though: the
    description the client gets is empty, and so is the error output that is
    cached with the object. *)
Theorem ok_means_delivered (w : world) (wconf : Configuration) (shard : Z) (t : Task) (s : Status) (d d' : Daemon) :
  clear_paths (cache d) (message t) -> files_usable (task_extra t) ->
  (handled_hash t <> [] -> plain (handled_hash t)) -> code s = OK ->
  (check_cache_task print parse Uncompress clang_version w wconf t d = Some (Reported s, d') ->
   exists entry, found_entry w t d entry /\ delivered (message t) entry d' /\ description s = Some (stderr entry)) /\
  (remote_task print Compress clang_version w wconf shard t d = Some (Reported s, d') ->
   exists reply res, received w = Some reply /\ reply_result reply = Some res /\
     (forall st, reply_status reply = Some st -> code st = OK) /\
     files_of d' !! GetOutputPath (message t) = Some (result_obj res) /\
     description s = None /\
     forall m d0 entry, GenerateEntry m res d0 = Some entry -> object entry = result_obj res /\ stderr entry = []).
Proof.
  intros Hc He Hh Hs. split.
  - by apply check_cache_delivers.
  - by apply remote_delivers.
Qed.

End Replies.

(** ** A concrete reply *)

Definition remote_world : world :=
  {| closed := false; calls := good_env;
     run := fun _ _ fs => {| proc_ok := true; proc_stdout := lit "int a;"; proc_stderr := []; proc_error := [];
                             proc_files := fs |};
     connected := true; sent := true;
     received := Some {| reply_status := Some (ok_with (lit "warning: unused variable"));
                         reply_result := Some {| result_obj := lit "ELF"; result_deps := None; from_cache := Some false;
                                                 hash_match := Some true |} |};
     random := 0 |}.

Definition remote_request : Task :=
  new_task 0 {| local_flags := set_deps_file None (request []); current_dir := lit "/src"; user_id := None |}.

Definition remote_run : outcome * Daemon :=
  default (Closed, example_daemon)
    (remote_task toy_print toy_Compress (lit "clang 4") remote_world example_conf 0 remote_request example_daemon).

Lemma remote_clear : clear_paths (cache example_daemon) (message remote_request).
Proof.
  constructor.
  - intros H. assert (bool_decide (lit "/cache" `prefix_of` lit "/src/t.o") = true) as Hb
      by (apply bool_decide_eq_true; exact H). vm_compute in Hb. discriminate Hb.
  - intros H. vm_compute in H. discriminate H.
Qed.

Lemma remote_run_eq :
  remote_task toy_print toy_Compress (lit "clang 4") remote_world example_conf 0 remote_request example_daemon
  = Some (Reported status_ok, remote_run.2).
Proof.
  assert (has (remote_task toy_print toy_Compress (lit "clang 4") remote_world example_conf 0 remote_request
                 example_daemon) = true) as Hs by (vm_compute; reflexivity).
  assert (remote_run.1 = Reported status_ok) as <- by (vm_compute; reflexivity).
  rewrite <-surjective_pairing. unfold remote_run. revert Hs.
  generalize (remote_task toy_print toy_Compress (lit "clang 4") remote_world example_conf 0 remote_request example_daemon).
  intros [x |]; [reflexivity | discriminate].
Qed.

Lemma ok_means_delivered_witness :
  exists res, files_of remote_run.2 !! lit "/src/t.o" = Some (result_obj res) /\ result_obj res = lit "ELF".
Proof.
  pose proof (ok_means_delivered toy_print toy_parse toy_Compress toy_Uncompress (lit "clang 4") remote_world
                example_conf 0 remote_request status_ok example_daemon remote_run.2) as H.
  specialize (H remote_clear (Forall_nil_2 _) (fun Hne => match Hne eq_refl with end) eq_refl).
  destruct H as [_ H]. destruct (H remote_run_eq) as (reply & res & H1 & H2 & _ & H3 & _).
  exists res. split; [exact H3 |]. injection H1 as H1. rewrite <-H1 in H2. injection H2 as H2. rewrite <-H2. reflexivity.
Defined.
