(* ===== verification/EmitterConf.v ===== *)
(** The configuration of the emitter: what [Emitter::Check] accepts, the shards
    of tasks and remotes, the redistribution of tasks by [Emitter::Reload] and
    the polling of coordinators by [DoPoll] ([src/src/daemon/emitter.cc]). *)

From S2P Require Import Prelude LockedQueue StringUtils ConstString ConstStringFind ConstStringHash CacheLocks FileCache CacheEntries CacheMigrate CacheClean CacheNames Messages CommandLines CompilationDaemon EmitterTasks.

#[local] Open Scope Z_scope.

(** ** [Check] *)

Definition max_total_shards : Z := 1024.

(** The loop over the remotes: whether one is active, [None] for [return false]. *)
Fixpoint check_remotes (total : option Z) (remotes : list Host) (has_active_remote : bool) : option bool :=
  match remotes with
  | [] => Some has_active_remote
  | remote :: remotes =>
      if disabled remote then check_remotes total remotes has_active_remote
      else
        match shard remote, total with
        | Some _, None => None
        | Some s, Some total' => if total' <=? s then None else check_remotes total remotes true
        | None, Some _ => None
        | None, None => check_remotes total remotes true
        end
  end.

Definition check_total (conf : Configuration) (total : option Z) : bool :=
  match total with
  | None => true
  | Some n =>
      if max_total_shards <? n then false
      else if n <? 2 then false
      else if negb (has_cache_conf conf) then false
      else true
  end.

Definition Check (conf : Configuration) : bool :=
  if negb (Check_versions conf) then false
  else
    match emitter conf with
    | None => false
    | Some em =>
        if negb (check_total conf (total_shards em)) then false
        else
          match check_remotes (total_shards em) (remotes em) false with
          | None => false
          | Some has_active_remote => negb (only_failed em && negb has_active_remote)
          end
    end.

(** ** [Reload]: tasks of abandoned shards *)

(** The inner loop: pop from an abandoned shard without waiting, push to the
    shard of the new configuration; [None] is an exhausted bound. *)
Fixpoint drain_shard (fuel : nat) (total : Z) (shard : nat) (q : Queue Task) : option (Queue Task) :=
  match fuel with
  | O => None
  | S fuel =>
      '(r, q) ← Pop_pool false (2 ^ 32 - 1) shard true q;
      match r with
      | Popped _ task =>
          new_shard ← CalculateShard (EmitterTasks.handled_hash task) total;
          '(_, q) ← Push task (Z.to_nat new_shard) q;
          drain_shard fuel total shard q
      | _ => Some q
      end
  end.

(** The outer loop, over [n] shards from [shard] on. *)
Fixpoint drain_shards (n : nat) (total : Z) (shard : nat) (q : Queue Task) : option (Queue Task) :=
  match n with
  | O => Some q
  | S n => q ← drain_shard (S (length (queue_ q))) total shard q; drain_shards n total (S shard) q
  end.

Definition Reload_tasks (new_conf old_conf : Configuration) (q : Queue Task) : option (Queue Task) :=
  match total_shards (emitter_of new_conf), total_shards (emitter_of old_conf) with
  | Some new_total, Some old_total =>
      if negb (limit_of new_conf =? NOT_STRICT_SHARDING) && (new_total <? old_total)
      then drain_shards (Z.to_nat (old_total - new_total)) new_total (Z.to_nat new_total) q
      else Some q
  | _, _ => Some q
  end.

(** ** [DoPoll]: one turn *)

Section Poll.
Context {R : Type} (reachable : R -> bool).

(** [std::rotate(begin, begin + n, end)] *)
Definition rotate (n : nat) (l : list R) : list R := drop n l ++ take n l.

Fixpoint first_reachable (l : list R) : option nat :=
  match l with
  | [] => None
  | r :: l => if reachable r then Some O else S <$> first_reachable l
  end.

(** The configuration made from a coordinator's reply. *)
Definition new_configuration (conf : Configuration) (reply : EmitterConf) : Configuration :=
  let em := emitter_of conf in
  {| emitter := Some {| remotes := remotes reply; only_failed := only_failed em;
                        coordinators := coordinators em;
                        total_shards := match total_shards reply with
                                        | Some n => Some n | None => total_shards em end;
                        Messages.shard_queue_limit := Messages.shard_queue_limit em |};
     absorber := absorber conf; coordinator := coordinator conf; pool_capacity := pool_capacity conf;
     versions := versions conf; cache_conf := cache_conf conf |}.

(** [reply]: [None] when sending or reading fails or the reply holds no
    configuration.  The resolvers after the turn and the new configuration. *)
Definition poll_turn (resolvers : list R) (reply : option EmitterConf) (conf : Configuration)
    : list R * Configuration :=
  match first_reachable resolvers with
  | None => (resolvers, conf)
  | Some i =>
      let resolvers := rotate i resolvers in
      match reply with
      | None => (rotate 1 resolvers, conf)
      | Some reply =>
          let new_conf := new_configuration conf reply in
          if Check new_conf then (resolvers, new_conf) else (rotate 1 resolvers, conf)
      end
  end.

End Poll.

(** [Coordinator::HandleNewMessage]: what a coordinator sends. *)
Definition coordinator_reply (conf : CoordinatorConf) : EmitterConf :=
  {| remotes := coordinator_remotes conf; only_failed := false; coordinators := [];
     total_shards := coordinator_total_shards conf;
     Messages.shard_queue_limit := coordinator_shard_queue_limit conf |}.

(** ** Lemmas: shards *)

Lemma check_remotes_spec total l a r :
  check_remotes total l a = Some r ->
  (r = true <-> a = true \/ exists h, h ∈ l /\ disabled h = false) /\
  forall h, h ∈ l -> disabled h = false ->
    match total with
    | Some n => exists s, shard h = Some s /\ s < n
    | None => shard h = None
    end.
Proof.
  revert a. induction l as [|h l IH]; intros a; simpl.
  - intros [= ->]. split; [| intros h Hh; by apply not_elem_of_nil in Hh].
    split; [by left | by intros [? | (h & Hh & _)]; [| apply not_elem_of_nil in Hh]].
  - destruct (disabled h) eqn:Hd.
    + intros [H1 H2]%IH. split.
      * rewrite H1. split; (intros [? | (k & Hk & Hkd)]; [by left | right]).
        -- exists k. split; [by right | done].
        -- exists k. apply elem_of_cons in Hk as [-> | Hk]; [congruence | done].
      * intros k [-> | Hk]%elem_of_cons Hkd; [congruence | by apply H2].
    + intros H.
      assert (check_remotes total l true = Some r /\
              match total with Some n => exists s, shard h = Some s /\ s < n | None => shard h = None end) as [Hr Hh].
      { destruct (shard h) as [s|], total as [n|]; try done. destruct (n <=? s) eqn:E; bool_to_prop; [done |]. split; [done |]. by exists s. }
      apply IH in Hr as [H1 H2]. split.
      * rewrite H1. split; [| by left]. intros _. right. exists h. split; [left | done].
      * intros k [-> | Hk]%elem_of_cons Hkd; [done | by apply H2].
Qed.

Lemma flat_hash_len l h : flat_hash l = Some h -> length h = 16%nat.
Proof. intros H. destruct (flat_hash_total l) as (h' & H' & Hl). congruence. Qed.

Lemma bytes_nth l i : bytes_ok l -> 0 <= Znth l i < 256.
Proof.
  intros H. unfold Znth. destruct (nth_in_or_default (Z.to_nat i) l 0) as [Hin | ->]; [| lia].
  apply list_elem_of_In in Hin. by apply (proj1 (Forall_forall _ _) H).
Qed.

Lemma CalculateShard_range hash total :
  0 < total -> exists s, CalculateShard hash total = Some s /\ 0 <= s < total.
Proof.
  intros Ht. destruct (literal_usable hash) as [Hwf Hc].
  destruct (Hash_flat (of_String hash) 4 Hwf Hc) as (h & Hh & Hlen & HH).
  unfold CalculateShard. rewrite HH. cbn [mbind option_bind].
  set (n := if decide _ then 16%nat else Nat.min 16 4).
  assert (4 <= n <= 16)%nat as Hn by (unfold n; destruct (decide _); lia).
  rewrite copy_buffer by lia. cbn [mbind option_bind].
  destruct (Nat.ltb_spec (length (take n h)) 4) as [Hl | _]; [rewrite length_take in Hl; lia |].
  eexists. split; [done |]. by apply Z.mod_pos_bound.
Qed.

Lemma FindNewShard_spec total current new :
  2 <= total <= max_total_shards -> 0 <= current < total -> 0 <= new <= total - 2 ->
  let s := FindNewShard total current new in
  0 <= s < total /\ s <> current /\ (if current <=? new then s = new + 1 else s = new).
Proof.
  unfold FindNewShard, max_total_shards. intros Ht Hc Hn. case_if; [rewrite wrap_small by lia |]; lia.
Qed.

(** ** Lemmas: the tasks of a shard *)

Definition entries_of (q : Queue Task) (s : nat) : list (nat * Task) :=
  filter (fun p => reverse_index_ (LockedQueue.index q) !! p.1 = Some s) (queue_ q).

(** The tasks of shard [s], oldest first. *)
Definition tasks_in (q : Queue Task) (s : nat) : list Task := (entries_of q s).*2.

Lemma entries_nodes (rev : gmap nat nat) s (l : list (nat * Task)) :
  shard_of rev s l.*1 = (filter (fun p => rev !! p.1 = Some s) l).*1.
Proof.
  unfold shard_of. induction l as [|[a t] l IH]; [done |].
  rewrite fmap_cons, !filter_cons. cbn [fst]. case_decide; rewrite ?fmap_cons; by rewrite IH.
Qed.

Lemma tasks_of_entries (q : Queue Task) s : tasks_of q s = (entries_of q s).*1.
Proof. apply entries_nodes. Qed.

Lemma entries_elem q s p : p ∈ entries_of q s <-> reverse_index_ (LockedQueue.index q) !! p.1 = Some s /\ p ∈ queue_ q.
Proof. unfold entries_of. by rewrite list_elem_of_filter. Qed.

Lemma pop_entries (q q' : Queue Task) item task s :
  queue_ok q -> pop_outcome q (Popped item task) q' -> head (tasks_of q s) = Some item ->
  entries_of q s = (item, task) :: entries_of q' s /\ forall s', s' <> s -> entries_of q' s' = entries_of q s'.
Proof.
  intros Hq (_ & _ & _ & _ & _ & Hin & _ & Hqueue & Hrev & _) Hhead.
  assert (forall s', entries_of q' s' = filter (fun p => p.1 <> item) (entries_of q s')) as He.
  { intros s'. unfold entries_of. rewrite Hqueue, Hrev, !list_filter_filter.
    apply filter_ext_in. intros [a t] _. simpl. destruct (decide (a = item)) as [-> |].
    - rewrite lookup_delete_eq. split; [by intros [? ?] | by intros [? ?]].
    - rewrite lookup_delete_ne by done. tauto. }
  rewrite tasks_of_entries in Hhead.
  assert (NoDup (entries_of q s).*1) as Hnd
    by (rewrite <-tasks_of_entries; apply NoDup_filter, (ok_nodup _ Hq)).
  destruct (entries_of q s) as [|[a t] rest] eqn:Hents; [done |]. injection Hhead as ->.
  assert ((item, t) ∈ queue_ q /\ reverse_index_ (LockedQueue.index q) !! item = Some s) as [Ht Hs].
  { assert ((item, t) ∈ entries_of q s) as Hel by (rewrite Hents; left). by apply entries_elem in Hel as [? ?]. }
  assert (t = task) as ->.
  { apply list_elem_of_lookup in Ht as [i Hi], Hin as [j Hj].
    assert (i = j) as ->; [| congruence].
    eapply (NoDup_lookup (queue_ q).*1); [apply (ok_nodup _ Hq) | rewrite list_lookup_fmap, Hi; done
      | rewrite list_lookup_fmap, Hj; done]. }
  apply NoDup_cons in Hnd as [Hnot _]. split.
  - rewrite He, Hents, filter_cons_False by (simpl; by intros []). f_equal. symmetry. apply filter_all.
    intros p Hp Heq. apply Hnot. simpl. rewrite <-Heq. exact (list_elem_of_fmap_2 fst _ _ Hp).
  - intros s' Hs'. rewrite He. apply filter_all. intros p [Hp _]%entries_elem Heq. rewrite Heq in Hp. congruence.
Qed.

Lemma push_entries (q q' : Queue Task) sh task :
  queue_ok q -> queue_ q' = queue_ q ++ [(next_ q, task)] ->
  reverse_index_ (LockedQueue.index q') = <[next_ q := sh]> (reverse_index_ (LockedQueue.index q)) ->
  forall s, tasks_in q' s = tasks_in q s ++ (if decide (s = sh) then [task] else []).
Proof.
  intros Hq Hqueue Hrev s. unfold tasks_in, entries_of. rewrite Hqueue, Hrev, filter_app, fmap_app. f_equal.
  - f_equal. apply filter_ext_in. intros [a t] Hin. simpl. rewrite lookup_insert_ne; [done |].
    intros <-. assert (next_ q ∈ nodes q) as Hn by (apply (list_elem_of_fmap_2 fst) in Hin; exact Hin).
    pose proof (proj1 (Forall_forall _ _) (ok_fresh _ Hq) _ Hn). simpl in *. lia.
  - rewrite filter_cons, filter_nil. simpl. rewrite lookup_insert_eq.
    destruct (decide (s = sh)) as [-> |]; [by rewrite decide_True | by rewrite decide_False by congruence].
Qed.

Definition shard_for (total : Z) (t : Task) : nat :=
  Z.to_nat (default 0 (CalculateShard (EmitterTasks.handled_hash t) total)).

Lemma shard_for_lt total t : 0 < total -> (shard_for total t < Z.to_nat total)%nat.
Proof.
  intros H. unfold shard_for. destruct (CalculateShard_range (EmitterTasks.handled_hash t) total H) as (s & -> & Hs).
  simpl. lia.
Qed.

(** What the loops keep. *)
Record drainable (q : Queue Task) : Prop := {
  dr_ok : queue_ok q;
  dr_open : closed_ q = false;
  dr_capacity : capacity_ q = LockedQueue.UNLIMITED;
  dr_length : Zlen (queue_ q) <= 2 ^ 32 - 1;
}.

Lemma tasks_of_length (q : Queue Task) s : Zlen (tasks_of q s) <= Zlen (queue_ q).
Proof.
  unfold tasks_of, shard_of, Zlen, nodes.
  pose proof (length_filter (fun a => reverse_index_ (LockedQueue.index q) !! a = Some s) (queue_ q).*1) as H.
  rewrite length_fmap in H. lia.
Qed.

Lemma Push_ok (q : Queue Task) task sh :
  queue_ok q -> closed_ q = false -> capacity_ q = LockedQueue.UNLIMITED -> Z.of_nat sh < 2 ^ 32 - 1 ->
  exists q', Push task sh q = Some (true, q') /\ queue_ok q' /\ closed_ q' = false /\ capacity_ q' = LockedQueue.UNLIMITED /\
    queue_ q' = queue_ q ++ [(next_ q, task)] /\
    forall s, tasks_in q' s = tasks_in q s ++ (if decide (s = sh) then [task] else []).
Proof.
  intros Hq Hc Hcap Hs. unfold Push. rewrite Hc.
  destruct (push_locked_ok q task sh Hq Hs) as (b & q' & -> & Hq' & Hb & Hcl & Hca & _ & _ & H).
  destruct b.
  - destruct H as (Hqueue & Hnext & Hrev). eexists. split; [done |]. split_and!.
    + destruct Hq' as [H1 H2 H3 H4 H5]. by constructor.
    + simpl. congruence.
    + simpl. congruence.
    + exact Hqueue.
    + exact (push_entries q q' sh task Hq Hqueue Hrev).
  - exfalso. destruct (proj1 Hb eq_refl) as [_ Hne]. congruence.
Qed.

(** One turn of the inner loop: the shard is empty, or its oldest task moves. *)
Lemma drain_turn q total sh :
  drainable q -> 0 < total < 2 ^ 31 -> (Z.to_nat total <= sh)%nat -> Z.of_nat sh < 2 ^ 32 - 1 ->
  (exists q', Pop_pool false (2 ^ 32 - 1) sh true q = Some (Disengaged, q') /\ drainable q' /\
     queue_ q' = queue_ q /\ tasks_in q sh = [] /\ forall s, tasks_in q' s = tasks_in q s) \/
  (exists item task q1 q', Pop_pool false (2 ^ 32 - 1) sh true q = Some (Popped item task, q1) /\
     Push task (shard_for total task) q1 = Some (true, q') /\ drainable q' /\
     (queue_ q').*2 ≡ₚ (queue_ q).*2 /\ tasks_in q sh = task :: tasks_in q' sh /\
     forall s, s <> sh -> tasks_in q' s = tasks_in q s ++ (if decide (shard_for total task = s) then [task] else [])).
Proof.
  intros [Hq Hopen Hcap Hlen] Ht Hsh Hb. unfold Pop_pool. cbn [Z.eqb].
  assert (2 ^ 32 - 1 =? NOT_STRICT_SHARDING = false) as -> by done.
  destruct (PopStrict_ok q false (2 ^ 32 - 1) sh true Hq Hb ltac:(lia)) as (r & q1 & -> & Hout & Hres & _).
  assert (forall s, ~ 2 ^ 32 - 1 < Zlen (tasks_of q s)) as Hno
    by (intros s; pose proof (tasks_of_length q s); lia).
  destruct r as [| | item task]; simpl in Hres.
  - by destruct Hres.
  - left. exists q1. destruct Hres as [? | (Hemp & _)]; [done |].
    destruct Hout as (Hq1 & Hc1 & _ & Hcap1 & _ & Hqueue & _ & Hrev).
    split_and!; [done | constructor; congruence | done | |].
    + unfold tasks_in. rewrite tasks_of_entries in Hemp. rewrite fmap_nil_inv with (f := fst) (k := entries_of q sh); done.
    + intros s. unfold tasks_in, entries_of. by rewrite Hqueue, Hrev.
  - right. destruct Hres as [_ Hhead].
    assert (head (tasks_of q sh) = Some item) as Hh.
    { destruct (head (tasks_of q sh)) as [b|]; [by rewrite Hhead |].
      destruct Hhead as (s & Hover & _). by destruct (Hno s). }
    destruct (pop_entries q q1 item task sh Hq Hout Hh) as [Hsame Hother].
    pose proof Hout as (Hq1 & Hc1 & _ & Hcap1 & _ & Hin & _ & Hqueue & _).
    pose proof (shard_for_lt total task ltac:(lia)) as Hlt.
    destruct (Push_ok q1 task (shard_for total task)) as (q' & Hpush & Hq' & Hc' & Hcap' & Hqueue' & Htasks);
      [done | congruence | congruence | lia |].
    exists item, task, q1, q'.
    pose proof (popped_perm _ _ _ _ Hq Hout) as Hperm.
    split_and!; [done | done | | | |].
    + constructor; [done | done | done |]. rewrite Hqueue', Zlen_app. change (Zlen [_]) with 1.
      unfold Zlen in *. rewrite <-Hperm in Hlen. simpl length in Hlen. lia.
    + rewrite Hqueue', <-Hperm, fmap_app. simpl. rewrite (Permutation_app_comm _ [task]). done.
    + rewrite Htasks, decide_False by lia. rewrite app_nil_r. unfold tasks_in. by rewrite Hsame.
    + intros s Hs. rewrite Htasks. unfold tasks_in. rewrite Hother by done. f_equal.
      destruct (decide (s = shard_for total task)) as [-> |]; [by rewrite decide_True | by rewrite decide_False].
Qed.

Lemma CalculateShard_for total task :
  0 < total -> CalculateShard (EmitterTasks.handled_hash task) total = Some (Z.of_nat (shard_for total task)).
Proof.
  intros Ht. unfold shard_for. destruct (CalculateShard_range (EmitterTasks.handled_hash task) total Ht) as (s & -> & Hs).
  simpl. by rewrite Z2Nat.id by lia.
Qed.

Lemma drain_shard_spec fuel total sh q :
  drainable q -> 0 < total < 2 ^ 31 -> (Z.to_nat total <= sh)%nat -> Z.of_nat sh < 2 ^ 32 - 1 ->
  (length (tasks_in q sh) < fuel)%nat ->
  exists q', drain_shard fuel total sh q = Some q' /\ drainable q' /\ (queue_ q').*2 ≡ₚ (queue_ q).*2 /\
    tasks_in q' sh = [] /\
    forall s, s <> sh -> tasks_in q' s = tasks_in q s ++ filter (fun t => shard_for total t = s) (tasks_in q sh).
Proof.
  intros Hd Ht Hsh Hb. revert q Hd. induction fuel as [|fuel IH]; intros q Hd Hf; [lia |].
  cbn [drain_shard].
  destruct (drain_turn q total sh Hd Ht Hsh Hb) as
    [(q' & -> & Hd' & Hqueue & Hemp & Hsame) | (item & task & q1 & q' & -> & Hpush & Hd' & Hperm & Htake & Hother)];
    cbn [mbind option_bind].
  - exists q'. split_and!; [done | done | by rewrite Hqueue | by rewrite Hsame |].
    intros s _. by rewrite Hsame, Hemp, filter_nil, app_nil_r.
  - rewrite CalculateShard_for by lia. cbn [mbind option_bind]. rewrite Nat2Z.id, Hpush. cbn [mbind option_bind].
    rewrite Htake in Hf. simpl in Hf.
    destruct (IH q' Hd' ltac:(lia)) as (q2 & -> & Hd2 & Hperm2 & Hemp2 & Hother2).
    exists q2. split_and!; [done | done | by rewrite Hperm2 | done |].
    intros s Hs. rewrite Hother2, Hother, Htake, filter_cons, <-app_assoc by done. f_equal.
    by destruct (decide (shard_for total task = s)).
Qed.

Lemma drain_shards_spec n total sh q :
  drainable q -> 0 < total < 2 ^ 31 -> (Z.to_nat total <= sh)%nat -> Z.of_nat (sh + n) < 2 ^ 32 - 1 ->
  exists q', drain_shards n total sh q = Some q' /\ drainable q' /\ (queue_ q').*2 ≡ₚ (queue_ q).*2 /\
    (forall s, (sh <= s < sh + n)%nat -> tasks_in q' s = []) /\
    (forall s, (s < sh \/ sh + n <= s)%nat ->
       tasks_in q' s = tasks_in q s ++ filter (fun t => shard_for total t = s) (mjoin (map (tasks_in q) (seq sh n)))).
Proof.
  intros Hd Ht. revert sh q Hd. induction n as [|n IH]; intros sh q Hd Hsh Hb.
  - exists q. split_and!; [done | done | done | intros; lia |]. intros s _. simpl. by rewrite app_nil_r.
  - cbn [drain_shards].
    destruct (drain_shard_spec (S (length (queue_ q))) total sh q Hd Ht Hsh ltac:(lia)) as
      (q1 & -> & Hd1 & Hp1 & He1 & Ho1).
    { unfold tasks_in. rewrite length_fmap.
      pose proof (length_filter (fun p => reverse_index_ (LockedQueue.index q) !! p.1 = Some sh) (queue_ q)).
      unfold entries_of. lia. }
    cbn [mbind option_bind].
    assert (forall t s, (Z.to_nat total <= s)%nat -> shard_for total t <> s) as Hlt
      by (intros t s Hs; pose proof (shard_for_lt total t ltac:(lia)); lia).
    assert (forall s, (sh < s)%nat -> tasks_in q1 s = tasks_in q s) as Hkeep.
    { intros s Hs. rewrite Ho1 by lia. rewrite filter_none, app_nil_r; [done |]. intros t _. apply Hlt. lia. }
    destruct (IH (S sh) q1 Hd1 ltac:(lia) ltac:(lia)) as (q2 & -> & Hd2 & Hp2 & He2 & Ho2).
    exists q2. split_and!; [done | done | by rewrite Hp2 | |].
    + intros s Hs. destruct (decide (s = sh)) as [-> |]; [| apply He2; lia].
      rewrite Ho2, He1, filter_none by (lia || (intros t _; apply Hlt; lia)). done.
    + intros s Hs. rewrite Ho2, Ho1 by lia. simpl. rewrite <-app_assoc, filter_app. do 3 f_equal.
      f_equal. apply map_ext_in. intros s' Hs'%in_seq. apply Hkeep. lia.
Qed.

Lemma Check_totals conf n :
  Check conf = true -> total_shards (emitter_of conf) = Some n -> 2 <= n <= max_total_shards.
Proof.
  unfold Check, emitter_of. destruct (Check_versions conf); [| done]. cbn [negb].
  destruct (emitter conf) as [em|]; [| done]. unfold check_total. cbn [default]. unfold id. intros H Ht. revert H. rewrite Ht.
  destruct (Z.ltb_spec max_total_shards n); [done |]. destruct (Z.ltb_spec n 2); [done | lia].
Qed.

(** The redistribution never fails, and keeps the tasks. *)
Lemma Reload_tasks_ok new_conf old_conf q :
  Check new_conf = true -> Check old_conf = true -> drainable q ->
  exists q', Reload_tasks new_conf old_conf q = Some q' /\ drainable q' /\ (queue_ q').*2 ≡ₚ (queue_ q).*2.
Proof.
  intros Hnew Hold Hd. unfold Reload_tasks.
  destruct (total_shards (emitter_of new_conf)) as [n|] eqn:Hn; [| by exists q].
  destruct (total_shards (emitter_of old_conf)) as [m|] eqn:Hm; [| by exists q].
  destruct (negb _ && _) eqn:Hb; [| by exists q]. bool_to_prop.
  pose proof (Check_totals _ _ Hnew Hn). pose proof (Check_totals _ _ Hold Hm). unfold max_total_shards in *.
  destruct (drain_shards_spec (Z.to_nat (m - n)) n (Z.to_nat n) q Hd) as (q' & Hq' & Hd' & Hp & _); [lia | lia | lia |].
  by exists q'.
Qed.

(** ** Lemmas: resolvers *)

Lemma first_reachable_spec {R} (reachable : R -> bool) l :
  match first_reachable reachable l with
  | None => Forall (fun r => reachable r = false) l
  | Some i => exists l1 r l2, l = l1 ++ r :: l2 /\ length l1 = i /\
                Forall (fun r => reachable r = false) l1 /\ reachable r = true
  end.
Proof.
  induction l as [|r l IH]; simpl; [constructor |]. destruct (reachable r) eqn:Hr; [by exists [], r, l |].
  destruct (first_reachable reachable l) as [i|]; simpl; [| by constructor].
  destruct IH as (l1 & r' & l2 & -> & <- & Hl & Hr'). exists (r :: l1), r', l2. split_and!; try done. by constructor.
Qed.

Lemma first_split_unique {R} (reachable : R -> bool) l1 r l2 k1 x k2 :
  l1 ++ r :: l2 = k1 ++ x :: k2 -> Forall (fun r => reachable r = false) l1 ->
  Forall (fun r => reachable r = false) k1 -> reachable r = true -> reachable x = true ->
  l1 = k1 /\ r = x /\ l2 = k2.
Proof.
  revert k1. induction l1 as [|a l1 IH]; intros [|b k1] Heq H1 H2 Hr Hx; simpl in Heq; simplify_eq.
  - done.
  - apply Forall_cons in H2 as [H2 _]. congruence.
  - apply Forall_cons in H1 as [H1 _]. congruence.
  - apply Forall_cons in H1 as [_ H1], H2 as [_ H2].
    by destruct (IH k1) as (-> & -> & ->).
Qed.

(** ** Properties *)

(** C37: what a checked configuration guarantees to the workers.  With sharding
    there are between 2 and 1024 shards, the cache that computes the shards is
    on, every active remote has a shard below the total; without it no active
    remote has one; and a daemon that compiles failed tasks only has an active
    remote.  Every task is assigned a shard below the total, and the shard a
    task moves to after a failed connection is below the total, differs from
    the current one, and can be any other. *)
Theorem Check_sharding (conf : Configuration) :
  Check conf = true ->
  let em := emitter_of conf in
  (only_failed em = true -> exists h, h ∈ remotes em /\ disabled h = false) /\
  match total_shards em with
  | None => forall h, h ∈ remotes em -> disabled h = false -> shard h = None
  | Some n =>
      2 <= n <= max_total_shards /\ has_cache_conf conf = true /\
      (forall h, h ∈ remotes em -> disabled h = false -> exists s, shard h = Some s /\ s < n) /\
      (forall hash, exists s, CalculateShard hash n = Some s /\ 0 <= s < n) /\
      (forall current new, 0 <= current < n -> 0 <= new <= n - 2 ->
         0 <= FindNewShard n current new < n /\ FindNewShard n current new <> current) /\
      (forall current s, 0 <= current < n -> 0 <= s < n -> s <> current ->
         exists new, 0 <= new <= n - 2 /\ FindNewShard n current new = s)
  end.
Proof.
  unfold Check, emitter_of. destruct (Check_versions conf); [| done]. cbn [negb].
  destruct (emitter conf) as [em|]; [| done]. cbn [default]. unfold check_total, id. cbv zeta.
  destruct (total_shards em) as [n|] eqn:Ht.
  - destruct (Z.ltb_spec max_total_shards n); [done |]. destruct (Z.ltb_spec n 2); [done |].
    destruct (has_cache_conf conf) eqn:Hc; [| done]. cbn [negb].
    destruct (check_remotes (Some n) (remotes em) false) as [r|] eqn:Hr; [| done].
    apply check_remotes_spec in Hr as [H1 H2]. intros Hof.
    split_and!; [| lia | lia | done | exact H2 | intros; apply CalculateShard_range; lia | |].
    + intros Ho. rewrite Ho in Hof. destruct r; [| done]. by destruct (proj1 H1 eq_refl).
    + intros current new Hcur Hnew. destruct (FindNewShard_spec n current new ltac:(lia) Hcur Hnew) as (? & ? & _). by split.
    + intros current s Hcur Hs Hne. exists (if s <? current then s else s - 1).
      assert (0 <= (if s <? current then s else s - 1) <= n - 2) as Hr by (destruct (Z.ltb_spec s current); lia).
      split; [done |]. destruct (FindNewShard_spec n current _ ltac:(lia) Hcur Hr) as (_ & _ & Heq).
      destruct (Z.ltb_spec s current).
      * destruct (Z.leb_spec current s); [lia | done].
      * destruct (Z.leb_spec current (s - 1)); lia.
  - cbn [negb]. destruct (check_remotes None (remotes em) false) as [r|] eqn:Hr; [| done].
    apply check_remotes_spec in Hr as [H1 H2]. intros Hof. split; [| exact H2].
    intros Ho. rewrite Ho in Hof. destruct r; [| done]. by destruct (proj1 H1 eq_refl).
Qed.

Definition sharded_conf (total limit : Z) (coordinated : list Host) : Configuration :=
  {| emitter := Some {| remotes := [{| host := lit "r0"; port := 6000; threads := 2; disabled := false; ipv6 := false;
                                       shard := Some 0 |}];
                        only_failed := true; coordinators := coordinated; total_shards := Some total;
                        Messages.shard_queue_limit := Some limit |};
     absorber := None; coordinator := None; pool_capacity := 16; versions := versions example_conf;
     cache_conf := Some {| cache_disabled := false; direct := true |} |}.

Lemma Check_sharding_witness :
  Check (sharded_conf 4 1 []) = true /\ exists s, CalculateShard (lit "0a1b") 4 = Some s /\ 0 <= s < 4.
Proof.
  split; [reflexivity |].
  destruct (Check_sharding (sharded_conf 4 1 []) ltac:(reflexivity)) as (_ & _ & _ & _ & H & _). exact (H (lit "0a1b")).
Defined.

(** C36: when strict sharding is on and a reload lowers the number of shards, the
    redistribution terminates, loses no task and keeps the queue consistent:
    the abandoned shards are empty afterwards, and each remaining shard holds
    its own tasks followed by the moved tasks that hash to it, in their order.
    A reload leaves the queue alone when one of the configurations has no total,
    when sharding is not strict, and when the total does not get lower. *)
Theorem Reload_reshards (new_conf old_conf : Configuration) (q : Queue Task) :
  Check new_conf = true -> Check old_conf = true -> drainable q ->
  (forall new_total old_total, total_shards (emitter_of new_conf) = Some new_total ->
     total_shards (emitter_of old_conf) = Some old_total -> limit_of new_conf <> 0 -> new_total < old_total ->
     exists q', Reload_tasks new_conf old_conf q = Some q' /\ queue_ok q' /\ (queue_ q').*2 ≡ₚ (queue_ q).*2 /\
       (forall s, (Z.to_nat new_total <= s < Z.to_nat old_total)%nat -> tasks_in q' s = []) /\
       (forall s, (s < Z.to_nat new_total)%nat ->
          tasks_in q' s
          = tasks_in q s ++ filter (fun t => shard_for new_total t = s)
                              (mjoin (map (tasks_in q) (seq (Z.to_nat new_total) (Z.to_nat (old_total - new_total))))))) /\
  ((forall new_total old_total, total_shards (emitter_of new_conf) = Some new_total ->
      total_shards (emitter_of old_conf) = Some old_total -> limit_of new_conf = 0 \/ old_total <= new_total) ->
   Reload_tasks new_conf old_conf q = Some q).
Proof.
  intros Hnew Hold Hd. split.
  - intros n m Hn Hm Hl Hlt. unfold Reload_tasks. rewrite Hn, Hm.
    assert ((limit_of new_conf =? NOT_STRICT_SHARDING) = false) as -> by (by apply Z.eqb_neq).
    assert ((n <? m) = true) as -> by lia. cbn [negb andb].
    pose proof (Check_totals _ _ Hnew Hn). pose proof (Check_totals _ _ Hold Hm). unfold max_total_shards in *.
    destruct (drain_shards_spec (Z.to_nat (m - n)) n (Z.to_nat n) q Hd) as (q' & Hq' & Hd' & Hp & He & Ho);
      [lia | lia | lia |].
    exists q'. split_and!; [done | apply Hd' | done | intros s Hs; apply He; lia | intros s Hs; apply Ho; lia].
  - intros H. unfold Reload_tasks.
    destruct (total_shards (emitter_of new_conf)) as [n|], (total_shards (emitter_of old_conf)) as [m|]; try done.
    destruct (H n m eq_refl eq_refl) as [-> | Hle]; [done |].
    replace (n <? m) with false by lia. by rewrite andb_false_r.
Qed.

(** A queue with two tasks, the second in shard 3. *)
Definition two_tasks : Queue Task :=
  let push t sh q := match Push t sh q with Some (_, q) => q | None => q end in
  push (with_hash (lit "b") (new_task 1 {| local_flags := example_flags; current_dir := []; user_id := None |})) 3%nat
    (push (with_hash (lit "a") (new_task 0 {| local_flags := example_flags; current_dir := []; user_id := None |})) 0%nat
       (new_queue 0)).

Lemma two_tasks_drainable : drainable two_tasks.
Proof.
  unfold two_tasks.
  destruct (Push_ok (new_queue 0)
              (with_hash (lit "a") (new_task 0 {| local_flags := example_flags; current_dir := []; user_id := None |}))
              0 (new_queue_ok 0)) as (q1 & -> & H1 & C1 & Z1 & Q1 & _); [done | done | lia |].
  destruct (Push_ok q1
              (with_hash (lit "b") (new_task 1 {| local_flags := example_flags; current_dir := []; user_id := None |}))
              3 H1) as (q2 & -> & H2 & C2 & Z2 & Q2 & _); [done | done | lia |].
  constructor; [done | done | done |]. rewrite Q2, Q1, !Zlen_app. simpl. unfold Zlen. simpl. lia.
Qed.

Lemma Reload_reshards_witness :
  exists q', Reload_tasks (sharded_conf 2 1 []) (sharded_conf 4 1 []) two_tasks = Some q' /\ tasks_in q' 3 = [] /\
    (length (tasks_in q' 0) + length (tasks_in q' 1) = 2)%nat.
Proof.
  destruct (Reload_reshards (sharded_conf 2 1 []) (sharded_conf 4 1 []) two_tasks) as [H _];
    [reflexivity | reflexivity | exact two_tasks_drainable |].
  destruct (H 2 4) as (q' & Hq & _ & _ & He & Ho); [done | done | done | lia |].
  exists q'. split_and!; [done | apply He; lia |]. rewrite !Ho by lia. vm_compute. reflexivity.
Defined.

(** A turn of polling keeps the coordinators (in another order, the first
    reachable one first as long as it serves a usable configuration, last
    otherwise), and replaces the configuration only by a checked one that has
    the coordinator's remotes and, when it sends one, its number of shards.
    The limit that makes sharding strict, which the coordinator sends too, is
    never taken over. *)
Theorem poll_turn_spec {R : Type} (reachable : R -> bool) (resolvers : list R) (reply : option EmitterConf)
    (conf : Configuration) :
  let '(resolvers', conf') := poll_turn reachable resolvers reply conf in
  resolvers' ≡ₚ resolvers /\
  (conf' = conf \/
   Check conf' = true /\ exists em l1 r l2, reply = Some em /\ remotes (emitter_of conf') = remotes em /\
     total_shards (emitter_of conf') = (match total_shards em with Some n => Some n | None => total_shards (emitter_of conf) end) /\
     resolvers = l1 ++ r :: l2 /\ Forall (fun r => reachable r = false) l1 /\ reachable r = true /\
     resolvers' = r :: l2 ++ l1) /\
  limit_of conf' = limit_of conf /\
  (forall l1 r l2, resolvers = l1 ++ r :: l2 -> Forall (fun r => reachable r = false) l1 -> reachable r = true ->
     (reply = None \/ exists em, reply = Some em /\ Check (new_configuration conf em) = false) ->
     resolvers' = l2 ++ l1 ++ [r] /\ conf' = conf) /\
  (forall cc, reply = Some (coordinator_reply cc) -> conf' <> conf ->
     remotes (emitter_of conf') = coordinator_remotes cc).
Proof.
  unfold poll_turn. pose proof (first_reachable_spec reachable resolvers) as Hfirst.
  pose proof (first_split_unique reachable) as Huniq. destruct (first_reachable reachable resolvers) as [i|].
  - destruct Hfirst as (l1 & r & l2 & -> & <- & Hl & Hr). 
    assert (rotate (length l1) (l1 ++ r :: l2) = (r :: l2) ++ l1) as ->
      by (unfold rotate; by rewrite drop_app_length, take_app_length).
    assert (rotate 1 ((r :: l2) ++ l1) = l2 ++ l1 ++ [r]) as Hrot
      by (change (rotate 1 ((r :: l2) ++ l1)) with ((l2 ++ l1) ++ [r]); by rewrite <-app_assoc).
    assert (l2 ++ l1 ++ [r] ≡ₚ l1 ++ r :: l2) as Hp2.
    { rewrite (Permutation_app_comm l1 [r]). simpl. rewrite <-Permutation_middle.
      rewrite <-(Permutation_middle l1). by rewrite (Permutation_app_comm l2 l1). }
    assert ((r :: l2) ++ l1 ≡ₚ l1 ++ r :: l2) as Hp1 by (by rewrite Permutation_app_comm).
    destruct reply as [em|]; cbv zeta; [destruct (Check (new_configuration conf em)) eqn:Hc |].
    + split_and!; [done | | done | | by intros cc [= ->]].
      * right. split; [done |]. exists em, l1, r, l2. done.
      * intros k1 x k2 Heq Hk Hx [? | (em' & [= <-] & ?)]; congruence.
    + rewrite Hrot. split_and!; [done | by left | done | | done].
      intros k1 x k2 Heq Hk Hx _. by destruct (Huniq _ _ _ _ _ _ Heq Hl Hk Hr Hx) as (-> & -> & ->).
    + rewrite Hrot. split_and!; [done | by left | done | | done].
      intros k1 x k2 Heq Hk Hx _. by destruct (Huniq _ _ _ _ _ _ Heq Hl Hk Hr Hx) as (-> & -> & ->).
  - split_and!; [done | by left | done | | done]. intros l1 r l2 -> _ Hr _.
    rewrite Forall_app, Forall_cons in Hfirst. destruct Hfirst as (_ & Hf & _). congruence.
Qed.

Lemma poll_turn_spec_witness :
  poll_turn (fun r => bool_decide (r <> 0%nat)) [0%nat; 1%nat; 2%nat] None (sharded_conf 4 1 [])
  = ([2%nat; 0%nat; 1%nat], sharded_conf 4 1 []).
Proof.
  pose proof (poll_turn_spec (fun r => bool_decide (r <> 0%nat)) [0%nat; 1%nat; 2%nat] None (sharded_conf 4 1 [])) as H.
  destruct (poll_turn _ _ _ _) as [rs conf']. destruct H as (_ & _ & _ & H & _).
  destruct (H [0%nat] 1%nat [2%nat]) as [-> ->];
    [reflexivity | by repeat constructor | reflexivity | by left | reflexivity].
Defined.
