(* ===== verification/Emitter.v ===== *)
(** The emitter as a state machine: its three task queues, the workers that take
    tasks from them and the answers to the clients
    ([src/src/daemon/emitter.cc]).

    Which task of a queue a pop takes is the matter of [LockedQueue]; here a
    worker takes any task of its queue, so that what is proved holds for every
    scheduling.  The queues of the emitter have no capacity, so a push only
    fails when the daemon shuts down, which is not a step. *)

From S2P Require Import Prelude LockedQueue StringUtils ConstString ConstStringFind ConstStringHash CacheLocks FileCache CacheEntries Messages CommandLines CompilationDaemon EmitterTasks EmitterConf.

#[local] Open Scope Z_scope.

(** ** State *)

Record system := {
  daemon : Daemon;
  cache_tasks : list Task;
  all_tasks : list (Z * Task);          (* with the shard *)
  failed_tasks : list Task;
  local_takes_all : bool;               (* [local_tasks_] aggregates [all_tasks_] *)
  answers : list (nat * option Status)  (* [None]: the client had gone *)
}.

Definition initial (d : Daemon) : system :=
  {| daemon := d; cache_tasks := []; all_tasks := []; failed_tasks := [];
     local_takes_all := negb (only_failed (emitter_of (conf d))); answers := [] |}.

Definition with_daemon (d : Daemon) (s : system) : system :=
  {| daemon := d; cache_tasks := cache_tasks s; all_tasks := all_tasks s; failed_tasks := failed_tasks s;
     local_takes_all := local_takes_all s; answers := answers s |}.
Definition set_cache_tasks (l : list Task) (s : system) : system :=
  {| daemon := daemon s; cache_tasks := l; all_tasks := all_tasks s; failed_tasks := failed_tasks s;
     local_takes_all := local_takes_all s; answers := answers s |}.
Definition set_all_tasks (l : list (Z * Task)) (s : system) : system :=
  {| daemon := daemon s; cache_tasks := cache_tasks s; all_tasks := l; failed_tasks := failed_tasks s;
     local_takes_all := local_takes_all s; answers := answers s |}.
Definition set_failed_tasks (l : list Task) (s : system) : system :=
  {| daemon := daemon s; cache_tasks := cache_tasks s; all_tasks := all_tasks s; failed_tasks := l;
     local_takes_all := local_takes_all s; answers := answers s |}.
Definition set_answers (l : list (nat * option Status)) (s : system) : system :=
  {| daemon := daemon s; cache_tasks := cache_tasks s; all_tasks := all_tasks s; failed_tasks := failed_tasks s;
     local_takes_all := local_takes_all s; answers := l |}.

(** ** Operations *)

(** [HandleNewMessage] of a request for a local compilation. *)
Definition HandleNewMessage (conn : nat) (msg : Local_) (s : system) : system :=
  let t := new_task conn msg in
  if has_cache_conf (conf (daemon s)) then set_cache_tasks (cache_tasks s ++ [t]) s
  else set_all_tasks (all_tasks s ++ [(Z.of_nat DEFAULT_SHARD, t)]) s.

(** Where a handled task goes. *)
Definition place (conn : nat) (o : outcome) (s : system) : system :=
  match o with
  | Closed => set_answers (answers s ++ [(conn, None)]) s
  | Reported status => set_answers (answers s ++ [(conn, Some status)]) s
  | To_failed t => set_failed_tasks (failed_tasks s ++ [t]) s
  | To_all t shard => set_all_tasks (all_tasks s ++ [(shard, t)]) s
  end.

(** A task handed on after the request could not be sent. *)
Definition resent (w : world) (o : outcome) : bool :=
  match o with To_all _ _ => connected w | _ => false end.

Inductive event := Arrived (conn : nat) | Handled (conn : nat) (again : bool) | Reconfigured.

(** The connections of all requests the emitter knows. *)
Definition connections (s : system) : list nat :=
  map connection (cache_tasks s) ++ map (fun p => connection p.2) (all_tasks s)
  ++ map connection (failed_tasks s) ++ (answers s).*1.

Section System.
Context (print : Manifest -> list Z) (parse : list Z -> option Manifest).
Context (Compress Uncompress : list Z -> option (list Z)) (clang_version : list Z).

Inductive step : system -> event -> system -> Prop :=
| step_arrive s conn msg :
    conn ∉ connections s -> step s (Arrived conn) (HandleNewMessage conn msg s)
| step_cache s l1 t l2 w wconf o d :
    cache_tasks s = l1 ++ t :: l2 ->
    check_cache_task print parse Uncompress clang_version w wconf t (daemon s) = Some (o, d) ->
    step s (Handled (connection t) false)
      (place (connection t) o (set_cache_tasks (l1 ++ l2) (with_daemon d s)))
| step_failed s l1 t l2 w o d :
    failed_tasks s = l1 ++ t :: l2 ->
    local_task print Compress clang_version w t (daemon s) = Some (o, d) ->
    step s (Handled (connection t) false)
      (place (connection t) o (set_failed_tasks (l1 ++ l2) (with_daemon d s)))
| step_local s l1 sh t l2 w o d :
    local_takes_all s = true -> all_tasks s = l1 ++ (sh, t) :: l2 ->
    local_task print Compress clang_version w t (daemon s) = Some (o, d) ->
    step s (Handled (connection t) false)
      (place (connection t) o (set_all_tasks (l1 ++ l2) (with_daemon d s)))
| step_remote s l1 sh t l2 w wconf shard o d :
    all_tasks s = l1 ++ (sh, t) :: l2 ->
    remote_task print Compress clang_version w wconf shard t (daemon s) = Some (o, d) ->
    step s (Handled (connection t) (resent w o))
      (place (connection t) o (set_all_tasks (l1 ++ l2) (with_daemon d s)))
| step_reload s new_conf l :
    l.*2 ≡ₚ (all_tasks s).*2 ->
    step s Reconfigured
      (set_all_tasks l (with_daemon {| conf := new_conf; cache_on := cache_on (daemon s);
                                       cache := cache (daemon s) |} s)).

(** Runs, with their events in order. *)
Inductive run_of (s0 : system) : list event -> system -> Prop :=
| run_nil : run_of s0 [] s0
| run_step tr s e s' : run_of s0 tr s -> step s e s' -> run_of s0 (tr ++ [e]) s'.

(** ** What a worker may do with a task *)

(** A worker that may move a task from [all_tasks_] back to it, to another shard
    ([not connected]) or to the same one ([connected]). *)
Definition outcome_ok (may_queue may_fail : bool) (t : Task) (o : outcome) : Prop :=
  match o with
  | Closed | Reported _ => True
  | To_failed t' => may_fail = true /\ connection t' = connection t
  | To_all t' _ => may_queue = true /\ connection t' = connection t /\ changed_shard t' = changed_shard t
  end.

Lemma check_simple_outcome w wconf t found d o d' :
  check_simple print parse Uncompress clang_version w wconf t found d = Some (o, d') -> outcome_ok true true t o.
Proof.
  unfold check_simple. destruct (SetupCompiler _ _ _) as [[ok flags] status].
  destruct ok; cbn [negb]; [| by intros [= <- _]].
  destruct (GenerateSource w _ d) as [[src|] d1]; [| by intros [= <- _]].
  destruct (ReadExtraFiles _ _ _) as [extra|]; [| by intros [= <- _]].
  intros (hash & _ & ([[hit entry] d2] & _ & ([[status'|] d3] & _ & H)%bind_Some)%bind_Some)%bind_Some;
    [by injection H as <- _ |].
  destruct (total_shards _); [| by injection H as <- _].
  apply bind_Some in H as (shard & _ & H'). by injection H' as <- _.
Qed.

Lemma check_cache_outcome w wconf t d o d' :
  check_cache_task print parse Uncompress clang_version w wconf t d = Some (o, d') -> outcome_ok true true t o.
Proof.
  unfold check_cache_task. destruct (closed w); [by intros [= <- _] |].
  intros ([[hit entry] d1] & _ & H)%bind_Some.
  apply bind_Some in H as ([[status|] d2] & _ & H'); [by injection H' as <- _ | by eapply check_simple_outcome].
Qed.

Lemma local_outcome w t d o d' :
  local_task print Compress clang_version w t d = Some (o, d') -> outcome_ok false false t o.
Proof.
  unfold local_task. destruct (closed w); [by intros [= <- _] |].
  destruct (SetupCompiler _ _ _) as [[ok flags] status].
  destruct ok; cbn [negb]; [| by intros [= <- _]]. cbv zeta.
  destruct (proc_ok _); cbn [negb]; [| by intros [= <- _]].
  case_decide; [by intros [= <- _] |].
  repeat case_match; try (by intros [= <- _]);
    intros (hash & _ & (d2 & _ & H')%bind_Some)%bind_Some; by injection H' as <- _.
Qed.

(** A remote worker hands a task on to another shard only once, and to the same
    shard only when the request could not be sent. *)
Definition remote_ok (w : world) (t : Task) (o : outcome) : Prop :=
  match o with
  | To_all t' _ =>
      connection t' = connection t /\
      (connected w = true /\ changed_shard t' = changed_shard t \/
       connected w = false /\ changed_shard t = false /\ changed_shard t' = true)
  | _ => outcome_ok false true t o
  end.

Lemma handle_reply_outcome w t hash reply d o d' :
  handle_reply print Compress clang_version w t hash reply d = Some (o, d') -> outcome_ok false true t o.
Proof.
  unfold handle_reply. destruct (match reply_status reply with Some s => _ | None => _ end); [by intros [= <- _] |].
  destruct (reply_result reply) as [result|]; [| by intros [= <- _]].
  destruct (File_Write_daemon _ _ _ _) as [ok d1]. destruct ok; cbn [negb]; [| by intros [= <- _]].
  destruct (GenerateEntry _ _ _); [| by intros [= <- _]].
  intros (d2 & _ & H)%bind_Some. by injection H as <- _.
Qed.

Lemma remote_outcome w wconf shard t d o d' :
  remote_task print Compress clang_version w wconf shard t d = Some (o, d') -> remote_ok w t o.
Proof.
  unfold remote_task. destruct (closed w); [by intros [= <- _] |].
  destruct (SetupCompiler _ _ _) as [[ok flags] status].
  destruct ok; cbn [negb]; [| by intros [= <- _]].
  destruct (if decide _ then _ else _) as [[src|] d1]; [| by intros [= <- _]].
  destruct (connected w) eqn:Hc; cbn [negb].
  - intros (hash & _ & H)%bind_Some. destruct (sent w); cbn [negb] in H.
    + destruct (received w) as [reply|]; [| by injection H as <- _].
      apply handle_reply_outcome in H. destruct o; try done. by destruct H as [? _].
    + injection H as <- _. split; [done | by left].
  - intros [= <- _]. unfold not_connected. destruct (total_shards _); [| done].
    destruct (negb _ && negb _) eqn:Hb; [| done]. bool_to_prop.
    split; [done |]. right. split_and!; [done | done | done].
Qed.

(** ** The requests in flight *)

(** How many more times a task may be handled, unless it is sent again. *)
Definition all_left (t : Task) : nat := if changed_shard t then 2 else 3.

Definition work (s : system) : list (nat * nat) :=
  map (fun t => (connection t, 4%nat)) (cache_tasks s)
  ++ map (fun p => (connection p.2, all_left p.2)) (all_tasks s)
  ++ map (fun t => (connection t, 1%nat)) (failed_tasks s).

Lemma connections_work s : connections s = (work s).*1 ++ (answers s).*1.
Proof.
  unfold connections, work. rewrite !fmap_app, <-!app_assoc.
  assert (forall {A} (f : A -> nat) (g : A -> nat) l, (map (fun t => (f t, g t)) l).*1 = map f l) as Hm.
  { intros A f g l. induction l as [|x l IH]; [done |]. simpl. by f_equal. }
  by rewrite (Hm _ connection (fun _ => 4%nat)), (Hm _ (fun p : Z * Task => connection p.2) (fun p => all_left p.2)),
    (Hm _ connection (fun _ => 1%nat)).
Qed.

Lemma take_cache s l1 t l2 :
  cache_tasks s = l1 ++ t :: l2 -> work s ≡ₚ (connection t, 4%nat) :: work (set_cache_tasks (l1 ++ l2) s).
Proof. intros H. unfold work. simpl. rewrite H, !map_app. simpl. by rewrite <-Permutation_middle. Qed.

Lemma take_all s l1 sh t l2 :
  all_tasks s = l1 ++ (sh, t) :: l2 -> work s ≡ₚ (connection t, all_left t) :: work (set_all_tasks (l1 ++ l2) s).
Proof.
  intros H. unfold work. simpl. rewrite H, !map_app. simpl.
  rewrite <-Permutation_middle. simpl. by rewrite <-Permutation_middle.
Qed.

Lemma take_failed s l1 t l2 :
  failed_tasks s = l1 ++ t :: l2 -> work s ≡ₚ (connection t, 1%nat) :: work (set_failed_tasks (l1 ++ l2) s).
Proof. intros H. unfold work. simpl. rewrite H, !map_app. simpl. by rewrite <-!Permutation_middle. Qed.

(** A handled task is answered, or comes back with less to do unless it could
    not be sent. *)
Definition handled_ok (c n : nat) (again : bool) (s s' : system) : Prop :=
  (exists r, work s' ≡ₚ work s /\ answers s' = answers s ++ [(c, r)]) \/
  (exists n', work s' ≡ₚ (c, n') :: work s /\ answers s' = answers s /\ (1 <= n')%nat /\
              (n' < n \/ again = true /\ n' <= n)%nat).

Lemma place_ok may_queue may_fail t o n s :
  outcome_ok may_queue may_fail t o -> (may_fail = true -> 1 < n)%nat ->
  (may_queue = true -> all_left t < n)%nat ->
  handled_ok (connection t) n false s (place (connection t) o s).
Proof.
  intros Ho Hf Hq. destruct o as [|status|t'|t' sh]; simpl in *.
  - left. by exists None.
  - left. by exists (Some status).
  - destruct Ho as [Hm Hc]. right. exists 1%nat. split_and!; [| done | lia | left; auto].
    unfold work. simpl. rewrite map_app, !app_assoc. simpl. rewrite Hc. symmetry. apply Permutation_cons_append.
  - destruct Ho as (Hm & Hc & Hs). right. exists (all_left t).
    split_and!; [| done | unfold all_left; case_match; lia | left; auto].
    unfold work. simpl. rewrite map_app. simpl. unfold all_left. rewrite Hc, Hs.
    rewrite <-Permutation_middle, app_nil_r. simpl. by rewrite <-Permutation_middle.
Qed.

Lemma remote_place_ok w t o s :
  remote_ok w t o -> handled_ok (connection t) (all_left t) (resent w o) s (place (connection t) o s).
Proof.
  intros Ho. assert (1 < all_left t)%nat as Hl by (unfold all_left; case_match; lia).
  destruct o as [|status|t'|t' sh]; [by apply (place_ok false true t) .. |].
  destruct Ho as (Hc & Hs). right. exists (all_left t'). split_and!; [| done | unfold all_left; case_match; lia |].
  - unfold work. simpl. rewrite map_app. simpl. rewrite Hc, <-Permutation_middle, app_nil_r. simpl.
    by rewrite <-Permutation_middle.
  - simpl. destruct Hs as [[-> Hs] | (-> & H1 & H2)]; unfold all_left.
    + right. by rewrite Hs.
    + left. rewrite H1, H2. lia.
Qed.

Lemma step_handled s c again s' :
  step s (Handled c again) s' ->
  exists n s1, work s ≡ₚ (c, n) :: work s1 /\ answers s1 = answers s /\ handled_ok c n again s1 s' /\ (1 <= n)%nat.
Proof.
  assert (forall t, all_left t < 4)%nat as H4 by (intros t; unfold all_left; case_match; lia).
  assert (forall t, 1 < all_left t)%nat as H1 by (intros t; unfold all_left; case_match; lia).
  inversion 1 as [| ? l1 t l2 w wconf o d Hl Ho | ? l1 t l2 w o d Hl Ho | ? l1 sh t l2 w o d Ha Hl Ho
                  | ? l1 sh t l2 w wconf shard o d Hl Ho |]; subst.
  - exists 4%nat, (set_cache_tasks (l1 ++ l2) (with_daemon d s)).
    split_and!; [exact (take_cache _ _ _ _ Hl) | done | | lia].
    apply (place_ok true true); [by eapply check_cache_outcome | lia | intros _; apply H4].
  - exists 1%nat, (set_failed_tasks (l1 ++ l2) (with_daemon d s)).
    split_and!; [exact (take_failed _ _ _ _ Hl) | done | | lia].
    by apply (place_ok false false); [eapply local_outcome | |].
  - exists (all_left t), (set_all_tasks (l1 ++ l2) (with_daemon d s)).
    split_and!; [exact (take_all _ _ _ _ _ Hl) | done | | specialize (H1 t); lia].
    by apply (place_ok false false); [eapply local_outcome | |].
  - exists (all_left t), (set_all_tasks (l1 ++ l2) (with_daemon d s)).
    split_and!; [exact (take_all _ _ _ _ _ Hl) | done | | specialize (H1 t); lia].
    apply remote_place_ok. by eapply remote_outcome.
Qed.

Lemma step_arrived s c s' :
  step s (Arrived c) s' ->
  c ∉ connections s /\ answers s' = answers s /\
  exists n, (1 <= n <= 4)%nat /\ work s' ≡ₚ (c, n) :: work s.
Proof.
  inversion 1 as [? ? msg Hc | | | | |]; subst. split; [done |]. unfold HandleNewMessage.
  destruct (has_cache_conf _); simpl; (split; [done |]).
  - exists 4%nat. split; [lia |]. unfold work. simpl. rewrite map_app. simpl.
    by rewrite <-Permutation_middle, app_nil_r.
  - exists 3%nat. split; [lia |]. unfold work. simpl. rewrite map_app. simpl.
    rewrite <-Permutation_middle, app_nil_r. simpl. by rewrite <-Permutation_middle.
Qed.

Lemma step_reconfigured s s' :
  step s Reconfigured s' -> work s' ≡ₚ work s /\ answers s' = answers s.
Proof.
  inversion 1 as [| | | | | ? new_conf l Hl]; subst. split; [| done]. unfold work. simpl.
  assert (forall k : list (Z * Task), map (fun p => (connection p.2, all_left p.2)) k
            = map (fun t => (connection t, all_left t)) k.*2) as Hm.
  { intros k. induction k as [|x k IH]; [done |]. simpl. by f_equal. }
  rewrite !Hm. apply Permutation_app_head, Permutation_app_tail. by apply Permutation_map.
Qed.

(** ** Runs *)

Definition arrived (e : event) : option nat := match e with Arrived c => Some c | _ => None end.
Definition handled (c : nat) (e : event) : nat :=
  match e with Handled c' _ => if decide (c' = c) then 1 else 0 | _ => 0 end.
Definition repeated (c : nat) (e : event) : nat :=
  match e with Handled c' true => if decide (c' = c) then 1 else 0 | _ => 0 end.

Lemma handled_connections c n again s1 s s' :
  work s ≡ₚ (c, n) :: work s1 -> answers s1 = answers s -> handled_ok c n again s1 s' ->
  connections s' ≡ₚ connections s.
Proof.
  intros Hw Ha Hh. rewrite !connections_work, Hw, <-Ha. cbn [fmap list_fmap fst].
  destruct Hh as [(r & Hw' & ->) | (n' & Hw' & -> & _)]; rewrite Hw'.
  - rewrite fmap_app. simpl. rewrite app_assoc, (Permutation_app_comm _ [c]). done.
  - done.
Qed.

Lemma step_connections s e s' :
  step s e s' ->
  match e with
  | Arrived c => c ∉ connections s /\ connections s' ≡ₚ c :: connections s
  | _ => connections s' ≡ₚ connections s
  end.
Proof.
  destruct e as [c | c again |]; intros H.
  - apply step_arrived in H as (Hc & Ha & n & _ & Hw). split; [done |].
    rewrite !connections_work, Hw, Ha. done.
  - apply step_handled in H as (n & s1 & Hw & Ha & Hh & _). by eapply handled_connections.
  - apply step_reconfigured in H as [Hw Ha]. by rewrite !connections_work, Hw, Ha.
Qed.

Lemma run_connections d tr s :
  run_of (initial d) tr s -> NoDup (connections s) /\ connections s ≡ₚ omap arrived tr.
Proof.
  induction 1 as [|tr s e s' Hr [Hn Hp] Hs]; [split; [constructor | done] |].
  rewrite omap_app. apply step_connections in Hs. destruct e as [c | c again |]; simpl in *.
  - destruct Hs as [Hc Hs]. rewrite Hs. split; [by constructor |].
    rewrite Hp. apply Permutation_cons_append.
  - by rewrite Hs, app_nil_r.
  - by rewrite Hs, app_nil_r.
Qed.

(** What is left to do for the requests of a connection. *)
Definition weight (c : nat) (s : system) : nat :=
  sum_list_with (fun p : nat * nat => if decide (p.1 = c) then p.2 else 0%nat) (work s).

Definition arrivals (c : nat) (e : event) : nat :=
  match e with Arrived c' => if decide (c' = c) then 1 else 0 | _ => 0 end.

Lemma step_weight c s e s' :
  step s e s' -> (handled c e + weight c s' <= 4 * arrivals c e + repeated c e + weight c s)%nat.
Proof.
  unfold weight. destruct e as [c' | c' again |]; intros H; simpl.
  - apply step_arrived in H as (_ & _ & n & Hn & ->). simpl. case_decide; lia.
  - apply step_handled in H as (n & s1 & -> & _ & Hh & Hn1). simpl.
    destruct Hh as [(r & -> & _) | (n' & -> & _ & Hn & Hlt)]; simpl;
      [destruct again; case_decide; lia |].
    destruct again; case_decide; [lia | lia | | lia]. destruct Hlt as [? | [? ?]]; [lia | done].
  - by apply step_reconfigured in H as [-> _].
Qed.

Lemma sum_list_with_snoc {A} (f : A -> nat) l x : sum_list_with f (l ++ [x]) = (sum_list_with f l + f x)%nat.
Proof. rewrite sum_list_with_app. simpl. lia. Qed.

Lemma run_weight d c tr s :
  run_of (initial d) tr s ->
  (sum_list_with (handled c) tr + weight c s
   <= 4 * sum_list_with (arrivals c) tr + sum_list_with (repeated c) tr)%nat.
Proof.
  induction 1 as [|tr s e s' Hr IH Hs]; [done |]. rewrite !sum_list_with_snoc.
  apply (step_weight c) in Hs. lia.
Qed.

Lemma arrivals_none c tr : c ∉ omap arrived tr -> sum_list_with (arrivals c) tr = 0%nat.
Proof.
  induction tr as [|e tr IH]; [done |]. destruct e as [c' | |]; simpl; [| done | done].
  rewrite not_elem_of_cons. intros [Hc Ht]. rewrite decide_False by congruence. by apply IH.
Qed.

Lemma arrivals_once c tr : NoDup (omap arrived tr) -> (sum_list_with (arrivals c) tr <= 1)%nat.
Proof.
  intros Hn. induction tr as [|e tr IH]; [simpl; lia |].
  destruct e as [c' | |]; simpl in *; [| by apply IH ..].
  apply NoDup_cons in Hn as [Hc Hn]. case_decide as Heq; [subst c' | by apply IH].
  pose proof (arrivals_none c tr Hc). lia.
Qed.

Lemma work_pos d tr s : run_of (initial d) tr s -> forall p, p ∈ work s -> (1 <= p.2)%nat.
Proof.
  intros _ p. unfold work. rewrite !elem_of_app, !list_elem_of_fmap.
  intros [(t & -> & _) | [(q & -> & _) | (t & -> & _)]]; simpl; [lia | | lia]. unfold all_left. case_match; lia.
Qed.

Lemma weight_pos c s n : (c, n) ∈ work s -> (n <= weight c s)%nat.
Proof.
  unfold weight. intros Hin. apply list_elem_of_split in Hin as (l1 & l2 & ->).
  rewrite sum_list_with_app. simpl. rewrite decide_True by done. lia.
Qed.

Lemma step_answers s e s' : step s e s' -> exists l, answers s' = answers s ++ l.
Proof.
  destruct e as [c | c again |]; intros H.
  - apply step_arrived in H as (_ & -> & _). exists []. by rewrite app_nil_r.
  - apply step_handled in H as (n & s1 & _ & <- & [(r & _ & ->) | (n' & _ & -> & _)] & _).
    + by exists [(c, r)].
    + exists []. by rewrite app_nil_r.
  - apply step_reconfigured in H as [_ ->]. exists []. by rewrite app_nil_r.
Qed.

Lemma run_answers s tr s' : run_of s tr s' -> exists l, answers s' = answers s ++ l.
Proof.
  induction 1 as [|tr s1 e s' Hr (l & Hl) Hs]; [exists []; by rewrite app_nil_r |].
  apply step_answers in Hs as [k Hk]. exists (l ++ k). by rewrite Hk, Hl, app_assoc.
Qed.

(** ** Properties *)

(** C2: no request is lost, duplicated or answered twice.  In every run, whatever
    the order of the workers, the processes, the network and the cache do, each
    request that has arrived is in exactly one place: one of the three queues,
    or the list of answers, where it stays for good. *)
Theorem one_answer (d : Daemon) (tr : list event) (s : system) :
  run_of (initial d) tr s ->
  NoDup (omap arrived tr) /\
  map connection (cache_tasks s) ++ map (fun p => connection p.2) (all_tasks s)
    ++ map connection (failed_tasks s) ++ (answers s).*1 ≡ₚ omap arrived tr /\
  NoDup (answers s).*1 /\
  forall tr' s', run_of s tr' s' -> exists l, answers s' = answers s ++ l.
Proof.
  intros Hr. destruct (run_connections _ _ _ Hr) as [Hn Hp]. split_and!.
  - by rewrite <-Hp.
  - exact Hp.
  - rewrite connections_work in Hn. by apply NoDup_app in Hn as (_ & _ & Hn).
  - intros tr' s' Hr'. by eapply run_answers.
Qed.

(** C17: every request is finished after at most four handlings, one by each kind
    of worker and a second remote one for the changed shard, not counting those
    after which the request could not be sent to the remote daemon: these put
    the task back into the shard it came from and are not limited. *)
Theorem bounded_work (d : Daemon) (tr : list event) (s : system) (c : nat) :
  run_of (initial d) tr s -> c ∈ omap arrived tr ->
  (sum_list_with (handled c) tr <= 4 + sum_list_with (repeated c) tr)%nat /\
  (c ∉ (answers s).*1 ->
   sum_list_with (handled c) tr < 4 + sum_list_with (repeated c) tr)%nat.
Proof.
  intros Hr Hc. pose proof (run_weight _ c _ _ Hr) as Hw. destruct (run_connections _ _ _ Hr) as [Hn Hp].
  assert (sum_list_with (arrivals c) tr <= 1)%nat as H1 by (apply arrivals_once; by rewrite <-Hp).
  split; [lia |]. intros Ha. assert (c ∈ connections s) as Hin by (by rewrite Hp).
  rewrite connections_work in Hin. apply elem_of_app in Hin as [Hin | Hin]; [| done].
  apply list_elem_of_fmap in Hin as ([c' n] & Heq & Hin). simpl in Heq. subst c'.
  pose proof (work_pos _ _ _ Hr _ Hin) as Hn1. apply weight_pos in Hin. simpl in Hn1. lia.
Qed.
End System.

(** ** A concrete run: a request that every worker handles

    The remote daemons cannot be reached; the request is preprocessed, tried on
    two shards and compiled locally. *)

Definition emitter_conf : Configuration := sharded_conf 4 1 [].

Definition emitter_daemon : Daemon := {| conf := emitter_conf; cache_on := true; cache := toy_cache |}.

Definition emitter_request : Local_ :=
  {| local_flags := set_deps_file None (request []); current_dir := lit "/src"; user_id := None |}.

Definition unreachable : world :=
  {| closed := false; calls := good_env;
     run := fun _ _ fs => {| proc_ok := true; proc_stdout := lit "int a;"; proc_stderr := lit "warning";
                             proc_error := []; proc_files := fs |};
     connected := false; sent := false; received := None; random := 0 |}.

Definition outcome_or (x : option (outcome * Daemon)) : outcome * Daemon := default (Closed, emitter_daemon) x.

Lemma outcome_or_Some x : has x = true -> x = Some (outcome_or x).
Proof. by destruct x. Qed.

Definition task_of (o : outcome) : Task :=
  match o with To_failed t | To_all t _ => t | _ => new_task 0 emitter_request end.
Definition shard_of (o : outcome) : Z := match o with To_all _ sh => sh | _ => 0 end.

Definition run0 : system := HandleNewMessage 0 emitter_request (initial emitter_daemon).
Definition did1 := outcome_or (check_cache_task toy_print toy_parse toy_Uncompress (lit "clang 4") unreachable
                                 emitter_conf (new_task 0 emitter_request) emitter_daemon).
Definition run1 : system := place 0 did1.1 (set_cache_tasks [] (with_daemon did1.2 run0)).
Definition did2 := outcome_or (remote_task toy_print toy_Compress (lit "clang 4") unreachable emitter_conf
                                 (shard_of did1.1) (task_of did1.1) did1.2).
Definition run2 : system := place 0 did2.1 (set_all_tasks [] (with_daemon did2.2 run1)).
Definition did3 := outcome_or (remote_task toy_print toy_Compress (lit "clang 4") unreachable emitter_conf
                                 (shard_of did2.1) (task_of did2.1) did2.2).
Definition run3 : system := place 0 did3.1 (set_all_tasks [] (with_daemon did3.2 run2)).
Definition did4 := outcome_or (local_task toy_print toy_Compress (lit "clang 4") unreachable (task_of did3.1) did3.2).
Definition run4 : system := place 0 did4.1 (set_failed_tasks [] (with_daemon did4.2 run3)).

Definition four_handlings : list event :=
  [Arrived 0; Handled 0 false; Handled 0 false; Handled 0 false; Handled 0 false].

Lemma four_handlings_run :
  run_of toy_print toy_parse toy_Compress toy_Uncompress (lit "clang 4") (initial emitter_daemon) four_handlings run4.
Proof.
  assert (step toy_print toy_parse toy_Compress toy_Uncompress (lit "clang 4") (initial emitter_daemon) (Arrived 0) run0)
    as S0 by (constructor; apply not_elem_of_nil).
  assert (step toy_print toy_parse toy_Compress toy_Uncompress (lit "clang 4") run0 (Handled 0 false) run1) as S1.
  { apply (step_cache _ _ _ _ _ run0 [] (new_task 0 emitter_request) [] unreachable emitter_conf did1.1 did1.2); [done |].
    rewrite <-surjective_pairing. apply outcome_or_Some. vm_compute. reflexivity. }
  assert (step toy_print toy_parse toy_Compress toy_Uncompress (lit "clang 4") run1 (Handled 0 false) run2) as S2.
  { apply (step_remote _ _ _ _ _ run1 [] (shard_of did1.1) (task_of did1.1) [] unreachable emitter_conf
             (shard_of did1.1) did2.1 did2.2); [vm_compute; reflexivity |].
    rewrite <-surjective_pairing. apply outcome_or_Some. vm_compute. reflexivity. }
  assert (step toy_print toy_parse toy_Compress toy_Uncompress (lit "clang 4") run2 (Handled 0 false) run3) as S3.
  { apply (step_remote _ _ _ _ _ run2 [] (shard_of did2.1) (task_of did2.1) [] unreachable emitter_conf
             (shard_of did2.1) did3.1 did3.2); [vm_compute; reflexivity |].
    rewrite <-surjective_pairing. apply outcome_or_Some. vm_compute. reflexivity. }
  assert (step toy_print toy_parse toy_Compress toy_Uncompress (lit "clang 4") run3 (Handled 0 false) run4) as S4.
  { apply (step_failed _ _ _ _ _ run3 [] (task_of did3.1) [] unreachable did4.1 did4.2); [vm_compute; reflexivity |].
    rewrite <-surjective_pairing. apply outcome_or_Some. vm_compute. reflexivity. }
  pose proof (run_nil toy_print toy_parse toy_Compress toy_Uncompress (lit "clang 4") (initial emitter_daemon)) as R.
  exact (run_step _ _ _ _ _ _ _ _ _ _ (run_step _ _ _ _ _ _ _ _ _ _ (run_step _ _ _ _ _ _ _ _ _ _
          (run_step _ _ _ _ _ _ _ _ _ _ (run_step _ _ _ _ _ _ _ _ _ _ R S0) S1) S2) S3) S4).
Qed.

Lemma one_answer_witness :
  answers run4 = [(0%nat, Some (ok_with (lit "warning")))] /\ NoDup (answers run4).*1.
Proof.
  split; [vm_compute; reflexivity |].
  exact (proj1 (proj2 (proj2 (one_answer toy_print toy_parse toy_Compress toy_Uncompress (lit "clang 4")
                                emitter_daemon four_handlings run4 four_handlings_run)))).
Defined.

Lemma bounded_work_witness :
  sum_list_with (handled 0) four_handlings = 4%nat /\
  (sum_list_with (handled 0) four_handlings <= 4 + sum_list_with (repeated 0) four_handlings)%nat.
Proof.
  split; [reflexivity |].
  refine (proj1 (bounded_work toy_print toy_parse toy_Compress toy_Uncompress (lit "clang 4")
                   emitter_daemon four_handlings run4 0 four_handlings_run _)).
  left.
Defined.

(** The remote daemon accepts the connection but the request cannot be sent. *)
Definition refusing : world :=
  {| closed := false; calls := good_env; run := run unreachable; connected := true; sent := false;
     received := None; random := 0 |}.

Lemma refused_step :
  step toy_print toy_parse toy_Compress toy_Uncompress (lit "clang 4") run1 (Handled 0 true) run1.
Proof.
  assert (run1 = place 0 (To_all (task_of did1.1) (shard_of did1.1)) (set_all_tasks [] (with_daemon did1.2 run1)))
    as Hs by (vm_compute; reflexivity).
  rewrite Hs at 2.
  apply (step_remote _ _ _ _ _ run1 [] (shard_of did1.1) (task_of did1.1) [] refusing emitter_conf
           (shard_of did1.1) (To_all (task_of did1.1) (shard_of did1.1)) did1.2); vm_compute; reflexivity.
Qed.

(** Nothing limits the repetitions: for every number there is a run in which
    the only request of the emitter is handled that many times more and is
    still in the queue of all tasks, because each time the request could not be
    sent, although the configuration is a checked one; the local workers, which
    take failed tasks only, never get it. *)
Theorem resent_for_ever (n : nat) :
  exists tr s, run_of toy_print toy_parse toy_Compress toy_Uncompress (lit "clang 4") (initial emitter_daemon) tr s /\
    sum_list_with (handled 0) tr = S n /\ answers s = [] /\ failed_tasks s = [] /\ length (all_tasks s) = 1%nat /\
    local_takes_all s = false /\ Check (conf (daemon s)) = true.
Proof.
  exists ([Arrived 0; Handled 0 false] ++ repeat (Handled 0 true) n), run1. split_and!; [| | done | by vm_compute ..].
  - assert (run_of toy_print toy_parse toy_Compress toy_Uncompress (lit "clang 4") (initial emitter_daemon)
              [Arrived 0; Handled 0 false] run1) as R.
    { pose proof (run_nil toy_print toy_parse toy_Compress toy_Uncompress (lit "clang 4") (initial emitter_daemon)) as R.
      eapply (run_step _ _ _ _ _ _ [Arrived 0] run0); [eapply (run_step _ _ _ _ _ _ []); [exact R |] |].
      - constructor. apply not_elem_of_nil.
      - apply (step_cache _ _ _ _ _ run0 [] (new_task 0 emitter_request) [] unreachable emitter_conf did1.1 did1.2); [done |].
        rewrite <-surjective_pairing. apply outcome_or_Some. vm_compute. reflexivity. }
    induction n as [|n IH]; [exact R |].
    assert (forall (e : event) k, repeat e (S k) = repeat e k ++ [e]) as Hr.
    { intros e k. induction k as [|k IHk]; [done |]. simpl in *. by rewrite <-IHk. }
    rewrite Hr, app_assoc. eapply run_step; [exact IH | apply refused_step].
  - induction n as [|n IH]; [done |]. simpl in *. lia.
Qed.
