(* ===== verification/Absorber.v ===== *)
(** [daemon::Absorber], which compiles preprocessed sources for remote emitters
    ([src/src/daemon/absorber.cc]), and how it and the emitter work together. *)

From S2P Require Import Prelude LockedQueue StringUtils ConstString ConstStringFind ConstStringHash CacheLocks FileCache CacheEntries CacheFrame CacheMigrate CacheClean CacheNames Messages CommandLines CompilationDaemon EmitterTasks.

#[local] Open Scope Z_scope.

(** ** Tasks *)

Record AbsorberTask := { client : nat; request_ : Remote; local_hash : list Z }.

Definition kOverloadedErrorText : list Z := lit "Tasks queue reached limit".

(** What becomes of a message or a task. *)
Inductive absorber_outcome :=
| Gone                            (* the connection is closed *)
| Sent (reply : Reply)            (* [SendAsync] *)
| Refused (status : Status)       (* [ReportStatus] *)
| To_execute (t : AbsorberTask)   (* [tasks_->Push] *).

(** ** The flags of a request *)

Definition AdjustFlags (f : Flags) : Flags :=
  let c := compiler f in
  set_compiler (set_plugins (map clear_plugin_path (plugins c)) (set_compiler_path None c))
    (set_deps_file None (set_input None (set_output (Some (lit "-")) f))).

Definition GetExtraFiles (m : Remote) : list (list Z * ConstString) :=
  match remote_blacklist m with
  | Some contents => [(SANITIZE_BLACKLIST, of_String contents)]
  | None => []
  end.

(** [PrepareExtraFilesForCompiler]; [inr] is the status of a failure. *)
Definition PrepareExtraFilesForCompiler (w : world) (extra : list (list Z * ConstString)) (temp_dir : path)
    (f : Flags) (d : Daemon) : (Flags + Status) * Daemon :=
  match SetExtraFiles extra with
  | None => (inl f, d)
  | Some contents =>
      let file := path_div temp_dir (lit "sanitize_blacklist") in
      let '(ok, d) := File_Write_daemon w file contents d in
      if ok then (inl (set_sanitize_blacklist (Some file) f), d)
      else (inr {| code := EXECUTION;
                   description := Some (lit "Failed to write sanitize blacklist file " ++ file) |}, d)
  end.

(** The languages of preprocessed sources. *)
Definition preprocessed_language (f : Flags) : Flags :=
  if default false (rewrite_includes f) then f
  else
    match language f with
    | Some l =>
        if decide (l = lit "c") then set_language (Some (lit "cpp-output")) f
        else if decide (l = lit "c++") then set_language (Some (lit "c++-cpp-output")) f
        else if decide (l = lit "objective-c++") then set_language (Some (lit "objective-c++-cpp-output")) f
        else f
    | None => f
    end.

Definition with_request_flags (f : Flags) (m : Remote) : Remote :=
  {| remote_flags := f; Messages.source := Messages.source m; remote_blacklist := remote_blacklist m;
     Messages.handled_hash := Messages.handled_hash m |}.

(** [result->set_hash_match], when the request holds a hash. *)
Definition hash_match_of (m : Remote) (hash : list Z) : option bool :=
  (fun remote_hash => bool_decide (remote_hash = hash)) <$> Messages.handled_hash m.

Definition result_reply (m : Remote) (hash obj text : list Z) (cached : bool) : Reply :=
  {| reply_status := Some (ok_with text);
     reply_result := Some {| result_obj := obj; result_deps := None; from_cache := Some cached;
                             hash_match := hash_match_of m hash |} |}.

(** What a failed compilation reports; the order differs from the emitter's. *)
Definition remote_failure_text (r : run_result) : list Z :=
  if decide (proc_stderr r <> []) then proc_stderr r
  else if decide (proc_stdout r <> []) then proc_stdout r
  else if decide (proc_error r <> []) then proc_error r
  else lit "without errors".

(** ** The queues *)

(** [HandleNewMessage] of a request: to the cache workers, or to the execution
    queue, which has a capacity.  [None] is a request without a source, which
    the code takes for unreachable. *)
Definition HandleNewMessage (conf : Configuration) (conn : nat) (m : Remote)
    (cache_tasks tasks : Queue AbsorberTask)
    : option (option absorber_outcome * Queue AbsorberTask * Queue AbsorberTask) :=
  match Messages.source m with
  | None => None
  | Some _ =>
      let t := {| client := conn; request_ := m; local_hash := [] |} in
      if has_cache_conf conf then
        '(_, cache_tasks) ← Push t DEFAULT_SHARD cache_tasks; Some (None, cache_tasks, tasks)
      else
        '(pushed, tasks) ← Push t DEFAULT_SHARD tasks;
        Some (if (pushed : bool) then None
              else Some (Refused {| code := OVERLOAD; description := Some kOverloadedErrorText |}),
              cache_tasks, tasks)
  end.

(** A task the cache could not answer: pushed or refused. *)
Definition push_or_refuse (o : absorber_outcome) (tasks : Queue AbsorberTask)
    : option (option absorber_outcome * Queue AbsorberTask) :=
  match o with
  | To_execute t =>
      '(pushed, tasks) ← Push t DEFAULT_SHARD tasks;
      Some (if (pushed : bool) then None
            else Some (Refused {| code := OVERLOAD; description := Some kOverloadedErrorText |}), tasks)
  | o => Some (Some o, tasks)
  end.

(** ** The workers *)

Section Workers.
Context (print : Manifest -> list Z) (parse : list Z -> option Manifest).
Context (Compress Uncompress : list Z -> option (list Z)).

(** The body of [DoCheckCache] up to the push. *)
Definition check_request (w : world) (t : AbsorberTask) (d : Daemon) : option (absorber_outcome * Daemon) :=
  if closed w then Some (Gone, d)
  else
    let m := request_ t in
    let extra := GetExtraFiles m in
    let flags := AdjustFlags (remote_flags m) in
    let m := with_request_flags flags m in
    hash ← GenerateHash flags (of_String (str (Messages.source m))) extra;
    '(r, d) ← SearchSimpleCache parse Uncompress (calls w) hash blank d;
    let '(hit, entry) := r in
    if hit : bool then Some (Sent (result_reply m hash (object entry) (stderr entry) true), d)
    else Some (To_execute {| client := client t; request_ := m; local_hash := hash |}, d).

(** The body of [DoExecute]; [temp_dir] is the directory it makes. *)
Definition execute_request (w : world) (temp_dir : path) (t : AbsorberTask) (d : Daemon)
    : option (absorber_outcome * Daemon) :=
  if closed w then Some (Gone, d)
  else
    let m := request_ t in
    let source := str (Messages.source m) in
    let extra := GetExtraFiles m in
    let flags := AdjustFlags (remote_flags m) in
    hash ← (if decide (local_hash t = []) then GenerateHash flags (of_String source) extra
            else Some (local_hash t));
    let flags := preprocessed_language flags in
    let '(ok, flags, status) := SetupCompiler (conf d) flags status_ok in
    if negb ok then Some (Refused status, d)
    else
      match PrepareExtraFilesForCompiler w extra temp_dir flags d with
      | (inr status, d) => Some (Refused status, d)
      | (inl flags, d) =>
          let r := run w (CreateProcess flags SAME_UID []) source (files_of d) in
          let d := set_daemon_files (proc_files r) d in
          if negb (proc_ok r) then
            Some (Sent {| reply_status := Some {| code := EXECUTION; description := Some (remote_failure_text r) |};
                          reply_result := None |}, d)
          else
            let entry := {| object := proc_stdout r; deps := []; stderr := proc_stderr r |} in
            d ← UpdateSimpleCache print Compress (calls w) hash entry d;
            Some (Sent (result_reply m hash (proc_stdout r) (proc_stderr r) false), d)
      end.

End Workers.

(** ** Lemmas: hashes depend on contents *)

Lemma Hash_ext s1 s2 n :
  usable s1 -> usable s2 -> contents s1 = contents s2 -> ConstStringHash.Hash s1 n = ConstStringHash.Hash s2 n.
Proof.
  intros [W1 C1] [W2 C2] Heq.
  destruct (Hash_flat s1 n W1 C1) as (h1 & H1 & _ & ->), (Hash_flat s2 n W2 C2) as (h2 & H2 & _ & ->).
  rewrite Heq in *. congruence.
Qed.

(** Two lists of extra files with the same names and contents. *)
Definition same_files (x y : list (list Z * ConstString)) : Prop :=
  Forall2 (fun f g => f.1 = g.1 /\ usable f.2 /\ usable g.2 /\ contents f.2 = contents g.2) x y.

Lemma HashCombine_ext code x y : same_files x y -> HashCombine code x = HashCombine code y.
Proof.
  intros Hxy. unfold HashCombine. destruct (decide (x = [])) as [-> | Hx].
  - inversion Hxy. by rewrite decide_True.
  - rewrite decide_False by (intros ->; by inversion Hxy). destruct (ConstStringHash.Hash code 16); [| done].
    cbn [mbind option_bind].
    assert (mapM (fun f => a ← ConstStringHash.Hash (of_String f.1) 4;
                           b ← ConstStringHash.Hash f.2 16; Some [a; b]) x
            = mapM (fun f => a ← ConstStringHash.Hash (of_String f.1) 4;
                             b ← ConstStringHash.Hash f.2 16; Some [a; b]) y) as ->; [| done].
    clear Hx. induction Hxy as [|f g x y (H1 & H2 & H3 & H4) Hxy IH]; [done |].
    cbn [mapM]. by rewrite H1, (Hash_ext f.2 g.2 16 H2 H3 H4), IH.
Qed.

(** The key of a request does not depend on what the two daemons change in its
    flags. *)
Lemma GenerateHash_adjusted f code extra :
  GenerateHash (AdjustFlags (filter_flags f)) code extra = GenerateHash f code extra.
Proof. by destruct f. Qed.

Lemma AdjustFlags_idem f : AdjustFlags (AdjustFlags f) = AdjustFlags f.
Proof.
  destruct f as [[v p l] ? ? ? ? ? ? ? ? ? ? ? ?]. unfold AdjustFlags, set_compiler, set_plugins. simpl.
  by rewrite map_map.
Qed.

Lemma SetExtraFiles_blacklist s : SetExtraFiles [(SANITIZE_BLACKLIST, s)] = Some (contents s).
Proof. done. Qed.

(** What the absorber reads from the message is what the emitter has read from
    the disk. *)
Lemma GetExtraFiles_outgoing t fs :
  ReadExtraFiles (local_flags (message t)) (current_dir (message t)) fs = Some (task_extra t) ->
  same_files (task_extra t) (GetExtraFiles (outgoing t)).
Proof.
  unfold ReadExtraFiles, GetExtraFiles, outgoing. cbn [remote_blacklist].
  destruct (sanitize_blacklist _) as [b|].
  - intros (x & _ & [= <-])%bind_Some. rewrite SetExtraFiles_blacklist. constructor; [| constructor].
    assert (contents (of_buffer x (length x)) = x) as Hx by (unfold of_buffer; simpl; by rewrite firstn_all).
    cbn [fst snd]. split_and!; [done | by apply buffer_usable | apply literal_usable |].
    rewrite Hx. unfold of_String. simpl. by rewrite take_app_length.
  - intros [= <-]. constructor.
Qed.

Lemma GenerateHash_outgoing t fs :
  ReadExtraFiles (local_flags (message t)) (current_dir (message t)) fs = Some (task_extra t) ->
  GenerateHash (AdjustFlags (filter_flags (local_flags (message t)))) (of_String (EmitterTasks.source t))
    (GetExtraFiles (outgoing t))
  = GenerateHash (local_flags (message t)) (of_String (EmitterTasks.source t)) (task_extra t).
Proof.
  intros H. rewrite GenerateHash_adjusted. unfold GenerateHash, FileCache.Hash.
  by rewrite (HashCombine_ext _ _ _ (GetExtraFiles_outgoing t fs H)).
Qed.

Section Properties.
Context (print : Manifest -> list Z) (parse : list Z -> option Manifest).
Context (Compress Uncompress : list Z -> option (list Z)).

(** The hash a worker computes for a request, or finds in the task. *)
Definition request_hash (t : AbsorberTask) : option (list Z) :=
  if decide (local_hash t = [])
  then GenerateHash (AdjustFlags (remote_flags (request_ t))) (of_String (str (Messages.source (request_ t))))
         (GetExtraFiles (request_ t))
  else Some (local_hash t).

Lemma execute_result w temp_dir t hash d o d' :
  request_hash t = Some hash -> execute_request print Compress w temp_dir t d = Some (o, d') ->
  match o with
  | Sent reply => forall res, reply_result reply = Some res -> hash_match res = hash_match_of (request_ t) hash
  | To_execute _ => False
  | _ => True
  end.
Proof.
  unfold execute_request. intros Hh. destruct (closed w); [by intros [= <- _] |].
  fold (request_hash t). rewrite Hh. cbn [mbind option_bind].
  destruct (SetupCompiler _ _ _) as [[ok flags] status]. destruct ok; cbn [negb]; [| by intros [= <- _]].
  destruct (PrepareExtraFilesForCompiler _ _ _ _ _) as [[f | st] d1]; [| by intros [= <- _]].
  destruct (proc_ok _); cbn [negb]; [| by intros [= <- _] res [= ]].
  by intros (d2 & _ & [= <- _])%bind_Some res [= <-].
Qed.


(** ** Properties *)

(** C34: emitter and absorber agree on the name of a compilation.  For a task that an
    emitter sends with its extra files, the absorber computes the name that the
    emitter's own [GenerateHash] makes, the task that waits for execution carries
    it, and every result, from the absorber's cache or compiled, has [hash_match]
    set to true exactly when the hash sent with the task is that name; so when the
    task carries its own name they match.  (The comment on [hash_match] in
    remote.proto says that it is true when the hashes do not match.) *)
Theorem remote_hash_match (t : Task) (own : list Z) (fs : gmap path (list Z)) (w : world) (temp_dir : path) (conn : nat)
    (d d' : Daemon) (o : absorber_outcome) :
  ReadExtraFiles (local_flags (message t)) (current_dir (message t)) fs = Some (task_extra t) ->
  GenerateHash (local_flags (message t)) (of_String (EmitterTasks.source t)) (task_extra t) = Some own ->
  let received_task := {| client := conn; request_ := outgoing t; local_hash := [] |} in
  let matches := bool_decide (EmitterTasks.handled_hash t = own) in
  check_request parse Uncompress w received_task d = Some (o, d') \/
  execute_request print Compress w temp_dir received_task d = Some (o, d') ->
  match o with
  | Sent reply => forall res, reply_result reply = Some res -> hash_match res = Some matches
  | To_execute t' => local_hash t' = own /\
      forall w2 d2 d2' reply res, execute_request print Compress w2 temp_dir t' d2 = Some (Sent reply, d2') ->
        reply_result reply = Some res -> hash_match res = Some matches
  | _ => True
  end.
Proof.
  intros Hextra Hhash. cbv zeta.
  pose proof (GenerateHash_outgoing t fs Hextra) as Hgen. rewrite Hhash in Hgen.
  assert (hash_match_of (outgoing t) own = Some (bool_decide (EmitterTasks.handled_hash t = own))) as Hmatch by done.
  intros [H | H].
  2: { apply (execute_result _ _ _ own) in H; [| done].
       by destruct o. }
  revert H. unfold check_request. destruct (closed w); [by intros [= <- _] |]. simpl. rewrite Hgen.
  cbn [mbind option_bind]. intros ([[[|] entry] d1] & _ & [= <- <-])%bind_Some.
  - by intros res [= <-].
  - simpl. split; [done |]. intros w2 d2 d2' reply res He Hr.
    apply (execute_result _ _ _ own) in He; [by rewrite (He res Hr) |].
    unfold request_hash. simpl. rewrite AdjustFlags_idem. by destruct (decide (own = [])); [exact Hgen |].
Qed.


End Properties.

(** ** Concrete requests *)

Definition absorber_daemon : Daemon := {| conf := example_conf; cache_on := true; cache := toy_cache |}.

(** A process that succeeds and prints. *)
Definition working : world :=
  {| closed := false; calls := good_env;
     run := fun _ _ fs => {| proc_ok := true; proc_stdout := lit "ELF"; proc_stderr := lit "warning";
                             proc_error := []; proc_files := fs |};
     connected := true; sent := true; received := None; random := 0 |}.

Definition blacklist_files : gmap path (list Z) := {[ lit "/src/bl" := lit "fun:f" ]}.

Definition sent_task : Task :=
  let t := with_extra [(SANITIZE_BLACKLIST, of_buffer (lit "fun:f") 5)]
             (with_source (lit "int a;")
                (new_task 0 {| local_flags := set_sanitize_blacklist (Some (lit "bl")) (request [lit "p"]);
                               current_dir := lit "/src"; user_id := None |})) in
  with_hash (default [] (GenerateHash (local_flags (message t)) (of_String (EmitterTasks.source t)) (task_extra t))) t.

Definition outcome_of (x : option (absorber_outcome * Daemon)) : absorber_outcome * Daemon :=
  default (Gone, absorber_daemon) x.

Definition executed : absorber_outcome * Daemon :=
  outcome_of (execute_request toy_print toy_Compress working (lit "/tmp/x")
                {| client := 0; request_ := outgoing sent_task; local_hash := [] |} absorber_daemon).

Lemma outcome_of_Some x : has x = true -> x = Some (outcome_of x).
Proof. by destruct x. Qed.

Lemma executed_eq :
  execute_request toy_print toy_Compress working (lit "/tmp/x")
    {| client := 0; request_ := outgoing sent_task; local_hash := [] |} absorber_daemon
  = Some (executed.1, executed.2).
Proof. rewrite <-surjective_pairing. apply outcome_of_Some. vm_compute. reflexivity. Qed.

Definition executed_reply : Reply :=
  match executed.1 with Sent r => r | _ => {| reply_status := None; reply_result := None |} end.

Lemma executed_sent : executed.1 = Sent executed_reply.
Proof. vm_compute. reflexivity. Qed.

Lemma remote_hash_match_witness :
  exists res, reply_result executed_reply = Some res /\ hash_match res = Some true.
Proof.
  destruct (reply_result executed_reply) as [res|] eqn:E; [| exfalso; vm_compute in E; discriminate E].
  exists res. split; [done |].
  pose proof (remote_hash_match toy_print toy_parse toy_Compress toy_Uncompress sent_task
                (EmitterTasks.handled_hash sent_task) blacklist_files working (lit "/tmp/x") 0 absorber_daemon executed.2
                executed.1) as H.
  cbv zeta in H. rewrite executed_sent, bool_decide_true in H by done. apply H; [| | right | done].
  - vm_compute. reflexivity.
  - vm_compute. reflexivity.
  - rewrite <-executed_sent. exact executed_eq.
Defined.

