(* ===== verification/LockedList.v ===== *)
(** The list [base::LockedList] ([src/src/base/locked_list.h]), to which any number
    of threads append without a lock, and from which one thread pops.

    A node lives at an address of the heap; [head_] is the node at address 0.
    The steps of [step] are the atomic operations: reading [tail_hint_], one
    compare-and-exchange (which may fail spuriously), writing [tail_hint_].
    [Pop] is not safe for threads: it is a step that no append overlaps. *)

From S2P Require Import Prelude.

Section List_.
Context {T : Type}.

(** ** State *)

Record Node := { obj : T; next : option nat }.

(** An [Append] between its atomic operations: before the exchange on
    [tail->next], or before [tail_hint_ = new_node]. *)
Inductive append_pc := Looping (new_node tail : nat) | Linked (new_node : nat).

Record LockedList := {
  heap : gmap nat Node;
  tail_hint_ : nat;
  fresh : nat                 (* the address of the next node *)
}.

Definition head_ : nat := 0.

(** [head_{T(), nullptr}, tail_hint_{&head_}] *)
Definition new_list (default_ : T) : LockedList :=
  {| heap := {[ head_ := {| obj := default_; next := None |} ]}; tail_hint_ := head_; fresh := 1 |}.

(** ** Operations; [None] is an access to a node that does not exist *)

Definition set_next (a : nat) (n : option nat) (h : gmap nat Node) : option (gmap nat Node) :=
  nd ← h !! a; Some (<[a := {| obj := obj nd; next := n |}]> h).

(** [new Node(obj, nullptr)] and [tail = tail_hint_]. *)
Definition append_begin (x : T) (s : LockedList) : append_pc * LockedList :=
  (Looping (fresh s) (tail_hint_ s),
   {| heap := <[fresh s := {| obj := x; next := None |}]> (heap s); tail_hint_ := tail_hint_ s;
      fresh := S (fresh s) |}).

(** [compare_exchange_weak(expected, new_node)], where [expected] is null, and what
    the loop does with its result. *)
Definition append_cas (spurious : bool) (new_node tail : nat) (s : LockedList)
    : option (append_pc * LockedList) :=
  nd ← heap s !! tail;
  match next nd with
  | Some e => Some (Looping new_node e, s)
  | None =>
      if spurious then Some (Looping new_node tail, s)
      else
        h ← set_next tail (Some new_node) (heap s);
        Some (Linked new_node, {| heap := h; tail_hint_ := tail_hint_ s; fresh := fresh s |})
  end.

(** [tail_hint_ = new_node] *)
Definition append_end (new_node : nat) (s : LockedList) : LockedList :=
  {| heap := heap s; tail_hint_ := new_node; fresh := fresh s |}.

Definition Pop (s : LockedList) : option (option T * LockedList) :=
  hd ← heap s !! head_;
  match next hd with
  | None => Some (None, s)
  | Some a =>
      old_node ← heap s !! a;
      h ← set_next head_ (next old_node) (heap s);
      Some (Some (obj old_node),
            {| heap := delete a h;
               tail_hint_ := match next old_node with None => head_ | Some _ => tail_hint_ s end;
               fresh := fresh s |})
  end.

(** The loop of [Append] when no other thread comes in between and no exchange
    fails spuriously; [None] is also an exhausted bound. *)
Fixpoint append_loop (fuel : nat) (new_node tail : nat) (s : LockedList) : option LockedList :=
  match fuel with
  | O => None
  | S fuel =>
      '(pc, s) ← append_cas false new_node tail s;
      match pc with
      | Looping n t => append_loop fuel n t s
      | Linked n => Some (append_end n s)
      end
  end.

Definition Append (fuel : nat) (x : T) (s : LockedList) : option LockedList :=
  match append_begin x s with
  | (Looping n t, s) => append_loop fuel n t s
  | (Linked n, s) => Some (append_end n s)
  end.

(** The objects from address [a] on. *)
Fixpoint walk (fuel : nat) (h : gmap nat Node) (a : option nat) : list T :=
  match fuel, a with
  | S fuel, Some a => match h !! a with Some nd => obj nd :: walk fuel h (next nd) | None => [] end
  | _, _ => []
  end.

Definition contents (s : LockedList) : list T :=
  walk (fresh s) (heap s) (h ← heap s !! head_; next h).

(** ** Interleavings

    [linked] records the objects in the order of the successful exchanges,
    [popped] those that have been popped.  [draining] is set while objects are
    left behind a pop. *)
Record system := {
  list_ : LockedList;
  threads : list append_pc;
  linked : list T;
  popped : list T;
  draining : bool
}.

Definition init (default_ : T) : system :=
  {| list_ := new_list default_; threads := []; linked := []; popped := []; draining := false |}.

Definition is_linked (pc : append_pc) : bool := match pc with Linked _ => true | _ => false end.

(** With [strict] no append starts while a thread has popped some of the objects
    and not all of them. *)
Inductive step (strict : bool) : system -> system -> Prop :=
| step_begin s x pc l :
    (strict = true -> draining s = false) -> append_begin x (list_ s) = (pc, l) ->
    step strict s {| list_ := l; threads := pc :: threads s; linked := linked s; popped := popped s;
                     draining := draining s |}
| step_cas s w1 n t w2 spurious pc l :
    threads s = w1 ++ Looping n t :: w2 -> append_cas spurious n t (list_ s) = Some (pc, l) ->
    step strict s {| list_ := l; threads := w1 ++ pc :: w2;
                     linked := if is_linked pc then linked s ++ option_list (obj <$> heap (list_ s) !! n)
                               else linked s;
                     popped := popped s; draining := draining s |}
| step_end s w1 n w2 :
    threads s = w1 ++ Linked n :: w2 ->
    step strict s {| list_ := append_end n (list_ s); threads := w1 ++ w2; linked := linked s;
                     popped := popped s; draining := draining s |}
| step_pop s r l :
    threads s = [] -> Pop (list_ s) = Some (r, l) ->
    step strict s {| list_ := l; threads := []; linked := linked s; popped := popped s ++ option_list r;
                     draining := bool_decide (contents l <> []) |}.

Inductive reachable (strict : bool) (default_ : T) : system -> Prop :=
| reach_init : reachable strict default_ (init default_)
| reach_step s s' : reachable strict default_ s -> step strict s s' -> reachable strict default_ s'.

(** A thread is about to access a node that does not exist. *)
Definition undefined (s : system) : Prop :=
  exists n t spurious, Looping n t ∈ threads s /\ append_cas spurious n t (list_ s) = None.

(** ** Chains of nodes *)

Fixpoint chain (h : gmap nat Node) (a : option nat) (l : list nat) : Prop :=
  match l with
  | [] => a = None
  | x :: l => a = Some x /\ exists nd, h !! x = Some nd /\ chain h (next nd) l
  end.

Definition vals (h : gmap nat Node) (l : list nat) : list T := omap (fun a => obj <$> h !! a) l.

Lemma chain_ext h h' l : (forall a, a ∈ l -> h' !! a = h !! a) -> forall a, chain h a l -> chain h' a l.
Proof.
  induction l as [|x l IH]; intros Hh a; [done |]. intros (-> & nd & Hx & Hc). split; [done |].
  exists nd. split; [by rewrite Hh by left |]. apply IH; [| done]. intros b Hb. apply Hh. by right.
Qed.

Lemma vals_ext h h' l : (forall a, a ∈ l -> obj <$> h' !! a = obj <$> h !! a) -> vals h' l = vals h l.
Proof.
  intros Hh. unfold vals. induction l as [|x l IH]; [done |]. simpl. rewrite (Hh x) by left.
  assert (forall a, a ∈ l -> obj <$> h' !! a = obj <$> h !! a) as Hl by (intros a Ha; apply Hh; by right).
  destruct (obj <$> h !! x); [f_equal |]; by apply IH.
Qed.

Lemma chain_next_none h l x nd a :
  chain h a l -> x ∈ l -> h !! x = Some nd -> next nd = None -> exists l', l = l' ++ [x].
Proof.
  revert a. induction l as [|y l IH]; intros a Hc Hin Hx Hn; [by apply not_elem_of_nil in Hin |].
  destruct Hc as (-> & nd' & Hy & Hc). apply elem_of_cons in Hin as [-> | Hin].
  - assert (nd' = nd) as -> by congruence. rewrite Hn in Hc. destruct l; [by exists [] | by destruct Hc].
  - destruct (IH _ Hc Hin Hx Hn) as [l' ->]. by exists (y :: l').
Qed.

Lemma chain_next_some h l x nd e a :
  chain h a l -> x ∈ l -> h !! x = Some nd -> next nd = Some e -> exists l1 l2, l = l1 ++ x :: e :: l2.
Proof.
  revert a. induction l as [|y l IH]; intros a Hc Hin Hx Hn; [by apply not_elem_of_nil in Hin |].
  destruct Hc as (-> & nd' & Hy & Hc). apply elem_of_cons in Hin as [-> | Hin].
  - assert (nd' = nd) as -> by congruence. rewrite Hn in Hc. destruct l as [|z l]; [done |].
    destruct Hc as ([= ->] & _). by exists [], l.
  - destruct (IH _ Hc Hin Hx Hn) as (l1 & l2 & ->). by exists (y :: l1), l2.
Qed.

Lemma chain_defined h l a x : chain h a l -> x ∈ l -> is_Some (h !! x).
Proof.
  revert a. induction l as [|y l IH]; intros a Hc Hin; [by apply not_elem_of_nil in Hin |].
  destruct Hc as (-> & nd & Hy & Hc). apply elem_of_cons in Hin as [-> | Hin]; [by eexists | by eapply IH].
Qed.

(** Linking a new node behind the last one. *)
Lemma chain_link h l x n ndx v a :
  NoDup (l ++ [x]) -> n ∉ l ++ [x] -> h !! x = Some ndx -> h !! n = Some {| obj := v; next := None |} ->
  chain h a (l ++ [x]) ->
  chain (<[x := {| obj := obj ndx; next := Some n |}]> h) a ((l ++ [x]) ++ [n]).
Proof.
  revert a. induction l as [|y l IH]; intros a Hnd Hn Hx Hnn; simpl.
  - intros (-> & nd & _ & _). split; [done |]. eexists. rewrite lookup_insert_eq. split; [done |].
    split; [done |]. eexists. rewrite lookup_insert_ne; [split; [exact Hnn | done] |].
    intros ->. apply Hn. left.
  - apply NoDup_cons in Hnd as [Hy Hnd]. intros (-> & nd & Hyn & Hc). split; [done |]. exists nd. split.
    + rewrite lookup_insert_ne; [done |]. intros ->. apply Hy. rewrite elem_of_app. right. left.
    + apply IH; try done. intros Hin. apply Hn. by right.
Qed.

Lemma chain_walk h l a fuel : chain h a l -> (length l <= fuel)%nat -> walk fuel h a = vals h l.
Proof.
  revert a fuel. induction l as [|x l IH]; intros a fuel; simpl.
  - intros ->. by destruct fuel.
  - intros (-> & nd & Hx & Hc) Hf. destruct fuel as [|fuel]; [lia |]. simpl. rewrite Hx. simpl.
    f_equal. apply IH; [done | lia].
Qed.

(** ** The invariant *)

Definition thread_ok (s : LockedList) (l : list nat) (pc : append_pc) : Prop :=
  match pc with
  | Looping n t =>
      t ∈ head_ :: l /\ n ∉ head_ :: l /\ (n < fresh s)%nat /\
      exists v, heap s !! n = Some {| obj := v; next := None |}
  | Linked n => n ∈ l
  end.

Definition new_node_of (pc : append_pc) : option nat := match pc with Looping n _ => Some n | _ => None end.

(** [l]: the addresses of the list, in order. *)
Record list_ok (s : LockedList) (l : list nat) : Prop := {
  lo_chain : chain (heap s) (Some head_) (head_ :: l);
  lo_nodup : NoDup (head_ :: l);
  lo_fresh : Forall (fun a => a < fresh s)%nat (head_ :: l);
}.

Record inv (s : system) (l : list nat) : Prop := {
  iv_list : list_ok (list_ s) l;
  iv_threads : Forall (thread_ok (list_ s) l) (threads s);
  iv_private : NoDup (omap new_node_of (threads s));
  iv_hint : draining s = false -> tail_hint_ (list_ s) ∈ head_ :: l;
  iv_draining : draining s = true -> threads s = [] /\ l <> [];
  iv_vals : linked s = popped s ++ vals (heap (list_ s)) l
}.

Lemma nodup_below n (l : list nat) : NoDup l -> Forall (fun a => a < n)%nat l -> (length l <= n)%nat.
Proof.
  intros Hn Hl. rewrite <-(length_seq n 0%nat). apply submseteq_length, NoDup_submseteq; [done |].
  intros x Hx. apply elem_of_seq. pose proof (proj1 (Forall_forall _ _) Hl x Hx). simpl in *. lia.
Qed.

Lemma contents_vals s l : list_ok s l -> contents s = vals (heap s) l.
Proof.
  intros [(_ & nd & Hh & Hc) Hn Hf]. unfold contents. rewrite Hh. cbn [mbind option_bind].
  apply chain_walk; [done |]. pose proof (nodup_below _ _ Hn Hf). simpl in *. lia.
Qed.

Lemma list_ok_begin x s l :
  list_ok s l -> list_ok (append_begin x s).2 l /\ vals (heap (append_begin x s).2) l = vals (heap s) l.
Proof.
  intros [Hc Hn Hf].
  assert (forall a, a ∈ head_ :: l -> <[fresh s := {| obj := x; next := None |}]> (heap s) !! a = heap s !! a) as He.
  { intros a Ha. rewrite lookup_insert_ne; [done |].
    pose proof (proj1 (Forall_forall _ _) Hf a Ha). simpl in *. lia. }
  split.
  - constructor; [by apply (chain_ext (heap s)) | done |]. eapply Forall_impl; [exact Hf |]. simpl. intros. lia.
  - apply vals_ext. intros a Ha. simpl. rewrite He; [done | by right].
Qed.

(** One exchange on a list whose addresses are [l]. *)
Lemma cas_ok spurious s l n t v :
  list_ok s l -> t ∈ head_ :: l -> n ∉ head_ :: l -> (n < fresh s)%nat ->
  heap s !! n = Some {| obj := v; next := None |} ->
  (exists t' , append_cas spurious n t s = Some (Looping n t', s) /\ t' ∈ head_ :: l /\
     (spurious = false -> exists l1 l2, head_ :: l = l1 ++ t :: t' :: l2)) \/
  (exists s', append_cas spurious n t s = Some (Linked n, s') /\ list_ok s' (l ++ [n]) /\
     vals (heap s') (l ++ [n]) = vals (heap s) l ++ [v] /\ fresh s' = fresh s /\ tail_hint_ s' = tail_hint_ s /\
     (forall a, a ∉ head_ :: l -> heap s' !! a = heap s !! a)).
Proof.
  intros [Hc Hn Hf] Ht Hnl Hnf Hv. destruct (chain_defined _ _ _ _ Hc Ht) as [nd Hnd].
  unfold append_cas. rewrite Hnd. cbn [mbind option_bind]. destruct (next nd) as [e|] eqn:He.
  - left. exists e. split; [done |]. destruct (chain_next_some _ _ _ _ _ _ Hc Ht Hnd He) as (l1 & l2 & Heq).
    split; [rewrite Heq, elem_of_app; right; right; left | by intros _; exists l1, l2].
  - destruct spurious; [left; by exists t |]. right.
    unfold set_next. rewrite Hnd. cbn [mbind option_bind]. eexists. split; [done |]. simpl.
    destruct (chain_next_none _ _ _ _ _ Hc Ht Hnd He) as [l' Hl].
    assert (forall a, obj <$> <[t := {| obj := obj nd; next := Some n |}]> (heap s) !! a = obj <$> heap s !! a) as Ho.
    { intros a. destruct (decide (a = t)) as [-> |]; [by rewrite lookup_insert_eq, Hnd | by rewrite lookup_insert_ne]. }
    split_and!; [constructor | | done | done |].
    + change (head_ :: l ++ [n]) with ((head_ :: l) ++ [n]). rewrite Hl in *. by eapply chain_link.
    + change (head_ :: l ++ [n]) with ((head_ :: l) ++ [n]). apply NoDup_app. split_and!; [done | | by apply NoDup_singleton].
      intros a Ha ->%list_elem_of_singleton. done.
    + change (head_ :: l ++ [n]) with ((head_ :: l) ++ [n]). apply Forall_app. split; [done | by constructor].
    + rewrite (vals_ext (heap s)) by (intros; apply Ho). unfold vals. rewrite omap_app. simpl. by rewrite Hv.
    + intros a Ha. rewrite lookup_insert_ne; [done |]. by intros ->.
Qed.

Lemma pop_ok s l :
  list_ok s l ->
  match l with
  | [] => Pop s = Some (None, s)
  | a :: l => exists s' v, Pop s = Some (Some v, s') /\ list_ok s' l /\ vals (heap s) (a :: l) = v :: vals (heap s') l /\
      (l = [] -> tail_hint_ s' = head_) /\ (forall x, x <> a -> obj <$> heap s' !! x = obj <$> heap s !! x)
  end.
Proof.
  intros [(_ & hd & Hh & Hc) Hn Hf]. unfold Pop. rewrite Hh. cbn [mbind option_bind]. destruct l as [|a l].
  - simpl in Hc. by rewrite Hc.
  - destruct Hc as (-> & nd & Ha & Hc). rewrite Ha. cbn [mbind option_bind]. unfold set_next. rewrite Hh.
    cbn [mbind option_bind]. apply NoDup_cons in Hn as [Hn0 Hn]. apply NoDup_cons in Hn as [Hna Hn].
    rewrite not_elem_of_cons in Hn0. destruct Hn0 as [Hn0 Hn1].
    assert (forall b, b ∈ l -> delete a (<[head_ := {| obj := obj hd; next := next nd |}]> (heap s)) !! b = heap s !! b) as He.
    { intros b Hb. rewrite lookup_delete_ne by (intros ->; done). rewrite lookup_insert_ne; [done |]. by intros <-. }
    do 2 eexists. split; [done |]. split_and!.
    + constructor; simpl.
      * split; [done |]. eexists. rewrite lookup_delete_ne by (intros ->; done). rewrite lookup_insert_eq. split; [done |].
        simpl. by eapply chain_ext.
      * by constructor.
      * inversion Hf as [|? ? Hf0 Hf1]; subst. inversion Hf1; subst. by constructor.
    + simpl. rewrite Ha. simpl. f_equal. symmetry. apply vals_ext. intros b Hb. simpl. by rewrite He.
    + intros ->. simpl in Hc. simpl. by rewrite Hc.
    + intros x Hx. simpl. rewrite lookup_delete_ne by done.
      destruct (decide (x = head_)) as [-> |]; [by rewrite lookup_insert_eq, Hh | by rewrite lookup_insert_ne].
Qed.

(** ** Preservation *)

Lemma vals_length s l : list_ok s l -> length (vals (heap s) l) = length l.
Proof.
  intros [(_ & hd & _ & Hc) _ _]. revert Hc. generalize (next hd).
  induction l as [|x l IH]; intros a; [done |]. intros (-> & nd & Hx & Hc). unfold vals. simpl.
  rewrite Hx. simpl. f_equal. by apply (IH (next nd)).
Qed.

Lemma begin_inv s x l :
  inv s l -> draining s = false ->
  inv {| list_ := (append_begin x (list_ s)).2; threads := (append_begin x (list_ s)).1 :: threads s;
         linked := linked s; popped := popped s; draining := draining s |} l.
Proof.
  intros [Hl Ht Hp Hh Hd Hv] Hdr. destruct (list_ok_begin x _ _ Hl) as [Hl' Hv'].
  pose proof (lo_fresh _ _ Hl) as Hf.
  constructor; cbn [list_ threads linked popped draining]; [done | constructor | | done | congruence | by rewrite Hv'].
  - simpl. split_and!; [by apply Hh | | lia | rewrite lookup_insert_eq; by eexists].
    intros Hin. pose proof (proj1 (Forall_forall _ _) Hf _ Hin). simpl in *. lia.
  - eapply Forall_impl; [exact Ht |]. intros [m t | m]; simpl; [| done].
    intros (H1 & H2 & H3 & v & H4). split_and!; [done | done | lia |]. exists v. rewrite lookup_insert_ne; [done | lia].
  - simpl. constructor; [| done]. intros ([m t | m] & Hin & [= ->])%list_elem_of_omap.
    pose proof (proj1 (Forall_forall _ _) Ht _ Hin) as (_ & _ & H & _). simpl in H. lia.
Qed.

(** The other threads do not notice that [n] has been linked. *)
Lemma others_linked s s' l n w :
  (forall a, a ∉ head_ :: l -> heap s' !! a = heap s !! a) -> fresh s' = fresh s ->
  Forall (thread_ok s l) w -> n ∉ omap new_node_of w -> Forall (thread_ok s' (l ++ [n])) w.
Proof.
  intros He Hf Hwok Hnw. apply Forall_forall. intros pc Hin. pose proof (proj1 (Forall_forall _ _) Hwok _ Hin) as Hpc.
  destruct pc as [m t | m]; simpl in *; [| rewrite elem_of_app; by left].
  destruct Hpc as (P1 & P2 & P3 & v & P4).
  assert (m <> n) as Hmn by (intros ->; apply Hnw, list_elem_of_omap; by exists (Looping n t)).
  rewrite Hf, He by done. change (head_ :: l ++ [n]) with ((head_ :: l) ++ [n]).
  split_and!; [rewrite elem_of_app; by left | | done | by exists v].
  rewrite elem_of_app, list_elem_of_singleton. by intros [? | ?].
Qed.

Lemma cas_inv s l w1 n t w2 spurious pc q :
  inv s l -> threads s = w1 ++ Looping n t :: w2 -> append_cas spurious n t (list_ s) = Some (pc, q) ->
  exists l', inv {| list_ := q; threads := w1 ++ pc :: w2;
                    linked := if is_linked pc then linked s ++ option_list (obj <$> heap (list_ s) !! n) else linked s;
                    popped := popped s; draining := draining s |} l'.
Proof.
  intros [Hl Ht Hp Hh Hd Hv] Hw Hc. rewrite Hw in *.
  assert (draining s = true -> False) as Hdr by (intros Hdr; destruct (Hd Hdr) as [Hd1 _]; by destruct w1).
  apply Forall_app in Ht as [Ht1 [Htn Ht2]%Forall_cons]. destruct Htn as (H1 & H2 & H3 & v & H4).
  rewrite omap_app in Hp. simpl in Hp.
  destruct (cas_ok spurious _ _ n t v Hl H1 H2 H3 H4) as [(t' & Hc' & Ht' & _) | (q' & Hc' & Hl' & Hv' & Hf' & Hh' & He)];
    rewrite Hc' in Hc; injection Hc as <- <-.
  - exists l. constructor; simpl; [done | | by rewrite omap_app | done | by intros ? | done].
    apply Forall_app. split; [done |]. constructor; [| done]. split_and!; [done | done | done | by exists v].
  - exists (l ++ [n]). apply NoDup_app in Hp as (Hp1 & Hp12 & [Hp2 Hp3]%NoDup_cons).
    constructor; simpl; [done | | | | by intros ? |].
    + apply Forall_app. split; [| constructor; [simpl; rewrite elem_of_app; right; left |]];
        eapply others_linked; try done. intros Hin. apply (Hp12 _ Hin). left.
    + rewrite omap_app. simpl. apply NoDup_app. split_and!; [done | | done]. intros y Hy Hy2. apply (Hp12 _ Hy). by right.
    + intros Hf. rewrite Hh'. change (head_ :: l ++ [n]) with ((head_ :: l) ++ [n]). rewrite elem_of_app. left. by apply Hh.
    + rewrite H4. simpl. by rewrite Hv', Hv, app_assoc.
Qed.

Lemma end_inv s l w1 n w2 :
  inv s l -> threads s = w1 ++ Linked n :: w2 ->
  inv {| list_ := append_end n (list_ s); threads := w1 ++ w2; linked := linked s; popped := popped s;
         draining := draining s |} l.
Proof.
  intros [Hl Ht Hp Hh Hd Hv] Hw. rewrite Hw in *.
  apply Forall_app in Ht as [Ht1 [Htn Ht2]%Forall_cons]. simpl in Htn.
  constructor; simpl; [| by apply Forall_app | | | | done].
  - destruct Hl as [L1 L2 L3]. by constructor.
  - rewrite omap_app in *. simpl in Hp. done.
  - intros _. by right.
  - intros Hdr. destruct (Hd Hdr) as [Hd1 _]. by destruct w1.
Qed.

Lemma pop_inv s l r q :
  inv s l -> threads s = [] -> Pop (list_ s) = Some (r, q) ->
  exists l', inv {| list_ := q; threads := []; linked := linked s; popped := popped s ++ option_list r;
                    draining := bool_decide (contents q <> []) |} l'.
Proof.
  intros [Hl Ht Hp Hh Hd Hv] Hw Hpop. pose proof (pop_ok _ _ Hl) as Hok. destruct l as [|a l].
  - rewrite Hok in Hpop. injection Hpop as <- <-. exists [].
    rewrite (contents_vals _ _ Hl). change (vals _ []) with (@nil T).
    split; simpl; [done | by apply Forall_nil | apply NoDup_nil_2 | | done | by rewrite app_nil_r].
    intros _. destruct (draining s) eqn:Hdr; [| by apply Hh].
    destruct (Hd eq_refl) as [_ Hne]. by destruct Hne.
  - destruct Hok as (q' & v & Hok & Hl' & Hv' & Hhint & _). rewrite Hok in Hpop. injection Hpop as <- <-.
    exists l. rewrite (contents_vals _ _ Hl'). pose proof (vals_length _ _ Hl') as Hlen.
    split; simpl; [done | by apply Forall_nil | apply NoDup_nil_2 | | | by rewrite Hv, Hv', <-app_assoc].
    + intros Hdr%bool_decide_eq_false%dec_stable. destruct l; [| by rewrite Hdr in Hlen].
      rewrite Hhint by done. left.
    + intros Hdr%bool_decide_eq_true. split; [done |]. intros ->. by apply Hdr.
Qed.

Lemma step_inv s s' l : inv s l -> step true s s' -> exists l', inv s' l'.
Proof.
  intros Hs.
  destruct 1 as [s x pc q Hstrict Hb | s w1 n t w2 spurious pc q Hw Hc | s w1 n w2 Hw | s r q Hw Hpop].
  - exists l. pose proof (begin_inv s x l Hs (Hstrict eq_refl)) as H. by rewrite Hb in H.
  - by eapply cas_inv.
  - exists l. by apply end_inv.
  - by eapply pop_inv.
Qed.

Lemma init_inv d : inv (init d) [].
Proof.
  constructor; simpl; [constructor | by apply Forall_nil | apply NoDup_nil_2 | left | done | done].
  - split; [done |]. by eexists.
  - apply NoDup_singleton.
  - constructor; [unfold head_; simpl; lia | by apply Forall_nil].
Qed.

Lemma reachable_inv d s : reachable true d s -> exists l, inv s l.
Proof. induction 1 as [|s s' _ [l IH] Hs]; [exists []; apply init_inv | by eapply step_inv]. Qed.

(** An append that is alone reaches the end of the list. *)
Lemma append_loop_ok fuel l1 l2 n t v s l :
  list_ok s l -> head_ :: l = l1 ++ t :: l2 -> n ∉ head_ :: l -> (n < fresh s)%nat ->
  heap s !! n = Some {| obj := v; next := None |} -> (length l2 < fuel)%nat ->
  exists s', append_loop fuel n t s = Some s' /\ list_ok s' (l ++ [n]) /\
    vals (heap s') (l ++ [n]) = vals (heap s) l ++ [v].
Proof.
  intros Hl Heq Hn Hf Hv. revert l1 t l2 Heq. induction fuel as [|fuel IH]; intros l1 t l2 Heq Hfuel; [lia |].
  assert (t ∈ head_ :: l) as Ht by (rewrite Heq, elem_of_app; right; left). cbn [append_loop].
  destruct (cas_ok false _ _ n t v Hl Ht Hn Hf Hv) as [(t' & -> & Ht' & Hnext) | (s' & -> & Hl' & Hv' & _)];
    cbn [mbind option_bind].
  - destruct (Hnext eq_refl) as (k1 & k2 & Hk). pose proof (lo_nodup _ _ Hl) as Hnd.
    assert (l2 = t' :: k2) as ->.
    { clear -Heq Hk Hnd. rewrite Heq in Hk, Hnd. clear Heq. revert k1 Hk.
      induction l1 as [|y l1 IH]; intros [|z k1]; simpl; intros Hk.
      - by injection Hk.
      - injection Hk as -> Hk. simpl in Hnd. apply NoDup_cons in Hnd as [Hy _].
        destruct Hy. rewrite Hk, elem_of_app. right. left.
      - injection Hk as -> Hk. simpl in Hnd. apply NoDup_cons in Hnd as [Hy _].
        destruct Hy. rewrite elem_of_app. right. left.
      - injection Hk as -> Hk. simpl in Hnd. apply NoDup_cons in Hnd as [_ Hnd]. by apply (IH Hnd k1). }
    simpl in Hfuel. apply (IH (l1 ++ [t]) t' k2); [by rewrite <-app_assoc | lia].
  - exists (append_end n s'). split; [done |]. destruct Hl' as [L1 L2 L3]. split; [by constructor | done].
Qed.

Lemma Append_ok fuel x s l :
  list_ok s l -> tail_hint_ s ∈ head_ :: l -> (length l < fuel)%nat ->
  exists s', Append fuel x s = Some s' /\ list_ok s' (l ++ [fresh s]) /\
    vals (heap s') (l ++ [fresh s]) = vals (heap s) l ++ [x].
Proof.
  intros Hl Ht Hfuel. destruct (list_ok_begin x _ _ Hl) as [Hl' Hv']. unfold Append. simpl in *.
  pose proof (lo_fresh _ _ Hl) as Hf. apply list_elem_of_split in Ht as (l1 & l2 & Heq).
  rewrite <-Hv'. eapply append_loop_ok; [exact Hl' | exact Heq | | simpl; lia | simpl; by rewrite lookup_insert_eq |].
  - intros Hin. pose proof (proj1 (Forall_forall _ _) Hf _ Hin). simpl in *. lia.
  - assert (length (head_ :: l) = length (l1 ++ tail_hint_ s :: l2)) as Hlen by (by rewrite Heq).
    rewrite length_app in Hlen. simpl in Hlen. lia.
Qed.

(** ** Properties *)

(** C23: the list is a queue.  In every interleaving of any number of appends,
    with spurious failures of their exchanges, and of pops that no append
    overlaps, where after a pop the list is emptied before anything is appended
    again (which is how the cache uses it): the objects linked so far are those
    popped, in that order, followed by the contents; no thread accesses a node
    that does not exist; a pop takes the oldest object; an append that runs
    alone ends within one exchange per node and puts its object last. *)
Theorem append_pop (d : T) (s : system) :
  reachable true d s ->
  linked s = popped s ++ contents (list_ s) /\ ~ undefined s /\
  (threads s = [] -> exists l', Pop (list_ s) = Some (head (contents (list_ s)), l') /\
     contents l' = tail (contents (list_ s))) /\
  (draining s = false -> forall x fuel, (length (contents (list_ s)) < fuel)%nat ->
     exists l', Append fuel x (list_ s) = Some l' /\ contents l' = contents (list_ s) ++ [x]).
Proof.
  intros [l [Hl Ht Hp Hh Hd Hv]]%reachable_inv. rewrite (contents_vals _ _ Hl). split_and!.
  - done.
  - intros (n & t & spurious & Hin & Hu). pose proof (proj1 (Forall_forall _ _) Ht _ Hin) as (H1 & H2 & H3 & v & H4).
    destruct (cas_ok spurious _ _ n t v Hl H1 H2 H3 H4) as [(t' & Hc & _) | (s' & Hc & _)]; congruence.
  - intros _. pose proof (pop_ok _ _ Hl) as Hpop. destruct l as [|a l].
    + rewrite Hpop. exists (list_ s). split; [done |]. by rewrite (contents_vals _ _ Hl).
    + destruct Hpop as (s' & v & -> & Hl' & -> & _). exists s'. split; [done |]. by rewrite (contents_vals _ _ Hl').
  - intros Hdr x fuel. rewrite (vals_length _ _ Hl). intros Hfuel.
    destruct (Append_ok fuel x _ _ Hl (Hh Hdr) Hfuel) as (s' & -> & Hl' & Hv'). exists s'. split; [done |].
    by rewrite (contents_vals _ _ Hl').
Qed.

End List_.

(** ** Concrete runs *)

(** Two appends that race for the last node: the first one to link its node is the
    last one to write the hint. *)
Definition race0 : system := init 0%Z.
Definition race1 : system :=
  {| list_ := (append_begin 1%Z (list_ race0)).2; threads := [Looping 1 0]; linked := []; popped := []; draining := false |}.
Definition race2 : system :=
  {| list_ := (append_begin 2%Z (list_ race1)).2; threads := [Looping 2 0; Looping 1 0]; linked := []; popped := [];
     draining := false |}.
Definition after_cas (n t : nat) (l : LockedList (T := Z)) : LockedList :=
  match append_cas false n t l with Some (_, l) => l | None => l end.
Definition race3 : system :=
  {| list_ := after_cas 1 0 (list_ race2); threads := [Looping 2 0; Linked 1]; linked := [1%Z]; popped := [];
     draining := false |}.
Definition race4 : system :=
  {| list_ := list_ race3; threads := [Looping 2 1; Linked 1]; linked := [1%Z]; popped := []; draining := false |}.
Definition race5 : system :=
  {| list_ := after_cas 2 1 (list_ race4); threads := [Linked 2; Linked 1]; linked := [1%Z; 2%Z]; popped := [];
     draining := false |}.
Definition race6 : system :=
  {| list_ := append_end 2 (list_ race5); threads := [Linked 1]; linked := [1%Z; 2%Z]; popped := []; draining := false |}.
Definition race7 : system :=
  {| list_ := append_end 1 (list_ race6); threads := []; linked := [1%Z; 2%Z]; popped := []; draining := false |}.
Definition race8 : system :=
  {| list_ := match Pop (list_ race7) with Some (_, l) => l | None => list_ race7 end; threads := [];
     linked := [1%Z; 2%Z]; popped := [1%Z]; draining := true |}.
Definition race9 : system :=
  {| list_ := (append_begin 3%Z (list_ race8)).2; threads := [Looping 3 1]; linked := [1%Z; 2%Z]; popped := [1%Z];
     draining := true |}.

Lemma race_reachable strict : reachable strict 0%Z race7.
Proof.
  assert (reachable strict 0%Z race0) as R by constructor.
  assert (step strict race0 race1) as S1 by (by apply (step_begin strict race0 1%Z)).
  assert (step strict race1 race2) as S2 by (by apply (step_begin strict race1 2%Z)).
  assert (step strict race2 race3) as S3 by (by apply (step_cas strict race2 [Looping 2 0] 1 0 [] false (Linked 1))).
  assert (step strict race3 race4) as S4 by (by apply (step_cas strict race3 [] 2 0 [Linked 1] false (Looping 2 1))).
  assert (step strict race4 race5) as S5 by (by apply (step_cas strict race4 [] 2 1 [Linked 1] false (Linked 2))).
  assert (step strict race5 race6) as S6 by (by apply (step_end strict race5 [] 2 [Linked 1])).
  assert (step strict race6 race7) as S7 by (by apply (step_end strict race6 [] 1 [])).
  eauto 10 using reach_step.
Qed.

Lemma append_pop_witness :
  linked race7 = [1%Z; 2%Z] /\ contents (list_ race7) = [1%Z; 2%Z] /\ tail_hint_ (list_ race7) = 1%nat /\
  exists l', Append 3 3%Z (list_ race7) = Some l' /\ contents l' = [1%Z; 2%Z; 3%Z].
Proof.
  split; [reflexivity | split; [vm_compute; reflexivity | split; [vm_compute; reflexivity |]]].
  destruct (append_pop 0%Z race7 (race_reachable true)) as (_ & _ & _ & H).
  exact (H eq_refl 3%Z 3%nat (le_n 3)).
Defined.

(** Without that discipline the hint can outlive its node.  After two appends
    that race, and one pop, [tail_hint_] is the node that the pop has freed: the
    next append reads it.  No pop overlaps an append in this run. *)
Theorem stale_tail_hint :
  exists s : system, reachable false 0%Z s /\ undefined s.
Proof.
  exists race9. split.
  - assert (step false race7 race8) as S8 by (by apply (step_pop false race7 (Some 1%Z))).
    assert (step false race8 race9) as S9 by (by apply (step_begin false race8 3%Z)).
    eauto using reach_step, race_reachable.
  - exists 3%nat, 1%nat, false. split; [left | vm_compute; reflexivity].
Qed.
