(* ===== verification/QueueAggregator.v ===== *)
(** [base::QueueAggregator] ([src/src/base/queue_aggregator.h]): one thread per
    queue moves tasks to a list of orders, but only when somebody waits for one.

    The steps are the critical sections of the aggregator's mutex and of the
    queues' mutexes, and the tests of [closed_] outside them; the other users of
    the queues push, pop and close at any time.  A wait on a condition is a step
    that is enabled when its condition holds. *)

From S2P Require Import Prelude LockedQueue.

#[local] Open Scope Z_scope.

Section Aggregator.
Context {T : Type}.
Abbreviation Queue := (LockedQueue.Queue T).

(** ** State *)

Record Aggregator := { closed_ : bool; order_count_ : Z; orders_ : list T }.

Definition new_aggregator : Aggregator := {| closed_ := false; order_count_ := 0; orders_ := [] |}.

(** A thread of [DoPop]: before the test of [closed_], before the wait for an
    order, before the critical section on its queue, and ended. *)
Inductive thread_pc := Testing | Ordering | Fetching | Stopped.

(** ** Operations *)

(** The critical section of [Close]. *)
Definition Close (a : Aggregator) : Aggregator :=
  {| closed_ := true; order_count_ := 0; orders_ := orders_ a |}.

(** [Pop] up to the wait. *)
Definition Pop_enter (a : Aggregator) : Aggregator :=
  if closed_ a then a
  else {| closed_ := false; order_count_ := u64 (order_count_ a + 1); orders_ := orders_ a |}.

(** The wait of [Pop] and what follows it: [None] is to wait on; an inner [None]
    is to go on with the closed queues. *)
Definition Pop_wake (a : Aggregator) : option (option T * Aggregator) :=
  match orders_ a with
  | t :: orders =>
      Some (Some t, {| closed_ := closed_ a; order_count_ := order_count_ a; orders_ := orders |})
  | [] => if closed_ a then Some (None, a) else None
  end.

(** The end of [Pop] after closing, when no other thread comes in between: the
    first task of the queues; [None] is undefined or a queue that is not closed. *)
Fixpoint Pop_closed (queues : list Queue) : option (option T * list Queue) :=
  match queues with
  | [] => Some (None, [])
  | q :: queues =>
      '(r, q) ← LockedQueue.Pop q;
      match r with
      | Popped _ t => Some (Some t, q :: queues)
      | Disengaged => '(r, queues) ← Pop_closed queues; Some (r, q :: queues)
      | Wait => None
      end
  end.

(** The condition [order_count_ || closed_]. *)
Definition ordered (a : Aggregator) : bool := negb (order_count_ a =? 0) || closed_ a.

(** The condition on [aggregator_condition_]. *)
Definition ready (q : Queue) : bool := LockedQueue.closed_ q || negb (is_empty q).

(** The critical section of [DoPop] on its queue. *)
Definition DoPop_fetch (a : Aggregator) (q : Queue) : option (thread_pc * Aggregator * Queue) :=
  if LockedQueue.closed_ q && is_empty q then Some (Stopped, a, q)
  else if order_count_ a =? 0 then Some (Testing, a, q)
  else
    match RemoveTaskFromQueue (GetWithHint DEFAULT_SHARD (begin q) (index q)) q with
    | Some (Popped _ t, q) =>
        Some (Testing, {| closed_ := closed_ a; order_count_ := order_count_ a - 1;
                          orders_ := orders_ a ++ [t] |}, q)
    | _ => None
    end.

(** ** Interleavings

    [waiting] is the number of pops that wait, [visiting] holds, for each pop
    that goes through the closed queues, the number of its next queue.
    [accepted], [delivered] and [taken] record the tasks that entered the
    queues, that pops of the aggregator returned, and that others took. *)
Record system := {
  aggregator : Aggregator;
  queues : list Queue;
  threads : list thread_pc;
  waiting : nat;
  visiting : list nat;
  accepted : list T;
  delivered : list T;
  taken : list T;
  empty_handed : nat
}.

Definition init (queues : list Queue) : system :=
  {| aggregator := new_aggregator; queues := queues; threads := map (fun _ => Testing) queues;
     waiting := 0; visiting := []; accepted := mjoin (map (fun q => (queue_ q).*2) queues);
     delivered := []; taken := []; empty_handed := 0 |}.

Definition with_queue (i : nat) (q : Queue) (s : system) : system :=
  {| aggregator := aggregator s; queues := <[i := q]> (queues s); threads := threads s; waiting := waiting s;
     visiting := visiting s; accepted := accepted s; delivered := delivered s; taken := taken s;
     empty_handed := empty_handed s |}.

Definition with_thread (i : nat) (pc : thread_pc) (a : Aggregator) (s : system) : system :=
  {| aggregator := a; queues := queues s; threads := <[i := pc]> (threads s); waiting := waiting s;
     visiting := visiting s; accepted := accepted s; delivered := delivered s; taken := taken s;
     empty_handed := empty_handed s |}.

Definition with_pops (a : Aggregator) (n : nat) (v : list nat) (d : list T) (e : nat) (s : system) : system :=
  {| aggregator := a; queues := queues s; threads := threads s; waiting := n; visiting := v;
     accepted := accepted s; delivered := d; taken := taken s; empty_handed := e |}.

Definition with_record (acc tk : list T) (s : system) : system :=
  {| aggregator := aggregator s; queues := queues s; threads := threads s; waiting := waiting s;
     visiting := visiting s; accepted := acc; delivered := delivered s; taken := tk;
     empty_handed := empty_handed s |}.

Definition task_of (r : pop_result T) : list T := match r with Popped _ t => [t] | _ => [] end.

Inductive step : system -> system -> Prop :=
| step_push s i q obj shard b q' :
    queues s !! i = Some q -> Z.of_nat shard < 2 ^ 32 - 1 -> push_locked obj shard q = Some (b, q') ->
    step s (with_record (if b then obj :: accepted s else accepted s) (taken s) (with_queue i q' s))
| step_count s i q :
    queues s !! i = Some q -> step s (with_queue i (push_count q) s)
| step_take s i q down limit shard no_wait r q' :
    queues s !! i = Some q -> Z.of_nat shard < 2 ^ 32 - 1 -> 0 <= limit ->
    Pop_pool down limit shard no_wait q = Some (r, q') ->
    step s (with_record (accepted s) (task_of r ++ taken s) (with_queue i q' s))
| step_close_queue s i q :
    queues s !! i = Some q -> step s (with_queue i (LockedQueue.Close q) s)
| step_close s :
    Forall (fun q => LockedQueue.closed_ q = true) (queues s) ->
    step s (with_pops (Close (aggregator s)) (waiting s) (visiting s) (delivered s) (empty_handed s) s)
| step_test s i :
    threads s !! i = Some Testing ->
    step s (with_thread i (if closed_ (aggregator s) then Stopped else Ordering) (aggregator s) s)
| step_order s i :
    threads s !! i = Some Ordering -> ordered (aggregator s) = true ->
    step s (with_thread i Fetching (aggregator s) s)
| step_fetch s i q pc a q' :
    threads s !! i = Some Fetching -> queues s !! i = Some q -> ready q = true ->
    DoPop_fetch (aggregator s) q = Some (pc, a, q') ->
    step s (with_thread i pc a (with_queue i q' s))
| step_pop s :
    Z.of_nat (waiting s) + 1 < 2 ^ 64 ->
    step s (with_pops (Pop_enter (aggregator s)) (S (waiting s)) (visiting s) (delivered s) (empty_handed s) s)
| step_wake s n r a :
    waiting s = S n -> Pop_wake (aggregator s) = Some (r, a) ->
    step s (match r with
            | Some t => with_pops a n (visiting s) (t :: delivered s) (empty_handed s) s
            | None => with_pops a n (0%nat :: visiting s) (delivered s) (empty_handed s) s
            end)
| step_visit s v1 k v2 q r q' :
    visiting s = v1 ++ k :: v2 -> queues s !! k = Some q -> LockedQueue.Pop q = Some (r, q') ->
    step s (with_queue k q'
              (with_pops (aggregator s) (waiting s)
                 match r with Wait => visiting s | Disengaged => v1 ++ S k :: v2 | Popped _ _ => v1 ++ v2 end
                 (task_of r ++ delivered s) (empty_handed s) s))
| step_leave s v1 k v2 :
    visiting s = v1 ++ k :: v2 -> queues s !! k = None ->
    step s (with_pops (aggregator s) (waiting s) (v1 ++ v2) (delivered s) (S (empty_handed s)) s).

Inductive reachable (s0 : list Queue) : system -> Prop :=
| reach_init : reachable s0 (init s0)
| reach_step s s' : reachable s0 s -> step s s' -> reachable s0 s'.

(** ** The invariant *)

Definition all_tasks (queues : list Queue) : list T := mjoin (map (fun q => (queue_ q).*2) queues).

Record counts_ok (a : Aggregator) (queues : list Queue) (waiting : nat) (visiting : list nat) : Prop := {
  co_open : closed_ a = false ->
    order_count_ a + Zlen (orders_ a) = Z.of_nat waiting /\ 0 <= order_count_ a /\ visiting = [];
  co_closed : closed_ a = true ->
    order_count_ a = 0 /\ Forall (fun q => LockedQueue.closed_ q = true) queues
}.

Record inv (s : system) : Prop := {
  iv_queues : Forall queue_ok (queues s);
  iv_threads : length (threads s) = length (queues s);
  iv_tasks : accepted s ≡ₚ all_tasks (queues s) ++ orders_ (aggregator s) ++ delivered s ++ taken s;
  iv_counts : counts_ok (aggregator s) (queues s) (waiting s) (visiting s);
  iv_waiting : Z.of_nat (waiting s) < 2 ^ 64;
  iv_stopped : forall i q, threads s !! i = Some Stopped -> queues s !! i = Some q ->
    closed_ (aggregator s) = true \/ LockedQueue.closed_ q = true
}.

Lemma all_tasks_insert qs i q q' :
  qs !! i = Some q -> exists rest, all_tasks qs ≡ₚ (queue_ q).*2 ++ rest /\ all_tasks (<[i := q']> qs) ≡ₚ (queue_ q').*2 ++ rest.
Proof.
  intros Hi. pose proof (lookup_lt_Some _ _ _ Hi) as Hlt.
  exists (all_tasks (take i qs) ++ all_tasks (drop (S i) qs)). unfold all_tasks. split.
  - rewrite <-(take_drop_middle qs i q Hi) at 1. rewrite map_app, join_app. simpl.
    rewrite !app_assoc. by rewrite (Permutation_app_comm (mjoin _)).
  - rewrite insert_take_drop by done. rewrite map_app, join_app. simpl.
    rewrite !app_assoc. by rewrite (Permutation_app_comm (mjoin _)).
Qed.

(** Moves [x], the head of the left side, to its place on the right side. *)
Ltac sink x :=
  rewrite <-?app_assoc;
  repeat first [ reflexivity | rewrite (Permutation_app_swap_app x); apply Permutation_app_head ].

(** A step on one queue that keeps it consistent and does not open it. *)
Lemma queue_step s i q q' :
  inv s -> queues s !! i = Some q -> queue_ok q' -> (LockedQueue.closed_ q = true -> LockedQueue.closed_ q' = true) ->
  Forall queue_ok (<[i := q']> (queues s)) /\ length (threads s) = length (<[i := q']> (queues s)) /\
  counts_ok (aggregator s) (<[i := q']> (queues s)) (waiting s) (visiting s) /\
  (forall j q2, threads s !! j = Some Stopped -> <[i := q']> (queues s) !! j = Some q2 ->
     closed_ (aggregator s) = true \/ LockedQueue.closed_ q2 = true).
Proof.
  intros [H1 H2 _ [H4 H5] _ H6] Hi Hq' Hc. split_and!.
  - by apply Forall_insert.
  - by rewrite length_insert.
  - constructor; [done |]. intros Ha. destruct (H5 Ha) as [Ho Hcl]. split; [done |].
    apply Forall_insert; [done |]. apply Hc. by eapply (proj1 (Forall_lookup _ _) Hcl).
  - intros j q2 Hj Hl. apply list_lookup_insert_Some in Hl as [(-> & -> & _) | [_ Hl]]; [| by eapply H6].
    destruct (H6 _ _ Hj Hi) as [? | ?]; [by left | right; by apply Hc].
Qed.

Lemma pop_tasks q r q' :
  queue_ok q -> pop_outcome q r q' -> (queue_ q).*2 ≡ₚ task_of r ++ (queue_ q').*2.
Proof.
  intros Hq Ho. destruct r as [| | item t]; simpl.
  - destruct Ho as (_ & _ & _ & _ & _ & -> & _). done.
  - destruct Ho as (_ & _ & _ & _ & _ & -> & _). done.
  - by rewrite <-(popped_perm _ _ _ _ Hq Ho).
Qed.

(** What a fetch by an aggregating thread does. *)
Lemma DoPop_fetch_ok a q :
  queue_ok q -> ready q = true -> (order_count_ a <> 0 -> 0 < order_count_ a) ->
  exists pc a' q', DoPop_fetch a q = Some (pc, a', q') /\ queue_ok q' /\
    LockedQueue.closed_ q' = LockedQueue.closed_ q /\ closed_ a' = closed_ a /\
    ((pc = Stopped /\ LockedQueue.closed_ q = true /\ queue_ q = [] /\ a' = a /\ q' = q) \/
     (pc = Testing /\ order_count_ a = 0 /\ a' = a /\ q' = q) \/
     (pc = Testing /\ 0 < order_count_ a /\ exists item t, order_count_ a' = order_count_ a - 1 /\ orders_ a' = orders_ a ++ [t] /\
        pop_outcome q (Popped item t) q' /\
        match head (tasks_of q DEFAULT_SHARD) with Some b => item = b | None => Some item = begin q end)).
Proof.
  intros Hq Hr Hpos. unfold DoPop_fetch. destruct (LockedQueue.closed_ q && is_empty q) eqn:Hb.
  - apply andb_true_iff in Hb as [Hc He%is_empty_spec]. exists Stopped, a, q. split_and!; try done. by left.
  - destruct (Z.eqb_spec (order_count_ a) 0) as [H0 | H0].
    + exists Testing, a, q. split_and!; try done. right. by left.
    + assert (queue_ q <> []) as Hne.
      { intros He%is_empty_spec. unfold ready in Hr. rewrite He in Hb, Hr. simpl in Hr.
        rewrite orb_false_r in Hr. by rewrite Hr in Hb. }
      destruct (take_hint_ok q DEFAULT_SHARD Hq Hne) as (item & t & q' & -> & Ho & Hitem).
      do 3 eexists. split; [done |]. pose proof Ho as (Hq' & Hc' & _). split_and!; [done | done | done |].
      right. right. split; [done |]. split; [by apply Hpos |]. by exists item, t.
Qed.

Lemma aggregator_wake s n r a :
  inv s -> waiting s = S n -> Pop_wake (aggregator s) = Some (r, a) ->
  inv (match r with
       | Some t => with_pops a n (visiting s) (t :: delivered s) (empty_handed s) s
       | None => with_pops a n (0%nat :: visiting s) (delivered s) (empty_handed s) s
       end).
Proof.
  intros [H1 H2 H3 [H4 H5] H6 H7] Hw. unfold Pop_wake. destruct (orders_ (aggregator s)) as [|t orders] eqn:Ho.
  - destruct (closed_ (aggregator s)) eqn:Hc; [| done]. intros [= <- <-]. constructor; simpl; try done.
    + by rewrite Ho.
    + by constructor; rewrite Hc.
    + lia.
    + by rewrite Hc.
  - intros [= <- <-]. constructor; simpl; try done.
    + rewrite H3. apply Permutation_app_head. simpl. apply Permutation_middle.
    + constructor; simpl; [| done]. intros Hc. destruct (H4 Hc) as (E1 & E2 & E3). rewrite Zlen_cons in E1.
      split_and!; [lia | done | done].
    + lia.
Qed.

(** A critical section of one queue, with what it adds to the accepted and the taken tasks. *)
Lemma inv_queue s i q q' acc tk :
  inv s -> queues s !! i = Some q -> queue_ok q' -> (LockedQueue.closed_ q = true -> LockedQueue.closed_ q' = true) ->
  (forall l, accepted s ≡ₚ (queue_ q).*2 ++ l ++ taken s -> acc ≡ₚ (queue_ q').*2 ++ l ++ tk) ->
  inv (with_record acc tk (with_queue i q' s)).
Proof.
  intros Hs Hi Hq' Hc Hacc. destruct (queue_step s i q q' Hs Hi Hq' Hc) as (K1 & K2 & K3 & K4).
  destruct Hs as [_ _ H3 _ H6 _]. destruct (all_tasks_insert _ _ _ q' Hi) as (rest & E1 & E2).
  constructor; simpl; try done. rewrite E2, <-app_assoc, !(app_assoc rest), (app_assoc _ _ tk).
  apply Hacc. by rewrite H3, E1, <-!app_assoc.
Qed.

Lemma aggregator_push s i q obj shard b q' :
  inv s -> queues s !! i = Some q -> Z.of_nat shard < 2 ^ 32 - 1 -> push_locked obj shard q = Some (b, q') ->
  inv (with_record (if b then obj :: accepted s else accepted s) (taken s) (with_queue i q' s)).
Proof.
  intros Hs Hi Hsh Hp. pose proof (proj1 (Forall_lookup _ _) (iv_queues _ Hs) _ _ Hi) as Hq.
  destruct (push_locked_ok q obj shard Hq Hsh) as (b' & q2 & Hp' & Hq2 & _ & Hc2 & _ & _ & _ & Hres).
  rewrite Hp in Hp'. injection Hp' as <- <-. apply (inv_queue s i q); [done | done | done | congruence |].
  intros l Hacc. destruct b; [destruct Hres as (-> & _) | by subst q'].
  rewrite Hacc, fmap_app, <-app_assoc. simpl. apply Permutation_middle.
Qed.

Lemma aggregator_take s i q down limit shard no_wait r q' :
  inv s -> queues s !! i = Some q -> Z.of_nat shard < 2 ^ 32 - 1 -> 0 <= limit ->
  Pop_pool down limit shard no_wait q = Some (r, q') ->
  inv (with_record (accepted s) (task_of r ++ taken s) (with_queue i q' s)).
Proof.
  intros Hs Hi Hsh Hl Hp. pose proof (proj1 (Forall_lookup _ _) (iv_queues _ Hs) _ _ Hi) as Hq.
  destruct (Pop_pool_ok q down limit shard no_wait Hq Hsh Hl) as (r' & q2 & Hp' & Ho & _).
  rewrite Hp in Hp'. injection Hp' as <- <-. pose proof Ho as (Hq2 & Hc2 & _).
  apply (inv_queue s i q); [done | done | done | congruence |].
  intros l ->. rewrite (pop_tasks _ _ _ Hq Ho). sink (task_of r).
Qed.

Lemma aggregator_fetch s i q pc a q' :
  inv s -> queues s !! i = Some q -> ready q = true -> DoPop_fetch (aggregator s) q = Some (pc, a, q') ->
  inv (with_thread i pc a (with_queue i q' s)).
Proof.
  intros Hs Hi Hr Hf. pose proof Hs as [H1 H2 H3 [H4 H5] H6 H7]. pose proof (proj1 (Forall_lookup _ _) H1 _ _ Hi) as Hq.
  assert (order_count_ (aggregator s) <> 0 -> 0 < order_count_ (aggregator s)) as Hpos.
  { destruct (closed_ (aggregator s)) eqn:Hc; [destruct (H5 eq_refl); lia | destruct (H4 eq_refl); lia]. }
  destruct (DoPop_fetch_ok _ _ Hq Hr Hpos) as (pc' & a' & q2 & Hf' & Hq2 & Hc2 & Ha2 & Hres).
  rewrite Hf in Hf'. injection Hf' as <- <- <-.
  destruct (queue_step s i q q' Hs Hi Hq2 ltac:(congruence)) as (K1 & K2 & [K3 K3'] & K4).
  destruct (all_tasks_insert _ _ _ q' Hi) as (rest & E1 & E2). constructor; simpl; try done.
  - by rewrite length_insert.
  - rewrite E2, H3, E1. destruct Hres as [(_ & _ & _ & -> & ->) | [(_ & _ & -> & ->) | (_ & _ & item & t & _ & -> & Ho & _)]];
      [done | done |].
    rewrite (pop_tasks _ _ _ Hq Ho). cbn [task_of]. sink [t].
  - constructor; rewrite Ha2; [intros Hc; destruct (K3 Hc) as (F1 & F2 & F3) | intros Hc; destruct (K3' Hc) as [F1 F2]];
      destruct Hres as [(_ & _ & _ & -> & _) | [(_ & _ & -> & _) | (_ & Hlt & item & t & Hn & Ho & _)]]; try done.
    + rewrite Ho, Hn, Zlen_app. change (Zlen [t]) with 1. split_and!; [lia | lia | done].
    + lia.
  - intros j q3 Hj Hl. rewrite Ha2. apply list_lookup_insert_Some in Hj as [(-> & Hpc & _) | [_ Hj]]; [| by eapply K4].
    destruct Hres as [(_ & Hcl & _ & _ & ->) | [(Hpc' & _) | (Hpc' & _)]]; [| congruence | congruence].
    right. apply list_lookup_insert_Some in Hl as [(_ & <- & _) | [? _]]; [congruence | done].
Qed.

(** A thread that goes on without a task; it stops only when the aggregator is closed. *)
Lemma inv_thread s i pc :
  inv s -> (pc = Stopped -> closed_ (aggregator s) = true) -> inv (with_thread i pc (aggregator s) s).
Proof.
  intros [H1 H2 H3 H4 H6 H7] Hpc. constructor; simpl; try done; [by rewrite length_insert |].
  intros j q Hj Hl. apply list_lookup_insert_Some in Hj as [(-> & Hj & _) | [_ Hj]]; [left; by apply Hpc | by eapply H7].
Qed.

Lemma aggregator_pop s :
  inv s -> Z.of_nat (waiting s) + 1 < 2 ^ 64 ->
  inv (with_pops (Pop_enter (aggregator s)) (S (waiting s)) (visiting s) (delivered s) (empty_handed s) s).
Proof.
  intros [H1 H2 H3 [H4 H5] H6 H7] Hlt. constructor; simpl; try done.
  - unfold Pop_enter. by case_match.
  - unfold Pop_enter. destruct (closed_ (aggregator s)) eqn:Hc; constructor; simpl; rewrite ?Hc; [done | | | done].
    + intros _. by apply H5.
    + intros _. destruct (H4 eq_refl) as (E1 & E2 & E3).
      rewrite wrap_small; unfold Zlen in *; split_and!; [lia | lia | done | lia | lia].
  - lia.
  - intros i q Hi Hl. destruct (H7 _ _ Hi Hl) as [Hc | ?]; [left; unfold Pop_enter; by rewrite Hc | by right].
Qed.

Lemma visiting_closed s v1 k v2 : inv s -> visiting s = v1 ++ k :: v2 -> closed_ (aggregator s) = false -> False.
Proof. intros [_ _ _ [H4 _] _ _] Hv Hc. destruct (H4 Hc) as (_ & _ & E). rewrite E in Hv. by destruct v1. Qed.

Lemma aggregator_visit s v1 k v2 q r q' :
  inv s -> visiting s = v1 ++ k :: v2 -> queues s !! k = Some q -> LockedQueue.Pop q = Some (r, q') ->
  inv (with_queue k q'
         (with_pops (aggregator s) (waiting s)
            match r with Wait => visiting s | Disengaged => v1 ++ S k :: v2 | Popped _ _ => v1 ++ v2 end
            (task_of r ++ delivered s) (empty_handed s) s)).
Proof.
  intros Hs Hv Hi Hp. pose proof Hs as [H1 H2 H3 [H4 H5] H6 H7]. pose proof (proj1 (Forall_lookup _ _) H1 _ _ Hi) as Hq.
  destruct (Pop_ok q Hq) as (r' & q2 & Hp' & Ho & _). rewrite Hp in Hp'. injection Hp' as <- <-.
  pose proof Ho as (Hq2 & Hc2 & _).
  destruct (queue_step s k q q' Hs Hi Hq2 ltac:(congruence)) as (K1 & K2 & [K3 K3'] & K4).
  destruct (all_tasks_insert _ _ _ q' Hi) as (rest & E1 & E2). constructor; simpl; try done.
  - rewrite E2, H3, E1, (pop_tasks _ _ _ Hq Ho). sink (task_of r).
  - constructor; [| done]. intros Hc. by destruct (visiting_closed s v1 k v2 Hs Hv Hc).
Qed.

Lemma aggregator_step s s' : inv s -> step s s' -> inv s'.
Proof.
  intros Hs Hstep. pose proof Hs as [H1 H2 H3 [H4 H5] H6 H7].
  destruct Hstep as [s i q obj shard b q' Hi Hsh Hp | s i q Hi | s i q down limit shard no_wait r q' Hi Hsh Hl Hp
    | s i q Hi | s Hcl | s i Ht | s i Ht Ho | s i q pc a q' Ht Hi Hr Hf | s Hlt | s n r a Hw Hp
    | s v1 k v2 q r q' Hv Hi Hp | s v1 k v2 Hv Hi];
    try (pose proof (proj1 (Forall_lookup _ _) H1 _ _ Hi) as Hq).
  - by eapply aggregator_push.
  - apply (inv_queue s i q (push_count q) (accepted s) (taken s)); [done | done | by destruct Hq; constructor | done | done].
  - by eapply aggregator_take.
  - apply (inv_queue s i q (LockedQueue.Close q) (accepted s) (taken s));
      [done | done | by destruct Hq; constructor | done | done].
  - constructor; simpl; try done. by constructor.
  - apply inv_thread; [done |]. by destruct (closed_ (aggregator s)).
  - by apply inv_thread.
  - by eapply aggregator_fetch.
  - by apply aggregator_pop.
  - by eapply aggregator_wake.
  - by eapply aggregator_visit.
  - constructor; simpl; try done. constructor; [| done]. intros Hc. by destruct (visiting_closed s v1 k v2 Hs Hv Hc).
Qed.

Lemma init_counts qs : counts_ok new_aggregator qs 0 [].
Proof. constructor; simpl; [| done]. intros _. unfold Zlen. simpl. split_and!; [lia | lia | done]. Qed.

Lemma aggregator_reachable qs s : Forall queue_ok qs -> reachable qs s -> inv s.
Proof.
  intros Hqs. induction 1 as [|s s' _ IH Hs]; [| by eapply aggregator_step].
  constructor; simpl; [done | by rewrite length_map | by rewrite !app_nil_r | apply init_counts | done |].
  intros i q Hi _. apply list_lookup_fmap_Some in Hi as (? & ? & _). done.
Qed.

Lemma all_tasks_nil qs : Forall (fun q => queue_ q = []) qs -> all_tasks qs = [].
Proof. induction 1 as [|q qs Hq _ IH]; [done |]. unfold all_tasks in *. simpl. by rewrite Hq, IH. Qed.

Lemma Pop_closed_ok qs :
  Forall queue_ok qs -> Forall (fun q => LockedQueue.closed_ q = true) qs ->
  exists r qs', Pop_closed qs = Some (r, qs') /\ all_tasks qs ≡ₚ option_list r ++ all_tasks qs' /\
    (r = None <-> all_tasks qs = []).
Proof.
  intros Hqs. induction Hqs as [|q qs Hq Hqs IH]; intros Hcl; [by exists None, [] |].
  apply Forall_cons in Hcl as [Hc Hcl]. destruct (IH Hcl) as (r0 & qs0 & Hp0 & Hperm & Hnone).
  cbn [Pop_closed]. destruct (Pop_ok q Hq) as (r & q' & -> & Ho & Hres). cbn [mbind option_bind].
  destruct r as [| | item t].
  - destruct Hres. congruence.
  - destruct Hres as [? | [_ He]]; [done |]. rewrite Hp0. cbn [mbind option_bind]. exists r0, (q' :: qs0).
    destruct Ho as (_ & _ & _ & _ & _ & Hq' & _). unfold all_tasks in *. simpl. rewrite Hq', He. simpl. done.
  - exists (Some t), (q' :: qs). pose proof (pop_tasks _ _ _ Hq Ho) as Hpt. split; [done |].
    unfold all_tasks in *. simpl in *. split; [by rewrite Hpt |]. split; [done |].
    intros Hnil. apply app_nil in Hnil as [Hnil _]. rewrite Hnil in Hpt. by apply Permutation_nil_cons in Hpt.
Qed.

(** ** Property *)

(** C5: the aggregator hands each task to one consumer and takes no task that
    nobody waits for.  In every interleaving with the other users of the queues:
    every task that entered a queue is in exactly one of the queues, the list of
    orders, the tasks that pops returned, and those that others took; while the
    aggregator is open the open orders and the fetched ones together are the
    waiting pops, so a fetched task always has a pop waiting for it.  While there
    is an open order and a queue is open and not empty, its thread has not ended
    and is never blocked, and its fetch takes the oldest task of the default
    shard, or else of the queue.  After closing no pop waits, and a pop that
    finds no fetched task gets a task of the queues unless all are empty. *)
Theorem aggregator_correct (qs : list Queue) (s : system) :
  Forall queue_ok qs -> reachable qs s ->
  accepted s ≡ₚ all_tasks (queues s) ++ orders_ (aggregator s) ++ delivered s ++ taken s /\
  (closed_ (aggregator s) = false ->
   order_count_ (aggregator s) + Zlen (orders_ (aggregator s)) = Z.of_nat (waiting s)) /\
  (closed_ (aggregator s) = false -> order_count_ (aggregator s) <> 0 ->
   forall i q, queues s !! i = Some q -> LockedQueue.closed_ q = false -> queue_ q <> [] ->
     match threads s !! i with
     | Some Testing => step s (with_thread i Ordering (aggregator s) s)
     | Some Ordering => step s (with_thread i Fetching (aggregator s) s)
     | Some Fetching =>
         exists a q' item t, ready q = true /\ DoPop_fetch (aggregator s) q = Some (Testing, a, q') /\
           orders_ a = orders_ (aggregator s) ++ [t] /\ (item, t) ∈ queue_ q /\
           match head (tasks_of q DEFAULT_SHARD) with Some b => item = b | None => Some item = begin q end
     | _ => False
     end) /\
  (closed_ (aggregator s) = true ->
   Pop_wake (aggregator s) <> None /\
   exists r queues', Pop_closed (queues s) = Some (r, queues') /\
     all_tasks (queues s) ≡ₚ option_list r ++ all_tasks queues' /\ (r = None <-> all_tasks (queues s) = [])).
Proof.
  intros Hqs Hr. destruct (aggregator_reachable _ _ Hqs Hr) as [H1 H2 H3 [H4 H5] H6 H7]. split_and!.
  - done.
  - intros Hc. by apply H4.
  - intros Hc Ho i q Hi Hqc Hne. pose proof (proj1 (Forall_lookup _ _) H1 _ _ Hi) as Hq.
    assert (is_Some (threads s !! i)) as [pc Hpc]
      by (apply lookup_lt_is_Some; rewrite H2; by eapply lookup_lt_Some).
    rewrite Hpc. destruct pc.
    + pose proof (step_test s i Hpc) as Hs. by rewrite Hc in Hs.
    + apply step_order; [done |]. unfold ordered. by rewrite (proj2 (Z.eqb_neq _ _) Ho).
    + assert (ready q = true) as Hrd.
      { unfold ready. destruct (is_empty q) eqn:He; [by apply is_empty_spec in He | by rewrite orb_true_r]. }
      destruct (DoPop_fetch_ok (aggregator s) q Hq Hrd) as (pc & a & q' & Hf & _ & _ & _ & Hres);
        [destruct (H4 Hc); lia |].
      destruct Hres as [(_ & ? & _) | [(_ & ? & _) | (-> & _ & item & t & _ & Hor & Hout & Hitem)]]; [congruence | done |].
      exists a, q', item, t. destruct Hout as (_ & _ & _ & _ & _ & Hin & _). by split_and!.
    + destruct (H7 _ _ Hpc Hi); congruence.
  - intros Hc. split; [unfold Pop_wake; rewrite Hc; by destruct (orders_ (aggregator s)) |].
    apply Pop_closed_ok; [done | by apply H5].
Qed.

End Aggregator.

(** ** A concrete run: one queue with two tasks, one pop *)

Definition two_tasks : LockedQueue.Queue nat :=
  match Push 7%nat 3 (new_queue 0) with
  | Some (_, q) => match Push 8%nat 3 q with Some (_, q) => q | None => q end
  | None => new_queue 0
  end.

Definition turn0 : system := init [two_tasks].
Definition turn1 : system := with_pops (Pop_enter (aggregator turn0)) 1 [] [] 0 turn0.
Definition turn2 : system := with_thread 0 Ordering (aggregator turn1) turn1.
Definition turn3 : system := with_thread 0 Fetching (aggregator turn2) turn2.
Definition fetched : thread_pc * Aggregator * LockedQueue.Queue nat :=
  default (Stopped, new_aggregator, two_tasks) (DoPop_fetch (aggregator turn3) two_tasks).
Definition turn4 : system := with_thread 0 fetched.1.1 fetched.1.2 (with_queue 0 fetched.2 turn3).

Lemma two_tasks_ok : Forall queue_ok [two_tasks].
Proof.
  constructor; [| by apply Forall_nil].
  destruct (push_locked_ok (new_queue 0) 7%nat 3) as (b1 & q1 & Hp1 & Hq1 & _); [apply new_queue_ok | lia |].
  assert (queue_ok (push_count q1)) as Hq1' by (destruct Hq1; by constructor).
  destruct (push_locked_ok (push_count q1) 8%nat 3) as (b2 & q2 & Hp2 & Hq2 & _); [done | lia |].
  assert (two_tasks = push_count q2) as ->; [| destruct Hq2; by constructor].
  vm_compute in Hp1. injection Hp1 as <- <-. vm_compute in Hp2. injection Hp2 as <- <-. reflexivity.
Qed.

Lemma turn4_reachable : reachable [two_tasks] turn4.
Proof.
  assert (reachable [two_tasks] turn0) as R by constructor.
  assert (step turn0 turn1) as S1 by (by apply (step_pop turn0)).
  assert (step turn1 turn2) as S2 by (by apply (step_test turn1 0)).
  assert (step turn2 turn3) as S3 by (by apply (step_order turn2 0)).
  assert (step turn3 turn4) as S4 by (by apply (step_fetch turn3 0 two_tasks)).
  eauto 10 using reach_step.
Qed.

Lemma aggregator_correct_witness :
  orders_ (aggregator turn4) = [7%nat] /\ order_count_ (aggregator turn4) = 0 /\
  order_count_ (aggregator turn4) + Zlen (orders_ (aggregator turn4)) = Z.of_nat (waiting turn4).
Proof.
  split; [vm_compute; reflexivity | split; [vm_compute; reflexivity |]].
  exact (proj1 (proj2 (aggregator_correct [two_tasks] turn4 two_tasks_ok turn4_reachable)) eq_refl).
Defined.
