(* ===== verification/ProcessRun.v ===== *)
(** [ProcessImpl::Run] ([src/src/base/process_impl_linux.cc], [process_impl.cc]): how
    the output of a child process is collected while its input is written.

    What [epoll_wait], [read], [write] and [waitpid] answer is given; a list of
    answers of [epoll_wait] that ends too early means that the daemon is still
    waiting.  The code between [fork] and [exec] runs in the child. *)

From S2P Require Import Prelude StringUtils.

#[local] Open Scope Z_scope.

(** ** What the system answers *)

(** An event on one of the pipes.  [Readable] is [EPOLLIN] on the child's standard
    output ([true]) or error output, with what [Data::Read] gives; [Writable] is
    [EPOLLOUT] on its input, with what [write] returns; [Hangup] is neither. *)
Inductive fd := In | Out | Err.
Inductive event :=
| Readable (out : bool) (buffer : option (list Z))
| Writable (bytes_sent : Z)
| Hangup (f : fd).

(** [epoll.Wait]: -1 with [EINTR], -1 with another error, 0, or the events. *)
Inductive wait := Interrupted | Wait_failed (text : list Z) | Timed_out | Events (l : list event).

(** [waitpid] *)
Inductive exit_status := No_status (text : list Z) | Exited (code : Z) | Signaled (signal : Z) | Stopped.

(** The steps before the loop: the pipes, [fork], the epoll object and its [Add]s. *)
Inductive spawn := Pipe_failed (text : list Z) | Fork_failed (text : list Z) | Poll_failed (text : list Z) | Spawned.

(** ** State *)

Record run_state := {
  stdout_ : list (list Z);          (* the rope of buffers *)
  stderr_ : list (list Z);
  stdin_size : Z;
  exhausted_fds : nat;
  killed_ : bool;
  error_ : list Z
}.

Definition start : run_state :=
  {| stdout_ := []; stderr_ := []; stdin_size := 0; exhausted_fds := 0; killed_ := false; error_ := [] |}.

Definition exhaust (s : run_state) : run_state :=
  {| stdout_ := stdout_ s; stderr_ := stderr_ s; stdin_size := stdin_size s;
     exhausted_fds := S (exhausted_fds s); killed_ := killed_ s; error_ := error_ s |}.
Definition kill (s : run_state) : run_state :=
  {| stdout_ := stdout_ s; stderr_ := stderr_ s; stdin_size := stdin_size s;
     exhausted_fds := exhausted_fds s; killed_ := true; error_ := error_ s |}.
Definition set_error (e : list Z) (s : run_state) : run_state :=
  {| stdout_ := stdout_ s; stderr_ := stderr_ s; stdin_size := stdin_size s;
     exhausted_fds := exhausted_fds s; killed_ := killed_ s; error_ := e |}.
Definition append_buffer (out : bool) (b : list Z) (s : run_state) : run_state :=
  {| stdout_ := if out then stdout_ s ++ [b] else stdout_ s;
     stderr_ := if out then stderr_ s else stderr_ s ++ [b]; stdin_size := stdin_size s;
     exhausted_fds := exhausted_fds s; killed_ := killed_ s; error_ := error_ s |}.
Definition set_stdin_size (n : Z) (s : run_state) : run_state :=
  {| stdout_ := stdout_ s; stderr_ := stderr_ s; stdin_size := n;
     exhausted_fds := exhausted_fds s; killed_ := killed_ s; error_ := error_ s |}.

Record run_outcome := { ok : bool; out : list Z; err : list Z; error : list Z; reaped : bool }.

(** ** Operations *)

(** One event; [true] is the [break] after a failed read. *)
Definition handle_event (read_error input : list Z) (e : event) (s : run_state) : bool * run_state :=
  match e with
  | Readable _ None => (true, kill (set_error read_error s))
  | Readable _ (Some []) => (false, exhaust s)
  | Readable is_out (Some b) => (false, append_buffer is_out b s)
  | Writable bytes_sent =>
      if bytes_sent <? 1 then (false, exhaust s)
      else
        let s := set_stdin_size (stdin_size s + bytes_sent) s in
        (false, if stdin_size s =? Zlen input then exhaust s else s)
  | Hangup _ => (false, exhaust s)
  end.

Fixpoint handle_events (read_error input : list Z) (l : list event) (s : run_state) : run_state :=
  match l with
  | [] => s
  | e :: l =>
      let '(stop, s) := handle_event read_error input e s in
      if stop then s else handle_events read_error input l s
  end.

(** The loop on [fds] descriptors.  [inr] is the early [return false]; [None] means
    that the daemon still waits. *)
Fixpoint wait_loop (fds : nat) (read_error input : list Z) (ws : list wait) (s : run_state)
    : option (run_state + list Z) :=
  if (exhausted_fds s <? fds)%nat && negb (killed_ s) then
    match ws with
    | [] => None
    | Interrupted :: ws => wait_loop fds read_error input ws s
    | Wait_failed text :: _ => Some (inr text)
    | Timed_out :: _ => Some (inl (set_error (lit "Timeout occured") (kill s)))
    | Events l :: ws => wait_loop fds read_error input ws (handle_events read_error input l s)
    end
  else Some (inl s).

(** [WaitPid]: the result and the error text. *)
Definition WaitPid (show : Z -> list Z) (status : exit_status) (e : list Z) : bool * list Z :=
  match status with
  | No_status text => (false, text)
  | Exited code => (code =? 0, e)
  | Signaled signal => (false, lit "received signal " ++ show signal)
  | Stopped => (false, e)
  end.

Definition failed (text : list Z) : run_outcome :=
  {| ok := false; out := []; err := []; error := text; reaped := true |}.

(** [Run]; [input] is [None] for the overload without one.  [show] prints a signal
    number. *)
Definition Run (show : Z -> list Z) (read_error : list Z) (input : option (list Z)) (sp : spawn)
    (ws : list wait) (status : exit_status) : option run_outcome :=
  match sp with
  | Pipe_failed text | Fork_failed text => Some (failed text)
  | Poll_failed text => Some {| ok := false; out := []; err := []; error := text; reaped := false |}
  | Spawned =>
      let fds := match input with Some _ => 3%nat | None => 2%nat end in
      r ← wait_loop fds read_error (default [] input) ws start;
      match r with
      | inr text => Some {| ok := false; out := []; err := []; error := text; reaped := false |}
      | inl s =>
          let '(exited, e) := WaitPid show status (error_ s) in
          Some {| ok := exited && negb (killed_ s); out := mjoin (stdout_ s); err := mjoin (stderr_ s);
                  error := e; reaped := match status with No_status _ => false | _ => true end |}
      end
  end.

(** ** What a child can cause

    The events of a child that writes [o] to its output and [e] to its error
    output, [None] once the descriptor was deleted from the epoll object, and
    that accepts at most the [i] remaining bytes of its input; and what is left
    of them after the events. *)
Record pipes := { to_read : option (list Z); to_read_err : option (list Z); to_write : option Z }.

Inductive from_child : pipes -> list event -> pipes -> Prop :=
| fc_nil p : from_child p [] p
| fc_out b o e i l p : b <> [] -> from_child {| to_read := Some o; to_read_err := e; to_write := i |} l p ->
    from_child {| to_read := Some (b ++ o); to_read_err := e; to_write := i |} (Readable true (Some b) :: l) p
| fc_out_end (hangup : bool) e i l p : from_child {| to_read := None; to_read_err := e; to_write := i |} l p ->
    from_child {| to_read := Some []; to_read_err := e; to_write := i |}
      ((if hangup then Hangup Out else Readable true (Some [])) :: l) p
| fc_err b o e i l p : b <> [] -> from_child {| to_read := o; to_read_err := Some e; to_write := i |} l p ->
    from_child {| to_read := o; to_read_err := Some (b ++ e); to_write := i |} (Readable false (Some b) :: l) p
| fc_err_end (hangup : bool) o i l p : from_child {| to_read := o; to_read_err := None; to_write := i |} l p ->
    from_child {| to_read := o; to_read_err := Some []; to_write := i |}
      ((if hangup then Hangup Err else Readable false (Some [])) :: l) p
| fc_failed p is_out l p' : from_child p (Readable is_out None :: l) p'
| fc_in n o e i l p : 1 <= n < i -> from_child {| to_read := o; to_read_err := e; to_write := Some (i - n) |} l p ->
    from_child {| to_read := o; to_read_err := e; to_write := Some i |} (Writable n :: l) p
| fc_in_end ev o e i l p :
    (ev = Hangup In \/ exists n, ev = Writable n /\ (n < 1 \/ n = i)) ->
    from_child {| to_read := o; to_read_err := e; to_write := None |} l p ->
    from_child {| to_read := o; to_read_err := e; to_write := Some i |} (ev :: l) p.

(** All events of the answers of [epoll_wait]. *)
Definition events_of (ws : list wait) : list event :=
  mjoin (map (fun w => match w with Events l => l | _ => [] end) ws).

(** ** Lemmas *)

Definition gone {A} (x : option A) : nat := match x with Some _ => 0 | None => 1 end.

(** What the loop has collected of [o] and [e] and written of the input. *)
Record collected (fds : nat) (o e : list Z) (size : Z) (p : pipes) (s : run_state) : Prop := {
  cl_out : o = mjoin (stdout_ s) ++ default [] (to_read p);
  cl_err : e = mjoin (stderr_ s) ++ default [] (to_read_err p);
  cl_in : 0 <= stdin_size s /\ match to_write p with Some i => 0 <= i /\ stdin_size s + i = size | None => stdin_size s <= size end;
  cl_fds : (exhausted_fds s + (3 - fds) = gone (to_read p) + gone (to_read_err p) + gone (to_write p))%nat
}.

Lemma join_snoc (l : list (list Z)) b : mjoin (l ++ [b]) = mjoin l ++ b.
Proof. rewrite join_app. simpl. by rewrite app_nil_r. Qed.

Lemma handle_events_ok fds o e read_error input l rest p p' s :
  from_child p (l ++ rest) p' -> collected fds o e (Zlen input) p s -> killed_ s = false ->
  exists q, collected fds o e (Zlen input) q (handle_events read_error input l s) /\
    (killed_ (handle_events read_error input l s) = false -> from_child q rest p').
Proof.
  revert p s. induction l as [|ev l IH]; intros p s Hf Hc Hk; [by exists p |].
  simpl in Hf. inversion Hf as [? | b o0 e0 i l0 p0 Hb Hf' | h e0 i l0 p0 Hf' | b o0 e0 i l0 p0 Hb Hf' | h o0 i l0 p0 Hf'
    | p0 is_out l0 p1 | n o0 e0 i l0 p0 Hn Hf' | ev' o0 e0 i l0 p0 Hev Hf']; subst; cbn [handle_events].
  - destruct b as [|c b]; [done |]. cbn [handle_event]. eapply IH; [exact Hf' | | done].
    destruct Hc as [C1 C2 C3 C4]. constructor; simpl in *; [| done | done | done].
    by rewrite join_snoc, <-app_assoc.
  - assert (handle_event read_error input (if h then Hangup Out else Readable true (Some [])) s = (false, exhaust s)) as ->
      by (by destruct h).
    eapply IH; [exact Hf' | | done]. destruct Hc as [C1 C2 C3 C4]. constructor; simpl in *; [done | done | done | lia].
  - destruct b as [|c b]; [done |]. cbn [handle_event]. eapply IH; [exact Hf' | | done].
    destruct Hc as [C1 C2 C3 C4]. constructor; simpl in *; [done | | done | done].
    by rewrite join_snoc, <-app_assoc.
  - assert (handle_event read_error input (if h then Hangup Err else Readable false (Some [])) s = (false, exhaust s)) as ->
      by (by destruct h).
    eapply IH; [exact Hf' | | done]. destruct Hc as [C1 C2 C3 C4]. constructor; simpl in *; [done | done | done | lia].
  - exists p. simpl. split; [| done]. destruct Hc as [C1 C2 C3 C4]. by constructor.
  - destruct Hc as [C1 C2 C3 C4]. simpl in *. unfold handle_event.
    assert ((n <? 1) = false) as -> by lia. cbv zeta. cbn [stdin_size set_stdin_size].
    assert ((stdin_size s + n =? Zlen input) = false) as -> by lia.
    eapply IH; [exact Hf' | | done]. constructor; simpl; [done | done | lia | lia].
  - assert (exists z, handle_event read_error input ev s = (false, exhaust (set_stdin_size z s)) /\ 0 <= z <= Zlen input) as (z & -> & Hz).
    { destruct Hc as [_ _ C3 _]. simpl in C3. destruct Hev as [-> | (n & -> & [Hn | ->])]; cbn [handle_event].
      - exists (stdin_size s). split; [by destruct s | lia].
      - assert ((n <? 1) = true) as -> by lia. exists (stdin_size s). split; [by destruct s | lia].
      - destruct (Z.ltb_spec i 1); [exists (stdin_size s); split; [by destruct s | lia] |].
        cbv zeta. cbn [stdin_size set_stdin_size]. assert ((stdin_size s + i =? Zlen input) = true) as -> by lia.
        exists (stdin_size s + i). split; [done | lia]. }
    eapply IH; [exact Hf' | | done]. destruct Hc as [C1 C2 C3 C4]. constructor; simpl in *; [done | done | lia | lia].
Qed.

Lemma wait_loop_ok fds o e read_error input ws p p' s r :
  (fds <= 3)%nat -> from_child p (events_of ws) p' -> collected fds o e (Zlen input) p s -> killed_ s = false ->
  wait_loop fds read_error input ws s = Some (inl r) ->
  exists q, collected fds o e (Zlen input) q r /\ (killed_ r = false -> exhausted_fds r = fds).
Proof.
  intros Hfds. revert p s. induction ws as [|w ws IH]; intros p s Hf Hc Hk; cbn [wait_loop].
  all: assert (exhausted_fds s <= fds)%nat as Hle
    by (destruct Hc as [_ _ _ C]; destruct p as [[] [] []]; simpl in C; lia).
  all: rewrite Hk, andb_true_r; destruct (Nat.ltb_spec (exhausted_fds s) fds).
  all: try (intros [= <-]; exists p; split; [done | intros _; lia]).
  - done.
  - destruct w as [| text | | l]; [by apply (IH p) | done | |].
    + intros [= <-]. exists p. split; [| done]. destruct Hc as [C1 C2 C3 C4]. by constructor.
    + intros Hw. unfold events_of in Hf. simpl in Hf.
      destruct (handle_events_ok fds o e read_error input l _ p p' s Hf Hc Hk) as (q & Hq & Hrest).
      destruct (killed_ (handle_events read_error input l s)) eqn:Hk2; [| by apply (IH q _ (Hrest eq_refl) Hq Hk2)].
      exists q. destruct ws; cbn [wait_loop] in Hw; rewrite Hk2, andb_false_r in Hw; injection Hw as <-;
        (split; [done | congruence]).
Qed.

(** The loop ends when every pipe has ended, or when the time is over. *)
Lemma wait_loop_ends fds o e read_error input ws p s :
  (fds <= 3)%nat -> from_child p (events_of ws) {| to_read := None; to_read_err := None; to_write := None |} ->
  collected fds o e (Zlen input) p s -> wait_loop fds read_error input ws s <> None.
Proof.
  intros Hfds. revert p s. induction ws as [|w ws IH]; intros p s Hf Hc; cbn [wait_loop].
  - assert (p = {| to_read := None; to_read_err := None; to_write := None |}) as -> by (by inversion Hf).
    destruct Hc as [_ _ _ C]. simpl in C. assert ((exhausted_fds s <? fds)%nat = false) as -> by (apply Nat.ltb_ge; lia).
    done.
  - destruct ((exhausted_fds s <? fds)%nat && negb (killed_ s)) eqn:Hb; [| done].
    apply andb_true_iff in Hb as [_ Hk%negb_true_iff].
    destruct w as [| text | | l]; [by apply (IH p) | done | done |]. unfold events_of in Hf. simpl in Hf.
    destruct (handle_events_ok fds o e read_error input l _ p _ s Hf Hc Hk) as (q & Hq & Hrest).
    destruct (killed_ (handle_events read_error input l s)) eqn:Hk2; [| apply (IH q); [by apply Hrest | done]].
    destruct ws; cbn [wait_loop]; by rewrite Hk2, andb_false_r.
Qed.

Lemma wait_loop_timeout fds read_error input ws s :
  Timed_out ∈ ws -> wait_loop fds read_error input ws s <> None.
Proof.
  revert s. induction ws as [|w ws IH]; intros s Hin; [by apply not_elem_of_nil in Hin |]. cbn [wait_loop].
  destruct (_ && _); [| done]. apply elem_of_cons in Hin as [<- | Hin]; [done |]. destruct w; [by apply IH | done | done | by apply IH].
Qed.

Lemma start_collected (input : option (list Z)) o e :
  collected (match input with Some _ => 3 | None => 2 end) o e (Zlen (default [] input))
    {| to_read := Some o; to_read_err := Some e; to_write := Zlen <$> input |} start.
Proof.
  destruct input as [x|]; constructor; simpl; try done; unfold Zlen; simpl; lia.
Qed.

(** ** Property *)

(** C25: running a process.  [Run] succeeds only when the child exits with code 0
    after both of its streams have ended, and then [stdout] and [stderr] are all
    that the child has written to them; otherwise they are prefixes of it.
    Nothing after the end of the input is read.  [Run] returns when every pipe
    has ended or the time limit passes.  When the child is ended by a signal the
    error names the signal, whatever was stored before: a time-out, after which
    the child gets SIGTERM, is reported as "received signal 15". *)
Theorem Run_collects (show : Z -> list Z) (read_error : list Z) (input : option (list Z)) (ws : list wait)
    (status : exit_status) (o e : list Z) (rest : pipes) :
  from_child {| to_read := Some o; to_read_err := Some e; to_write := Zlen <$> input |} (events_of ws) rest ->
  (Timed_out ∈ ws \/ rest = {| to_read := None; to_read_err := None; to_write := None |} ->
   exists r, Run show read_error input Spawned ws status = Some r) /\
  forall r, Run show read_error input Spawned ws status = Some r ->
    out r `prefix_of` o /\ err r `prefix_of` e /\
    (ok r = true -> out r = o /\ err r = e /\ status = Exited 0) /\
    (forall signal, status = Signaled signal -> reaped r = true ->
       error r = lit "received signal " ++ show signal) /\
    (forall s, wait_loop (match input with Some _ => 3 | None => 2 end) read_error (default [] input) ws start
                 = Some (inl s) -> 0 <= stdin_size s <= Zlen (default [] input)).
Proof.
  intros Hf. pose proof (start_collected input o e) as Hstart.
  assert (match input with Some _ => 3 | None => 2 end <= 3)%nat as Hfds by (destruct input; lia). split.
  - intros H. unfold Run.
    destruct (wait_loop _ read_error (default [] input) ws start) as [[s | text]|] eqn:Hw; cbn [mbind option_bind].
    + destruct (WaitPid show status (error_ s)). by eexists.
    + by eexists.
    + exfalso. destruct H as [Ht | ->]; [by eapply wait_loop_timeout | by eapply wait_loop_ends].
  - intros r. unfold Run.
    destruct (wait_loop _ read_error (default [] input) ws start) as [[s | text]|] eqn:Hw; cbn [mbind option_bind];
      [| intros [= <-]; split_and!; [apply prefix_nil | apply prefix_nil | done | done | done] | done].
    destruct (wait_loop_ok _ o e read_error (default [] input) ws _ _ _ _ Hfds Hf Hstart eq_refl Hw)
      as (q & [C1 C2 C3 C4] & Hex).
    destruct (WaitPid show status (error_ s)) as [exited text] eqn:Hp. intros [= <-]. simpl. split_and!.
    + exists (default [] (to_read q)). exact C1.
    + exists (default [] (to_read_err q)). exact C2.
    + intros [Hx Hk%negb_true_iff]%andb_true_iff. specialize (Hex Hk).
      assert (to_read q = None /\ to_read_err q = None) as [E1 E2].
      { destruct q as [[] [] []], input; simpl in C4; try lia; done. }
      rewrite C1, C2, E1, E2. simpl. rewrite !app_nil_r. split_and!; [done | done |].
      destruct status as [| code | |]; simpl in Hp; injection Hp as <- <-; try done.
      f_equal. by apply Z.eqb_eq.
    + intros signal -> _. simpl in Hp. by injection Hp as _ <-.
    + intros s' [= <-]. destruct (to_write q); lia.
Qed.

(** ** A concrete run: a compiler that prints in two pieces and gets its input in two *)

Definition piped : list wait :=
  [Interrupted; Events [Readable true (Some (lit "EL")); Writable 3];
   Events [Readable false (Some (lit "warning")); Readable true (Some (lit "F"))];
   Events [Writable 2; Readable true (Some [])]; Events [Hangup Err]].

Lemma piped_child :
  from_child {| to_read := Some (lit "ELF"); to_read_err := Some (lit "warning"); to_write := Zlen <$> Some (lit "int a") |}
    (events_of piped) {| to_read := None; to_read_err := None; to_write := None |}.
Proof.
  unfold events_of. simpl. apply (fc_out (lit "EL") (lit "F")); [done |]. apply fc_in; [unfold Zlen; simpl; lia |].
  apply (fc_err (lit "warning") _ []); [done |]. apply (fc_out (lit "F") []); [done |].
  apply fc_in_end; [right; exists 2; split; [done | right; reflexivity] |].
  apply (fc_out_end false). apply (fc_err_end true). apply fc_nil.
Qed.

Lemma Run_collects_witness :
  exists r, Run (fun _ => []) [] (Some (lit "int a")) Spawned piped (Exited 0) = Some r /\
    out r = lit "ELF" /\ err r = lit "warning".
Proof.
  destruct (Run_collects (fun _ => []) [] (Some (lit "int a")) piped (Exited 0) (lit "ELF") (lit "warning") _ piped_child)
    as [H1 H2].
  destruct (H1 (or_intror eq_refl)) as [r Hr]. exists r. split; [exact Hr |].
  destruct (H2 r Hr) as (_ & _ & H & _). vm_compute in Hr. injection Hr as <-. destruct (H eq_refl) as (-> & -> & _).
  split; reflexivity.
Defined.
