(* ===== verification/Future.v ===== *)
(** [base::Promise] and [base::Future] ([src/src/base/future.h]) and their use by
    [base::ThreadPool] ([thread_pool.cc]): who gets to set the value.

    The state is guarded by a mutex, so each call is one step.  A thread is named
    by a number; [None] is the id of no thread, [Thread::id()]. *)

From S2P Require Import Prelude.

Section Future.
Context {T : Type}.

(** ** State *)

Record State := { fulfilled : bool; async_id : option nat; value : T }.

(** [new State] with a default-constructed value. *)
Definition new_state (v0 : T) : State := {| fulfilled := false; async_id := None; value := v0 |}.

(** ** Operations *)

(** [SetStateValue], called by thread [self]. *)
Definition SetStateValue (self : nat) (v : T) (s : State) : State :=
  if negb (fulfilled s) && (bool_decide (async_id s = None) || bool_decide (async_id s = Some self))
  then {| fulfilled := true; async_id := async_id s; value := v |}
  else s.

(** [SetValue(fn)]: whether a thread is started, and the state; [new_id] is the id
    the thread would have. *)
Definition SetValue_fn (new_id : nat) (s : State) : bool * State :=
  if negb (fulfilled s) && bool_decide (async_id s = None)
  then (true, {| fulfilled := fulfilled s; async_id := Some new_id; value := value s |})
  else (false, s).

(** ** Runs

    [running] holds the threads started by [SetValue(fn)], with what their
    function will return. *)
Record promise := { state : State; alive : bool; running : list (nat * T) }.

Definition new_promise (v0 : T) : promise := {| state := new_state v0; alive := true; running := [] |}.

Inductive event := Set_ (self : nat) (v : T) | Set_fn (new_id : nat) (result : T) | Destroyed (self : nat) | Ran (id : nat).

Inductive step (default_value : T) : promise -> event -> promise -> Prop :=
| step_set p self v :
    alive p = true -> self ∉ (running p).*1 ->
    step default_value p (Set_ self v)
      {| state := SetStateValue self v (state p); alive := true; running := running p |}
| step_set_fn p new_id result :
    alive p = true -> new_id ∉ (running p).*1 ->
    step default_value p (Set_fn new_id result)
      (let '(started, s) := SetValue_fn new_id (state p) in
       {| state := s; alive := true; running := if started then (new_id, result) :: running p else running p |})
| step_destroy p self :
    alive p = true -> self ∉ (running p).*1 ->
    step default_value p (Destroyed self)
      {| state := SetStateValue self default_value (state p); alive := false; running := running p |}
| step_ran p r1 id result r2 :
    running p = r1 ++ (id, result) :: r2 ->
    step default_value p (Ran id)
      {| state := SetStateValue id result (state p); alive := alive p; running := r1 ++ r2 |}.

Inductive run_of (default_value v0 : T) : list event -> promise -> Prop :=
| run_nil : run_of default_value v0 [] (new_promise v0)
| run_snoc tr p e p' : run_of default_value v0 tr p -> step default_value p e p' ->
    run_of default_value v0 (tr ++ [e]) p'.

(** The value that the first call of a run decides on. *)
Definition offer (default_value : T) (e : event) : option T :=
  match e with Set_ _ v => Some v | Set_fn _ v => Some v | Destroyed _ => Some default_value | Ran _ => None end.

Definition winner (default_value : T) (tr : list event) : option T := head (omap (offer default_value) tr).

(** ** Lemmas *)

(** Nobody has called, or the first call has fulfilled the promise, or it has
    started the only thread that may. *)
Definition decided (default_value : T) (tr : list event) (p : promise) : Prop :=
  match winner default_value tr with
  | None => alive p = true /\ running p = [] /\ fulfilled (state p) = false /\ async_id (state p) = None
  | Some v =>
      (running p = [] /\ fulfilled (state p) = true /\ value (state p) = v) \/
      (exists id, running p = [(id, v)] /\ fulfilled (state p) = false /\ async_id (state p) = Some id)
  end.

Lemma winner_snoc d tr e :
  winner d (tr ++ [e]) = match winner d tr with Some v => Some v | None => offer d e end.
Proof.
  unfold winner. rewrite omap_app. destruct (omap (offer d) tr); [| done]. simpl. by destruct (offer d e).
Qed.

Lemma set_fulfilled self v s : fulfilled s = true -> SetStateValue self v s = s.
Proof. unfold SetStateValue. by intros ->. Qed.

Lemma set_other self v s id : async_id s = Some id -> self <> id -> SetStateValue self v s = s.
Proof.
  unfold SetStateValue. intros -> Hne. rewrite bool_decide_false, bool_decide_false by congruence.
  by rewrite andb_false_r.
Qed.

Lemma step_decided d tr p e p' : decided d tr p -> step d p e p' -> decided d (tr ++ [e]) p'.
Proof.
  unfold decided. rewrite winner_snoc.
  intros Hd Hs. destruct (winner d tr) as [w|].
  - destruct Hd as [(Hr & Hf & Hv) | (id & Hr & Hf & Hi)]; inversion Hs as [? self v Ha Hn | ? new result Ha Hn | ? self Ha Hn | ? r1 i result r2 Hrun]; subst; simpl.
    + left. by rewrite set_fulfilled.
    + left. unfold SetValue_fn. by rewrite Hf.
    + left. by rewrite set_fulfilled.
    + rewrite Hr in Hrun. by destruct r1.
    + right. exists id. rewrite Hr in Hn. rewrite (set_other _ _ _ id); [done | done |]. intros ->. apply Hn. left.
    + right. exists id. unfold SetValue_fn. rewrite Hf, Hi, bool_decide_false by done. done.
    + right. exists id. rewrite Hr in Hn. rewrite (set_other _ _ _ id); [done | done |]. intros ->. apply Hn. left.
    + left. rewrite Hr in Hrun. destruct r1 as [|? r1]; [| by destruct r1]. injection Hrun as <- <- <-.
      unfold SetStateValue. rewrite Hf, Hi, (bool_decide_true (Some id = Some id)) by done. by rewrite orb_true_r.
  - destruct Hd as (Ha0 & Hr & Hf & Hi). inversion Hs as [? self v Ha Hn | ? new result Ha Hn | ? self Ha Hn | ? r1 i result r2 Hrun]; subst; simpl.
    + left. unfold SetStateValue. rewrite Hf, Hi, bool_decide_true by done. done.
    + right. exists new. unfold SetValue_fn. rewrite Hf, Hi, bool_decide_true by done. by rewrite Hr.
    + left. unfold SetStateValue. rewrite Hf, Hi, bool_decide_true by done. done.
    + rewrite Hr in Hrun. by destruct r1.
Qed.

Lemma run_decided d v0 tr p : run_of d v0 tr p -> decided d tr p.
Proof. induction 1 as [|tr p e p' _ IH Hs]; [done | by eapply step_decided]. Qed.

Lemma step_keeps d p e p' :
  step d p e p' -> fulfilled (state p) = true -> fulfilled (state p') = true /\ value (state p') = value (state p).
Proof.
  intros Hs Hf. destruct Hs; simpl; rewrite ?set_fulfilled by done; try done.
  unfold SetValue_fn. by rewrite Hf.
Qed.

Lemma destroyed_winner d v0 tr p : run_of d v0 tr p -> alive p = false -> is_Some (winner d tr).
Proof.
  intros Hr Ha. apply run_decided in Hr. unfold decided in Hr.
  destruct (winner d tr); [by eexists | by destruct Hr as [? _]; congruence].
Qed.

(** ** Property *)

(** A promise is kept once and always.  In every order of calls from any
    threads: a value that has been set never changes; when the promise is
    destroyed and no thread started for it runs any more, the future holds a
    value, which is the one of the first call (the argument of [SetValue], the
    result of its function, or the default value of the destructor). *)
Theorem promise_kept (d v0 : T) (tr : list event) (p : promise) :
  run_of d v0 tr p ->
  (forall e p', step d p e p' -> fulfilled (state p) = true ->
     fulfilled (state p') = true /\ value (state p') = value (state p)) /\
  (alive p = false -> running p = [] ->
     fulfilled (state p) = true /\ winner d tr = Some (value (state p))) /\
  (fulfilled (state p) = true -> winner d tr = Some (value (state p))).
Proof.
  intros Hr. pose proof (run_decided _ _ _ _ Hr) as Hd. unfold decided in Hd. split_and!.
  - intros e p'. by apply step_keeps.
  - intros Ha Hrun. destruct (destroyed_winner _ _ _ _ Hr Ha) as [v Hv]. rewrite Hv in *.
    destruct Hd as [(_ & Hf & ->) | (id & Hrun2 & _)]; [done | by rewrite Hrun in Hrun2].
  - intros Hf. destruct (winner d tr) as [v|].
    + destruct Hd as [(_ & _ & ->) | (id & _ & Hf2 & _)]; [done | congruence].
    + destruct Hd as (_ & _ & Hf2 & _). congruence.
Qed.

End Future.

(** ** A concrete run: the promise is destroyed while its function runs *)

Definition asked : promise := {| state := {| fulfilled := false; async_id := Some 7%nat; value := 0%Z |}; alive := true; running := [(7%nat, 42%Z)] |}.
Definition dropped : promise := {| state := state asked; alive := false; running := running asked |}.
Definition answered : promise := {| state := {| fulfilled := true; async_id := Some 7%nat; value := 42%Z |}; alive := false; running := [] |}.

Lemma answered_run : run_of (-1)%Z 0%Z [Set_fn 7 42%Z; Destroyed 1; Ran 7] answered.
Proof.
  assert (step (-1)%Z (new_promise 0%Z) (Set_fn 7 42%Z) asked) as S1
    by (apply (step_set_fn (-1)%Z (new_promise 0%Z)); [done | apply not_elem_of_nil]).
  assert (step (-1)%Z asked (Destroyed 1) dropped) as S2.
  { apply (step_destroy (-1)%Z asked 1); [done |]. simpl. by rewrite list_elem_of_singleton. }
  assert (step (-1)%Z dropped (Ran 7) answered) as S3 by (by apply (step_ran (-1)%Z dropped [] 7 42%Z [])).
  pose proof (run_nil (-1)%Z 0%Z) as R.
  exact (run_snoc _ _ _ _ _ _ (run_snoc _ _ _ _ _ _ (run_snoc _ _ _ _ _ _ R S1) S2) S3).
Qed.

Lemma promise_kept_witness :
  value (state answered) = 42%Z /\ winner (-1)%Z [Set_fn 7 42%Z; Destroyed 1; Ran 7] = Some (value (state answered)).
Proof.
  split; [reflexivity |].
  exact (proj2 (proj1 (proj2 (promise_kept (-1)%Z 0%Z _ answered answered_run)) eq_refl eq_refl)).
Defined.
