(* ===== verification/ClangCommand.v ===== *)
(** [client::ClangCommand] ([src/src/client/clang_command.cc]): the arguments of a
    clang invocation become the flags of a request.

    What an argument is (which options it matches, its value, spelling and
    rendering) is decided by clang's option tables and part of an [Arg]. *)

From S2P Require Import Prelude StringUtils Messages CommandLines.

#[local] Open Scope Z_scope.

(** ** Arguments *)

Inductive option_id :=
| OPT_add_plugin | OPT_emit_obj | OPT_E | OPT_S | OPT_fsyntax_only | OPT_dependency_file | OPT_load
| OPT_mrelax_all | OPT_o | OPT_x | OPT_fsanitize_blacklist | OPT_include | OPT_internal_externc_isystem
| OPT_isysroot | OPT_I | OPT_D | OPT_include_pch | OPT_include_pth | OPT_coverage_data_file
| OPT_coverage_notes_file | OPT_fdebug_compilation_dir | OPT_ferror_limit | OPT_main_file_name | OPT_MF
| OPT_MMD | OPT_MT | OPT_internal_isystem | OPT_resource_dir | OPT_frewrite_includes | OPT_rewrite_macros.

Record Arg := {
  input_class : bool;                       (* [getKind() == InputClass] *)
  matches : option_id -> bool;              (* [getOption().matches] *)
  getValue : list Z;
  getSpelling : list Z;
  render : list (list Z)
}.

Definition kIgnoredFlags : list option_id := [OPT_frewrite_includes; OPT_rewrite_macros].

(** ** Versions in paths *)

Definition is_digit (c : Z) : bool := (48 <=? c) && (c <=? 57).

Fixpoint digits_len (s : list Z) : nat :=
  match s with
  | c :: s => if is_digit c then S (digits_len s) else 0
  | [] => 0
  end.

(** The length of the match of [\d+\.\d+\.\d+] at the start of [s].  A run of digits
    is followed by no digit, so a greedy match never backtracks. *)
Definition version_len (s : list Z) : option nat :=
  let a := digits_len s in
  match drop a s with
  | 46 :: s2 =>
      let b := digits_len s2 in
      match drop b s2 with
      | 46 :: s3 =>
          let c := digits_len s3 in
          if ((0 <? a) && (0 <? b) && (0 <? c))%nat then Some (a + 1 + b + 1 + c)%nat else None
      | _ => None
      end
  | _ => None
  end.

(** The length of the match of a fixed text followed by a version. *)
Definition text_version_len (text s : list Z) : option nat :=
  if decide (text `prefix_of` s) then Nat.add (length text) <$> version_len (drop (length text) s) else None.

(** [std::regex_replace(s, (\/lib\/clang\/\d+\.\d+\.\d+), to)]; [skip] counts the
    characters of a match that are still to be left out. *)
Fixpoint replace_versions (to s : list Z) (skip : nat) : list Z :=
  match s with
  | [] => []
  | c :: s' =>
      match skip with
      | S skip => replace_versions to s' skip
      | O =>
          match text_version_len (lit "/lib/clang/") s with
          | Some n => to ++ replace_versions to s' (n - 1)
          | None => c :: replace_versions to s' 0
          end
      end
  end.

(** [replaced_command]: a path based on the client's own directory is based on
    the compiler's instead; [None] when [self_path] does not occur. *)
Definition rebase (self_path clang_path replaced : list Z) : option (list Z) :=
  pos ← find_sub self_path replaced;
  Some (take pos replaced
        ++ match find_last_of slash clang_path with Some i => take i clang_path | None => clang_path end
        ++ drop (pos + length self_path) replaced).

(** ** [FillFlags] *)

(** Where the chain of tests sends an argument. *)
Inductive target :=
| To_input | To_plugin | To_action | To_deps_file | To_nowhere | To_cc_only | To_output | To_language
| To_blacklist | To_non_cached | To_define | To_included | To_non_direct | To_resource | To_other.

Definition classify (arg : Arg) : target :=
  let m := matches arg in
  if input_class arg then To_input
  else if m OPT_add_plugin then To_plugin
  else if m OPT_emit_obj || m OPT_E || m OPT_S || m OPT_fsyntax_only then To_action
  else if m OPT_dependency_file then To_deps_file
  else if m OPT_load then To_nowhere
  else if m OPT_mrelax_all then To_cc_only
  else if m OPT_o then To_output
  else if m OPT_x then To_language
  else if m OPT_fsanitize_blacklist then To_blacklist
  else if m OPT_include || m OPT_internal_externc_isystem || m OPT_isysroot || m OPT_I then To_non_cached
  else if m OPT_D then To_define
  else if m OPT_include_pch || m OPT_include_pth then To_included
  else if m OPT_coverage_data_file || m OPT_coverage_notes_file || m OPT_fdebug_compilation_dir
          || m OPT_ferror_limit || m OPT_main_file_name || m OPT_MF || m OPT_MMD || m OPT_MT then To_non_direct
  else if m OPT_internal_isystem || m OPT_resource_dir then To_resource
  else if existsb m kIgnoredFlags then To_nowhere
  else To_other.

(** The flags so far, with [non_direct_list], [non_cached_list] and [other_list]. *)
Record filling := {
  flags_ : Flags;
  non_direct_list : list Argument;
  non_cached_list : list Argument;
  other_list : list Argument
}.

Definition no_compiler : Compiler := {| compiler_version := []; compiler_path := None; plugins := [] |}.

(** [flags->Clear()] *)
Definition cleared : Flags :=
  {| compiler := no_compiler; output := None; input := None; other := []; deps_file := None; language := None;
     non_cached := []; cc_only := []; action := []; non_direct := []; sanitize_blacklist := None;
     included_files := []; rewrite_includes := None |}.

Definition on_flags (f : Flags -> Flags) (s : filling) : filling :=
  {| flags_ := f (flags_ s); non_direct_list := non_direct_list s; non_cached_list := non_cached_list s;
     other_list := other_list s |}.
Definition to_non_direct (a : Argument) (s : filling) : filling :=
  {| flags_ := flags_ s; non_direct_list := non_direct_list s ++ [a]; non_cached_list := non_cached_list s;
     other_list := other_list s |}.
Definition to_non_cached (a : Argument) (s : filling) : filling :=
  {| flags_ := flags_ s; non_direct_list := non_direct_list s; non_cached_list := non_cached_list s ++ [a];
     other_list := other_list s |}.
Definition to_other (a : Argument) (s : filling) : filling :=
  {| flags_ := flags_ s; non_direct_list := non_direct_list s; non_cached_list := non_cached_list s;
     other_list := other_list s ++ [a] |}.

Definition add_plugin (name : list Z) (f : Flags) : Flags :=
  set_compiler (set_plugins (plugins (compiler f) ++ [{| plugin_name := name; plugin_path := None |}]) (compiler f)) f.
Definition add_cc_only (a : Argument) (f : Flags) : Flags := set_cc_only (cc_only f ++ [a]) f.
Definition add_included_file (p : list Z) (f : Flags) : Flags :=
  {| compiler := compiler f; output := output f; input := input f; other := other f; deps_file := deps_file f;
     language := language f; non_cached := non_cached f; cc_only := cc_only f; action := action f;
     non_direct := non_direct f; sanitize_blacklist := sanitize_blacklist f;
     included_files := included_files f ++ [p]; rewrite_includes := rewrite_includes f |}.
Definition set_groups (non_direct non_cached other : list Argument) (rewrite : bool) (f : Flags) : Flags :=
  {| compiler := compiler f; output := output f; input := input f; other := other; deps_file := deps_file f;
     language := language f; non_cached := non_cached; cc_only := cc_only f; action := action f;
     non_direct := non_direct; sanitize_blacklist := sanitize_blacklist f;
     included_files := included_files f; rewrite_includes := Some rewrite |}.

(** The body of the loop; [self_path] is what [GetSelfPath] gives.  [None] is the
    early [return false]. *)
Definition fill_arg (self_path : option (list Z)) (clang_path major : list Z) (rewrite : bool) (i : Z) (arg : Arg)
    (s : filling) : option filling :=
  let rendered := {| index := i; values := render arg |} in
  match classify arg with
  | To_input => Some (on_flags (set_input (Some (getValue arg))) s)
  | To_plugin => Some (on_flags (add_plugin (getValue arg)) (to_other rendered s))
  | To_action => Some (on_flags (set_action (getSpelling arg)) s)
  | To_deps_file => Some (on_flags (set_deps_file (Some (getValue arg))) s)
  | To_nowhere => Some s
  | To_cc_only => Some (on_flags (add_cc_only {| index := i; values := [getSpelling arg] |}) s)
  | To_output => Some (on_flags (set_output (Some (getValue arg))) s)
  | To_language => Some (on_flags (set_language (Some (getValue arg))) s)
  | To_blacklist => Some (on_flags (set_sanitize_blacklist (Some (getValue arg))) s)
  | To_non_cached => Some (to_non_cached rendered s)
  | To_define => Some (if rewrite then to_other rendered s else to_non_cached rendered s)
  | To_included => Some (to_non_cached rendered (on_flags (add_included_file (getValue arg)) s))
  | To_non_direct => Some (to_non_direct rendered s)
  | To_resource =>
      let replaced := replace_versions (lit "/lib/clang/" ++ major) (getValue arg) 0 in
      self ← self_path;
      Some (match rebase self clang_path replaced with
            | Some command => to_non_direct {| index := i; values := [getSpelling arg; command] |} s
            | None => to_non_cached {| index := i; values := [getSpelling arg; replaced] |} s
            end)
  | To_other => Some (to_other rendered s)
  end.

Fixpoint fill_args (self_path : option (list Z)) (clang_path major : list Z) (rewrite : bool) (i : Z)
    (args : list Arg) (s : filling) : option filling :=
  match args with
  | [] => Some s
  | arg :: args =>
      s ← fill_arg self_path clang_path major rewrite (u32 (i + 1)) arg s;
      fill_args self_path clang_path major rewrite (u32 (i + 1)) args s
  end.

(** [option_name] is the name that the option table has for [OPT_frewrite_includes]. *)
Definition FillFlags (option_name : list Z) (self_path : option (list Z)) (clang_path clang_major_version : list Z)
    (rewrite_includes : bool) (arg_list : list Arg) : option Flags :=
  s ← fill_args self_path clang_path clang_major_version rewrite_includes 0 arg_list
        {| flags_ := cleared; non_direct_list := []; non_cached_list := []; other_list := [] |};
  let index := u32 (Zlen arg_list) in
  let s := if rewrite_includes then to_other {| index := index; values := [lit "-" ++ option_name] |} s else s in
  Some (set_groups (non_direct_list s) (non_cached_list s) (other_list s) rewrite_includes (flags_ s)).

(** [RenderAllArgs]; [None] is the exception of [substr(1)] on an empty string. *)
Definition RenderAllArgs (getAsString : Arg -> list Z) (args : list Arg) : option (list Z) :=
  match args ≫= fun arg => lit " " ++ getAsString arg with
  | [] => None
  | _ :: result => Some result
  end.

(** ** Lemmas: the groups *)

Inductive group := In_other | In_non_cached | In_non_direct | In_cc_only.

#[global] Instance group_eq_dec : EqDecision group.
Proof. solve_decision. Defined.

#[global] Instance target_eq_dec : EqDecision target.
Proof. solve_decision. Defined.

Section Filling.
Context (self_path : option (list Z)) (clang_path major : list Z) (rewrite : bool).

(** The rebased directory of a [To_resource] argument, when there is one. *)
Definition resource_of (arg : Arg) : option (list Z) :=
  self ← self_path; rebase self clang_path (replace_versions (lit "/lib/clang/" ++ major) (getValue arg) 0).

(** The list an argument is put into, and the words it is put there with. *)
Definition group_of (arg : Arg) : option group :=
  match classify arg with
  | To_plugin | To_other => Some In_other
  | To_non_cached | To_included => Some In_non_cached
  | To_define => Some (if rewrite then In_other else In_non_cached)
  | To_non_direct => Some In_non_direct
  | To_resource => Some (match resource_of arg with Some _ => In_non_direct | None => In_non_cached end)
  | To_cc_only => Some In_cc_only
  | _ => None
  end.

Definition words_of (arg : Arg) : list (list Z) :=
  match classify arg with
  | To_resource =>
      [getSpelling arg; default (replace_versions (lit "/lib/clang/" ++ major) (getValue arg) 0) (resource_of arg)]
  | To_cc_only => [getSpelling arg]
  | _ => render arg
  end.

Definition in_groups (gs : list group) (arg : Arg) : bool :=
  match group_of arg with Some g => bool_decide (g ∈ gs) | None => false end.

(** The words of the arguments of some groups, in the order of the command line. *)
Definition words_in (gs : list group) (args : list Arg) : list (list Z) :=
  args ≫= fun arg => if in_groups gs arg then words_of arg else [].

(** The same as numbered arguments, from [i + 1] on. *)
Fixpoint group_items (gs : list group) (i : Z) (args : list Arg) : list Argument :=
  match args with
  | [] => []
  | arg :: args =>
      (if in_groups gs arg then [{| index := i + 1; values := words_of arg |}] else [])
      ++ group_items gs (i + 1) args
  end.

Lemma fill_arg_groups i arg s s' :
  fill_arg self_path clang_path major rewrite i arg s = Some s' ->
  let item g := if in_groups [g] arg then [{| index := i; values := words_of arg |}] else [] in
  other_list s' = other_list s ++ item In_other /\ non_cached_list s' = non_cached_list s ++ item In_non_cached /\
  non_direct_list s' = non_direct_list s ++ item In_non_direct /\
  cc_only (flags_ s') = cc_only (flags_ s) ++ item In_cc_only.
Proof.
  unfold fill_arg, in_groups, words_of, group_of. destruct (classify arg) eqn:Hc;
    try (intros [= <-]; simpl; by rewrite ?app_nil_r).
  - destruct rewrite; intros [= <-]; simpl; by rewrite ?app_nil_r.
  - unfold resource_of. destruct self_path as [self|]; [| done]. cbn [mbind option_bind].
    intros [= <-]. destruct (rebase self clang_path _); simpl; by rewrite ?app_nil_r.
Qed.

Lemma fill_args_groups i args s s' :
  0 <= i -> i + Zlen args < 2 ^ 32 ->
  fill_args self_path clang_path major rewrite i args s = Some s' ->
  other_list s' = other_list s ++ group_items [In_other] i args /\
  non_cached_list s' = non_cached_list s ++ group_items [In_non_cached] i args /\
  non_direct_list s' = non_direct_list s ++ group_items [In_non_direct] i args /\
  cc_only (flags_ s') = cc_only (flags_ s) ++ group_items [In_cc_only] i args.
Proof.
  revert i s. induction args as [|arg args IH]; intros i s Hi Hn; cbn [fill_args group_items].
  - intros [= <-]. by rewrite !app_nil_r.
  - rewrite Zlen_cons in Hn. pose proof (Zlen_nonneg args). rewrite wrap_small by lia.
    intros (s1 & (H1 & H2 & H3 & H4)%fill_arg_groups & Hs)%bind_Some.
    apply IH in Hs as (K1 & K2 & K3 & K4); [| lia | lia].
    by rewrite K1, K2, K3, K4, H1, H2, H3, H4, <-!app_assoc.
Qed.

Lemma group_items_app gs i l1 l2 :
  group_items gs i (l1 ++ l2) = group_items gs i l1 ++ group_items gs (i + Zlen l1) l2.
Proof.
  revert i. induction l1 as [|arg l1 IH]; intros i; cbn [group_items app].
  - change (Zlen (@nil Arg)) with 0. by rewrite Z.add_0_r.
  - rewrite IH, Zlen_cons, <-app_assoc. do 3 f_equal. lia.
Qed.

Lemma group_items_index gs i args a : a ∈ group_items gs i args -> i < index a <= i + Zlen args.
Proof.
  revert i. induction args as [|arg args IH]; intros i; cbn [group_items]; [by intros ?%not_elem_of_nil |].
  rewrite Zlen_cons. pose proof (Zlen_nonneg args). intros [Ha | Ha%IH]%elem_of_app; [| lia].
  case_match; [| by apply not_elem_of_nil in Ha]. apply list_elem_of_singleton in Ha as ->. simpl. lia.
Qed.

Lemma group_items_sorted gs i args : StronglySorted Z.lt (index <$> group_items gs i args).
Proof.
  revert i. induction args as [|arg args IH]; intros i; cbn [group_items]; [constructor |].
  case_match; [| by apply IH]. simpl. constructor; [apply IH |].
  apply Forall_fmap, Forall_forall. intros a Ha%group_items_index. simpl. lia.
Qed.

Lemma in_groups_cons g gs arg :
  g ∉ gs ->
  in_groups (g :: gs) arg = in_groups [g] arg || in_groups gs arg /\ in_groups [g] arg && in_groups gs arg = false.
Proof.
  intros Hg. unfold in_groups. destruct (group_of arg) as [h|]; [| done]. destruct (decide (h = g)) as [-> | Hne].
  - rewrite !bool_decide_true by left. by rewrite bool_decide_false.
  - rewrite (bool_decide_false (h ∈ [g])) by (by rewrite list_elem_of_singleton). split; [| done].
    apply bool_decide_ext. rewrite elem_of_cons. tauto.
Qed.

Lemma group_items_cons g gs i args :
  g ∉ gs -> group_items [g] i args ++ group_items gs i args ≡ₚ group_items (g :: gs) i args.
Proof.
  intros Hg. revert i. induction args as [|arg args IH]; intros i; cbn [group_items]; [done |].
  rewrite <-(IH (i + 1)). destruct (in_groups_cons g gs arg Hg) as [-> Hex].
  destruct (in_groups [g] arg), (in_groups gs arg); simpl; [done | done | | done].
  by rewrite <-Permutation_middle.
Qed.

Lemma group_items_nil i args : group_items [] i args = [].
Proof.
  revert i. induction args as [|arg args IH]; intros i; [done |]. cbn [group_items]. rewrite IH.
  unfold in_groups. destruct (group_of arg); [| done]. by rewrite bool_decide_false by apply not_elem_of_nil.
Qed.

Lemma group_items_perm gs i args :
  NoDup gs -> concat (map (fun g => group_items [g] i args) gs) ≡ₚ group_items gs i args.
Proof.
  induction 1 as [|g gs Hg _ IH]; simpl; [by rewrite group_items_nil |]. rewrite IH. by apply group_items_cons.
Qed.

Lemma group_items_words gs i args : group_items gs i args ≫= values = words_in gs args.
Proof.
  unfold words_in. revert i. induction args as [|arg args IH]; intros i; cbn [group_items]; [done |].
  rewrite bind_app, IH. cbn [mbind list_bind]. f_equal. case_match; simpl; by rewrite ?app_nil_r.
Qed.

(** A sorted multimap of the groups gives the words in the order of the command
    line. *)
Lemma groups_in_order gs args :
  NoDup gs -> CreateArgumentList (map (fun g => group_items [g] 0 args) gs) = words_in gs args.
Proof.
  intros Hg. rewrite (CreateArgumentList_eq _ (group_items gs 0 args)).
  - apply group_items_words.
  - by apply group_items_perm.
  - apply group_items_sorted.
Qed.

(** One argument is in at most one group. *)
Lemma group_items_one gs k a :
  NoDup gs -> concat (map (fun g => group_items [g] k [a]) gs) = group_items gs k [a].
Proof.
  intros Hg. pose proof (group_items_perm gs k [a] Hg) as Hp.
  assert (group_items gs k [a] = if in_groups gs a then [{| index := k + 1; values := words_of a |}] else []) as Hone
    by (cbn [group_items]; by rewrite app_nil_r).
  rewrite Hone in *. destruct (in_groups gs a).
  - by apply Permutation_singleton_r in Hp.
  - by apply Permutation_nil_r in Hp.
Qed.

(** The same with one more argument that has the number of the last one. *)
Lemma groups_with_last gs args a extra :
  NoDup (In_other :: gs) -> index extra = Zlen (args ++ [a]) ->
  CreateArgumentList ((group_items [In_other] 0 (args ++ [a]) ++ [extra])
                      :: map (fun g => group_items [g] 0 (args ++ [a])) gs)
  = words_in (In_other :: gs) args
    ++ words_in [In_other] [a] ++ values extra ++ words_in gs [a].
Proof.
  intros [Ho Hg]%NoDup_cons Hi. rewrite Zlen_app in Hi. change (Zlen [a]) with 1 in Hi.
  set (n := Zlen args) in *. set (l0 := group_items (In_other :: gs) 0 args).
  rewrite (CreateArgumentList_stable _ (l0 ++ group_items [In_other] n [a] ++ [extra] ++ group_items gs n [a])).
  { unfold l0. rewrite !bind_app, !group_items_words. cbn [mbind list_bind]. by rewrite app_nil_r. }
  - assert (forall gs2 b, b ∈ group_items gs2 n [a] -> index b = n + 1) as Hone.
    { intros gs2 b Hb%group_items_index. change (Zlen [a]) with 1 in Hb. lia. }
    assert (Forall (fun b => index b = n + 1) (group_items [In_other] n [a] ++ [extra] ++ group_items gs n [a])) as Hlast.
    { rewrite !Forall_app. split_and!; [apply Forall_forall; apply Hone | by constructor | apply Forall_forall; apply Hone]. }
    assert (forall b, b ∈ l0 -> index b <= n) as Hl0 by (intros b Hb%group_items_index; fold n in Hb; lia).
    pose proof (strongly_sorted_le _ (group_items_sorted (In_other :: gs) 0 args)) as Hs. fold l0 in Hs.
    revert Hlast Hl0 Hs. generalize (group_items [In_other] n [a] ++ [extra] ++ group_items gs n [a]). clear.
    intros last Hlast. induction l0 as [|b l IH]; intros Hl Hs.
    + simpl. induction Hlast as [|c last Hc Hlast IH]; [constructor |]. simpl. constructor; [done |].
      apply Forall_fmap. eapply Forall_impl; [exact Hlast |]. simpl. lia.
    + simpl in *. apply StronglySorted_inv in Hs as [Hs Hb]. constructor; [apply IH; [set_solver | done] |].
      rewrite fmap_app, Forall_app. split; [done |]. apply Forall_fmap. eapply Forall_impl; [exact Hlast |].
      simpl. intros c ->. specialize (Hl b ltac:(left)). lia.
  - intros i. cbn [concat]. rewrite !filter_app.
    assert (concat (map (fun g => group_items [g] 0 (args ++ [a])) gs)
            = concat (map (fun g => group_items [g] 0 args ++ group_items [g] n [a]) gs)) as Hcat.
    { f_equal. apply map_ext. intros g. by rewrite group_items_app. }
    rewrite Hcat, group_items_app. change (0 + Zlen args) with n. rewrite filter_app.
    assert (forall gs2 b, b ∈ group_items gs2 n [a] -> index b = n + 1) as Hone.
    { intros gs2 b Hb%group_items_index. change (Zlen [a]) with 1 in Hb. lia. }
    assert (forall gs2 b, b ∈ group_items gs2 0 args -> index b <= n) as Hbelow
      by (intros gs2 b Hb%group_items_index; fold n in Hb; lia).
    pose proof (group_items_one gs n a Hg) as Hlast. pose proof (group_items_perm gs 0 args Hg) as Hperm.
    pose proof (group_items_cons In_other gs 0 args Ho) as Hcons. fold l0 in Hcons.
    assert (filter (fun b => index b = i) (concat (map (fun g => group_items [g] 0 args ++ group_items [g] n [a]) gs))
            = if decide (i = n + 1) then filter (fun b => index b = i) (group_items gs n [a])
              else filter (fun b => index b = i) (concat (map (fun g => group_items [g] 0 args) gs))) as ->.
    { rewrite <-Hlast. clear -Hone Hbelow. case_decide as Hi.
      - induction gs as [|g gs IH]; [done |]. cbn [map concat]. rewrite !filter_app, IH.
        rewrite (filter_none _ (group_items [g] 0 args)); [done |]. intros b Hb. specialize (Hbelow _ _ Hb). lia.
      - induction gs as [|g gs IH]; [done |]. cbn [map concat]. rewrite !filter_app, IH.
        rewrite (filter_none _ (group_items [g] n [a])); [by rewrite app_nil_r |].
        intros b Hb. rewrite (Hone _ _ Hb). lia. }
    case_decide as Hin.
    + rewrite (filter_none _ (group_items [In_other] 0 args)) by (intros b Hb; specialize (Hbelow _ _ Hb); lia).
      rewrite (filter_none _ l0) by (intros b Hb; specialize (Hbelow _ _ Hb); lia). simpl. by rewrite <-app_assoc.
    + rewrite (filter_none _ (group_items [In_other] n [a])) by (intros b Hb; rewrite (Hone _ _ Hb); lia).
      rewrite (filter_none _ (group_items gs n [a])) by (intros b Hb; rewrite (Hone _ _ Hb); lia).
      rewrite (filter_none _ [extra]) by (intros b ->%list_elem_of_singleton; lia). rewrite !app_nil_r, <-filter_app.
      apply filter_index_unique; [apply group_items_sorted |]. by rewrite Hperm, Hcons.
Qed.

(** ** Lemmas: the other fields *)

(** The last of some values, or else an older one. *)
Definition latest {A} (old : option A) (l : list A) : option A :=
  match last l with Some v => Some v | None => old end.

Lemma latest_cons {A} (old : option A) x l : latest old (x :: l) = latest (Some x) l.
Proof. unfold latest. rewrite last_cons. by destruct (last l). Qed.

(** The values of the arguments of one kind. *)
Definition values_for (t : target) (f : Arg -> list Z) (args : list Arg) : list (list Z) :=
  f <$> filter (fun arg => classify arg = t) args.

Record fields_of (args : list Arg) (f f' : Flags) : Prop := {
  fo_input : input f' = latest (input f) (values_for To_input getValue args);
  fo_action : Some (action f') = latest (Some (action f)) (values_for To_action getSpelling args);
  fo_output : output f' = latest (output f) (values_for To_output getValue args);
  fo_deps : deps_file f' = latest (deps_file f) (values_for To_deps_file getValue args);
  fo_language : language f' = latest (language f) (values_for To_language getValue args);
  fo_blacklist : sanitize_blacklist f' = latest (sanitize_blacklist f) (values_for To_blacklist getValue args);
  fo_included : included_files f' = included_files f ++ values_for To_included getValue args;
  fo_plugins : plugins (compiler f')
    = plugins (compiler f) ++ map (fun n => {| plugin_name := n; plugin_path := None |}) (values_for To_plugin getValue args)
}.

Lemma fill_args_fields i args s s' :
  fill_args self_path clang_path major rewrite i args s = Some s' -> fields_of args (flags_ s) (flags_ s').
Proof.
  revert i s. induction args as [|arg args IH]; intros i s; cbn [fill_args].
  - intros [= <-]. constructor; unfold values_for; simpl; by rewrite ?app_nil_r.
  - intros (s1 & H1 & H2)%bind_Some. apply IH in H2 as [F1 F2 F3 F4 F5 F6 F7 F8]. clear IH.
    constructor; rewrite ?F1, ?F2, ?F3, ?F4, ?F5, ?F6, ?F7, ?F8; clear F1 F2 F3 F4 F5 F6 F7 F8;
      unfold values_for; rewrite filter_cons; case_decide as Ht;
      unfold fill_arg in H1; destruct (classify arg); try congruence;
      try (injection H1 as <-); rewrite ?fmap_cons, ?latest_cons; simpl; rewrite <-?app_assoc; try done;
      try (by destruct rewrite);
      (destruct self_path; [| done]; cbn [mbind option_bind] in H1; injection H1 as <-; by destruct (rebase _ _ _)).
Qed.

Lemma fill_args_total i args s :
  fill_args self_path clang_path major rewrite i args s = None <->
  self_path = None /\ exists arg, arg ∈ args /\ classify arg = To_resource.
Proof.
  revert i s. induction args as [|arg args IH]; intros i s; cbn [fill_args].
  - split; [done |]. by intros (_ & arg & Hin%not_elem_of_nil & _).
  - destruct (fill_arg self_path clang_path major rewrite (u32 (i + 1)) arg s) as [s1|] eqn:H1; cbn [mbind option_bind].
    + rewrite IH. split; intros [Hs (a & Hin & Ha)]; (split; [done |]).
      * exists a. split; [by right | done].
      * apply elem_of_cons in Hin as [-> | Hin]; [| by exists a]. unfold fill_arg in H1. by rewrite Ha, Hs in H1.
    + split; [intros _ | done]. unfold fill_arg in H1.
      destruct (classify arg) eqn:Hc; try done. destruct self_path; [done |]. split; [done |].
      exists arg. split; [left | done].
Qed.

End Filling.

(** ** Properties *)

(** The words of the groups when [-frewrite-includes], which has the number of the
    last argument, is added to the first group. *)
Definition words_with_rewrite (self_path : option (list Z)) (clang_path major option_name : list Z) (gs : list group)
    (args : list Arg) (a : Arg) : list (list Z) :=
  words_in self_path clang_path major true (In_other :: gs) args
  ++ words_in self_path clang_path major true [In_other] [a] ++ [lit "-" ++ option_name]
  ++ words_in self_path clang_path major true gs [a].

Definition with_cc_only (l : list Argument) (f : Flags) : Flags :=
  {| compiler := compiler f; output := output f; input := input f; other := other f; deps_file := deps_file f;
     language := language f; non_cached := non_cached f; cc_only := l; action := action f;
     non_direct := non_direct f; sanitize_blacklist := sanitize_blacklist f;
     included_files := included_files f; rewrite_includes := rewrite_includes f |}.

(** The three lists of words that the daemons make from the flags of a request. *)
Definition process_list (f : Flags) : list (list Z) := CreateArgumentList [other f; non_cached f; non_direct f].
Definition simple_list (f : Flags) : list (list Z) := CreateArgumentList [other f; cc_only f].
Definition direct_list (f : Flags) : list (list Z) := CreateArgumentList [other f; cc_only f; non_cached f].

(** C9: a request holds the client's command line.  [FillFlags] fails only when the
    client's own path is needed and unknown.  The input, action, output and the
    other single values are those of the last argument of their kind.  The
    words the daemons make from the groups are the words of the original command
    line, in its order (of fewer than 2^32 arguments): the compiler gets the groups
    [other], [non_cached] (include paths and macros) and [non_direct]; the key of the
    simple cache has [other] and [cc_only], the key of the direct cache also has
    [non_cached].  With rewritten includes the groups are the same, macros are in
    [other], and the one extra option is at the last argument.  So [cc_only] is in both keys but never passed to the
    compiler, although the comment on the groups in base.proto says that compilation
    uses all flags. *)
Theorem FillFlags_arguments (option_name : list Z) (self_path : option (list Z)) (clang_path major : list Z)
    (rewrite : bool) (arg_list : list Arg) :
  (FillFlags option_name self_path clang_path major rewrite arg_list = None <->
   self_path = None /\ exists arg, arg ∈ arg_list /\ classify arg = To_resource) /\
  forall flags, FillFlags option_name self_path clang_path major rewrite arg_list = Some flags ->
    Zlen arg_list < 2 ^ 32 ->
    fields_of arg_list cleared flags /\
    (forall user_id cwd, args (CreateProcess flags user_id cwd)
       = process_list flags ++ args (CreateProcess (set_groups [] [] [] rewrite flags) user_id cwd)) /\
    (forall l user_id cwd, CreateProcess (with_cc_only l flags) user_id cwd = CreateProcess flags user_id cwd) /\
    (rewrite = false ->
     let words gs := words_in self_path clang_path major false gs arg_list in
     process_list flags = words [In_other; In_non_cached; In_non_direct] /\
     simple_list flags = words [In_other; In_cc_only] /\
     direct_list flags = words [In_other; In_cc_only; In_non_cached]) /\
    (rewrite = true -> forall args0 a, arg_list = args0 ++ [a] ->
     let words gs := words_with_rewrite self_path clang_path major option_name gs args0 a in
     process_list flags = words [In_non_cached; In_non_direct] /\
     simple_list flags = words [In_cc_only] /\
     direct_list flags = words [In_cc_only; In_non_cached]).
Proof.
  unfold FillFlags. split.
  - set (s0 := {| flags_ := cleared |}). rewrite <-(fill_args_total self_path clang_path major rewrite 0 arg_list s0).
    by destruct (fill_args _ _ _ _ _ _ s0).
  - intros flags (s & Hs & [= <-])%bind_Some Hn.
    pose proof (fill_args_fields _ _ _ _ _ _ _ _ Hs) as Hfields.
    apply fill_args_groups in Hs as (H1 & H2 & H3 & H4); [| lia | lia]. cbn [app other_list non_cached_list non_direct_list flags_ cleared cc_only] in *.
    split; [| split; [done | split; [done | split]]].
    + destruct Hfields as [F1 F2 F3 F4 F5 F6 F7 F8]. by destruct rewrite; constructor.
    + intros ->. unfold process_list, simple_list, direct_list. cbn [set_groups other non_cached non_direct cc_only].
      rewrite H1, H2, H3, H4. split_and!.
      * apply (groups_in_order _ _ _ _ [In_other; In_non_cached; In_non_direct]). repeat constructor; set_solver.
      * apply (groups_in_order _ _ _ _ [In_other; In_cc_only]). repeat constructor; set_solver.
      * apply (groups_in_order _ _ _ _ [In_other; In_cc_only; In_non_cached]). repeat constructor; set_solver.
    + intros -> args0 a ->. unfold process_list, simple_list, direct_list, words_with_rewrite.
      cbn [set_groups other non_cached non_direct cc_only to_other other_list non_cached_list non_direct_list flags_].
      rewrite H1, H2, H3, H4. rewrite wrap_small by (split; [apply Zlen_nonneg | done]).
      set (extra := {| index := Zlen (args0 ++ [a]); values := [lit "-" ++ option_name] |}). split_and!.
      * apply (groups_with_last _ _ _ _ [In_non_cached; In_non_direct] args0 a extra); [repeat constructor; set_solver | done].
      * apply (groups_with_last _ _ _ _ [In_cc_only] args0 a extra); [repeat constructor; set_solver | done].
      * apply (groups_with_last _ _ _ _ [In_cc_only; In_non_cached] args0 a extra); [repeat constructor; set_solver | done].
Qed.

(** ** A concrete command line *)

Definition option_arg (ids : list option_id) (value spelling : list Z) (words : list (list Z)) : Arg :=
  {| input_class := false; matches := fun id => match ids with [i] => match i, id with
       | OPT_I, OPT_I | OPT_D, OPT_D | OPT_emit_obj, OPT_emit_obj | OPT_o, OPT_o | OPT_resource_dir, OPT_resource_dir
       | OPT_mrelax_all, OPT_mrelax_all => true | _, _ => false end | _ => false end;
     getValue := value; getSpelling := spelling; render := words |}.

Definition input_arg (p : list Z) : Arg :=
  {| input_class := true; matches := fun _ => false; getValue := p; getSpelling := []; render := [p] |}.

Definition command_line : list Arg :=
  [option_arg [] [] (lit "-cc1") [lit "-cc1"];
   option_arg [OPT_emit_obj] [] (lit "-emit-obj") [lit "-emit-obj"];
   option_arg [OPT_resource_dir] (lit "/opt/dist/../lib/clang/3.9.1") (lit "-resource-dir")
     [lit "-resource-dir"; lit "/opt/dist/../lib/clang/3.9.1"];
   option_arg [OPT_D] (lit "N=1") (lit "-D") [lit "-D"; lit "N=1"];
   option_arg [] [] (lit "-O2") [lit "-O2"];
   option_arg [OPT_I] (lit "inc") (lit "-I") [lit "-I"; lit "inc"];
   option_arg [OPT_o] (lit "a.o") (lit "-o") [lit "-o"; lit "a.o"];
   input_arg (lit "a.cc")].

Definition filled (rewrite : bool) : Flags :=
  default cleared (FillFlags (lit "frewrite-includes") (Some (lit "/opt/dist")) (lit "/usr/bin/clang") (lit "4.0.0")
                     rewrite command_line).

Lemma FillFlags_arguments_witness :
  process_list (filled false)
  = [lit "-cc1"; lit "-resource-dir"; lit "/usr/bin/../lib/clang/4.0.0"; lit "-D"; lit "N=1"; lit "-O2"; lit "-I"; lit "inc"] /\
  simple_list (filled false) = [lit "-cc1"; lit "-O2"] /\ input (filled false) = Some (lit "a.cc").
Proof.
  destruct (FillFlags_arguments (lit "frewrite-includes") (Some (lit "/opt/dist")) (lit "/usr/bin/clang") (lit "4.0.0")
              false command_line) as [_ H].
  destruct (H (filled false)) as (Hf & _ & _ & Hw & _); [vm_compute; reflexivity | vm_compute; reflexivity |].
  destruct (Hw eq_refl) as (-> & -> & _). rewrite (fo_input _ _ _ Hf).
  split; [vm_compute; reflexivity | split; vm_compute; reflexivity].
Defined.
