(* ===== verification/ClientRun.v ===== *)
(** A run of the client: the commands of a compiler invocation
    ([src/src/client/command.cc], [driver_command.cc], [clean_command.cc]) and
    [DoMain] ([clang.cc]), which hands them to the daemon one by one.

    Clang's driver, which splits an invocation into jobs, and its option tables
    are arguments; so are the answers of processes and of the connection. *)

From S2P Require Import Prelude StringUtils Messages CommandLines ClangCommand.

#[local] Open Scope Z_scope.

(** ** Commands *)

(** [Action::ActionClass] of a job. *)
Inductive source_kind := AssembleJob | BackendJob | PreprocessJob | CompileJob | OtherJob.

Record Job := { kind : source_kind; executable : list Z; arguments : list (list Z) }.
Record Compilation := { jobs : list Job; temp_files : list (list Z) }.

(** [ClangCommand], [DriverCommand] with its [clang_], [CleanCommand]. *)
Inductive Command :=
| Clang (args : list Arg)
| Driver (job : Job) (clang_ : option (list Arg))
| Clean (files : list (list Z)).

Definition rm_path : list Z := lit "/bin/rm".

Definition CanFillFlags (c : Command) : bool :=
  match c with
  | Clang _ => true
  | Driver _ clang_ => match clang_ with Some _ => true | None => false end
  | Clean _ => false
  end.

(** [None] is a failed CHECK. *)
Definition CreateProcess (c : Command) (current_dir : list Z) (user_id : Z) : option Process :=
  match c with
  | Clang _ | Driver _ (Some _) => None
  | Driver job None =>
      Some {| exec_path := executable job; cwd_path := current_dir; uid := user_id; args := arguments job |}
  | Clean files => Some {| exec_path := rm_path; cwd_path := current_dir; uid := user_id; args := files |}
  end.

(** The arguments [FillFlags] works on. *)
Definition clang_args (c : Command) : list Arg :=
  match c with Clang args | Driver _ (Some args) => args | _ => [] end.

(** [regex_match(path, ".*/?clang(\+\+)?")]; the dot matches no line break. *)
Definition line_break (c : Z) : bool := (c =? 10) || (c =? 13).
Definition is_clang (path : list Z) : bool :=
  existsb (fun name => bool_decide (name `suffix_of` path)
                       && negb (existsb line_break (take (length path - length name) path)))
    [lit "clang"; lit "clang++"].

Definition compiles (k : source_kind) : bool := match k with OtherJob => false | _ => true end.

(** The loop over the jobs; [None] is the early [return false]. *)
Fixpoint generate_jobs (parse : list (list Z) -> list Arg) (error_occurred : bool) (l : list Job) (result : bool)
    (commands : list Command) : option (bool * list Command) :=
  match l with
  | [] => Some (result, commands)
  | job :: l =>
      if negb (compiles (kind job)) || negb (is_clang (executable job)) then
        generate_jobs parse error_occurred l result (commands ++ [Driver job None])
      else if error_occurred then None
      else generate_jobs parse error_occurred l true (commands ++ [Driver job (Some (parse (arguments job)))])
  end.

(** [GenerateFromArgs]; [inl] is a returned [false].  [driver] is what the driver
    makes of the arguments and whether it found an error.  [None] is the read of
    [argv[1]] past the end. *)
Definition GenerateFromArgs (parse : list (list Z) -> list Arg) (driver : list (list Z) -> option Compilation * bool)
    (argv : list (list Z)) : option (unit + list Command) :=
  match argv with
  | path :: first_arg :: _ =>
      if bool_decide (first_arg = lit "-cc1") && is_clang path then Some (inr [Clang (parse (tail argv))])
      else
        let '(compilation, error_occurred) := driver argv in
        match compilation with
        | None => Some (inl tt)
        | Some c =>
            match generate_jobs parse error_occurred (jobs c) false [] with
            | None | Some (false, _) => Some (inl tt)
            | Some (true, commands) =>
                Some (inr (match temp_files c with [] => commands | files => commands ++ [Clean files] end))
            end
        end
  | _ => None
  end.

(** ** [DoMain] *)

Record settings := {
  clang_path : list Z;
  version : list Z;
  plugin_paths : gmap (list Z) (list Z);
  disabled_ : bool;
  rewrite : bool
}.

(** What the system answers.  The process or the exchange of the [i]th command is
    at [i]: whether the process succeeds, whether the message can be sent, and
    what is read, [None] for a failed read, [Some None] without a status. *)
Record world := {
  cwd : list Z;                              (* empty when it cannot be told *)
  getuid : Z;
  self_path : option (list Z);
  parse : list (list Z) -> list Arg;
  driver : list (list Z) -> option Compilation * bool;
  option_name : list Z;
  clang_version_string : list Z;             (* [CLANG_VERSION_STRING] *)
  connects : bool;
  version_output : option (list Z);          (* of [clang --version] *)
  process_ok : nat -> bool;
  sent_ok : nat -> bool;
  answer : nat -> option (option Status)
}.

Inductive action_ := Ran (p : Process) | Sent (m : Local_).

(** [Fallback] is the returned [true], after which the caller starts the original
    compiler; [Exits] is the [exit(1)] of a fatal message. *)
Inductive outcome := Fallback | Done | Exits (text : list Z).

(** [regex_search(version, "clang version (\d+\.\d+\.\d+)")] on the characters
    before the first null: the group of the leftmost match. *)
Fixpoint search_version (s : list Z) : option (list Z) :=
  match text_version_len (lit "clang version ") s with
  | Some n => Some (drop (length (lit "clang version ")) (take n s))
  | None => match s with [] => None | _ :: s => search_version s end
  end.

Definition major_version (w : world) (v : list Z) : list Z :=
  default (clang_version_string w) (search_version (until_nul v)).

Definition version_process (s : settings) : Process :=
  {| exec_path := clang_path s; cwd_path := []; uid := SAME_UID; args := [lit "--version"] |}.

(** The version, asked from the compiler when it is not configured; [None] is the
    early [return true]. *)
Definition get_version (s : settings) (w : world) : list action_ * option (list Z) :=
  match version s with
  | [] =>
      ([Ran (version_process s)],
       output ← version_output w;
       lines ← SplitString_nl output [];
       if (length lines <? 3)%nat then None else head lines)
  | v => ([], Some v)
  end.

Definition fill_plugin (paths : gmap (list Z) (list Z)) (p : Plugin) : Plugin :=
  match paths !! plugin_name p with
  | Some path => {| plugin_name := plugin_name p; plugin_path := Some path |}
  | None => p
  end.

Definition with_compiler (s : settings) (v : list Z) (f : Flags) : Flags :=
  set_compiler {| compiler_version := v; compiler_path := Some (clang_path s);
                  plugins := map (fill_plugin (plugin_paths s)) (plugins (compiler f)) |} f.

(** One turn of the loop; the outcome is [None] when the loop goes on. *)
Definition handle_command (s : settings) (w : world) (v : list Z) (i : nat) (c : Command)
    : option (list action_ * option outcome) :=
  if negb (CanFillFlags c) then
    p ← CreateProcess c (cwd w) (getuid w);
    Some ([Ran p], if process_ok w i then None else Some Fallback)
  else
    match FillFlags (option_name w) (self_path w) (clang_path s) (major_version w v) (rewrite s) (clang_args c) with
    | None => Some ([], Some Fallback)
    | Some flags =>
        match action flags with
        | [] => Some ([], Some Fallback)
        | _ =>
            if decide (str (input flags) = lit "-") then Some ([], Some Fallback)
            else
              let message := {| local_flags := with_compiler s v flags; current_dir := cwd w;
                                user_id := Some (getuid w) |} in
              Some ([Sent message],
                if negb (sent_ok w i) then Some Fallback
                else match answer w i with
                     | None | Some None => Some Fallback
                     | Some (Some status) =>
                         match code status with
                         | OK => None
                         | EXECUTION => Some (Exits (str (description status)))
                         | _ => Some Fallback
                         end
                     end)
        end
    end.

Fixpoint handle_commands (s : settings) (w : world) (v : list Z) (i : nat) (l : list Command)
    : option (list action_ * outcome) :=
  match l with
  | [] => Some ([], Done)
  | c :: l =>
      '(actions, o) ← handle_command s w v i c;
      match o with
      | Some o => Some (actions, o)
      | None => '(rest, o) ← handle_commands s w v (S i) l; Some (actions ++ rest, o)
      end
  end.

Definition DoMain (s : settings) (w : world) (argv : list (list Z)) : option (list action_ * outcome) :=
  if bool_decide (clang_path s = []) || disabled_ s then Some ([], Fallback)
  else if bool_decide (cwd w = []) then Some ([], Fallback)
  else
    commands ← GenerateFromArgs (parse w) (driver w) argv;
    match commands with
    | inl _ => Some ([], Fallback)
    | inr commands =>
        if negb (connects w) then Some ([], Fallback)
        else
          match get_version s w with
          | (actions, None) => Some (actions, Fallback)
          | (actions, Some v) => '(rest, o) ← handle_commands s w v 0 commands; Some (actions ++ rest, o)
          end
    end.

(** ** What a run does *)

Section Run.
Context (s : settings) (w : world) (v : list Z).

(** The message a command is sent as. *)
Definition request (c : Command) : option Local_ :=
  flags ← FillFlags (option_name w) (self_path w) (clang_path s) (major_version w v) (rewrite s) (clang_args c);
  if decide (action flags = [] \/ str (input flags) = lit "-") then None
  else Some {| local_flags := with_compiler s v flags; current_dir := cwd w; user_id := Some (getuid w) |}.

Definition action_of (c : Command) : option action_ :=
  if CanFillFlags c then Sent <$> request c else Ran <$> CreateProcess c (cwd w) (getuid w).

Definition succeeded (i : nat) (c : Command) : Prop :=
  if CanFillFlags c then sent_ok w i = true /\ exists status, answer w i = Some (Some status) /\ code status = OK
  else process_ok w i = true.

(** The daemon could not compile the [i]th command. *)
Definition refused (i : nat) (c : Command) (text : list Z) : Prop :=
  CanFillFlags c = true /\ sent_ok w i = true /\
  exists status, answer w i = Some (Some status) /\ code status = EXECUTION /\ str (description status) = text.

Definition turn_ok (i : nat) (c : Command) (o : option outcome) : Prop :=
  match o with
  | None => is_Some (action_of c) /\ succeeded i c
  | Some Done => False
  | Some (Exits text) => is_Some (action_of c) /\ refused i c text
  | Some Fallback => ~ (is_Some (action_of c) /\ (succeeded i c \/ exists text, refused i c text))
  end.

Lemma handle_command_ok i c :
  exists o, handle_command s w v i c = Some (option_list (action_of c), o) /\ turn_ok i c o.
Proof.
  unfold handle_command, turn_ok, action_of, succeeded, refused.
  destruct (CanFillFlags c) eqn:Hc; cbn [negb].
  - unfold request. destruct (FillFlags _ _ _ _ _ _) as [flags|]; cbn [mbind option_bind];
      [| eexists; split; [done |]; intros [[? [=]] _]].
    destruct (action flags) as [|ch a] eqn:Ha.
    { rewrite decide_True by (by left). eexists. split; [done |]. intros [[? [=]] _]. }
    destruct (decide (str (input flags) = lit "-")) as [Hi | Hi].
    { rewrite decide_True by (by right). eexists. split; [done |]. intros [[? [=]] _]. }
    rewrite decide_False by (by intros [? | ?]). eexists. split; [done |]. cbn [fmap option_fmap option_map].
    destruct (sent_ok w i); cbn [negb]; [| intros (_ & [[[=] _] | (t & _ & [=] & _)])].
    destruct (answer w i) as [[status|]|];
      [| intros (_ & [(_ & ? & [=] & _) | (? & _ & _ & ? & [=] & _)]) ..].
    destruct (code status) eqn:Hcode;
      try (intros (_ & [(_ & ? & [= <-] & ?) | (? & _ & _ & ? & [= <-] & ? & _)]); congruence).
    + split; [by eexists |]. split; [done | by exists status].
    + split; [by eexists |]. split_and!; [done | done | by exists status].
  - assert (exists p, CreateProcess c (cwd w) (getuid w) = Some p) as [p ->]
      by (destruct c as [| ? []|]; simpl in *; [done | done | by eexists | by eexists]).
    cbn [mbind option_bind fmap option_fmap option_map]. eexists. split; [done |].
    destruct (process_ok w i); [split; [by eexists | done] |]. intros (_ & [[=] | (? & [=] & _)]).
Qed.

Lemma handle_commands_ok i l :
  exists acts o done_ rest, handle_commands s w v i l = Some (acts, o) /\ l = done_ ++ rest /\
    acts = omap action_of (done_ ++ take 1 rest) /\
    (forall k c, done_ !! k = Some c -> is_Some (action_of c) /\ succeeded (i + k) c) /\
    match rest with [] => o = Done | c :: _ => turn_ok (i + length done_) c (Some o) end.
Proof.
  revert i. induction l as [|c l IH]; intros i; cbn [handle_commands].
  - by exists [], Done, [], [].
  - destruct (handle_command_ok i c) as (o & -> & Ho). cbn [mbind option_bind].
    destruct o as [o|].
    + exists (option_list (action_of c)), o, [], (c :: l). simpl. rewrite Nat.add_0_r. split_and!; [done | done | | done | done].
      unfold action_of. by destruct (if CanFillFlags c then _ else _).
    + destruct (IH (S i)) as (acts & o & done_ & rest & -> & -> & -> & Hd & Hr). cbn [mbind option_bind].
      do 2 eexists. exists (c :: done_), rest. split; [done |]. split; [done |]. split_and!.
      * destruct Ho as [[a Ha] _]. cbn [app omap list_omap]. by rewrite Ha.
      * intros [|k] c' Hk; simpl in Hk; [injection Hk as <-; by rewrite Nat.add_0_r |].
        rewrite Nat.add_succ_r. by apply (Hd k).
      * simpl. by rewrite Nat.add_succ_r.
Qed.

End Run.

(** ** Lemmas: the commands *)

Lemma generate_jobs_clang prs e l r cs cs' :
  (r = true -> exists c, c ∈ cs /\ CanFillFlags c = true) ->
  generate_jobs prs e l r cs = Some (true, cs') -> exists c, c ∈ cs' /\ CanFillFlags c = true.
Proof.
  revert r cs. induction l as [|job l IH]; intros r cs Hr; cbn [generate_jobs].
  - intros [= -> <-]. by apply Hr.
  - destruct (negb _ || _); [apply IH | destruct e; [done | apply IH]].
    + intros (c & Hc & ?)%Hr. exists c. rewrite elem_of_app. split; [by left | done].
    + intros _. eexists. rewrite elem_of_app, list_elem_of_singleton. split; [by right | done].
Qed.

Lemma GenerateFromArgs_clang prs drv argv cs :
  GenerateFromArgs prs drv argv = Some (inr cs) -> exists c, c ∈ cs /\ CanFillFlags c = true.
Proof.
  unfold GenerateFromArgs. destruct argv as [|path [|first_arg argv]]; [done | done |].
  case_match; [intros [= <-]; eexists; by rewrite list_elem_of_singleton |].
  destruct (drv _) as [[c|] e]; [| done].
  destruct (generate_jobs prs e (jobs c) false []) as [[[] cs']|] eqn:Hg; [| done | done].
  apply generate_jobs_clang in Hg as (x & Hx & ?); [| done].
  intros [= <-]. exists x. split; [| done]. destruct (temp_files c); [done | rewrite elem_of_app; by left].
Qed.

Lemma GenerateFromArgs_none prs drv argv :
  GenerateFromArgs prs drv argv = None <-> (length argv < 2)%nat.
Proof.
  unfold GenerateFromArgs. destruct argv as [|path [|first_arg argv]]; simpl; [split; [lia | done] .. |].
  split; [| lia]. case_match; [done |]. destruct (drv _) as [[c|] e]; [| done].
  by destruct (generate_jobs prs e (jobs c) false []) as [[[] ?]|].
Qed.

(** The lines of a text have characters. *)
Lemma get_version_nonempty s w acts v : get_version s w = (acts, Some v) -> v <> [].
Proof.
  unfold get_version. destruct (version s) as [|z l] eqn:Hv; [| by intros [= <- <-]].
  intros [= <- Hg]. apply bind_Some in Hg as (o & _ & Hg). apply bind_Some in Hg as (lines & Hl & Hg).
  case_match; [done |]. destruct lines as [|x lines]; [done |]. injection Hg as ->.
  rewrite SplitString_nl_eq in Hl. injection Hl as Hl.
  assert (v ∈ filter nonempty (fields [10] o)) as Hin by (rewrite Hl; left).
  by apply list_elem_of_filter in Hin as [Hne _].
Qed.

Lemma action_of_sent s w v c m :
  action_of s w v c = Some (Sent m) ->
  current_dir m = cwd w /\ user_id m = Some (getuid w) /\ action (local_flags m) <> [] /\
  str (input (local_flags m)) <> lit "-" /\ compiler_version (compiler (local_flags m)) = v /\
  compiler_path (compiler (local_flags m)) = Some (clang_path s).
Proof.
  unfold action_of. destruct (CanFillFlags c); [| by destruct (CreateProcess c (cwd w) (getuid w))].
  intros (m' & Hr & [= <-])%fmap_Some. unfold request in Hr. apply bind_Some in Hr as (f & _ & Hr).
  destruct (decide _) as [| Hn]; [done |]. injection Hr as <-. simpl. split_and!; try done; intros ?; apply Hn; tauto.
Qed.

(** The reasons to start the original compiler at once. *)
Definition unusable (s : settings) (w : world) (argv : list (list Z)) : Prop :=
  clang_path s = [] \/ disabled_ s = true \/ cwd w = [] \/
  GenerateFromArgs (parse w) (driver w) argv = Some (inl tt) \/ connects w = false \/ (get_version s w).2 = None.

Lemma DoMain_cases s w argv acts o :
  DoMain s w argv = Some (acts, o) ->
  (o = Fallback /\ unusable s w argv /\ (acts = [] \/ acts = (get_version s w).1)) \/
  (clang_path s <> [] /\ disabled_ s = false /\ cwd w <> [] /\ exists commands v rest,
     GenerateFromArgs (parse w) (driver w) argv = Some (inr commands) /\ (get_version s w).2 = Some v /\
     handle_commands s w v 0 commands = Some (rest, o) /\ acts = (get_version s w).1 ++ rest).
Proof.
  unfold DoMain, unusable. destruct (bool_decide_reflect (clang_path s = [])) as [| Hp]; cbn [orb].
  { intros [= <- <-]. left. split_and!; [done | tauto | tauto]. }
  destruct (disabled_ s). { intros [= <- <-]. left. split_and!; [done | tauto | tauto]. }
  destruct (bool_decide_reflect (cwd w = [])) as [| Hc].
  { intros [= <- <-]. left. split_and!; [done | tauto | tauto]. }
  destruct (GenerateFromArgs _ _ _) as [[[] | commands]|]; cbn [mbind option_bind]; [| | done].
  { intros [= <- <-]. left. split_and!; [done | tauto | tauto]. }
  destruct (connects w); cbn [negb]; [| intros [= <- <-]; left; split_and!; [done | tauto | tauto]].
  destruct (get_version s w) as [acts0 [v|]]; [| intros [= <- <-]; left; split_and!; [done | tauto | tauto]].
  intros ([rest o'] & Hh & [= <- <-])%bind_Some. right. split_and!; [done | done | done |]. by exists commands, v, rest.
Qed.

(** ** Property *)

(** C8: a run of the client.  It does everything that the compiler invocation asks
    for, or exits with the daemon's text because the daemon could not compile, or
    leaves all to the original compiler.  [Done] means that each command in turn
    was carried out: a process that succeeded, or a message that the daemon
    answered with OK.  Otherwise the commands before the failed one were, and no
    command after it was started; the client exits exactly when the failed
    command was answered with EXECUTION.  A message always names the directory, the
    user, an action, an input that is not the standard input, and a compiler with
    its version.  When a connection carries one answer, [Done] needs exactly one
    clang command.  Without arguments the run reads past the end of [argv]. *)
Theorem DoMain_spec (s : settings) (w : world) (argv : list (list Z)) :
  (DoMain s w argv = None <->
   clang_path s <> [] /\ disabled_ s = false /\ cwd w <> [] /\ (length argv < 2)%nat) /\
  forall acts o, DoMain s w argv = Some (acts, o) ->
    ((o = Fallback /\ unusable s w argv /\ forall a, a ∈ acts -> a = Ran (version_process s)) \/
     exists commands v done_ rest,
       GenerateFromArgs (parse w) (driver w) argv = Some (inr commands) /\ (get_version s w).2 = Some v /\
       commands = done_ ++ rest /\
       acts = (get_version s w).1 ++ omap (action_of s w v) (done_ ++ take 1 rest) /\
       (forall i c, done_ !! i = Some c -> is_Some (action_of s w v c) /\ succeeded w i c) /\
       match rest with [] => o = Done | c :: _ => turn_ok s w v (length done_) c (Some o) end) /\
    (forall m, Sent m ∈ acts ->
       current_dir m = cwd w /\ cwd w <> [] /\ user_id m = Some (getuid w) /\ action (local_flags m) <> [] /\
       str (input (local_flags m)) <> lit "-" /\ compiler_version (compiler (local_flags m)) <> [] /\
       compiler_path (compiler (local_flags m)) = Some (clang_path s) /\ clang_path s <> []) /\
    (o = Done -> (forall i j, (i < j)%nat -> answer w i <> None -> answer w j = None) ->
     exists l1 c l2, GenerateFromArgs (parse w) (driver w) argv = Some (inr (l1 ++ c :: l2)) /\
       CanFillFlags c = true /\ Forall (fun c => CanFillFlags c = false) (l1 ++ l2)).
Proof.
  assert (forall a, a ∈ (get_version s w).1 -> a = Ran (version_process s)) as Hver.
  { intros a. unfold get_version. destruct (version s); simpl; [by intros ->%list_elem_of_singleton | by intros ?%not_elem_of_nil]. }
  split.
  - unfold DoMain. rewrite <-(GenerateFromArgs_none (parse w) (driver w) argv).
    destruct (bool_decide_reflect (clang_path s = [])), (disabled_ s), (bool_decide_reflect (cwd w = []));
      cbn [orb]; try (split; [done | by intros (? & ? & ? & ?)]).
    destruct (GenerateFromArgs _ _ _) as [[?|commands]|]; cbn [mbind option_bind];
      [split; [done | by intros (? & ? & ? & ?)] | | by split].
    split; [| by intros (? & ? & ? & ?)]. destruct (connects w); [cbn [negb] | done]. destruct (get_version s w) as [? [v|]]; [| done].
    destruct (handle_commands_ok s w v 0 commands) as (? & ? & ? & ? & -> & _). done.
  - intros acts o [(-> & Hu & Ha) | (Hp & Hd & Hc & commands & v & racts & Hg & Hv & Hh & ->)]%DoMain_cases.
    + assert (forall a, a ∈ acts -> a = Ran (version_process s)) as Hran
        by (destruct Ha as [-> | ->]; [by intros a ?%not_elem_of_nil | done]).
      split_and!; [by left | by intros m ?%Hran | done].
    + destruct (handle_commands_ok s w v 0 commands) as (acts' & o' & done_ & rest & Hh' & Heq & -> & Hdone & Hrest).
      rewrite Hh in Hh'. injection Hh' as -> ->. split_and!.
      * right. by exists commands, v, done_, rest.
      * intros m [Hm%Hver | (c & Hin & Hm)%list_elem_of_omap]%elem_of_app; [done |].
        apply action_of_sent in Hm as (H1 & H2 & H3 & H4 & H5 & H6). split_and!; try done.
        rewrite H5. apply (get_version_nonempty s w (get_version s w).1). by rewrite <-Hv, <-surjective_pairing.
      * intros -> Hone. destruct rest as [|c rest]; [| done]. rewrite app_nil_r in Heq. subst done_.
        destruct (GenerateFromArgs_clang _ _ _ _ Hg) as (c & (k & Hk)%list_elem_of_lookup & Hcf).
        exists (take k commands), c, (drop (S k) commands). rewrite take_drop_middle by done. split_and!; [done | done |].
        apply Forall_app. split; apply Forall_lookup; intros i c'.
        -- intros [Hi Hlt]%lookup_take_Some. destruct (CanFillFlags c') eqn:Hc'; [| done]. exfalso.
           pose proof (proj2 (Hdone _ _ Hi)) as H1. pose proof (proj2 (Hdone _ _ Hk)) as H2. unfold succeeded in *.
           rewrite Hc' in H1. rewrite Hcf in H2. destruct H1 as (_ & ? & E1 & _), H2 as (_ & ? & E2 & _). simpl in *.
           rewrite (Hone i k) in E2; [done | done | by rewrite E1].
        -- rewrite lookup_drop. intros Hi. destruct (CanFillFlags c') eqn:Hc'; [| done]. exfalso.
           pose proof (proj2 (Hdone _ _ Hi)) as H1. pose proof (proj2 (Hdone _ _ Hk)) as H2. unfold succeeded in *.
           rewrite Hc' in H1. rewrite Hcf in H2. destruct H1 as (_ & ? & E1 & _), H2 as (_ & ? & E2 & _). simpl in *.
           rewrite (Hone k (S (k + i))) in E1; [done | lia | by rewrite E2].
Qed.

(** ** A concrete run: one compilation, linking, and the removal of a temporary file *)

Definition linked_run : settings :=
  {| clang_path := lit "/usr/bin/clang"; version := []; plugin_paths := ∅; disabled_ := false; rewrite := false |}.

Definition linked_jobs : Compilation :=
  {| jobs := [{| kind := BackendJob; executable := lit "/opt/dist/clang"; arguments := [] |};
              {| kind := OtherJob; executable := lit "/usr/bin/ld"; arguments := [lit "a.o"] |}];
     temp_files := [lit "a.o"] |}.

Definition linked_world (reply : Status) : world :=
  {| cwd := lit "/home"; getuid := 1000; self_path := Some (lit "/opt/dist"); parse := fun _ => command_line;
     driver := fun _ => (Some linked_jobs, false); option_name := lit "frewrite-includes";
     clang_version_string := lit "4.0.0"; connects := true;
     version_output := Some (lit "clang version 3.8.0" ++ [10] ++ lit "Target: x" ++ [10] ++ lit "Thread model: posix");
     process_ok := fun _ => true; sent_ok := fun _ => true;
     answer := fun i => match i with O => Some (Some reply) | _ => None end |}.

Definition linked_argv : list (list Z) := [lit "clang"; lit "a.cc"].

Lemma DoMain_spec_witness :
  exists acts, DoMain linked_run (linked_world {| code := OK; description := None |}) linked_argv = Some (acts, Done) /\
    length acts = 4%nat /\
    exists l1 c l2, GenerateFromArgs (fun _ => command_line) (fun _ => (Some linked_jobs, false)) linked_argv
      = Some (inr (l1 ++ c :: l2)) /\ CanFillFlags c = true.
Proof.
  set (w := linked_world {| code := OK; description := None |}).
  destruct (DoMain_spec linked_run w linked_argv) as [_ H].
  destruct (DoMain linked_run w linked_argv) as [[acts o]|] eqn:Hd; [| vm_compute in Hd; discriminate].
  destruct (H acts o eq_refl) as (_ & _ & Hone). clear H.
  assert (o = Done /\ length acts = 4%nat) as [-> Hl] by (vm_compute in Hd; injection Hd as <- <-; split; reflexivity).
  destruct (Hone eq_refl) as (l1 & c & l2 & Hg & Hc & _); [intros i [|j]; [lia | reflexivity] |].
  exists acts. split; [reflexivity |]. split; [exact Hl |]. exists l1, c, l2. split; [exact Hg | exact Hc].
Defined.

(** The leftmost version, and what a run with a refused compilation does. *)
Example search_version_ex :
  search_version (lit "Apple clang version 3.8.10-rc (clang version 9.9.9)") = Some (lit "3.8.10") /\
  search_version (lit "clang version 3.8") = None.
Proof. split; vm_compute; reflexivity. Qed.

Example refused_run :
  snd <$> DoMain linked_run (linked_world {| code := EXECUTION; description := Some (lit "no a.cc") |}) linked_argv
  = Some (Exits (lit "no a.cc")).
Proof. vm_compute. reflexivity. Qed.
