(* ===== verification/ClientConf.v ===== *)
(** [client::Configuration] ([src/src/client/configuration.cc]): where the client
    takes its compiler, plugins and log levels from.

    [LoadFromFile] and the environment are given: [load] is the parsed message of a
    path, [env] the value of a variable, empty when it is not set.  A message that
    cannot be loaded leaves the configuration empty. *)

From S2P Require Import Prelude StringUtils CommandLines ClangCommand Logging.

#[local] Open Scope Z_scope.

(** ** configuration.proto *)

Inductive Platform := UNKNOWN | LINUX | MACOSX | WIN.

#[export] Instance Platform_eq_dec : EqDecision Platform.
Proof. solve_decision. Defined.

Record Plugin := { name : list Z; plugin_path : list Z; os : Platform }.

Record Verbosity := { error_mark_ : option Z; levels_ : list Range }.

(** The fields the constructor reads or sets; the others stay as they are loaded. *)
Record config := {
  path : list Z;
  version : option (list Z);
  send_timeout : option Z;
  read_timeout : option Z;
  plugins : list Plugin;
  disabled : bool;
  verbosity : Verbosity
}.

Definition no_config : config :=
  {| path := []; version := None; send_timeout := None; read_timeout := None; plugins := []; disabled := false;
     verbosity := {| error_mark_ := None; levels_ := [] |} |}.

Definition set_path (p : list Z) (c : config) : config :=
  {| path := p; version := version c; send_timeout := send_timeout c; read_timeout := read_timeout c;
     plugins := plugins c; disabled := disabled c; verbosity := verbosity c |}.
Definition set_version (v : list Z) (c : config) : config :=
  {| path := path c; version := Some v; send_timeout := send_timeout c; read_timeout := read_timeout c;
     plugins := plugins c; disabled := disabled c; verbosity := verbosity c |}.
Definition set_plugins (l : list Plugin) (c : config) : config :=
  {| path := path c; version := version c; send_timeout := send_timeout c; read_timeout := read_timeout c;
     plugins := l; disabled := disabled c; verbosity := verbosity c |}.
Definition set_disabled (c : config) : config :=
  {| path := path c; version := version c; send_timeout := send_timeout c; read_timeout := read_timeout c;
     plugins := plugins c; disabled := true; verbosity := verbosity c |}.
Definition set_verbosity (v : Verbosity) (c : config) : config :=
  {| path := path c; version := version c; send_timeout := send_timeout c; read_timeout := read_timeout c;
     plugins := plugins c; disabled := disabled c; verbosity := v |}.

(** ** Paths: [std::filesystem::path] *)

Definition is_absolute (p : list Z) : bool := match p with c :: _ => c =? slash | [] => false end.

(** [dir / p] *)
Definition append_path (dir p : list Z) : list Z :=
  if is_absolute p then p
  else match last dir with
       | None => p
       | Some c => if c =? slash then dir ++ p else dir ++ slash :: p
       end.

(** [parent_path] of a path without empty names. *)
Definition parent_path (p : list Z) : list Z :=
  match find_last_of slash p with
  | None => []
  | Some O => [slash]
  | Some i => take i p
  end.

Definition root_path (p : list Z) : list Z := if is_absolute p then [slash] else [].

(** ** [StringTo<ui32>]: stream extraction

    [None]: the stream holds no character but white space, and the result is never
    written.  A number out of range gives the largest one. *)
Definition is_space (c : Z) : bool := (c =? 32) || ((9 <=? c) && (c <=? 13)).

Fixpoint skip_spaces (s : list Z) : list Z :=
  match s with c :: s' => if is_space c then skip_spaces s' else s | [] => [] end.

Definition decimal (s : list Z) : Z := fold_left (fun n c => 10 * n + (c - 48)) s 0.

Definition StringTo_ui32 (s : list Z) : option Z :=
  match skip_spaces s with
  | [] => None
  | c :: l =>
      let '(negative, l) := if c =? 45 then (true, l) else if c =? 43 then (false, l) else (false, c :: l) in
      let n := decimal (take (digits_len l) l) in
      Some (if 2 ^ 32 <=? n then 2 ^ 32 - 1 else if (negative : bool) then u32 (- n) else n)
  end.

(** ** The constructor *)

(** The loop over the plugins, from index [i] on; [None] is an exhausted bound. *)
Fixpoint plugin_loop (fuel : nat) (current_dir : list Z) (i : nat) (l : list Plugin) : option (list Plugin) :=
  match l !! i with
  | None => Some l
  | Some plugin =>
      match fuel with
      | O => None
      | S fuel =>
          if decide (os plugin = LINUX) then
            let plugin :=
              if is_absolute (plugin_path plugin) then plugin
              else {| name := name plugin; plugin_path := append_path current_dir (plugin_path plugin);
                      os := os plugin |} in
            plugin_loop fuel current_dir (S i) (<[i := plugin]> l)
          else
            (* [SwapElements(i--, size - 1)], [RemoveLast()], [++i] *)
            plugin_loop fuel current_dir i
              (match last l with Some z => take (length l - 1) (<[i := z]> l) | None => l end)
      end
  end.

Definition take_file (current_dir : list Z) (c : config) : option config :=
  let c := if is_absolute (path c) then c else set_path (append_path current_dir (path c)) c in
  l ← plugin_loop (length (plugins c)) current_dir 0 (plugins c);
  Some (set_plugins l c).

(** The walk from the current directory upwards. *)
Fixpoint load_loop (fuel : nat) (load : list Z -> option config) (current_dir : list Z) : option config :=
  match load (append_path current_dir (lit ".distclang")) with
  | Some c => take_file current_dir c
  | None =>
      let current_dir := parent_path current_dir in
      if decide (current_dir = root_path current_dir) then Some no_config
      else match fuel with O => None | S fuel => load_loop fuel load current_dir end
  end.

(** [DC_LOG_LEVELS]: pairs of numbers. *)
Fixpoint read_levels (numbers : list (list Z)) : option (list Range) :=
  match numbers with
  | l :: r :: numbers =>
      l ← StringTo_ui32 l; r ← StringTo_ui32 r; rest ← read_levels numbers;
      Some ({| left_ := Some l; right_ := r |} :: rest)
  | _ => Some []
  end.

Definition set_levels (log_levels : list Z) (c : config) : option config :=
  match log_levels with
  | [] => Some c
  | _ =>
      numbers ← SplitString_char 32 log_levels [];
      if Nat.even (length numbers) then
        levels ← read_levels numbers;
        Some (set_verbosity {| error_mark_ := error_mark_ (verbosity c); levels_ := levels |} c)
      else Some c
  end.

Definition set_error_mark (error_mark : list Z) (c : config) : option config :=
  match error_mark with
  | [] => Some c
  | _ =>
      mark ← StringTo_ui32 error_mark;
      Some (set_verbosity {| error_mark_ := Some mark; levels_ := levels_ (verbosity c) |} c)
  end.

(** The search in [$PATH]; [inl] is the exit of a fatal message. *)
Definition search_path (path_ : list Z) (self_path : option (list Z)) (is_executable : list Z -> bool) (c : config)
    : option (unit + config) :=
  match path c with
  | [] =>
      path_dirs ← SplitString_char 58 path_ [];
      match self_path with
      | None => Some (inl tt)
      | Some self_path =>
          Some (inr
            match find (fun dir => is_executable (dir ++ lit "/clang") && negb (bool_decide (dir = self_path))) path_dirs with
            | Some dir => set_path (dir ++ lit "/clang") c
            | None => c
            end)
      end
  | _ => Some (inr c)
  end.

(** Environment variables prevail over the file. *)
Definition read_environment (env : list Z -> list Z) (c : config) : option config :=
  c ← set_levels (env (lit "DC_LOG_LEVELS")) c;
  c ← set_error_mark (env (lit "DC_LOG_ERROR_MARK")) c;
  let c := match env (lit "DC_CLANG_VERSION") with [] => c | v => set_version v c end in
  let c := match env (lit "DC_CLANG_PATH") with [] => c | p => set_path p c end in
  Some (match env (lit "DC_DISABLED") with [] => c | _ => set_disabled c end).

(** [None] is a failed CHECK, or the use of a number that was never written. *)
Definition Configuration (current_dir : list Z) (load : list Z -> option config) (env : list Z -> list Z)
    (self_path : option (list Z)) (is_executable : list Z -> bool) : option (unit + config) :=
  c ← load_loop (length current_dir) load current_dir;
  c ← read_environment env c;
  r ← search_path (env (lit "PATH")) self_path is_executable c;
  match r with
  | inl tt => Some (inl tt)
  | inr c =>
      if bool_decide (read_timeout c = Some 0) || bool_decide (send_timeout c = Some 0) then None
      else Some (inr c)
  end.

(** ** The directories *)

(** An absolute path with the given names. *)
Definition path_of (names : list (list Z)) : list Z :=
  match names with [] => [slash] | _ => names ≫= fun n => slash :: n end.

Definition proper_name (n : list Z) : Prop := n <> [] /\ slash ∉ n.

(** The directories from one up to, but without, the root; names innermost first. *)
Fixpoint upwards (rnames : list (list Z)) : list (list Z) :=
  match rnames with [] => [] | _ :: r => path_of (rev rnames) :: upwards r end.

(** Where a file is looked for: the root only when it is the current directory. *)
Definition searched (names : list (list Z)) : list (list Z) :=
  match names with [] => [[slash]] | _ => upwards (rev names) end.

(** The first file of some directories, and its directory. *)
Definition first_file (load : list Z -> option config) (dirs : list (list Z)) : option (list Z * config) :=
  head (omap (fun d => pair d <$> load (append_path d (lit ".distclang"))) dirs).

Definition found (load : list Z -> option config) (names : list (list Z)) : option (list Z * config) :=
  first_file load (searched names).

Lemma find_last_of_app c p n : c ∉ n -> find_last_of c (p ++ c :: n) = Some (length p).
Proof.
  intros Hn. induction p as [|x p IH]; simpl; [| by rewrite IH].
  assert (find_last_of c n = None) as ->; [| by rewrite Z.eqb_refl].
  induction n as [|x n IH]; [done |]. rewrite not_elem_of_cons in Hn. destruct Hn as [Hx Hn].
  simpl. rewrite IH by done. destruct (Z.eqb_spec x c); congruence.
Qed.

Lemma path_of_nonempty names : names <> [] -> path_of names = names ≫= fun n => slash :: n.
Proof. by destruct names. Qed.

Lemma path_of_absolute names : is_absolute (path_of names) = true.
Proof. by destruct names. Qed.

Lemma parent_path_of names n : proper_name n -> parent_path (path_of (names ++ [n])) = path_of names.
Proof.
  intros [Hne Hn]. rewrite path_of_nonempty by (by destruct names). rewrite bind_app. simpl. rewrite app_nil_r.
  unfold parent_path. rewrite find_last_of_app by done. rewrite take_app_length.
  destruct names as [|x names]; [done |]. by destruct x.
Qed.

Lemma path_of_root names : Forall proper_name names -> path_of names = [slash] -> names = [].
Proof.
  destruct names as [|n names]; [done |]. intros [[Hn _] _]%Forall_cons. simpl.
  destruct n as [|z n]; [done |]. by intros [=].
Qed.

Definition take_found (f : option (list Z * config)) : option config :=
  match f with Some (d, c) => take_file d c | None => Some no_config end.

Lemma load_loop_up fuel load n r :
  Forall proper_name (n :: r) -> (length r <= fuel)%nat ->
  load_loop fuel load (path_of (rev (n :: r))) = take_found (first_file load (upwards (n :: r))).
Proof.
  revert fuel n. induction r as [|n' r IH]; intros fuel n [Hn Hr]%Forall_cons Hf; unfold first_file;
    cbn [upwards omap list_omap]; destruct fuel as [|fuel]; simpl in Hf; try lia; cbn [load_loop];
    (destruct (load _); [done |]); cbn [rev]; rewrite parent_path_of by done; unfold root_path;
    rewrite path_of_absolute; try done.
  destruct (decide _) as [Hroot%path_of_root | Hne]; [by destruct (rev r) | by apply (Forall_rev (l := n' :: r)) |].
  apply (IH fuel n'); [done | lia].
Qed.

Lemma load_loop_ok fuel load names :
  Forall proper_name names -> (length names <= fuel)%nat ->
  load_loop fuel load (path_of names) = take_found (found load names).
Proof.
  intros Hok Hf. destruct names as [|x names].
  - unfold found, first_file. destruct fuel; simpl; by destruct (load _).
  - unfold found, searched. rewrite <-(rev_involutive (x :: names)) at 1.
    destruct (rev (x :: names)) as [|n r] eqn:Hr.
    { apply (f_equal length) in Hr. rewrite length_rev in Hr. done. }
    apply load_loop_up.
    + rewrite <-Hr. by apply Forall_rev.
    + apply (f_equal length) in Hr. rewrite length_rev in Hr. simpl in Hr, Hf. lia.
Qed.

(** ** The plugins *)

(** A path of a file in a directory, as an absolute one. *)
Definition absolute (dir p : list Z) : list Z := if is_absolute p then p else append_path dir p.

Definition absolute_plugin (dir : list Z) (p : Plugin) : Plugin :=
  {| name := name p; plugin_path := absolute dir (plugin_path p); os := os p |}.

Definition for_linux (p : Plugin) : Prop := os p = LINUX.

#[export] Instance for_linux_dec p : Decision (for_linux p).
Proof. unfold for_linux. apply _. Defined.

Lemma plugin_loop_ok fuel dir pre post :
  (length post <= fuel)%nat ->
  exists l, plugin_loop fuel dir (length pre) (pre ++ post) = Some l /\
    l ≡ₚ pre ++ map (absolute_plugin dir) (filter for_linux post).
Proof.
  revert pre post. induction fuel as [|fuel IH]; intros pre [|p post] Hf; simpl in Hf; try lia.
  1, 2: exists pre; cbn [plugin_loop]; rewrite lookup_ge_None_2 by (rewrite length_app; simpl; lia);
    by rewrite !app_nil_r.
  cbn [plugin_loop]. rewrite list_lookup_middle by done. rewrite filter_cons. unfold for_linux at 1.
  destruct (decide (os p = LINUX)) as [Hl | Hl].
  - rewrite insert_app_r_alt, Nat.sub_diag by lia. cbn [insert list_insert].
    set (p' := if is_absolute (plugin_path p) then p else _).
    assert (p' = absolute_plugin dir p) as ->
      by (unfold p', absolute_plugin, absolute; destruct p as [a b c]; simpl; by destruct (is_absolute b)).
    destruct (IH (pre ++ [absolute_plugin dir p]) post ltac:(lia)) as (l & Hpl & Hperm). exists l.
    rewrite length_app, Nat.add_1_r, <-app_assoc in Hpl. split; [done |]. rewrite Hperm, <-app_assoc. done.
  - destruct post as [|z post _] using rev_ind.
    + rewrite last_app. cbn [last]. rewrite insert_app_r_alt, Nat.sub_diag, length_app by lia. cbn [insert list_insert length].
      rewrite Nat.add_sub, take_app_length. destruct (IH pre [] ltac:(simpl; lia)) as (l & Hpl & Hperm).
      rewrite app_nil_r in Hpl. by exists l.
    + rewrite (last_app pre), app_comm_cons, last_snoc. rewrite insert_app_r_alt, Nat.sub_diag by lia.
      cbn [app insert list_insert]. rewrite length_app in Hf. simpl in Hf.
      assert (take (length (pre ++ p :: post ++ [z]) - 1) (pre ++ z :: post ++ [z]) = pre ++ z :: post) as ->.
      { change (pre ++ z :: post ++ [z]) with (pre ++ (z :: post) ++ [z]). rewrite (app_assoc pre (z :: post)).
        apply take_app_length'. rewrite !length_app. simpl. rewrite length_app. simpl. lia. }
      destruct (IH pre (z :: post) ltac:(simpl; lia)) as (l & Hpl & Hperm). exists l. split; [done |].
      rewrite Hperm. by rewrite <-(Permutation_cons_append post z).
Qed.

Lemma take_file_ok dir c :
  exists c', take_file dir c = Some c' /\ path c' = absolute dir (path c) /\ version c' = version c /\
    send_timeout c' = send_timeout c /\ read_timeout c' = read_timeout c /\ disabled c' = disabled c /\
    verbosity c' = verbosity c /\ plugins c' ≡ₚ map (absolute_plugin dir) (filter for_linux (plugins c)).
Proof.
  unfold take_file, absolute. set (c0 := if is_absolute (path c) then c else _).
  assert (plugins c0 = plugins c) as Hp by (unfold c0; by destruct (is_absolute _)). rewrite Hp.
  destruct (plugin_loop_ok (length (plugins c)) dir [] (plugins c) ltac:(lia)) as (l & Hl & Hperm). simpl in Hl.
  rewrite Hl. cbn [mbind option_bind]. eexists. split; [done |]. simpl.
  unfold c0. destruct (is_absolute (path c)); by split_and!.
Qed.

(** ** Numbers and words *)

Definition blank (s : list Z) : Prop := Forall (fun c => is_space c = true) s.

Lemma StringTo_none s : StringTo_ui32 s = None -> blank s.
Proof.
  unfold StringTo_ui32. induction s as [|c s IH]; [by constructor |]. simpl.
  destruct (is_space c) eqn:Hc; [intros ?; constructor; [done | by apply IH] |].
  by destruct (if c =? 45 then _ else _).
Qed.

(** The words of a variable. *)
Definition words (d : Z) (s : list Z) : list (list Z) := filter nonempty (fields [d] s).

Lemma split_words d s : SplitString_char d s [] = Some (words d s).
Proof. unfold SplitString_char. by rewrite SplitString_eq. Qed.

(** The numbers of a list of ranges, as they are written. *)
Definition numbers_of (l : list Range) : list (option Z) := l ≫= fun r => [left_ r; Some (right_ r)].

Lemma read_levels_ok n numbers :
  length numbers = (2 * n)%nat ->
  match read_levels numbers with
  | Some l => numbers_of l = map StringTo_ui32 numbers
  | None => exists s, s ∈ numbers /\ blank s
  end.
Proof.
  revert numbers. induction n as [|n IH]; intros [|l [|r numbers]] Hn; simpl in Hn; try lia; [done |].
  cbn [read_levels map].
  destruct (StringTo_ui32 l) eqn:Hl; cbn [mbind option_bind]; [| exists l; split; [left | by apply StringTo_none]].
  destruct (StringTo_ui32 r) eqn:Hr; [| exists r; split; [right; left | by apply StringTo_none]].
  specialize (IH numbers ltac:(lia)). destruct (read_levels numbers) as [rest|]; cbn [mbind option_bind].
  - unfold numbers_of in *. cbn [mbind list_bind app]. rewrite <-IH. done.
  - destruct IH as (s & Hs & Hb). exists s. split; [by do 2 right | done].
Qed.

(** The levels of the environment, when they are pairs, prevail over the file's. *)
Definition levels_from (log_levels : list Z) (file : list Range) (l : list Range) : Prop :=
  if decide (log_levels <> [] /\ Nat.even (length (words 32 log_levels)) = true)
  then numbers_of l = map StringTo_ui32 (words 32 log_levels) else l = file.

Lemma set_levels_ok s c :
  match set_levels s c with
  | Some c' => exists l, c' = set_verbosity {| error_mark_ := error_mark_ (verbosity c); levels_ := l |} c /\
                 levels_from s (levels_ (verbosity c)) l
  | None => exists w, w ∈ words 32 s /\ blank w
  end.
Proof.
  assert (c = set_verbosity {| error_mark_ := error_mark_ (verbosity c); levels_ := levels_ (verbosity c) |} c) as Hid
    by (destruct c as [? ? ? ? ? ? []]; done).
  unfold set_levels, levels_from. destruct s as [|z s]; [exists (levels_ (verbosity c)); split; [done | by rewrite decide_False by tauto] |].
  rewrite split_words. cbn [mbind option_bind]. set (ws := words 32 (z :: s)).
  destruct (Nat.even (length ws)) eqn:He.
  - pose proof He as [n Hn]%Nat.even_spec. pose proof (read_levels_ok n ws Hn) as Hr.
    destruct (read_levels ws) as [l|]; cbn [mbind option_bind]; [| done]. exists l. split; [done |].
    by rewrite decide_True by done.
  - exists (levels_ (verbosity c)). split; [done |]. rewrite decide_False; [done | by intros [_ ?]].
Qed.

Definition mark_from (error_mark : list Z) (file : option Z) : option Z :=
  match error_mark with [] => file | s => StringTo_ui32 s end.

Lemma set_error_mark_ok s c :
  match set_error_mark s c with
  | Some c' => c' = set_verbosity {| error_mark_ := mark_from s (error_mark_ (verbosity c)); levels_ := levels_ (verbosity c) |} c
  | None => s <> [] /\ blank s
  end.
Proof.
  unfold set_error_mark, mark_from. destruct s as [|z s]; [by destruct c as [? ? ? ? ? ? []] |].
  destruct (StringTo_ui32 (z :: s)) eqn:Hs; cbn [mbind option_bind]; [done | split; [done | by apply StringTo_none]].
Qed.

(** ** The compiler *)

Definition from_path (me path_ : list Z) (is_executable : list Z -> bool) : list Z :=
  match head (filter (fun dir => is_executable (dir ++ lit "/clang") = true /\ dir <> me) (words 58 path_)) with
  | Some dir => dir ++ lit "/clang"
  | None => []
  end.

Lemma find_filter {A} (f : A -> bool) (P : A -> Prop) `{!forall x, Decision (P x)} l :
  (forall x, f x = true <-> P x) -> find f l = head (filter P l).
Proof.
  intros Hf. induction l as [|x l IH]; [done |]. simpl. rewrite filter_cons. specialize (Hf x).
  destruct (f x), (decide (P x)); [done | tauto | | done]. by apply Hf in p.
Qed.

Lemma search_path_ok s self exe c :
  search_path s self exe c
  = match path c, self with
    | [], None => Some (inl tt)
    | [], Some me => Some (inr (set_path (from_path me s exe) c))
    | _, _ => Some (inr c)
    end.
Proof.
  unfold search_path, from_path. destruct (path c) eqn:Hp; [| by destruct self]. rewrite split_words. cbn [mbind option_bind].
  destruct self as [me|]; [| done]. do 2 f_equal.
  rewrite (find_filter _ (fun dir => exe (dir ++ lit "/clang") = true /\ dir <> me)).
  - destruct (head _); [done |]. destruct c; simpl in *. by subst.
  - intros dir. rewrite andb_true_iff, negb_true_iff, bool_decide_eq_false. done.
Qed.

Lemma absolute_nonempty d p : d <> [] -> absolute d p <> [].
Proof.
  unfold absolute, append_path. destruct (is_absolute p) eqn:Hp; [by destruct p |].
  intros Hd. destruct (last d) as [c|] eqn:Hl; [| by apply last_None in Hl]. case_match; by destruct d.
Qed.

Lemma found_nonempty load names d f : found load names = Some (d, f) -> d <> [].
Proof.
  unfold found, first_file. intros Hh.
  assert ((d, f) ∈ omap (fun d => pair d <$> load (append_path d (lit ".distclang"))) (searched names)) as Hin
    by (destruct (omap _ _); [done | injection Hh as ->; left]).
  apply list_elem_of_omap in Hin as (d' & Hd & (f' & _ & [= -> ->])%fmap_Some).
  unfold searched in Hd. destruct names as [|n names]; [by apply list_elem_of_singleton in Hd as -> |].
  revert Hd. generalize (rev (n :: names)). intros r. induction r as [|x r IH]; simpl; [by intros ?%not_elem_of_nil |].
  intros [-> | ?]%elem_of_cons; [by destruct (rev r ++ [x]) | by apply IH].
Qed.

Lemma take_found_ok load names :
  exists c, take_found (found load names) = Some c /\
    let f := match found load names with Some (_, f) => f | None => no_config end in
    path c = match found load names with Some (d, f) => absolute d (path f) | None => [] end /\
    version c = version f /\ send_timeout c = send_timeout f /\ read_timeout c = read_timeout f /\
    disabled c = disabled f /\ verbosity c = verbosity f /\
    plugins c ≡ₚ match found load names with
                 | Some (d, f) => map (absolute_plugin d) (filter for_linux (plugins f))
                 | None => []
                 end.
Proof.
  destruct (found load names) as [[d f]|]; [apply take_file_ok | by exists no_config].
Qed.

Lemma read_environment_ok env c0 :
  match read_environment env c0 with
  | Some c =>
      path c = match env (lit "DC_CLANG_PATH") with [] => path c0 | p => p end /\
      version c = match env (lit "DC_CLANG_VERSION") with [] => version c0 | v => Some v end /\
      disabled c = (if decide (env (lit "DC_DISABLED") = []) then disabled c0 else true) /\
      plugins c = plugins c0 /\ read_timeout c = read_timeout c0 /\ send_timeout c = send_timeout c0 /\
      levels_from (env (lit "DC_LOG_LEVELS")) (levels_ (verbosity c0)) (levels_ (verbosity c)) /\
      error_mark_ (verbosity c) = mark_from (env (lit "DC_LOG_ERROR_MARK")) (error_mark_ (verbosity c0))
  | None =>
      (exists w, w ∈ words 32 (env (lit "DC_LOG_LEVELS")) /\ blank w) \/
      (env (lit "DC_LOG_ERROR_MARK") <> [] /\ blank (env (lit "DC_LOG_ERROR_MARK")))
  end.
Proof.
  unfold read_environment. pose proof (set_levels_ok (env (lit "DC_LOG_LEVELS")) c0) as Hlev.
  destruct (set_levels _ c0) as [c1|]; cbn [mbind option_bind]; [| by left].
  destruct Hlev as (l & -> & Hlev).
  match goal with |- context [set_error_mark ?s ?c] => pose proof (set_error_mark_ok s c) as Hm;
    destruct (set_error_mark s c) as [c2|]; cbn [mbind option_bind]; [subst c2 | by right] end.
  split_and!; repeat case_match; try reflexivity; try congruence; exact Hlev.
Qed.

(** ** Property *)

(** C26: where the client's configuration comes from.  The constructor always ends.
    The file is the one in the nearest directory, from the current one up to the
    first below the root; a file in the root counts only when the root is the
    current directory.  The compiler is that of the environment, else the file's
    (as an absolute path, so never empty), else the first executable [clang] in
    [$PATH] outside the client's own directory, if any.  The plugins are those
    for Linux in some order, each made absolute once.  Variables prevail over
    the file; log levels only when they come in pairs.  The constructor fails
    only because of a zero time-out or a number without characters, and exits only
    when [$PATH] has to be searched and the client's own directory is unknown. *)
Theorem Configuration_spec (names : list (list Z)) (load : list Z -> option config) (env : list Z -> list Z)
    (self : option (list Z)) (exe : list Z -> bool) :
  Forall proper_name names ->
  let file := found load names in
  let f := match file with Some (_, f) => f | None => no_config end in
  match Configuration (path_of names) load env self exe with
  | Some (inr c) =>
      match env (lit "DC_CLANG_PATH"), file with
      | (_ :: _) as p, _ => path c = p
      | [], Some (d, f) => path c = absolute d (path f) /\ path c <> []
      | [], None => exists me, self = Some me /\ path c = from_path me (env (lit "PATH")) exe
      end /\
      version c = match env (lit "DC_CLANG_VERSION") with [] => version f | v => Some v end /\
      disabled c = (if decide (env (lit "DC_DISABLED") = []) then disabled f else true) /\
      plugins c ≡ₚ match file with
                   | Some (d, f) => map (absolute_plugin d) (filter for_linux (plugins f))
                   | None => []
                   end /\
      levels_from (env (lit "DC_LOG_LEVELS")) (levels_ (verbosity f)) (levels_ (verbosity c)) /\
      error_mark_ (verbosity c) = mark_from (env (lit "DC_LOG_ERROR_MARK")) (error_mark_ (verbosity f)) /\
      read_timeout c = read_timeout f /\ read_timeout c <> Some 0 /\
      send_timeout c = send_timeout f /\ send_timeout c <> Some 0
  | Some (inl _) => env (lit "DC_CLANG_PATH") = [] /\ file = None /\ self = None
  | None =>
      read_timeout f = Some 0 \/ send_timeout f = Some 0 \/
      (exists w, w ∈ words 32 (env (lit "DC_LOG_LEVELS")) /\ blank w) \/
      (env (lit "DC_LOG_ERROR_MARK") <> [] /\ blank (env (lit "DC_LOG_ERROR_MARK")))
  end.
Proof.
  intros Hnames file f. unfold Configuration.
  assert (length names <= length (path_of names))%nat as Hlen.
  { destruct names as [|n names]; [simpl; lia |]. rewrite path_of_nonempty by done.
    generalize (n :: names). intros l. induction l as [|x l IH]; [simpl; lia |]. rewrite bind_cons, length_app. simpl. lia. }
  rewrite load_loop_ok by done.
  destruct (take_found_ok load names) as (c0 & -> & Hpath & Hv & Hs & Hr & Hd & Hverb & Hpl).
  fold file in Hpath, Hv, Hs, Hr, Hd, Hverb, Hpl. fold f in Hv, Hs, Hr, Hd, Hverb.
  cbn [mbind option_bind]. pose proof (read_environment_ok env c0) as He. rewrite Hv, Hd, Hr, Hs, Hverb in He.
  destruct (read_environment env c0) as [c|]; cbn [mbind option_bind]; [| tauto].
  destruct He as (E1 & E2 & E3 & E4 & E5 & E6 & E7 & E8). rewrite <-E4 in Hpl. rewrite search_path_ok.
  assert (path c <> [] -> match env (lit "DC_CLANG_PATH"), file with
          | (_ :: _) as p, _ => path c = p
          | [], Some (d, f) => path c = absolute d (path f) /\ path c <> []
          | [], None => False end) as Hfrom.
  { intros Hne. destruct (env (lit "DC_CLANG_PATH")); [| done].
    destruct file as [[d f']|]; [split; [congruence | done] | congruence]. }
  assert (path c = [] -> env (lit "DC_CLANG_PATH") = [] /\ file = None) as Hnot.
  { intros Hn. destruct (env (lit "DC_CLANG_PATH")); [| congruence]. split; [done |].
    destruct file as [[d f']|] eqn:Hf; [| done]. rewrite E1, Hpath in Hn.
    by apply absolute_nonempty in Hn; [| eapply found_nonempty]. }
  destruct (path c) as [|z p] eqn:Hp; [destruct (Hnot eq_refl) as [-> ->]; destruct self as [me|] |];
    cbn [mbind option_bind]; [| done |]; cbn [set_path read_timeout send_timeout]; rewrite E5, E6.
  all: case_bool_decide; [left; congruence |]; case_bool_decide; [right; left; congruence |]; cbn [orb].
  - cbn [set_path path version disabled plugins verbosity read_timeout send_timeout]. split_and!; try congruence; try done. by exists me.
  - specialize (Hfrom ltac:(done)). rewrite <-Hp in Hfrom. split_and!; try congruence; try done.
    by destruct (env (lit "DC_CLANG_PATH")); [destruct file as [[]|] |].
Qed.

(** ** A concrete configuration: a file in the parent directory, levels in the environment *)

Definition project_file : config :=
  {| path := lit "bin/clang"; version := None; send_timeout := None; read_timeout := Some 30;
     plugins := [{| name := lit "a"; plugin_path := lit "a.dylib"; os := MACOSX |};
                 {| name := lit "b"; plugin_path := lit "b.so"; os := LINUX |};
                 {| name := lit "c"; plugin_path := lit "/c.so"; os := LINUX |}];
     disabled := false; verbosity := {| error_mark_ := None; levels_ := [] |} |}.

Definition project_names : list (list Z) := [lit "home"; lit "src"].

Definition project_load (p : list Z) : option config :=
  if decide (p = lit "/home/.distclang") then Some project_file else None.

Definition project_env (v : list Z) : list Z := if decide (v = lit "DC_LOG_LEVELS") then lit "0 3 5 5" else [].

Definition project_conf : option (unit + config) :=
  Configuration (lit "/home/src") project_load project_env None (fun _ => true).

Lemma Configuration_spec_witness :
  exists c, project_conf = Some (inr c) /\ path c = lit "/home/bin/clang" /\
    plugins c ≡ₚ [{| name := lit "b"; plugin_path := lit "/home/b.so"; os := LINUX |};
                  {| name := lit "c"; plugin_path := lit "/c.so"; os := LINUX |}].
Proof.
  assert (Forall proper_name project_names) as Hn.
  { apply Forall_cons. split; [split; [discriminate | by apply (bool_decide_unpack _)] |].
    apply Forall_cons. split; [split; [discriminate | by apply (bool_decide_unpack _)] | constructor]. }
  pose proof (Configuration_spec project_names project_load project_env None (fun _ => true) Hn) as H. cbv zeta in H.
  change (Configuration (path_of project_names) project_load project_env None (fun _ => true)) with project_conf in H.
  assert (found project_load project_names = Some (lit "/home", project_file)) as Hf by (vm_compute; reflexivity).
  rewrite Hf in H. destruct project_conf as [[[]|c]|] eqn:Hc; [vm_compute in Hc; discriminate Hc | | vm_compute in Hc; discriminate Hc].
  exists c. split; [reflexivity |]. destruct H as ([Hp _] & _ & _ & Hpl & _). split; [exact Hp |].
  rewrite Hpl. vm_compute. reflexivity.
Defined.

(** A file in the root directory is not looked at from below. *)
Example root_file :
  searched [lit "home"; lit "src"] = [lit "/home/src"; lit "/home"] /\ searched [] = [lit "/"].
Proof. split; reflexivity. Qed.

(** A file whose path is empty names its directory as the compiler. *)
Example empty_path_file :
  Configuration (lit "/home/src")
    (fun p => if decide (p = lit "/home/.distclang") then Some no_config else None) (fun _ => []) None (fun _ => true)
  = Some (inr (set_path (lit "/home/") no_config)).
Proof. vm_compute. reflexivity. Qed.

Example StringTo_ex :
  StringTo_ui32 (lit " 12x") = Some 12 /\ StringTo_ui32 (lit "x") = Some 0 /\
  StringTo_ui32 (lit "4294967296") = Some 4294967295 /\ StringTo_ui32 (lit "-1") = Some 4294967295 /\
  StringTo_ui32 (lit " ") = None.
Proof. split_and!; vm_compute; reflexivity. Qed.
