(* ===== verification/Connection.v ===== *)
(** [net::ConnectionImpl] ([src/src/net/connection_impl.cc], [connection.cc]) and
    its events ([event_loop_linux.cc]): reading and sending one message, the
    callbacks, and closing.

    The compressed streams and the socket are given by what their calls return.
    The second half runs one connection the way the daemons use it: it waits for
    one message, whose callback, or a worker it hands the message to, sends at
    most one reply, with [CloseAfterSend]. *)

From S2P Require Import Prelude Messages.
From stdpp Require Import relations.

#[local] Open Scope Z_scope.

(** ** Reading and sending *)

(** [file_input_stream_] and [gzip_input_stream_] after the read: the size that
    [ReadVarint32] gives, whether the message parses, [ByteCount], [GetErrno] and
    [ZlibErrorMessage]. *)
Record input := {
  size : option Z;
  parses : bool;
  byte_count : Z;
  in_errno : Z;
  in_zlib : option (list Z)
}.

Inductive stage := Not_serialized | Not_flushed | Not_written | Written.

Record output := { stage_ : stage; out_errno : Z; out_zlib : option (list Z) }.

Definition EAGAIN : Z := 11.                 (* [EWOULDBLOCK] is the same *)

Section Streams.
Context (strerror : Z -> list Z) (to_string : Z -> list Z).

(** [": "] and the reason, when there is one. *)
Definition reason (errno : Z) (zlib : option (list Z)) : list Z :=
  if negb (errno =? 0) then lit ": " ++ strerror errno
  else match zlib with Some text => lit ": " ++ text | None => [] end.

Definition report (c : Code) (text : list Z) : Status := {| code := c; description := Some text |}.
Definition no_status : Status := {| code := OK; description := None |}.

(** [ReadSync(message, status)]; [has_message] says that [message] is not null. *)
Definition ReadSync (is_closed has_message : bool) (i : input) : bool * Status :=
  if negb has_message then (false, report EMPTY_MESSAGE (lit "Message pointer is null"))
  else if is_closed then (false, report INCONSEQUENT (lit "Reading after close"))
  else
    match size i with
    | None =>
        (false,
         report NETWORK
           (if (byte_count i =? 0) && (in_errno i =? EAGAIN) then lit "Read operation timeout"
            else lit "Can't read incoming message size (read " ++ to_string (byte_count i) ++ lit " raw bytes)"
                 ++ reason (in_errno i) (in_zlib i)))
    | Some size =>
        if size =? 0 then (false, report BAD_MESSAGE (lit "Incoming message has zero size"))
        else if negb (parses i) then
          (false, report BAD_MESSAGE (lit "Incoming message is malformed" ++ reason (in_errno i) (in_zlib i)))
        else (true, no_status)
    end.

Definition SendSyncImpl (is_closed : bool) (o : output) : bool * Status :=
  if is_closed then (false, report INCONSEQUENT (lit "Reading after close"))
  else
    match stage_ o with
    | Not_serialized =>
        (false, report NETWORK (lit "Can't serialize message to GZip stream" ++ reason (out_errno o) (out_zlib o)))
    | Not_flushed => (false, report NETWORK (lit "Can't flush gzipped message" ++ reason 0 (out_zlib o)))
    | Not_written => (false, report NETWORK (lit "Can't flush sent message to socket" ++ reason (out_errno o) None))
    | Written => (true, no_status)
    end.

Lemma ReadSync_result closed has i : (ReadSync closed has i).1 = true <-> code (ReadSync closed has i).2 = OK.
Proof. unfold ReadSync. destruct has, closed; try done. destruct (size i); [| done]. simpl. by repeat case_match. Qed.

Lemma SendSyncImpl_result closed o : (SendSyncImpl closed o).1 = true <-> code (SendSyncImpl closed o).2 = OK.
Proof. unfold SendSyncImpl. destruct closed; [done |]. by destruct (stage_ o). Qed.

Lemma ReadSync_closed has i : (ReadSync true has i).1 = false.
Proof. by destruct has. Qed.

#[local] Arguments ReadSync : simpl never.
#[local] Arguments SendSyncImpl : simpl never.

(** ** The connection *)

Context {M : Type}.

Inductive interest := In | Out.

(** A callback: an empty function, [EmptyLambda<bool>(false)], or the user's, bound
    to a reference to the connection. *)
Inductive callback := Null | Empty_lambda | User.

(** [armed] is the registration with [EPOLLONESHOT], [wire] what was sent. *)
Record Connection := {
  is_closed : bool;
  read_callback : callback;
  send_callback : callback;
  message_ : option M;
  armed : option interest;
  wire : list M
}.

Definition new_connection : Connection :=
  {| is_closed := false; read_callback := Null; send_callback := Null; message_ := None; armed := None; wire := [] |}.

(** [ReadAsync]; [ready] is whether [epoll_ctl] succeeds. *)
Definition ReadAsync (ready : bool) (c : Connection) : bool * Connection :=
  (ready, {| is_closed := is_closed c; read_callback := if ready then User else Null; send_callback := send_callback c;
             message_ := message_ c; armed := if ready then Some In else armed c; wire := wire c |}).

(** [SendAsync] and [SendAsyncImpl] *)
Definition SendAsync (m : M) (ready : bool) (c : Connection) : bool * Connection :=
  (ready, {| is_closed := is_closed c; read_callback := read_callback c;
             send_callback := if ready then User else Empty_lambda; message_ := Some m;
             armed := if ready then Some Out else armed c; wire := wire c |}).

Definition Close (c : Connection) : Connection :=
  if is_closed c then c
  else {| is_closed := true; read_callback := Empty_lambda; send_callback := Empty_lambda; message_ := message_ c;
          armed := armed c; wire := wire c |}.

(** The event is taken, which disarms the registration. *)
Definition disarm (c : Connection) : Connection :=
  {| is_closed := is_closed c; read_callback := read_callback c; send_callback := send_callback c;
     message_ := message_ c; armed := None; wire := wire c |}.

(** [DoRead] up to the call of the callback: the result, the callback, and the
    connection.  [None] is the call of an empty function. *)
Definition DoRead (i : input) (c : Connection) : option (bool * callback * Connection) :=
  match read_callback c with
  | Null => None
  | cb => Some ((ReadSync (is_closed c) true i).1, cb,
                {| is_closed := is_closed c; read_callback := Null; send_callback := send_callback c;
                   message_ := None; armed := armed c; wire := wire c |})
  end.

(** [DoSend] up to the call of the callback; [None] is also the use of a null
    message. *)
Definition DoSend (o : output) (c : Connection) : option (bool * callback * Connection) :=
  let result := (SendSyncImpl (is_closed c) o).1 in
  match send_callback c with
  | Null => None
  | cb =>
      if negb (is_closed c) && negb (has (message_ c)) then None
      else
        Some (result, cb,
              {| is_closed := is_closed c; read_callback := read_callback c; send_callback := Empty_lambda;
                 message_ := message_ c; armed := armed c;
                 wire := if result then wire c ++ option_list (message_ c) else wire c |})
  end.

(** The end of both: the callback has returned. *)
Definition finish (returned result : bool) (c : Connection) : Connection :=
  if negb returned || negb result then Close c else c.

(** ** Interleavings

    What a thread of the event loop is doing: it has an event ([None]: error or
    hang-up), or is inside a callback. *)
Inductive phase := Fetched (i : option interest) | Reading (result : bool) | Sending (result : bool).

Record system := {
  conn : Connection;
  handlers : list phase;
  read_calls : nat;
  send_calls : nat;
  accepted : bool;               (* the callback took the message *)
  rejected : bool;               (* it returned, but the connection was closed *)
  replies : list M
}.

(** [HandleNewConnection] *)
Definition init : system :=
  {| conn := (ReadAsync true new_connection).2; handlers := []; read_calls := 0; send_calls := 0;
     accepted := false; rejected := false; replies := [] |}.

Definition with_conn (c : Connection) (h : list phase) (s : system) : system :=
  {| conn := c; handlers := h; read_calls := read_calls s; send_calls := send_calls s; accepted := accepted s;
     rejected := rejected s; replies := replies s |}.

Inductive step : system -> system -> Prop :=
| step_event s i :
    armed (conn s) = Some i -> is_closed (conn s) = false ->
    step s (with_conn (disarm (conn s)) (Fetched (Some i) :: handlers s) s)
| step_hangup s i :
    armed (conn s) = Some i -> step s (with_conn (disarm (conn s)) (Fetched None :: handlers s) s)
| step_close s h1 h2 :
    handlers s = h1 ++ Fetched None :: h2 -> step s (with_conn (Close (conn s)) (h1 ++ h2) s)
| step_read s h1 h2 i result c :
    handlers s = h1 ++ Fetched (Some In) :: h2 -> DoRead i (conn s) = Some (result, User, c) ->
    step s {| conn := c; handlers := h1 ++ Reading result :: h2; read_calls := S (read_calls s);
              send_calls := send_calls s; accepted := accepted s; rejected := rejected s; replies := replies s |}
| step_read_none s h1 h2 i result c :
    handlers s = h1 ++ Fetched (Some In) :: h2 -> DoRead i (conn s) = Some (result, Empty_lambda, c) ->
    step s (with_conn (finish false result c) (h1 ++ h2) s)
| step_send s h1 h2 o result c :
    handlers s = h1 ++ Fetched (Some Out) :: h2 -> DoSend o (conn s) = Some (result, User, c) ->
    step s {| conn := c; handlers := h1 ++ Sending result :: h2; read_calls := read_calls s;
              send_calls := S (send_calls s); accepted := accepted s; rejected := rejected s; replies := replies s |}
| step_send_none s h1 h2 o result c :
    handlers s = h1 ++ Fetched (Some Out) :: h2 -> DoSend o (conn s) = Some (result, Empty_lambda, c) ->
    step s (with_conn (finish false result c) (h1 ++ h2) s)
| step_read_end s h1 h2 result returned :
    handlers s = h1 ++ Reading result :: h2 ->
    step s {| conn := finish returned result (conn s); handlers := h1 ++ h2; read_calls := read_calls s;
              send_calls := send_calls s; accepted := returned && result; rejected := negb (returned && result);
              replies := replies s |}
| step_send_end s h1 h2 result :
    (* [CloseAfterSend] returns false *)
    handlers s = h1 ++ Sending result :: h2 -> step s (with_conn (finish false result (conn s)) (h1 ++ h2) s)
| step_reply s m ready :
    (* inside the callback, or by a worker after it *)
    replies s = [] -> (accepted s = true \/ exists result, Reading result ∈ handlers s) ->
    step s {| conn := (SendAsync m ready (conn s)).2; handlers := handlers s; read_calls := read_calls s;
              send_calls := send_calls s; accepted := accepted s; rejected := rejected s; replies := [m] |}
| step_drop s :
    (* nothing refers to the connection any more: the destructor *)
    handlers s = [] -> read_callback (conn s) <> User -> send_callback (conn s) <> User ->
    (accepted s = true -> replies s <> []) -> step s (with_conn (Close (conn s)) [] s).

Inductive reachable : system -> Prop :=
| reach_init : reachable init
| reach_step s s' : reachable s -> step s s' -> reachable s'.

(** Something holds a reference to the connection. *)
Definition referenced (s : system) : Prop :=
  read_callback (conn s) = User \/ send_callback (conn s) = User \/
  (exists result, Reading result ∈ handlers s \/ Sending result ∈ handlers s) \/
  (accepted s = true /\ replies s = []).

(** ** The invariant: what the two directions have come to *)

Inductive reading := RWait | RFetched | RHung | RRun (result : bool) | RAccepted | RRejected | RGone.
Inductive sending := SNone | SArmed | SFetched | SHung | SRun (result : bool) | SFailed | SOver.

Definition r_handlers (r : reading) : list phase :=
  match r with RFetched => [Fetched (Some In)] | RHung => [Fetched None] | RRun b => [Reading b] | _ => [] end.
Definition s_handlers (x : sending) : list phase :=
  match x with SFetched => [Fetched (Some Out)] | SHung => [Fetched None] | SRun b => [Sending b] | _ => [] end.

Definition closed_of (r : reading) (x : sending) : bool :=
  match r, x with RRejected, _ | RGone, _ | _, SOver => true | _, _ => false end.
Definition unread (r : reading) : bool := match r with RWait | RFetched | RHung => true | _ => false end.
Definition unsent (x : sending) : bool := match x with SArmed | SFetched | SHung => true | _ => false end.
Definition called (r : reading) : bool := match r with RRun _ | RAccepted | RRejected => true | _ => false end.

Record shape (r : reading) (x : sending) (s : system) : Prop := {
  sh_handlers : handlers s = s_handlers x ++ r_handlers r;
  sh_armed : armed (conn s) = match r, x with RWait, _ => Some In | _, SArmed => Some Out | _, _ => None end;
  sh_closed : is_closed (conn s) = closed_of r x;
  sh_read : if unread r then read_callback (conn s) = User else read_callback (conn s) <> User;
  sh_send : if unsent x then send_callback (conn s) = (if closed_of r x then Empty_lambda else User)
            else send_callback (conn s) <> User;
  sh_message : match x with SNone => replies s = [] | _ => exists m, replies s = [m] /\ message_ (conn s) = Some m end;
  sh_wire : wire (conn s) = [] \/ (wire (conn s) = replies s /\ (x = SRun true \/ x = SOver));
  sh_read_calls : read_calls s = if called r then 1%nat else 0%nat;
  sh_send_calls : match x with SRun _ => send_calls s = 1%nat | SOver => (send_calls s <= 1)%nat | _ => send_calls s = 0%nat end;
  sh_accepted : accepted s = match r with RAccepted => true | _ => false end;
  sh_rejected : rejected s = match r with RRejected => true | _ => false end;
  sh_order : x <> SNone -> called r = true
}.

Lemma SendSyncImpl_closed o : (SendSyncImpl true o).1 = false.
Proof. done. Qed.

Lemma one_handler {A} (x y : A) h1 h2 : [x] = h1 ++ y :: h2 -> x = y /\ h1 = [] /\ h2 = [].
Proof. destruct h1 as [|? []]; [by intros [= -> <-] | done | done]. Qed.

Lemma two_handlers {A} (x y z : A) h1 h2 :
  [x; y] = h1 ++ z :: h2 -> (x = z /\ h1 = [] /\ h2 = [y]) \/ (y = z /\ h1 = [x] /\ h2 = []).
Proof.
  destruct h1 as [|? [|? []]]; [intros [= -> <-]; by left | intros [= -> -> <-]; by right | done | done].
Qed.

Ltac which_handler :=
  match goal with
  | H : [_; _] = _ ++ _ :: _ |- _ => apply two_handlers in H as [(? & -> & ->) | (? & -> & ->)]; simplify_eq/=
  | H : [_] = _ ++ _ :: _ |- _ => apply one_handler in H as (? & -> & ->); simplify_eq/=
  | H : [] = _ ++ _ :: _ |- _ => by apply app_cons_not_nil in H
  end.

Lemma step_event_ok r x s i :
  shape r x s -> armed (conn s) = Some i -> is_closed (conn s) = false ->
  exists r' x', shape r' x' (with_conn (disarm (conn s)) (Fetched (Some i) :: handlers s) s).
Proof.
  intros [] Ha Hc.
  exists (match r with RWait => RFetched | _ => r end), (match x with SArmed => SFetched | _ => x end).
  destruct r, x; simpl in *; simplify_eq/=; try congruence; try (by specialize (sh_order0 ltac:(done)));
    constructor; simpl; try congruence; try done; try naive_solver.
Qed.

Lemma step_hangup_ok r x s i :
  shape r x s -> armed (conn s) = Some i ->
  exists r' x', shape r' x' (with_conn (disarm (conn s)) (Fetched None :: handlers s) s).
Proof.
  intros [] Ha.
  exists (match r with RWait => RHung | _ => r end), (match x with SArmed => SHung | _ => x end).
  destruct r, x; simpl in *; simplify_eq/=; try congruence; try (by specialize (sh_order0 ltac:(done)));
    constructor; simpl; try congruence; try done; try naive_solver.
Qed.

Lemma step_close_ok r x s h1 h2 :
  shape r x s -> handlers s = h1 ++ Fetched None :: h2 ->
  exists r' x', shape r' x' (with_conn (Close (conn s)) (h1 ++ h2) s).
Proof.
  intros [] Hh. exists (match r with RHung => RGone | _ => r end), (match x with SHung => SOver | _ => x end).
  destruct r, x; simpl in *; try (by specialize (sh_order0 ltac:(done)));
    rewrite sh_handlers0 in Hh; simpl in Hh; try which_handler; try which_handler; unfold Close; rewrite sh_closed0;
    constructor; simpl; try congruence; try done; try lia; try naive_solver.
Qed.

Ltac shape_step Hh :=
  match goal with Ho : ?x <> SNone -> called ?r = true, Hs : handlers _ = s_handlers ?x ++ r_handlers ?r |- _ =>
    destruct r, x; simpl in *; try (by specialize (Ho ltac:(done)));
    rewrite Hs in Hh; simpl in Hh; try which_handler
  end.

Ltac shape_done := constructor; simpl in *; try congruence; try done; try lia; try naive_solver.

Lemma step_read_ok r x s h1 h2 i result cb c :
  shape r x s -> handlers s = h1 ++ Fetched (Some In) :: h2 -> DoRead i (conn s) = Some (result, cb, c) ->
  cb = User /\ exists r' x', shape r' x' {| conn := c; handlers := h1 ++ Reading result :: h2;
    read_calls := S (read_calls s); send_calls := send_calls s; accepted := accepted s; rejected := rejected s;
    replies := replies s |}.
Proof.
  intros [] Hh Hd. unfold DoRead in Hd. shape_step Hh. rewrite sh_read0 in Hd. injection Hd as <- <- <-.
  split; [done |]. exists (RRun (ReadSync (is_closed (conn s)) true i).1), SNone. shape_done.
Qed.

Lemma step_send_ok r x s h1 h2 o result cb c :
  shape r x s -> handlers s = h1 ++ Fetched (Some Out) :: h2 -> DoSend o (conn s) = Some (result, cb, c) ->
  if cb is User then exists r' x', shape r' x' {| conn := c; handlers := h1 ++ Sending result :: h2;
    read_calls := read_calls s; send_calls := S (send_calls s); accepted := accepted s; rejected := rejected s;
    replies := replies s |}
  else exists r' x', shape r' x' (with_conn (finish false result c) (h1 ++ h2) s).
Proof.
  intros [] Hh Hd. unfold DoSend in Hd. shape_step Hh.
  all: destruct sh_message0 as (m & Hm & Hmsg); rewrite sh_send0, sh_closed0, Hmsg in Hd; simpl in Hd;
    injection Hd as <- <- <-; destruct sh_wire0 as [Hw | (_ & [[=] | [=]])]; rewrite Hw; simpl;
    rewrite ?SendSyncImpl_closed.
  - destruct (SendSyncImpl false o).1 eqn:Hr; exists (RRun result0), (SRun (SendSyncImpl false o).1); rewrite Hr; shape_done.
  - destruct (SendSyncImpl false o).1 eqn:Hr; exists RAccepted, (SRun (SendSyncImpl false o).1); rewrite Hr; shape_done.
  - unfold finish, Close. simpl. exists RRejected, SOver. shape_done.
Qed.

Lemma step_read_end_ok r x s h1 h2 result returned :
  shape r x s -> handlers s = h1 ++ Reading result :: h2 ->
  exists r' x', shape r' x' {| conn := finish returned result (conn s); handlers := h1 ++ h2; read_calls := read_calls s;
    send_calls := send_calls s; accepted := returned && result; rejected := negb (returned && result);
    replies := replies s |}.
Proof.
  intros [] Hh. exists (if returned && result then RAccepted else RRejected), x. unfold finish, Close.
  shape_step Hh; rewrite sh_closed0; destruct returned, result; simpl; shape_done.
Qed.

Lemma step_send_end_ok r x s h1 h2 result :
  shape r x s -> handlers s = h1 ++ Sending result :: h2 ->
  exists r' x', shape r' x' (with_conn (finish false result (conn s)) (h1 ++ h2) s).
Proof.
  intros [] Hh. exists r, SOver. unfold finish, Close. cbn [negb orb].
  shape_step Hh; rewrite sh_closed0; simpl; shape_done.
Qed.

Lemma step_reply_ok r x s m ready :
  shape r x s -> replies s = [] -> (accepted s = true \/ exists result, Reading result ∈ handlers s) ->
  exists r' x', shape r' x' {| conn := (SendAsync m ready (conn s)).2; handlers := handlers s; read_calls := read_calls s;
    send_calls := send_calls s; accepted := accepted s; rejected := rejected s; replies := [m] |}.
Proof.
  intros [] Hr Ha. exists r, (if ready then SArmed else SFailed).
  destruct x; try (destruct sh_message0 as (? & ? & _); congruence).
  destruct sh_wire0 as [Hw | (_ & [[=] | [=]])].
  assert ((exists b, r = RRun b) \/ r = RAccepted) as [[b ->] | ->].
  { rewrite sh_accepted0, sh_handlers0 in Ha. destruct r; simpl in Ha; try (by right); try (left; by eexists);
      destruct Ha as [? | [b Hb]]; try done; set_solver. }
  all: destruct ready; simpl in *; shape_done.
Qed.

Lemma step_drop_ok r x s :
  shape r x s -> handlers s = [] -> read_callback (conn s) <> User -> send_callback (conn s) <> User ->
  (accepted s = true -> replies s <> []) -> exists r' x', shape r' x' (with_conn (Close (conn s)) [] s).
Proof.
  intros [] Hh Hrc Hsc Ha. unfold Close.
  exists r, (match x with SFailed => SOver | _ => x end). rewrite sh_handlers0 in Hh.
  destruct r, x; simpl in *; try (by specialize (sh_order0 ltac:(done))); try done; try congruence;
    rewrite sh_closed0; try (exfalso; by apply Ha); shape_done.
Qed.

Lemma shape_reachable s : reachable s -> exists r x, shape r x s.
Proof.
  induction 1 as [|s s' _ (r & x & Hs) Hstep]; [exists RWait, SNone; by constructor; simpl; auto |].
  inversion Hstep; subst.
  - by eapply step_event_ok.
  - by eapply step_hangup_ok.
  - by eapply step_close_ok.
  - by eapply step_read_ok.
  - exfalso. match goal with Hh : handlers s = _, Hd : DoRead _ _ = _ |- _ =>
      by destruct (step_read_ok _ _ _ _ _ _ _ _ _ Hs Hh Hd) as [[=] _] end.
  - by eapply (step_send_ok _ _ _ _ _ _ _ User).
  - by eapply (step_send_ok _ _ _ _ _ _ _ Empty_lambda).
  - by eapply step_read_end_ok.
  - by eapply step_send_end_ok.
  - by eapply step_reply_ok.
  - by eapply step_drop_ok.
Qed.

Lemma step_closed s s' :
  step s s' -> is_closed (conn s) = true -> is_closed (conn s') = true /\ wire (conn s') = wire (conn s).
Proof.
  intros Hstep Hc. inversion Hstep; subst; simpl; unfold finish, Close; try done;
    try (match goal with H : DoRead _ _ = _ |- _ => unfold DoRead in H end;
         destruct (read_callback (conn s)); simplify_eq/=; unfold Close; simpl; rewrite Hc; done);
    try (match goal with H : DoSend _ _ = _ |- _ => unfold DoSend in H; rewrite Hc, SendSyncImpl_closed in H end;
         destruct (send_callback (conn s)); simplify_eq/=; unfold Close; simpl; rewrite ?Hc; done);
    rewrite ?Hc; by repeat case_match.
Qed.

Lemma steps_closed s s' :
  rtc step s s' -> is_closed (conn s) = true -> is_closed (conn s') = true /\ wire (conn s') = wire (conn s).
Proof.
  induction 1 as [s | s1 s2 s3 Hs _ IH]; intros Hc; [done |].
  destruct (step_closed _ _ Hs Hc) as [Hc2 <-]. by apply IH.
Qed.

(** What an event finds. *)
Lemma shape_read i r x s :
  shape r x s -> Fetched (Some In) ∈ handlers s -> exists result c, DoRead i (conn s) = Some (result, User, c).
Proof.
  intros [] Hin. rewrite sh_handlers0 in Hin. unfold DoRead.
  destruct r, x; simpl in *; try (by specialize (sh_order0 ltac:(done))); rewrite ?sh_read0; try (by do 2 eexists); set_solver.
Qed.

Lemma shape_send o r x s : shape r x s -> Fetched (Some Out) ∈ handlers s -> is_Some (DoSend o (conn s)).
Proof.
  intros [] Hin. rewrite sh_handlers0 in Hin. unfold DoSend.
  destruct x; try (by destruct r; set_solver). destruct sh_message0 as (m & _ & ->).
  simpl in sh_send0. rewrite sh_send0, andb_false_r. destruct (closed_of r SFetched); by eexists.
Qed.

Lemma shape_progress (m : M) r x s : shape r x s -> is_closed (conn s) = false -> exists s', step s s'.
Proof.
  intros Hs Hc. pose proof Hs as [Hh Ha Hcl Hr Hsd Hm _ _ _ Hacc _ Hord].
  assert (forall i, armed (conn s) = Some i -> exists s', step s s') as Harmed by (intros i Hi; eexists; by eapply step_hangup).
  destruct x; simpl in Hh.
  - destruct r; try (by apply (Harmed In)); try (rewrite Hcl in Hc; discriminate Hc); simpl in Hh.
    + destruct (shape_read {| size := None; parses := false; byte_count := 0; in_errno := 0; in_zlib := None |} _ _ _ Hs)
        as (? & ? & Hd); [rewrite Hh; left |]. eexists. by eapply (step_read s [] []).
    + eexists. by eapply (step_close s [] []).
    + eexists. by eapply (step_read_end s [] [] _ true).
    + eexists. apply (step_reply s m true); [done | by left].
  - apply (Harmed Out). specialize (Hord ltac:(done)). destruct r; simpl in *; first [done | congruence].
  - destruct (shape_send {| stage_ := Written; out_errno := 0; out_zlib := None |} _ _ _ Hs) as [[[? cb] ?] Hd];
      [rewrite Hh; left |]. destruct cb.
    + exfalso. unfold DoSend in Hd. simpl in Hsd. rewrite Hsd in Hd. destruct (closed_of _ _), (negb _ && negb _); simplify_eq.
    + eexists. by eapply (step_send_none s []).
    + eexists. by eapply (step_send s []).
  - eexists. by eapply (step_close s []).
  - eexists. by eapply (step_send_end s []).
  - specialize (Hord ltac:(done)). destruct r; simpl in *; try congruence.
    + eexists. by eapply (step_read_end s [] [] _ true).
    + destruct Hm as (m' & Hm & _). eexists. apply step_drop; [done | done | done |]. intros _. by rewrite Hm.
  - rewrite Hcl in Hc. by destruct r.
Qed.

Lemma shape_referenced r x s i :
  shape r x s -> Fetched i ∈ handlers s -> referenced s \/ rejected s = true.
Proof.
  intros [] Hin. rewrite sh_handlers0 in Hin. unfold referenced. rewrite sh_handlers0, sh_rejected0.
  destruct r, x; simpl in *; try (by specialize (sh_order0 ltac:(done))); try (by right); left;
    try (by left); try (by right; left); set_solver.
Qed.

(** ** Properties *)

(** C21: the life of a connection of a daemon.  In every interleaving of the event
    loop's threads, the callback and a worker: each callback is called at most
    once and at most one message is sent, the reply; an event never calls an
    empty function and never sends a null message; a closed connection stays
    closed and sends nothing more; once the reply's callback was called and
    nothing runs, the connection is closed; a closed connection on which nothing
    runs holds no callback, hence no reference to itself; an open one can always
    go on; and a fetched event finds the connection alive unless its reading
    failed or its callback returned false.  A read or a send fails exactly when
    its status is not OK. *)
Theorem connection_protocol (s : system) :
  reachable s ->
  ((read_calls s <= 1)%nat /\ (send_calls s <= 1)%nat /\ (length (replies s) <= 1)%nat /\
   (wire (conn s) = [] \/ wire (conn s) = replies s)) /\
  (forall i, Fetched (Some In) ∈ handlers s -> exists result c, DoRead i (conn s) = Some (result, User, c)) /\
  (forall o, Fetched (Some Out) ∈ handlers s -> is_Some (DoSend o (conn s))) /\
  (forall s', rtc step s s' -> is_closed (conn s) = true -> is_closed (conn s') = true /\ wire (conn s') = wire (conn s)) /\
  (handlers s = [] -> send_calls s = 1%nat -> is_closed (conn s) = true) /\
  (handlers s = [] -> is_closed (conn s) = true -> read_callback (conn s) <> User /\ send_callback (conn s) <> User) /\
  (forall m : M, is_closed (conn s) = false -> exists s', step s s') /\
  (forall i, Fetched i ∈ handlers s -> referenced s \/ rejected s = true) /\
  (forall closed has_message i, (ReadSync closed has_message i).1 = true <-> code (ReadSync closed has_message i).2 = OK) /\
  (forall closed o, (SendSyncImpl closed o).1 = true <-> code (SendSyncImpl closed o).2 = OK).
Proof.
  intros (r & x & Hs)%shape_reachable. pose proof Hs as [Hh Ha Hcl Hr Hsd Hm Hw Hrc Hsc Hacc _ Hord]. split_and!.
  - rewrite Hrc. destruct (called r); lia.
  - destruct x; lia.
  - destruct x; try (destruct Hm as (? & -> & _)); rewrite ?Hm; simpl; lia.
  - destruct Hw as [? | [? _]]; [by left | by right].
  - intros i. by eapply shape_read.
  - intros o. by eapply shape_send.
  - apply steps_closed.
  - intros Hnil Hone. rewrite Hcl. destruct x; try lia; [rewrite Hh in Hnil; done | by destruct r].
  - intros Hnil Hc. rewrite Hcl in Hc. rewrite Hh in Hnil. split.
    + destruct r, x; simpl in *; try (by specialize (Hord ltac:(done))); first [done | congruence].
    + destruct x; simpl in *; try done. by rewrite Hsd, Hc.
  - intros m. by eapply shape_progress.
  - intros i. by eapply shape_referenced.
  - apply ReadSync_result.
  - apply SendSyncImpl_result.
Qed.

(** A read that fails, and the daemon's report from inside the callback: before the
    callback returns, after it, and after it when the event was taken first. *)
Definition no_input : input := {| size := None; parses := false; byte_count := 0; in_errno := 0; in_zlib := None |}.

Definition in_callback : system :=
  {| conn := {| is_closed := false; read_callback := Null; send_callback := Null; message_ := None; armed := None;
                wire := [] |};
     handlers := [Reading false]; read_calls := 1; send_calls := 0; accepted := false; rejected := false; replies := [] |}.

Definition reporting (m : M) : system :=
  {| conn := {| is_closed := false; read_callback := Null; send_callback := User; message_ := Some m; armed := Some Out;
                wire := [] |};
     handlers := [Reading false]; read_calls := 1; send_calls := 0; accepted := false; rejected := false; replies := [m] |}.

Definition reported (i : option interest) (h : list phase) (m : M) : system :=
  {| conn := {| is_closed := true; read_callback := Empty_lambda; send_callback := Empty_lambda; message_ := Some m;
                armed := i; wire := [] |};
     handlers := h; read_calls := 1; send_calls := 0; accepted := false; rejected := true; replies := [m] |}.

Lemma reporting_reachable m : reachable (reporting m).
Proof.
  assert (reachable in_callback) as Hin.
  { eapply reach_step; [eapply reach_step; [apply reach_init | by apply (step_event _ In)] |].
    exact (step_read (with_conn (disarm (conn init)) [Fetched (Some In)] init) [] [] no_input false (conn in_callback)
             eq_refl eq_refl). }
  eapply reach_step; [exact Hin |].
  exact (step_reply in_callback m true eq_refl (or_intror (ex_intro _ false (list_elem_of_here _ _)))).
Qed.

Lemma reported_reachable m :
  reachable (reported (Some Out) [] m) /\ reachable (reported None [Fetched (Some Out)] m).
Proof.
  split.
  - eapply reach_step; [apply reporting_reachable |]. exact (step_read_end (reporting m) [] [] false true eq_refl).
  - eapply reach_step; [eapply reach_step; [apply reporting_reachable | by apply (step_event _ Out)] |].
    exact (step_read_end (with_conn (disarm (conn (reporting m))) [Fetched (Some Out); Reading false] (reporting m))
             [Fetched (Some Out)] [] false true eq_refl).
Qed.

(** The report of a failed read is lost.  Every daemon answers a message that
    cannot be read from inside the callback; the connection is closed as soon as
    that callback returns.  Whether or not the event of the reply was fetched
    before, nothing is ever sent from then on; and when it was fetched, the event
    loop holds the address of a connection to which nothing refers any more. *)
Theorem failed_read_reply (m : M) :
  (ReadSync false true no_input).1 = false /\
  forall s, s = reported (Some Out) [] m \/ s = reported None [Fetched (Some Out)] m ->
    reachable s /\ replies s = [m] /\ ~ referenced s /\ forall s', rtc step s s' -> wire (conn s') = [].
Proof.
  split; [done |]. destruct (reported_reachable m) as [H1 H2].
  assert (forall i h, (forall b, Reading b ∉ h /\ Sending b ∉ h) -> ~ referenced (reported i h m)) as Href.
  { intros i h Hh. unfold referenced. simpl. intros [[=] | [[=] | [(b & [? | ?]) | [[=] _]]]]; destruct (Hh b); tauto. }
  intros s [-> | ->]; (split_and!; [done | done | | by intros s' [_ ->]%steps_closed]); apply Href; intros b; set_solver.
Qed.

End Streams.

(** ** A concrete run: a message is read, answered and the connection closed *)

Definition good_input : input :=
  {| size := Some 3; parses := true; byte_count := 12; in_errno := 0; in_zlib := None |}.
Definition good_output : output := {| stage_ := Written; out_errno := 0; out_zlib := None |}.

Definition at_stage (c : Connection (M := nat)) (h : list phase) (rc sc : nat) (acc : bool) (rs : list nat) : system :=
  {| conn := c; handlers := h; read_calls := rc; send_calls := sc; accepted := acc; rejected := false; replies := rs |}.

Definition open_conn (send : callback) (m : option nat) (i : option interest) (w : list nat) : Connection :=
  {| is_closed := false; read_callback := Null; send_callback := send; message_ := m; armed := i; wire := w |}.

Definition answered : system := at_stage (Close (open_conn Empty_lambda (Some 7%nat) None [7%nat])) [] 1 1 true [7%nat].

Lemma answered_reachable : reachable (fun _ => []) (fun _ => []) answered.
Proof.
  eapply reach_step; [eapply reach_step; [eapply reach_step; [eapply reach_step; [eapply reach_step;
    [eapply reach_step; [eapply reach_step; [apply reach_init |] |] |] |] |] |] |].
  - exact (step_event _ _ init In eq_refl eq_refl).
  - exact (step_read _ _ (with_conn (disarm (conn init)) [Fetched (Some In)] init) [] [] good_input true
             (open_conn Null None None []) eq_refl eq_refl).
  - exact (step_reply _ _ (at_stage (open_conn Null None None []) [Reading true] 1 0 false []) 7%nat true eq_refl
             (or_intror (ex_intro _ true (list_elem_of_here _ _)))).
  - exact (step_read_end _ _ (at_stage (open_conn User (Some 7%nat) (Some Out) []) [Reading true] 1 0 false [7%nat]) [] []
             true true eq_refl).
  - exact (step_event _ _ (at_stage (open_conn User (Some 7%nat) (Some Out) []) [] 1 0 true [7%nat]) Out eq_refl eq_refl).
  - exact (step_send _ _ (at_stage (open_conn User (Some 7%nat) None []) [Fetched (Some Out)] 1 0 true [7%nat]) [] []
             good_output true (open_conn Empty_lambda (Some 7%nat) None [7%nat]) eq_refl eq_refl).
  - exact (step_send_end _ _ (at_stage (open_conn Empty_lambda (Some 7%nat) None [7%nat]) [Sending true] 1 1 true [7%nat]) [] []
             true eq_refl).
Qed.

Lemma connection_protocol_witness :
  is_closed (conn answered) = true /\ forall s', rtc (step (fun _ => []) (fun _ => [])) answered s' -> wire (conn s') = [7%nat].
Proof.
  destruct (connection_protocol (fun _ => []) (fun _ => []) answered answered_reachable) as (_ & _ & _ & Hw & Hc & _).
  assert (is_closed (conn answered) = true) as Hcl by (apply Hc; reflexivity).
  split; [exact Hcl |]. intros s' Hs. destruct (Hw s' Hs Hcl) as [_ H]. rewrite H. reflexivity.
Defined.

Lemma failed_read_reply_witness :
  replies (reported (Some Out) [] 5%nat) = [5%nat] /\
  forall s', rtc (step (fun _ => []) (fun _ => [])) (reported (Some Out) [] 5%nat) s' -> wire (conn s') = [].
Proof.
  destruct (failed_read_reply (fun _ => []) (fun _ => []) 5%nat) as [_ H].
  destruct (H (reported (Some Out) [] 5%nat) (or_introl eq_refl)) as (_ & Hr & _ & Hw). split; [exact Hr | exact Hw].
Defined.
