(* ===== verification/EndToEnd.v ===== *)
(** The program as a whole: what a client that is told OK has on its disk, when the
    emitter, its queues and workers, and the absorbers work together.

    A run of [Emitter] is followed with the requests that have arrived, so that
    each answer can be traced back to its request. *)

From S2P Require Import Prelude ClangCommand ClientRun LockedQueue StringUtils ConstString ConstStringFind ConstStringHash CacheLocks FileCache CacheNames CacheEntries CacheFrame Messages CommandLines CompilationDaemon EmitterTasks EmitterReplies EmitterConf Emitter Absorber.

#[local] Open Scope Z_scope.

(** ** Requests and tasks *)

(** The message of a task is that of its request, but for the paths of its compiler. *)
Definition same_request (m : Local_) (t : Task) : Prop :=
  exists c, compiler_version c = compiler_version (compiler (local_flags m)) /\
    message t = set_flags (set_compiler c (local_flags m)) m.

Lemma same_request_paths m t :
  same_request m t -> GetOutputPath (message t) = GetOutputPath m /\ user (message t) = user m /\
  current_dir (message t) = current_dir m.
Proof. intros (c & _ & ->). split; [apply paths_set_compiler | by destruct m]. Qed.

Lemma SetupCompiler_version conf flags status :
  compiler_version (compiler (SetupCompiler conf flags status).1.2) = compiler_version (compiler flags).
Proof.
  unfold SetupCompiler. destruct flags. simpl. destruct (has _); [done |].
  destruct (getCompilerPath _ _); [| done]. destruct (setup_plugins _ _) as [ok pl]. by destruct ok.
Qed.

Lemma same_request_setup m t conf status :
  same_request m t -> same_request m (with_flags (SetupCompiler conf (local_flags (message t)) status).1.2 t).
Proof.
  intros (c & Hv & Hm). destruct (SetupCompiler_flags conf (local_flags (message t)) status) as [Hf _].
  pose proof (SetupCompiler_version conf (local_flags (message t)) status) as Hver.
  exists (compiler (SetupCompiler conf (local_flags (message t)) status).1.2). split.
  - rewrite Hver, Hm. by destruct m as [[]].
  - simpl. rewrite Hf at 1. rewrite Hm. by destruct m as [[]].
Qed.

Lemma same_request_clear c m t : same_request m t -> clear_paths c m -> clear_paths c (message t).
Proof. intros (comp & _ & ->). apply clear_paths_flags. Qed.

Lemma delivered_same m t entry d : same_request m t -> delivered (message t) entry d -> delivered m entry d.
Proof.
  intros (c & _ & Hm). unfold delivered. destruct (paths_set_compiler c m) as [E1 E2]. rewrite Hm, E1, E2.
  intros [H1 H2]. split; [done |]. intros Hh. apply H2. by destruct m as [[]].
Qed.

Section Whole.
Context (print : Manifest -> list Z) (parse : list Z -> option Manifest).
Context (Compress Uncompress : list Z -> option (list Z)) (clang_version : list Z).

(** What processes do on the emitter's machine and on the absorbers'. *)
Context (local_run remote_run : Process -> list Z -> gmap path (list Z) -> run_result).

(** A source that the preprocessor has made of a request. *)
Definition preprocessed (m : Local_) (src : list Z) : Prop :=
  exists c fs, compiler_version c = compiler_version (compiler (local_flags m)) /\
    let r := local_run (CreateProcess (pp_flags (set_compiler c (local_flags m))) (user m) (current_dir m)) [] fs in
    proc_ok r = true /\ src = proc_stdout r.

Record made_from (m : Local_) (t : Task) : Prop := {
  mf_message : same_request m t;
  mf_source : EmitterTasks.source t = [] \/ preprocessed m (EmitterTasks.source t);
  mf_extra : files_usable (task_extra t);
  mf_hash : EmitterTasks.handled_hash t <> [] -> plain (EmitterTasks.handled_hash t)
}.

Lemma made_from_setup m t conf status :
  made_from m t -> made_from m (with_flags (SetupCompiler conf (local_flags (message t)) status).1.2 t).
Proof. intros []. constructor; [by apply same_request_setup | done | done | done]. Qed.

Lemma made_from_new conn m : made_from m (new_task conn m).
Proof.
  constructor; simpl; [| by left | constructor | done]. exists (compiler (local_flags m)). by destruct m as [[]].
Qed.

(** What the preprocessor makes of the message of a task. *)
Lemma GenerateSource_preprocessed w m t d src d' :
  run w = local_run -> same_request m t -> GenerateSource w (message t) d = (Some src, d') -> preprocessed m src.
Proof.
  intros Hw Hs Hg. destruct (same_request_paths m t Hs) as (_ & Hu & Hd). destruct Hs as (c & Hv & Hm).
  unfold GenerateSource in Hg. rewrite Hw, Hu, Hd, Hm in Hg. cbn [local_flags set_flags] in Hg.
  exists c, (files_of d). split; [done |]. cbv zeta. destruct (proc_ok _) eqn:Hok; [| done]. by injection Hg as <- _.
Qed.

(** ** Absorbers *)

(** A reply that an absorber's worker sends for a request: to a task of its
    execution queue, which a cache worker may have put there, or from the cache. *)
Definition absorber_reply (request : Remote) (reply : Reply) : Prop :=
  exists w temp_dir conn hash request' d d', run w = remote_run /\
    (request' = request \/ request' = with_request_flags (AdjustFlags (remote_flags request)) request) /\
    let t := {| client := conn; request_ := request'; local_hash := hash |} in
    (execute_request print Compress w temp_dir t d = Some (Absorber.Sent reply, d') \/
     check_request parse Uncompress w t d = Some (Absorber.Sent reply, d')).

(** A task that comes from the cache worker is executed as the original would be. *)
Lemma execute_adjusted w temp_dir conn hash request d :
  execute_request print Compress w temp_dir
    {| client := conn; request_ := with_request_flags (AdjustFlags (remote_flags request)) request; local_hash := hash |} d
  = execute_request print Compress w temp_dir {| client := conn; request_ := request; local_hash := hash |} d.
Proof. unfold execute_request. cbn [request_ with_request_flags remote_flags]. by rewrite AdjustFlags_idem. Qed.

(** The request a remote worker sends for a task. *)
Definition sent_task (w : EmitterTasks.world) (t : Task) (d : Daemon) : option Task :=
  let '(ok, flags, _) := SetupCompiler (conf d) (local_flags (message t)) status_ok in
  if negb ok then None
  else
    let t := with_flags flags t in
    src ← (if decide (EmitterTasks.source t = []) then (GenerateSource w (message t) d).1
           else Some (EmitterTasks.source t));
    let t := with_source src t in
    hash ← task_hash t;
    Some (with_hash hash t).

(** A world of this machine, in which remote daemons are absorbers. *)
Record of_program (w : EmitterTasks.world) (t : Task) (d : Daemon) : Prop := {
  op_run : run w = local_run;
  op_received : forall t' reply, sent_task w t d = Some t' -> received w = Some reply ->
                  absorber_reply (outgoing t') reply
}.

(** ** Workers keep the origin of a task *)

Definition keeps_origin (m : Local_) (o : EmitterTasks.outcome) : Prop :=
  match o with To_failed t | To_all t _ => made_from m t | _ => True end.

Lemma check_simple_origin m w wconf t found d o d' :
  run w = local_run -> made_from m t ->
  check_simple print parse Uncompress clang_version w wconf t found d = Some (o, d') -> keeps_origin m o.
Proof.
  intros Hw Ht. unfold check_simple.
  pose proof (made_from_setup m t (conf d) status_ok Ht) as Ht1.
  destruct (SetupCompiler _ _ _) as [[ok flags] status]. simpl in Ht1.
  destruct ok; cbn [negb]; [| by intros [= <- _]].
  destruct (GenerateSource w _ d) as [[src|] d1] eqn:Hg; [| by intros [= <- _]].
  apply (GenerateSource_preprocessed w m (with_flags flags t)) in Hg; [| done | apply Ht1].
  assert (made_from m (with_source src (with_flags flags t))) as Ht2 by (destruct Ht1; constructor; simpl; auto).
  destruct (ReadExtraFiles _ _ _) as [extra|] eqn:Hx; [| by intros [= <- _]]. apply ReadExtraFiles_usable in Hx.
  intros (hash & Hh & ([[hit entry] d2] & _ & ([[status'|] d3] & _ & H)%bind_Some)%bind_Some)%bind_Some;
    [by injection H as <- _ |].
  destruct (GenerateHash_plain flags (of_String src) extra) as (h & Hh' & Hp); [apply literal_usable | done |].
  rewrite Hh in Hh'. injection Hh' as <-.
  assert (made_from m (with_hash hash (with_extra extra (with_source src (with_flags flags t))))) as Ht3
    by (destruct Ht2; constructor; simpl; auto).
  destruct (total_shards _); [| by injection H as <- _].
  apply bind_Some in H as (shard & _ & H'). by injection H' as <- _.
Qed.

Lemma check_cache_origin m w wconf t d o d' :
  run w = local_run -> made_from m t ->
  check_cache_task print parse Uncompress clang_version w wconf t d = Some (o, d') -> keeps_origin m o.
Proof.
  intros Hw Ht. unfold check_cache_task. destruct (EmitterTasks.closed w); [by intros [= <- _] |].
  intros ([[hit entry] d1] & _ & H)%bind_Some.
  apply bind_Some in H as ([[status|] d2] & _ & H'); [by injection H' as <- _ | by eapply check_simple_origin].
Qed.

Lemma local_origin m w t d o d' :
  local_task print Compress clang_version w t d = Some (o, d') -> keeps_origin m o.
Proof. intros H. apply local_outcome in H. destruct o; try done; by destruct H. Qed.

Lemma handle_reply_origin m w t hash reply d o d' :
  made_from m t -> handle_reply print Compress clang_version w t hash reply d = Some (o, d') -> keeps_origin m o.
Proof.
  intros Ht. unfold handle_reply. destruct (match reply_status reply with Some s => _ | None => _ end); [by intros [= <- _] |].
  destruct (reply_result reply) as [result|]; [| by intros [= <- _]].
  destruct (File_Write_daemon _ _ _ _) as [ok d1]. destruct ok; cbn [negb]; [| by intros [= <- _]].
  destruct (GenerateEntry _ _ _); [| by intros [= <- _]]. intros (d2 & _ & H)%bind_Some. by injection H as <- _.
Qed.

(** The task as a remote worker sends it, and what becomes of the reply. *)
Lemma remote_sent m w wconf shard t d o d' :
  run w = local_run -> made_from m t ->
  remote_task print Compress clang_version w wconf shard t d = Some (o, d') ->
  keeps_origin m o /\
  forall s, o = Reported s -> code s = OK ->
    exists t' hash reply d1, sent_task w t d = Some t' /\ made_from m t' /\
      preprocessed m (EmitterTasks.source t') /\ plain hash /\
      path_ (cache d1) = path_ (cache d) /\ received w = Some reply /\
      handle_reply print Compress clang_version w t' hash reply d1 = Some (Reported s, d').
Proof.
  intros Hw Ht. unfold remote_task, sent_task. destruct (EmitterTasks.closed w); [by intros [= <- _] |].
  pose proof (made_from_setup m t (conf d) status_ok Ht) as Ht1.
  destruct (SetupCompiler_flags (conf d) (local_flags (message t)) status_ok) as [_ Hno].
  destruct (SetupCompiler _ _ _) as [[ok flags] status]. simpl in Ht1, Hno.
  destruct ok; cbn [negb]; [| intros [= <- _]; split; [done | intros s [= <-] Hs; by rewrite Hno in Hs]].
  set (generated := (GenerateSource w (message (with_flags flags t)) d).1).
  destruct (if decide (EmitterTasks.source (with_flags flags t) = []) then _ else _) as [src d1] eqn:Hg.
  assert ((if decide (EmitterTasks.source (with_flags flags t) = []) then generated
           else Some (EmitterTasks.source (with_flags flags t))) = src) as ->.
  { unfold generated. case_decide; [by rewrite Hg | by injection Hg as <- _]. }
  destruct src as [src|]; [| by intros [= <- _]]. cbn [mbind option_bind].
  assert (preprocessed m src /\ path_ (cache d1) = path_ (cache d)) as [Hsrc P1].
  { case_decide as Hs.
    - split; [| unfold GenerateSource in Hg; by injection Hg as _ <-].
      by apply (GenerateSource_preprocessed w m (with_flags flags t)) in Hg; [| | apply Ht1].
    - injection Hg as <- <-. split; [| done]. by destruct (mf_source _ _ Ht1). }
  assert (made_from m (with_source src (with_flags flags t))) as Ht2 by (destruct Ht1; constructor; simpl; auto).
  destruct (connected w); cbn [negb].
  2: { intros [= <- _]. unfold not_connected. destruct (total_shards _); [destruct (negb _ && negb _) |]; split; try done.
       destruct Ht2; by constructor. }
  intros (hash & Hhash & H)%bind_Some. rewrite Hhash. cbn [mbind option_bind].
  apply task_hash_plain in Hhash; [| apply Ht2 | apply Ht2].
  assert (made_from m (with_hash hash (with_source src (with_flags flags t)))) as Ht3
    by (destruct Ht2; constructor; simpl; auto).
  destruct (sent w); cbn [negb] in H; [| by injection H as <- _].
  destruct (received w) as [reply|]; [| by injection H as <- _].
  split; [by eapply handle_reply_origin |]. intros s -> _. by eexists _, hash, reply, d1.
Qed.

(** ** Runs with their requests *)

(** A worker has handled a task, in a world of this program. *)
Inductive worked (s : Emitter.system) : Task -> EmitterTasks.world -> EmitterTasks.outcome -> Emitter.system -> Prop :=
| worked_cache l1 t l2 w wconf o d :
    cache_tasks s = l1 ++ t :: l2 -> of_program w t (daemon s) ->
    check_cache_task print parse Uncompress clang_version w wconf t (daemon s) = Some (o, d) ->
    worked s t w o (place (connection t) o (set_cache_tasks (l1 ++ l2) (with_daemon d s)))
| worked_failed l1 t l2 w o d :
    failed_tasks s = l1 ++ t :: l2 -> of_program w t (daemon s) ->
    local_task print Compress clang_version w t (daemon s) = Some (o, d) ->
    worked s t w o (place (connection t) o (set_failed_tasks (l1 ++ l2) (with_daemon d s)))
| worked_local l1 sh t l2 w o d :
    local_takes_all s = true -> all_tasks s = l1 ++ (sh, t) :: l2 -> of_program w t (daemon s) ->
    local_task print Compress clang_version w t (daemon s) = Some (o, d) ->
    worked s t w o (place (connection t) o (set_all_tasks (l1 ++ l2) (with_daemon d s)))
| worked_remote l1 sh t l2 w wconf shard o d :
    all_tasks s = l1 ++ (sh, t) :: l2 -> of_program w t (daemon s) ->
    remote_task print Compress clang_version w wconf shard t (daemon s) = Some (o, d) ->
    worked s t w o (place (connection t) o (set_all_tasks (l1 ++ l2) (with_daemon d s))).

Lemma worked_step s t w o s' :
  worked s t w o s' ->
  exists again, Emitter.step print parse Compress Uncompress clang_version s (Handled (connection t) again) s'.
Proof. destruct 1; eexists; [by eapply step_cache | by eapply step_failed | by eapply step_local | by eapply step_remote]. Qed.

(** Runs of the emitter from its start, with the requests that have arrived. *)
Inductive served (d0 : Daemon) : list (nat * Local_) -> Emitter.system -> Prop :=
| served_init : served d0 [] (initial d0)
| served_arrived reqs s conn m :
    served d0 reqs s -> conn ∉ connections s ->
    served d0 ((conn, m) :: reqs) (Emitter.HandleNewMessage conn m s)
| served_worked reqs s t w o s' : served d0 reqs s -> worked s t w o s' -> served d0 reqs s'
| served_reloaded reqs s s' :
    served d0 reqs s -> Emitter.step print parse Compress Uncompress clang_version s Reconfigured s' ->
    served d0 reqs s'.

Definition tasks (s : Emitter.system) : list Task := cache_tasks s ++ (all_tasks s).*2 ++ failed_tasks s.

Definition origin (reqs : list (nat * Local_)) (t : Task) : Prop :=
  exists m, (connection t, m) ∈ reqs /\ made_from m t.

(** What a worker has taken, and where the rest of the tasks is. *)
Lemma worked_place s t w o s' :
  worked s t w o s' ->
  exists s1, s' = place (connection t) o s1 /\ tasks s ≡ₚ t :: tasks s1 /\ answers s1 = answers s /\
    of_program w t (daemon s) /\
    ((exists wconf, check_cache_task print parse Uncompress clang_version w wconf t (daemon s) = Some (o, daemon s1)) \/
     local_task print Compress clang_version w t (daemon s) = Some (o, daemon s1) \/
     exists wconf shard, remote_task print Compress clang_version w wconf shard t (daemon s) = Some (o, daemon s1)).
Proof.
  destruct 1 as [l1 t l2 w wconf o d Hl Hw Ho | l1 t l2 w o d Hl Hw Ho | l1 sh t l2 w o d _ Hl Hw Ho
    | l1 sh t l2 w wconf shard o d Hl Hw Ho]; (eexists; split_and!; [reflexivity | | done | exact Hw | eauto]);
    unfold tasks; simpl; rewrite Hl, ?fmap_app; cbn [fmap list_fmap snd]; solve_Permutation.
Qed.

Lemma place_tasks conn o s :
  tasks (place conn o s) ≡ₚ (match o with To_failed t | To_all t _ => [t] | _ => [] end) ++ tasks s.
Proof.
  unfold tasks. destruct o as [| status | t | t sh]; simpl; [done | done | solve_Permutation |].
  rewrite fmap_app. cbn [fmap list_fmap snd]. solve_Permutation.
Qed.

Lemma worked_origin m s t w o s' :
  worked s t w o s' -> made_from m t ->
  keeps_origin m o /\ forall t', (o = To_failed t' \/ exists sh, o = To_all t' sh) -> connection t' = connection t.
Proof.
  intros (s1 & _ & _ & _ & Hw & Ho)%worked_place Ht. apply op_run in Hw.
  destruct Ho as [[wconf Ho] | [Ho | (wconf & shard & Ho)]]; split.
  - by eapply check_cache_origin.
  - apply check_cache_outcome in Ho. intros t' [-> | [sh ->]]; simpl in Ho; tauto.
  - by eapply local_origin.
  - apply local_outcome in Ho. intros t' [-> | [sh ->]]; simpl in Ho; tauto.
  - by eapply (remote_sent m) in Ho as [? _].
  - apply remote_outcome in Ho. intros t' [-> | [sh ->]]; simpl in Ho; tauto.
Qed.

Lemma served_origin d0 reqs s : served d0 reqs s -> Forall (origin reqs) (tasks s).
Proof.
  induction 1 as [| reqs s conn m _ IH Hconn | reqs s t w o s' _ IH Hstep | reqs s s' _ IH Hstep].
  - by constructor.
  - assert (tasks (Emitter.HandleNewMessage conn m s) ≡ₚ new_task conn m :: tasks s) as ->.
    { unfold tasks, Emitter.HandleNewMessage. destruct (has_cache_conf _); simpl;
        rewrite ?fmap_app; cbn [fmap list_fmap snd]; solve_Permutation. }
    constructor; [exists m; split; [left | apply made_from_new] |].
    eapply Forall_impl; [exact IH |]. intros t (m' & Hin & Hm). exists m'. split; [by right | done].
  - destruct (worked_place _ _ _ _ _ Hstep) as (s1 & Hs' & Hp & _). rewrite Hp in IH.
    apply Forall_cons in IH as [(m & Hin & Hm) IH].
    destruct (worked_origin _ _ _ _ _ _ Hstep Hm) as [Ho Hc]. rewrite Hs', place_tasks. apply Forall_app. split; [| done].
    destruct o as [| status | t' | t' sh]; simpl in Ho; try done; (constructor; [| done]);
      exists m; (rewrite (Hc t'); [done |]); [by left | right; by eexists].
  - inversion Hstep as [| | | | | ? new_conf l Hl]; subst. unfold tasks in *. simpl. by rewrite Hl.
Qed.

(** ** Where an object comes from *)

(** What an absorber's compiler prints for a preprocessed source, run with the
    request's compiler version, action and language-independent arguments. *)
Definition remote_object (m : Local_) (src obj : list Z) : Prop :=
  exists flags fs,
    let r := remote_run (CreateProcess flags SAME_UID []) src fs in
    proc_ok r = true /\ obj = proc_stdout r /\
    compiler_version (compiler flags) = compiler_version (compiler (local_flags m)) /\
    action flags = action (local_flags m) /\ other flags = other (local_flags m) /\
    non_direct flags = non_direct (local_flags m) /\ non_cached flags = [] /\ input flags = None /\
    output flags = Some (lit "-").

(** What the output of a request holds when its client was told [s] by a worker
    that found the daemon as [d] and left it as [d']. *)
Inductive compiled (m : Local_) (s : Status) (d d' : Daemon) : Prop :=
| from_the_cache w t entry :
    run w = local_run -> made_from m t ->
    found_entry print parse Uncompress clang_version w t d entry -> delivered m entry d' ->
    description s = Some (stderr entry) -> compiled m s d d'
| compiled_here c :
    let r := local_run (CreateProcess (set_compiler c (local_flags m)) (user m) (current_dir m)) [] (files_of d) in
    compiler_version c = compiler_version (compiler (local_flags m)) ->
    proc_ok r = true -> description s = Some (proc_stderr r) ->
    files_of d' !! GetOutputPath m = proc_files r !! GetOutputPath m -> compiled m s d d'
| compiled_elsewhere t reply res :
    made_from m t -> preprocessed m (EmitterTasks.source t) -> absorber_reply (outgoing t) reply ->
    reply_result reply = Some res -> files_of d' !! GetOutputPath m = Some (result_obj res) ->
    (from_cache res = Some false -> remote_object m (EmitterTasks.source t) (result_obj res)) ->
    compiled m s d d'.

Lemma local_compiled m w t s d d' :
  run w = local_run -> made_from m t -> clear_paths (cache d) m -> code s = OK ->
  local_task print Compress clang_version w t d = Some (Reported s, d') -> compiled m s d d'.
Proof.
  intros Hw Ht Hc Hs. unfold local_task. destruct (EmitterTasks.closed w); [done |].
  pose proof (made_from_setup m t (conf d) status_ok Ht) as Ht1.
  destruct (SetupCompiler_flags (conf d) (local_flags (message t)) status_ok) as [_ Hno].
  destruct (SetupCompiler _ _ _) as [[ok flags] status]. simpl in Ht1, Hno.
  destruct ok; cbn [negb]; [| intros [= <- _]; by rewrite Hno in Hs].
  destruct (same_request_paths _ _ (mf_message _ _ Ht1)) as (E1 & E2 & E3).
  destruct (mf_message _ _ Ht1) as (c & Hv & Hm). assert (flags = set_compiler c (local_flags m)) as Hfm
    by (apply (f_equal local_flags) in Hm; exact Hm).
  cbv zeta. rewrite Hw, E1, E2, E3. set (r := local_run _ _ _).
  destruct (proc_ok r) eqn:Hok; cbn [negb]; [| by intros [= <- _]].
  assert (forall d2, daemon_keeps (set_daemon_files (proc_files r) d) d2 ->
            compiled m (ok_with (proc_stderr r)) d d2) as Hdone.
  { intros d2 [_ [_ Hk]]. eapply (compiled_here _ _ _ _ c); cbv zeta; rewrite <-?Hfm; fold r; [done | done | done |].
    apply Hk. apply Hc. }
  case_decide; [intros [= <- <-]; by apply Hdone |].
  repeat case_match; try (intros [= <- <-]; by apply Hdone).
  all: intros (hash & Hh & (d2 & Hu & [= <- <-])%bind_Some)%bind_Some; apply Hdone.
  all: apply task_hash_plain in Hh; [| apply Ht1 | apply Ht1].
  all: eapply update_caches_keeps; [exact Hh | | exact Hu]; apply Ht1.
Qed.

(** The flags an absorber's compiler gets, of a request as an emitter sends it. *)
Definition remote_flags_ok (m : Local_) (f : Flags) : Prop :=
  compiler_version (compiler f) = compiler_version (compiler (local_flags m)) /\
  action f = action (local_flags m) /\ other f = other (local_flags m) /\
  non_direct f = non_direct (local_flags m) /\ non_cached f = [] /\ input f = None /\ output f = Some (lit "-").

Lemma outgoing_flags_ok m t :
  same_request m t -> remote_flags_ok m (preprocessed_language (AdjustFlags (remote_flags (outgoing t)))).
Proof.
  intros (c & Hv & Hm). unfold preprocessed_language, outgoing. rewrite Hm. destruct m as [[]]. destruct c.
  simpl in *. repeat case_match; by split_and!.
Qed.

Lemma setup_flags_ok m conf f status :
  remote_flags_ok m f -> remote_flags_ok m (SetupCompiler conf f status).1.2.
Proof.
  unfold remote_flags_ok. rewrite SetupCompiler_version.
  destruct (SetupCompiler_flags conf f status) as [Hf _]. destruct (SetupCompiler conf f status) as [[ok g] st].
  simpl in *. rewrite Hf. by destruct f.
Qed.

Lemma prepare_flags_ok m w extra temp_dir f d f' d' :
  PrepareExtraFilesForCompiler w extra temp_dir f d = (inl f', d') -> remote_flags_ok m f -> remote_flags_ok m f'.
Proof.
  unfold PrepareExtraFilesForCompiler. destruct (SetExtraFiles _); [| by intros [= <- _]].
  destruct (File_Write_daemon _ _ _ _) as [[] ?]; intros [= <- _]. by destruct f.
Qed.

(** What an absorber makes of a request as an emitter sends it. *)
Lemma absorber_compiled m t reply res :
  same_request m t -> absorber_reply (outgoing t) reply -> reply_result reply = Some res ->
  from_cache res = Some false -> remote_object m (EmitterTasks.source t) (result_obj res).
Proof.
  intros Hm (w & temp_dir & conn & hash & req & d & d' & Hw & Hreq & H) Hres Hfresh. destruct H as [H | H].
  - assert (execute_request print Compress w temp_dir {| client := conn; request_ := outgoing t; local_hash := hash |} d
            = Some (Absorber.Sent reply, d')) as Hx
      by (destruct Hreq as [-> | ->]; [exact H | by rewrite execute_adjusted in H]).
    clear H. revert Hx. unfold execute_request. destruct (EmitterTasks.closed w); [done |].
    cbn [request_ local_hash]. intros (h & _ & H)%bind_Some.
    pose proof (setup_flags_ok m (conf d) _ status_ok (outgoing_flags_ok m t Hm)) as Hf. revert H Hf.
    destruct (SetupCompiler _ _ _) as [[ok flags] status]. simpl. destruct ok; cbn [negb]; [| done]. intros H Hf. revert H.
    destruct (PrepareExtraFilesForCompiler _ _ _ _ _) as [[f1|] d1] eqn:Hp; [| done].
    apply (prepare_flags_ok m) in Hp; [| exact Hf]. rewrite Hw.
    destruct (proc_ok _) eqn:Hok; cbn [negb]; [| intros [= <- _]; done].
    intros (d2 & _ & [= <- _])%bind_Some. injection Hres as <-. exists f1, (files_of d1). cbv zeta.
    split; [done |]. split; [done | exact Hp].
  - exfalso. revert H. unfold check_request. destruct (EmitterTasks.closed w); [done |].
    intros (h & _ & ([[[|] entry] d1] & _ & H)%bind_Some)%bind_Some; [| done].
    injection H as <- _. injection Hres as <-. discriminate Hfresh.
Qed.

Lemma remote_compiled m w wconf shard t s d d' :
  of_program w t d -> made_from m t -> clear_paths (cache d) m -> code s = OK ->
  remote_task print Compress clang_version w wconf shard t d = Some (Reported s, d') -> compiled m s d d'.
Proof.
  intros [Hw Hrecv] Ht Hc Hs H. destruct (remote_sent m w wconf shard t d _ d' Hw Ht H) as [_ H1].
  destruct (H1 s eq_refl Hs) as (t' & hash & reply & d1 & Hsent & Ht' & Hsrc & Hp & P1 & Hr & Hh).
  pose proof (Hrecv t' reply Hsent Hr) as Habs.
  apply handle_reply_delivers in Hh as (res & Hres & Hst & Hfile & ->); [| | apply Ht' | done].
  - destruct (same_request_paths _ _ (mf_message _ _ Ht')) as (E1 & _). rewrite E1 in Hfile.
    eapply compiled_elsewhere; [exact Ht' | exact Hsrc | exact Habs | exact Hres | exact Hfile |].
    eapply absorber_compiled; [apply Ht' | exact Habs | exact Hres].
  - apply (same_request_clear _ m); [apply Ht' |]. by eapply clear_paths_ext.
Qed.

(** ** Answers and requests *)

Lemma served_connections d0 reqs s : served d0 reqs s -> connections s ≡ₚ reqs.*1 /\ NoDup reqs.*1.
Proof.
  induction 1 as [| reqs s conn m _ [Hc Hn] Hconn | reqs s t w o s' _ [Hc Hn] Hstep | reqs s s' _ [Hc Hn] Hstep].
  - split; [done | constructor].
  - pose proof (step_connections _ _ _ _ _ _ _ _ (step_arrive print parse Compress Uncompress clang_version s conn m Hconn))
      as [_ Hc'].
    split; [by rewrite Hc', Hc |]. constructor; [| done]. by rewrite <-Hc.
  - apply worked_step in Hstep as [again Hstep]. apply step_connections in Hstep. by rewrite Hstep.
  - apply step_connections in Hstep. by rewrite Hstep.
Qed.

Lemma request_unique d0 reqs s conn m m' :
  served d0 reqs s -> (conn, m) ∈ reqs -> (conn, m') ∈ reqs -> m = m'.
Proof.
  intros [_ Hn]%served_connections [i Hi]%list_elem_of_lookup [j Hj]%list_elem_of_lookup.
  assert (i = j) as ->; [| congruence].
  eapply NoDup_lookup; [exact Hn | |]; rewrite list_lookup_fmap; [by rewrite Hi | by rewrite Hj].
Qed.

Lemma daemon_place conn o s : daemon (place conn o s) = daemon s.
Proof. by destruct o. Qed.

(** An answer is the report of a worker. *)
Lemma place_answer conn conn' o st s l :
  answers s = l -> answers (place conn o s) = l ++ [(conn', Some st)] -> o = Reported st /\ conn = conn'.
Proof.
  intros <- H. destruct o; simpl in H.
  - apply app_inj_tail in H as [_ [=]].
  - apply app_inj_tail in H as [_ [= -> ->]]. done.
  - apply (f_equal length) in H. rewrite length_app in H. simpl in H. lia.
  - apply (f_equal length) in H. rewrite length_app in H. simpl in H. lia.
Qed.

Lemma task_origin d0 reqs s t m :
  served d0 reqs s -> t ∈ tasks s -> (connection t, m) ∈ reqs -> made_from m t.
Proof.
  intros Hs Hin Hm. pose proof (served_origin _ _ _ Hs) as Ho.
  destruct (proj1 (Forall_forall _ _) Ho _ Hin) as (m' & Hm' & Hmade).
  by rewrite (request_unique _ _ _ _ _ _ Hs Hm Hm').
Qed.

Lemma answer_compiled d0 reqs s t w o s' conn m st :
  served d0 reqs s -> (conn, m) ∈ reqs -> clear_paths (cache (daemon s)) m -> worked s t w o s' ->
  answers s' = answers s ++ [(conn, Some st)] -> code st = OK -> compiled m st (daemon s) (daemon s').
Proof.
  intros Hs Hin Hc Hstep Ha Hok. apply worked_place in Hstep as (s1 & -> & Hp & Hans & Hw & Ho).
  rewrite daemon_place. eapply place_answer in Ha as [-> Hconn]; [| exact Hans].
  assert (made_from m t) as Ht
    by (rewrite <-Hconn in Hin; apply (task_origin _ _ _ _ _ Hs); [rewrite Hp; left | done]).
  destruct Ho as [[wconf Ho] | [Ho | (wconf & shard & Ho)]].
  - apply check_cache_delivers in Ho as (entry & Hf & Hd & He); [| by apply (same_request_clear _ m); [apply Ht |] | done].
    eapply from_the_cache; [apply Hw | exact Ht | exact Hf | | exact He]. eapply delivered_same; [apply Ht | exact Hd].
  - eapply local_compiled; [apply Hw | exact Ht | exact Hc | exact Hok | exact Ho].
  - by eapply remote_compiled.
Qed.

(** ** The client *)

(** The emitter, whose worker found the daemon as [d], has answered a request
    with a status and left the daemon as [d'].  The output of the request is not
    in the cache's directory. *)
Definition emitter_answers (m : Local_) (st : Status) (d d' : Daemon) : Prop :=
  exists d0 reqs s t w o s' conn,
    served d0 reqs s /\ (conn, m) ∈ reqs /\ clear_paths (cache d) m /\ worked s t w o s' /\
    answers s' = answers s ++ [(conn, Some st)] /\ daemon s = d /\ daemon s' = d'.

(** What the client reads for a message is an answer of the emitter to it. *)
Definition connected_to_emitter (s : settings) (w : ClientRun.world) (commands : list Command) (v : list Z) : Prop :=
  forall i c m st, commands !! i = Some c -> action_of s w v c = Some (ClientRun.Sent m) ->
    answer w i = Some (Some st) -> exists d d', emitter_answers m st d d'.

(** C3: what a successful build has on its disk.  When a run of the client ends with
    [Done] and what it reads are answers of an emitter, then for each compilation
    of the invocation the emitter's answer left the output of the request with an
    object that was made for it: the entry that the emitter's cache holds for the
    request; or what the local compiler left there, run with the request's own
    arguments and the compiler of its version; or the object in an absorber's
    reply, which, unless it comes from the absorber's cache, is what a compiler
    of the same version printed for the source that a preprocessor had made of
    the same request. *)
Theorem done_means_compiled (s : settings) (w : ClientRun.world) (argv : list (list Z)) (acts : list action_) :
  DoMain s w argv = Some (acts, Done) ->
  (forall commands v, GenerateFromArgs (ClientRun.parse w) (driver w) argv = Some (inr commands) ->
     (get_version s w).2 = Some v -> connected_to_emitter s w commands v) ->
  exists commands v,
    GenerateFromArgs (ClientRun.parse w) (driver w) argv = Some (inr commands) /\ (get_version s w).2 = Some v /\
    (exists c, c ∈ commands /\ CanFillFlags c = true) /\
    forall i c, commands !! i = Some c -> CanFillFlags c = true ->
      exists m st d d', action_of s w v c = Some (ClientRun.Sent m) /\ ClientRun.Sent m ∈ acts /\
        answer w i = Some (Some st) /\ code st = OK /\ compiled m st d d'.
Proof.
  intros [(Ho & _) | (_ & _ & _ & commands & v & rest & Hg & Hv & Hh & ->)]%DoMain_cases Hcon; [done |].
  exists commands, v. split_and!; [done | done | by eapply GenerateFromArgs_clang |].
  intros i c Hi Hc. destruct (handle_commands_ok s w v 0 commands) as (racts & o & done_ & l & Hh' & Heq & Hr & Hd & Hl).
  rewrite Hh in Hh'. injection Hh' as <- <-. destruct l as [|x l]; [| done].
  rewrite app_nil_r in Heq. subst done_. destruct (Hd i c Hi) as [[a Ha] Hok]. unfold succeeded in Hok. rewrite Hc in Hok.
  destruct Hok as (_ & st & Hst & Hcode). simpl in Hst.
  assert (exists m, a = ClientRun.Sent m) as [m ->].
  { unfold action_of in Ha. rewrite Hc in Ha. apply fmap_Some in Ha as (m & _ & ->). by exists m. }
  destruct (Hcon commands v Hg Hv i c m st Hi Ha Hst) 
    as (d & d' & d0 & reqs & es & t & ew & eo & es' & conn & Hs & Hin & Hcl & Hstep & Hans & <- & <-).
  exists m, st, (daemon es), (daemon es'). split_and!; [done | | done | done | by eapply answer_compiled].
  apply elem_of_app. right. rewrite Hr. apply list_elem_of_omap. exists c. split; [| done].
  rewrite app_nil_r. by eapply list_elem_of_lookup_2.
Qed.

End Whole.

(** ** A concrete build: an emitter without a cache compiles the client's request *)

Definition plain_daemon : Daemon :=
  {| conf := {| emitter := None; absorber := None; coordinator := None; pool_capacity := 1; versions := [];
                cache_conf := None |};
     cache_on := false; cache := toy_cache |}.

(** A compiler that prints a warning and leaves an object. *)
Definition plain_run (p : Process) (input : list Z) (fs : gmap path (list Z)) : run_result :=
  {| proc_ok := true; proc_stdout := lit "int a;"; proc_stderr := lit "warning"; proc_error := [];
     proc_files := <[lit "/home/a.o" := lit "ELF"]> fs |}.

Definition plain_world : EmitterTasks.world :=
  {| EmitterTasks.closed := false; calls := good_env; run := plain_run; connected := false; EmitterTasks.sent := false;
     received := None; random := 0 |}.

Definition plain_compiled : Daemon := set_daemon_files (<[lit "/home/a.o" := lit "ELF"]> (files_of plain_daemon)) plain_daemon.

Lemma plain_answers m :
  has (compiler_path (compiler (local_flags m))) = true -> clear_paths toy_cache m ->
  emitter_answers toy_print toy_parse toy_Compress toy_Uncompress (lit "clang 4") plain_run plain_run
    m (ok_with (lit "warning")) plain_daemon plain_compiled.
Proof.
  intros Hp Hc. set (s := Emitter.HandleNewMessage 0 m (initial plain_daemon)).
  assert (local_task toy_print toy_Compress (lit "clang 4") plain_world (new_task 0 m) plain_daemon
          = Some (Reported (ok_with (lit "warning")), plain_compiled)) as Hl.
  { unfold local_task, SetupCompiler. cbn [EmitterTasks.closed plain_world message new_task conf].
    rewrite Hp. reflexivity. }
  exists plain_daemon, [(0%nat, m)], s, (new_task 0 m), plain_world, (Reported (ok_with (lit "warning"))),
    (place 0 (Reported (ok_with (lit "warning"))) (set_all_tasks [] (with_daemon plain_compiled s))), 0%nat.
  split_and!; [| left | exact Hc | | reflexivity | reflexivity | reflexivity].
  - apply served_arrived; [constructor | apply not_elem_of_nil].
  - refine (worked_local _ _ _ _ _ _ _ s [] _ (new_task 0 m) [] plain_world _ _ eq_refl eq_refl _ Hl).
    constructor; [reflexivity | intros t' reply _ [=]].
Qed.

Definition build_world : ClientRun.world := linked_world (ok_with (lit "warning")).

Lemma build_connected commands v :
  GenerateFromArgs (ClientRun.parse build_world) (driver build_world) linked_argv = Some (inr commands) ->
  (get_version linked_run build_world).2 = Some v ->
  connected_to_emitter toy_print toy_parse toy_Compress toy_Uncompress (lit "clang 4") plain_run plain_run linked_run
    build_world commands v.
Proof.
  intros Hg Hv i c m st Hi Ha Hst. destruct i as [|i]; [| discriminate Hst]. injection Hst as <-.
  vm_compute in Hg. injection Hg as <-. vm_compute in Hv. injection Hv as <-. injection Hi as <-.
  vm_compute in Ha. injection Ha as <-. eexists _, _. apply plain_answers; [reflexivity |]. constructor; [| discriminate].
  intros H. assert (bool_decide (path_ toy_cache `prefix_of` lit "/home/a.o") = true) as Hb
    by (apply bool_decide_eq_true; exact H). vm_compute in Hb. discriminate Hb.
Qed.

Lemma done_means_compiled_witness :
  exists acts commands v m st d d',
    DoMain linked_run build_world linked_argv = Some (acts, Done) /\
    GenerateFromArgs (ClientRun.parse build_world) (driver build_world) linked_argv = Some (inr commands) /\
    ClientRun.Sent m ∈ acts /\ (exists c, commands !! 0%nat = Some c /\ action_of linked_run build_world v c = Some (ClientRun.Sent m)) /\
    compiled toy_print toy_parse toy_Compress toy_Uncompress (lit "clang 4") plain_run plain_run m st d d'.
Proof.
  destruct (DoMain linked_run build_world linked_argv) as [[acts o]|] eqn:Hd; [| vm_compute in Hd; discriminate Hd].
  assert (o = Done) as -> by (vm_compute in Hd; injection Hd as _ <-; reflexivity).
  destruct (done_means_compiled toy_print toy_parse toy_Compress toy_Uncompress (lit "clang 4") plain_run plain_run linked_run
              build_world linked_argv acts Hd build_connected) as (commands & v & Hg & Hv & _ & Hall).
  destruct commands as [|c commands]; [vm_compute in Hg; discriminate Hg |].
  assert (CanFillFlags c = true) as Hc by (vm_compute in Hg; injection Hg as <- _; reflexivity).
  destruct (Hall 0%nat c eq_refl Hc) as (m & st & d & d' & Ha & Hin & _ & _ & Hcomp).
  exists acts, (c :: commands), v, m, st, d, d'. split_and!; [reflexivity | exact Hg | exact Hin | | exact Hcomp].
  exists c. split; [reflexivity | exact Ha].
Defined.
