(* ===== verification/ThreadPool.v ===== *)
(** [base::WorkerPool] and [base::ThreadPool] ([src/src/base/worker_pool.cc],
    [src/src/base/thread_pool.cc]): pushing closures, the threads that run them and
    the destructors, in every interleaving.

    The queue of tasks is a [LockedQueue], whose tasks are the numbers of the
    promises in the order in which [Push] has made them; a promise is the state
    of [Future].  Only the destructor sets the promise's default value, which is
    [false] here. *)

From S2P Require Import Prelude LockedQueue Future.

(** ** [WorkerPool] *)

Record WorkerPool := { is_shutting_down_ : bool; force_shut_down_ : bool }.

Definition new_worker_pool (force : bool) : WorkerPool :=
  {| is_shutting_down_ := false; force_shut_down_ := force |}.

(** [later] is what the flag is when the wait ends. *)
Definition WaitUntilShutdown (zero_duration later : bool) (p : WorkerPool) : bool :=
  if is_shutting_down_ p then true
  else if zero_duration then is_shutting_down_ p
  else later.

Definition IsShuttingDown (p : WorkerPool) : bool := WaitUntilShutdown true false p.

Definition shut_down (p : WorkerPool) : WorkerPool :=
  {| is_shutting_down_ := true; force_shut_down_ := force_shut_down_ p |}.

(** The destructor before and after it has joined the threads. *)
Definition destroy_begin (p : WorkerPool) : WorkerPool := if force_shut_down_ p then shut_down p else p.
Definition destroy_end (p : WorkerPool) : WorkerPool := if negb (force_shut_down_ p) then shut_down p else p.

(** ** [ThreadPool] *)

(** Where a thread is in [DoWork]. *)
Inductive worker :=
| Looping                 (* at the condition of the loop *)
| Popping                 (* in [tasks_.Pop()] *)
| Running (i : nat)       (* in [task->first()] *)
| Finished (i : nat)      (* before [task->second.SetValue(true)] *)
| Ending (i : nat)        (* before the end of the task's life *)
| Exited.

(** How far the destructor is. *)
Inductive phase_ := Alive | Closing | Joining | Joined | Gone.

#[export] Instance phase_dec : EqDecision phase_.
Proof. solve_decision. Defined.

Record pool := {
  tasks_ : Queue nat;
  pool_ : WorkerPool;
  workers : list worker;
  promises : list (Future.State (T := bool));
  pushing : list nat;       (* calls of [Push] between the test of [closed_] and the lock *)
  phase : phase_;
  queued : list nat;        (* the tasks that were put into the queue, oldest first *)
  started : list nat;       (* the tasks that were taken out of it *)
  late : list nat           (* the queued tasks that came after the queue was closed *)
}.

Definition new_pool (capacity : Z) : pool :=
  {| tasks_ := new_queue capacity; pool_ := new_worker_pool false; workers := []; promises := [];
     pushing := []; phase := Alive; queued := []; started := []; late := [] |}.

Definition set_tasks (q : Queue nat) (p : pool) : pool :=
  {| tasks_ := q; pool_ := pool_ p; workers := workers p; promises := promises p; pushing := pushing p;
     phase := phase p; queued := queued p; started := started p; late := late p |}.
Definition set_pool (w : WorkerPool) (p : pool) : pool :=
  {| tasks_ := tasks_ p; pool_ := w; workers := workers p; promises := promises p; pushing := pushing p;
     phase := phase p; queued := queued p; started := started p; late := late p |}.
Definition set_workers (l : list worker) (p : pool) : pool :=
  {| tasks_ := tasks_ p; pool_ := pool_ p; workers := l; promises := promises p; pushing := pushing p;
     phase := phase p; queued := queued p; started := started p; late := late p |}.
Definition set_promises (l : list Future.State) (p : pool) : pool :=
  {| tasks_ := tasks_ p; pool_ := pool_ p; workers := workers p; promises := l; pushing := pushing p;
     phase := phase p; queued := queued p; started := started p; late := late p |}.
Definition set_pushing (l : list nat) (p : pool) : pool :=
  {| tasks_ := tasks_ p; pool_ := pool_ p; workers := workers p; promises := promises p; pushing := l;
     phase := phase p; queued := queued p; started := started p; late := late p |}.
Definition set_phase (ph : phase_) (p : pool) : pool :=
  {| tasks_ := tasks_ p; pool_ := pool_ p; workers := workers p; promises := promises p; pushing := pushing p;
     phase := ph; queued := queued p; started := started p; late := late p |}.
Definition note_queued (i : nat) (p : pool) : pool :=
  {| tasks_ := tasks_ p; pool_ := pool_ p; workers := workers p; promises := promises p; pushing := pushing p;
     phase := phase p; queued := queued p ++ [i]; started := started p;
     late := if closed_ (tasks_ p) then late p ++ [i] else late p |}.
Definition note_started (i : nat) (p : pool) : pool :=
  {| tasks_ := tasks_ p; pool_ := pool_ p; workers := workers p; promises := promises p; pushing := pushing p;
     phase := phase p; queued := queued p; started := started p ++ [i]; late := late p |}.

(** [SetValue] of promise [i] by thread [self]. *)
Definition set_value (self : nat) (v : bool) (i : nat) (p : pool) : pool :=
  set_promises (alter (SetStateValue self v) i (promises p)) p.

(** [Run]: [AddWorker] of [concurrency] threads, which checks the number. *)
Definition Run (concurrency : nat) (p : pool) : option pool :=
  if (concurrency =? 0)%nat then None
  else Some (set_workers (workers p ++ replicate concurrency Looping) p).

(** [Push] up to the lock of the queue: the promise is made, and destroyed at
    once when the queue is closed. *)
Definition Push_begin (self : nat) (p : pool) : pool :=
  let i := length (promises p) in
  let p := set_promises (promises p ++ [Future.new_state false]) p in
  if closed_ (tasks_ p) then set_value self false i p else set_pushing (pushing p ++ [i]) p.

(** The rest of [Push] of promise [i]; a task that was not pushed is destroyed. *)
Definition Push_end (self i : nat) (p : pool) : option pool :=
  '(b, q) ← push_locked i DEFAULT_SHARD (tasks_ p);
  Some (if (b : bool) then set_tasks (push_count q) (note_queued i p) else set_value self false i (set_tasks q p)).

(** One step of thread [k], which is at [w], in [DoWork]. *)
Definition worker_step (k : nat) (w : worker) (p : pool) : option pool :=
  let goto w p := set_workers (<[k := w]> (workers p)) p in
  match w with
  | Looping => Some (goto (if IsShuttingDown (pool_ p) then Exited else Popping) p)
  | Popping =>
      '(r, q) ← Pop (tasks_ p);
      let p := set_tasks q p in
      Some match r with
           | Wait => p
           | Disengaged => goto Exited p
           | Popped _ i => goto (Running i) (note_started i p)
           end
  | Running i => Some (goto (Finished i) p)
  | Finished i => Some (goto (Ending i) (set_value k true i p))
  | Ending i => Some (goto Looping (set_value k false i p))
  | Exited => None
  end.

(** The destructor of the queue destroys the tasks that are left. *)
Definition drop_tasks (self : nat) (p : pool) : pool :=
  foldr (fun i p => set_value self false i p) p (queue_ (tasks_ p)).*2.

Inductive event := Pushing | Pushed (i : nat) | Worked (k : nat) | Destructor.

(** [self] is the thread that calls. *)
Inductive step : pool -> event -> pool -> Prop :=
| step_push_begin p self :
    phase p = Alive \/ phase p = Closing \/ phase p = Joining ->
    step p Pushing (Push_begin self p)
| step_push_end p self l1 i l2 p' :
    pushing p = l1 ++ i :: l2 -> Push_end self i (set_pushing (l1 ++ l2) p) = Some p' ->
    step p (Pushed i) p'
| step_worker p k w p' :
    workers p !! k = Some w -> worker_step k w p = Some p' -> step p (Worked k) p'
| step_close p :
    phase p = Alive -> step p Destructor (set_phase Closing (set_tasks (Close (tasks_ p)) p))
| step_join p :
    phase p = Closing -> step p Destructor (set_phase Joining (set_pool (destroy_begin (pool_ p)) p))
| step_joined p :
    phase p = Joining -> Forall (fun w => w = Exited) (workers p) ->
    step p Destructor (set_phase Joined (set_pool (destroy_end (pool_ p)) p))
| step_gone p self :
    phase p = Joined -> pushing p = [] -> step p Destructor (set_phase Gone (drop_tasks self p)).

(** The states of a pool of [n] threads. *)
Inductive reachable (capacity : Z) (n : nat) : pool -> Prop :=
| reach_run p : Run n (new_pool capacity) = Some p -> reachable capacity n p
| reach_step p e p' : reachable capacity n p -> step p e p' -> reachable capacity n p'.

(** ** Lemmas: the queue of a pool *)

(** All tasks are in the default shard, so that a pop takes the oldest one. *)
Definition one_shard (q : Queue nat) : Prop :=
  forall a, a ∈ nodes q -> reverse_index_ (index q) !! a = Some DEFAULT_SHARD.

Lemma Pop_oldest q r q' :
  queue_ok q -> one_shard q -> Pop q = Some (r, q') ->
  queue_ok q' /\ one_shard q' /\ closed_ q' = closed_ q /\ capacity_ q' = capacity_ q /\
  match r with
  | Wait => closed_ q = false /\ queue_ q' = queue_ q
  | Disengaged => closed_ q = true /\ queue_ q = [] /\ queue_ q' = queue_ q
  | Popped a i => queue_ q = (a, i) :: queue_ q'
  end.
Proof.
  intros Hq Hone Hpop. destruct (Pop_ok q Hq) as (r' & q'' & Hpop' & Hout & Hhint).
  rewrite Hpop in Hpop'. injection Hpop' as <- <-.
  destruct Hout as (Hq' & Hc & _ & Hcap & _ & Hr). split; [done |].
  destruct r as [| | a i].
  - destruct Hr as (Hqu & _ & Hrev). unfold one_shard, nodes. rewrite Hqu, Hrev. by destruct Hhint.
  - destruct Hr as (Hqu & _ & Hrev). unfold one_shard, nodes. rewrite Hqu, Hrev. by destruct Hhint as [| []].
  - destruct Hr as (Hin & _ & Hqu & Hrev & _). destruct Hhint as [_ Hh].
    assert (tasks_of q DEFAULT_SHARD = nodes q) as Ht by (by apply filter_all).
    rewrite Ht in Hh. pose proof (ok_nodup _ Hq) as Hnd. unfold nodes in *.
    destruct (queue_ q) as [|[a0 i0] rest] eqn:Hl; [by apply elem_of_nil in Hin |].
    simpl in Hh. subst a0. cbn [fmap list_fmap] in Hnd. apply NoDup_cons in Hnd as [Hnin _]. simpl in Hnin.
    assert (i0 = i) as ->.
    { apply elem_of_cons in Hin as [[=] | Hin]; [done |]. destruct Hnin. exact (list_elem_of_fmap_2 fst _ _ Hin). }
    rewrite filter_cons_False in Hqu by (simpl; tauto). rewrite filter_all in Hqu.
    2: { intros [b j] Hb Heq. simpl in Heq. subst b. apply Hnin. exact (list_elem_of_fmap_2 fst _ _ Hb). }
    rewrite Hqu. split_and!; [| done | done | done]. intros b Hb. unfold nodes in Hb. rewrite Hqu in Hb.
    rewrite Hrev, lookup_delete_ne; [apply Hone; unfold nodes; rewrite Hl; by right | by intros ->].
Qed.

Lemma push_oldest q i :
  queue_ok q -> one_shard q ->
  exists b q', push_locked i DEFAULT_SHARD q = Some (b, q') /\ queue_ok q' /\ one_shard q' /\
    closed_ q' = closed_ q /\ capacity_ q' = capacity_ q /\
    (b = false <-> (capacity_ q <= Zlen (queue_ q) /\ capacity_ q <> UNLIMITED)%Z) /\
    if b then queue_ q' = queue_ q ++ [(next_ q, i)] else queue_ q' = queue_ q.
Proof.
  intros Hq Hone. destruct (push_locked_ok q i DEFAULT_SHARD Hq) as (b & q' & Hp & Hq' & Hb & Hc & Hcap & _ & _ & Hr);
    [done |].
  exists b, q'. destruct b; [| by subst q']. destruct Hr as (Hqu & _ & Hrev). split_and!; try done; try apply Hb.
  intros a Ha. rewrite Hrev. unfold nodes in Ha. rewrite Hqu, fmap_app in Ha.
  destruct (decide (a = next_ q)) as [-> | Hne]; [by rewrite lookup_insert_eq |].
  rewrite lookup_insert_ne by done. apply Hone. apply elem_of_app in Ha as [Ha | Ha]; [done |].
  by apply list_elem_of_singleton in Ha.
Qed.

Lemma queue_ok_count (q : Queue nat) : queue_ok q -> queue_ok (push_count q).
Proof. by intros []. Qed.

Lemma queue_ok_close (q : Queue nat) : queue_ok q -> queue_ok (Close q).
Proof. by intros []. Qed.

(** ** Lemmas: promises *)

(** The promises of [opened] are the ones that have no value yet; the others say
    whether their task was taken by a thread. *)
Definition promises_ok (opened taken : list nat) (l : list (Future.State (T := bool))) : Prop :=
  forall i st, l !! i = Some st ->
    async_id st = None /\ (fulfilled st = false <-> i ∈ opened) /\
    (fulfilled st = true -> value st = bool_decide (i ∈ taken)).

Lemma promises_set self v i opened opened' taken l :
  promises_ok opened taken l -> i ∈ opened -> (forall j, j ∈ opened' <-> j ∈ opened /\ j <> i) ->
  v = bool_decide (i ∈ taken) -> promises_ok opened' taken (alter (SetStateValue self v) i l).
Proof.
  intros Hl Hi Ho ->  j st Hj. destruct (decide (j = i)) as [-> | Hne].
  - rewrite list_lookup_alter, decide_True in Hj by done. apply fmap_Some in Hj as (st0 & Hst & ->).
    destruct (Hl i st0 Hst) as (Ha & Hf & _). unfold SetStateValue. rewrite Ha, (proj2 Hf Hi). simpl.
    split_and!; [done | | done]. rewrite Ho. split; [done | by intros []].
  - rewrite list_lookup_alter_ne in Hj by done. destruct (Hl j st Hj) as (Ha & Hf & Hv).
    split_and!; [done | | done]. rewrite Hf, Ho. tauto.
Qed.

Lemma promises_same opened opened' taken l :
  promises_ok opened taken l -> (forall j, j ∈ opened' <-> j ∈ opened) -> promises_ok opened' taken l.
Proof. intros Hl Ho j st Hj. destruct (Hl j st Hj) as (Ha & Hf & Hv). by rewrite Ho. Qed.

Lemma promises_keep self v i opened taken l :
  promises_ok opened taken l -> i ∉ opened -> alter (SetStateValue self v) i l = l.
Proof.
  intros Hl Hi. apply list_eq. intros j. destruct (decide (j = i)) as [-> | Hne].
  - rewrite list_lookup_alter, decide_True by done. destruct (l !! i) as [st|] eqn:Hst; [| done]. simpl. f_equal.
    destruct (Hl i st Hst) as (_ & Hf & _). apply set_fulfilled.
    destruct (fulfilled st); [done |]. destruct Hi. by apply Hf.
  - by rewrite list_lookup_alter_ne.
Qed.

Lemma promises_taken opened taken i l :
  promises_ok opened taken l -> i ∈ opened -> promises_ok opened (taken ++ [i]) l.
Proof.
  intros Hl Hi j st Hj. destruct (Hl j st Hj) as (Ha & Hf & Hv). split_and!; [done | done |]. intros Hfu.
  rewrite (Hv Hfu). apply bool_decide_ext. rewrite elem_of_app, list_elem_of_singleton.
  split; [by left | intros [? | ->]; [done |]]. apply Hf in Hi. congruence.
Qed.

Lemma promises_new opened taken l :
  promises_ok opened taken l -> (forall j, j ∈ opened \/ j ∈ taken -> j < length l) ->
  promises_ok (opened ++ [length l]) taken (l ++ [Future.new_state false]).
Proof.
  intros Hl Hlt j st Hj. rewrite elem_of_app, list_elem_of_singleton.
  apply lookup_app_Some in Hj as [Hj | [Hge Hj]].
  - destruct (Hl j st Hj) as (Ha & Hf & Hv). split_and!; [done | | done]. rewrite Hf.
    apply lookup_lt_Some in Hj. split; [by left | intros [? | ->]; [done | lia]].
  - apply list_lookup_singleton_Some in Hj as [Hz <-]. assert (j = length l) as -> by lia.
    split_and!; [done | | done]. simpl. split; [by right | done].
Qed.

(** ** The invariant *)

Definition in_queue (p : pool) : list nat := (queue_ (tasks_ p)).*2.

(** The task a thread runs, and the one it holds. *)
Definition busy (w : worker) : option nat := match w with Running i | Finished i => Some i | _ => None end.
Definition held (w : worker) : option nat := match w with Running i | Finished i | Ending i => Some i | _ => None end.

(** The promises that have no value yet. *)
Definition opened (p : pool) : list nat :=
  match phase p with Gone => [] | _ => pushing p ++ in_queue p ++ omap busy (workers p) end.

Record pool_ok (capacity : Z) (n : nat) (p : pool) : Prop := {
  po_queue : queue_ok (tasks_ p);
  po_shard : one_shard (tasks_ p);
  po_capacity : capacity_ (tasks_ p) = capacity;
  po_order : queued p = started p ++ in_queue p;
  po_nodup : NoDup (pushing p ++ queued p);
  po_below : forall i, i ∈ pushing p \/ i ∈ queued p -> i < length (promises p);
  po_held : NoDup (omap held (workers p)) /\ forall i, i ∈ omap held (workers p) -> i ∈ started p;
  po_promises : promises_ok (opened p) (started p) (promises p);
  po_closed : closed_ (tasks_ p) = negb (bool_decide (phase p = Alive));
  po_late : closed_ (tasks_ p) = false -> late p = [];
  po_exited : Exited ∈ workers p -> closed_ (tasks_ p) = true /\ forall i, i ∈ in_queue p -> i ∈ late p;
  po_down : force_shut_down_ (pool_ p) = false /\
            (is_shutting_down_ (pool_ p) = true -> phase p = Joined \/ phase p = Gone);
  po_joined : phase p = Joined \/ phase p = Gone -> Forall (fun w => w = Exited) (workers p);
  po_gone : phase p = Gone -> pushing p = [];
  po_count : length (workers p) = n /\ n <> 0
}.

Lemma busy_held w i : busy w = Some i -> held w = Some i.
Proof. by destruct w. Qed.

Lemma busy_elem (l : list worker) (i : nat) : i ∈ omap busy l -> i ∈ omap held l.
Proof. rewrite !list_elem_of_omap. intros (w & Hw & Hb). exists w. split; [done | by apply busy_held]. Qed.

Lemma worker_split (l : list worker) k w w' :
  l !! k = Some w -> exists l1 l2, l = l1 ++ w :: l2 /\ <[k := w']> l = l1 ++ w' :: l2.
Proof.
  intros Hk. exists (take k l), (drop (S k) l). split; [by rewrite take_drop_middle |].
  apply insert_take_drop. by eapply lookup_lt_Some.
Qed.

(** A task is in one place: in a call of [Push], in the queue or with a thread. *)
Lemma places_apart capacity n p i :
  pool_ok capacity n p ->
  (i ∈ pushing p -> i ∉ in_queue p /\ i ∉ started p) /\ (i ∈ in_queue p -> i ∉ started p).
Proof.
  intros Hp. pose proof (po_nodup _ _ _ Hp) as Hn. rewrite (po_order _ _ _ Hp) in Hn.
  apply NoDup_app in Hn as (_ & H1 & (_ & H2 & _)%NoDup_app). split.
  - intros Hi. apply H1 in Hi. rewrite elem_of_app in Hi. tauto.
  - intros Hi Hs. by apply (H2 i).
Qed.

Lemma init_ok capacity n p : Run n (new_pool capacity) = Some p -> pool_ok capacity n p.
Proof.
  unfold Run. destruct (Nat.eqb_spec n 0); [done |]. intros [= <-].
  assert (omap held (replicate n Looping) = []) as Hh by (clear; induction n as [|n IH]; [done | exact IH]).
  assert (omap busy (replicate n Looping) = []) as Hb by (clear; induction n as [|n IH]; [done | exact IH]).
  constructor; simpl; try done.
  - apply new_queue_ok.
  - intros a Ha. by apply elem_of_nil in Ha.
  - apply NoDup_nil_2.
  - intros i [Hi | Hi]; by apply elem_of_nil in Hi.
  - rewrite Hh. split; [apply NoDup_nil_2 | done].
  - by intros [Hin _]%elem_of_replicate.
  - by intros [|].
  - by rewrite length_replicate.
Qed.

Lemma push_begin_ok capacity n p self :
  (phase p = Alive \/ phase p = Closing \/ phase p = Joining) -> pool_ok capacity n p ->
  pool_ok capacity n (Push_begin self p).
Proof.
  intros Hph Hp. assert (opened p = pushing p ++ in_queue p ++ omap busy (workers p)) as Ho
    by (unfold opened; destruct Hph as [-> | [-> | ->]]; done).
  assert (forall i, i ∈ opened p \/ i ∈ started p -> i < length (promises p)) as Hlt.
  { intros i Hi. apply (po_below _ _ _ Hp). rewrite (po_order _ _ _ Hp), elem_of_app.
    rewrite Ho, !elem_of_app in Hi. destruct Hi as [[Hi | [Hi | Hi]] | Hi]; [tauto.. | | tauto].
    apply busy_elem, (po_held _ _ _ Hp) in Hi. tauto. }
  pose proof (promises_new _ _ _ (po_promises _ _ _ Hp) Hlt) as Hpr. unfold Push_begin.
  cbn zeta. cbn [tasks_ set_promises].
  destruct (closed_ (tasks_ p)) eqn:Hc.
  - assert (promises_ok (opened p) (started p)
              (alter (SetStateValue self false) (length (promises p)) (promises p ++ [Future.new_state false]))) as Hpr'.
    { eapply promises_set; [exact Hpr | | |].
      - rewrite elem_of_app, list_elem_of_singleton. by right.
      - intros j. rewrite elem_of_app, list_elem_of_singleton. split.
        + intros Hj. split; [by left |]. pose proof (Hlt j (or_introl Hj)). lia.
        + by intros [[|] ?].
      - rewrite bool_decide_false; [done |]. intros Hi. pose proof (Hlt _ (or_intror Hi)). lia. }
    destruct Hp. constructor; simpl; try done.
    intros i Hi. rewrite length_alter, length_app. simpl. specialize (po_below0 i Hi). lia.
  - assert (phase p = Alive) as Hal.
    { pose proof (po_closed _ _ _ Hp) as Hx. rewrite Hc in Hx. symmetry in Hx.
      apply negb_false_iff, bool_decide_eq_true in Hx. done. }
    assert (promises_ok ((pushing p ++ [length (promises p)]) ++ in_queue p ++ omap busy (workers p)) (started p)
              (promises p ++ [Future.new_state false])) as Hpr'.
    { eapply promises_same; [exact Hpr |]. intros j. rewrite Ho, !elem_of_app. tauto. }
    destruct Hp. constructor; simpl; try done.
    + rewrite (Permutation_app_comm (pushing p)). simpl. apply NoDup_cons. split; [| done]. intros Hi.
      apply elem_of_app, po_below0 in Hi. lia.
    + intros i Hi. rewrite length_app. simpl. rewrite elem_of_app, list_elem_of_singleton in Hi.
      destruct Hi as [[Hi | ->] | Hi]; [| lia |]; [specialize (po_below0 i (or_introl Hi)) | specialize (po_below0 i (or_intror Hi))]; lia.
    + unfold opened in *. simpl. rewrite Hal. exact Hpr'.
    + rewrite Hal. by intros.
Qed.

Lemma push_end_ok capacity n p self l1 i l2 p' :
  pushing p = l1 ++ i :: l2 -> Push_end self i (set_pushing (l1 ++ l2) p) = Some p' -> pool_ok capacity n p ->
  pool_ok capacity n p'.
Proof.
  intros Hi Hs Hp. assert (phase p <> Gone) as Hg
    by (intros Hg; apply (po_gone _ _ _ Hp) in Hg; rewrite Hg in Hi; by destruct l1).
  assert (i ∈ pushing p) as Hin by (rewrite Hi; apply elem_of_app; right; left).
  destruct (places_apart _ _ _ i Hp) as [Hap _]. destruct (Hap Hin) as [Hnq Hns].
  assert (pushing p ≡ₚ i :: l1 ++ l2) as Hperm by (rewrite Hi; by rewrite Permutation_middle).
  assert (opened p = pushing p ++ in_queue p ++ omap busy (workers p)) as Ho by (unfold opened; by destruct (phase p)).
  clear Hi. revert Hs Hperm. generalize (l1 ++ l2). clear l1 l2. intros k Hs Hperm.
  unfold Push_end in Hs. cbn [tasks_ set_pushing] in Hs.
  destruct (push_oldest (tasks_ p) i (po_queue _ _ _ Hp) (po_shard _ _ _ Hp)) as (b & q & Hpush & Hq & Hone & Hc & Hcap & _ & Hr).
  rewrite Hpush in Hs. injection Hs as <-. destruct Hp. destruct b.
  - constructor; simpl; try done; try (by rewrite ?Hcap, ?Hc).
    + by apply queue_ok_count.
    + unfold in_queue. simpl. rewrite Hr, fmap_app, po_order0. simpl. by rewrite app_assoc.
    + rewrite Hperm in po_nodup0. by rewrite app_assoc, <-Permutation_cons_append.
    + intros j Hj. apply po_below0. rewrite Hperm, elem_of_cons. rewrite elem_of_app, list_elem_of_singleton in Hj. tauto.
    + replace (opened _) with (k ++ (in_queue p ++ [i]) ++ omap busy (workers p)).
      * eapply promises_same; [exact po_promises0 |]. intros j.
        rewrite Ho, Hperm. cbn [app]. rewrite elem_of_cons, !elem_of_app, list_elem_of_singleton. tauto.
      * unfold opened, in_queue. simpl. rewrite Hr, fmap_app. simpl. by destruct (phase p).
    + rewrite Hc. intros Hcl. rewrite Hcl. by apply po_late0.
    + intros He. destruct (po_exited0 He) as [Hcl Hl]. rewrite Hc. split; [done |]. rewrite Hcl.
      intros j. unfold in_queue. simpl. rewrite Hr, fmap_app, !elem_of_app. intros [Hj | Hj]; [left; by apply Hl | by right].
  - assert (opened (set_value self false i (set_tasks q (set_pushing k p)))
            = k ++ in_queue p ++ omap busy (workers p)) as Ho'
      by (unfold opened, in_queue; simpl; rewrite Hr; by destruct (phase p)).
    constructor; simpl; try done; try (by rewrite ?Hcap, ?Hc).
    + unfold in_queue. simpl. by rewrite Hr.
    + rewrite Hperm in po_nodup0. by apply NoDup_cons in po_nodup0 as [_ ?].
    + intros j Hj. rewrite length_alter. apply po_below0. rewrite Hperm, elem_of_cons. tauto.
    + rewrite Ho'. eapply promises_set; [exact po_promises0 | | |].
      * rewrite Ho, elem_of_app. by left.
      * rewrite Hperm in po_nodup0. cbn [app] in po_nodup0. apply NoDup_cons in po_nodup0 as [Hx _].
        rewrite elem_of_app in Hx. assert (i ∉ omap busy (workers p)) as Hb by (by intros Hj%busy_elem%po_held0).
        intros j. rewrite Ho, Hperm. cbn [app]. rewrite elem_of_cons, !elem_of_app.
        destruct (decide (j = i)) as [-> |]; tauto.
      * by rewrite bool_decide_false.
    + intros He. destruct (po_exited0 He) as [Hcl Hl]. rewrite Hc. split; [done |]. unfold in_queue. simpl. by rewrite Hr.
Qed.

(** A thread moves on without touching a promise. *)
Lemma goto_ok capacity n p k w w' :
  workers p !! k = Some w -> held w' = held w \/ held w' = None -> busy w' = busy w ->
  (w' = Exited -> closed_ (tasks_ p) = true /\ forall i, i ∈ in_queue p -> i ∈ late p) ->
  (w' = Exited \/ phase p <> Joined /\ phase p <> Gone) ->
  pool_ok capacity n p -> pool_ok capacity n (set_workers (<[k := w']> (workers p)) p).
Proof.
  intros Hk Hh Hb He Hph Hp. destruct (worker_split _ k w w' Hk) as (l1 & l2 & Hl & Hins).
  assert (omap held (<[k := w']> (workers p)) `sublist_of` omap held (workers p)) as Eh.
  { rewrite Hins, Hl, !omap_app. apply sublist_app; [done |]. simpl. destruct Hh as [-> | ->]; [done |].
    destruct (held w); [by apply sublist_cons | done]. }
  assert (omap busy (<[k := w']> (workers p)) = omap busy (workers p)) as Eb
    by (rewrite Hins, Hl, !omap_app; simpl; by rewrite Hb).
  destruct Hp. constructor; simpl; try done.
  - destruct po_held0 as [Hn Hs]. split; [by eapply sublist_NoDup |].
    intros i Hi. apply Hs. by eapply elem_of_sublist.
  - unfold opened. simpl. by rewrite Eb.
  - rewrite Hins, elem_of_app, elem_of_cons. intros [Hin | [<- | Hin]]; [| by apply He |]; apply po_exited0; rewrite Hl;
      apply elem_of_app; [by left | right; by right].
  - intros Hj. destruct Hph as [-> | [H1 H2]]; [| by destruct Hj].
    apply Forall_insert; [by apply po_joined0 | done].
  - by rewrite length_insert.
Qed.

Lemma popped_ok capacity n p k a i q :
  workers p !! k = Some Popping -> Pop (tasks_ p) = Some (Popped a i, q) -> pool_ok capacity n p ->
  pool_ok capacity n (set_workers (<[k := Running i]> (workers p)) (note_started i (set_tasks q p))).
Proof.
  intros Hk Hpop Hp. destruct (worker_split _ k Popping (Running i) Hk) as (l1 & l2 & Hl & Hins).
  destruct (Pop_oldest _ _ _ (po_queue _ _ _ Hp) (po_shard _ _ _ Hp) Hpop) as (Hq & Hone & Hc & Hcap & Hr).
  assert (in_queue p = i :: (queue_ q).*2) as Hiq by (unfold in_queue; by rewrite Hr).
  assert (phase p <> Joined /\ phase p <> Gone) as [Hj Hg].
  { split; intros Hx; pose proof (po_joined _ _ _ Hp (ltac:(tauto))) as Hf; rewrite Forall_forall in Hf;
      specialize (Hf Popping (list_elem_of_lookup_2 _ _ _ Hk)); done. }
  destruct (places_apart _ _ _ i Hp) as [_ Hns]. rewrite Hiq in Hns. specialize (Hns (list_elem_of_here _ _)).
  assert (omap held (<[k := Running i]> (workers p)) ≡ₚ i :: omap held (workers p)) as Eh
    by (rewrite Hins, Hl, !omap_app; simpl; by rewrite Permutation_middle).
  assert (omap busy (<[k := Running i]> (workers p)) ≡ₚ i :: omap busy (workers p)) as Eb
    by (rewrite Hins, Hl, !omap_app; simpl; by rewrite Permutation_middle).
  destruct Hp. constructor; simpl; try done; try (by rewrite ?Hcap, ?Hc).
  - unfold in_queue. simpl. rewrite po_order0, Hiq, <-app_assoc. done.
  - rewrite Eh. split.
    + apply NoDup_cons. split; [| apply po_held0]. by intros Hi%po_held0.
    + intros j. rewrite Eh, elem_of_cons, elem_of_app. intros [-> | Hi%po_held0]; [right; left | by left].
  - assert (i ∈ opened p) as Hio
      by (unfold opened; rewrite Hiq; destruct (phase p); try done; apply elem_of_app; right; left).
    eapply promises_same; [by apply promises_taken; [exact po_promises0 | exact Hio] |]. intros j.
    unfold opened. rewrite Hiq. simpl. unfold in_queue. simpl. destruct (phase p); try done;
      rewrite !elem_of_app, Eb, !elem_of_cons, ?elem_of_app; tauto.
  - intros He. rewrite Hins in He. rewrite Hc. destruct po_exited0 as [H1 H2].
    + rewrite Hl. apply elem_of_app in He as [He | [He | He]%elem_of_cons]; [apply elem_of_app; by left | done |].
      apply elem_of_app. right. by right.
    + split; [done |]. intros j Hin. apply H2. rewrite Hiq. by right.
  - by intros [|].
  - by rewrite length_insert.
Qed.

Lemma finished_ok capacity n p k i :
  workers p !! k = Some (Finished i) -> pool_ok capacity n p ->
  pool_ok capacity n (set_workers (<[k := Ending i]> (workers p)) (set_value k true i p)).
Proof.
  intros Hk Hp. destruct (worker_split _ k (Finished i) (Ending i) Hk) as (l1 & l2 & Hl & Hins).
  assert (phase p <> Joined /\ phase p <> Gone) as [Hj Hg].
  { split; intros Hx; pose proof (po_joined _ _ _ Hp (ltac:(tauto))) as Hf; rewrite Forall_forall in Hf;
      specialize (Hf (Finished i) (list_elem_of_lookup_2 _ _ _ Hk)); done. }
  assert (omap held (<[k := Ending i]> (workers p)) = omap held (workers p)) as Eh
    by (rewrite Hins, Hl, !omap_app; done).
  assert (omap busy (workers p) ≡ₚ i :: omap busy (<[k := Ending i]> (workers p))) as Eb
    by (rewrite Hins, Hl, !omap_app; simpl; by rewrite Permutation_middle).
  assert (i ∈ started p) as Hst by (apply (po_held _ _ _ Hp), busy_elem; rewrite Eb; left).
  assert (NoDup (omap busy (workers p))) as Hnb.
  { destruct (po_held _ _ _ Hp) as [Hn _]. revert Hn. generalize (workers p) as l. induction l as [|w l IH]; [done |].
    intros Hn. destruct w; simpl in *; try (apply NoDup_cons in Hn as [Hx Hn]); auto;
      (apply NoDup_cons; split; [by intros ?%busy_elem | auto]). }
  rewrite Eb in Hnb. apply NoDup_cons in Hnb as [Hnb _].
  pose proof (places_apart _ _ _ i Hp) as [A1 A2].
  destruct Hp. constructor; simpl; try done.
  - rewrite length_alter. done.
  - by rewrite Eh.
  - eapply promises_set; [exact po_promises0 | | |].
    + unfold opened. destruct (phase p); try done; rewrite !elem_of_app, Eb, elem_of_cons; tauto.
    + intros j. unfold opened. simpl. unfold in_queue. simpl. fold (in_queue p).
      destruct (phase p); try done; rewrite !elem_of_app, Eb, !elem_of_cons;
        (destruct (decide (j = i)) as [-> |]; [| tauto]); tauto.
    + by rewrite bool_decide_true.
  - intros He. apply po_exited0. rewrite Hins in He. rewrite Hl.
    apply elem_of_app in He as [He | [He | He]%elem_of_cons]; [apply elem_of_app; by left | done |].
    apply elem_of_app. right. by right.
  - by intros [|].
  - by rewrite length_insert.
Qed.

Lemma worker_ok capacity n p k w p' :
  workers p !! k = Some w -> worker_step k w p = Some p' -> pool_ok capacity n p -> pool_ok capacity n p'.
Proof.
  intros Hk Hs Hp. destruct w as [| | i | i | i |]; [| | | | | done]; unfold worker_step in Hs.
  1, 3, 5: assert (phase p <> Joined /\ phase p <> Gone) as Hph
    by (split; intros Hx; pose proof (po_joined _ _ _ Hp (ltac:(tauto))) as Hf; rewrite Forall_forall in Hf;
        by specialize (Hf _ (list_elem_of_lookup_2 _ _ _ Hk))).
  - injection Hs as <-. assert (IsShuttingDown (pool_ p) = false) as ->.
    { unfold IsShuttingDown, WaitUntilShutdown. destruct (is_shutting_down_ (pool_ p)) eqn:Hd; [| done].
      destruct (proj2 (po_down _ _ _ Hp) Hd); tauto. }
    eapply goto_ok; [exact Hk | by auto | done | done | by right | done].
  - injection Hs as <-. eapply goto_ok; [exact Hk | by auto | done | done | by right | done].
  - injection Hs as <-.
    assert (set_value k false i p = p) as ->.
    { unfold set_value. rewrite (promises_keep k false i _ _ _ (po_promises _ _ _ Hp)); [by destruct p |].
      destruct (places_apart _ _ _ i Hp) as [A1 A2]. destruct (po_held _ _ _ Hp) as [Hn Hst].
      destruct (worker_split _ k _ (Ending i) Hk) as (l1 & l2 & Hl & _).
      assert (i ∈ started p) as Hi by (apply Hst; rewrite Hl, omap_app; apply elem_of_app; right; left).
      unfold opened. rewrite Hl, omap_app in Hn. simpl in Hn. rewrite <-Permutation_middle in Hn.
      apply NoDup_cons in Hn as [Hn _]. rewrite elem_of_app in Hn.
      rewrite Hl, omap_app. simpl. destruct (phase p); rewrite ?elem_of_app; try (by intros ?%elem_of_nil);
        intros [H | [H | [H%busy_elem | H%busy_elem]]]; tauto. }
    eapply goto_ok; [exact Hk | by auto | done | done | by right | done].
  - apply bind_Some in Hs as ([r q] & Hpop & [= <-]). destruct r as [| | a i].
    + destruct (Pop_oldest _ _ _ (po_queue _ _ _ Hp) (po_shard _ _ _ Hp) Hpop) as (Hq & Hone & Hc & Hcap & _ & Hr).
      destruct Hp. constructor; unfold opened, in_queue in *; simpl; rewrite ?Hr, ?Hc, ?Hcap; done.
    + destruct (Pop_oldest _ _ _ (po_queue _ _ _ Hp) (po_shard _ _ _ Hp) Hpop) as (Hq & Hone & Hc & Hcap & Hcl & Hemp & Hr).
      assert (pool_ok capacity n (set_tasks q p)) as Hp'
        by (destruct Hp; constructor; unfold opened, in_queue in *; simpl; rewrite ?Hr, ?Hc, ?Hcap; done).
      apply (goto_ok capacity n (set_tasks q p) k Popping Exited Hk); [by left | done | | by left | done].
      intros _. simpl. rewrite Hc.
      split; [done |]. unfold in_queue. simpl. rewrite Hr, Hemp. by intros ? ?%elem_of_nil.
    + by eapply popped_ok.
  - injection Hs as <-. by apply finished_ok.
Qed.

Lemma drop_promises self q opened taken l :
  promises_ok (q ++ opened) taken l -> NoDup (q ++ opened) -> (forall i, i ∈ q -> i ∉ taken) ->
  promises_ok opened taken (foldr (fun i l => alter (SetStateValue self false) i l) l q).
Proof.
  revert opened. induction q as [|i q IH]; intros opened Hl Hn Hq; [done |]. simpl.
  cbn [app] in Hn. apply NoDup_cons in Hn as [Hi Hn]. rewrite elem_of_app in Hi.
  eapply (promises_set _ _ _ (i :: opened)).
  - apply IH; [| | intros j Hj; apply Hq; by right].
    + eapply promises_same; [exact Hl |]. intros j. cbn [app]. rewrite elem_of_cons, !elem_of_app, elem_of_cons. tauto.
    + rewrite <-Permutation_middle. apply NoDup_cons. split; [by rewrite elem_of_app | done].
  - left.
  - intros j. rewrite elem_of_cons. split; [intros Hj; split; [by right | intros ->; tauto] | by intros [[|] ?]].
  - rewrite bool_decide_false; [done |]. apply Hq. left.
Qed.

Lemma drop_tasks_eq self p :
  drop_tasks self p = set_promises (foldr (fun i l => alter (SetStateValue self false) i l) (promises p) (in_queue p)) p.
Proof. unfold drop_tasks, in_queue. induction (queue_ (tasks_ p)).*2 as [|i q IH]; simpl; [by destruct p | by rewrite IH]. Qed.

Lemma gone_ok capacity n p self :
  phase p = Joined -> pushing p = [] -> pool_ok capacity n p -> pool_ok capacity n (set_phase Gone (drop_tasks self p)).
Proof.
  intros Hph Hpu Hp. rewrite drop_tasks_eq.
  assert (omap busy (workers p) = []) as Hb.
  { pose proof (po_joined _ _ _ Hp (or_introl Hph)) as Hf. revert Hf. generalize (workers p).
    intros l Hf. induction Hf as [|w l -> _ IH]; [done | exact IH]. }
  assert (forall i, i ∈ in_queue p -> i ∉ started p) as Hap by (intros i; by apply (places_apart _ _ _ i Hp)).
  destruct Hp. constructor; simpl; try done.
  - intros i Hi. assert (length (foldr (fun i l => alter (SetStateValue self false) i l) (promises p) (in_queue p)) = length (promises p)) as ->
      by (clear; induction (in_queue p) as [|j q IH]; [done | simpl; by rewrite length_alter]).
    by apply po_below0.
  - apply drop_promises; [| | done].
    + unfold opened in po_promises0. rewrite Hph, Hpu, Hb in po_promises0. exact po_promises0.
    + rewrite app_nil_r. rewrite po_order0 in po_nodup0. by apply NoDup_app in po_nodup0 as (_ & _ & (_ & _ & ?)%NoDup_app).
  - rewrite po_closed0, Hph. done.
  - split; [apply po_down0 | by right].
  - intros _. apply po_joined0. by left.
Qed.

Lemma pool_step_ok capacity n p e p' : pool_ok capacity n p -> step p e p' -> pool_ok capacity n p'.
Proof.
  intros Hp Hs. destruct Hs as [p self Hph | p self l1 i l2 p' Hi Hs | p k w p' Hk Hs | p Hph | p Hph | p Hph Hall | p self Hph Hpu].
  - by apply push_begin_ok.
  - by eapply push_end_ok.
  - by eapply worker_ok.
  - destruct Hp. constructor; simpl; try done.
    + by apply queue_ok_close.
    + unfold opened in *. rewrite Hph in po_promises0. done.
    + intros He. destruct (po_exited0 He) as [Hc _]. rewrite po_closed0, Hph in Hc. done.
    + split; [apply po_down0 |]. intros [H | H]%po_down0; congruence.
    + by intros [|].
  - destruct Hp. destruct po_down0 as [Hf Hd]. unfold destroy_begin. rewrite Hf. constructor; simpl; try done.
    + unfold opened in *. rewrite Hph in po_promises0. done.
    + rewrite po_closed0, Hph. done.
    + split; [done |]. intros [H | H]%Hd; congruence.
    + by intros [|].
  - destruct Hp. destruct po_down0 as [Hf Hd]. unfold destroy_end. rewrite Hf. constructor; simpl; try done.
    + unfold opened in *. rewrite Hph in po_promises0. done.
    + rewrite po_closed0, Hph. done.
    + split; [done |]. intros _. by left.
  - by apply gone_ok.
Qed.

Lemma pool_reachable_ok capacity n p : reachable capacity n p -> pool_ok capacity n p.
Proof. induction 1 as [p H | p e p' _ IH Hs]; [by apply init_ok | by eapply pool_step_ok]. Qed.

(** ** What is left to do once the queue is closed *)

Definition weight (w : worker) : nat :=
  match w with Looping => 3 | Popping => 2 | Running _ => 6 | Finished _ => 5 | Ending _ => 4 | Exited => 0 end.

Definition work (p : pool) : nat :=
  6 * length (pushing p) + 5 * length (in_queue p) + sum_list_with weight (workers p).

Lemma weight_insert l k w w' :
  l !! k = Some w -> sum_list_with weight (<[k := w']> l) + weight w = sum_list_with weight l + weight w'.
Proof.
  intros Hk. destruct (worker_split l k w w' Hk) as (l1 & l2 & -> & ->). rewrite !sum_list_with_app. simpl. lia.
Qed.

Lemma worker_defined capacity n p k w :
  pool_ok capacity n p -> workers p !! k = Some w -> w <> Exited -> is_Some (worker_step k w p).
Proof.
  intros Hp Hk Hw. destruct w; try (eexists; reflexivity); [| by destruct Hw]. unfold worker_step.
  destruct (Pop_ok _ (po_queue _ _ _ Hp)) as (r & q & -> & _). by eexists.
Qed.

Lemma worker_works capacity n p k w p' :
  pool_ok capacity n p -> closed_ (tasks_ p) = true -> workers p !! k = Some w -> worker_step k w p = Some p' ->
  work p' < work p.
Proof.
  intros Hp Hc Hk Hs. pose proof (weight_insert (workers p) k w) as Hw. unfold work.
  destruct w as [| | i | i | i |]; unfold worker_step in Hs; try (injection Hs as <-); simpl.
  - specialize (Hw (if IsShuttingDown (pool_ p) then Exited else Popping) Hk). unfold in_queue. simpl in *.
    destruct (IsShuttingDown _); simpl in *; lia.
  - apply bind_Some in Hs as ([r q] & Hpop & [= <-]).
    destruct (Pop_oldest _ _ _ (po_queue _ _ _ Hp) (po_shard _ _ _ Hp) Hpop) as (_ & _ & _ & _ & Hr).
    destruct r as [| | a i]; unfold in_queue; simpl.
    + destruct Hr. congruence.
    + destruct Hr as (_ & _ & ->). specialize (Hw Exited Hk). simpl in Hw. lia.
    + rewrite Hr, fmap_cons. cbn [length]. specialize (Hw (Running i) Hk). simpl in Hw. lia.
  - specialize (Hw (Finished i) Hk). unfold in_queue. simpl in *. lia.
  - specialize (Hw (Ending i) Hk). unfold in_queue. simpl in *. lia.
  - specialize (Hw Looping Hk). unfold in_queue. simpl in *. lia.
  - done.
Qed.

Lemma closed_work capacity n p e p' :
  pool_ok capacity n p -> closed_ (tasks_ p) = true -> step p e p' ->
  work p' <= work p /\ ((exists k, e = Worked k) \/ (exists i, e = Pushed i) -> work p' < work p).
Proof.
  intros Hp Hc Hs.
  destruct Hs as [p self Hph | p self l1 i l2 p' Hi Hs | p k w p' Hk Hs | p Hph | p Hph | p Hph Hall | p self Hph Hpu].
  - unfold Push_begin. cbn zeta. cbn [tasks_ set_promises]. rewrite Hc. split; [done |]. by intros [[? ?] | [? ?]].
  - assert (work p' < work p) as Hlt; [| split; [lia | done]].
    unfold Push_end in Hs. cbn [tasks_ set_pushing] in Hs.
    destruct (push_oldest (tasks_ p) i (po_queue _ _ _ Hp) (po_shard _ _ _ Hp)) as (b & q & Hpush & _ & _ & _ & _ & _ & Hr).
    rewrite Hpush in Hs. injection Hs as <-. unfold work, in_queue. rewrite Hi.
    destruct b; simpl; rewrite Hr, ?fmap_app, !length_app; simpl; lia.
  - pose proof (worker_works _ _ _ _ _ _ Hp Hc Hk Hs). split; [lia | done].
  - rewrite (po_closed _ _ _ Hp), Hph in Hc. done.
  - split; [done |]. by intros [[? ?] | [? ?]].
  - split; [done |]. by intros [[? ?] | [? ?]].
  - rewrite drop_tasks_eq. split; [done |]. by intros [[? ?] | [? ?]].
Qed.

(** ** Property *)

(** C24: a pool runs what it accepts.  In every interleaving of pushes, threads
    and the destructor: the tasks start in the order in which they were pushed,
    each at most once, at most [n] run at a time and the queue keeps its
    capacity; a future that has a value says whether its task was run.  Nothing
    is undefined and no thread that has not ended is stuck.  Once the destructor
    has closed the queue every step of a thread or a push brings the end nearer
    and a thread never sleeps, so that joining them ends if the tasks do.  After
    the destructor every future has its value, and every task that was accepted
    before the queue was closed has been run. *)
Theorem pool_drains (capacity : Z) (n : nat) (p : pool) :
  reachable capacity n p ->
  queued p = started p ++ in_queue p /\ NoDup (queued p) /\ length (omap busy (workers p)) <= n /\
  (capacity <> UNLIMITED -> 0 <= capacity -> Zlen (in_queue p) <= capacity)%Z /\
  (forall i st, promises p !! i = Some st -> fulfilled st = true -> value st = bool_decide (i ∈ started p)) /\
  (forall k w, workers p !! k = Some w -> w <> Exited -> exists p', step p (Worked k) p') /\
  (closed_ (tasks_ p) = true -> forall e p', step p e p' ->
     work p' <= work p /\ ((exists k, e = Worked k) \/ (exists i, e = Pushed i) -> work p' < work p)) /\
  (phase p = Gone ->
     Forall (fun st => fulfilled st = true) (promises p) /\
     forall i, i ∈ queued p -> i ∉ late p -> exists st, promises p !! i = Some st /\ value st = true).
Proof.
  intros Hr. apply pool_reachable_ok in Hr as Hp. split_and!.
  - apply Hp.
  - pose proof (po_nodup _ _ _ Hp) as Hn. by apply NoDup_app in Hn as (_ & _ & ?).
  - destruct (po_count _ _ _ Hp) as [<- _]. generalize (workers p) as l. induction l as [|w l IH]; [done |].
    simpl. destruct (busy w); [by apply le_n_S | by apply le_S].
  - intros H1 H2. pose proof (ok_capacity _ (po_queue _ _ _ Hp)) as Hcap. rewrite (po_capacity _ _ _ Hp) in Hcap.
    specialize (Hcap H1 H2). unfold in_queue, Zlen in *. by rewrite length_fmap.
  - intros i st Hi. by apply (po_promises _ _ _ Hp).
  - intros k w Hk Hw. destruct (worker_defined _ _ _ _ _ Hp Hk Hw) as [p' Hs]. exists p'. by eapply step_worker.
  - intros Hc e p'. by eapply closed_work.
  - intros Hg. pose proof (po_promises _ _ _ Hp) as Hpr. unfold opened in Hpr. rewrite Hg in Hpr.
    assert (forall i st, promises p !! i = Some st -> fulfilled st = true) as Hf.
    { intros i st Hi. destruct (Hpr i st Hi) as (_ & Hf & _). destruct (fulfilled st); [done |].
      destruct (proj1 (elem_of_nil i) (proj1 Hf eq_refl)). }
    split; [apply Forall_lookup; intros i st; apply Hf |]. intros i Hi Hl.
    destruct (lookup_lt_is_Some_2 (promises p) i) as [st Hst]; [apply (po_below _ _ _ Hp); by right |].
    exists st. split; [done |]. destruct (Hpr i st Hst) as (_ & _ & ->); [| by eapply Hf]. apply bool_decide_eq_true.
    rewrite (po_order _ _ _ Hp), elem_of_app in Hi. destruct Hi as [Hi | Hi]; [done |]. destruct Hl.
    apply (po_exited _ _ _ Hp); [| done]. destruct (po_count _ _ _ Hp) as [Hlen Hn].
    pose proof (po_joined _ _ _ Hp (or_intror Hg)) as Hall. destruct (workers p) as [|w l]; [by destruct Hn |].
    apply Forall_cons in Hall as [-> _]. left.
Qed.

(** ** A concrete run *)

Inductive op := Op_begin | Op_end (i : nat) | Op_work (k : nat) | Op_close | Op_join | Op_joined | Op_gone.

(** One step of a run; only the oldest call of [Push] goes on. *)
Definition do_op (o : op) (p : pool) : option pool :=
  match o with
  | Op_begin => if decide (phase p = Alive) then Some (Push_begin 0 p) else None
  | Op_end i => match pushing p with
                | j :: l => if decide (i = j) then Push_end 0 i (set_pushing l p) else None
                | [] => None
                end
  | Op_work k => w ← workers p !! k; worker_step k w p
  | Op_close => if decide (phase p = Alive) then Some (set_phase Closing (set_tasks (Close (tasks_ p)) p)) else None
  | Op_join => if decide (phase p = Closing) then Some (set_phase Joining (set_pool (destroy_begin (pool_ p)) p)) else None
  | Op_joined => if decide (phase p = Joining) then
                   if forallb (fun w => match w with Exited => true | _ => false end) (workers p)
                   then Some (set_phase Joined (set_pool (destroy_end (pool_ p)) p)) else None
                 else None
  | Op_gone => if decide (phase p = Joined) then
                 match pushing p with [] => Some (set_phase Gone (drop_tasks 0 p)) | _ :: _ => None end
               else None
  end.

Lemma do_op_step o p p' : do_op o p = Some p' -> exists e, step p e p'.
Proof.
  destruct o; simpl; intros H.
  - case_decide; [| done]. injection H as <-. eexists. apply step_push_begin. by left.
  - destruct (pushing p) as [|j l] eqn:Hp; [done |]. case_decide; [| done]. subst j.
    eexists. by eapply (step_push_end p 0 [] i l).
  - apply bind_Some in H as (w & Hk & H'). eexists. by eapply step_worker.
  - case_decide; [| done]. injection H as <-. eexists. by apply step_close.
  - case_decide; [| done]. injection H as <-. eexists. by apply step_join.
  - case_decide; [| done]. destruct (forallb _ _) eqn:Hf; [| done]. injection H as <-. eexists. apply step_joined; [done |].
    apply Forall_forall. intros w Hw. rewrite forallb_forall in Hf. specialize (Hf w (proj1 (list_elem_of_In _ _) Hw)).
    by destruct w.
  - case_decide; [| done]. destruct (pushing p) eqn:Hp; [| done]. injection H as <-. eexists. by apply step_gone.
Qed.

Fixpoint do_ops (l : list op) (p : pool) : option pool :=
  match l with [] => Some p | o :: l => p ← do_op o p; do_ops l p end.

Lemma do_ops_reachable capacity n l p p' :
  reachable capacity n p -> do_ops l p = Some p' -> reachable capacity n p'.
Proof.
  revert p. induction l as [|o l IH]; intros p Hp; simpl; [by intros [= <-] |].
  intros (p1 & Ho & H)%bind_Some. apply do_op_step in Ho as [e He]. eapply IH; [| exact H]. by eapply reach_step.
Qed.

(** A pool of one thread gets two tasks, the second while it is busy; the queue is
    closed with the second task in it. *)
Definition two_tasks : list op :=
  [Op_begin; Op_end 0; Op_work 0; Op_work 0; Op_begin; Op_end 1; Op_close; Op_work 0; Op_join; Op_work 0; Op_work 0]
  ++ replicate 5 (Op_work 0) ++ [Op_work 0; Op_work 0; Op_joined; Op_gone].

Definition finished_pool : pool :=
  default (new_pool 0) (p ← Run 1 (new_pool 0); do_ops two_tasks p).

Lemma finished_reachable : reachable 0 1 finished_pool.
Proof.
  destruct (Run 1 (new_pool 0)) as [p|] eqn:Hp; [| discriminate Hp].
  destruct (do_ops two_tasks p) as [p'|] eqn:H.
  - assert (finished_pool = p') as -> by (unfold finished_pool; rewrite Hp; cbn [mbind option_bind]; by rewrite H).
    eapply do_ops_reachable; [by apply reach_run | exact H].
  - injection Hp as <-. vm_compute in H. discriminate H.
Qed.

Lemma pool_drains_witness :
  started finished_pool = [0; 1] /\
  exists st, promises finished_pool !! 1 = Some st /\ value st = true.
Proof.
  split; [vm_compute; reflexivity |].
  destruct (pool_drains 0 1 finished_pool finished_reachable) as (_ & _ & _ & _ & _ & _ & _ & H).
  assert (phase finished_pool = Gone) as Hg by (vm_compute; reflexivity).
  apply (proj2 (H Hg)).
  - assert (queued finished_pool = [0; 1]) as -> by (vm_compute; reflexivity). right. left.
  - assert (late finished_pool = []) as -> by (vm_compute; reflexivity). apply not_elem_of_nil.
Defined.
