(* ===== verification/EventLoop.v ===== *)
(** The life of an event loop: [Run], [Stop] and the threads between them
    ([src/src/net/event_loop.cc], the loops of [src/src/net/event_loop_linux.cc]).

    What a thread does with an event is the matter of [Connection] and
    [NetworkService]; here it is the time between two waits.  A pool's self pipe is
    its write end, which the destructor closes, and the read end, which every thread
    registers with its [epoll] and which is ready, for every wait, from then on. *)

From S2P Require Import Prelude LockedQueue Future ThreadPool.

(** ** State *)

Inductive Status := IDLE | RUNNING | STOPPED.
#[export] Instance Status_eq_dec : EqDecision Status.
Proof. solve_decision. Defined.

(** [Listen Worker] waits on [listen_], [Network IO Worker] on [io_]. *)
Inductive kind := Listen_worker | IO_worker.
#[export] Instance kind_eq_dec : EqDecision kind.
Proof. solve_decision. Defined.

(** Where a thread is in [DoListenWork] or [DoIOWork]. *)
Inductive place :=
| Adding        (* [Add(self, EPOLLIN)] *)
| Testing       (* the condition of the loop *)
| Waiting       (* [Wait] *)
| Handling      (* an event *)
| Exited.
#[export] Instance place_eq_dec : EqDecision place.
Proof. solve_decision. Defined.

Record pool := { workers_pool : WorkerPool; write_end : bool; threads : list (kind * place) }.

(** The epolls are the loop's: [registered] holds those that know the read end. *)
Record loop := {
  is_running_ : Status;
  concurrency_ : nat;
  pool_ : option pool;
  registered : list kind
}.

Definition new_loop (concurrency : nat) : loop :=
  {| is_running_ := IDLE; concurrency_ := concurrency; pool_ := None; registered := [] |}.

Definition set_status (st : Status) (l : loop) : loop :=
  {| is_running_ := st; concurrency_ := concurrency_ l; pool_ := pool_ l; registered := registered l |}.
Definition set_pool (p : option pool) (l : loop) : loop :=
  {| is_running_ := is_running_ l; concurrency_ := concurrency_ l; pool_ := p; registered := registered l |}.
Definition register (k : kind) (l : loop) : loop :=
  {| is_running_ := is_running_ l; concurrency_ := concurrency_ l; pool_ := pool_ l; registered := k :: registered l |}.

(** ** Operations *)

(** [compare_exchange_strong]: whether the exchange took place. *)
Definition exchange (expected desired : Status) (l : loop) : bool * loop :=
  if decide (is_running_ l = expected) then (true, set_status desired l) else (false, l).

Definition new_pool : pool := {| workers_pool := new_worker_pool true; write_end := true; threads := [] |}.

(** [AddWorker]: [None] is a call through a null pointer, or the failed CHECK of the
    number of threads. *)
Definition AddWorker (k : kind) (count : nat) (l : loop) : option loop :=
  p ← pool_ l;
  if (count =? 0)%nat then None
  else Some (set_pool (Some {| workers_pool := workers_pool p; write_end := write_end p;
                               threads := threads p ++ replicate count (k, Adding) |}) l).

(** What is left of a call of [Run] that has made the exchange, or of [Stop]. *)
Inductive call :=
| Run_reset | Run_listen | Run_io
| Stop_take | Stop_shut (p : pool) | Stop_join (p : pool).

(** [~WorkerPool] up to the join: the flag, then the pipe if the pool is forced to shut
    down.  A thread that comes in between ends by the flag. *)
Definition shut (p : pool) : pool :=
  {| workers_pool := destroy_begin (workers_pool p); write_end := write_end p && negb (force_shut_down_ (workers_pool p));
     threads := threads p |}.

(** A part of a call, with what is left of it; the calls return after [None]. *)
Definition call_step (c : call) (l : loop) : option (option call * loop) :=
  match c with
  | Run_reset => Some (Some Run_listen, set_pool (Some new_pool) l)
  | Run_listen => l ← AddWorker Listen_worker 1 l; Some (Some Run_io, l)
  | Run_io => l ← AddWorker IO_worker (concurrency_ l) l; Some (None, l)
  | Stop_take => Some (Stop_shut <$> pool_ l, set_pool None l)
  | Stop_shut p => Some (Some (Stop_join (shut p)), l)
  | Stop_join p => if forallb (fun t => bool_decide (t.2 = Exited)) (threads p) then Some (None, l) else None
  end.

(** What [Wait] returns: the self pipe, something else, -1 with EINTR, -1 without it. *)
Inductive wake := Self | Other | Interrupted | Failed.

(** The read end is ready when the write end is closed. *)
Definition ready (k : kind) (p : pool) (l : loop) : bool := negb (write_end p) && bool_decide (k ∈ registered l).

(** A step of a thread in its loop; [added] is whether the read end is registered after
    [Add], whose result nobody reads (it fails for the second thread on [io_], which
    knows the read end already). *)
Definition thread_step (added : bool) (w : wake) (k : kind) (at_ : place) (p : pool) (l : loop) : option (place * loop) :=
  match at_ with
  | Adding => Some (Testing, if added then register k l else l)
  | Testing => Some (if IsShuttingDown (workers_pool p) then Exited else Waiting, l)
  | Waiting =>
      match w with
      | Self => if ready k p l then Some (Testing, l) else None
      | Other => Some (Handling, l)
      | Interrupted => Some (Testing, l)
      | Failed => Some (Exited, l)
      end
  | Handling => Some (Testing, l)
  | Exited => None
  end.

(** ** Interleavings

    [runs] counts the calls of [Run] that have made the exchange.  A pool that [Stop] has
    taken lives on in its call. *)
Record system := { loop_ : loop; calls : list call; runs : nat }.

Definition init (concurrency : nat) : system := {| loop_ := new_loop concurrency; calls := []; runs := 0 |}.

Definition pool_of (c : call) : option pool := match c with Stop_shut p | Stop_join p => Some p | _ => None end.
Definition with_pool (p : pool) (c : call) : call :=
  match c with Stop_shut _ => Stop_shut p | Stop_join _ => Stop_join p | c => c end.

Definition move (i : nat) (t : kind * place) (p : pool) : pool :=
  {| workers_pool := workers_pool p; write_end := write_end p; threads := <[i := t]> (threads p) |}.

Definition is_run (c : call) : bool := match c with Run_reset | Run_listen | Run_io => true | _ => false end.

(** With [strict] nobody calls [Stop] while a call of [Run] is under way.  [added] is
    whether the read end can be registered. *)
Inductive step (strict added : bool) : system -> system -> Prop :=
| step_run s b l :
    exchange IDLE RUNNING (loop_ s) = (b, l) ->
    step strict added s {| loop_ := l; calls := if b then Run_reset :: calls s else calls s;
                           runs := if b then S (runs s) else runs s |}
| step_stop s b l :
    (strict = true -> forallb (fun c => negb (is_run c)) (calls s) = true) -> exchange RUNNING STOPPED (loop_ s) = (b, l) ->
    step strict added s {| loop_ := l; calls := if b then Stop_take :: calls s else calls s; runs := runs s |}
| step_call s c1 c c2 c' l :
    calls s = c1 ++ c :: c2 -> call_step c (loop_ s) = Some (c', l) ->
    step strict added s {| loop_ := l; calls := c1 ++ option_list c' ++ c2; runs := runs s |}
| step_thread s p i k at_ w at' l :
    pool_ (loop_ s) = Some p -> threads p !! i = Some (k, at_) ->
    thread_step added w k at_ p (loop_ s) = Some (at', l) ->
    step strict added s {| loop_ := set_pool (Some (move i (k, at') p)) l; calls := calls s; runs := runs s |}
| step_ending s c1 c c2 p i k at_ w at' l :
    calls s = c1 ++ c :: c2 -> pool_of c = Some p -> threads p !! i = Some (k, at_) ->
    thread_step added w k at_ p (loop_ s) = Some (at', l) ->
    step strict added s {| loop_ := l; calls := c1 ++ with_pool (move i (k, at') p) c :: c2; runs := runs s |}.

Inductive reachable (strict added : bool) (concurrency : nat) : system -> Prop :=
| reach_init : reachable strict added concurrency (init concurrency)
| reach_step s s' : reachable strict added concurrency s -> step strict added s s' -> reachable strict added concurrency s'.

(** A call that cannot go on and does not wait for a thread. *)
Definition undefined (s : system) : Prop :=
  exists c, c ∈ calls s /\ call_step c (loop_ s) = None /\ forall p, c <> Stop_join p.

(** ** The invariant *)

Definition open_pool (p : pool) : Prop := workers_pool p = new_worker_pool true /\ write_end p = true.
Definition shut_pool (p : pool) : Prop := workers_pool p = shut_down (new_worker_pool true) /\ write_end p = false.

Definition full (n : nat) (p : pool) : Prop := (threads p).*1 = Listen_worker :: replicate n IO_worker.

(** Every thread that is past [Add] can be woken. *)
Definition awake (l : loop) (p : pool) : Prop := Forall (fun t => t.2 = Adding \/ t.1 ∈ registered l) (threads p).

Inductive shape (n : nat) : Status -> option pool -> list call -> nat -> Prop :=
| shape_idle : shape n IDLE None [] 0
| shape_reset : shape n RUNNING None [Run_reset] 1
| shape_listen p : open_pool p -> (threads p).*1 = [] -> shape n RUNNING (Some p) [Run_listen] 1
| shape_io p : open_pool p -> (threads p).*1 = [Listen_worker] -> shape n RUNNING (Some p) [Run_io] 1
| shape_running p : open_pool p -> full n p -> shape n RUNNING (Some p) [] 1
| shape_take p : open_pool p -> full n p -> shape n STOPPED (Some p) [Stop_take] 1
| shape_shut p : open_pool p -> full n p -> shape n STOPPED None [Stop_shut p] 1
| shape_join p : shut_pool p -> full n p -> shape n STOPPED None [Stop_join p] 1
| shape_stopped : shape n STOPPED None [] 1.

Definition pools (s : system) : list pool := option_list (pool_ (loop_ s)) ++ omap pool_of (calls s).

Record inv (n : nat) (s : system) : Prop := {
  iv_concurrency : concurrency_ (loop_ s) = n;
  iv_shape : shape n (is_running_ (loop_ s)) (pool_ (loop_ s)) (calls s) (runs s);
  iv_awake : Forall (awake (loop_ s)) (pools s)
}.

Lemma move_kinds i k at_ at' p : threads p !! i = Some (k, at_) -> (threads (move i (k, at') p)).*1 = (threads p).*1.
Proof.
  intros Hi. simpl. rewrite list_fmap_insert. apply list_insert_id. by rewrite list_lookup_fmap, Hi.
Qed.

(** What a thread's step leaves alone, and that it can still be woken. *)
Lemma thread_step_ok w k at_ p l at' l' :
  thread_step true w k at_ p l = Some (at', l') -> at_ = Adding \/ k ∈ registered l ->
  concurrency_ l' = concurrency_ l /\ is_running_ l' = is_running_ l /\ pool_ l' = pool_ l /\
  registered l ⊆ registered l' /\ k ∈ registered l'.
Proof.
  intros Hs Hk. destruct at_; simpl in Hs; [injection Hs as <- <-; simpl; split_and!; try done; set_solver | ..].
  all: destruct Hk as [? | Hk]; [done |].
  all: repeat (case_match; try done); by simplify_eq.
Qed.

Lemma awake_move l l' p i k at_ at' :
  awake l p -> registered l ⊆ registered l' -> k ∈ registered l' -> threads p !! i = Some (k, at_) ->
  awake l' (move i (k, at') p).
Proof.
  intros Ha Hsub Hk Hi. apply Forall_insert; [| by right].
  eapply Forall_impl; [exact Ha |]. intros t [? | ?]; [by left | right; by apply Hsub].
Qed.

Lemma shape_move n st p cs r i k at_ at' :
  threads p !! i = Some (k, at_) -> shape n st (Some p) cs r -> shape n st (Some (move i (k, at') p)) cs r.
Proof.
  intros Hi Hs. pose proof (move_kinds i k at_ at' p Hi) as Hk.
  inversion Hs; subst; constructor; try done; unfold full; by rewrite Hk.
Qed.

(** One call at a time is under way, and a pool belongs to the loop or to it. *)
Lemma shape_call n st pl c1 c c2 r :
  shape n st pl (c1 ++ c :: c2) r -> c1 = [] /\ c2 = [] /\ (is_Some (pool_of c) -> pl = None).
Proof.
  intros Hs. assert (length (c1 ++ c :: c2) <= 1)%nat as Hl by (inversion Hs; simpl; lia).
  rewrite length_app in Hl. simpl in Hl. destruct c1; [| simpl in Hl; lia]. destruct c2; [| simpl in Hl; lia].
  split_and!; [done | done |]. by inversion Hs; subst; intros [? ?].
Qed.

Lemma step_thread_inv n s p i k at_ w at' l :
  inv n s -> pool_ (loop_ s) = Some p -> threads p !! i = Some (k, at_) ->
  thread_step true w k at_ p (loop_ s) = Some (at', l) ->
  inv n {| loop_ := set_pool (Some (move i (k, at') p)) l; calls := calls s; runs := runs s |}.
Proof.
  intros [Hc Hs Ha] Hp Hi Hst. unfold pools in Ha. rewrite Hp in Ha, Hs. apply Forall_cons in Ha as [Ha Hcs].
  pose proof (proj1 (Forall_lookup _ _) Ha _ _ Hi) as Hk. simpl in Hk.
  destruct (thread_step_ok _ _ _ _ _ _ _ Hst Hk) as (E1 & E2 & E3 & Hsub & Hk').
  split; simpl; [congruence | rewrite E2; by eapply shape_move |].
  apply Forall_cons. split; [by eapply awake_move |].
  inversion Hs; subst; constructor.
Qed.

Lemma step_ending_inv n s c1 c c2 p i k at_ w at' l :
  inv n s -> calls s = c1 ++ c :: c2 -> pool_of c = Some p -> threads p !! i = Some (k, at_) ->
  thread_step true w k at_ p (loop_ s) = Some (at', l) ->
  inv n {| loop_ := l; calls := c1 ++ with_pool (move i (k, at') p) c :: c2; runs := runs s |}.
Proof.
  intros [Hc Hs Ha] Hcs Hp Hi Hst. unfold pools in Ha. rewrite Hcs in *.
  destruct (shape_call _ _ _ _ _ _ _ Hs) as (-> & -> & Hnone). specialize (Hnone ltac:(by eexists)).
  rewrite Hnone in *. simpl in *. rewrite Hp in Ha. apply Forall_cons in Ha as [Ha _].
  pose proof (proj1 (Forall_lookup _ _) Ha _ _ Hi) as Hk. simpl in Hk.
  destruct (thread_step_ok _ _ _ _ _ _ _ Hst Hk) as (E1 & E2 & E3 & Hsub & Hk').
  pose proof (move_kinds i k at_ at' p Hi) as Hkinds.
  split; unfold pools; simpl; rewrite ?E3, ?Hnone; [congruence | |].
  - rewrite E2. destruct c as [| | | | q | q]; try done; injection Hp as ->;
      inversion Hs as [ | | | | | | q Ho Hq E4 E5 E6 | q Ho Hq E4 E5 E6 | ]; subst q;
      [apply shape_shut | apply shape_join]; try done; unfold full; by rewrite Hkinds.
  - assert (pool_of (with_pool (move i (k, at') p) c) = Some (move i (k, at') p)) as -> by by destruct c.
    repeat constructor. by eapply awake_move.
Qed.

Lemma step_run_inv n s b l :
  inv n s -> exchange IDLE RUNNING (loop_ s) = (b, l) ->
  inv n {| loop_ := l; calls := if b then Run_reset :: calls s else calls s; runs := if b then S (runs s) else runs s |}.
Proof.
  intros [Hc Hs Ha]. unfold exchange. destruct (decide _) as [Hi |]; intros [= <- <-]; [| by split].
  rewrite Hi in Hs. unfold pools in Ha. inversion Hs as [Hst Hp Hcs Hr | | | | | | | |].
  rewrite <- Hp, <- Hcs in Ha. split; unfold pools; simpl; rewrite <- ?Hp; [done | constructor | done].
Qed.

Lemma step_stop_inv n s b l :
  inv n s -> forallb (fun c => negb (is_run c)) (calls s) = true -> exchange RUNNING STOPPED (loop_ s) = (b, l) ->
  inv n {| loop_ := l; calls := if b then Stop_take :: calls s else calls s; runs := runs s |}.
Proof.
  intros [Hc Hs Ha] Hq. unfold exchange. destruct (decide _) as [Hi |]; intros [= <- <-]; [| by split].
  rewrite Hi in Hs. unfold pools in *. simpl.
  inversion Hs as [ | Hst Hp Hcs | p Ho Hk Hst Hp Hcs | p Ho Hk Hst Hp Hcs | p Ho Hk Hst Hp Hcs Hr | | | |];
    rewrite <- Hcs in Hq; try discriminate Hq.
  rewrite <- Hp, <- Hcs in Ha. split; unfold pools; simpl; rewrite <- ?Hp, <- ?Hcs; [done | by constructor | exact Ha].
Qed.

(** Every part of a call works. *)
Lemma call_step_inv n s c c' l :
  n <> 0%nat -> inv n s -> calls s = [c] -> call_step c (loop_ s) = Some (c', l) ->
  inv n {| loop_ := l; calls := option_list c'; runs := runs s |}.
Proof.
  intros Hn [Hc Hs Ha] Hcs Hst. unfold pools in *. unfold call_step, AddWorker in Hst. rewrite Hcs in *.
  inversion Hs as [ | E1 E2 Hrun | p [Ho Hw] Hk E1 E2 | p [Ho Hw] Hk E1 E2 | | p [Ho Hw] Hk E1 E2 | p [Ho Hw] Hk E1 E2 | p [Ho Hw] Hk E1 E2 | ];
    subst c; rewrite <- E2 in Ha; simpl in *; rewrite <- ?E2 in Hst; simpl in Hst.
  - injection Hst as <- <-. split; unfold pools; simpl; rewrite <- ?E1; [done | by constructor | by repeat constructor].
  - injection Hst as <- <-. apply Forall_cons in Ha as [Ha _].
    split; unfold pools; simpl; rewrite <- ?E1; [done | constructor; [done |]; simpl; by rewrite fmap_app, Hk |].
    repeat constructor. apply Forall_app. split; [exact Ha |]. repeat constructor.
  - rewrite Hc in Hst. destruct (Nat.eqb_spec n 0); [done |]. injection Hst as <- <-. apply Forall_cons in Ha as [Ha _].
    split; unfold pools; simpl; rewrite <- ?E1; [done | constructor; [done |]; unfold full; simpl |].
    + rewrite fmap_app, Hk, fmap_replicate. done.
    + repeat constructor. apply Forall_app. split; [exact Ha |]. apply Forall_replicate. by left.
  - injection Hst as <- <-. split; unfold pools; simpl; rewrite <- ?E1; [done | by constructor | exact Ha].
  - injection Hst as <- <-. split; unfold pools; simpl; rewrite <- ?E1, <- ?E2; [done | | apply Forall_cons in Ha as [Ha _]; by repeat constructor].
    constructor; [| done]. split; simpl; rewrite Ho; [done |]. by rewrite Hw.
  - destruct (forallb _ _); [| done]. injection Hst as <- <-.
    split; unfold pools; simpl; rewrite <- ?E1, <- ?E2; [done | constructor | constructor].
Qed.

Lemma loop_step_inv n s s' : n <> 0%nat -> inv n s -> step true true s s' -> inv n s'.
Proof.
  intros Hn Hi. destruct 1 as [s b l He | s b l Hq He | s c1 c c2 c' l Hcs Hc | s p i k at_ w at' l Hp Ht Hs
    | s c1 c c2 p i k at_ w at' l Hcs Hp Ht Hs].
  - by apply step_run_inv.
  - by apply step_stop_inv; [| apply Hq |].
  - pose proof (iv_shape _ _ Hi) as Hsh. rewrite Hcs in Hsh. destruct (shape_call _ _ _ _ _ _ _ Hsh) as (-> & -> & _).
    rewrite app_nil_r. by eapply call_step_inv.
  - by eapply step_thread_inv.
  - by eapply step_ending_inv.
Qed.

Lemma inv_reachable n s : n <> 0%nat -> reachable true true n s -> inv n s.
Proof.
  intros Hn. induction 1 as [| s s' _ IH Hs]; [| by eapply loop_step_inv].
  split; [done | constructor | constructor].
Qed.

(** ** Property *)

(** The steps that are left to a thread of a pool that shuts down. *)
Definition cost (at_ : place) : nat :=
  match at_ with Waiting => 3 | Adding | Handling => 2 | Testing => 1 | Exited => 0 end.

(** C22: the life of an event loop that is not stopped while it is being started, whose
    threads can register the self pipe.  However often and from however many threads
    [Run] and [Stop] are called, one call of [Run] starts the loop; from its end to
    [Stop] there are one listening thread and the threads for connections, and the pool
    does not shut down; no call goes through a null pointer.  While [Stop] joins,
    every thread that has not ended has a step to make, also when it waits and
    nothing else happens on its connections; each such step brings it nearer to
    its end, so that it makes three at most; and when all have ended [Stop] returns,
    and no pool is left. *)
Theorem loop_life (n : nat) (s : system) :
  n <> 0%nat -> reachable true true n s ->
  (runs s <= 1)%nat /\ ~ undefined s /\
  (is_running_ (loop_ s) = RUNNING -> calls s = [] ->
     exists p, pool_ (loop_ s) = Some p /\ (threads p).*1 = Listen_worker :: replicate n IO_worker /\
       IsShuttingDown (workers_pool p) = false) /\
  (is_running_ (loop_ s) = STOPPED -> calls s = [] -> pool_ (loop_ s) = None) /\
  (forall p, Stop_join p ∈ calls s ->
     (forall i k at_, threads p !! i = Some (k, at_) ->
        (at_ <> Exited -> exists at' l, thread_step true Self k at_ p (loop_ s) = Some (at', l)) /\
        (forall w at' l, thread_step true w k at_ p (loop_ s) = Some (at', l) -> (cost at' < cost at_)%nat)) /\
     (Forall (fun t => t.2 = Exited) (threads p) -> call_step (Stop_join p) (loop_ s) = Some (None, loop_ s))).
Proof.
  intros Hn Hr. pose proof (inv_reachable n s Hn Hr) as [Hc Hs Ha]. split_and!.
  - by inversion Hs; lia.
  - intros (c & Hin & Hnone & Hj). apply list_elem_of_split in Hin as (c1 & c2 & Hcs). rewrite Hcs in Hs.
    destruct (shape_call _ _ _ _ _ _ _ Hs) as (-> & -> & _).
    inversion Hs as [ | E1 E2 Hrun | p Ho Hk E1 E2 Hrun | p Ho Hk E1 E2 Hrun | | p Ho Hk E1 E2 Hrun | p Ho Hk E1 E2 Hrun | p Ho Hk E1 E2 Hrun | ];
      subst c; unfold call_step, AddWorker in Hnone; rewrite <- ?E2 in Hnone; simpl in Hnone; try done.
    + rewrite Hc in Hnone. by destruct (Nat.eqb_spec n 0).
    + by destruct (Hj p).
  - intros Hrun Hcs. rewrite Hrun, Hcs in Hs. inversion Hs as [ | | | | p [Ho Hw] Hk E1 E2 | | | | ].
    exists p. split; [done |]. split; [exact Hk |]. by rewrite Ho.
  - intros Hst Hcs. rewrite Hst, Hcs in Hs. by inversion Hs.
  - intros p Hin. apply list_elem_of_split in Hin as (c1 & c2 & Hcs). rewrite Hcs in Hs.
    destruct (shape_call _ _ _ _ _ _ _ Hs) as (-> & -> & Hnone). specialize (Hnone ltac:(by eexists)).
    unfold pools in Ha. rewrite Hnone, Hcs in Ha. simpl in Ha. apply Forall_cons in Ha as [Ha _].
    inversion Hs as [ | | | | | | | p' [Ho Hw] Hk E1 E2 E3 | ]; subst p'. split.
    + intros i k at_ Hi. pose proof (proj1 (Forall_lookup _ _) Ha _ _ Hi) as Hreg. simpl in Hreg.
      split; [| intros w at' l; destruct at_; simpl; rewrite ?Ho; simpl; repeat (case_match; try done); intros [= <- _]; simpl; lia].
      intros Hne. destruct at_; try done; simpl; try by do 2 eexists.
      destruct Hreg as [? | Hreg]; [done |]. unfold ready. rewrite Hw, bool_decide_true by done. by do 2 eexists.
    + intros Hall. simpl. destruct (forallb _ _) eqn:Hf; [done |]. apply not_true_iff_false in Hf. destruct Hf.
      apply forallb_forall. intros t Ht. apply bool_decide_true. apply (proj1 (Forall_forall _ _) Hall). by apply list_elem_of_In.
Qed.

(** ** Concrete runs *)

Lemma go_call strict added n s c1 c c2 c' l :
  reachable strict added n s -> calls s = c1 ++ c :: c2 -> call_step c (loop_ s) = Some (c', l) ->
  reachable strict added n {| loop_ := l; calls := c1 ++ option_list c' ++ c2; runs := runs s |}.
Proof. intros Hr Hc Hs. eapply reach_step; [exact Hr |]. by eapply step_call. Qed.

Lemma go_thread strict added n s p i k at_ w at' l :
  reachable strict added n s -> pool_ (loop_ s) = Some p -> threads p !! i = Some (k, at_) ->
  thread_step added w k at_ p (loop_ s) = Some (at', l) ->
  reachable strict added n {| loop_ := set_pool (Some (move i (k, at') p)) l; calls := calls s; runs := runs s |}.
Proof. intros Hr Hp Hi Hs. eapply reach_step; [exact Hr |]. by eapply step_thread. Qed.

Lemma go_stop strict added n s b l :
  reachable strict added n s -> (strict = true -> forallb (fun c => negb (is_run c)) (calls s) = true) ->
  exchange RUNNING STOPPED (loop_ s) = (b, l) ->
  reachable strict added n {| loop_ := l; calls := if b then Stop_take :: calls s else calls s; runs := runs s |}.
Proof. intros Hr Hc He. eapply reach_step; [exact Hr |]. by apply step_stop. Qed.

Ltac go_on H lemma :=
  let H' := fresh in
  pose proof lemma as H'; cbn [pool_ loop_ calls runs exchange set_status option_list threads list_lookup Init.Nat.pred] in H';
  clear H; rename H' into H.

Definition started : system :=
  {| loop_ := {| is_running_ := RUNNING; concurrency_ := 1;
                 pool_ := Some {| workers_pool := new_worker_pool true; write_end := true;
                                  threads := [(Listen_worker, Adding); (IO_worker, Adding)] |};
                 registered := [] |};
     calls := []; runs := 1 |}.

Lemma started_reachable strict added : reachable strict added 1 started.
Proof.
  pose proof (reach_step _ _ _ _ _ (reach_init strict added 1) (step_run strict added (init 1) true _ eq_refl)) as H.
  go_on H (go_call _ _ _ _ [] _ [] _ _ H eq_refl eq_refl).
  go_on H (go_call _ _ _ _ [] _ [] _ _ H eq_refl eq_refl).
  go_on H (go_call _ _ _ _ [] _ [] _ _ H eq_refl eq_refl).
  exact H.
Qed.

Lemma loop_life_witness :
  1%nat <> 0%nat /\ reachable true true 1 started /\
  exists p, pool_ (loop_ started) = Some p /\ (threads p).*1 = [Listen_worker; IO_worker] /\ IsShuttingDown (workers_pool p) = false.
Proof.
  split; [done |]. split; [apply started_reachable |].
  by apply (loop_life 1 started ltac:(done) (started_reachable true true)).
Defined.

(** [Stop] may be called from any thread, but not between the exchange of [Run] and its
    [AddWorker]: that goes through a null pointer then. *)
Example stop_during_run : exists s, reachable false true 1 s /\ undefined s.
Proof.
  pose proof (reach_step _ _ _ _ _ (reach_init false true 1) (step_run false true (init 1) true _ eq_refl)) as H.
  go_on H (go_call _ _ _ _ [] _ [] _ _ H eq_refl eq_refl).
  go_on H (go_stop _ _ _ _ _ _ H ltac:(done) eq_refl).
  go_on H (go_call _ _ _ _ [] _ [Run_listen] _ _ H eq_refl eq_refl).
  eexists. split; [exact H |]. exists Run_listen. split; [right; left |]. by split.
Qed.

(** Nobody reads the result of [Add].  Where the pipe could not be made or registered,
    threads that wait are not woken, and [Stop] does not return as long as no
    connection does anything. *)
Example stop_sleeps : exists s p, reachable true false 1 s /\ calls s = [Stop_join p] /\
  call_step (Stop_join p) (loop_ s) = None /\
  forall i k at_, threads p !! i = Some (k, at_) -> thread_step false Self k at_ p (loop_ s) = None.
Proof.
  pose proof (started_reachable true false) as H.
  go_on H (go_thread _ _ _ _ _ 0 _ _ Self _ _ H eq_refl eq_refl eq_refl).
  go_on H (go_thread _ _ _ _ _ 0 _ _ Self _ _ H eq_refl eq_refl eq_refl).
  go_on H (go_thread _ _ _ _ _ 1 _ _ Self _ _ H eq_refl eq_refl eq_refl).
  go_on H (go_thread _ _ _ _ _ 1 _ _ Self _ _ H eq_refl eq_refl eq_refl).
  go_on H (go_stop _ _ _ _ _ _ H ltac:(done) eq_refl).
  go_on H (go_call _ _ _ _ [] _ [] _ _ H eq_refl eq_refl).
  go_on H (go_call _ _ _ _ [] _ [] _ _ H eq_refl eq_refl).
  eexists _, _. split_and!; [exact H | reflexivity | reflexivity |].
  intros [|[|i]] k at_ Hi; simpl in Hi; by simplify_eq.
Qed.
