(* ===== verification/EmitterShutdown.v ===== *)
(** The end of an emitter: what becomes of its requests and its workers after the
    destructor has closed the queues ([Emitter::~Emitter], the loops of the
    workers and [LockedQueue::Pop] on closed queues;
    [src/src/daemon/emitter.cc]).

    The coordinators' poll worker is gone at this point; when it ended it has
    made a pool of remote workers that is not forced to shut down, as is the pool
    of an emitter without coordinators.  A pool that is not forced sets its flag
    only after its threads have been joined ([ThreadPool.destroy_end]), so the
    workers leave their loops only through the queues. *)

From S2P Require Import Prelude LockedQueue StringUtils ConstString ConstStringFind ConstStringHash CacheLocks FileCache CacheEntries Messages CommandLines CompilationDaemon EmitterTasks EmitterConf Emitter.

#[local] Open Scope Z_scope.

(** ** Workers *)

(** A remote worker has its [shard_queue_limit], its shard, and whether it knows
    the end point of its remote daemon. *)
Inductive kind := Cache_worker | Local_worker | Remote_worker (limit shard : Z) (end_point : bool).

Definition in_shard (shard : Z) (l : list (Z * Task)) : list (Z * Task) := filter (fun p => p.1 = shard) l.

(** [Pop] of a closed queue returns nothing. *)
Definition nothing_to_pop (limit shard : Z) (all : list (Z * Task)) : bool :=
  if limit =? 0 then bool_decide (all = [])
  else bool_decide (in_shard shard all = []) && negb (existsb (fun p => limit <? Zlen (in_shard p.1 all)) all).

(** A worker at the head of its loop leaves it. *)
Definition worker_ends (k : kind) (s : system) : bool :=
  match k with
  | Cache_worker => bool_decide (cache_tasks s = [])
  | Local_worker => bool_decide (failed_tasks s = []) && (negb (local_takes_all s) || bool_decide (all_tasks s = []))
  | Remote_worker limit shard end_point => end_point && nothing_to_pop limit shard (all_tasks s)
  end.

(** ** State *)

(** [racing] bounds the pushes that have found their queue open but take its lock
    only after [Close]; [dropped] holds the connections that are closed without
    an answer. *)
Record closing := {
  sys : system;
  live : list kind;
  racing : nat;
  dropped : list nat;
  finished : bool
}.

Definition close (ks : list kind) (r : nat) (s : system) : closing :=
  {| sys := s; live := ks; racing := r; dropped := []; finished := false |}.

Definition with_sys (s : system) (c : closing) : closing :=
  {| sys := s; live := live c; racing := racing c; dropped := dropped c; finished := finished c |}.
Definition with_live (l : list kind) (c : closing) : closing :=
  {| sys := sys c; live := l; racing := racing c; dropped := dropped c; finished := finished c |}.
Definition drop (conn : nat) (c : closing) : closing :=
  {| sys := sys c; live := live c; racing := racing c; dropped := dropped c ++ [conn]; finished := finished c |}.
Definition raced (s : system) (c : closing) : closing :=
  {| sys := s; live := live c; racing := pred (racing c); dropped := dropped c; finished := finished c |}.

Definition in_flight (s : system) : list nat :=
  map connection (cache_tasks s) ++ map (fun p => connection p.2) (all_tasks s) ++ map connection (failed_tasks s).

(** Where a handled task goes: a push into a closed queue fails and the task is
    destroyed. *)
Definition place_closed (race : bool) (conn : nat) (o : outcome) (c : closing) : closing :=
  match o with
  | Closed | Reported _ => with_sys (place conn o (sys c)) c
  | To_failed _ | To_all _ _ => if race then raced (place conn o (sys c)) c else drop conn c
  end.

(** A request that arrives now. *)
Definition late_message (race : bool) (conn : nat) (m : Local_) (c : closing) : closing :=
  if race then raced (HandleNewMessage conn m (sys c)) c else drop conn c.

(** The destructors of the queues. *)
Definition finish (c : closing) : closing :=
  {| sys := set_cache_tasks [] (set_all_tasks [] (set_failed_tasks [] (sys c))); live := live c; racing := racing c;
     dropped := dropped c ++ in_flight (sys c); finished := true |}.

(** ** Steps *)

Inductive event := Handled_ (conn : nat) | Ended | Resolved | Slept | Late (conn : nat) | Finished.

Section System.
Context (print : Manifest -> list Z) (parse : list Z -> option Manifest).
Context (Compress Uncompress : list Z -> option (list Z)) (clang_version : list Z).

(** A worker takes a task, handles it and lets go of it. *)
Inductive handles (s : system) : kind -> Task -> outcome -> system -> Prop :=
| handles_cache l1 t l2 w wconf o d :
    cache_tasks s = l1 ++ t :: l2 ->
    check_cache_task print parse Uncompress clang_version w wconf t (daemon s) = Some (o, d) ->
    handles s Cache_worker t o (set_cache_tasks (l1 ++ l2) (with_daemon d s))
| handles_failed l1 t l2 w o d :
    failed_tasks s = l1 ++ t :: l2 -> local_task print Compress clang_version w t (daemon s) = Some (o, d) ->
    handles s Local_worker t o (set_failed_tasks (l1 ++ l2) (with_daemon d s))
| handles_local l1 sh t l2 w o d :
    local_takes_all s = true -> all_tasks s = l1 ++ (sh, t) :: l2 ->
    local_task print Compress clang_version w t (daemon s) = Some (o, d) ->
    handles s Local_worker t o (set_all_tasks (l1 ++ l2) (with_daemon d s))
| handles_remote limit shard l1 sh t l2 w wconf o d :
    all_tasks s = l1 ++ (sh, t) :: l2 ->
    remote_task print Compress clang_version w wconf shard t (daemon s) = Some (o, d) ->
    handles s (Remote_worker limit shard true) t o (set_all_tasks (l1 ++ l2) (with_daemon d s)).

Inductive step (c : closing) : event -> closing -> Prop :=
| step_handled k t o s race :
    k ∈ live c -> handles (sys c) k t o s -> (race = true -> racing c <> 0%nat) ->
    step c (Handled_ (connection t)) (place_closed race (connection t) o (with_sys s c))
| step_ended l1 k l2 :
    live c = l1 ++ k :: l2 -> worker_ends k (sys c) = true -> step c Ended (with_live (l1 ++ l2) c)
| step_resolved l1 limit shard l2 :
    live c = l1 ++ Remote_worker limit shard false :: l2 ->
    step c Resolved (with_live (l1 ++ Remote_worker limit shard true :: l2) c)
| step_slept limit shard :
    Remote_worker limit shard false ∈ live c -> step c Slept c
| step_late conn m race :
    finished c = false -> conn ∉ connections (sys c) -> conn ∉ dropped c -> (race = true -> racing c <> 0%nat) ->
    step c (Late conn) (late_message race conn m c)
| step_finished :
    finished c = false -> live c = [] -> step c Finished (finish c).

Inductive run_of (c0 : closing) : list event -> closing -> Prop :=
| run_nil : run_of c0 [] c0
| run_step tr c e c' : run_of c0 tr c -> step c e c' -> run_of c0 (tr ++ [e]) c'.

(** ** Lemmas *)

Definition late_of (e : event) : option nat := match e with Late conn => Some conn | _ => None end.

(** All connections the emitter has ever had. *)
Definition known (c : closing) : list nat := connections (sys c) ++ dropped c.

Lemma connections_flight s : connections s = in_flight s ++ (answers s).*1.
Proof. unfold connections, in_flight. by rewrite <-!app_assoc. Qed.

Definition emptied (s s' : system) : Prop :=
  (cache_tasks s = [] -> cache_tasks s' = []) /\ (all_tasks s = [] -> all_tasks s' = []) /\
  (failed_tasks s = [] -> failed_tasks s' = []) /\ local_takes_all s' = local_takes_all s.

Lemma handles_spec s k t o s' :
  handles s k t o s' ->
  in_flight s ≡ₚ connection t :: in_flight s' /\ answers s' = answers s /\ emptied s s' /\
  forall t', (o = To_failed t' \/ exists sh, o = To_all t' sh) -> connection t' = connection t.
Proof.
  assert (forall {A} (l1 : list A) x l2, l1 ++ x :: l2 = [] -> l1 ++ l2 = []) as Hnil by (by intros A []).
  unfold in_flight, emptied. intros H.
  destruct H as [l1 t l2 w wconf o d Hl Ho | l1 t l2 w o d Hl Ho | l1 sh t l2 w o d _ Hl Ho
    | limit shard l1 sh t l2 w wconf o d Hl Ho]; simpl; (split_and!; [| done | ..]); rewrite ?Hl, ?map_app;
    try done; try (simpl; solve_Permutation); try (intros ?%Hnil; done);
    intros t' [-> | [sh' ->]].
  - apply check_cache_outcome in Ho. by destruct Ho.
  - apply check_cache_outcome in Ho. by destruct Ho as (_ & ? & _).
  - apply local_outcome in Ho. by destruct Ho.
  - apply local_outcome in Ho. by destruct Ho as (_ & ? & _).
  - apply local_outcome in Ho. by destruct Ho.
  - apply local_outcome in Ho. by destruct Ho as (_ & ? & _).
  - apply remote_outcome in Ho. by destruct Ho.
  - apply remote_outcome in Ho. by destruct Ho as [? _].
Qed.

(** The task that is handed on keeps its connection, whatever happens to it. *)
Lemma place_closed_known race t o s c :
  (forall t', (o = To_failed t' \/ exists sh, o = To_all t' sh) -> connection t' = connection t) ->
  known (place_closed race (connection t) o (with_sys s c)) ≡ₚ connection t :: known (with_sys s c).
Proof.
  intros Ho. unfold known, connections.
  destruct o as [| status | t' | t' sh]; [| | specialize (Ho t' (or_introl eq_refl)) |
    specialize (Ho t' (or_intror (ex_intro _ sh eq_refl)))]; [| | destruct race..]; simpl;
    rewrite ?fmap_app, ?map_app; simpl; rewrite ?Ho; solve_Permutation.
Qed.

Lemma late_known race conn m c : known (late_message race conn m c) ≡ₚ conn :: known c.
Proof.
  unfold known, connections, late_message, HandleNewMessage. destruct race; [| simpl; solve_Permutation].
  destruct (has_cache_conf _); simpl; rewrite map_app; simpl; solve_Permutation.
Qed.

Lemma step_known c e c' :
  step c e c' ->
  match e with
  | Late conn => conn ∉ known c /\ known c' ≡ₚ conn :: known c
  | _ => known c' ≡ₚ known c
  end.
Proof.
  intros H. destruct H as [k t o s race _ Hh _ | l1 k l2 _ _ | l1 limit shard l2 _ | limit shard _
    | conn m race _ Hn Hd _ | _ _]; try done.
  - destruct (handles_spec _ _ _ _ _ Hh) as (Hp & Ha & _ & Ho). rewrite place_closed_known by exact Ho.
    unfold known. simpl. rewrite !connections_flight, Hp, Ha. done.
  - split; [unfold known; rewrite elem_of_app; tauto | apply late_known].
  - unfold known. rewrite !connections_flight. simpl. solve_Permutation.
Qed.

Lemma run_known c0 tr c :
  NoDup (known c0) -> run_of c0 tr c -> NoDup (known c) /\ known c ≡ₚ known c0 ++ omap late_of tr.
Proof.
  intros Hn. induction 1 as [|tr c e c' _ [IHn IH] Hs]; [split; [done | by rewrite app_nil_r] |].
  rewrite omap_app. apply step_known in Hs. destruct e as [conn | | | | conn |]; simpl in *;
    try (rewrite app_nil_r, Hs; done).
  destruct Hs as [Hin Hs]. rewrite Hs. split; [by constructor |]. rewrite IH. solve_Permutation.
Qed.

(** ** What is left to do *)

Definition unresolved (k : kind) : bool := match k with Remote_worker _ _ false => true | _ => false end.

Definition left_ (c : closing) : nat :=
  length (in_flight (sys c)) + racing c + length (live c) + length (filter unresolved (live c)).

(** The steps that bring the end nearer. *)
Definition counts (e : event) : nat := match e with Handled_ _ | Ended | Resolved => 1 | _ => 0 end.

Lemma place_closed_left race t o s c :
  (race = true -> racing c <> 0%nat) ->
  (left_ (place_closed race (connection t) o (with_sys s c)) <= left_ (with_sys s c))%nat.
Proof.
  intros Hr. unfold left_, in_flight. destruct o as [| status | t' | t' sh]; [| | destruct race..]; simpl; try lia;
    specialize (Hr eq_refl); rewrite ?map_app, !length_app; simpl; rewrite ?length_app; simpl; lia.
Qed.

Lemma step_left c e c' : step c e c' -> (counts e + left_ c' <= left_ c)%nat.
Proof.
  intros H. destruct H as [k t o s race _ Hh Hr | l1 k l2 Hl _ | l1 limit shard l2 Hl | limit shard _
    | conn m race _ _ _ Hr | _ Hl]; simpl.
  - destruct (handles_spec _ _ _ _ _ Hh) as (Hp & _). pose proof (place_closed_left race t o s c Hr) as Hle.
    unfold left_ in *. simpl in *. rewrite Hp. simpl. lia.
  - unfold left_. simpl. rewrite Hl, !filter_app, !length_app, filter_cons. simpl. destruct (decide (unresolved k)); simpl; lia.
  - unfold left_. simpl. rewrite Hl, !filter_app, !length_app, !filter_cons. simpl. lia.
  - lia.
  - unfold left_, late_message, in_flight, HandleNewMessage. destruct race; [| simpl; lia]. specialize (Hr eq_refl).
    destruct (has_cache_conf _); simpl; rewrite ?map_app, !length_app; simpl; rewrite ?length_app; simpl; lia.
  - unfold left_. simpl. lia.
Qed.

Lemma run_left c0 tr c : run_of c0 tr c -> (sum_list_with counts tr + left_ c <= left_ c0)%nat.
Proof.
  induction 1 as [|tr c e c' _ IH Hs]; [done |]. rewrite sum_list_with_snoc. apply step_left in Hs. lia.
Qed.

(** A world in which the client has gone. *)
Definition gone_world : world :=
  {| closed := true; calls := good_env;
     run := fun _ _ fs => {| proc_ok := false; proc_stdout := []; proc_stderr := []; proc_error := []; proc_files := fs |};
     connected := false; sent := false; received := None; random := 0 |}.

Lemma nothing_or_task limit shard all : nothing_to_pop limit shard all = false -> exists p l, all = p :: l.
Proof.
  destruct all as [|p l]; [| by exists p, l]. unfold nothing_to_pop. by destruct (limit =? 0).
Qed.

Lemma worker_goes_on c k :
  k ∈ live c -> unresolved k = false ->
  exists e c', step c e c' /\ e <> Resolved /\ (counts e + left_ c' <= left_ c)%nat /\ counts e = 1%nat.
Proof.
  intros Hk Hu. apply list_elem_of_split in Hk as Hl. destruct Hl as (l1 & l2 & Hl).
  destruct (worker_ends k (sys c)) eqn:He.
  { assert (step c Ended (with_live (l1 ++ l2) c)) as Hs by (by eapply step_ended).
    eexists _, _. split; [exact Hs |]. split; [done |]. split; [by apply step_left in Hs | done]. }
  assert (exists t s, handles (sys c) k t Closed s) as (t & s & Hh).
  { destruct k as [| | limit shard [|]]; simpl in He.
    - apply bool_decide_eq_false in He. destruct (cache_tasks (sys c)) as [|t l] eqn:Hq; [done |].
      eexists _, _. by apply (handles_cache (sys c) [] t l gone_world (conf (daemon (sys c))) Closed (daemon (sys c))).
    - apply andb_false_iff in He as [He | He].
      + apply bool_decide_eq_false in He. destruct (failed_tasks (sys c)) as [|t l] eqn:Hq; [done |].
        eexists _, _. by apply (handles_failed (sys c) [] t l gone_world Closed (daemon (sys c))).
      + apply orb_false_iff in He as [He1 He2]. apply negb_false_iff in He1. apply bool_decide_eq_false in He2.
        destruct (all_tasks (sys c)) as [|[sh t] l] eqn:Hq; [done |].
        eexists _, _. by apply (handles_local (sys c) [] sh t l gone_world Closed (daemon (sys c))).
    - destruct (nothing_or_task _ _ _ He) as ([sh t] & l & Hq).
      eexists _, _. by apply (handles_remote (sys c) limit shard [] sh t l gone_world (conf (daemon (sys c))) Closed (daemon (sys c))).
    - done. }
  pose proof (step_handled c k t Closed s false Hk Hh) as Hs. specialize (Hs (fun H => match Bool.diff_false_true H with end)).
  eexists _, _. split; [exact Hs |]. split; [done |]. split; [by apply step_left in Hs | done].
Qed.

(** ** Workers that never end *)

Lemma unresolved_stays c e c' limit shard :
  step c e c' -> e <> Resolved -> Remote_worker limit shard false ∈ live c -> Remote_worker limit shard false ∈ live c'.
Proof.
  intros H He Hin. destruct H as [k t o s race _ Hh Hr | l1 k l2 Hl Hk | l1 limit' shard' l2 Hl | limit' shard' _
    | conn m race _ _ _ Hr | _ Hl]; try done.
  - destruct o as [| status | t' | t' sh]; [done | done | by destruct race ..].
  - simpl. rewrite Hl in Hin. apply elem_of_app in Hin as [Hin | [<- | Hin]%elem_of_cons].
    + apply elem_of_app. by left.
    + done.
    + apply elem_of_app. by right.
  - by destruct race.
Qed.

Lemma run_unresolved c tr c' limit shard :
  run_of c tr c' -> Resolved ∉ tr -> Remote_worker limit shard false ∈ live c -> Remote_worker limit shard false ∈ live c'.
Proof.
  intros Hr. induction Hr as [|tr c1 e c2 _ IH Hs]; [done |]. rewrite not_elem_of_app, list_elem_of_singleton.
  intros [Htr He] Hin. eapply unresolved_stays; [exact Hs | by intros -> | by apply IH].
Qed.

Lemma finished_live c0 tr c : run_of c0 tr c -> finished c0 = false -> finished c = true -> live c = [].
Proof.
  intros Hr H0. induction Hr as [|tr c e c' _ IH Hs]; [congruence |].
  destruct Hs as [k t o s race Hk Hh Hr | l1 k l2 Hl Hk | l1 limit' shard' l2 Hl | limit' shard' Hk
    | conn m race _ _ _ Hr | _ Hl]; simpl.
  - intros Hf. assert (finished c = true) as Hf'
      by (destruct o as [| status | t' | t' sh]; [exact Hf | exact Hf | by destruct race ..]).
    rewrite (IH Hf') in Hk. by apply elem_of_nil in Hk.
  - intros Hf. rewrite (IH Hf) in Hl. by destruct l1.
  - intros Hf. rewrite (IH Hf) in Hl. by destruct l1.
  - intros Hf. rewrite (IH Hf) in Hk. by apply elem_of_nil in Hk.
  - intros Hf. unfold late_message in *. destruct race; simpl in *; by apply IH.
  - done.
Qed.

(** ** Queues without late pushes *)

Record drained (takes : bool) (c : closing) : Prop := {
  dr_racing : racing c = 0%nat;
  dr_takes : local_takes_all (sys c) = takes;
  dr_cache : Cache_worker ∈ live c \/ cache_tasks (sys c) = [];
  dr_local : Local_worker ∈ live c \/ failed_tasks (sys c) = [] /\ (takes = true -> all_tasks (sys c) = [])
}.

Lemma step_drained takes c e c' : step c e c' -> drained takes c -> drained takes c'.
Proof.
  intros H [Hr Ht Hc Hl]. destruct H as [k t o s race _ Hh Hrace | l1 k l2 Hlive Hk | l1 limit shard l2 Hlive | limit shard _
    | conn m race _ _ _ Hrace | _ Hlive].
  - destruct race; [by destruct Hrace |]. destruct (handles_spec _ _ _ _ _ Hh) as (_ & _ & (E1 & E2 & E3 & E4) & _).
    assert (drained takes (with_sys s c)) as Hd.
    { constructor; simpl; [done | by rewrite E4 | destruct Hc; [by left | right; auto] | destruct Hl as [| [? ?]]; [by left | right; auto]]. }
    destruct Hd as [? ? ? ?]. destruct o as [| status | t' | t' sh]; by constructor.
  - constructor; simpl; [done | done | |].
    + destruct Hc as [Hc | Hc]; [| by right]. rewrite Hlive in Hc. apply elem_of_app in Hc as [Hc | [<- | Hc]%elem_of_cons].
      * left. apply elem_of_app. by left.
      * right. simpl in Hk. by apply bool_decide_eq_true in Hk.
      * left. apply elem_of_app. by right.
    + destruct Hl as [Hl | Hl]; [| by right]. rewrite Hlive in Hl. apply elem_of_app in Hl as [Hl | [<- | Hl]%elem_of_cons].
      * left. apply elem_of_app. by left.
      * right. simpl in Hk. rewrite Ht in Hk. apply andb_prop in Hk as [H1 H2].
        apply bool_decide_eq_true in H1. split; [done |]. intros ->. by apply bool_decide_eq_true in H2.
      * left. apply elem_of_app. by right.
  - constructor; simpl; [done | done | |].
    + destruct Hc as [Hc | Hc]; [| by right]. left. rewrite Hlive in Hc. set_solver.
    + destruct Hl as [Hl | Hl]; [| by right]. left. rewrite Hlive in Hl. set_solver.
  - by constructor.
  - destruct race; [by destruct Hrace | by constructor].
  - constructor; simpl; [done | done | by right | by right].
Qed.

Lemma run_drained takes c0 tr c : run_of c0 tr c -> drained takes c0 -> drained takes c.
Proof. intros Hr Hd. induction Hr as [|tr c e c' _ IH Hs]; [done | by eapply step_drained]. Qed.

Lemma run_app c0 tr c tr' c' : run_of c0 tr c -> run_of c tr' c' -> run_of c0 (tr ++ tr') c'.
Proof.
  intros H. induction 1 as [|tr' c1 e c2 _ IH Hs]; [by rewrite app_nil_r |]. rewrite app_assoc. by eapply run_step.
Qed.

(** ** Property *)

(** C15: how an emitter ends.  From any state of the emitter in which the queues
    are closed, whatever the workers, the late pushes and late messages do: every
    request is in one queue, answered, or closed without an answer, and never
    twice; a worker that is not trying to resolve its remote daemon can always go
    on, and all handlings, ends and resolutions together are limited by what was
    there at the start, so that these workers end; if no push was under way, and
    there were a cache worker and a local worker, then when all workers have ended
    the queue of the cache and the queue of failed tasks are empty, and when local
    workers take all tasks ([only_failed] is not set) no task is left at all; with
    [only_failed] a task may stay in a shard that no worker serves.  But a worker that cannot
    resolve the name of its remote daemon stays for ever, for nothing but a
    resolved name gets it out of its loop: then the destructor never returns. *)
Theorem shutdown_spec (d : Daemon) (tr0 : list Emitter.event) (s : system) (ks : list kind) (r : nat)
    (tr : list event) (c : closing) :
  Emitter.run_of print parse Compress Uncompress clang_version (initial d) tr0 s -> run_of (close ks r s) tr c ->
  (NoDup (in_flight (sys c) ++ (answers (sys c)).*1 ++ dropped c) /\
   in_flight (sys c) ++ (answers (sys c)).*1 ++ dropped c ≡ₚ connections s ++ omap late_of tr) /\
  (forall k, k ∈ live c -> unresolved k = false -> exists e c', step c e c' /\ e <> Resolved /\ counts e = 1%nat) /\
  (sum_list_with counts tr <= length (in_flight s) + r + length ks + length (filter unresolved ks))%nat /\
  (r = 0%nat -> Cache_worker ∈ ks -> Local_worker ∈ ks -> live c = [] ->
     cache_tasks (sys c) = [] /\ failed_tasks (sys c) = [] /\
     (local_takes_all s = true -> in_flight (sys c) = [])) /\
  (forall limit shard, Remote_worker limit shard false ∈ live c ->
     (forall n, run_of c (replicate n Slept) c) /\
     forall tr' c', run_of c tr' c' -> Resolved ∉ tr' -> Remote_worker limit shard false ∈ live c' /\ finished c' = false).
Proof.
  intros Hs Hr. destruct (run_connections _ _ _ _ _ _ _ _ Hs) as [Hn _].
  destruct (run_known (close ks r s) tr c) as [Hn' Hp]; [by unfold known; rewrite app_nil_r | done |].
  unfold known in Hn', Hp. simpl in Hp. rewrite app_nil_r in Hp. rewrite connections_flight, <-app_assoc in Hn', Hp. split_and!.
  - done.
  - done.
  - intros k Hk Hu. destruct (worker_goes_on c k Hk Hu) as (e & c' & H1 & H2 & _ & H3). by exists e, c'.
  - apply run_left in Hr. unfold left_ in Hr. simpl in Hr. lia.
  - intros -> Hc Hl Hlive. assert (drained (local_takes_all s) c) as Hd
      by (eapply run_drained; [exact Hr |]; by constructor; [| | left | left]).
    destruct Hd as [_ _ H1 H2]. rewrite Hlive in H1, H2. unfold in_flight.
    destruct H1 as [H1 | ->]; [by apply elem_of_nil in H1 |].
    destruct H2 as [H2 | [-> H2]]; [by apply elem_of_nil in H2 |].
    split_and!; [done | done |]. intros Ht. by rewrite (H2 Ht).
  - intros limit shard Hin. split.
    + intros n. induction n as [|n IH]; [constructor |]. rewrite replicate_S_end. econstructor; [exact IH |]. by econstructor.
    + intros tr' c' Hr' Hres. assert (Remote_worker limit shard false ∈ live c') as Hin' by (by eapply run_unresolved).
      split; [done |]. destruct (finished c') eqn:Hf; [| done].
      pose proof (finished_live _ _ _ (run_app _ _ _ _ _ Hr Hr') eq_refl Hf) as Hl. rewrite Hl in Hin'. by apply elem_of_nil in Hin'.
Qed.

End System.

(** ** A concrete end: the remote daemon's name is not known any more *)

Definition closing_daemon : Daemon :=
  {| conf := {| emitter := None; absorber := None; coordinator := None; pool_capacity := 1; versions := [];
                cache_conf := None |};
     cache_on := false; cache := toy_cache |}.

Definition one_request : system := HandleNewMessage 0 emitter_request (initial closing_daemon).
Definition stuck : closing := close [Local_worker; Remote_worker 0 0 false] 0 one_request.
Definition stuck_for_ever : closing :=
  with_live [Remote_worker 0 0 false]
    (place_closed false 0 Closed (with_sys (set_all_tasks [] (with_daemon closing_daemon one_request)) stuck)).

Lemma stuck_run :
  run_of toy_print toy_parse toy_Compress toy_Uncompress (lit "clang 4") stuck [Handled_ 0; Ended] stuck_for_ever.
Proof.
  apply (run_step _ _ _ _ _ stuck [Handled_ 0]
           (place_closed false 0 Closed (with_sys (set_all_tasks [] (with_daemon closing_daemon one_request)) stuck))).
  - apply (run_step _ _ _ _ _ stuck [] stuck); [constructor |].
    apply (step_handled _ _ _ _ _ stuck Local_worker (new_task 0 emitter_request) Closed); [left | | discriminate].
    by apply (handles_local _ _ _ _ _ one_request [] 0 (new_task 0 emitter_request) [] gone_world Closed closing_daemon).
  - by apply (step_ended _ _ _ _ _ _ [] Local_worker [Remote_worker 0 0 false]).
Qed.

Lemma shutdown_spec_witness :
  (answers (sys stuck_for_ever)).*1 = [0%nat] /\
  forall n, run_of toy_print toy_parse toy_Compress toy_Uncompress (lit "clang 4") stuck_for_ever (replicate n Slept) stuck_for_ever.
Proof.
  split; [reflexivity |].
  assert (Emitter.run_of toy_print toy_parse toy_Compress toy_Uncompress (lit "clang 4") (initial closing_daemon) [Arrived 0] one_request)
    as H0.
  { apply (Emitter.run_step _ _ _ _ _ _ [] (initial closing_daemon)); [constructor |].
    apply (step_arrive _ _ _ _ _ (initial closing_daemon) 0 emitter_request). apply not_elem_of_nil. }
  destruct (shutdown_spec _ _ _ _ _ closing_daemon [Arrived 0] one_request [Local_worker; Remote_worker 0 0 false] 0 _ _ H0 stuck_run)
    as (_ & _ & _ & _ & H).
  apply (H 0 0). left.
Defined.
