(* ===== verification/BaseDaemon.v ===== *)
(** The configuration of a running emitter: [BaseDaemon::Update] with
    [Emitter::Reload], the start of the daemons ([base_daemon.cc], [emitter.cc])
    and the choice of the daemons in [clangd_main.cc].

    [None] is a failed CHECK, which ends the process. *)

From S2P Require Import Prelude LockedQueue StringUtils ConstString ConstStringFind ConstStringHash CacheLocks FileCache CacheEntries Messages CommandLines CompilationDaemon EmitterTasks EmitterConf ThreadPool.

#[local] Open Scope Z_scope.

(** ** State *)

(** The pool of remote workers: the shard of each thread, and the configuration
    the threads have been started for. *)
Record RemotePool := { pool_flags : WorkerPool; remote_threads : list Z }.

Record Running := {
  current : Configuration;             (* [conf_] *)
  remote_workers_ : option RemotePool;
  all_tasks_ : Queue Task;
  handle_all_tasks_ : bool
}.

Definition set_current (c : Configuration) (r : Running) : Running :=
  {| current := c; remote_workers_ := remote_workers_ r; all_tasks_ := all_tasks_ r; handle_all_tasks_ := handle_all_tasks_ r |}.
Definition set_handle_all (b : bool) (r : Running) : Running :=
  {| current := current r; remote_workers_ := remote_workers_ r; all_tasks_ := all_tasks_ r; handle_all_tasks_ := b |}.

(** ** [Emitter::Reload] *)

(** [AddWorker] checks that there is at least one thread. *)
Definition AddWorker (count : Z) (shard : Z) (l : list Z) : option (list Z) :=
  if count =? 0 then None else Some (l ++ replicate (Z.to_nat count) shard).

Fixpoint add_remotes (remotes : list Host) (l : list Z) : option (list Z) :=
  match remotes with
  | [] => Some l
  | remote :: remotes =>
      if disabled remote then add_remotes remotes l
      else l ← AddWorker (threads remote) (default (Z.of_nat DEFAULT_SHARD) (shard remote)) l; add_remotes remotes l
  end.

Definition Reload (new_conf : Configuration) (r : Running) : option Running :=
  l ← add_remotes (remotes (emitter_of new_conf)) [];
  q ← Reload_tasks new_conf (current r) (all_tasks_ r);
  Some {| current := current r;
          remote_workers_ := Some {| pool_flags := new_worker_pool (negb (handle_all_tasks_ r)); remote_threads := l |};
          all_tasks_ := q; handle_all_tasks_ := handle_all_tasks_ r |}.

(** ** [BaseDaemon] *)

Definition Update (new_conf : Configuration) (r : Running) : option (bool * Running) :=
  if negb (Check new_conf) then Some (false, r)
  else r ← Reload new_conf r; Some (true, set_current new_conf r).

(** [Emitter::Initialize] with the ones of its bases; [listens] and [runs] are what
    the network service answers. *)
Definition Initialize (listens runs : bool) (r : Running) : option (bool * Running) :=
  if negb listens then Some (false, r)
  else if negb (Check (current r)) then Some (false, r)
  else r ← Reload (current r) r; Some (runs, r).

(** The state after the constructor. *)
Definition constructed (c : Configuration) : Running :=
  {| current := c; remote_workers_ := None; all_tasks_ := new_queue LockedQueue.UNLIMITED;
     handle_all_tasks_ := forallb (fun h => disabled h) (coordinators (emitter_of c)) |}.

(** What [DoPoll] does after its loop. *)
Definition poll_end (r : Running) : option Running := Reload (current r) (set_handle_all true r).

(** ** [main] of clangd *)

Inductive role := Collector_ | Coordinator_ | Absorber_ | Emitter_.

(** The daemons that are started, in order; [inr] is the role whose [Initialize]
    failed, [None] of it stands for a configuration without a daemon. *)
Definition start (c : Configuration) (has_collector : bool) (initialized : role -> bool)
    : list role + option role :=
  if has_collector && negb (initialized Collector_) then inr (Some Collector_)
  else if has (coordinator c) && negb (initialized Coordinator_) then inr (Some Coordinator_)
  else
    match (if has (absorber c) then Some Absorber_ else if has (emitter c) then Some Emitter_ else None) with
    | None => inr None
    | Some daemon =>
        if negb (initialized daemon) then inr (Some daemon)
        else inl ((if has_collector then [Collector_] else []) ++ (if has (coordinator c) then [Coordinator_] else [])
                  ++ [daemon])
    end.

(** ** Interleavings

    [Update] tests and reloads without a lock; only the new pointer is stored
    under [conf_mutex_].  An update is at one of three points. *)
Inductive update_pc := Checked (c : Configuration) | Reloaded (c : Configuration).

Inductive step : Running * list update_pc -> Running * list update_pc -> Prop :=
| step_check r l c : Check c = true -> step (r, l) (r, Checked c :: l)
| step_reload r l1 c l2 r' : Reload c r = Some r' -> step (r, l1 ++ Checked c :: l2) (r', l1 ++ Reloaded c :: l2)
| step_store r l1 c l2 : step (r, l1 ++ Reloaded c :: l2) (set_current c r, l1 ++ l2).

(** ** Lemmas *)

Definition threads_of (remotes : list Host) : list Z :=
  mjoin (map (fun h => if disabled h then [] else replicate (Z.to_nat (threads h)) (default (Z.of_nat DEFAULT_SHARD) (shard h))) remotes).

Lemma add_remotes_spec remotes l :
  match add_remotes remotes l with
  | Some l' => l' = l ++ threads_of remotes /\ forall h, h ∈ remotes -> disabled h = false -> threads h <> 0
  | None => exists h, h ∈ remotes /\ disabled h = false /\ threads h = 0
  end.
Proof.
  revert l. induction remotes as [|h remotes IH]; intros l; simpl; [split; [by rewrite app_nil_r | by intros ? ?%elem_of_nil] |].
  unfold threads_of. simpl. fold (threads_of remotes). destruct (disabled h) eqn:Hd.
  - specialize (IH l). destruct (add_remotes remotes l).
    + destruct IH as [-> IH]. split; [done |]. intros h' [-> | Hin]%elem_of_cons; [congruence | by apply IH].
    + destruct IH as (h' & Hin & Hh). exists h'. split; [by right | done].
  - unfold AddWorker. destruct (Z.eqb_spec (threads h) 0) as [Hz | Hz]; simpl; [exists h; split; [left | done] |].
    match goal with |- context [add_remotes remotes ?l] => specialize (IH l); destruct (add_remotes remotes l) end.
    + destruct IH as [-> IH]. rewrite app_assoc. split; [done |]. intros h' [-> | Hin]%elem_of_cons; [done | by apply IH].
    + destruct IH as (h' & Hin & Hh). exists h'. split; [by right | done].
Qed.

(** Where a remote host asks for no threads. *)
Definition no_threads (c : Configuration) : Prop :=
  exists h, h ∈ remotes (emitter_of c) /\ disabled h = false /\ threads h = 0.

(** The daemon runs on its configuration. *)
Record in_step (r : Running) : Prop := {
  is_checked : Check (current r) = true;
  is_threads : ~ no_threads (current r);
  is_pool : exists p, remote_workers_ r = Some p /\ remote_threads p = threads_of (remotes (emitter_of (current r)));
  is_tasks : drainable (all_tasks_ r)
}.

Lemma Reload_spec c r :
  Check c = true -> Check (current r) = true -> drainable (all_tasks_ r) ->
  match Reload c r with
  | Some r' => in_step (set_current c r') /\ (queue_ (all_tasks_ r')).*2 ≡ₚ (queue_ (all_tasks_ r)).*2 /\
               current r' = current r /\ handle_all_tasks_ r' = handle_all_tasks_ r /\
               option_map (fun p => force_shut_down_ (pool_flags p)) (remote_workers_ r') = Some (negb (handle_all_tasks_ r))
  | None => no_threads c
  end /\ (no_threads c -> Reload c r = None).
Proof.
  intros Hc Hr Hd. unfold Reload. pose proof (add_remotes_spec (remotes (emitter_of c)) []) as Ha.
  destruct (add_remotes _ _) as [l|]; [| by split].
  destruct Ha as [-> Ha]. cbn [mbind option_bind].
  destruct (Reload_tasks_ok c (current r) (all_tasks_ r) Hc Hr Hd) as (q & -> & Hq & Hp). cbn [mbind option_bind].
  split; [| intros (h & Hin & Hh & Hz); by destruct (Ha h Hin Hh)].
  split_and!; try done. constructor; simpl; [done | | | done].
  - intros (h & Hin & Hh & Hz). by destruct (Ha h Hin Hh).
  - eexists. by split.
Qed.

(** ** Properties *)

(** C35: a new configuration replaces the old one as a whole.  If it does not pass
    [Check], nothing changes; otherwise the daemon runs on it afterwards: the
    threads of the remote workers are the ones its remotes ask for, no queued
    task is lost, and the pool is forced to shut down exactly while there are
    coordinators to poll.  Only a remote host that asks for no threads, which
    [Check] lets pass, ends the process instead.  At the start [Initialize] ends the
    process in exactly the same case, once it listens and [Check] passes; it answers
    true exactly when it listens, [Check] passes and the base runs; the daemon is as
    it was constructed when it does not listen or [Check] fails, and runs on its
    configuration otherwise.  After the last poll the workers are those of the
    current configuration, in a pool that is not forced. *)
Theorem Update_spec (c : Configuration) (r : Running) :
  in_step r ->
  match Update c r with
  | Some (false, r') => Check c = false /\ r' = r
  | Some (true, r') => Check c = true /\ current r' = c /\ in_step r' /\
      (queue_ (all_tasks_ r')).*2 ≡ₚ (queue_ (all_tasks_ r)).*2 /\ handle_all_tasks_ r' = handle_all_tasks_ r /\
      option_map (fun p => force_shut_down_ (pool_flags p)) (remote_workers_ r') = Some (negb (handle_all_tasks_ r))
  | None => Check c = true /\ no_threads c
  end /\
  (Check c = true -> no_threads c -> Update c r = None) /\
  (forall listens runs, match Initialize listens runs (constructed c) with
     | Some (ok, r') => ok = listens && Check c && runs /\
         if listens && Check c then ~ no_threads c /\ in_step r' /\ current r' = c else r' = constructed c
     | None => listens = true /\ Check c = true /\ no_threads c
     end) /\
  (exists r', poll_end r = Some r' /\ in_step r' /\ current r' = current r /\
     option_map (fun p => force_shut_down_ (pool_flags p)) (remote_workers_ r') = Some false).
Proof.
  intros [Hr Hnt (p & Hp & Hl) Ht]. split_and!.
  - unfold Update. destruct (Check c) eqn:Hc; cbn [negb]; [| done].
    destruct (Reload_spec c r Hc Hr Ht) as [H _]. destruct (Reload c r) as [r'|]; cbn [mbind option_bind]; [| done].
    by destruct H as (H1 & H2 & H3 & H4 & H5).
  - intros Hc Hn. unfold Update. rewrite Hc. cbn [negb]. destruct (Reload_spec c r Hc Hr Ht) as [_ H]. by rewrite H.
  - intros listens runs. unfold Initialize. destruct listens; cbn [negb]; [| done].
    cbn [current constructed]. destruct (Check c) eqn:Hc; cbn [negb]; [| done].
    assert (drainable (all_tasks_ (constructed c))) as Hd by (constructor; [apply new_queue_ok | done | done | done]).
    destruct (Reload_spec c (constructed c) Hc Hc Hd) as [H Hnone].
    destruct (Reload c (constructed c)) as [r1|]; cbn [mbind option_bind]; [| done].
    destruct H as ([H1 H2 H3 H4] & _ & Hcur & _). simpl in Hcur. split; [done |]. simpl.
    split; [by intros Hn; discriminate (Hnone Hn) |]. split; [| exact Hcur]. rewrite <-Hcur in H1, H2, H3. by constructor.
  - unfold poll_end. destruct (Reload_spec (current r) (set_handle_all true r) Hr Hr Ht) as [H _].
    destruct (Reload (current r) (set_handle_all true r)) as [r'|] eqn:He.
    + destruct H as ([H1 H2 H3 H4] & _ & Hcur & _ & Hf). simpl in Hcur, Hf. exists r'. split_and!; [done | | done | done].
      rewrite <-Hcur in H1, H2, H3. by constructor.
    + by destruct Hnt.
Qed.

(** An update whose steps nothing comes between. *)
Lemma Update_steps c r r' : Update c r = Some (true, r') -> rtc step (r, []) (r', []).
Proof.
  unfold Update. destruct (Check c) eqn:Hc; cbn [negb]; [| done]. intros (r1 & Hr & [= <-])%bind_Some.
  eapply rtc_l; [by apply (step_check r [] c) |]. eapply rtc_l; [by apply (step_reload r [] c [] r1) |].
  eapply rtc_l; [by apply (step_store r1 [] c []) | done].
Qed.

(** The configuration that names both an absorber and an emitter starts the
    absorber and leaves the emitter out without a word. *)
Lemma start_spec c has_collector initialized :
  match start c has_collector initialized with
  | inl l => Forall (fun x => initialized x = true) l /\
      (exists front, l = front ++ [if has (absorber c) then Absorber_ else Emitter_]) /\
      (has (absorber c) = true -> Emitter_ ∉ l)
  | inr (Some x) => initialized x = false
  | inr None => absorber c = None /\ emitter c = None
  end.
Proof.
  unfold start. destruct has_collector, (has (coordinator c)), (initialized Collector_) eqn:H1,
    (initialized Coordinator_) eqn:H2; simpl; try done.
  all: destruct (has (absorber c)) eqn:Ha; [| destruct (has (emitter c)) eqn:He];
    [| | by destruct (absorber c), (emitter c)];
    destruct (initialized Absorber_) eqn:H3, (initialized Emitter_) eqn:H4; simpl; try done;
    (split_and!; [by repeat constructor | |
      try done; intros _; rewrite ?not_elem_of_cons; split_and!; try done; apply not_elem_of_nil]);
    first [by exists [Collector_; Coordinator_] | by exists [Collector_] | by exists [Coordinator_] | by exists []].
Qed.

(** ** Concrete configurations *)

Definition host_with (n : Z) : Host :=
  {| host := lit "r0"; port := 6000; threads := n; disabled := false; ipv6 := false; shard := None |}.

Definition conf_with (n : Z) : Configuration :=
  {| emitter := Some {| remotes := [host_with n]; only_failed := false; coordinators := []; total_shards := None;
                        Messages.shard_queue_limit := None |};
     absorber := None; coordinator := None; pool_capacity := 16; versions := []; cache_conf := None |}.

Definition running_with (n : Z) : Running :=
  {| current := conf_with n;
     remote_workers_ := Some {| pool_flags := new_worker_pool false; remote_threads := replicate (Z.to_nat n) 0 |};
     all_tasks_ := new_queue LockedQueue.UNLIMITED; handle_all_tasks_ := true |}.

Lemma running_with_ok n : 0 < n -> in_step (running_with n).
Proof.
  intros Hn. constructor.
  - reflexivity.
  - intros (h & Hin & _ & Hz). apply list_elem_of_singleton in Hin as ->. simpl in Hz. lia.
  - eexists. split; [reflexivity |]. simpl. unfold threads_of. simpl. by rewrite app_nil_r.
  - constructor; [apply new_queue_ok | done | done | done].
Qed.

(** Two updates at a time can leave the daemon on one configuration with the
    workers of the other: [Update] is not atomic. *)
Lemma Update_races :
  exists r', rtc step (running_with 1, []) (r', []) /\ current r' = conf_with 2 /\
    option_map remote_threads (remote_workers_ r') = Some [0; 0; 0] /\ ~ in_step r'.
Proof.
  exists (set_current (conf_with 2) (set_current (conf_with 3) (running_with 3))). split_and!; [| done | done |].
  - eapply rtc_l; [by apply (step_check _ [] (conf_with 2)) |].
    eapply rtc_l; [by apply (step_check _ [Checked (conf_with 2)] (conf_with 3)) |].
    eapply rtc_l; [by apply (step_reload _ [Checked (conf_with 3)] (conf_with 2) [] (set_current (conf_with 1) (running_with 2))) |].
    eapply rtc_l; [by apply (step_reload _ [] (conf_with 3) [Reloaded (conf_with 2)] (set_current (conf_with 1) (running_with 3))) |].
    eapply rtc_l; [by apply (step_store _ [] (conf_with 3) [Reloaded (conf_with 2)]) |].
    eapply rtc_l; [by apply (step_store _ [] (conf_with 2) []) | done].
  - intros [_ _ (p & Hp & Hl) _]. injection Hp as <-. discriminate Hl.
Qed.

Lemma Update_spec_witness :
  exists r', Update (conf_with 2) (running_with 1) = Some (true, r') /\ in_step r' /\ current r' = conf_with 2.
Proof.
  pose proof (Update_spec (conf_with 2) (running_with 1) (running_with_ok 1 eq_refl)) as [H _].
  destruct (Update (conf_with 2) (running_with 1)) as [[[|] r']|] eqn:He.
  - exists r'. destruct H as (_ & H1 & H2 & _). split; [reflexivity | split; [exact H2 | exact H1]].
  - destruct H as [H _]. vm_compute in H. discriminate H.
  - vm_compute in He. discriminate He.
Defined.
