(* ===== verification/Coordinator.v ===== *)
(** The coordinator ([src/src/daemon/coordinator.cc]) and the emitters that poll it
    ([Emitter::DoPoll] in [src/src/daemon/emitter.cc]).

    A turn of [DoPoll] is one pass of its loop, with the update of the running
    emitter ([BaseDaemon.Update]).  What the network does in a turn is in [world]:
    which coordinators can be resolved and connected to, and with which the
    exchange of the two messages succeeds. *)

From S2P Require Import Prelude LockedQueue Messages CompilationDaemon EmitterTasks EmitterConf ThreadPool BaseDaemon.

#[local] Open Scope Z_scope.

(** ** The coordinator *)

(** A message as far as it is looked at. *)
Record Universal := { initialized : bool; has_configuration : bool }.

Inductive response :=
| Refused                              (* [return false]: the connection is closed *)
| Reported (s : Status)
| Sent_configuration (c : Configuration).

(** The constructor; [None] is the failed CHECK. *)
Definition new_coordinator (conf : Configuration) : option Configuration :=
  if has (coordinator conf) then Some conf else None.

(** [Check] and [Reload] are the ones of [BaseDaemon], which return true. *)
Definition Coordinator_Initialize (listens runs : bool) : bool := listens && runs.

(** The configuration that is sent. *)
Definition configuration_for_emitters (conf : Configuration) : Configuration :=
  {| emitter := coordinator_reply <$> coordinator conf; absorber := None; coordinator := None; pool_capacity := 16;
     versions := []; cache_conf := None |}.

(** [None] is NOTREACHED. *)
Definition Coordinator_HandleNewMessage (conf : Configuration) (message : Universal) (status : Status) : option response :=
  if negb (initialized message) then Some Refused
  else if negb (bool_decide (code status = OK)) then Some (Reported status)
  else if has_configuration message then Some (Sent_configuration (configuration_for_emitters conf))
  else None.

(** ** The emitter's side *)

Record world := { up : nat -> bool; exchanges : nat -> bool; conf_of : nat -> Configuration }.

(** An empty [Configuration]. *)
Definition poll_message : Universal := {| initialized := true; has_configuration := true |}.

(** [emitter()] of the reply; [None] when an exchange fails or the reply has no
    configuration. *)
Definition reply (w : world) (id : nat) : option EmitterConf :=
  if negb (exchanges w id) then None
  else match Coordinator_HandleNewMessage (conf_of w id) poll_message {| code := OK; description := None |} with
       | Some (Sent_configuration c) => Some (emitter_of c)
       | _ => None
       end.

(** One turn; [None] is a failed CHECK in [Update]. *)
Definition DoPoll_turn (w : world) (resolvers : list nat) (r : Running) : option (list nat * Running) :=
  match first_reachable (up w) resolvers with
  | None => Some (resolvers, r)
  | Some i =>
      let resolvers := rotate i resolvers in
      match head resolvers ≫= reply w with
      | None => Some (rotate 1 resolvers, r)
      | Some em =>
          '(ok, r) ← Update (new_configuration (current r) em) r;
          Some (if ok : bool then resolvers else rotate 1 resolvers, r)
      end
  end.

Fixpoint turns (n : nat) (w : world) (resolvers : list nat) (r : Running) : option (list nat * Running) :=
  match n with
  | O => Some (resolvers, r)
  | S n => '(resolvers, r) ← DoPoll_turn w resolvers r; turns n w resolvers r
  end.

(** The whole of [DoPoll], when it is told to stop during the wait after turn
    [S n]. *)
Definition DoPoll (n : nat) (w : world) (resolvers : list nat) (r : Running) : option Running :=
  '(_, r) ← turns (S n) w resolvers r; poll_end r.

(** ** Lemmas *)

(** No host is without threads. *)
Definition threaded (remotes : list Host) : Prop := forall h, h ∈ remotes -> disabled h = false -> threads h <> 0.

Definition usable (w : world) (conf : Configuration) (id : nat) : Prop :=
  up w id = true /\ exists em, reply w id = Some em /\ Check (new_configuration conf em) = true.

Lemma Update_ok c r : in_step r -> threaded (remotes (emitter_of c)) ->
  exists r', Update c r = Some (Check c, r') /\ in_step r' /\ current r' = (if Check c then c else current r) /\
    (queue_ (all_tasks_ r')).*2 ≡ₚ (queue_ (all_tasks_ r)).*2.
Proof.
  intros Hr Ht. unfold Update. destruct (Check c) eqn:Hc; cbn [negb]; [| by exists r].
  destruct (Reload_spec c r Hc (is_checked _ Hr) (is_tasks _ Hr)) as [H _].
  destruct (Reload c r) as [r'|]; cbn [mbind option_bind].
  - destruct H as (H1 & H2 & _). by exists (set_current c r').
  - destruct H as (h & Hin & Hd & Hz). by destruct (Ht h Hin Hd).
Qed.

Lemma Update_fails c r : Check c = true -> ~ threaded (remotes (emitter_of c)) -> Update c r = None.
Proof.
  intros Hc Ht. unfold Update, Reload. rewrite Hc. cbn [negb].
  pose proof (add_remotes_spec (remotes (emitter_of c)) []) as H. destruct (add_remotes _ _) as [l|]; [| done].
  by destruct (Ht (proj2 H)).
Qed.

Lemma new_configuration_remotes conf em : remotes (emitter_of (new_configuration conf em)) = remotes em.
Proof. done. Qed.

Lemma new_configuration_idem conf em : new_configuration (new_configuration conf em) em = new_configuration conf em.
Proof. unfold new_configuration. destruct em as [? ? ? [?|] ?]; done. Qed.

Lemma rotate_perm {R} n (l : list R) : rotate n l ≡ₚ l.
Proof. unfold rotate. rewrite Permutation_app_comm. by rewrite take_drop. Qed.

Lemma rotate_app {R} (l1 l2 : list R) : rotate (length l1) (l1 ++ l2) = l2 ++ l1.
Proof. unfold rotate. by rewrite drop_app_length, take_app_length. Qed.

Lemma rotate_one {R} (x : R) l : rotate 1 (x :: l) = l ++ [x].
Proof. unfold rotate. simpl. by rewrite drop_0. Qed.

(** What a turn does when [x] is the first that can be reached. *)
Lemma turn_at w l1 x l2 r : Forall (fun id => up w id = false) l1 -> up w x = true ->
  DoPoll_turn w (l1 ++ x :: l2) r =
    match reply w x with
    | None => Some (l2 ++ l1 ++ [x], r)
    | Some em => '(ok, r) ← Update (new_configuration (current r) em) r; Some (if ok : bool then x :: l2 ++ l1 else l2 ++ l1 ++ [x], r)
    end.
Proof.
  intros Hl Hx. unfold DoPoll_turn. pose proof (first_reachable_spec (up w) (l1 ++ x :: l2)) as Hf.
  destruct (first_reachable (up w) (l1 ++ x :: l2)) as [i|].
  - destruct Hf as (k1 & y & k2 & Heq & <- & Hk & Hy).
    destruct (first_split_unique (up w) l1 x l2 k1 y k2 Heq Hl Hk Hx Hy) as (-> & -> & ->).
    rewrite rotate_app. cbn [app head mbind option_bind]. rewrite rotate_one, app_assoc. by destruct (reply w y).
  - rewrite Forall_app, Forall_cons in Hf. destruct Hf as (_ & Hf & _). congruence.
Qed.

Definition safe (w : world) (l : list nat) : Prop :=
  Forall (fun id => forall em, reply w id = Some em -> threaded (remotes em)) l.

Lemma safe_perm w l k : l ≡ₚ k -> safe w l -> safe w k.
Proof. unfold safe. intros H. by rewrite H. Qed.

(** Every turn leaves a running emitter, whatever the coordinators send. *)
Lemma turn_ok w l r : in_step r -> safe w l ->
  exists l' r', DoPoll_turn w l r = Some (l', r') /\ in_step r' /\ l' ≡ₚ l /\
    (queue_ (all_tasks_ r')).*2 ≡ₚ (queue_ (all_tasks_ r)).*2 /\
    (current r' = current r \/ exists id, id ∈ l /\ usable w (current r) id).
Proof.
  intros Hr Hs. pose proof (first_reachable_spec (up w) l) as Hf. destruct (first_reachable (up w) l) as [i|] eqn:Hi.
  - destruct Hf as (l1 & x & l2 & -> & _ & Hl & Hx). rewrite turn_at by done.
    assert (l2 ++ l1 ++ [x] ≡ₚ l1 ++ x :: l2) as Hp1 by solve_Permutation.
    assert (x :: l2 ++ l1 ≡ₚ l1 ++ x :: l2) as Hp2 by solve_Permutation.
    destruct (reply w x) as [em|] eqn:He; [| eexists _, _; split_and!; [done.. | by left]].
    assert (threaded (remotes em)) as Ht.
    { unfold safe in Hs. rewrite Forall_app, Forall_cons in Hs. destruct Hs as (_ & Hs & _). by apply Hs. }
    destruct (Update_ok (new_configuration (current r) em) r Hr Ht) as (r' & -> & H1 & H2 & H3).
    cbn [mbind option_bind]. destruct (Check _) eqn:Hc; eexists _, _; split_and!; try done; [| by left].
    right. exists x. split; [set_solver |]. split; [done |]. by exists em.
  - unfold DoPoll_turn. rewrite Hi. eexists _, _. split_and!; [done.. | by left].
Qed.

(** The first usable coordinator is kept. *)
Lemma turns_stay w n id rest em : up w id = true -> reply w id = Some em -> threaded (remotes em) ->
  forall r, in_step r -> Check (new_configuration (current r) em) = true -> new_configuration (current r) em = current r ->
  exists r', turns n w (id :: rest) r = Some (id :: rest, r') /\ in_step r' /\ current r' = current r.
Proof.
  intros Hup He Ht. induction n as [|n IH]; intros r Hr Hc Hn; cbn [turns]; [by exists r |].
  pose proof (turn_at w [] id rest r ltac:(constructor) Hup) as Hturn. cbn [app] in Hturn. rewrite Hturn, He, app_nil_r.
  destruct (Update_ok (new_configuration (current r) em) r Hr Ht) as (r' & -> & H1 & H2 & _).
  rewrite Hc in H2 |- *. cbn [mbind option_bind].
  destruct (IH r' H1) as (r'' & -> & H4 & H5); [by rewrite H2, Hn | by rewrite H2, !Hn |].
  exists r''. by rewrite H5, H2, Hn.
Qed.

(** A turn passes a coordinator that is not usable. *)
Lemma turn_skips w id b1 x b2 rest r : Forall (fun id => up w id = false) b1 -> up w x = true ->
  ~ usable w (current r) x ->
  DoPoll_turn w ((b1 ++ x :: b2) ++ id :: rest) r = Some (b2 ++ id :: rest ++ b1 ++ [x], r).
Proof.
  intros Hb1 Hx Hux. rewrite <-app_assoc. cbn [app]. rewrite turn_at by done.
  assert ((b2 ++ id :: rest) ++ b1 ++ [x] = b2 ++ id :: rest ++ b1 ++ [x]) as -> by (by rewrite <-app_assoc).
  destruct (reply w x) as [em|] eqn:He; [| done]. unfold Update.
  destruct (Check (new_configuration (current r) em)) eqn:Hc; cbn [negb]; [| done].
  exfalso. apply Hux. split; [done |]. by exists em.
Qed.

(** [a] has been passed, [b] is before the first usable coordinator: there the
    process ends, or the configuration is taken over. *)
Lemma turns_reach w id em l2 : up w id = true -> reply w id = Some em -> forall n b a r,
  (length b < n)%nat -> in_step r -> Check (new_configuration (current r) em) = true ->
  Forall (fun x => ~ usable w (current r) x) b ->
  (~ threaded (remotes em) -> turns n w (b ++ id :: l2 ++ a) r = None) /\
  (threaded (remotes em) -> exists r', turns n w (b ++ id :: l2 ++ a) r = Some (id :: l2 ++ a ++ b, r') /\ in_step r' /\
    current r' = new_configuration (current r) em).
Proof.
  intros Hup He. induction n as [|n IH]; intros b a r Hlen Hr Hc Hb; [lia |]. cbn [turns].
  pose proof (first_reachable_spec (up w) b) as Hf. destruct (first_reachable (up w) b) as [i|].
  - destruct Hf as (b1 & x & b2 & -> & _ & Hb1 & Hx). rewrite Forall_app, Forall_cons in Hb. destruct Hb as (_ & Hux & Hb2).
    rewrite turn_skips by done. cbn [mbind option_bind]. rewrite length_app in Hlen. simpl in Hlen.
    destruct (IH b2 (a ++ b1 ++ [x]) r ltac:(lia) Hr Hc Hb2) as [IH1 IH2]. rewrite <-app_assoc. split; [done |].
    intros Ht. destruct (IH2 Ht) as (r' & H1 & H2 & H3). exists r'. split; [| done]. rewrite H1. by rewrite <-!app_assoc.
  - rewrite turn_at by done. rewrite He. split; intros Ht.
    + by rewrite (Update_fails (new_configuration (current r) em) r Hc Ht).
    + destruct (Update_ok (new_configuration (current r) em) r Hr Ht) as (r' & -> & H1 & H2 & _). rewrite Hc in H2 |- *.
      cbn [mbind option_bind].
      destruct (turns_stay w n id ((l2 ++ a) ++ b) em Hup He Ht r' H1) as (r'' & -> & H4 & H5).
      * by rewrite H2, new_configuration_idem.
      * by rewrite H2, new_configuration_idem.
      * exists r''. rewrite H5, H2, <-app_assoc. done.
Qed.

Lemma turns_ok w n : forall l r, in_step r -> safe w l ->
  exists l' r', turns n w l r = Some (l', r') /\ in_step r' /\ l' ≡ₚ l /\
    (queue_ (all_tasks_ r')).*2 ≡ₚ (queue_ (all_tasks_ r)).*2 /\
    ((forall id, id ∈ l -> ~ usable w (current r) id) -> current r' = current r).
Proof.
  induction n as [|n IH]; intros l r Hr Hs; cbn [turns]; [by exists l, r |].
  destruct (turn_ok w l r Hr Hs) as (l1 & r1 & -> & H1 & H2 & H3 & H4). cbn [mbind option_bind].
  destruct (IH l1 r1 H1 (safe_perm w _ _ (symmetry H2) Hs)) as (l2 & r2 & -> & H5 & H6 & H7 & H8).
  exists l2, r2. split_and!; [done | done | by rewrite H6 | by rewrite H7 |].
  intros Hno. destruct H4 as [H4 | (id & Hin & Hu)]; [| by destruct (Hno id Hin)].
  rewrite H8; [done |]. intros id Hin. rewrite H4. apply Hno. by rewrite <-H2.
Qed.

(** ** Property *)

(** C27: polling finds a coordinator that works.  A coordinator answers the emitter's
    message with its remotes, reports what it could not read, and has no answer to an
    initialized message with status OK and without a configuration, which is a
    NOTREACHED.  If the same coordinators work all the time, an emitter that runs on
    its configuration has, after as many turns as there are coordinators before the
    first usable one and one more, that one's remotes for workers, and that
    coordinator at the head of the list, from then on; but when this
    coordinator sends a host without threads, which passes [Check], the CHECK in
    [AddWorker] fails on the way and the process ends.  As long as no coordinator sends such a
    host, [DoPoll] never fails a CHECK, keeps every queued task, and at its end
    reloads and leaves the daemon running on its configuration; if no coordinator is
    usable, the configuration stays. *)
Theorem polling_converges (w : world) (l : list nat) (r : Running) :
  in_step r ->
  (forall conf message status, Coordinator_HandleNewMessage conf message status = None <->
     initialized message = true /\ code status = OK /\ has_configuration message = false) /\
  (forall id c, exchanges w id = true -> coordinator (conf_of w id) = Some c -> reply w id = Some (coordinator_reply c)) /\
  (safe w l -> forall n, exists r', DoPoll n w l r = Some r' /\ in_step r' /\
     (queue_ (all_tasks_ r')).*2 ≡ₚ (queue_ (all_tasks_ r)).*2 /\
     ((forall id, id ∈ l -> ~ usable w (current r) id) -> current r' = current r)) /\
  (forall l1 id em l2 n, l = l1 ++ id :: l2 -> Forall (fun x => ~ usable w (current r) x) l1 ->
     up w id = true -> reply w id = Some em -> Check (new_configuration (current r) em) = true -> (length l1 < n)%nat ->
     (~ threaded (remotes em) -> turns n w l r = None) /\
     (threaded (remotes em) -> exists r', turns n w l r = Some (id :: l2 ++ l1, r') /\ in_step r' /\
        current r' = new_configuration (current r) em /\
        option_map remote_threads (remote_workers_ r') = Some (threads_of (remotes em)))).
Proof.
  intros Hr. split_and!.
  - intros conf m st. unfold Coordinator_HandleNewMessage. destruct (initialized m); cbn [negb]; [| naive_solver].
    case_bool_decide as Hc; cbn [negb]; [| naive_solver]. destruct (has_configuration m); naive_solver.
  - intros id c He Hc. unfold reply. rewrite He. simpl. unfold configuration_for_emitters. by rewrite Hc.
  - intros Hs n. unfold DoPoll. destruct (turns_ok w (S n) l r Hr Hs) as (l' & r' & -> & H1 & _ & H2 & H3).
    cbn [mbind option_bind]. unfold poll_end.
    destruct (Reload_spec (current r') (set_handle_all true r') (is_checked _ H1) (is_checked _ H1) (is_tasks _ H1)) as [H _].
    destruct (Reload (current r') (set_handle_all true r')) as [r2|]; [| by destruct (is_threads _ H1)].
    destruct H as ([G1 G2 G3 G4] & Hq & Hcur & _). simpl in Hcur, Hq. exists r2.
    split_and!; [done | | by rewrite Hq | by rewrite Hcur].
    rewrite <-Hcur in G1, G2, G3. by constructor.
  - intros l1 id em l2 n -> Hl1 Hup He Hc Hn.
    destruct (turns_reach w id em l2 Hup He n l1 [] r Hn Hr Hc Hl1) as [H0 H]. rewrite app_nil_r in H0, H.
    split; [done |]. intros Ht. destruct (H Ht) as (r' & H1 & H2 & H3). exists r'.
    split_and!; [exact H1 | done | done |]. destruct (is_pool _ H2) as (p & -> & Hp). simpl. by rewrite Hp, H3.
Qed.

(** ** A concrete system *)

Definition coordinator_with (n : Z) : Configuration :=
  {| emitter := None; absorber := None;
     coordinator := Some {| coordinator_remotes := [host_with n]; coordinator_total_shards := None;
                            coordinator_shard_queue_limit := None |};
     pool_capacity := 16; versions := []; cache_conf := None |}.

(** The first coordinator cannot be reached, the second one answers nothing, the
    third one serves three threads. *)
Definition third_works : world :=
  {| up := fun id => negb (id =? 0)%nat; exchanges := fun id => (id =? 2)%nat; conf_of := fun _ => coordinator_with 3 |}.

Lemma polling_converges_witness :
  exists r', turns 3 third_works [0; 1; 2]%nat (running_with 1) = Some ([2; 0; 1]%nat, r') /\
    option_map remote_threads (remote_workers_ r') = Some [0; 0; 0].
Proof.
  destruct (polling_converges third_works [0; 1; 2]%nat (running_with 1) (running_with_ok 1 eq_refl)) as (_ & _ & _ & H).
  destruct (H [0; 1]%nat 2%nat (coordinator_reply {| coordinator_remotes := [host_with 3]; coordinator_total_shards := None;
                            coordinator_shard_queue_limit := None |}) [] 3%nat) as [_ Hok];
    [reflexivity | | reflexivity | reflexivity | reflexivity | simpl; lia | destruct Hok as (r' & H1 & _ & _ & H2)].
  - repeat constructor; intros [Hup (em & He & _)]; discriminate.
  - intros h Hh _. apply list_elem_of_singleton in Hh as ->. discriminate.
  - exists r'. split; [exact H1 | rewrite H2; reflexivity].
Defined.
