(* ===== verification/StatService.v ===== *)
(** Statistics: [perf::StatService], the counters of [perf/counter.h] and the
    collector that reports them ([stat_service.cc], [counter.h],
    [daemon/collector.cc]).

    A metric is the number of its name.  [values_] holds pointers into a heap of
    atomic counters; a counter is freed when neither [values_] nor a running
    [Dump] holds it any more. *)

From S2P Require Import Prelude.

#[local] Open Scope Z_scope.

(** ** State *)

Record Service := { counters : list Z; values_ : list nat }.

(** [n] is [Metric::Name_ARRAYSIZE]. *)
Definition new_service (n : nat) : Service := {| counters := replicate n 0; values_ := seq 0 n |}.

(** [values_[name].reset(new Atomic<ui64>(0u))] *)
Definition reset (name : nat) (s : Service) : Service :=
  {| counters := counters s ++ [0]; values_ := <[name := length (counters s)]> (values_ s) |}.

(** [fetch_add] on the counter at [p]. *)
Definition fetch_add (p : nat) (v : Z) (s : Service) : Service :=
  {| counters := alter (fun x => u64 (x + v)) p (counters s); values_ := values_ s |}.

(** ** Operations *)

(** [None] is a name out of range. *)
Definition Add (name : nat) (v : Z) (s : Service) : option Service :=
  p ← values_ s !! name; Some (fetch_add p v s).

Definition Dump (name : nat) (s : Service) : option (Z * Service) :=
  old_value ← values_ s !! name;
  let s := reset name s in
  value ← counters s !! old_value;
  Some (value, s).

(** [Collector::HandleNewMessage] of a report: the metrics that have a name get
    their values. *)
Fixpoint Collector_report (metrics : list (option nat)) (s : Service) : option (list (option (nat * Z)) * Service) :=
  match metrics with
  | [] => Some ([], s)
  | None :: metrics => '(l, s) ← Collector_report metrics s; Some (None :: l, s)
  | Some name :: metrics =>
      '(value, s) ← Dump name s;
      '(l, s) ← Collector_report metrics s;
      Some (Some (name, value) :: l, s)
  end.

(** [perf::Counter]: whether it still has its reporter, and [report_on_destroy_].
    [None] is the DCHECK of [Report]. *)
Record Counter := { reporter_ : bool; report_on_destroy_ : bool }.

Definition ReportOnDestroy (report : bool) (c : Counter) : Counter :=
  {| reporter_ := reporter_ c; report_on_destroy_ := report |}.
Definition Report (c : Counter) : option Counter :=
  if reporter_ c then Some {| reporter_ := false; report_on_destroy_ := report_on_destroy_ c |} else None.
(** Whether the destructor reports. *)
Definition destroyed_reports (c : Counter) : bool := report_on_destroy_ c && reporter_ c.

(** ** Interleavings *)

(** A call is between reading the pointer and using it. *)
Inductive call :=
| Adding (p : nat) (v : Z)
| Dump_reset (name old : nat)     (* before [reset] *)
| Dump_read (name old : nat).     (* before the value is read *)

Definition holds (c : call) : option nat :=
  match c with Dump_reset _ p | Dump_read _ p => Some p | Adding _ _ => None end.

(** The counter at [p] is still there. *)
Definition allocated (p : nat) (s : Service) (calls : list call) : Prop := p ∈ values_ s \/ p ∈ omap holds calls.

Inductive event := Added (p : nat) (v : Z) | Dumped (name : nat) (v : Z) | Begun.

(** An [Adding] step on a freed counter is undefined, and is no step. *)
Inductive step : Service * list call -> event -> Service * list call -> Prop :=
| step_add_begin s l name p v : values_ s !! name = Some p -> step (s, l) Begun (s, Adding p v :: l)
| step_add s l1 p v l2 :
    allocated p s (l1 ++ l2) -> step (s, l1 ++ Adding p v :: l2) (Added p v) (fetch_add p v s, l1 ++ l2)
| step_dump_begin s l name p : values_ s !! name = Some p -> step (s, l) Begun (s, Dump_reset name p :: l)
| step_dump_reset s l1 name old l2 :
    step (s, l1 ++ Dump_reset name old :: l2) Begun (reset name s, l1 ++ Dump_read name old :: l2)
| step_dump_read s l1 name old l2 v :
    counters s !! old = Some v -> step (s, l1 ++ Dump_read name old :: l2) (Dumped name v) (s, l1 ++ l2).

Inductive run_of (n : nat) : list event -> Service * list call -> Prop :=
| run_nil : run_of n [] (new_service n, [])
| run_step tr x e y : run_of n tr x -> step x e y -> run_of n (tr ++ [e]) y.

(** ** Calls one at a time *)

Inductive op := Op_add (name : nat) (v : Z) | Op_dump (name : nat) | Op_report (metrics : list (option nat)).

(** What a call reports, with the names. *)
Definition do_op (o : op) (s : Service) : option (list (nat * Z) * Service) :=
  match o with
  | Op_add name v => option_map (fun s' => ([], s')) (Add name v s)
  | Op_dump name => option_map (fun r => ([(name, r.1)], r.2)) (Dump name s)
  | Op_report metrics => option_map (fun r => (omap id r.1, r.2)) (Collector_report metrics s)
  end.

Fixpoint do_ops (l : list op) (s : Service) : option (list (nat * Z) * Service) :=
  match l with
  | [] => Some ([], s)
  | o :: l => '(r, s) ← do_op o s; '(r', s) ← do_ops l s; Some (r ++ r', s)
  end.

(** ** Lemmas *)

Record service_ok (n : nat) (s : Service) : Prop := {
  so_length : length (values_ s) = n;
  so_nodup : NoDup (values_ s);
  so_below : Forall (fun p => p < length (counters s))%nat (values_ s)
}.

(** The value of a metric. *)
Definition value_of (name : nat) (s : Service) : Z :=
  default 0 (p ← values_ s !! name; counters s !! p).

Definition sum_of (name : nat) (l : list (nat * Z)) : Z :=
  foldr (fun p acc => (if decide (p.1 = name) then p.2 else 0) + acc) 0 l.

Definition added_of (name : nat) (l : list op) : Z :=
  foldr (fun o acc => match o with Op_add name' v => if decide (name' = name) then v else 0 | _ => 0 end + acc) 0 l.

Lemma new_service_ok n : service_ok n (new_service n).
Proof.
  constructor; simpl; [apply length_seq | apply NoDup_seq |]. rewrite length_replicate. apply Forall_forall.
  intros p Hp. apply elem_of_seq in Hp. lia.
Qed.

Lemma reset_ok n name s : service_ok n s -> service_ok n (reset name s).
Proof.
  intros [H1 H2 H3]. constructor; simpl; [by rewrite length_insert | |].
  - destruct (decide (name < length (values_ s))%nat) as [Hlt | Hge].
    + rewrite insert_take_drop by done. rewrite <-(take_drop_middle (values_ s) name (values_ s !!! name)) in H2, H3
        by (by apply list_lookup_lookup_total_lt).
      rewrite <-Permutation_middle in *. apply NoDup_cons in H2 as [_ H2]. apply Forall_cons in H3 as [_ H3].
      apply NoDup_cons. split; [| done]. intros Hin. rewrite Forall_forall in H3. specialize (H3 _ Hin). simpl in H3. lia.
    + by rewrite list_insert_ge by lia.
  - rewrite length_app. simpl. apply Forall_insert; [| lia]. eapply Forall_impl; [exact H3 |]. simpl. lia.
Qed.

Lemma fetch_add_ok n p v s : service_ok n s -> service_ok n (fetch_add p v s).
Proof. intros [H1 H2 H3]. constructor; simpl; [done | done |]. by rewrite length_alter. Qed.

Lemma value_fetch_add n name name' p v s :
  service_ok n s -> values_ s !! name = Some p -> (name' < n)%nat ->
  value_of name' (fetch_add p v s) = if decide (name' = name) then u64 (value_of name s + v) else value_of name' s.
Proof.
  intros [H1 H2 H3] Hp Hn. unfold value_of, fetch_add. simpl. destruct (decide (name' = name)) as [-> | Hne].
  - rewrite Hp. cbn [mbind option_bind]. pose proof (Forall_lookup_1 _ _ _ _ H3 Hp) as Hlt. simpl in Hlt.
    rewrite list_lookup_alter, decide_True by done. destruct (lookup_lt_is_Some_2 _ _ Hlt) as [x Hx]. by rewrite Hx.
  - destruct (lookup_lt_is_Some_2 (values_ s) name') as [p' Hp']; [lia |]. rewrite Hp'. cbn [mbind option_bind].
    rewrite list_lookup_alter_ne; [done |]. intros ->. apply Hne. by eapply NoDup_lookup.
Qed.

Lemma value_reset n name name' s :
  service_ok n s -> (name < n)%nat -> (name' < n)%nat ->
  value_of name' (reset name s) = if decide (name' = name) then 0 else value_of name' s.
Proof.
  intros [H1 H2 H3] Hn Hn'. unfold value_of, reset. simpl. destruct (decide (name' = name)) as [-> | Hne].
  - rewrite list_lookup_insert_eq by lia. cbn [mbind option_bind]. by rewrite lookup_app_r, Nat.sub_diag by lia.
  - rewrite list_lookup_insert_ne by done. destruct (values_ s !! name') as [p|] eqn:Hp; [| done]. cbn [mbind option_bind].
    pose proof (Forall_lookup_1 _ _ _ _ H3 Hp) as Hlt. simpl in Hlt. by rewrite lookup_app_l.
Qed.

Lemma Add_spec n name v s :
  service_ok n s -> (name < n)%nat ->
  exists s', Add name v s = Some s' /\ service_ok n s' /\
    forall name', (name' < n)%nat -> value_of name' s' = if decide (name' = name) then u64 (value_of name s + v) else value_of name' s.
Proof.
  intros Hs Hn. unfold Add. destruct (lookup_lt_is_Some_2 (values_ s) name) as [p Hp]; [by rewrite (so_length _ _ Hs) |].
  rewrite Hp. eexists. split; [done |]. split; [by apply fetch_add_ok |]. intros name' Hn'. by eapply value_fetch_add.
Qed.

Lemma Dump_spec n name s :
  service_ok n s -> (name < n)%nat ->
  exists s', Dump name s = Some (value_of name s, s') /\ service_ok n s' /\
    forall name', (name' < n)%nat -> value_of name' s' = if decide (name' = name) then 0 else value_of name' s.
Proof.
  intros Hs Hn. unfold Dump, value_of at 1. destruct (lookup_lt_is_Some_2 (values_ s) name) as [p Hp]; [by rewrite (so_length _ _ Hs) |].
  rewrite Hp. cbn [mbind option_bind]. pose proof (Forall_lookup_1 _ _ _ _ (so_below _ _ Hs) Hp) as Hlt. simpl in Hlt.
  destruct (lookup_lt_is_Some_2 _ _ Hlt) as [x Hx]. cbn zeta. change (counters (reset name s)) with (counters s ++ [0]).
  rewrite lookup_app_l, Hx by done. cbn [mbind option_bind default]. eexists. split; [done |].
  split; [by apply reset_ok |]. intros name' Hn'. by apply (value_reset n).
Qed.

Lemma Collector_report_spec n metrics s :
  service_ok n s -> (forall name, Some name ∈ metrics -> (name < n)%nat) ->
  exists l s', Collector_report metrics s = Some (l, s') /\ service_ok n s' /\ length l = length metrics /\
    forall name, (name < n)%nat ->
      value_of name s' = (if decide (Some name ∈ metrics) then 0 else value_of name s) /\
      sum_of name (omap id l) + value_of name s' = value_of name s.
Proof.
  revert s. induction metrics as [|[name0|] metrics IH]; intros s Hs Hn; simpl.
  - exists [], s. split_and!; [done.. |]. intros name _. by split.
  - destruct (Dump_spec n name0 s Hs) as (s1 & -> & Hs1 & Hv1); [apply Hn; left |]. cbn [mbind option_bind].
    destruct (IH s1 Hs1) as (l & s' & -> & Hs' & Hl & Hv); [intros name Hin; apply Hn; by right |]. cbn [mbind option_bind].
    eexists _, _. split; [done |]. split_and!; [done | by simpl; f_equal |]. intros name Hlt.
    destruct (Hv name Hlt) as [H1 H2]. rewrite Hv1 in H1, H2 by done.
    assert (sum_of name (omap id (Some (name0, value_of name0 s) :: l))
            = (if decide (name0 = name) then value_of name0 s else 0) + sum_of name (omap id l)) as -> by done.
    destruct (decide (name0 = name)) as [-> | Hne].
    + rewrite (decide_True (P := name = name)) in H1, H2 by done. rewrite (decide_True (P := Some name ∈ _)) by left.
      destruct (decide (Some name ∈ metrics)); lia.
    + rewrite (decide_False (P := name = name0)) in H1, H2 by congruence.
      assert (Some name ∈ Some name0 :: metrics <-> Some name ∈ metrics) as Hiff
        by (rewrite elem_of_cons; split; [intros [[=] |]; done | by right]).
      destruct (decide (Some name ∈ metrics)), (decide (Some name ∈ Some name0 :: metrics)); try tauto; lia.
  - destruct (IH s Hs) as (l & s' & -> & Hs' & Hl & Hv); [intros name Hin; apply Hn; by right |]. cbn [mbind option_bind].
    eexists _, _. split; [done |]. split_and!; [done | by simpl; f_equal |]. intros name Hlt.
    destruct (Hv name Hlt) as [H1 H2]. simpl. split; [| done]. rewrite H1.
    assert (Some name ∈ None :: metrics <-> Some name ∈ metrics) as Hiff
      by (rewrite elem_of_cons; split; [by intros [[=] |] | by right]).
    destruct (decide (Some name ∈ metrics)), (decide (Some name ∈ None :: metrics)); tauto.
Qed.

(** ** Properties *)

Definition names_ok (n : nat) (o : op) : Prop :=
  match o with
  | Op_add name _ | Op_dump name => (name < n)%nat
  | Op_report metrics => forall name, Some name ∈ metrics -> (name < n)%nat
  end.

Lemma sum_of_app name l k : sum_of name (l ++ k) = sum_of name l + sum_of name k.
Proof. unfold sum_of. induction l as [|x l IH]; simpl; [done | rewrite IH; lia]. Qed.

Lemma do_op_spec n o s :
  service_ok n s -> names_ok n o ->
  exists r s', do_op o s = Some (r, s') /\ service_ok n s' /\
    forall name, (name < n)%nat -> u64 (sum_of name r + value_of name s') = u64 (value_of name s + added_of name [o]).
Proof.
  intros Hs Ho. destruct o as [name0 v | name0 | metrics]; simpl in *.
  - destruct (Add_spec n name0 v s Hs Ho) as (s' & -> & Hs' & Hv). eexists _, _. split; [done |]. split; [done |].
    intros name Hn. rewrite Hv by done. simpl. rewrite Z.add_0_r. destruct (decide (name = name0)) as [-> |].
    + rewrite decide_True by done. apply wrap_wrap. lia.
    + rewrite decide_False by congruence. by rewrite Z.add_0_r.
  - destruct (Dump_spec n name0 s Hs Ho) as (s' & -> & Hs' & Hv). eexists _, _. split; [done |]. split; [done |].
    intros name Hn. rewrite Hv by done. simpl. f_equal. destruct (decide (name = name0)) as [-> |].
    + rewrite decide_True by done. lia.
    + rewrite decide_False by congruence. lia.
  - destruct (Collector_report_spec n metrics s Hs Ho) as (l & s' & -> & Hs' & _ & Hv). eexists _, _. split; [done |].
    split; [done |]. intros name Hn. destruct (Hv name Hn) as [_ <-]. simpl. f_equal. lia.
Qed.

(** No statistics are lost as long as calls do not overlap.  For every
    sequence of additions, dumps and reports of the collector, with names in
    range, nothing is undefined, and for each metric the values that were
    reported and the one that is left add up to what was added, modulo 2^64. *)
Theorem Dump_accounts (n : nat) (ops : list op) :
  Forall (names_ok n) ops ->
  exists r s, do_ops ops (new_service n) = Some (r, s) /\
    forall name, (name < n)%nat -> u64 (sum_of name r + value_of name s) = u64 (added_of name ops).
Proof.
  intros Hops. assert (forall s, service_ok n s -> exists r s', do_ops ops s = Some (r, s') /\
    forall name, (name < n)%nat -> u64 (sum_of name r + value_of name s') = u64 (value_of name s + added_of name ops)) as H.
  { induction Hops as [|o ops Ho _ IH]; intros s Hs; cbn [do_ops].
    - exists [], s. split; [done |]. intros name _. simpl. f_equal. lia.
    - destruct (do_op_spec n o s Hs Ho) as (r1 & s1 & -> & Hs1 & H1). cbn [mbind option_bind].
      destruct (IH s1 Hs1) as (r2 & s2 & -> & H2). cbn [mbind option_bind]. eexists _, _. split; [done |].
      intros name Hn. rewrite sum_of_app, <-Z.add_assoc, <-wrap_add_r, (H2 name Hn), wrap_add_r.
      specialize (H1 name Hn). simpl in *. rewrite Z.add_assoc, <-wrap_add_l, H1, wrap_add_l. f_equal. lia. }
  destruct (H (new_service n) (new_service_ok n)) as (r & s & Hr & Hv). exists r, s. split; [done |].
  intros name Hn. rewrite Hv by done. f_equal. unfold value_of, new_service. simpl.
  rewrite lookup_seq_lt by done. cbn [mbind option_bind]. by rewrite lookup_replicate_2 by (simpl; lia).
Qed.

(** When calls overlap this fails.  An addition that has read its pointer before a
    dump finds the counter freed after it ... *)
Lemma Add_after_free :
  exists tr s, run_of 1 tr (s, [Adding 0 5]) /\ Dumped 0 0 ∈ tr /\ ~ allocated 0 s [].
Proof.
  exists ([] ++ [Begun] ++ [Begun] ++ [Begun] ++ [Dumped 0 0]), (reset 0 (new_service 1)). split_and!.
  - rewrite !app_assoc. eapply run_step.
    + eapply run_step; [eapply run_step; [eapply run_step; [apply run_nil |] |] |].
      * by apply (step_add_begin _ [] 0%nat 0%nat 5).
      * by apply (step_dump_begin _ [Adding 0 5] 0%nat 0%nat).
      * by apply (step_dump_reset _ [] 0%nat 0%nat [Adding 0 5]).
    + by apply (step_dump_read _ [] 0%nat 0%nat [Adding 0 5] 0).
  - set_solver.
  - intros [H | H]; apply list_elem_of_In in H; simpl in H; [by destruct H | done].
Qed.

(** ... and two dumps that overlap report the same value twice. *)
Lemma Dump_twice :
  exists tr x, run_of 1 tr x /\ tr = [Begun; Added 0 5; Begun; Begun; Begun; Begun; Dumped 0 5; Dumped 0 5].
Proof.
  eexists _, _. split; [| reflexivity].
  change [Begun; Added 0 5; Begun; Begun; Begun; Begun; Dumped 0 5; Dumped 0 5] with
    ((((((((([] ++ [Begun]) ++ [Added 0 5]) ++ [Begun]) ++ [Begun]) ++ [Begun]) ++ [Begun]) ++ [Dumped 0 5]) ++ [Dumped 0 5])).
  set (s := fetch_add 0 5 (new_service 1)).
  eapply run_step; [eapply run_step; [eapply run_step; [eapply run_step; [eapply run_step; [eapply run_step;
    [eapply run_step; [eapply run_step; [apply run_nil |] |] |] |] |] |] |] |].
  - by apply (step_add_begin _ [] 0%nat 0%nat 5).
  - apply (step_add _ [] 0%nat 5 []). left. left.
  - by apply (step_dump_begin s [] 0%nat 0%nat).
  - by apply (step_dump_begin s [Dump_reset 0 0] 0%nat 0%nat).
  - by apply (step_dump_reset s [] 0%nat 0%nat [Dump_reset 0 0]).
  - by apply (step_dump_reset _ [Dump_read 0 0] 0%nat 0%nat []).
  - by apply (step_dump_read _ [] 0%nat 0%nat [Dump_read 0 0] 5).
  - by apply (step_dump_read _ [] 0%nat 0%nat [] 5).
Qed.

(** A counter of [perf/counter.h] reports at most once, at the latest when it is
    destroyed. *)
Lemma Counter_reports_once c c' :
  Report c = Some c' -> Report c' = None /\ forall report, destroyed_reports (ReportOnDestroy report c') = false.
Proof.
  unfold Report. destruct (reporter_ c); [| done]. intros [= <-]. split; [done |].
  intros report. unfold destroyed_reports. simpl. by rewrite andb_false_r.
Qed.

Lemma Dump_accounts_witness :
  exists r s, do_ops [Op_add 0 5; Op_report [Some 0%nat; None; Some 1%nat]; Op_add 0 7] (new_service 2) = Some (r, s) /\
    u64 (sum_of 0 r + value_of 0 s) = 12.
Proof.
  destruct (Dump_accounts 2 [Op_add 0 5; Op_report [Some 0%nat; None; Some 1%nat]; Op_add 0 7]) as (r & s & Hr & Hv).
  - apply Forall_cons_2; [simpl; lia |]. apply Forall_cons_2; [| apply Forall_cons_2; [simpl; lia | constructor]].
    intros name. rewrite !elem_of_cons, elem_of_nil. intros [[= ->] | [[=] | [[= ->] | []]]]; lia.
  - exists r, s. split; [exact Hr |]. rewrite Hv; [reflexivity | lia].
Defined.
