(* ===== verification/FileWalk.v ===== *)
(** [WalkDirectory] and [CalculateDirectorySize]
    ([src/src/base/file_utils_posix.cc]), and the scan of the cache at the start
    of a daemon as a walk ([FileCache::Run], [src/src/cache/file_cache.cc]).

    What [opendir] with [readdir] and what [stat] answer can depend on the state
    that the visitor changes.  A directory's names are read when it is opened. *)

From S2P Require Import Prelude StringUtils ConstString ConstStringFind ConstStringHash CacheLocks FileCache CacheEntries CacheMigrate CacheClean.

#[local] Open Scope Z_scope.

(** What [stat] says about a file. *)
Inductive file_kind := Directory | Regular (mtime size : Z) | Other_kind.

Definition dots (name : path) : bool := bool_decide (name = lit ".") || bool_decide (name = lit "..").

Section Walk.
Context {S : Type} (opendir : S -> path -> option (list path)) (stat : S -> path -> option file_kind).
Context (visitor : path -> Z -> Z -> S -> S).

(** The loop over the names of directory [dir]; [paths] is the list that grows. *)
Fixpoint walk_entries (dir : path) (names : list path) (paths : list path) (s : S) : list path * S :=
  match names with
  | [] => (paths, s)
  | name :: names =>
      if dots name then walk_entries dir names paths s
      else
        let new_path := path_div dir name in
        match stat s new_path with
        | Some Directory => walk_entries dir names (paths ++ [new_path]) s
        | Some (Regular mtime size) => walk_entries dir names paths (visitor new_path mtime size s)
        | Some Other_kind => walk_entries dir names paths s
        | None => (paths, s)
        end
  end.

(** The loop over the directories; [None] means that the bound was reached. *)
Fixpoint walk (fuel : nat) (paths : list path) (s : S) : option S :=
  match paths with
  | [] => Some s
  | dir :: paths =>
      match fuel with
      | O => None
      | Datatypes.S fuel =>
          match opendir s dir with
          | None => Some s
          | Some names => let '(paths, s) := walk_entries dir names paths s in walk fuel paths s
          end
      end
  end.

Definition WalkDirectory (fuel : nat) (dir : path) (s : S) : option S := walk fuel [dir] s.

End Walk.

Definition CalculateDirectorySize (opendir : path -> option (list path)) (stat : path -> option file_kind)
    (fuel : nat) (dir : path) : option Z :=
  WalkDirectory (fun _ => opendir) (fun _ => stat) (fun _ _ size result => u64 (result + size)) fuel dir 0.

(** The scan of [Run], with the visitor of file_cache.cc. *)
Definition Run_scan (print : Manifest -> list Z) (parse : list Z -> option Manifest) (e : env)
    (opendir : FileCache -> path -> option (list path)) (stat : FileCache -> path -> option file_kind)
    (fuel : nat) (c : FileCache) : option FileCache :=
  WalkDirectory opendir stat (fun file_path mtime _ c => scan_file print parse e c (file_path, mtime)) fuel (path_ c) c.

(** ** File trees *)

Inductive tree := File (mtime size : Z) | Special | Folder (l : list (path * tree)).

Definition kind_of (t : tree) : file_kind :=
  match t with File m z => Regular m z | Special => Other_kind | Folder _ => Directory end.

(** The regular files below [p]. *)
Fixpoint files_in (p : path) (t : tree) : list (path * Z * Z) :=
  match t with
  | File m z => [(p, m, z)]
  | Special => []
  | Folder l => mjoin (map (fun e => files_in (path_div p e.1) e.2) l)
  end.

Fixpoint folders (t : tree) : nat :=
  match t with Folder l => S (sum_list_with (fun e => folders e.2) l) | _ => 0 end.

(** The tree below a directory; every call succeeds there. *)
Inductive describes (opendir : path -> option (list path)) (stat : path -> option file_kind) : path -> tree -> Prop :=
| describes_folder p l names :
    opendir p = Some names -> filter (fun n => dots n = false) names = l.*1 ->
    (forall e, e ∈ l -> stat (path_div p e.1) = Some (kind_of e.2)) ->
    (forall e, e ∈ l -> kind_of e.2 = Directory -> describes opendir stat (path_div p e.1) e.2) ->
    describes opendir stat p (Folder l).

(** ** Lemmas *)

Section Spec.
Context {S : Type} (opendir : path -> option (list path)) (stat : path -> option file_kind).
Context (visitor : path -> Z -> Z -> S -> S).

Definition visit_all (s : S) (l : list (path * Z * Z)) : S := foldl (fun s f => visitor f.1.1 f.1.2 f.2 s) s l.

(** What a directory holds itself. *)
Definition own_files (p : path) (l : list (path * tree)) : list (path * Z * Z) :=
  mjoin (map (fun e => match e.2 with File m z => [(path_div p e.1, m, z)] | _ => [] end) l).
Definition own_folders (p : path) (l : list (path * tree)) : list (path * tree) :=
  mjoin (map (fun e => match e.2 with Folder _ => [(path_div p e.1, e.2)] | _ => [] end) l).

Lemma walk_entries_spec p names l paths s :
  filter (fun n => dots n = false) names = l.*1 ->
  (forall e, e ∈ l -> stat (path_div p e.1) = Some (kind_of e.2)) ->
  walk_entries (fun _ => stat) visitor p names paths s
  = (paths ++ (own_folders p l).*1, visit_all s (own_files p l)).
Proof.
  revert l paths s. induction names as [|name names IH]; intros l paths s Hn Hs.
  { destruct l; [| done]. simpl. by rewrite app_nil_r. }
  rewrite filter_cons in Hn. simpl. destruct (decide (dots name = false)) as [Hd | Hd].
  - rewrite Hd. destruct l as [|[name' t] l]; [done |]. cbn [fmap list_fmap fst] in Hn. injection Hn as -> Hn.
    assert (forall e, e ∈ l -> stat (path_div p e.1) = Some (kind_of e.2)) as Hs' by (intros e He; apply Hs; by right).
    specialize (Hs (name', t) (list_elem_of_here _ _)). cbn [fst snd] in Hs. rewrite Hs. destruct t as [m z | | l']; simpl.
    + by rewrite (IH l).
    + by rewrite (IH l).
    + rewrite (IH l) by done. by rewrite <-app_assoc.
  - destruct (dots name); [by apply IH | done].
Qed.

(** A name whose [stat] fails hides the names after it. *)
Lemma walk_entries_stop p names1 x names2 paths s :
  dots x = false -> stat (path_div p x) = None ->
  walk_entries (fun _ => stat) visitor p (names1 ++ x :: names2) paths s
  = walk_entries (fun _ => stat) visitor p names1 paths s.
Proof.
  intros Hd Hs. revert paths s. induction names1 as [|n names1 IH]; intros paths s; simpl; [by rewrite Hd, Hs |].
  destruct (dots n); [apply IH |]. by destruct (stat (path_div p n)) as [[| |]|].
Qed.

Lemma own_split p l :
  mjoin (map (fun e => files_in (path_div p e.1) e.2) l)
  ≡ₚ own_files p l ++ mjoin (map (fun e => files_in e.1 e.2) (own_folders p l)).
Proof.
  unfold own_files, own_folders. induction l as [|[n t] l IH]; [done |]. simpl. rewrite IH. destruct t as [m z | | l'].
  - done.
  - done.
  - simpl. solve_Permutation.
Qed.

Lemma mjoin_app {A} (l k : list (list A)) : mjoin (l ++ k) = mjoin l ++ mjoin k.
Proof. induction l as [|x l IH]; [done |]. simpl. by rewrite IH, app_assoc. Qed.

Lemma own_folders_sum p l :
  sum_list_with (fun e => folders e.2) (own_folders p l) = sum_list_with (fun e => folders e.2) l.
Proof. unfold own_folders. induction l as [|[n t] l IH]; [done |]. simpl. destruct t; simpl; by rewrite IH. Qed.

Lemma own_folders_in p l e :
  e ∈ own_folders p l -> exists n, (n, e.2) ∈ l /\ e.1 = path_div p n /\ kind_of e.2 = Directory.
Proof.
  unfold own_folders. intros (k & Hin & Hk)%list_elem_of_join. apply list_elem_of_fmap in Hk as ([n t] & -> & Hl).
  simpl in Hin. destruct t as [| | l']; [by apply elem_of_nil in Hin.. |]. apply list_elem_of_singleton in Hin as ->.
  by exists n.
Qed.

(** The walk of a list of described directories. *)
Lemma walk_spec fuel (w : list (path * tree)) s :
  (forall e, e ∈ w -> describes opendir stat e.1 e.2) ->
  (sum_list_with (fun e => folders e.2) w <= fuel)%nat ->
  exists order, order ≡ₚ mjoin (map (fun e => files_in e.1 e.2) w) /\
    walk (fun _ => opendir) (fun _ => stat) visitor fuel w.*1 s = Some (visit_all s order).
Proof.
  revert w s. induction fuel as [|fuel IH]; intros w s Hw Hf.
  - destruct w as [|[p t] w]; [by exists [] |]. specialize (Hw (p, t) (list_elem_of_here _ _)).
    simpl in Hw. inversion Hw; subst. simpl in Hf. lia.
  - destruct w as [|[p t] w]; [by exists [] |]. specialize (Hw (p, t) (list_elem_of_here _ _)) as Hpt.
    simpl in Hpt. inversion Hpt as [p' l names Hopen Hnames Hstat Hsub]; subst.
    cbn [fmap list_fmap fst walk]. rewrite Hopen, (walk_entries_spec p names l) by done.
    destruct (IH (w ++ own_folders p l) (visit_all s (own_files p l))) as (order & Hp & Hwalk).
    + intros e [He | He]%elem_of_app; [apply Hw; by right |].
      apply own_folders_in in He as (n & Hin & -> & Hk). by apply (Hsub (n, e.2)).
    + rewrite sum_list_with_app, own_folders_sum. simpl in Hf. lia.
    + exists (own_files p l ++ order). split.
      * rewrite Hp, map_app, mjoin_app. simpl. rewrite own_split. solve_Permutation.
      * rewrite fmap_app in Hwalk. rewrite Hwalk. unfold visit_all. by rewrite foldl_app.
Qed.

End Spec.

(** ** Property *)

Definition size_sum (l : list (path * Z * Z)) : Z := foldr (fun f acc => f.2 + acc) 0 l.

Lemma size_sum_perm l k : l ≡ₚ k -> size_sum l = size_sum k.
Proof. unfold size_sum. induction 1; simpl; lia. Qed.

Lemma sizes_visited (l : list (path * Z * Z)) (r : Z) :
  visit_all (fun _ _ size result => u64 (result + size)) (u64 r) l = u64 (r + size_sum l).
Proof.
  unfold visit_all. revert r. induction l as [|f l IH]; intros r; simpl; [by rewrite Z.add_0_r |].
  rewrite wrap_add_l, IH. f_equal. lia.
Qed.

(** C38: a walk of a file system that stays as it is during the walk visits every
    regular file below a directory, each once, and ends after one turn per
    directory; the size of the directory is the sum of their sizes.  But a failed [stat] hides the rest of
    its directory, and a directory that cannot be opened ends the whole walk. *)
Theorem WalkDirectory_spec {S : Type} (opendir : path -> option (list path)) (stat : path -> option file_kind)
    (visitor : path -> Z -> Z -> S -> S) (fuel : nat) (p : path) (t : tree) (s : S) :
  describes opendir stat p t -> (folders t <= fuel)%nat ->
  (exists order, order ≡ₚ files_in p t /\
     WalkDirectory (fun _ => opendir) (fun _ => stat) visitor fuel p s = Some (visit_all visitor s order)) /\
  CalculateDirectorySize opendir stat fuel p = Some (u64 (size_sum (files_in p t))) /\
  (forall dir names1 x names2 paths s, dots x = false -> stat (path_div dir x) = None ->
     walk_entries (fun _ => stat) visitor dir (names1 ++ x :: names2) paths s
     = walk_entries (fun _ => stat) visitor dir names1 paths s) /\
  (forall n dir paths s, opendir dir = None -> walk (fun _ => opendir) (fun _ => stat) visitor (Datatypes.S n) (dir :: paths) s = Some s).
Proof.
  intros Hd Hf.
  assert (forall e, e ∈ [(p, t)] -> describes opendir stat e.1 e.2) as Hw by (by intros e ->%list_elem_of_singleton).
  assert (sum_list_with (fun e : path * tree => folders e.2) [(p, t)] <= fuel)%nat as Hsum by (simpl; lia).
  split_and!.
  - destruct (walk_spec opendir stat visitor fuel [(p, t)] s Hw Hsum) as (order & Hp & Hwalk). exists order.
    split; [| exact Hwalk]. rewrite Hp. simpl. by rewrite app_nil_r.
  - destruct (walk_spec opendir stat (fun _ _ size result => u64 (result + size)) fuel [(p, t)] 0 Hw Hsum) as (order & Hp & Hwalk).
    unfold CalculateDirectorySize, WalkDirectory. change [p] with ([(p, t)].*1). rewrite Hwalk. f_equal.
    pose proof (sizes_visited order 0) as Hs. change (u64 0) with 0 in Hs. rewrite Hs. f_equal. simpl in Hp. rewrite app_nil_r in Hp.
    by rewrite (size_sum_perm _ _ Hp).
  - intros dir names1 x names2 paths s' Hx Hn. by apply walk_entries_stop.
  - intros n dir paths s' Ho. simpl. by rewrite Ho.
Qed.

(** ** Concrete walks *)

Definition small_tree : tree := Folder [(lit "a", File 1 10); (lit "b", Folder [(lit "c", File 2 20)])].

Definition small_opendir (p : path) : option (list path) :=
  if decide (p = lit "/t") then Some [lit "."; lit "a"; lit ".."; lit "b"]
  else if decide (p = lit "/t/b") then Some [lit "c"] else None.
Definition small_stat (p : path) : option file_kind :=
  if decide (p = lit "/t/a") then Some (Regular 1 10)
  else if decide (p = lit "/t/b") then Some Directory
  else if decide (p = lit "/t/b/c") then Some (Regular 2 20) else None.

Lemma small_described : describes small_opendir small_stat (lit "/t") small_tree.
Proof.
  eapply describes_folder; [reflexivity | reflexivity | |].
  - intros e [-> | [-> | []%elem_of_nil]%elem_of_cons]%elem_of_cons; reflexivity.
  - intros e [-> | [-> | []%elem_of_nil]%elem_of_cons]%elem_of_cons Hk; [discriminate Hk |].
    eapply describes_folder; [reflexivity | reflexivity | |].
    + intros e [-> | []%elem_of_nil]%elem_of_cons; reflexivity.
    + intros e [-> | []%elem_of_nil]%elem_of_cons Hk'; discriminate Hk'.
Qed.

Lemma WalkDirectory_spec_witness : CalculateDirectorySize small_opendir small_stat 2 (lit "/t") = Some 30.
Proof.
  destruct (WalkDirectory_spec small_opendir small_stat (fun _ _ _ (s : Z) => s) 2 (lit "/t") small_tree 0 small_described
              (le_n 2)) as (_ & H & _).
  exact H.
Defined.

(** *** A broken entry hides its neighbours from the scan

    Entry [hash_a] has a manifest that cannot be read; the visitor removes its
    files, so that [stat] fails on the next one, and the intact entry after it is
    not put into the index. *)
Definition hash_c := lit "00000000000000000000000000000000-00000000-00000001".

Definition broken_cache : FileCache :=
  match Store toy_print toy_Compress good_env hash_c toy_entry toy_cache with
  | Some c => set_entries [] 0 (set_files (<[manifest_path hash_a c := lit "junk"]> (<[object_path hash_a c := lit "ELF"]> (files c))) c)
  | None => toy_cache
  end.

Definition listed (names : list path) (c : FileCache) (p : path) : option (list path) :=
  if decide (p = lit "/cache") then Some [lit "0"]
  else if decide (p = lit "/cache/0") then Some [lit "0"]
  else if decide (p = lit "/cache/0/0") then Some names else None.

Definition stat_cache (c : FileCache) (p : path) : option file_kind :=
  if decide (p = lit "/cache/0") then Some Directory
  else if decide (p = lit "/cache/0/0") then Some Directory
  else (fun x => Regular 7 (Zlen x)) <$> files c !! p.

Definition scanned (names : list path) : list (list Z) :=
  match Run_scan toy_print toy_parse good_env (listed names) stat_cache 3 broken_cache with
  | Some c => (entries c).*1
  | None => []
  end.

Lemma scan_hides_entry :
  scanned [hash_a ++ lit ".manifest"; hash_a ++ lit ".o"; hash_c ++ lit ".manifest"] = [] /\
  scanned [hash_c ++ lit ".manifest"; hash_a ++ lit ".manifest"; hash_a ++ lit ".o"] = [hash_c].
Proof. split; vm_compute; reflexivity. Qed.
