(* ===== verification/NetworkService.v ===== *)
(** [net::NetworkServiceImpl] ([src/src/net/network_service_impl.cc],
    [network_service_linux.cc]) over [base::Handle], [base::Data] and [base::Epoll]
    ([src/src/base/file]), [net::Socket], [net::Passive] and [net::EndPoint], with
    the listening half of [EpollEventLoop] ([event_loop_linux.cc]).

    The kernel is the table of the open descriptors and a script: each system call
    that can fail takes the next answer, 0 or an error number ([epoll_wait]: what
    it returns; [getsockopt]: also the pending error).  A finished script has
    nothing more to connect or to accept.  [fcntl] fails as documented for the
    commands that are used, on a descriptor that is not open. *)

From S2P Require Import Prelude.
From stdpp Require Import gmap sets.

#[local] Open Scope Z_scope.

(** ** End points *)

Inductive family := AF_INET | AF_INET6 | AF_UNIX.

#[export] Instance family_dec : EqDecision family.
Proof. solve_decision. Defined.

(** What [getaddrinfo] gives: a stream address of at most the size of the storage. *)
Record addrinfo := { ai_family : family; ai_addr : list Z; ai_protocol : Z }.

(** [address] is the address's bytes, or [sun_path]. *)
Record EndPoint := { domain : family; address : list Z; protocol : Z }.

Section Addresses.
Context (getaddrinfo : option (list Z) -> list Z -> family -> bool -> option addrinfo) (port_str : Z -> list Z).

Definition GetPeerAddress (host : list Z) (port : Z) (ipv6 bind : bool) : option addrinfo :=
  let family := if ipv6 then AF_INET6 else AF_INET in
  match getaddrinfo (Some host) (port_str port) family bind with
  | Some result => Some result
  | None => if bind then getaddrinfo None (port_str port) family bind else None
  end.

(** The end point of an answer; the outer [None] is a failed [CHECK]. *)
Definition of_addrinfo (ipv6 : bool) (result : option addrinfo) : option (option EndPoint) :=
  match result with
  | None => Some None
  | Some r =>
      if negb (Zlen (ai_addr r) <=? 128) then None
      else if ipv6 && negb (bool_decide (ai_family r = AF_INET6)) then None
      else Some (Some {| domain := ai_family r; address := ai_addr r; protocol := ai_protocol r |})
  end.

Definition TcpHost (host : list Z) (port : Z) (ipv6 : bool) : option (option EndPoint) :=
  of_addrinfo ipv6 (GetPeerAddress (until_nul host) port ipv6 false).

Definition LocalHost (host : list Z) (port : Z) (ipv6 : bool) : option (option EndPoint) :=
  of_addrinfo ipv6 (GetPeerAddress (until_nul host) port ipv6 true).

End Addresses.

(** [strncpy] of at most 107 bytes into the 108 of [sun_path], padded with zeros;
    the last byte keeps the value [stale] that it had. *)
Definition UnixSocket (stale : Z) (path : list Z) : EndPoint :=
  let copied := take 107 (until_nul path) in
  {| domain := AF_UNIX; address := copied ++ replicate (107 - length copied) 0 ++ [stale]; protocol := 0 |}.

(** The file name that the kernel reads in [sun_path]. *)
Definition sun_name (e : EndPoint) : list Z := until_nul (address e).

(** ** Descriptors and the kernel *)

Record sock := {
  nonblocking : bool;
  cloexec : bool;
  reuse : bool;
  send_timeout : option Z;
  read_timeout : option Z;
  low_watermark : option Z;
  bound : option EndPoint;
  backlog : option Z           (* of [listen] *)
}.

Definition fresh_sock : sock :=
  {| nonblocking := false; cloexec := false; reuse := false; send_timeout := None; read_timeout := None;
     low_watermark := None; bound := None; backlog := None |}.

Definition set_nonblocking (b : bool) (s : sock) : sock :=
  {| nonblocking := b; cloexec := cloexec s; reuse := reuse s; send_timeout := send_timeout s;
     read_timeout := read_timeout s; low_watermark := low_watermark s; bound := bound s; backlog := backlog s |}.
Definition set_cloexec (s : sock) : sock :=
  {| nonblocking := nonblocking s; cloexec := true; reuse := reuse s; send_timeout := send_timeout s;
     read_timeout := read_timeout s; low_watermark := low_watermark s; bound := bound s; backlog := backlog s |}.
Definition set_reuse (s : sock) : sock :=
  {| nonblocking := nonblocking s; cloexec := cloexec s; reuse := true; send_timeout := send_timeout s;
     read_timeout := read_timeout s; low_watermark := low_watermark s; bound := bound s; backlog := backlog s |}.
Definition set_send_timeout (t : Z) (s : sock) : sock :=
  {| nonblocking := nonblocking s; cloexec := cloexec s; reuse := reuse s; send_timeout := Some t;
     read_timeout := read_timeout s; low_watermark := low_watermark s; bound := bound s; backlog := backlog s |}.
Definition set_read_timeout (t : Z) (s : sock) : sock :=
  {| nonblocking := nonblocking s; cloexec := cloexec s; reuse := reuse s; send_timeout := send_timeout s;
     read_timeout := Some t; low_watermark := low_watermark s; bound := bound s; backlog := backlog s |}.
Definition set_low_watermark (t : Z) (s : sock) : sock :=
  {| nonblocking := nonblocking s; cloexec := cloexec s; reuse := reuse s; send_timeout := send_timeout s;
     read_timeout := read_timeout s; low_watermark := Some t; bound := bound s; backlog := backlog s |}.
Definition set_bound (e : EndPoint) (s : sock) : sock :=
  {| nonblocking := nonblocking s; cloexec := cloexec s; reuse := reuse s; send_timeout := send_timeout s;
     read_timeout := read_timeout s; low_watermark := low_watermark s; bound := Some e; backlog := backlog s |}.
Definition set_backlog (n : Z) (s : sock) : sock :=
  {| nonblocking := nonblocking s; cloexec := cloexec s; reuse := reuse s; send_timeout := send_timeout s;
     read_timeout := read_timeout s; low_watermark := low_watermark s; bound := bound s; backlog := Some n |}.

(** [error] is the string of the caller, when it passed one; [sound] says that
    every debug check held. *)
Record world := {
  fds : gmap Z sock;
  files : gset (list Z);
  script : list Z;
  errno : Z;
  error : option (list Z);
  sound : bool
}.

Definition with_fds (m : gmap Z sock) (w : world) : world :=
  {| fds := m; files := files w; script := script w; errno := errno w; error := error w; sound := sound w |}.
Definition with_files (f : gset (list Z)) (w : world) : world :=
  {| fds := fds w; files := f; script := script w; errno := errno w; error := error w; sound := sound w |}.
Definition with_errno (e : Z) (w : world) : world :=
  {| fds := fds w; files := files w; script := script w; errno := e; error := error w; sound := sound w |}.

(** Programs over the kernel. *)
Definition Sys (A : Type) : Type := world -> A * world.

Definition ret {A} (a : A) : Sys A := fun w => (a, w).
Definition bind {A B} (m : Sys A) (f : A -> Sys B) : Sys B := fun w => let '(a, w) := m w in f a w.

#[local] Notation "x ← m ; k" := (bind m (fun x => k)) (at level 20, m at level 100, k at level 200, only parsing).
#[local] Notation "m ;; k" := (bind m (fun _ => k)) (at level 100, k at level 200, right associativity, only parsing).

Definition get : Sys world := fun w => (w, w).
Definition modify (f : world -> world) : Sys unit := fun w => (tt, f w).

Section Service.
Context (strerror : Z -> list Z).
(** The descriptor that the kernel opens next, given those that are open. *)
Context (next_fd : gset Z -> Z).
(** What a listening socket's owner registered. *)
Context {callback : Type}.
Context (connect_timeout_secs send_timeout_secs read_timeout_secs read_min_bytes : Z).

Definition EAGAIN : Z := 11.
Definition EBADF : Z := 9.
Definition EADDRINUSE : Z := 98.
Definition EINPROGRESS : Z := 115.

(** The next answer; [default_] is what a finished script means. *)
Definition answer (default_ : Z) : Sys Z := fun w =>
  match script w with
  | [] => (default_, w)
  | r :: l => (r, {| fds := fds w; files := files w; script := l; errno := errno w; error := error w; sound := sound w |})
  end.

(** [DCHECK] *)
Definition dcheck (b : bool) : Sys unit :=
  modify (fun w => {| fds := fds w; files := files w; script := script w; errno := errno w; error := error w;
                      sound := sound w && b |}).

Definition GetLastError : Sys unit :=
  modify (fun w => {| fds := fds w; files := files w; script := script w; errno := errno w;
                      error := (fun _ => strerror (errno w)) <$> error w; sound := sound w |}).

Definition set_error (text : list Z) : Sys unit :=
  modify (fun w => {| fds := fds w; files := files w; script := script w; errno := errno w;
                      error := (fun _ => text) <$> error w; sound := sound w |}).

(** A call with a result: [errno] is set when it fails. *)
Definition call : Sys bool :=
  r ← answer EAGAIN;
  if r =? 0 then ret true else modify (with_errno r);; ret false.

(** A call that changes descriptor [fd] when it succeeds. *)
Definition fd_call (f : sock -> sock) (fd : Z) : Sys bool :=
  w ← get;
  match fds w !! fd with
  | None => modify (with_errno EBADF);; ret false
  | Some s =>
      ok ← call;
      if ok then modify (fun w => with_fds (<[fd := f s]> (fds w)) w);; ret true else ret false
  end.

Definition fcntl (f : sock -> sock) (fd : Z) : Sys bool :=
  w ← get;
  match fds w !! fd with
  | None => modify (with_errno EBADF);; ret false
  | Some s => modify (fun w => with_fds (<[fd := f s]> (fds w)) w);; ret true
  end.

(** A call that opens a descriptor: its number, or -1. *)
Definition open_fd (s : sock) : Sys Z :=
  ok ← call;
  if ok then
    w ← get;
    let fd := next_fd (dom (fds w)) in
    modify (fun w => with_fds (<[fd := s]> (fds w)) w);; ret fd
  else ret (-1).

(** What the code does after a failed call: [GetLastError(error); return false]. *)
Definition reporting (m : Sys bool) : Sys bool :=
  ok ← m; if ok then ret true else GetLastError;; ret false.

(** ** [base::Handle] and [base::Data] *)

Definition close (fd : Z) : Sys unit := modify (fun w => with_fds (delete fd (fds w)) w).

(** The destructor; a handle that was moved from holds -1. *)
Definition destroy (fd : Z) : Sys unit := if fd =? -1 then ret tt else close fd.

(** A block with a handle: [body] also says what the handle holds at its end. *)
Definition scope {A} (fd : Z) (body : Sys (A * Z)) : Sys A :=
  r ← body; destroy r.2;; ret r.1.

Definition IsValid (fd : Z) : bool := negb (fd =? -1).

Definition IsPassive (fd : Z) : Sys bool :=
  w ← get; ret (match fds w !! fd with Some s => bool_decide (is_Some (backlog s)) | None => false end).

(** [Data(fd)] *)
Definition Data (fd : Z) : Sys Z :=
  p ← IsPassive fd; dcheck (negb (IsValid fd) || negb p);; ret fd.

Definition CloseOnExec (fd : Z) : Sys bool :=
  dcheck (IsValid fd);; fcntl set_cloexec fd.

Definition MakeBlocking (blocking : bool) (fd : Z) : Sys bool :=
  dcheck (IsValid fd);; fcntl (set_nonblocking (negb blocking)) fd.

Definition IsBlocking (fd : Z) : Sys bool :=
  w ← get; ret (match fds w !! fd with Some s => negb (nonblocking s) | None => false end).

(** ** [net::Socket] *)

(** [Socket(peer)] *)
Definition Socket : Sys Z := fd ← open_fd fresh_sock; Data fd.

Definition Bind (peer : EndPoint) (fd : Z) : Sys bool :=
  reporting (
    w ← get;
    if bool_decide (domain peer = AF_UNIX) && bool_decide (sun_name peer ∈ files w) then
      modify (with_errno EADDRINUSE);; ret false
    else
      ok ← fd_call (set_bound peer) fd;
      if ok then
        (if bool_decide (domain peer = AF_UNIX) then modify (fun w => with_files ({[sun_name peer]} ∪ files w) w)
         else ret tt);; ret true
      else ret false).

Inductive ConnectionStatus := Connected | Connecting | Connect_failed.

Definition StartConnecting (peer : EndPoint) (fd : Z) : Sys ConnectionStatus :=
  ok ← call;
  if ok then ret Connected
  else
    w ← get;
    if errno w =? EINPROGRESS then ret Connecting else GetLastError;; ret Connect_failed.

(** True: there is an error. *)
Definition GetPendingError (fd : Z) : Sys bool :=
  ok ← call;
  if negb ok then GetLastError;; ret true
  else
    pending ← answer 0;
    if negb (pending =? 0) then modify (with_errno pending);; GetLastError;; ret true else ret false.

Definition ReuseAddress (fd : Z) : Sys bool := reporting (fd_call set_reuse fd).
Definition SendTimeout (t fd : Z) : Sys bool := reporting (fd_call (set_send_timeout t) fd).
Definition ReadTimeout (t fd : Z) : Sys bool := reporting (fd_call (set_read_timeout t) fd).
Definition ReadLowWatermark (t fd : Z) : Sys bool := reporting (fd_call (set_low_watermark t) fd).

(** ** [base::Epoll] and [WaitForConnection] *)

Inductive ConnectedStatus := CONNECTED | TIMED_OUT | FAILED.

(** [connect_timeout_secs_ ? connect_timeout_secs_ * 1000 : -1] as an [int] *)
Definition timeout : Z := if connect_timeout_secs =? 0 then -1 else swrap 32 (wrap 32 (connect_timeout_secs * 1000)).

(** What [epoll_wait] returns for one descriptor, with this timeout: without one
    it does not return 0. *)
Definition epoll_wait (timeout : Z) : Sys Z :=
  r ← answer 1;
  if 0 <? r then ret 1
  else if r =? 0 then ret (if timeout <? 0 then 1 else 0)
  else modify (with_errno (- r));; ret (-1).

Definition WaitForConnection (fd : Z) : Sys ConnectedStatus :=
  waiter ← open_fd (set_cloexec fresh_sock);
  scope waiter (
    if negb (IsValid waiter) then w ← get; set_error (strerror (errno w));; ret (FAILED, waiter)
    else
      ok ← reporting call;
      if negb ok then ret (FAILED, waiter)
      else
        events_count ← epoll_wait timeout;
        if events_count =? -1 then GetLastError;; ret (FAILED, waiter)
        else
          dcheck (events_count <? 2);;
          ret ((if events_count =? 1 then CONNECTED else TIMED_OUT), waiter)).

(** ** [Connect] *)

(** [ConnectionImpl::Create(event_loop, std::move(fd))]: the connection owns the
    descriptor. *)
Definition Create (fd : Z) : Sys Z := b ← IsBlocking fd; dcheck b;; ret fd.

(** [a && b] of calls. *)
Definition and_then (a b : Sys bool) : Sys bool := ok ← a; if ok then b else ret false.

(** The connection, and what [fd] holds then. *)
Definition finish_connection (fd : Z) : Sys (option Z * Z) :=
  ok ← and_then (reporting (MakeBlocking true fd))
        (and_then (reporting (CloseOnExec fd))
        (and_then (SendTimeout send_timeout_secs fd)
        (and_then (ReadTimeout read_timeout_secs fd) (ReadLowWatermark read_min_bytes fd))));
  if ok then c ← Create fd; ret (Some c, -1) else ret (None, fd).

Definition Connect (end_point : EndPoint) : Sys (option Z) :=
  fd ← Socket;
  scope fd (
    if negb (IsValid fd) then GetLastError;; ret (None, fd)
    else
      ok ← reporting (MakeBlocking false fd);
      if negb ok then ret (None, fd)
      else
        b ← IsBlocking fd;
        dcheck (negb b);;
        status ← StartConnecting end_point fd;
        match status with
        | Connecting =>
            waited ← WaitForConnection fd;
            match waited with
            | CONNECTED =>
                pending ← GetPendingError fd;
                if negb pending then finish_connection fd else ret (None, fd)
            | FAILED => ret (None, fd)
            | TIMED_OUT => set_error (lit "timed out");; ret (None, fd)
            end
        | Connected => finish_connection fd
        | Connect_failed => ret (None, fd)
        end).

(** ** [net::Passive] and the listening half of the event loop *)

(** [interest]: the descriptors that [listen_] knows; [armed]: those whose event it
    still owes, each is registered with [EPOLLONESHOT]. *)
Record service := {
  listen_callbacks_ : gmap Z callback;
  listening_fds_ : list Z;
  interest : gset Z;
  armed : gset Z;
  unix_sockets_ : list (list Z)
}.

Definition new_service : service :=
  {| listen_callbacks_ := ∅; listening_fds_ := []; interest := ∅; armed := ∅; unix_sockets_ := [] |}.

Definition with_callback (fd : Z) (c : callback) (v : service) : service :=
  {| listen_callbacks_ := <[fd := c]> (listen_callbacks_ v); listening_fds_ := listening_fds_ v;
     interest := interest v; armed := armed v; unix_sockets_ := unix_sockets_ v |}.
Definition with_listening (fd : Z) (v : service) : service :=
  {| listen_callbacks_ := listen_callbacks_ v; listening_fds_ := listening_fds_ v ++ [fd];
     interest := interest v; armed := armed v; unix_sockets_ := unix_sockets_ v |}.
Definition with_armed (fd : Z) (v : service) : service :=
  {| listen_callbacks_ := listen_callbacks_ v; listening_fds_ := listening_fds_ v;
     interest := {[fd]} ∪ interest v; armed := {[fd]} ∪ armed v; unix_sockets_ := unix_sockets_ v |}.
Definition disarmed (fd : Z) (v : service) : service :=
  {| listen_callbacks_ := listen_callbacks_ v; listening_fds_ := listening_fds_ v;
     interest := interest v; armed := armed v ∖ {[fd]}; unix_sockets_ := unix_sockets_ v |}.
Definition with_unix_socket (path : list Z) (v : service) : service :=
  {| listen_callbacks_ := listen_callbacks_ v; listening_fds_ := listening_fds_ v;
     interest := interest v; armed := armed v; unix_sockets_ := unix_sockets_ v ++ [path] |}.

(** [Passive(std::move(fd))]: its [error_]. *)
Definition Passive (fd : Z) : Sys (list Z) :=
  b ← IsBlocking fd;
  dcheck (negb b);;
  ok ← fd_call (set_backlog 64) fd;
  if ok then ret [] else w ← get; ret (strerror (errno w)).

Definition ENOENT : Z := 2.

(** [ReadyForListen]: [listen_.Update(fd, EPOLLIN | EPOLLONESHOT)] with a null
    [error]. *)
Definition ReadyForListen (fd : Z) (v : service) : Sys (bool * service) :=
  ok ← (if bool_decide (fd ∈ interest v) then call else modify (with_errno ENOENT);; ret false);
  if ok then ret (true, with_armed fd v)
  else
    w ← get;
    if errno w =? ENOENT then
      added ← call; if added then ret (true, with_armed fd v) else ret (false, v)
    else ret (false, v).

Definition HandlePassive (fd : Z) (v : service) : Sys (bool * service) :=
  dcheck (IsValid fd);;
  if bool_decide (fd ∈ listening_fds_ v) then dcheck false;; close fd;; ReadyForListen fd v
  else ReadyForListen fd (with_listening fd v).

(** The end of both [Listen]s, from [Passive passive(std::move(fd))]. *)
Definition start_listening (c : callback) (fd : Z) (v : service) : Sys ((bool * service) * Z) :=
  error_ ← Passive fd;
  if negb (bool_decide (error_ = []) && IsValid fd) then set_error error_;; ret ((false, v), fd)
  else
    match listen_callbacks_ v !! fd with
    | Some _ => ret ((false, v), fd)
    | None =>
        r ← HandlePassive fd (with_callback fd c v);
        ret (r, -1)
    end.

Definition unlink (path : list Z) : Sys bool :=
  w ← get;
  if bool_decide (until_nul path ∈ files w) then
    ok ← call;
    if ok then modify (fun w => with_files (files w ∖ {[until_nul path]}) w);; ret true else ret false
  else modify (with_errno ENOENT);; ret false.

(** [Listen(path, callback, error)]; [stale] is the last byte of the new
    [sun_path]. *)
Definition Listen (stale : Z) (path : list Z) (c : callback) (v : service) : Sys (bool * service) :=
  let peer := UnixSocket stale path in
  unlink path;;
  fd ← Socket;
  r ← scope fd (
    if negb (IsValid fd) then GetLastError;; ret ((false, v), fd)
    else
      CloseOnExec fd;;
      MakeBlocking false fd;;
      ok ← Bind peer fd;
      if negb ok then ret ((false, v), fd)
      else
        call;;                                  (* [SetPermissions(path, 0777)] *)
        start_listening c fd v);
  ret (if r.1 : bool then (true, with_unix_socket path r.2) else r).

(** [Listen(host, port, ipv6, callback, error)]; [peer] is the end point that
    [LocalHost] gives. *)
Definition ListenHost (peer : option EndPoint) (c : callback) (v : service) : Sys (bool * service) :=
  match peer with
  | None => ret (false, v)
  | Some peer =>
      fd ← Socket;
      scope fd (
        if negb (IsValid fd) then GetLastError;; ret ((false, v), fd)
        else
          CloseOnExec fd;;
          MakeBlocking false fd;;
          reused ← ReuseAddress fd;
          if negb reused then ret ((false, v), fd)
          else
            ok ← Bind peer fd;
            if negb ok then ret ((false, v), fd) else start_listening c fd v)
  end.

(** The network errors that [accept] passes on. *)
Definition pending_errors : list Z := [100; 71; 92; 112; 64; 113; 95; 101].

(** [Passive::Accept]: the new socket, or the invalid one. *)
Definition Accept : Sys Z :=
  fd ← open_fd fresh_sock;
  if fd =? -1 then
    w ← get;
    (if bool_decide (errno w ∈ pending_errors) then modify (with_errno EAGAIN) else ret tt);;
    w ← get;
    dcheck (errno w =? EAGAIN);;
    ret (-1)
  else
    Data fd;;
    CloseOnExec fd;;
    MakeBlocking true fd;;
    ret fd.

(** What became of an accepted connection: it was given to the callback, or it was
    destroyed because its timeouts could not be set.  [Undefined]: there is no
    callback to call. *)
Inductive incoming := Handed (c : callback) (fd : Z) | Refused | Undefined.

(** The warning's own string takes the error. *)
Definition HandleNewConnection (passive connection : Z) (v : service) : Sys incoming :=
  let callback := listen_callbacks_ v !! passive in
  dcheck (bool_decide (is_Some callback));;
  ok ← and_then (fd_call (set_send_timeout send_timeout_secs) connection)
                (fd_call (set_read_timeout read_timeout_secs) connection);
  if negb ok then destroy connection;; ret Refused
  else ret (match callback with Some c => Handed c connection | None => Undefined end).

(** The inner loop of [DoListenWork]; [None] means that the bound was reached. *)
Fixpoint accept_loop (fuel : nat) (passive : Z) (v : service) : Sys (option (list incoming)) :=
  match fuel with
  | O => ret None
  | S fuel =>
      new_fd ← Accept;
      if negb (IsValid new_fd) then ret (Some [])
      else
        b ← IsBlocking new_fd;
        dcheck b;;
        connection ← Create new_fd;
        first ← HandleNewConnection passive connection v;
        rest ← accept_loop fuel passive v;
        ret (option_map (cons first) rest)
  end.

(** One event of listening socket [passive]. *)
Definition listen_event (fuel : nat) (passive : Z) (v : service) : Sys (option (list incoming) * service) :=
  l ← accept_loop fuel passive (disarmed passive v);
  r ← ReadyForListen passive (disarmed passive v);
  ret (l, r.2).

(** The destructor: the socket files, then the event loop and its descriptors. *)
Definition destroy_service (v : service) : Sys unit :=
  foldr (fun path rest => unlink path;; rest) (ret tt) (unix_sockets_ v);;
  foldr (fun fd rest => close fd;; rest) (ret tt) (listening_fds_ v).

(** ** Reasoning about programs

    [wp m Q w]: [m] run in [w] ends with a result and a state in [Q]. *)

Definition wp {A} (m : Sys A) (Q : A -> world -> Prop) (w : world) : Prop := Q (m w).1 (m w).2.

(** What no call changes, but those that name files. *)
Definition quiet (w w' : world) : Prop :=
  files w' = files w /\ sound w' = sound w /\ (length (script w') <= length (script w))%nat.

(** The caller's string holds the text of an error. *)
Definition reported (w : world) : Prop := error w = None \/ exists e, error w = Some (strerror e).

Lemma quiet_refl w : quiet w w.
Proof. by repeat split. Qed.

Lemma quiet_trans w w1 w2 : quiet w w1 -> quiet w1 w2 -> quiet w w2.
Proof. intros (? & ? & ?) (? & ? & ?). repeat split; [congruence | congruence | lia]. Qed.

Lemma wp_bind {A B} (m : Sys A) (f : A -> Sys B) Q w :
  wp m (fun a w => wp (f a) Q w) w -> wp (bind m f) Q w.
Proof. unfold wp, bind. by destruct (m w). Qed.

Lemma wp_ret {A} (a : A) (Q : A -> world -> Prop) w : Q a w -> wp (ret a) Q w.
Proof. done. Qed.

Lemma wp_mono {A} (m : Sys A) (P Q : A -> world -> Prop) w : wp m P w -> (forall a w', P a w' -> Q a w') -> wp m Q w.
Proof. unfold wp. auto. Qed.

Lemma wp_get (Q : world -> world -> Prop) w : Q w w -> wp get Q w.
Proof. done. Qed.

Lemma wp_dcheck b (Q : unit -> world -> Prop) w : b = true -> Q tt w -> wp (dcheck b) Q w.
Proof. intros -> HQ. unfold wp, dcheck, modify. simpl. rewrite andb_true_r. by destruct w. Qed.

Lemma wp_call (Q : bool -> world -> Prop) w :
  (forall w' b, fds w' = fds w -> quiet w w' -> error w' = error w -> Q b w') -> wp call Q w.
Proof.
  intros HQ. unfold wp, call, bind, answer. destruct (script w) as [| r l] eqn:Hs.
  - apply HQ; [done | | done]. repeat split; simpl; rewrite ?Hs; simpl; lia.
  - destruct (r =? 0); (apply HQ; [done | | done]; repeat split; simpl; rewrite ?Hs; simpl; lia).
Qed.

Lemma wp_answer d (Q : Z -> world -> Prop) w :
  (forall r w', fds w' = fds w -> quiet w w' -> error w' = error w -> Q r w') -> wp (answer d) Q w.
Proof.
  intros HQ. unfold wp, answer. destruct (script w) as [| r l] eqn:Hs; simpl; apply HQ; try done.
  repeat split; simpl; rewrite ?Hs; simpl; lia.
Qed.

Lemma wp_modify f (Q : unit -> world -> Prop) w : Q tt (f w) -> wp (modify f) Q w.
Proof. done. Qed.

Lemma wp_last_error (Q : unit -> world -> Prop) w :
  (forall w', fds w' = fds w -> quiet w w' -> reported w' -> (error w = None -> error w' = None) -> Q tt w') ->
  wp GetLastError Q w.
Proof.
  intros HQ. unfold wp, GetLastError, modify. simpl. apply HQ; [done | by repeat split | |].
  - unfold reported. simpl. destruct (error w); simpl; eauto.
  - simpl. by intros ->.
Qed.

(** [fd] is a descriptor with the options [s], next to the descriptors [m]. *)
Lemma wp_fd_call f fd s m (Q : bool -> world -> Prop) w :
  fds w = <[fd := s]> m ->
  (forall w', fds w' = <[fd := f s]> m -> quiet w w' -> error w' = error w -> Q true w') ->
  (forall w', fds w' = <[fd := s]> m -> quiet w w' -> error w' = error w -> Q false w') ->
  wp (fd_call f fd) Q w.
Proof.
  intros Hm Ht Hf. unfold fd_call. apply wp_bind, wp_get. rewrite Hm, lookup_insert_eq.
  apply wp_bind, wp_call. intros w1 [] H1 Hq He.
  - apply wp_bind, wp_modify, wp_ret, Ht; simpl; [by rewrite H1, Hm, insert_insert_eq | done | done].
  - apply wp_ret, Hf; [by rewrite H1 | done | done].
Qed.

Lemma wp_fcntl f fd s m (Q : bool -> world -> Prop) w :
  fds w = <[fd := s]> m ->
  (forall w', fds w' = <[fd := f s]> m -> quiet w w' -> error w' = error w -> Q true w') -> wp (fcntl f fd) Q w.
Proof.
  intros Hm Ht. unfold fcntl. apply wp_bind, wp_get. rewrite Hm, lookup_insert_eq.
  apply wp_bind, wp_modify, wp_ret, Ht; simpl; [by rewrite Hm, insert_insert_eq | by repeat split | done].
Qed.

Lemma wp_reporting (m : Sys bool) (Q : bool -> world -> Prop) w :
  wp m (fun (b : bool) w1 => if b then Q true w1
                    else forall w2, fds w2 = fds w1 -> quiet w1 w2 -> reported w2 ->
                                    (error w1 = None -> error w2 = None) -> Q false w2) w ->
  wp (reporting m) Q w.
Proof.
  intros H. unfold reporting. apply wp_bind. eapply wp_mono; [exact H |]. intros [] w1 HQ; [by apply wp_ret |].
  apply wp_bind, wp_last_error. intros. apply wp_ret. by apply HQ.
Qed.

Lemma wp_IsBlocking fd s m (Q : bool -> world -> Prop) w :
  fds w = <[fd := s]> m -> Q (negb (nonblocking s)) w -> wp (IsBlocking fd) Q w.
Proof. intros Hm HQ. unfold IsBlocking. apply wp_bind, wp_get, wp_ret. by rewrite Hm, lookup_insert_eq. Qed.

Context (fd_fresh : forall X, next_fd X ∉ X) (fd_nonneg : forall X, 0 <= next_fd X).

Lemma wp_open s (Q : Z -> world -> Prop) w :
  (forall fd w', fds w !! fd = None -> 0 <= fd -> fds w' = <[fd := s]> (fds w) -> quiet w w' ->
                 error w' = error w -> Q fd w') ->
  (forall w', fds w' = fds w -> quiet w w' -> error w' = error w -> Q (-1) w') ->
  wp (open_fd s) Q w.
Proof.
  intros Ht Hf. unfold open_fd. apply wp_bind, wp_call. intros w1 [] H1 Hq He; [| by apply wp_ret, Hf].
  apply wp_bind, wp_get, wp_bind, wp_modify, wp_ret, Ht; simpl; [| apply fd_nonneg | by rewrite H1 | done | done].
  rewrite H1. apply not_elem_of_dom, fd_fresh.
Qed.

Lemma wp_scope {A} fd (body : Sys (A * Z)) (Q : A -> world -> Prop) w :
  wp body (fun r w1 => Q r.1 (if r.2 =? -1 then w1 else with_fds (delete r.2 (fds w1)) w1)) w -> wp (scope fd body) Q w.
Proof.
  intros H. unfold scope. apply wp_bind. eapply wp_mono; [exact H |]. intros [a h] w1 HQ. simpl in *.
  apply wp_bind. unfold destroy. destruct (h =? -1); by apply wp_ret.
Qed.

Lemma wp_and_then a b (Q : bool -> world -> Prop) w :
  wp a (fun ok w1 => if ok : bool then wp b Q w1 else Q false w1) w -> wp (and_then a b) Q w.
Proof. intros H. unfold and_then. apply wp_bind. eapply wp_mono; [exact H |]. by intros []. Qed.

(** A call on [fd] that reports its failure. *)
Lemma wp_option f fd s m (Q : bool -> world -> Prop) w :
  fds w = <[fd := s]> m ->
  (forall w', fds w' = <[fd := f s]> m -> quiet w w' -> error w' = error w -> Q true w') ->
  (forall w', fds w' = <[fd := s]> m -> quiet w w' -> reported w' -> Q false w') ->
  wp (reporting (fd_call f fd)) Q w.
Proof.
  intros Hm Ht Hf. apply wp_reporting. eapply wp_fd_call; [exact Hm | exact Ht |].
  intros w1 H1 Hq He w2 H2 Hq2 Hr _. apply Hf; [congruence | by eapply quiet_trans | done].
Qed.

Lemma wp_MakeBlocking b fd s m (Q : bool -> world -> Prop) w :
  fds w = <[fd := s]> m -> 0 <= fd ->
  (forall w', fds w' = <[fd := set_nonblocking (negb b) s]> m -> quiet w w' -> error w' = error w -> Q true w') ->
  wp (MakeBlocking b fd) Q w.
Proof.
  intros Hm Hfd Ht. unfold MakeBlocking. apply wp_bind, wp_dcheck; [unfold IsValid; by destruct fd |].
  by eapply wp_fcntl.
Qed.

Lemma wp_CloseOnExec fd s m (Q : bool -> world -> Prop) w :
  fds w = <[fd := s]> m -> 0 <= fd ->
  (forall w', fds w' = <[fd := set_cloexec s]> m -> quiet w w' -> error w' = error w -> Q true w') ->
  wp (CloseOnExec fd) Q w.
Proof.
  intros Hm Hfd Ht. unfold CloseOnExec. apply wp_bind, wp_dcheck; [unfold IsValid; by destruct fd |].
  by eapply wp_fcntl.
Qed.

Lemma wp_reporting_true (m : Sys bool) (Q : bool -> world -> Prop) w :
  wp m (fun b w1 => b = true /\ Q true w1) w -> wp (reporting m) Q w.
Proof. intros H. apply wp_reporting. eapply wp_mono; [exact H |]. by intros ? ? [-> ?]. Qed.

Definition set_connected (s : sock) : sock :=
  set_low_watermark read_min_bytes (set_read_timeout read_timeout_secs
    (set_send_timeout send_timeout_secs (set_cloexec (set_nonblocking false s)))).

#[local] Hint Resolve quiet_refl : core.

Ltac chain := repeat match goal with H : quiet ?a ?b |- quiet ?a ?b => exact H
                              | H : quiet ?a ?b |- quiet ?a ?c => apply (quiet_trans a b c H); clear H end;
              try apply quiet_refl.

Lemma finish_connection_spec fd s m w :
  fds w = <[fd := s]> m -> 0 <= fd ->
  wp (finish_connection fd) (fun r w' =>
    quiet w w' /\
    match r with
    | (Some c, h) => c = fd /\ h = -1 /\ fds w' = <[fd := set_connected s]> m /\ error w' = error w
    | (None, h) => h = fd /\ (exists s', fds w' = <[fd := s']> m) /\ reported w'
    end) w.
Proof.
  intros Hm Hfd. unfold finish_connection, SendTimeout, ReadTimeout, ReadLowWatermark. apply wp_bind.
  apply wp_and_then, wp_reporting_true. eapply wp_MakeBlocking; [exact Hm | done |]. intros w1 H1 Q1 E1. split; [done |].
  apply wp_and_then, wp_reporting_true. eapply wp_CloseOnExec; [exact H1 | done |]. intros w2 H2 Q2 E2. split; [done |].
  apply wp_and_then. eapply wp_option; [exact H2 | | intros w3 H3 Q3 R3; apply wp_ret; split; [chain | eauto]].
  intros w3 H3 Q3 E3.
  apply wp_and_then. eapply wp_option; [exact H3 | | intros w4 H4 Q4 R4; apply wp_ret; split; [chain | eauto]].
  intros w4 H4 Q4 E4.
  eapply wp_option; [exact H4 | | intros w5 H5 Q5 R5; apply wp_ret; split; [chain | eauto]].
  intros w5 H5 Q5 E5. apply wp_bind. unfold Create. apply wp_bind. eapply wp_IsBlocking; [exact H5 |].
  apply wp_bind, wp_dcheck; [done |]. apply wp_ret, wp_ret. split; [chain |]. repeat split; [done | congruence].
Qed.

Lemma quiet_with_fds m w w' : quiet w w' -> quiet w (with_fds m w').
Proof. done. Qed.

Lemma quiet_with_errno e w w' : quiet w w' -> quiet w (with_errno e w').
Proof. done. Qed.

#[local] Hint Resolve quiet_with_fds quiet_with_errno quiet_trans : core.

Lemma wp_epoll_wait t (Q : Z -> world -> Prop) w :
  (forall r w', r = -1 \/ r = 0 \/ r = 1 -> fds w' = fds w -> quiet w w' -> error w' = error w -> Q r w') ->
  wp (epoll_wait t) Q w.
Proof.
  intros HQ. unfold epoll_wait. apply wp_bind, wp_answer. intros r w1 H1 Q1 E1.
  destruct (0 <? r); [apply wp_ret, HQ; auto |]. destruct (r =? 0).
  - apply wp_ret, HQ; auto. destruct (t <? 0); auto.
  - apply wp_bind, wp_modify, wp_ret, HQ; auto.
Qed.

Lemma valid_fd fd : 0 <= fd -> IsValid fd = true /\ (fd =? -1) = false.
Proof. intros H. assert (fd =? -1 = false) as E by (apply Z.eqb_neq; lia). unfold IsValid. by rewrite E. Qed.

(** The descriptor [fd] that was opened in [w] is closed at the end of its block. *)
Lemma fds_closed fd s w w1 w' :
  fds w !! fd = None -> fds w1 = <[fd := s]> (fds w) -> fds w' = fds w1 -> delete fd (fds w') = fds w.
Proof. intros Hn H1 ->. rewrite H1. by apply delete_insert_id. Qed.

Lemma WaitForConnection_spec fd w :
  wp (WaitForConnection fd) (fun st w' =>
    quiet w w' /\ fds w' = fds w /\
    match st with FAILED => reported w' | TIMED_OUT | CONNECTED => error w' = error w end) w.
Proof.
  unfold WaitForConnection. apply wp_bind, wp_open; intros e.
  - intros w1 He Hpos H1 Q1 E1. destruct (valid_fd e Hpos) as [Hv Hne]. apply wp_scope. rewrite Hv. simpl.
    apply wp_bind, wp_reporting, wp_call. intros w2 [] H2 Q2 E2; simpl.
    + apply wp_bind, wp_epoll_wait. intros r w3 Hr H3 Q3 E3. destruct Hr as [-> | Hr]; simpl.
      * apply wp_bind, wp_last_error. intros w4 H4 Q4 R4 _. apply wp_ret. simpl. rewrite Hne.
        split; [eauto 6 |]. split; [| exact R4]. eapply fds_closed; [exact He | exact H1 | congruence].
      * replace (r =? -1) with false by (symmetry; apply Z.eqb_neq; lia).
        apply wp_bind, wp_dcheck; [apply Z.ltb_lt; lia |]. apply wp_ret. simpl. rewrite Hne.
        split; [eauto 6 |]. split; [eapply fds_closed; [exact He | exact H1 | congruence] |].
        destruct (r =? 1); simpl; congruence.
    + intros w3 H3 Q3 R3 _. apply wp_ret. simpl. rewrite Hne.
      split; [eauto 6 |]. split; [| exact R3]. eapply fds_closed; [exact He | exact H1 | congruence].
  - intros H1 Q1 E1. apply wp_scope. simpl. apply wp_bind, wp_get, wp_bind, wp_modify, wp_ret. simpl.
    split; [done |]. split; [done |]. unfold reported. simpl. destruct (error e); simpl; eauto.
Qed.

Lemma GetPendingError_spec fd w :
  wp (GetPendingError fd) (fun b w' =>
    quiet w w' /\ fds w' = fds w /\ if b then reported w' else error w' = error w) w.
Proof.
  unfold GetPendingError. apply wp_bind, wp_call. intros w1 [] H1 Q1 E1; simpl.
  - apply wp_bind, wp_answer. intros r w2 H2 Q2 E2. destruct (r =? 0); simpl.
    + apply wp_ret. split; [eauto |]. split; congruence.
    + apply wp_bind, wp_modify, wp_bind, wp_last_error. intros w3 H3 Q3 R3 _. apply wp_ret.
      split; [eauto 6 |]. split; [simpl in *; congruence | done].
  - apply wp_bind, wp_last_error. intros w2 H2 Q2 R2 _. apply wp_ret. split; [eauto |]. split; [congruence | done].
Qed.

Lemma StartConnecting_spec peer fd w :
  wp (StartConnecting peer fd) (fun st w' =>
    quiet w w' /\ fds w' = fds w /\
    match st with Connect_failed => reported w' | Connected | Connecting => error w' = error w end) w.
Proof.
  unfold StartConnecting. apply wp_bind, wp_call. intros w1 [] H1 Q1 E1; [by apply wp_ret |].
  apply wp_bind, wp_get. destruct (errno w1 =? EINPROGRESS); [by apply wp_ret |].
  apply wp_bind, wp_last_error. intros w2 H2 Q2 R2 _. apply wp_ret. split; [eauto |]. split; [congruence | done].
Qed.

Lemma Socket_spec (Q : Z -> world -> Prop) w :
  (forall fd w', fds w !! fd = None -> 0 <= fd -> fds w' = <[fd := fresh_sock]> (fds w) -> quiet w w' ->
                 error w' = error w -> Q fd w') ->
  (forall w', fds w' = fds w -> quiet w w' -> error w' = error w -> Q (-1) w') ->
  wp Socket Q w.
Proof.
  intros Ht Hf. unfold Socket, Data, IsPassive. apply wp_bind, wp_open.
  - intros fd w1 Hn Hpos H1 Q1 E1. apply wp_bind, wp_bind, wp_get, wp_ret.
    rewrite H1, lookup_insert_eq. apply wp_bind, wp_dcheck; [by rewrite orb_true_r |]. by apply wp_ret, Ht.
  - intros w1 H1 Q1 E1. apply wp_bind, wp_bind, wp_get, wp_ret, wp_bind, wp_dcheck; [done |]. by apply wp_ret, Hf.
Qed.

(** What [Connect] leaves: a connection that owns a new descriptor, blocking and
    with the service's options, or the descriptors that there were and the reason
    in the caller's string. *)
Definition connect_post (w : world) (r : option Z) (w' : world) : Prop :=
  quiet w w' /\
  match r with
  | Some c => 0 <= c /\ fds w !! c = None /\ fds w' = <[c := set_connected fresh_sock]> (fds w) /\ error w' = error w
  | None => fds w' = fds w /\ (reported w' \/ error w' = Some (lit "timed out"))
  end.

(** The end of the block of [fd]. *)
Definition at_end (h : Z) (w : world) : world := if h =? -1 then w else with_fds (delete h (fds w)) w.

Lemma closed_post fd s w w1 :
  fds w !! fd = None -> 0 <= fd -> fds w1 = <[fd := s]> (fds w) -> quiet w w1 ->
  reported w1 \/ error w1 = Some (lit "timed out") -> connect_post w None (at_end fd w1).
Proof.
  intros Hn Hpos H1 Q1 R1. unfold at_end. rewrite (proj2 (valid_fd fd Hpos)).
  split; [by apply quiet_with_fds |]. split; [by eapply fds_closed; [| exact H1 |] | exact R1].
Qed.

Lemma finished_post fd w w1 :
  fds w !! fd = None -> 0 <= fd -> fds w1 = <[fd := set_nonblocking true fresh_sock]> (fds w) -> quiet w w1 ->
  error w1 = error w -> wp (finish_connection fd) (fun r w' => connect_post w r.1 (at_end r.2 w')) w1.
Proof.
  intros Hn Hpos H1 Q1 E1. eapply wp_mono; [by eapply finish_connection_spec |].
  intros [[c|] h] w2 [Q2 H2]; simpl.
  - destruct H2 as (-> & -> & H2 & E2). change (at_end (-1) w2) with w2.
    split; [by eapply quiet_trans |]. repeat split; [done | done | done | congruence].
  - destruct H2 as (-> & [s' H2] & R2). eapply closed_post; eauto.
Qed.

Theorem Connect_spec end_point w : wp (Connect end_point) (connect_post w) w.
Proof.
  unfold Connect. apply wp_bind, Socket_spec; intros fd.
  2:{ intros H1 Q1 E1. apply wp_scope. simpl. apply wp_bind, wp_last_error. intros w2 H2 Q2 R2 _. apply wp_ret. simpl.
      split; [eauto |]. split; [congruence | by left]. }
  intros w1 Hn Hpos H1 Q1 E1. apply wp_scope. rewrite (proj1 (valid_fd fd Hpos)). simpl.
  fold (at_end fd). apply wp_bind, wp_reporting_true. eapply wp_MakeBlocking; [exact H1 | done |].
  intros w2 H2 Q2 E2. split; [done |]. simpl in *.
  apply wp_bind. eapply wp_IsBlocking; [exact H2 |]. apply wp_bind, wp_dcheck; [done |].
  apply wp_bind. eapply wp_mono; [apply StartConnecting_spec |]. intros st w3 (Q3 & H3 & E3).
  rewrite <- H3 in H2. assert (quiet w w3) as Hq by eauto.
  destruct st.
  - eapply finished_post; [done .. | congruence].
  - apply wp_bind. eapply wp_mono; [apply WaitForConnection_spec |]. intros st w4 (Q4 & H4 & E4).
    rewrite <- H4 in H2. destruct st.
    + apply wp_bind. eapply wp_mono; [apply GetPendingError_spec |]. intros [] w5 (Q5 & H5 & E5); simpl; rewrite <- H5 in H2.
      * apply wp_ret. eapply closed_post; eauto.
      * eapply finished_post; [done | done | done | eauto | congruence].
    + apply wp_bind, wp_modify, wp_ret. eapply closed_post; [done | done | done | eauto |].
      unfold reported. simpl. destruct (error w4); simpl; auto.
    + apply wp_ret. eapply closed_post; eauto.
  - apply wp_ret. eapply closed_post; eauto.
Qed.

(** ** Listening *)

(** Every listening socket is open and has its callback; [listen_] knows no
    others. *)
Record serving (v : service) (w : world) : Prop := {
  sv_callbacks : forall fd, is_Some (listen_callbacks_ v !! fd) <-> fd ∈ listening_fds_ v;
  sv_nodup : NoDup (listening_fds_ v);
  sv_open : forall fd, fd ∈ listening_fds_ v ->
    0 <= fd /\ exists s, fds w !! fd = Some s /\ backlog s = Some 64 /\ nonblocking s = true /\ cloexec s = true;
  sv_armed : armed v ⊆ interest v;
  sv_interest : forall fd, fd ∈ interest v -> fd ∈ listening_fds_ v
}.

(** [start_listening] with a new descriptor [fd]: it is closed and nothing was
    registered, or it is registered, and awaited unless [epoll_ctl] failed. *)
Definition started (c : callback) (fd : Z) (v : service) (r : bool * service) : Prop :=
  let v1 := with_listening fd (with_callback fd c v) in r = (true, with_armed fd v1) \/ r = (false, v1).

Lemma ReadyForListen_spec fd v w :
  wp (ReadyForListen fd v) (fun r w' =>
    quiet w w' /\ fds w' = fds w /\ (r = (true, with_armed fd v) \/ r = (false, v))) w.
Proof.
  unfold ReadyForListen. apply wp_bind.
  eapply (wp_mono _ (fun _ w1 => quiet w w1 /\ fds w1 = fds w)).
  - destruct (bool_decide _); [apply wp_call; auto | by apply wp_bind, wp_modify, wp_ret].
  - intros [] w1 [Q1 H1]; [apply wp_ret; auto |]. apply wp_bind, wp_get.
    destruct (errno w1 =? ENOENT); [| apply wp_ret; auto].
    apply wp_bind, wp_call. intros w2 [] H2 Q2 E2; apply wp_ret; (split; [eauto | split; [congruence | auto]]).
Qed.

Context (strerror_text : forall e, strerror e <> []).

Lemma start_listening_spec c fd v s w0 w :
  serving v w0 -> fds w0 !! fd = None -> 0 <= fd -> fds w = <[fd := s]> (fds w0) -> nonblocking s = true ->
  wp (start_listening c fd v) (fun r w' =>
    quiet w w' /\
    ((r = ((false, v), fd) /\ fds w' = <[fd := s]> (fds w0)) \/
     (r.2 = -1 /\ fds w' = <[fd := set_backlog 64 s]> (fds w0) /\ started c fd v r.1))) w.
Proof.
  intros Hv Hn Hpos Hm Hs. unfold start_listening, Passive. apply wp_bind, wp_bind.
  eapply wp_IsBlocking; [exact Hm |]. apply wp_bind, wp_dcheck; [by rewrite Hs |].
  assert (fd ∉ listening_fds_ v) as Hnew.
  { intros Hin. destruct (sv_open v w0 Hv fd Hin) as (_ & s' & E & _). congruence. }
  assert (listen_callbacks_ v !! fd = None) as Hcb.
  { apply eq_None_not_Some. by rewrite (sv_callbacks v w0 Hv). }
  destruct (valid_fd fd Hpos) as [Hvalid _].
  apply wp_bind. eapply wp_fd_call; [exact Hm | |]; intros w1 H1 Q1 E1.
  - apply wp_ret. simpl. rewrite Hvalid, Hcb. simpl. apply wp_bind. unfold HandlePassive.
    apply wp_bind, wp_dcheck; [exact Hvalid |]. rewrite bool_decide_false by exact Hnew.
    eapply wp_mono; [apply ReadyForListen_spec |]. intros r w2 (Q2 & H2 & Hr). apply wp_ret.
    split; [eauto |]. right. split; [done |]. split; [congruence | exact Hr].
  - apply wp_bind, wp_get, wp_ret. rewrite bool_decide_false by apply strerror_text. simpl.
    apply wp_bind, wp_modify, wp_ret. split; [exact Q1 |]. left. by split.
Qed.

(** A name of the file system can be bound when no file has it; there is a file
    then. *)
Lemma wp_Bind peer fd s m (Q : bool -> world -> Prop) w :
  fds w = <[fd := s]> m ->
  (forall w', sound w' = sound w -> fds w' = <[fd := set_bound peer s]> m ->
     (if bool_decide (domain peer = AF_UNIX)
      then sun_name peer ∉ files w /\ files w' = {[sun_name peer]} ∪ files w else files w' = files w) -> Q true w') ->
  (forall w', sound w' = sound w -> fds w' = <[fd := s]> m -> files w' = files w -> reported w' -> Q false w') ->
  wp (Bind peer fd) Q w.
Proof.
  intros Hm Ht Hf. unfold Bind. apply wp_reporting, wp_bind, wp_get.
  assert (forall w1, fds w1 = <[fd := s]> m -> quiet w w1 ->
    forall w2, fds w2 = fds w1 -> quiet w1 w2 -> reported w2 -> (error w1 = None -> error w2 = None) -> Q false w2) as Hfail.
  { intros w1 H1 (F1 & S1 & _) w2 H2 (F2 & S2 & _) R2 _. apply Hf; congruence. }
  revert Ht. destruct (bool_decide (domain peer = AF_UNIX)); intros Ht; simpl.
  - destruct (bool_decide (sun_name peer ∈ files w)) eqn:Hin; [| apply bool_decide_eq_false in Hin].
    + apply wp_bind, wp_modify, wp_ret. by apply Hfail.
    + apply wp_bind. eapply wp_fd_call; [exact Hm | |]; intros w1 H1 Q1 E1.
      * destruct Q1 as (F1 & S1 & _). apply wp_bind, wp_modify, wp_ret, Ht; simpl; [done | done | by rewrite F1].
      * apply wp_ret. by apply Hfail.
  - apply wp_bind. eapply wp_fd_call; [exact Hm | |]; intros w1 H1 Q1 E1.
    + destruct Q1 as (F1 & S1 & _). by apply wp_bind, wp_ret, wp_ret, Ht.
    + apply wp_ret. by apply Hfail.
Qed.

Lemma unlink_spec path w :
  wp (unlink path) (fun (_ : bool) w' => sound w' = sound w /\ fds w' = fds w /\
    (files w' = files w \/ files w' = files w ∖ {[until_nul path]})) w.
Proof.
  unfold unlink. apply wp_bind, wp_get. case_bool_decide.
  - apply wp_bind, wp_call. intros w1 [] H1 (F1 & S1 & _) E1.
    + apply wp_bind, wp_modify, wp_ret. simpl. rewrite F1. auto.
    + apply wp_ret. rewrite F1. auto.
  - apply wp_bind, wp_modify, wp_ret. auto.
Qed.

Definition listening_sock (with_reuse : bool) (peer : EndPoint) : sock :=
  let s := set_nonblocking true (set_cloexec fresh_sock) in
  set_backlog 64 (set_bound peer (if with_reuse then set_reuse s else s)).

(** What a [Listen] leaves: nothing, or one new listening socket with its
    callback. *)
Definition listen_post (c : callback) (s : sock) (v : service) (w : world) (r : bool * service) (w' : world) : Prop :=
  sound w' = sound w /\
  ((r = (false, v) /\ fds w' = fds w) \/
   exists fd, fds w !! fd = None /\ 0 <= fd /\ fds w' = <[fd := s]> (fds w) /\ started c fd v r).

(** The block of the socket, from the bound socket on. *)
Lemma listen_block c fd v s w0 w :
  serving v w0 -> fds w0 !! fd = None -> 0 <= fd -> fds w = <[fd := s]> (fds w0) -> nonblocking s = true ->
  sound w = sound w0 ->
  wp (start_listening c fd v) (fun r w' =>
    files w' = files w /\ listen_post c (set_backlog 64 s) v w0 r.1 (at_end r.2 w') /\
    (r.1.1 = false \/ r.2 = -1)) w.
Proof.
  intros Hv Hn Hpos Hm Hs Hsound. eapply wp_mono; [by eapply start_listening_spec |].
  intros r w1 ((F1 & S1 & _) & [[-> H1] | (E & H1 & Hr)]).
  - split; [exact F1 |]. split; [| by left]. simpl. unfold at_end. rewrite (proj2 (valid_fd fd Hpos)).
    split; [simpl; congruence |]. left. split; [done |]. by eapply fds_closed.
  - split; [exact F1 |]. split; [| by right]. rewrite E. change (at_end (-1) w1) with w1.
    split; [congruence |]. right. by exists fd.
Qed.

Lemma listen_closed c s0 s fd v w0 w :
  fds w0 !! fd = None -> 0 <= fd -> fds w = <[fd := s]> (fds w0) -> sound w = sound w0 ->
  listen_post c s0 v w0 (false, v) (at_end fd w).
Proof.
  intros Hn Hpos Hm Hs. unfold at_end. rewrite (proj2 (valid_fd fd Hpos)).
  split; [exact Hs |]. left. split; [done |]. by eapply fds_closed.
Qed.

(** Whatever the system calls answer, [Listen] on a host leaves no trace or one
    listening socket. *)
Lemma ListenHost_spec peer c v w :
  serving v w -> (forall p, peer = Some p -> domain p <> AF_UNIX) ->
  wp (ListenHost peer c v) (fun r w' =>
    files w' = files w /\
    match peer with
    | None => r = (false, v) /\ w' = w
    | Some p => listen_post c (listening_sock true p) v w r w'
    end) w.
Proof.
  intros Hv Hp. destruct peer as [p|]; [| by apply wp_ret]. simpl.
  apply wp_bind, Socket_spec; intros fd.
  2:{ intros H1 (F1 & S1 & _) E1. apply wp_scope. simpl. apply wp_bind, wp_last_error.
      intros w2 H2 (F2 & S2 & _) _ _. apply wp_ret. simpl. split; [congruence |]. split; [congruence |].
      left. split; [done | congruence]. }
  intros w1 Hn Hpos H1 (F1 & S1 & _) E1. apply wp_scope. rewrite (proj1 (valid_fd fd Hpos)). simpl. fold (at_end fd).
  apply wp_bind. eapply wp_CloseOnExec; [exact H1 | done |]. intros w2 H2 (F2 & S2 & _) _.
  apply wp_bind. eapply wp_MakeBlocking; [exact H2 | done |]. intros w3 H3 (F3 & S3 & _) _.
  apply wp_bind. eapply wp_option; [exact H3 | |]; intros w4 H4 (F4 & S4 & _) _; simpl.
  2:{ apply wp_ret. split; [simpl; unfold at_end; destruct (fd =? -1); simpl; congruence |].
      eapply listen_closed; [done | done | exact H4 | congruence]. }
  apply wp_bind. eapply wp_Bind; [exact H4 | |].
  - intros w5 S5 H5. rewrite bool_decide_false by by apply Hp. intros F5. simpl.
    eapply wp_mono; [eapply (listen_block c fd v _ w w5); [done | done | done | exact H5 | done | congruence] |].
    intros r w6 (F6 & L6 & _). split; [| exact L6]. destruct (r.2 =? -1); simpl; congruence.
  - intros w5 S5 H5 F5 _. simpl. apply wp_ret.
    split; [simpl; unfold at_end; destruct (fd =? -1); simpl; congruence |].
    eapply listen_closed; [done | done | exact H5 | congruence].
Qed.

(** The socket file: nothing is bound under the name when [Listen] fails early; when
    it succeeds, the file has the name that the kernel reads in [sun_path], and the
    path of the caller is recorded. *)
Definition unix_post (stale : Z) (path : list Z) (c : callback) (v : service) (w : world) (r : bool * service)
    (w' : world) : Prop :=
  let peer := UnixSocket stale path in
  exists v1, listen_post c (listening_sock false peer) v w (r.1, v1) w' /\
    r.2 = (if r.1 then with_unix_socket path v1 else v1) /\
    (r.1 = true -> exists F, (F = files w \/ F = files w ∖ {[until_nul path]}) /\ sun_name peer ∉ F /\
                             files w' = {[sun_name peer]} ∪ F).

Lemma Listen_spec stale path c v w :
  serving v w -> wp (Listen stale path c v) (unix_post stale path c v w) w.
Proof.
  intros Hv. unfold Listen. apply wp_bind. eapply wp_mono; [apply unlink_spec |]. intros ok0 w0 (S0 & H0 & F0).
  assert (serving v w0) as Hv0 by (destruct Hv; split; try done; by rewrite H0).
  apply wp_bind, Socket_spec; intros fd.
  2:{ intros H1 (F1 & S1 & _) E1. apply wp_bind, wp_scope. simpl. apply wp_bind, wp_last_error.
      intros w2 H2 (F2 & S2 & _) _ _. apply wp_ret. simpl. apply wp_ret. exists v. simpl.
      split; [| by split]. split; [congruence |]. left. split; [done | congruence]. }
  intros w1 Hn Hpos H1 (F1 & S1 & _) E1.
  apply wp_bind, wp_scope. rewrite (proj1 (valid_fd fd Hpos)). simpl. fold (at_end fd).
  rewrite H0 in Hn, H1.
  apply wp_bind. eapply wp_CloseOnExec; [exact H1 | done |]. intros w2 H2 (F2 & S2 & _) _.
  apply wp_bind. eapply wp_MakeBlocking; [exact H2 | done |]. intros w3 H3 (F3 & S3 & _) _.
  apply wp_bind. eapply wp_Bind; [exact H3 | |]; simpl.
  - intros w4 S4 H4 [N4 F4]. apply wp_bind, wp_call. intros w5 b H5 (F5 & S5 & _) _. rewrite <- H5 in H4.
    eapply wp_mono; [eapply (listen_block c fd v _ w w5); [done | done | done | exact H4 | done | congruence] |].
    intros [[ok v1] h] w6 (F6 & L6 & Hok). simpl in *. apply wp_ret. exists v1. simpl.
    split; [by destruct ok |]. split; [by destruct ok |]. destruct Hok as [-> | ->]; [done |].
    intros _. exists (files w0). split; [exact F0 |]. simpl. split; congruence.
  - intros w4 S4 H4 F4 _. simpl. apply wp_ret. simpl. apply wp_ret. exists v. simpl. split; [| by split].
    eapply listen_closed; [done | done | exact H4 | congruence].
Qed.

(** ** Accepting *)

Lemma wp_conj {A} (m : Sys A) (P Q : A -> world -> Prop) w :
  wp m P w -> wp m Q w -> wp m (fun a w' => P a w' /\ Q a w') w.
Proof. by split. Qed.

(** A finished script has no more connections. *)
Lemma open_fd_shrinks s w :
  wp (open_fd s) (fun fd w' => fd <> -1 -> (length (script w') < length (script w))%nat) w.
Proof.
  unfold wp, open_fd, call, bind, answer, get, modify, ret. destruct (script w) as [| r l] eqn:Hs; simpl; [done |].
  destruct (r =? 0); simpl; [lia | done].
Qed.

Definition accepted : sock := set_nonblocking false (set_cloexec fresh_sock).

(** What accepting leaves alone. *)
Definition grown (w w' : world) : Prop := files w' = files w /\ (length (script w') <= length (script w))%nat.

Lemma Accept_spec w :
  wp Accept (fun fd w' =>
    grown w w' /\
    ((fd = -1 /\ fds w' = fds w) \/
     (0 <= fd /\ fds w !! fd = None /\ fds w' = <[fd := accepted]> (fds w) /\
      (length (script w') < length (script w))%nat))) w.
Proof.
  unfold Accept. apply wp_bind. eapply wp_mono.
  - apply wp_conj; [| apply (open_fd_shrinks fresh_sock)].
    apply (wp_open fresh_sock (fun fd w1 => quiet w w1 /\
      ((fd = -1 /\ fds w1 = fds w) \/
       (0 <= fd /\ fds w !! fd = None /\ fds w1 = <[fd := fresh_sock]> (fds w))))); auto 7.
  - intros fd w1 [[(F1 & S1 & L1) [[-> H1] | (Hpos & Hn & H1)]] Hlt]; simpl.
    + apply wp_bind, wp_get, wp_bind. eapply (wp_mono _ (fun _ w2 => fds w2 = fds w1 /\ grown w1 w2)).
      * by destruct (bool_decide _); [apply wp_modify | apply wp_ret].
      * intros [] w2 [H2 [F2 L2]]. apply wp_bind, wp_get, wp_bind, wp_modify, wp_ret.
        split; [split; simpl; [congruence | lia] |]. left. split; simpl; [done | congruence].
    + destruct (valid_fd fd Hpos) as [_ Hne]. rewrite Hne. unfold Data, IsPassive.
      apply wp_bind, wp_bind, wp_bind, wp_get, wp_ret. rewrite H1, lookup_insert_eq.
      apply wp_bind, wp_dcheck; [by rewrite orb_true_r |]. apply wp_ret.
      apply wp_bind. eapply wp_CloseOnExec; [exact H1 | done |]. intros w2 H2 (F2 & _ & L2) _.
      apply wp_bind. eapply wp_MakeBlocking; [exact H2 | done |]. intros w3 H3 (F3 & _ & L3) _.
      apply wp_ret. apply Z.eqb_neq in Hne. specialize (Hlt Hne).
      split; [split; [congruence | lia] |]. right. split; [done |]. split; [done |]. split; [exact H3 | lia].
Qed.

Definition incoming_sock : sock := set_read_timeout read_timeout_secs (set_send_timeout send_timeout_secs accepted).

Lemma HandleNewConnection_spec passive c fd v m w :
  listen_callbacks_ v !! passive = Some c -> fds w = <[fd := accepted]> m -> m !! fd = None -> 0 <= fd ->
  wp (HandleNewConnection passive fd v) (fun r w' =>
    quiet w w' /\
    ((r = Handed c fd /\ fds w' = <[fd := incoming_sock]> m) \/ (r = Refused /\ fds w' = m))) w.
Proof.
  intros Hc Hm Hn Hpos. unfold HandleNewConnection. rewrite Hc. apply wp_bind, wp_dcheck; [done |].
  assert (forall s w1, fds w1 = <[fd := s]> m -> quiet w w1 ->
    wp (bind (destroy fd) (fun _ => ret (Refused : incoming))) (fun r w' => quiet w w' /\
      ((r = Handed c fd /\ fds w' = <[fd := incoming_sock]> m) \/ (r = Refused /\ fds w' = m))) w1) as Hrefuse.
  { intros s w1 H1 Q1. unfold destroy. rewrite (proj2 (valid_fd fd Hpos)). apply wp_bind, wp_modify, wp_ret.
    split; [by apply quiet_with_fds |]. right. split; [done |]. simpl. rewrite H1. by apply delete_insert_id. }
  apply wp_bind, wp_and_then. eapply wp_fd_call; [exact Hm | |]; intros w1 H1 Q1 _; [| by eapply Hrefuse].
  eapply wp_fd_call; [exact H1 | |]; intros w2 H2 Q2 _; simpl; [| eapply Hrefuse; eauto].
  apply wp_ret. eauto.
Qed.

(** The descriptors that the callbacks got. *)
Definition handed (l : list incoming) : list Z :=
  omap (fun i => match i with Handed _ fd => Some fd | _ => None end) l.

(** The descriptors of [w'] are those of [w], and [l] next to them. *)
Definition handed_post (c : callback) (w : world) (l : list incoming) (w' : world) : Prop :=
  Forall (fun i => i = Refused \/ exists fd, i = Handed c fd) l /\ NoDup (handed l) /\
  (forall fd, fd ∈ handed l -> 0 <= fd /\ fds w !! fd = None /\ fds w' !! fd = Some incoming_sock) /\
  (forall fd, fd ∉ handed l -> fds w' !! fd = fds w !! fd).

Lemma handed_nil c w w' : fds w' = fds w -> handed_post c w [] w'.
Proof.
  intros H. split; [constructor |]. split; [constructor |]. simpl. split; intros fd Hfd; [by inversion Hfd | by rewrite H].
Qed.

Lemma handed_refused c w w1 l w' : fds w1 = fds w -> handed_post c w1 l w' -> handed_post c w (Refused :: l) w'.
Proof.
  intros H (Hl & Hd & Hi & Ho). split; [by constructor; [left |] |]. split; [exact Hd |].
  split; intros fd Hfd; rewrite <- H; auto.
Qed.

Lemma handed_cons c fd w w1 l w' :
  0 <= fd -> fds w !! fd = None -> fds w1 = <[fd := incoming_sock]> (fds w) -> handed_post c w1 l w' ->
  handed_post c w (Handed c fd :: l) w'.
Proof.
  intros Hpos Hn H1 (Hl & Hd & Hi & Ho).
  assert (fd ∉ handed l) as Hnew.
  { intros Hin. destruct (Hi fd Hin) as (_ & E & _). rewrite H1, lookup_insert_eq in E. done. }
  split; [constructor; [right; by exists fd | exact Hl] |]. split; [simpl; by constructor |].
  split; intros fd' Hfd'; simpl in Hfd'.
  - apply elem_of_cons in Hfd' as [-> | Hfd'].
    + split; [done |]. split; [done |]. rewrite (Ho fd Hnew), H1. apply lookup_insert_eq.
    + destruct (Hi fd' Hfd') as (Hpos' & E & E'). split; [done |]. split; [| exact E'].
      rewrite H1, lookup_insert_ne in E; [exact E | congruence].
  - apply not_elem_of_cons in Hfd' as [Hne Hfd']. rewrite (Ho fd' Hfd'), H1. by apply lookup_insert_ne.
Qed.

Lemma accept_loop_spec passive c v fuel : forall w,
  listen_callbacks_ v !! passive = Some c -> (length (script w) < fuel)%nat ->
  wp (accept_loop fuel passive v) (fun r w' => grown w w' /\ exists l, r = Some l /\ handed_post c w l w') w.
Proof.
  induction fuel as [| fuel IH]; intros w Hc Hfuel; [lia |]. simpl.
  apply wp_bind. eapply wp_mono; [apply Accept_spec |].
  intros fd w1 ([F1 L1] & [[-> H1] | (Hpos & Hn & H1 & Hlt)]); simpl.
  - apply wp_ret. split; [by split |]. exists []. split; [done |]. by apply handed_nil.
  - rewrite (proj1 (valid_fd fd Hpos)). simpl. apply wp_bind. eapply wp_IsBlocking; [exact H1 |].
    apply wp_bind, wp_dcheck; [done |]. apply wp_bind. unfold Create. apply wp_bind. eapply wp_IsBlocking; [exact H1 |].
    apply wp_bind, wp_dcheck; [done |]. apply wp_ret, wp_bind.
    eapply wp_mono; [eapply HandleNewConnection_spec; [exact Hc | exact H1 | exact Hn | exact Hpos] |].
    intros r w2 ((F2 & S2 & L2) & Hr). apply wp_bind. eapply wp_mono; [apply IH; [exact Hc | lia] |].
    intros o w3 ([F3 L3] & l & -> & Hl). apply wp_ret. split; [split; [congruence | lia] |].
    destruct Hr as [[-> H2] | [-> H2]]; simpl; eexists; (split; [done |]).
    + eapply handed_cons; [exact Hpos | exact Hn | exact H2 | exact Hl].
    + eapply handed_refused; [exact H2 | exact Hl].
Qed.

(** ** The service over time

    [conns]: the descriptors of the connections that still exist. *)
Record system := { sys : world; srv : service; conns : list Z }.

(** The kernel's answers from now on, and the string of the next caller. *)
Definition enter (l : list Z) (e : option (list Z)) (w : world) : world :=
  {| fds := fds w; files := files w; script := l; errno := errno w; error := e; sound := sound w |}.

Definition owned (s : system) : list Z := listening_fds_ (srv s) ++ conns s.

Inductive step : system -> system -> Prop :=
| step_listen s stale path c l e r w' :
    Listen stale path c (srv s) (enter l e (sys s)) = (r, w') ->
    step s {| sys := w'; srv := r.2; conns := conns s |}
| step_listen_host s peer c l e r w' :
    (forall p, peer = Some p -> domain p <> AF_UNIX) ->
    ListenHost peer c (srv s) (enter l e (sys s)) = (r, w') ->
    step s {| sys := w'; srv := r.2; conns := conns s |}
| step_connect s end_point l e r w' :
    Connect end_point (enter l e (sys s)) = (r, w') ->
    step s {| sys := w'; srv := srv s; conns := option_list r ++ conns s |}
| step_event s passive l e i v' w' :
    passive ∈ armed (srv s) ->
    listen_event (S (length l)) passive (srv s) (enter l e (sys s)) = ((Some i, v'), w') ->
    step s {| sys := w'; srv := v'; conns := handed i ++ conns s |}
| step_release s l1 l2 fd :
    (* the last reference to a connection goes away *)
    conns s = l1 ++ fd :: l2 ->
    step s {| sys := (close fd (sys s)).2; srv := srv s; conns := l1 ++ l2 |}
| step_other s w' :
    (* the rest of the program opens and closes its own descriptors and files *)
    (forall fd, fd ∈ owned s -> fds w' !! fd = fds (sys s) !! fd) ->
    step s {| sys := w'; srv := srv s; conns := conns s |}.

Inductive reachable : system -> Prop :=
| reach_init w : reachable {| sys := w; srv := new_service; conns := [] |}
| reach_step s s' : reachable s -> step s s' -> reachable s'.

(** A connection's socket blocks, for at most the service's timeouts, and is not
    inherited by a compiler. *)
Definition good_conn (s : sock) : Prop :=
  nonblocking s = false /\ cloexec s = true /\ send_timeout s = Some send_timeout_secs /\
  read_timeout s = Some read_timeout_secs /\ backlog s = None.

Record consistent (s : system) : Prop := {
  co_serving : serving (srv s) (sys s);
  co_conns : forall fd, fd ∈ conns s -> 0 <= fd /\ exists k, fds (sys s) !! fd = Some k /\ good_conn k;
  co_nodup : NoDup (conns s)
}.

(** A listening socket is never a connection. *)
Lemma owned_nodup s : consistent s -> NoDup (owned s).
Proof.
  intros H. apply NoDup_app. split; [apply (sv_nodup _ _ (co_serving _ H)) |]. split; [| apply co_nodup, H].
  intros fd Hl Hc. destruct (sv_open _ _ (co_serving _ H) fd Hl) as (_ & k & E & B & _).
  destruct (co_conns _ H fd Hc) as (_ & k' & E' & _ & _ & _ & _ & B'). congruence.
Qed.

Lemma serving_fds v w w' :
  serving v w -> (forall fd, fd ∈ listening_fds_ v -> fds w' !! fd = fds w !! fd) -> serving v w'.
Proof. intros [? ? Ho ? ?] H. split; try done. intros fd Hfd. rewrite (H fd Hfd). by apply Ho. Qed.

Lemma serving_disarmed fd v w : serving v w -> serving (disarmed fd v) w.
Proof. intros []. split; simpl; try done. set_solver. Qed.

Lemma serving_armed fd v w : serving v w -> fd ∈ listening_fds_ v -> serving (with_armed fd v) w.
Proof. intros [? ? ? ? Hi] Hfd. split; simpl; try done; [set_solver |]. set_solver. Qed.

Lemma serving_new c fd s v w w' :
  serving v w -> fds w !! fd = None -> 0 <= fd -> fds w' = <[fd := s]> (fds w) ->
  backlog s = Some 64 -> nonblocking s = true -> cloexec s = true ->
  serving (with_listening fd (with_callback fd c v)) w'.
Proof.
  intros [Hc Hd Ho Ha Hi] Hn Hpos H' B N C.
  assert (fd ∉ listening_fds_ v) as Hnew by (intros Hin; destruct (Ho fd Hin) as (_ & ? & ? & _); congruence).
  split; simpl; [| | | done |].
  - intros fd'. destruct (decide (fd = fd')) as [<- | Hne].
    + rewrite lookup_insert_eq, elem_of_app, list_elem_of_singleton. split; eauto.
    + rewrite lookup_insert_ne, Hc, elem_of_app, list_elem_of_singleton by done. naive_solver.
  - apply NoDup_app. split; [done |]. split; [| apply NoDup_singleton].
    intros x Hx Hx'. apply list_elem_of_singleton in Hx'. congruence.
  - intros fd' Hfd'. rewrite H'. apply elem_of_app in Hfd' as [Hfd' | ->%list_elem_of_singleton].
    + rewrite lookup_insert_ne by congruence. by apply Ho.
    + rewrite lookup_insert_eq. eauto 8.
  - intros fd' Hfd'. apply elem_of_app. left. by apply Hi.
Qed.

(** Any [Listen]. *)
Lemma listen_consistent c k s r w0 w' :
  backlog k = Some 64 -> nonblocking k = true -> cloexec k = true ->
  consistent s -> fds w0 = fds (sys s) -> listen_post c k (srv s) w0 r w' ->
  consistent {| sys := w'; srv := r.2; conns := conns s |}.
Proof.
  intros B N C [Hv Hc Hd] H0 [_ [[-> H'] | (fd & Hn & Hpos & H' & Hr)]]; rewrite H0 in *.
  - split; simpl; [| by rewrite H' | done]. eapply serving_fds; [exact Hv |]. by rewrite H'.
  - split; simpl; [| | done].
    + assert (serving (with_listening fd (with_callback fd c (srv s))) w') as Hv' by by eapply serving_new.
      destruct Hr as [-> | ->]; simpl; [| exact Hv']. apply serving_armed; [exact Hv' |].
      simpl. apply elem_of_app. right. by apply list_elem_of_singleton.
    + intros fd' Hfd'. destruct (Hc fd' Hfd') as (P & k' & E & G). rewrite H', lookup_insert_ne by congruence. eauto.
Qed.

Lemma consistent_unix_socket path s :
  consistent s -> consistent {| sys := sys s; srv := with_unix_socket path (srv s); conns := conns s |}.
Proof. intros [[] ? ?]. by split; [split |..]. Qed.

(** Descriptors that are new to the connections. *)
Lemma consistent_conns l v s w' :
  consistent s -> serving v w' -> NoDup l ->
  (forall fd, fd ∈ l -> 0 <= fd /\ fds (sys s) !! fd = None /\ exists k, fds w' !! fd = Some k /\ good_conn k) ->
  (forall fd, fd ∉ l -> fds w' !! fd = fds (sys s) !! fd) ->
  consistent {| sys := w'; srv := v; conns := l ++ conns s |}.
Proof.
  intros [_ Hc Hd] Hv Hl Hin Hout.
  assert (forall fd, fd ∈ conns s -> fd ∉ l) as Hdisj.
  { intros fd Hfd Hfd'. destruct (Hc fd Hfd) as (_ & k & E & _). destruct (Hin fd Hfd') as (_ & E' & _). congruence. }
  split; simpl; [exact Hv | |].
  - intros fd [Hfd | Hfd]%elem_of_app; [destruct (Hin fd Hfd) as (? & _ & ?); eauto |].
    rewrite Hout by auto. by apply Hc.
  - apply NoDup_app. split; [exact Hl |]. split; [| exact Hd]. intros fd Hfd Hfd'. by apply (Hdisj fd).
Qed.

Lemma listen_event_spec passive v fuel w :
  serving v w -> passive ∈ armed v -> (length (script w) < fuel)%nat ->
  wp (listen_event fuel passive v) (fun r w' =>
    exists c l, listen_callbacks_ v !! passive = Some c /\ r.1 = Some l /\ handed_post c w l w' /\
      (r.2 = with_armed passive (disarmed passive v) \/ r.2 = disarmed passive v)) w.
Proof.
  intros Hv Ha Hfuel.
  assert (passive ∈ listening_fds_ v) as Hl by (apply (sv_interest _ _ Hv), (sv_armed _ _ Hv), Ha).
  destruct (proj2 (sv_callbacks _ _ Hv passive) Hl) as [c Hc].
  unfold listen_event. apply wp_bind. eapply wp_mono; [by eapply (accept_loop_spec passive c) |].
  intros o w1 (_ & l & -> & Hp). apply wp_bind. eapply wp_mono; [apply ReadyForListen_spec |].
  intros r w2 (_ & H2 & Hr). apply wp_ret. exists c, l. split; [done |]. split; [done |].
  split; [| by destruct Hr as [-> | ->]; auto].
  destruct Hp as (Hp & Hd & Hi & Ho). split; [done |]. split; [done |]. by split; intros fd Hfd; rewrite H2; auto.
Qed.

Lemma connect_consistent ep s e l r w' :
  consistent s -> Connect ep (enter l e (sys s)) = (r, w') ->
  consistent {| sys := w'; srv := srv s; conns := option_list r ++ conns s |}.
Proof.
  intros H Hr. pose proof (Connect_spec ep (enter l e (sys s))) as Hpost. unfold wp in Hpost. rewrite Hr in Hpost.
  destruct Hpost as [_ Hpost]. simpl in Hpost. destruct r as [fd|]; simpl.
  - destruct Hpost as (Hpos & Hn & H' & _). apply (consistent_conns [fd]); [exact H | | apply NoDup_singleton | |].
    + eapply serving_fds; [apply H |]. intros fd' Hfd'. rewrite H'. apply lookup_insert_ne. intros ->.
      destruct (sv_open _ _ (co_serving _ H) fd' Hfd') as (_ & k & E & _). simpl in Hn. congruence.
    + intros fd' ->%list_elem_of_singleton. rewrite H', lookup_insert_eq. split; [done |]. split; [done |].
      eexists. split; [done |]. repeat split.
    + intros fd' Hfd'. rewrite H'. apply lookup_insert_ne. set_solver.
  - destruct Hpost as [H' _]. destruct H as [Hv Hc Hd].
    split; simpl; [by eapply serving_fds; [exact Hv |]; intros; rewrite H' | by rewrite H' | done].
Qed.

Lemma event_consistent passive s e l r v' w' :
  consistent s -> passive ∈ armed (srv s) ->
  listen_event (S (length l)) passive (srv s) (enter l e (sys s)) = ((Some r, v'), w') ->
  consistent {| sys := w'; srv := v'; conns := handed r ++ conns s |}.
Proof.
  intros H Ha Hr. assert (serving (srv s) (enter l e (sys s))) as Hv by by eapply serving_fds; [apply H |].
  pose proof (listen_event_spec passive (srv s) (S (length l)) _ Hv Ha ltac:(simpl; lia)) as Hpost.
  unfold wp in Hpost. rewrite Hr in Hpost. destruct Hpost as (c & l' & Hc & [= <-] & (Hl & Hd & Hi & Ho) & Hv'). simpl in *.
  assert (passive ∈ listening_fds_ (srv s)) as Hpl by (apply (sv_interest _ _ Hv), (sv_armed _ _ Hv), Ha).
  apply consistent_conns; [exact H | | exact Hd | | exact Ho].
  - assert (serving (disarmed passive (srv s)) w') as Hw.
    { apply serving_disarmed. eapply serving_fds; [apply H |]. intros fd Hfd. apply Ho. intros Hin.
      destruct (sv_open _ _ (co_serving _ H) fd Hfd) as (_ & k & E & _).
      destruct (Hi fd Hin) as (_ & E' & _). congruence. }
    destruct Hv' as [-> | ->]; [by apply serving_armed | exact Hw].
  - intros fd Hfd. destruct (Hi fd Hfd) as (P & N & E). split; [exact P |]. split; [exact N |].
    eexists. split; [exact E |]. repeat split.
Qed.

Lemma close_consistent fd s l1 l2 :
  consistent s -> conns s = l1 ++ fd :: l2 ->
  consistent {| sys := (close fd (sys s)).2; srv := srv s; conns := l1 ++ l2 |}.
Proof.
  intros H Hl. pose proof (owned_nodup s H) as Hnd. unfold owned in Hnd. rewrite Hl in Hnd.
  destruct H as [Hv Hc Hd]. rewrite Hl in Hc, Hd. rewrite <- Permutation_middle in Hd.
  apply NoDup_cons in Hd as [Hnew Hd].
  assert (forall x, x ∈ listening_fds_ (srv s) \/ x ∈ l1 ++ l2 -> x <> fd) as Hne.
  { intros x Hx ->. apply NoDup_app in Hnd as (_ & Hdisj & _). destruct Hx as [Hx | Hx].
    - apply (Hdisj fd Hx). set_solver.
    - by apply Hnew. }
  split; simpl.
  - eapply serving_fds; [exact Hv |]. intros x Hx. simpl. apply lookup_delete_ne. intros <-. by apply (Hne fd); [left |].
  - intros x Hx. rewrite lookup_delete_ne by (intros <-; by apply (Hne fd); [right |]). apply Hc. set_solver.
  - exact Hd.
Qed.

Lemma step_consistent s s' : consistent s -> step s s' -> consistent s'.
Proof.
  intros H Hs. destruct Hs as [s stale path c l e r w' Hr | s peer c l e r w' Hp Hr | s ep l e r w' Hr
                              | s passive l e i v' w' Ha Hr | s l1 l2 fd Hl | s w' Hw].
  - assert (serving (srv s) (enter l e (sys s))) as Hv by by eapply serving_fds; [apply H |].
    pose proof (Listen_spec stale path c (srv s) _ Hv) as Hp. unfold wp in Hp. rewrite Hr in Hp.
    destruct Hp as (v1 & Hp & E & _). simpl in *. rewrite E.
    assert (consistent {| sys := w'; srv := v1; conns := conns s |}) as H1 by by eapply (listen_consistent c (listening_sock false (UnixSocket stale path)) s (r.1, v1)).
    destruct r.1; [| exact H1]. by apply (consistent_unix_socket path) in H1.
  - assert (serving (srv s) (enter l e (sys s))) as Hv by by eapply serving_fds; [apply H |].
    pose proof (ListenHost_spec peer c (srv s) _ Hv Hp) as Hpost. unfold wp in Hpost. rewrite Hr in Hpost.
    destruct Hpost as [_ Hpost]. simpl in Hpost. destruct peer as [p|].
    + by eapply (listen_consistent c (listening_sock true p)).
    + destruct Hpost as [-> ->]. by destruct H.
  - by eapply connect_consistent.
  - by eapply event_consistent.
  - by apply close_consistent.
  - destruct H as [Hv Hc Hd]. split; simpl; [| | done].
    + eapply serving_fds; [exact Hv |]. intros fd Hfd. apply Hw. unfold owned. set_solver.
    + intros fd Hfd. rewrite Hw by (unfold owned; set_solver). by apply Hc.
Qed.

Lemma reachable_consistent s : reachable s -> consistent s.
Proof.
  induction 1 as [w | s s' _ IH Hs]; [| by eapply step_consistent].
  split; simpl; [| by inversion 1 | constructor].
  split; simpl; [| constructor | by inversion 1 | set_solver | set_solver].
  intros fd. rewrite lookup_empty. split; [by intros [] | by inversion 1].
Qed.

(** C14: the descriptors of the network service, over any sequence of [Listen],
    [Connect], events of listening sockets, releases of connections and other
    activity of the process, and whatever the system calls answer: a listening
    socket stays open and has its callback, a connection owns an open blocking
    socket with the timeouts of the service that no other connection or listener
    has; an event of a listening socket always ends, each connection that it
    accepts is given to the socket's own callback or closed, and nothing calls a
    missing callback; and [Connect] always returns either such a connection, or
    the descriptors as they were with every debug check passed. *)
Theorem service_descriptors s l e :
  reachable s ->
  consistent s /\
  (forall passive, passive ∈ armed (srv s) ->
     exists c accepted r w', listen_callbacks_ (srv s) !! passive = Some c /\
       listen_event (S (length l)) passive (srv s) (enter l e (sys s)) = ((Some accepted, r), w') /\
       handed_post c (sys s) accepted w') /\
  (forall end_point, connect_post (enter l e (sys s)) (Connect end_point (enter l e (sys s))).1
                                  (Connect end_point (enter l e (sys s))).2).
Proof.
  intros Hs%reachable_consistent. split; [exact Hs |]. split.
  - intros passive Ha.
    assert (serving (srv s) (enter l e (sys s))) as Hv by by eapply serving_fds; [apply Hs |].
    pose proof (listen_event_spec passive (srv s) (S (length l)) _ Hv Ha ltac:(simpl; lia)) as Hp.
    unfold wp in Hp. destruct (listen_event _ _ _ _) as [[o v'] w'].
    destruct Hp as (c & accepted & Hc & Eo & Hp & _). simpl in Eo. subst o. eauto 10.
  - intros ep. apply Connect_spec.
Qed.

(** ** Socket files *)

(** A name that is cut, or that ends in the stale byte, and that a file has already
    is not the name that [Listen] unlinks: it can never be bound again. *)
Lemma Listen_refused stale path c v w :
  serving v w -> sun_name (UnixSocket stale path) ∈ files w -> sun_name (UnixSocket stale path) <> until_nul path ->
  (Listen stale path c v w).1.1 = false.
Proof.
  intros Hv Hin Hne. pose proof (Listen_spec stale path c v w Hv) as (v1 & _ & _ & H).
  destruct (Listen stale path c v w).1.1; [| done]. destruct (H eq_refl) as (F & HF & Hn & _).
  exfalso. apply Hn. destruct HF as [-> | ->]; set_solver.
Qed.

Lemma close_all_spec l w :
  wp (foldr (fun fd rest => close fd;; rest) (ret tt) l) (fun _ w' =>
    files w' = files w /\ (forall fd, fd ∈ l -> fds w' !! fd = None) /\
    (forall fd, fd ∉ l -> fds w' !! fd = fds w !! fd)) w.
Proof.
  revert w. induction l as [| x l IH]; intros w; simpl.
  - apply wp_ret. split; [done |]. split; [by inversion 1 | done].
  - apply wp_bind, wp_modify. eapply wp_mono; [apply IH |]. intros _ w1 (F1 & Hin & Hout). simpl in *.
    split; [exact F1 |]. split; intros fd Hfd.
    + destruct (decide (fd ∈ l)) as [Hl | Hl]; [by apply Hin |]. rewrite Hout by done.
      apply elem_of_cons in Hfd as [-> | Hfd]; [apply lookup_delete_eq | done].
    + apply not_elem_of_cons in Hfd as [Hne Hfd]. rewrite Hout by done. by apply lookup_delete_ne.
Qed.

(** The destructor closes the listening sockets and no other descriptor, and removes
    no file but the recorded ones. *)
Lemma destroy_service_spec v w :
  wp (destroy_service v) (fun _ w' =>
    (forall fd, fd ∈ listening_fds_ v -> fds w' !! fd = None) /\
    (forall fd, fd ∉ listening_fds_ v -> fds w' !! fd = fds w !! fd) /\
    files w ∖ list_to_set (map until_nul (unix_sockets_ v)) ⊆ files w') w.
Proof.
  unfold destroy_service. apply wp_bind.
  eapply (wp_mono _ (fun _ w1 => fds w1 = fds w /\ files w ∖ list_to_set (map until_nul (unix_sockets_ v)) ⊆ files w1)).
  - generalize (unix_sockets_ v). intros l. revert w. induction l as [| p l IH]; intros w; simpl.
    + apply wp_ret. set_solver.
    + apply wp_bind. eapply wp_mono; [apply unlink_spec |]. intros _ w1 (_ & H1 & F1).
      eapply wp_mono; [apply IH |]. intros _ w2 [H2 F2]. split; [congruence |].
      destruct F1 as [F1 | F1]; rewrite F1 in F2; set_solver.
  - intros _ w1 [H1 F1]. eapply wp_mono; [apply close_all_spec |]. intros _ w2 (F2 & Hin & Hout).
    split; [exact Hin |]. split; [| by rewrite F2]. intros fd Hfd. rewrite Hout by done. by rewrite H1.
Qed.

End Service.

Lemma until_nul_app s r : Forall (fun c => c <> 0) s -> until_nul (s ++ r) = s ++ until_nul r.
Proof.
  induction 1 as [| c s Hc _ IH]; [done |]. simpl. apply Z.eqb_neq in Hc. by rewrite Hc, IH.
Qed.

Lemma until_nul_nonzero s : Forall (fun c => c <> 0) (until_nul s).
Proof.
  induction s as [| c s IH]; simpl; [constructor |]. destruct (c =? 0) eqn:E; constructor; [by apply Z.eqb_neq | done].
Qed.

(** A path of less than 107 bytes is bound as it is; of a longer one, the first 107
    bytes and the stale byte. *)
Lemma sun_name_spec stale path :
  sun_name (UnixSocket stale path)
  = if (length (until_nul path) <? 107)%nat then until_nul path
    else take 107 (until_nul path) ++ until_nul [stale].
Proof.
  unfold sun_name, UnixSocket. simpl address. pose proof (until_nul_nonzero path) as H. revert H.
  generalize (until_nul path). intros s H. rewrite until_nul_app by by apply Forall_take.
  rewrite length_take. destruct (Nat.ltb_spec (length s) 107) as [Hlt | Hge].
  - rewrite take_ge, Nat.min_r by lia. destruct (107 - length s)%nat as [| n] eqn:E; [lia |].
    simpl. by rewrite app_nil_r.
  - by rewrite Nat.min_l, Nat.sub_diag by lia.
Qed.

(** The timeout is the configured number of seconds when it is at most 2147483; a
    larger one can wait for ever, or for less than a second. *)
Lemma timeout_exact t : 0 < t <= 2147483 -> timeout t = t * 1000.
Proof.
  intros H. unfold timeout. replace (t =? 0) with false by (symmetry; apply Z.eqb_neq; lia).
  rewrite wrap_small by lia. apply swrap_small; lia.
Qed.

Example timeout_negative : timeout 2147484 < 0 /\ timeout 4294968 = 704.
Proof. by split. Qed.

(** A listening host that cannot be resolved is replaced by the address of all the
    interfaces. *)
Lemma LocalHost_any getaddrinfo port_str host port (ipv6 : bool) :
  getaddrinfo (Some (until_nul host)) (port_str port) (if ipv6 then AF_INET6 else AF_INET) true = None ->
  LocalHost getaddrinfo port_str host port ipv6
  = of_addrinfo ipv6 (getaddrinfo None (port_str port) (if ipv6 then AF_INET6 else AF_INET) true).
Proof. intros H. unfold LocalHost, GetPeerAddress. by rewrite H. Qed.

(** ** Witnesses *)

(** A kernel that numbers a new descriptor after all the others. *)
Definition above (X : gset Z) : Z := set_fold Z.max (-1) X + 1.

Lemma above_bound (X : gset Z) : (forall x, x ∈ X -> x < above X) /\ 0 <= above X.
Proof.
  unfold above. apply (set_fold_ind_L (fun r X => (forall x, x ∈ X -> x < r + 1) /\ 0 <= r + 1)).
  - split; [set_solver | lia].
  - intros x Y r _ [H ?]. split; [| lia]. intros y [->%elem_of_singleton | Hy%H]%elem_of_union; lia.
Qed.

Lemma above_fresh (X : gset Z) : above X ∉ X.
Proof. intros H. apply (proj1 (above_bound X)) in H. lia. Qed.

Lemma above_nonneg (X : gset Z) : 0 <= above X.
Proof. apply above_bound. Qed.

Definition sample_error (e : Z) : list Z := lit "error".
Lemma sample_error_text e : sample_error e <> [].
Proof. done. Qed.

(** One long path: 108 bytes. *)
Definition long_path : list Z := lit "/" ++ replicate 107 120.

Definition sample_world (l : list Z) (files : gset (list Z)) : world :=
  {| fds := {[0 := fresh_sock; 1 := fresh_sock; 2 := fresh_sock]}; files := files; script := l; errno := 0;
     error := Some []; sound := true |}.

Definition zeros : list Z := replicate 20 0.
Definition sample_listen (path : list Z) (w : world) : (bool * service) * world :=
  Listen sample_error above 0 path 7%nat new_service w.

(** A service on a long path starts once; what it leaves behind prevents the next
    start. *)
Example long_path_once :
  let '((ok, v), w) := sample_listen long_path (sample_world zeros ∅) in
  let w1 := (destroy_service v (enter zeros None w)).2 in
  let '((ok2, _), w2) := sample_listen long_path (enter zeros (Some []) w1) in
  (ok, ok2, errno w2) = (true, false, EADDRINUSE).
Proof. vm_compute. reflexivity. Qed.

(** A short path can be used again. *)
Example short_path_twice :
  let '((ok, v), w) := sample_listen (lit "/tmp/clangd.socket") (sample_world zeros ∅) in
  let w1 := (destroy_service v (enter zeros None w)).2 in
  let '((ok2, _), w2) := sample_listen (lit "/tmp/clangd.socket") (enter zeros (Some []) w1) in
  (ok, ok2, sound w2) = (true, true, true).
Proof. vm_compute. reflexivity. Qed.

(** One listening socket with a connection that is accepted, one that is refused
    for its timeouts, and a second one that is accepted. *)
Definition sample_system : system (callback := nat) :=
  let w := sample_world [] ∅ in
  {| sys := (sample_listen (lit "/tmp/s") (enter zeros None w)).2;
     srv := (sample_listen (lit "/tmp/s") (enter zeros None w)).1.2; conns := [] |}.

Example sample_event :
  let '((o, v), w) := listen_event above 10 10 (S 40) 3 (srv sample_system)
                        (enter [0; 0; 0; 0; 11; 0; 0; 0; 11; 0] None (sys sample_system)) in
  (o, sound w, bool_decide (3 ∈ interest v)) = (Some [Handed 7%nat 4; Refused; Handed 7%nat 5], true, true).
Proof. vm_compute. reflexivity. Qed.

Lemma sample_reachable : reachable sample_error above 10 60 60 1 sample_system.
Proof.
  eapply reach_step; [apply (reach_init _ _ _ _ _ _ (sample_world [] ∅)) |].
  apply (step_listen _ _ _ _ _ _ {| sys := sample_world [] ∅; srv := new_service; conns := [] |} 0 (lit "/tmp/s") 7%nat
           zeros None).
  apply surjective_pairing.
Qed.

Lemma service_descriptors_witness :
  3 ∈ armed (srv sample_system) /\
  consistent 60 60 sample_system /\
  (forall passive, passive ∈ armed (srv sample_system) ->
     exists c accepted r w', listen_callbacks_ (srv sample_system) !! passive = Some c /\
       listen_event above 60 60 (S (length zeros)) passive (srv sample_system) (enter zeros None (sys sample_system))
       = ((Some accepted, r), w') /\
       handed_post 60 60 c (sys sample_system) accepted w') /\
  (forall end_point, connect_post sample_error 60 60 1 (enter zeros None (sys sample_system))
     (Connect sample_error above 10 60 60 1 end_point (enter zeros None (sys sample_system))).1
     (Connect sample_error above 10 60 60 1 end_point (enter zeros None (sys sample_system))).2).
Proof.
  split; [apply (bool_decide_unpack (3 ∈ armed (srv sample_system))); vm_compute; exact I |].
  exact (service_descriptors sample_error above 10 60 60 1 above_fresh above_nonneg sample_error_text
           sample_system zeros None sample_reachable).
Defined.
