(* ===== verification/FilePosix.v ===== *)
(** [File::Write], [Copy], [Link], [Move] and [Delete]
    ([src/src/base/file/file_posix.cc]) on a file system with inodes.

    A name leads to an inode, hard links are names with one inode, and an open
    descriptor keeps its inode whatever happens to its names.  Writing goes to a
    temporary file next to the target, which is renamed when it is closed; the
    steps of several writers can interleave.  That this implements the abstract
    write of [FileCache] is proved. *)

From S2P Require Import Prelude StringUtils ConstString ConstStringFind ConstStringHash CacheLocks FileCache.
From stdpp Require Import relations.

#[local] Open Scope nat_scope.

(** ** The file system *)

Record fs := { names : gmap path nat; inodes : list (list Z) }.

Definition content (f : fs) (i : nat) : list Z := default [] (inodes f !! i).

(** What the names lead to. *)
Definition view (f : fs) : gmap path (list Z) := content f <$> names f.

Definition set_content (i : nat) (c : list Z) (f : fs) : fs := {| names := names f; inodes := <[i := c]> (inodes f) |}.

(** [open] with [O_CREAT | O_TRUNC] *)
Definition open_trunc (p : path) (f : fs) : nat * fs :=
  match names f !! p with
  | Some i => (i, set_content i [] f)
  | None => (length (inodes f), {| names := <[p := length (inodes f)]> (names f); inodes := inodes f ++ [[]] |})
  end.

(** [posix_fallocate] from the start of the file *)
Definition allocate (i size : nat) (f : fs) : fs :=
  let c := content f i in set_content i (c ++ replicate (size - length c) 0%Z) f.

(** [write] at an offset *)
Definition write_at (i offset : nat) (d : list Z) (f : fs) : fs :=
  let c := content f i in
  set_content i (take offset c ++ replicate (offset - length c) 0%Z ++ d ++ drop (offset + length d) c) f.

(** Names of one inode are left alone by [rename]. *)
Definition rename (a b : path) (f : fs) : option fs :=
  i ← names f !! a;
  if bool_decide (names f !! b = Some i) then Some f
  else Some {| names := <[b := i]> (delete a (names f)); inodes := inodes f |}.

Definition unlink (p : path) (f : fs) : option fs :=
  i ← names f !! p; Some {| names := delete p (names f); inodes := inodes f |}.

(** ** A writer

    The constructor [File(path, size)], the loop of [Write] or [CopyInto], and
    [Close].  What is written is a buffer, or the open file of a copy. *)
Inductive source := Buffer (d : list Z) | Open_file (i : nat).

Inductive pc :=
| Opening
| Allocating (i : nat)
| Looping (i total : nat)
| Renaming (total : nat)
| Deleting
| Done (result : bool).

Record writer := { target : path; src : source; size : nat; at_ : pc }.

Definition goto (c : pc) (w : writer) : writer := {| target := target w; src := src w; size := size w; at_ := c |}.

Definition tmp_path (p : path) : path := AppendExtension p (lit "tmp").

(** What the kernel answers to the next call. *)
Inductive answer := Fails | Takes (n : nat).

(** At most [n] bytes of the source at an offset. *)
Definition read_source (s : source) (offset n : nat) (f : fs) : list Z :=
  take n (drop offset (match s with Buffer d => d | Open_file i => content f i end)).

(** One system call.  A failure of [posix_fallocate] goes unnoticed; it leaves the
    file alone. *)
Definition writer_step (a : answer) (w : writer) (f : fs) : writer * fs :=
  match at_ w with
  | Opening =>
      match a with
      | Fails => (goto (Done false) w, f)
      | Takes _ => let '(i, f) := open_trunc (tmp_path (target w)) f in (goto (Allocating i) w, f)
      end
  | Allocating i =>
      (goto (Looping i 0) w, match a with Fails => f | Takes _ => allocate i (size w) f end)
  | Looping i total =>
      if size w <=? total then (goto (Renaming total) w, f)
      else
        match a with
        | Fails => (goto (Renaming total) w, f)
        | Takes n =>
            match read_source (src w) total (Nat.min n (size w - total)) f with
            | [] => (goto (Renaming total) w, f)
            | d => (goto (Looping i (total + length d)) w, write_at i total d f)
            end
        end
  | Renaming total =>
      match a, rename (tmp_path (target w)) (target w) f with
      | Takes _, Some f => (goto (Done (total =? size w)) w, f)
      | _, _ => (goto Deleting w, f)
      end
  | Deleting =>
      (goto (Done false) w,
       match a, unlink (tmp_path (target w)) f with Takes _, Some f => f | _, _ => f end)
  | Done _ => (w, f)
  end.

(** Alone, with the answers of the kernel in order. *)
Fixpoint run_writer (answers : list answer) (w : writer) (f : fs) : writer * fs :=
  match answers with
  | [] => (w, f)
  | a :: answers => let '(w, f) := writer_step a w f in run_writer answers w f
  end.

Definition result_of (w : writer) : option bool := match at_ w with Done b => Some b | _ => None end.

(** ** Operations *)

(** [File::Write]; [None]: not enough answers. *)
Definition Write (answers : list answer) (p : path) (input : list Z) (f : fs) : option (bool * fs) :=
  let '(w, f) := run_writer answers {| target := p; src := Buffer input; size := length input; at_ := Opening |} f in
  option_map (fun b => (b, f)) (result_of w).

(** [CopyInto] of an open file *)
Definition CopyInto (unlinked : answer) (answers : list answer) (i : nat) (dst : path) (f : fs) : option (bool * fs) :=
  match unlinked, unlink dst f with
  | Fails, _ => Some (false, f)
  | Takes _, f' =>
      let f := default f f' in
      let '(w, f) := run_writer answers {| target := dst; src := Open_file i; size := length (content f i); at_ := Opening |} f in
      option_map (fun b => (b, f)) (result_of w)
  end.

Definition Copy (opened unlinked : answer) (answers : list answer) (src dst : path) (f : fs) : option (bool * fs) :=
  match opened, names f !! src with
  | Takes _, Some i => CopyInto unlinked answers i dst f
  | _, _ => Some (false, f)
  end.

(** [linkat]: it follows symbolic links.  [inr true]: the target exists. *)
Definition linkat (a : answer) (src dst : path) (f : fs) : fs + bool :=
  match names f !! src with
  | None => inr false
  | Some i =>
      match names f !! dst with
      | Some _ => inr true
      | None =>
          match a with
          | Fails => inr false
          | Takes _ => inl {| names := <[dst := i]> (names f); inodes := inodes f |}
          end
      end
  end.

Definition Link (link1 unlink1 link2 opened unlinked : answer) (answers : list answer) (src dst : path) (f : fs)
    : option (bool * fs) :=
  match linkat link1 src dst f with
  | inl f => Some (true, f)
  | inr exists_ =>
      if exists_ then
        match unlink1, unlink dst f with
        | Takes _, Some f =>
            match linkat link2 src dst f with
            | inl f => Some (true, f)
            | inr _ => Copy opened unlinked answers src dst f
            end
        | _, _ => Copy opened unlinked answers src dst f
        end
      else Copy opened unlinked answers src dst f
  end.

Definition Move (a : answer) (src dst : path) (f : fs) : bool * fs :=
  match a, rename src dst f with Takes _, Some f => (true, f) | _, _ => (false, f) end.

Definition Delete (a : answer) (p : path) (f : fs) : bool * fs :=
  match a, unlink p f with Takes _, Some f => (true, f) | _, _ => (false, f) end.

(** ** What one call changes *)

Definition valid (f : fs) : Prop := forall p i, names f !! p = Some i -> i < length (inodes f).

Lemma content_set i j c f : j <> i -> content (set_content i c f) j = content f j.
Proof. intros H. unfold content. simpl. by rewrite list_lookup_insert_ne. Qed.

Lemma content_set_eq i c f : i < length (inodes f) -> content (set_content i c f) i = c.
Proof. intros H. unfold content. simpl. by rewrite list_lookup_insert_eq. Qed.

Lemma tmp_path_ne p : tmp_path p <> p.
Proof. unfold tmp_path, AppendExtension. intros H. apply (f_equal length) in H. rewrite length_app in H. simpl in H. lia. Qed.

(** The inode that the next call of a writer can change. *)
Definition touches (w : writer) (f : fs) (j : nat) : Prop :=
  match at_ w with
  | Opening => names f !! tmp_path (target w) = Some j
  | Allocating i | Looping i _ => j = i
  | _ => False
  end.

Definition handle_valid (w : writer) (f : fs) : Prop :=
  match at_ w with Allocating i | Looping i _ => i < length (inodes f) | _ => True end.

(** [f'] comes from [f] by one call for [w]. *)
Record changed (w : writer) (f f' : fs) : Prop := {
  ch_valid : valid f';
  ch_length : length (inodes f) <= length (inodes f');
  ch_names : forall q, q <> target w -> q <> tmp_path (target w) -> names f' !! q = names f !! q;
  ch_new : forall q j, names f' !! q = Some j ->
    names f !! q = Some j \/ (q = tmp_path (target w) /\ j = length (inodes f)) \/
    (q = target w /\ names f !! tmp_path (target w) = Some j);
  ch_content : forall j, j < length (inodes f) -> ~ touches w f j -> content f' j = content f j
}.

Lemma changed_refl w f : valid f -> changed w f f.
Proof. intros H. split; auto. Qed.

Lemma changed_content w f i c :
  valid f -> (forall j, j = i -> touches w f j) -> changed w f (set_content i c f).
Proof.
  intros H Ht. split; simpl; auto.
  - intros p j Hp. simpl. rewrite length_insert. by apply (H p).
  - by rewrite length_insert.
  - intros j _ Hj. apply content_set. intros ->. by apply Hj, Ht.
Qed.

Lemma changed_open w f :
  valid f -> at_ w = Opening -> changed w f (open_trunc (tmp_path (target w)) f).2.
Proof.
  intros H Ha. unfold open_trunc. destruct (names f !! tmp_path (target w)) as [i|] eqn:E.
  - apply changed_content; [done |]. intros j ->. unfold touches. by rewrite Ha.
  - split; simpl.
    + intros p j Hp. simpl in *. rewrite length_app. simpl.
      apply lookup_insert_Some in Hp as [[_ <-] | [_ Hp]]; [lia | apply H in Hp; lia].
    + rewrite length_app. lia.
    + intros q _ Hq. apply lookup_insert_ne. congruence.
    + intros q j Hq. apply lookup_insert_Some in Hq as [[<- <-] | [_ Hq]]; auto.
    + intros j Hj _. unfold content. simpl. by rewrite lookup_app_l.
Qed.

Lemma changed_rename w f f' :
  valid f -> rename (tmp_path (target w)) (target w) f = Some f' -> changed w f f'.
Proof.
  intros H Hr. unfold rename in Hr. destruct (names f !! tmp_path (target w)) as [i|] eqn:E; [| done].
  cbn [mbind option_bind] in Hr. case_bool_decide; injection Hr as <-; [by apply changed_refl |].
  split; simpl; auto.
  - intros p j Hp. simpl in *. apply lookup_insert_Some in Hp as [[_ <-] | [_ Hp]]; [by eapply H |].
    apply lookup_delete_Some in Hp as [_ Hp]. by eapply H.
  - intros q H1 H2. by rewrite lookup_insert_ne, lookup_delete_ne by congruence.
  - intros q j Hq. apply lookup_insert_Some in Hq as [[<- <-] | [_ Hq]]; [auto |].
    apply lookup_delete_Some in Hq as [_ Hq]. auto.
Qed.

Lemma changed_unlink w f f' :
  valid f -> unlink (tmp_path (target w)) f = Some f' -> changed w f f'.
Proof.
  intros H Hr. unfold unlink in Hr. destruct (names f !! tmp_path (target w)) as [i|] eqn:E; [| done].
  injection Hr as <-. split; simpl; auto.
  - intros p j Hp. simpl in *. apply lookup_delete_Some in Hp as [_ Hp]. by eapply H.
  - intros q _ Hq. by apply lookup_delete_ne.
  - intros q j Hq. apply lookup_delete_Some in Hq as [_ Hq]. auto.
Qed.

Lemma step_changed a w f : valid f -> changed w f (writer_step a w f).2.
Proof.
  intros H. unfold writer_step. destruct (at_ w) as [| i | i total | total | | b] eqn:Ha.
  - destruct a; [by apply changed_refl |].
    pose proof (changed_open w f H Ha) as Hc. by destruct (open_trunc _ f).
  - destruct a; [by apply changed_refl |]. apply changed_content; [done |]. intros j ->. unfold touches. by rewrite Ha.
  - destruct (size w <=? total); [by apply changed_refl |]. destruct a; [by apply changed_refl |].
    destruct (read_source _ _ _ _); [by apply changed_refl |].
    apply changed_content; [done |]. intros j ->. unfold touches. by rewrite Ha.
  - destruct a; [by apply changed_refl |]. destruct (rename _ _ f) eqn:Hr; [by eapply changed_rename | by apply changed_refl].
  - simpl. destruct a; [by apply changed_refl |].
    destruct (unlink _ f) eqn:Hr; [by eapply changed_unlink | by apply changed_refl].
  - by apply changed_refl.
Qed.

Lemma step_target a w f :
  target (writer_step a w f).1 = target w /\ src (writer_step a w f).1 = src w /\ size (writer_step a w f).1 = size w.
Proof.
  unfold writer_step. destruct (at_ w); repeat case_match; simplify_eq; done.
Qed.

(** ** Several writers

    [f0] is the file system when they start. *)

Section Writers.
Context (f0 : fs).

Definition data_of (w : writer) : list Z := match src w with Buffer d => d | Open_file i => content f0 i end.

Definition kept (f : fs) (w : writer) : Prop := names f !! target w = names f0 !! target w.

(** Inode [i] has the one name [p], and did not have another when the writers
    started. *)
Definition private (f : fs) (w : writer) (i : nat) (p : path) : Prop :=
  names f !! p = Some i /\ (forall q, names f !! q = Some i -> q = p) /\
  (length (inodes f0) <= i \/ names f0 !! tmp_path (target w) = Some i).

(** The first [n] bytes have been written; the rest may have been allocated. *)
Definition written (f : fs) (w : writer) (i n : nat) : Prop :=
  n <= size w /\ exists k, (k = 0 \/ k = size w - n) /\ content f i = take n (data_of w) ++ replicate k 0%Z.

Definition writer_ok (f : fs) (w : writer) : Prop :=
  match at_ w with
  | Opening => kept f w /\ forall j, names f !! tmp_path (target w) = Some j -> private f w j (tmp_path (target w))
  | Allocating i => kept f w /\ private f w i (tmp_path (target w)) /\ content f i = []
  | Looping i n => kept f w /\ private f w i (tmp_path (target w)) /\ written f w i n
  | Renaming n => kept f w /\ exists i, private f w i (tmp_path (target w)) /\ written f w i n
  | Deleting => kept f w
  | Done true => exists i, private f w i (target w) /\ content f i = data_of w
  | Done false => kept f w \/ exists i n, private f w i (target w) /\ written f w i n /\ n < size w
  end.

(** A writer is untouched by a call of another one. *)
Lemma private_other f f' w w' i p :
  valid f -> changed w' f f' -> p <> target w' -> p <> tmp_path (target w') -> private f w i p ->
  private f' w i p.
Proof.
  intros Hv Hc H1 H2 (Hp & Hu & Hn). split; [by rewrite (ch_names _ _ _ Hc) |]. split; [| exact Hn].
  intros q Hq. destruct (ch_new _ _ _ Hc q i Hq) as [Hq' | [[-> ->] | [-> Hq']]]; [by apply Hu | |].
  - apply Hv in Hp. lia.
  - apply Hu in Hq'. congruence.
Qed.

Lemma untouched f w' i p :
  writer_ok f w' -> names f !! p = Some i -> (forall q, names f !! q = Some i -> q = p) ->
  p <> tmp_path (target w') -> ~ touches w' f i.
Proof.
  intros Hok Hp Hu Hne Ht. unfold touches in Ht. unfold writer_ok in Hok.
  destruct (at_ w'); try done; [by apply Hu in Ht | |]; subst;
    destruct Hok as (_ & (Hq & _) & _); by apply Hu in Hq.
Qed.

Lemma other_ok f f' w w' :
  valid f -> changed w' f f' -> writer_ok f w' -> writer_ok f w ->
  target w <> target w' -> target w <> tmp_path (target w') -> tmp_path (target w) <> target w' ->
  writer_ok f' w.
Proof.
  intros Hv Hc Hok' Hok H1 H2 H3.
  assert (tmp_path (target w) <> tmp_path (target w')) as H4.
  { unfold tmp_path, AppendExtension. intros E. by apply app_inv_tail in E. }
  assert (kept f w -> kept f' w) as Hk by (unfold kept; by rewrite (ch_names _ _ _ Hc)).
  assert (forall i p, p <> target w' -> p <> tmp_path (target w') -> private f w i p ->
            private f' w i p /\ content f' i = content f i) as Hpr.
  { intros i p Hp1 Hp2 Hp. split; [by eapply private_other |]. destruct Hp as (Hp & Hu & _).
    apply (ch_content _ _ _ Hc); [by eapply Hv | by eapply untouched]. }
  assert (forall i p n, p <> target w' -> p <> tmp_path (target w') -> private f w i p -> written f w i n ->
            private f' w i p /\ written f' w i n) as Hw.
  { intros i p n Hp1 Hp2 Hp (Hn & k & Hk' & Hcn). destruct (Hpr i p Hp1 Hp2 Hp) as [Hp' Hc'].
    split; [exact Hp' |]. split; [exact Hn |]. exists k. split; [exact Hk' | congruence]. }
  unfold writer_ok in *. destruct (at_ w) as [| i | i n | n | | []].
  - destruct Hok as [Hk0 Ho]. split; [auto |]. intros j Hj. rewrite (ch_names _ _ _ Hc) in Hj by done.
    apply (Hpr j); auto.
  - destruct Hok as (Hk0 & Hp & Hc0). destruct (Hpr i _ H3 H4 Hp). split; [auto |]. split; [done | congruence].
  - destruct Hok as (Hk0 & Hp & Hw0). destruct (Hw i _ n H3 H4 Hp Hw0). auto.
  - destruct Hok as (Hk0 & i & Hp & Hw0). destruct (Hw i _ n H3 H4 Hp Hw0). eauto.
  - auto.
  - destruct Hok as (i & Hp & Hc0). destruct (Hpr i _ H1 H2 Hp). exists i. split; [done | congruence].
  - destruct Hok as [Hk0 | (i & n & Hp & Hw0 & Hn)]; [auto |]. destruct (Hw i _ n H1 H2 Hp Hw0). right. eauto.
Qed.

(** The source of a copy still has its contents. *)
Definition source_ok (f : fs) (w : writer) : Prop :=
  size w = length (data_of w) /\ match src w with Buffer _ => True | Open_file i => content f i = content f0 i end.

Lemma private_names f f' w i p : names f' = names f -> private f w i p -> private f' w i p.
Proof. intros H. unfold private. by rewrite H. Qed.

Lemma private_goto f w i p c : private f (goto c w) i p <-> private f w i p.
Proof. done. Qed.

Lemma read_source_data f w n offset :
  source_ok f w -> read_source (src w) offset n f = take n (drop offset (data_of w)).
Proof. intros [_ Hs]. unfold read_source, data_of. destruct (src w); [done | by rewrite Hs]. Qed.

Lemma written_write f w i total n :
  source_ok f w -> i < length (inodes f) -> written f w i total ->
  let d := take (Nat.min n (size w - total)) (drop total (data_of w)) in
  written (write_at i total d f) w i (total + length d).
Proof.
  intros [Hsize _] Hi (Hn & k & Hk & Hc) d.
  assert (length d = Nat.min n (size w - total)) as Hd by (unfold d; rewrite length_take, length_drop; lia).
  split; [lia |]. exists (k - length d). split; [lia |].
  unfold write_at. rewrite content_set_eq by done. rewrite Hc.
  rewrite take_app_le, take_take, Nat.min_id by (rewrite length_take; lia).
  replace (total - _) with 0 by (rewrite length_app, length_take; lia). simpl.
  rewrite drop_app_ge by (rewrite length_take; lia). rewrite length_take, drop_replicate.
  replace (k - (total + length d - total `min` length (data_of w))) with (k - length d) by lia.
  rewrite app_assoc. f_equal.
  replace (total + length d) with (total + (Nat.min n (size w - total))) by lia. unfold d.
  by rewrite take_take_drop.
Qed.

Lemma private_renamed f f' w i :
  private f w i (tmp_path (target w)) -> rename (tmp_path (target w)) (target w) f = Some f' ->
  private f' w i (target w) /\ inodes f' = inodes f.
Proof.
  intros (Hp & Hu & Hn) Hr. unfold rename in Hr. rewrite Hp in Hr. cbn [mbind option_bind] in Hr.
  case_bool_decide as Ht; [apply Hu in Ht; by destruct (tmp_path_ne (target w)) |]. injection Hr as <-.
  split; [| done]. split; [apply lookup_insert_eq |]. split; [| done]. simpl.
  intros q Hq. apply lookup_insert_Some in Hq as [[<- _] | [_ Hq]]; [done |].
  apply lookup_delete_Some in Hq as [Hne Hq]. apply Hu in Hq. congruence.
Qed.

Lemma own_ok a f w :
  valid f -> length (inodes f0) <= length (inodes f) -> source_ok f w -> writer_ok f w ->
  writer_ok (writer_step a w f).2 (writer_step a w f).1.
Proof.
  intros Hv Hlen Hs Hok. unfold writer_step. unfold writer_ok in Hok.
  destruct (at_ w) as [| i | i n | n | | b] eqn:Ha.
  - destruct Hok as [Hk Ho]. destruct a; [by left |]. unfold open_trunc.
    destruct (names f !! tmp_path (target w)) as [j|] eqn:Hj; simpl.
    + destruct (Ho j eq_refl) as (Hp & Hu & Hn). split; [exact Hk |]. split; [by split |].
      apply content_set_eq. by eapply Hv.
    + split; [unfold kept; simpl; rewrite lookup_insert_ne by apply tmp_path_ne; exact Hk |]. split.
      * split; [apply lookup_insert_eq |]. split; [| by left]. simpl. intros q Hq.
        apply lookup_insert_Some in Hq as [[<- _] | [_ Hq]]; [done |]. apply Hv in Hq. lia.
      * unfold content. simpl. by rewrite lookup_app_r, Nat.sub_diag.
  - destruct Hok as (Hk & Hp & Hc). destruct a; simpl.
    + split; [exact Hk |]. split; [exact Hp |]. split; [lia |]. exists 0. split; [lia |]. by rewrite Hc.
    + split; [exact Hk |]. split; [exact Hp |]. split; [lia |]. exists (size w). split; [simpl; right; lia |].
      unfold allocate. rewrite content_set_eq by by eapply Hv, Hp. rewrite Hc. simpl. by rewrite Nat.sub_0_r.
  - destruct Hok as (Hk & Hp & Hw). destruct (Nat.leb_spec (size w) n); [by split; [| exists i] |].
    destruct a as [| m]; [by split; [| exists i] |]. rewrite read_source_data by done.
    pose proof (written_write f w i n m Hs (Hv _ _ (proj1 Hp)) Hw) as Hw'. cbv zeta in Hw'.
    destruct (take _ _) as [| z d] eqn:Hd; [by split; [| exists i] |].
    split; [exact Hk |]. split; [exact Hp | exact Hw'].
  - destruct Hok as (Hk & i & Hp & Hw). destruct a; [exact Hk |].
    destruct (rename _ _ f) as [f'|] eqn:Hr; [| exact Hk]. simpl.
    destruct (private_renamed f f' w i Hp Hr) as [Hp' Hi]. destruct Hw as (Hn & k & Hk' & Hc).
    assert (content f' i = content f i) as Hci by (unfold content; by rewrite Hi).
    destruct (Nat.eqb_spec n (size w)) as [-> | Hne].
    + exists i. split; [exact Hp' |]. rewrite Hci, Hc. replace k with 0 by lia. simpl.
      rewrite app_nil_r. destruct Hs as [-> _]. change (data_of (goto _ w)) with (data_of w). by rewrite firstn_all.
    + right. exists i, n. split; [exact Hp' |]. split; [| simpl; lia]. split; [done |]. exists k.
      split; [exact Hk' | by rewrite Hci, Hc].
  - simpl. left. unfold kept in *. destruct a; [exact Hok |]. destruct (unlink _ f) eqn:Hr; [| exact Hok].
    unfold unlink in Hr. destruct (names f !! tmp_path (target w)); [| done]. injection Hr as <-. simpl.
    by rewrite lookup_delete_ne by apply tmp_path_ne.
  - simpl. unfold writer_ok. by rewrite Ha.
Qed.

Inductive step : list writer * fs -> list writer * fs -> Prop :=
| step_writer ws k w a f :
    ws !! k = Some w -> result_of w = None ->
    step (ws, f) (<[k := (writer_step a w f).1]> ws, (writer_step a w f).2).

(** Two writers are apart: neither writes the other's target or temporary file. *)
Definition apart (w w' : writer) : Prop :=
  target w <> target w' /\ target w <> tmp_path (target w') /\ tmp_path (target w) <> target w'.

Definition protected (ws : list writer) (i : nat) : Prop :=
  i < length (inodes f0) /\ forall k w, ws !! k = Some w -> names f0 !! tmp_path (target w) <> Some i.

(** The writers are apart, a temporary file that exists already has no other name,
    and what is copied is not such a file. *)
Record safe (ws : list writer) : Prop := {
  sa_apart : forall k k' w w', ws !! k = Some w -> ws !! k' = Some w' -> k <> k' -> apart w w';
  sa_unshared : forall k w i q, ws !! k = Some w -> names f0 !! tmp_path (target w) = Some i ->
                names f0 !! q = Some i -> q = tmp_path (target w);
  sa_source : forall k w, ws !! k = Some w -> size w = length (data_of w) /\
              match src w with Buffer _ => True | Open_file i => protected ws i end
}.

Record inv (ws : list writer) (f : fs) : Prop := {
  in_safe : safe ws;
  in_valid : valid f;
  in_length : length (inodes f0) <= length (inodes f);
  in_names : forall q, (forall k w, ws !! k = Some w -> q <> target w /\ q <> tmp_path (target w)) ->
             names f !! q = names f0 !! q;
  in_protected : forall i, protected ws i -> content f i = content f0 i;
  in_ok : forall k w, ws !! k = Some w -> writer_ok f w
}.

(** What does not change about a writer. *)
Definition same_job (w w' : writer) : Prop := target w = target w' /\ src w = src w' /\ size w = size w'.

Lemma replaced_lookup (ws : list writer) k (w w1 : writer) j x :
  ws !! k = Some w -> same_job w1 w -> <[k := w1]> ws !! j = Some x -> exists y, ws !! j = Some y /\ same_job x y.
Proof.
  intros Hk Hj [(<- & <- & _) | (Hne & Hx)]%list_lookup_insert_Some; [by exists w |]. exists x. by repeat split.
Qed.

Lemma protected_same ws k w w1 i : ws !! k = Some w -> same_job w1 w -> protected ws i <-> protected (<[k := w1]> ws) i.
Proof.
  intros Hk Hj. split; intros [Hi Hp]; (split; [done |]); intros j x Hx.
  - destruct (replaced_lookup ws k w w1 j x Hk Hj Hx) as (y & Hy & -> & _). by eapply Hp.
  - destruct (decide (k = j)) as [<- | Hne].
    + replace x with w by congruence. destruct Hj as (<- & _). apply (Hp k). apply list_lookup_insert_eq.
      by eapply lookup_lt_Some.
    + apply (Hp j). by rewrite list_lookup_insert_ne.
Qed.

Lemma safe_same ws k w w1 : ws !! k = Some w -> same_job w1 w -> safe ws -> safe (<[k := w1]> ws).
Proof.
  intros Hk Hj [Ha Hu Hs]. split.
  - intros j j' x x' Hx Hx' Hne. apply (replaced_lookup _ _ w) in Hx as (y & Hy & Ty & _); [| done ..].
    apply (replaced_lookup _ _ w) in Hx' as (y' & Hy' & Ty' & _); [| done ..].
    unfold apart. rewrite Ty, Ty'. by eapply Ha.
  - intros j x i q Hx. apply (replaced_lookup _ _ w) in Hx as (y & Hy & -> & _); [| done ..]. by eapply Hu.
  - intros j x Hx. apply (replaced_lookup _ _ w) in Hx as (y & Hy & _ & Es & Ez); [| done ..].
    destruct (Hs j y Hy) as [Hsz Hp]. unfold data_of in *. rewrite Es, Ez. split; [exact Hsz |].
    destruct (src y); [done |]. by rewrite <- protected_same.
Qed.

(** A call of a writer that is as it should be changes no protected file. *)
Lemma protected_untouched ws f k w i : inv ws f -> ws !! k = Some w -> protected ws i -> ~ touches w f i.
Proof.
  intros Hi Hk [Hlt Hp] Ht. pose proof (in_ok _ _ Hi k w Hk) as Hok. specialize (Hp k w Hk).
  unfold touches in Ht. unfold writer_ok in Hok. destruct (at_ w); try done; subst.
  - destruct Hok as [_ Ho]. destruct (Ho i Ht) as (_ & _ & [|]); [lia | done].
  - destruct Hok as (_ & (_ & _ & [|]) & _); [lia | done].
  - destruct Hok as (_ & (_ & _ & [|]) & _); [lia | done].
Qed.

Lemma writers_step ws f ws' f' : inv ws f -> step (ws, f) (ws', f') -> inv ws' f'.
Proof.
  intros Hi Hs. inversion Hs as [ws1 k w a f1 Hk Hr E1 E2]; subst.
  destruct (step_target a w f) as (Ht & Es & Ez).
  assert (same_job (writer_step a w f).1 w) as Hj by (by repeat split).
  pose proof (step_changed a w f (in_valid _ _ Hi)) as Hc.
  pose proof (sa_apart _ (in_safe _ _ Hi)) as Ha.
  split.
  - by eapply safe_same; [exact Hk | exact Hj | apply Hi].
  - apply Hc.
  - pose proof (in_length _ _ Hi). pose proof (ch_length _ _ _ Hc). lia.
  - intros q Hq.
    assert (q <> target w /\ q <> tmp_path (target w)) as [H1 H2].
    { destruct (Hq k (writer_step a w f).1) as [H1 H2]; [apply list_lookup_insert_eq; by eapply lookup_lt_Some |].
      by rewrite Ht in H1, H2. }
    rewrite (ch_names _ _ _ Hc q H1 H2). apply (in_names _ _ Hi). intros j x Hx.
    destruct (decide (k = j)) as [<- | Hne]; [replace x with w by congruence; done |].
    apply (Hq j). by rewrite list_lookup_insert_ne.
  - intros i Hp. rewrite <- protected_same in Hp by done. rewrite <- (in_protected _ _ Hi i Hp).
    apply (ch_content _ _ _ Hc); [| by eapply protected_untouched].
    destruct Hp. pose proof (in_length _ _ Hi). lia.
  - intros j x [(<- & <- & _) | (Hne & Hx)]%list_lookup_insert_Some.
    + apply own_ok; [apply Hi | apply Hi | | by eapply in_ok].
      destruct (sa_source _ (in_safe _ _ Hi) k w Hk) as [Hsz Hsrc]. split; [exact Hsz |].
      destruct (src w); [done |]. by apply (in_protected _ _ Hi).
    + destruct (Ha j k x w Hx Hk ltac:(done)) as (A1 & A2 & A3).
      eapply other_ok; [apply Hi | exact Hc | by eapply in_ok | by eapply in_ok | done ..].
Qed.

(** The number of calls that a writer can still make. *)
Definition cost (w : writer) : nat :=
  match at_ w with
  | Opening => size w + 5
  | Allocating _ => size w + 4
  | Looping _ n => size w - n + 3
  | Renaming _ => 2
  | Deleting => 1
  | Done _ => 0
  end.

Lemma step_cost a w f : result_of w = None -> cost (writer_step a w f).1 < cost w.
Proof.
  intros Hr. unfold writer_step, result_of, cost in *. destruct (at_ w) as [| i | i n | n | | b] eqn:Ha; try done; simpl.
  - destruct a; simpl; [lia |]. destruct (open_trunc _ f). simpl. lia.
  - lia.
  - destruct (Nat.leb_spec (size w) n); simpl; [lia |]. destruct a; simpl; [lia |].
    destruct (read_source _ _ _ _) as [| z d] eqn:Hd; simpl; lia.
  - destruct a; simpl; [lia |]. destruct (rename _ _ f); simpl; lia.
  - lia.
Qed.

Definition starting (ws : list writer) : Prop :=
  valid f0 /\ safe ws /\ forall k w, ws !! k = Some w -> at_ w = Opening.

Lemma starting_inv ws : starting ws -> inv ws f0.
Proof.
  intros (Hv & Hs & Ho). split; try done. intros k w Hk. unfold writer_ok. rewrite (Ho k w Hk).
  split; [done |]. intros j Hj. split; [exact Hj |]. split; [| by right]. intros q. by eapply sa_unshared.
Qed.

Lemma view_kept ws f q :
  valid f0 -> inv ws f -> names f !! q = names f0 !! q ->
  (forall k w, ws !! k = Some w -> q <> tmp_path (target w)) -> view f !! q = view f0 !! q.
Proof.
  intros Hv Hi Hq Hne. unfold view. rewrite !lookup_fmap, Hq. destruct (names f0 !! q) as [i|] eqn:E; [| done].
  simpl. f_equal. apply (in_protected _ _ Hi). split; [by eapply Hv |]. intros k w Hk Ht.
  apply (Hne k w Hk). by eapply (sa_unshared _ (in_safe _ _ Hi)).
Qed.

Lemma sum_insert_lt {A} (g : A -> nat) l k x y :
  l !! k = Some x -> g y < g x -> sum_list_with g (<[k := y]> l) < sum_list_with g l.
Proof.
  revert k. induction l as [| z l IH]; intros [|k] Hk Hlt; simplify_eq/=; [lia |].
  specialize (IH k Hk Hlt). lia.
Qed.

(** A run: the invariant, the same jobs, and the calls it took. *)
Lemma writers_run s n s' :
  nsteps step n s s' -> inv s.1 s.2 ->
  inv s'.1 s'.2 /\ n + sum_list_with cost s'.1 <= sum_list_with cost s.1 /\
  (forall i, protected s.1 i <-> protected s'.1 i) /\
  (forall k x, s'.1 !! k = Some x -> exists y, s.1 !! k = Some y /\ same_job x y).
Proof.
  induction 1 as [s | n s1 s2 s3 H1 _ IH]; intros Hi.
  - split; [done |]. split; [lia |]. split; [done |]. intros k x Hx. exists x. by repeat split.
  - inversion H1 as [ws k w a f Hk Hr E1 E2]; subst.
    assert (same_job (writer_step a w f).1 w) as Hj by (pose proof (step_target a w f) as (? & ? & ?); by repeat split).
    destruct IH as (Hi' & Hn & Hp & Hl); [by eapply writers_step |]. simpl in *.
    pose proof (sum_insert_lt cost ws k _ _ Hk (step_cost a w f Hr)).
    split; [exact Hi' |]. split; [lia |]. split.
    + intros i. rewrite (protected_same ws k w _ i Hk Hj). apply Hp.
    + intros j x Hx. destruct (Hl j x Hx) as (y & Hy & T & S & Z).
      destruct (replaced_lookup ws k w _ j y Hk Hj Hy) as (z & Hz & T' & S' & Z'). exists z.
      split; [exact Hz |]. repeat split; congruence.
Qed.

(** What the files are at any moment of a run. *)
Lemma writers_files ws0 n ws f :
  starting ws0 -> nsteps step n (ws0, f0) (ws, f) ->
  (forall k w, ws !! k = Some w ->
     (result_of w = Some true -> view f !! target w = Some (data_of w)) /\
     (view f !! target w = view f0 !! target w \/
      exists m pad, result_of w = Some (m =? size w) /\ m <= size w /\
        (pad = 0 \/ pad = size w - m) /\ view f !! target w = Some (take m (data_of w) ++ replicate pad 0%Z))) /\
  (forall q, (forall k w, ws0 !! k = Some w -> q <> target w /\ q <> tmp_path (target w)) ->
     view f !! q = view f0 !! q) /\
  (forall i, protected ws0 i -> content f i = content f0 i).
Proof.
  intros Hst Hn. destruct (writers_run _ _ _ Hn (starting_inv ws0 Hst)) as (Hi & _ & Hp & Hl). simpl in *.
  destruct Hst as (Hv & Hs & Ho).
  assert (forall k w, ws !! k = Some w -> forall j w', ws !! j = Some w' -> target w <> tmp_path (target w')) as Htt.
  { intros k w Hk j w' Hj. destruct (decide (k = j)) as [<- | Hne].
    - replace w' with w by congruence. intros E. symmetry in E. by apply tmp_path_ne in E.
    - by destruct (sa_apart _ (in_safe _ _ Hi) k j w w' Hk Hj Hne) as (_ & ? & _). }
  split; [| split].
  - intros k w Hk. pose proof (in_ok _ _ Hi k w Hk) as Hok. unfold writer_ok in Hok.
    assert (kept f w -> view f !! target w = view f0 !! target w) as Hkept.
    { intros Hk'. eapply view_kept; [done | done | exact Hk' |]. by apply (Htt k). }
    assert (forall i c, private f w i (target w) -> content f i = c -> view f !! target w = Some c) as Hview.
    { intros i c (E & _) <-. unfold view. by rewrite lookup_fmap, E. }
    unfold result_of. destruct (at_ w) as [| i | i m | m | | []]; (split; [try done |]); try (left; by apply Hkept, Hok).
    + intros _. destruct Hok as (i & Hpr & Hcn). by eapply Hview.
    + right. destruct Hok as (i & Hpr & Hcn). exists (size w), 0. rewrite Nat.eqb_refl. split; [done |]. split; [done |]. split; [by left |].
      destruct (sa_source _ (in_safe _ _ Hi) k w Hk) as [-> _]. simpl. rewrite firstn_all, app_nil_r. by eapply Hview.
    + destruct Hok as [Hk' | (i & m & Hpr & (Hm & pad & Hpad & Hcn) & Hlt)]; [left; by apply Hkept |].
      right. exists m, pad. split; [f_equal; symmetry; apply Nat.eqb_neq; lia |]. split; [exact Hm |]. split; [exact Hpad |]. by eapply Hview.
  - intros q Hq.
    assert (forall k w, ws !! k = Some w -> q <> target w /\ q <> tmp_path (target w)) as Hq'.
    { intros k w Hk. destruct (Hl k w Hk) as (y & Hy & -> & _). by apply (Hq k). }
    eapply view_kept; [done | done | by apply (in_names _ _ Hi) |]. intros k w Hk. by apply (Hq' k w Hk).
  - intros i Hi'. apply (in_protected _ _ Hi). by apply Hp.
Qed.

(** C10: files are replaced, not changed.  In every interleaving of the calls of
    writers that are apart, whatever the calls answer: every target has, at any
    moment, the contents that it had at the start, or, once its writer is done, a
    beginning of what that was to write, perhaps with zeros after it, and exactly
    all of it when the writer reports success; all other files keep their
    contents, and so do all inodes but those of left-over temporary files, that
    is, the other hard links of a target and the files that are open for reading;
    and the writers are done after at most five calls and one per byte. *)
Theorem writes_atomic ws0 n ws f :
  starting ws0 -> nsteps step n (ws0, f0) (ws, f) ->
  (forall k w, ws !! k = Some w ->
     (result_of w = Some true -> view f !! target w = Some (data_of w)) /\
     (view f !! target w = view f0 !! target w \/
      exists m pad, result_of w = Some (m =? size w) /\ m <= size w /\
        (pad = 0 \/ pad = size w - m) /\ view f !! target w = Some (take m (data_of w) ++ replicate pad 0%Z))) /\
  (forall q, (forall k w, ws0 !! k = Some w -> q <> target w /\ q <> tmp_path (target w)) ->
     view f !! q = view f0 !! q) /\
  (forall i, protected ws0 i -> content f i = content f0 i) /\
  n + sum_list_with cost ws <= sum_list_with cost ws0.
Proof.
  intros Hst Hn. destruct (writers_files ws0 n ws f Hst Hn) as (H1 & H2 & H3). split; [exact H1 |].
  split; [exact H2 |]. split; [exact H3 |].
  by destruct (writers_run _ _ _ Hn (starting_inv ws0 Hst)) as (_ & H & _).
Qed.

End Writers.

(** ** One writer *)

Lemma run_writer_steps answers w f :
  exists n, nsteps step n ([w], f) ([(run_writer answers w f).1], (run_writer answers w f).2).
Proof.
  revert w f. induction answers as [| a answers IH]; intros w f; simpl; [exists 0; constructor |].
  destruct (result_of w) as [b|] eqn:Hr.
  - assert (writer_step a w f = (w, f)) as -> by (unfold result_of, writer_step in *; by destruct (at_ w)). apply IH.
  - destruct (writer_step a w f) as [w1 f1] eqn:E. destruct (IH w1 f1) as [n Hn]. exists (S n).
    eapply nsteps_l; [| exact Hn]. pose proof (step_writer [w] 0 w a f eq_refl Hr) as Hs. by rewrite E in Hs.
Qed.

(** With enough answers the writer ends. *)
Lemma run_writer_ends answers w f : cost w <= length answers -> result_of (run_writer answers w f).1 <> None.
Proof.
  revert w f. induction answers as [| a answers IH]; intros w f Hc; simpl in *.
  - destruct (result_of w) eqn:Hr; [done |]. pose proof (step_cost Fails w f Hr). lia.
  - destruct (result_of w) as [b|] eqn:Hr.
    + assert (writer_step a w f = (w, f)) as -> by (unfold result_of, writer_step in *; by destruct (at_ w)).
      apply IH. unfold cost, result_of in *. destruct (at_ w); try done. lia.
    + pose proof (step_cost a w f Hr). destruct (writer_step a w f) as [w1 f1]. apply IH. simpl in *. lia.
Qed.

(** No other file shares the inode of a left-over temporary file of [p]. *)
Definition tmp_unshared (p : path) (f : fs) : Prop :=
  forall i q, names f !! tmp_path p = Some i -> names f !! q = Some i -> q = tmp_path p.

Definition opening (p : path) (s : source) (size : nat) : writer := {| target := p; src := s; size := size; at_ := Opening |}.

Lemma one_starting f p s n :
  valid f -> tmp_unshared p f -> n = length (data_of f (opening p s n)) ->
  match s with Buffer _ => True | Open_file i => i < length (inodes f) /\ names f !! tmp_path p <> Some i end ->
  starting f [opening p s n].
Proof.
  intros Hv Hu Hn Hs. split; [done |]. split; [| by intros [|k] w Hk; simplify_eq/=].
  split.
  - intros [|k] [|k'] w w' Hk Hk' Hne; by simplify_eq/=.
  - intros [|k] w i q Hk; simplify_eq/=. apply Hu.
  - intros [|k] w Hk; simplify_eq/=. split; [exact Hn |]. destruct s as [| i]; [done |]. destruct Hs as [Hi Hne].
    split; [done |]. intros [|k] w Hk; by simplify_eq/=.
Qed.

(** What a finished writer leaves. *)
Definition replaced (f f' : fs) (p : path) (data : list Z) (b : bool) : Prop :=
  (if b then view f' !! p = Some data
   else view f' !! p = view f !! p \/
        exists m pad, m < length data /\ (pad = 0 \/ pad = length data - m) /\
          view f' !! p = Some (take m data ++ replicate pad 0%Z)) /\
  (forall q, q <> p -> q <> tmp_path p -> view f' !! q = view f !! q) /\
  (forall i, i < length (inodes f) -> names f !! tmp_path p <> Some i -> content f' i = content f i).

Lemma run_writer_replaced answers f p s b f' w :
  let data := match s with Buffer d => d | Open_file i => content f i end in
  valid f -> tmp_unshared p f ->
  match s with Buffer _ => True | Open_file i => i < length (inodes f) /\ names f !! tmp_path p <> Some i end ->
  run_writer answers (opening p s (length data)) f = (w, f') -> result_of w = Some b ->
  replaced f f' p data b.
Proof.
  intros data Hv Hu Hs Hr Hb.
  assert (data_of f (opening p s (length data)) = data) as Hd by done.
  pose proof (one_starting f p s (length data) Hv Hu eq_refl Hs) as Hst.
  destruct (run_writer_steps answers (opening p s (length data)) f) as [n Hn]. rewrite Hr in Hn. simpl in Hn.
  destruct (writers_run _ _ _ _ Hn (starting_inv _ _ Hst)) as (_ & _ & _ & Hl). simpl in Hl.
  destruct (Hl 0 w eq_refl) as (y & Hy & T & Sr & Sz). injection Hy as <-. simpl in T, Sr, Sz.
  assert (data_of f w = data) as Hdw by (unfold data_of; by rewrite Sr).
  destruct (writers_files f _ n _ f' Hst Hn) as (Hw & Hq & Hc).
  destruct (Hw 0 w eq_refl) as [Htrue Hany]. rewrite T, Hdw, Sz in *. split; [| split].
  - destruct b; [by apply Htrue |]. destruct Hany as [H | (m & pad & H1 & H2 & H3 & H4)]; [by left |]. right.
    exists m, pad. split; [| by split]. rewrite Hb in H1. injection H1 as H1. symmetry in H1. apply Nat.eqb_neq in H1. lia.
  - intros q H1 H2. apply Hq. intros [|k] x Hx; simplify_eq/=. done.
  - intros i Hi Hne. apply Hc. split; [done |]. intros [|k] x Hx; by simplify_eq/=.
Qed.

Lemma Write_replaced answers p input f b f' :
  valid f -> tmp_unshared p f -> Write answers p input f = Some (b, f') -> replaced f f' p input b.
Proof.
  intros Hv Hu Hw. unfold Write in Hw. fold (opening p (Buffer input) (length input)) in Hw.
  destruct (run_writer _ _ f) as [w f1] eqn:Hr. destruct (result_of w) as [b1|] eqn:Hb; [| done].
  injection Hw as <- <-. by eapply (run_writer_replaced answers f p (Buffer input)).
Qed.

Lemma Write_ends answers p input f : length input + 5 <= length answers -> Write answers p input f <> None.
Proof.
  intros H. unfold Write. pose proof (run_writer_ends answers (opening p (Buffer input) (length input)) f H) as He.
  unfold opening in He. destruct (run_writer _ _ f) as [w f1]. simpl in He. by destruct (result_of w).
Qed.

(** The answers, as far as [FileCache.File_Write] sees them. *)
Definition as_env (p : path) (o : bool) (bytes : option nat) (allocated renamed : bool) : env :=
  {| mkdir_ok := true;
     writes := fun _ => {| w_open := o; w_bytes := bytes; w_allocated := allocated; w_rename := renamed |};
     unlink_ok := fun _ => true; db_set_ok := true; now := 0%Z |}.

(** C11: the write that the cache is proved with is the one that the code makes.
    For every pattern of answers to the system calls of a [File::Write] there are
    answers for which the abstract write of the model of the cache gives the same
    result and the same files, provided that no temporary file was left behind;
    and with enough answers the write ends. *)
Theorem Write_refines answers p input f :
  valid f -> tmp_unshared p f -> length input + 5 <= length answers ->
  exists b f', Write answers p input f = Some (b, f') /\ valid f' /\
    (names f' !! tmp_path p = None -> exists e, File_Write e p input (view f) = (b, view f')).
Proof.
  intros Hv Hu Ha. destruct (Write answers p input f) as [[b f']|] eqn:Hw; [| by destruct (Write_ends _ _ _ _ Ha Hw)].
  exists b, f'. split; [done |]. split.
  { unfold Write in Hw. fold (opening p (Buffer input) (length input)) in Hw.
    destruct (run_writer_steps answers (opening p (Buffer input) (length input)) f) as [n Hn].
    destruct (run_writer _ _ f) as [w f1]. destruct (result_of w); [| done]. injection Hw as <- <-.
    pose proof (one_starting f p (Buffer input) (length input) Hv Hu eq_refl I) as Hst.
    by destruct (writers_run _ _ _ _ Hn (starting_inv _ _ Hst)) as ([_ ? _ _ _ _] & _). }
  intros Hnone. destruct (Write_replaced _ _ _ _ _ _ Hv Hu Hw) as (Hp & Hq & _).
  assert (view f' !! tmp_path p = None) as Htmp by (unfold view; by rewrite lookup_fmap, Hnone).
  pose proof (tmp_path_ne p) as Hne.
  assert (forall v, view f' !! p = v -> (forall q, q <> p -> (delete (tmp_path p) (view f)) !! q = view f' !! q)) as Hrest.
  { intros v _ q Hqp. destruct (decide (q = tmp_path p)) as [-> | Hqt]; [by rewrite lookup_delete_eq |].
    by rewrite lookup_delete_ne, Hq by done. }
  destruct b.
  - exists (as_env p true None false true). unfold File_Write. simpl. rewrite take_ge, Nat.leb_refl, app_nil_r by lia.
    f_equal. apply map_eq. intros q. destruct (decide (q = p)) as [-> | Hqp]; [by rewrite lookup_insert_eq |].
    rewrite lookup_insert_ne by done. by eapply Hrest.
  - destruct Hp as [Hp | (m & pad & Hm & Hpad & Hp)].
    + exists (as_env p true None false false). unfold File_Write. simpl. f_equal. apply map_eq. intros q.
      destruct (decide (q = p)) as [-> | Hqp]; [| by eapply Hrest].
      by rewrite lookup_delete_ne, Hp by done.
    + exists (as_env p true (Some m) (negb (pad =? 0)) true). unfold File_Write. simpl.
      replace (length input <=? m) with false by (symmetry; apply Nat.leb_gt; lia). f_equal.
      apply map_eq. intros q. destruct (decide (q = p)) as [-> | Hqp].
      * rewrite lookup_insert_eq, Hp. f_equal. f_equal. destruct Hpad as [-> | ->]; [done |].
        destruct (Nat.eqb_spec (length input - m) 0); [lia | done].
      * rewrite lookup_insert_ne by done. by eapply Hrest.
Qed.

(** ** Copying and linking *)

Lemma unlink_valid p f f' : valid f -> unlink p f = Some f' -> valid f' /\ inodes f' = inodes f /\ names f' = delete p (names f).
Proof.
  intros Hv Hu. unfold unlink in Hu. destruct (names f !! p); [| done]. injection Hu as <-. split; [| done].
  intros q i Hq. simpl in *. apply lookup_delete_Some in Hq as [_ Hq]. by eapply Hv.
Qed.

(** The files after [unlink]. *)
Lemma unlinked_view p f f' :
  names f' = delete p (names f) -> inodes f' = inodes f -> view f' = delete p (view f).
Proof.
  intros Hn Hi. unfold view. rewrite Hn, fmap_delete. apply map_eq. intros q.
  rewrite !lookup_delete. case_decide; [done |]. rewrite !lookup_fmap. unfold content. by rewrite Hi.
Qed.

(** What [Copy] leaves: the contents of the source, or, when it fails, the target as
    it was, no target, or an incomplete one.  Nothing else changes, and nothing is
    written to an inode but to that of a left-over temporary file. *)
Definition copied (f f' : fs) (dst : path) (data : list Z) (b : bool) : Prop :=
  (if b then view f' !! dst = Some data
   else view f' !! dst = view f !! dst \/ view f' !! dst = None \/
        exists m pad, m < length data /\ (pad = 0 \/ pad = length data - m) /\
          view f' !! dst = Some (take m data ++ replicate pad 0%Z)) /\
  (forall q, q <> dst -> q <> tmp_path dst -> view f' !! q = view f !! q) /\
  (forall i, i < length (inodes f) -> names f !! tmp_path dst <> Some i -> content f' i = content f i).

Lemma CopyInto_spec unlinked answers i dst f b f' :
  valid f -> tmp_unshared dst f -> i < length (inodes f) -> names f !! tmp_path dst <> Some i ->
  CopyInto unlinked answers i dst f = Some (b, f') -> copied f f' dst (content f i) b.
Proof.
  intros Hv Hu Hi Hne Hc. unfold CopyInto in Hc. destruct unlinked; [injection Hc as <- <-; split; [by left | done] |].
  pose proof (tmp_path_ne dst) as Htd.
  assert (exists f1, default f (unlink dst f) = f1 /\ valid f1 /\ inodes f1 = inodes f /\
            names f1 !! tmp_path dst = names f !! tmp_path dst /\
            (forall q j, names f1 !! q = Some j -> names f !! q = Some j) /\
            (view f1 !! dst = None) /\ forall q, q <> dst -> view f1 !! q = view f !! q)
    as (f1 & E & Hv1 & Hi1 & Ht1 & Hn1 & Hd1 & Hq1).
  { destruct (unlink dst f) as [f1|] eqn:E.
    - exists f1. destruct (unlink_valid dst f f1 Hv E) as (? & Hi1 & Hn1). pose proof (unlinked_view dst f f1 Hn1 Hi1) as Hvw.
      split_and!; [done | done | done | rewrite Hn1; by apply lookup_delete_ne | | rewrite Hvw; apply lookup_delete_eq |].
      + intros q j. rewrite Hn1. by intros [_ ?]%lookup_delete_Some.
      + intros q Hq. rewrite Hvw. by apply lookup_delete_ne.
    - exists f. unfold unlink in E. destruct (names f !! dst) eqn:Hd; [done |]. split_and!; try done.
      unfold view. by rewrite lookup_fmap, Hd. }
  rewrite E in Hc. assert (content f1 i = content f i) as Hci by (unfold content; by rewrite Hi1).
  destruct (run_writer answers _ f1) as [w f2] eqn:Hr. destruct (result_of w) as [b1|] eqn:Hb; [| done].
  injection Hc as <- <-.
  assert (replaced f1 f2 dst (content f1 i) b1) as (H1 & H2 & H3).
  { apply (run_writer_replaced answers f1 dst (Open_file i) b1 f2 w); [done | | | exact Hr | done].
    - intros j q Hj Hq. apply (Hu j); [by rewrite <- Ht1 | by apply Hn1].
    - rewrite Hi1, Ht1. done. }
  rewrite Hci in H1. split; [| split].
  - destruct b1; [exact H1 |]. destruct H1 as [H1 | H1]; [right; left; congruence | auto].
  - intros q Hq1' Hq2. rewrite H2 by done. by apply Hq1.
  - intros j Hj Hnj. rewrite H3; [unfold content; by rewrite Hi1 | by rewrite Hi1 | by rewrite Ht1].
Qed.

Lemma copied_refl f dst data : copied f f dst data false.
Proof. split; [by left | done]. Qed.

Lemma Copy_spec opened unlinked answers src dst f b f' :
  valid f -> tmp_unshared dst f -> src <> tmp_path dst ->
  Copy opened unlinked answers src dst f = Some (b, f') ->
  copied f f' dst (default [] (view f !! src)) b /\ (b = true -> is_Some (view f !! src)).
Proof.
  intros Hv Hu Hne Hc. unfold Copy in Hc. destruct opened; [injection Hc as <- <-; split; [apply copied_refl | done] |].
  assert (view f !! src = content f <$> names f !! src) as -> by apply lookup_fmap.
  destruct (names f !! src) as [i|] eqn:Hs; simpl; [| injection Hc as <- <-; split; [apply copied_refl | done]].
  split; [| by eexists]. eapply CopyInto_spec; [done | done | by eapply Hv | | exact Hc].
  intros Ht. apply Hne. by eapply Hu.
Qed.

(** A hard link of [src] at [dst]: the contents follow, no inode changes. *)
Lemma linked_copied src dst f f' i :
  names f !! src = Some i -> names f' = <[dst := i]> (names f) -> inodes f' = inodes f ->
  copied f f' dst (default [] (view f !! src)) true.
Proof.
  intros Hs Hn Hi. split; [| split].
  - unfold view. rewrite !lookup_fmap, Hn, Hs, lookup_insert_eq. simpl. unfold content. by rewrite Hi.
  - intros q Hq _. unfold view. rewrite !lookup_fmap, Hn, lookup_insert_ne by done. unfold content. by rewrite Hi.
  - intros j _ _. unfold content. by rewrite Hi.
Qed.

Lemma linkat_linked a src dst f f' :
  linkat a src dst f = inl f' ->
  exists i, names f !! src = Some i /\ names f !! dst = None /\ names f' = <[dst := i]> (names f) /\ inodes f' = inodes f.
Proof.
  unfold linkat. destruct (names f !! src) as [i|]; [| done]. destruct (names f !! dst); [done |].
  destruct a; [done |]. intros [= <-]. by exists i.
Qed.

(** Linking and copying keep the contents and write to no file that had them.
    Between different files, whatever the system calls answer: [Link] ends with
    [true] only when the target has the contents that the source had, and
    otherwise the target is as it was, gone, or incomplete; the source, all other
    files and all inodes, those of the other hard links of the target and of open
    files too, keep their contents, a left-over temporary file apart.  But linking
    a file to itself removes it. *)
Theorem Link_spec link1 unlink1 link2 opened unlinked answers src dst f :
  valid f -> tmp_unshared dst f -> src <> tmp_path dst ->
  (src <> dst -> forall b f', Link link1 unlink1 link2 opened unlinked answers src dst f = Some (b, f') ->
     copied f f' dst (default [] (view f !! src)) b /\ view f' !! src = view f !! src /\
     (b = true -> is_Some (view f !! src))) /\
  (src = dst -> is_Some (names f !! src) -> unlink1 <> Fails ->
     exists f', Link link1 unlink1 link2 opened unlinked answers src dst f = Some (false, f') /\ view f' !! src = None).
Proof.
  intros Hv Hu Hne. split.
  - intros Hsd b f' Hl.
    enough (copied f f' dst (default [] (view f !! src)) b /\ (b = true -> is_Some (view f !! src))) as [Hc Hb].
    { split; [exact Hc |]. split; [| exact Hb]. by apply Hc. }
    assert (forall i, names f !! src = Some i -> is_Some (view f !! src)) as Hsome.
    { intros i Hi. unfold view. rewrite lookup_fmap, Hi. by eexists. }
    unfold Link in Hl. destruct (linkat link1 src dst f) as [f1|[]] eqn:H1.
    + injection Hl as <- <-. destruct (linkat_linked _ _ _ _ _ H1) as (i & Hs & _ & Hn & Hi).
      split; [by eapply linked_copied | by eauto].
    + destruct unlink1; [by eapply Copy_spec |]. destruct (unlink dst f) as [f1|] eqn:H2; [| by eapply Copy_spec].
      destruct (unlink_valid dst f f1 Hv H2) as (Hv1 & Hi1 & Hn1). pose proof (unlinked_view dst f f1 Hn1 Hi1) as Hvw.
      assert (view f1 !! src = view f !! src) as Hs1 by (rewrite Hvw; apply lookup_delete_ne; congruence).
      assert (forall c f2, copied f1 f2 dst c b -> copied f f2 dst c b) as Hback.
      { intros c f2 (C1 & C2 & C3). split; [| split].
        - destruct b; [exact C1 |]. destruct C1 as [C1 | C1]; [| auto].
          right. left. rewrite C1, Hvw. apply lookup_delete_eq.
        - intros q Q1 Q2. rewrite C2 by done. rewrite Hvw. by apply lookup_delete_ne.
        - intros j J1 J2. rewrite C3; [unfold content; by rewrite Hi1 | by rewrite Hi1 |].
          rewrite Hn1, lookup_delete_ne; [done | apply not_eq_sym, tmp_path_ne]. }
      destruct (linkat link2 src dst f1) as [f2|x] eqn:H3.
      * injection Hl as <- <-. destruct (linkat_linked _ _ _ _ _ H3) as (i & Hs & _ & Hn & Hi). split.
        -- apply Hback. rewrite <- Hs1. by eapply linked_copied.
        -- intros _. rewrite Hn1 in Hs. apply lookup_delete_Some in Hs as [_ Hs]. by eauto.
      * rewrite <- Hs1. destruct (Copy_spec _ _ _ _ _ _ _ _ Hv1 ltac:(intros j q; rewrite Hn1, !lookup_delete_Some; intros [_ ?] [_ ?]; by eapply Hu) Hne Hl) as [C1 C2].
        split; [by apply Hback | exact C2].
    + by eapply Copy_spec.
  - intros <- [i Hi] Hun. unfold Link, linkat. rewrite Hi. destruct unlink1; [done |]. unfold unlink. rewrite Hi.
    cbn [mbind option_bind]. unfold Copy. simpl. rewrite lookup_delete_eq.
    eexists {| names := delete src (names f); inodes := inodes f |}. split; [by destruct opened |].
    unfold view. rewrite lookup_fmap. simpl. by rewrite lookup_delete_eq.
Qed.

(** ** A write succeeds when the system does its part *)

(** On the way to success. *)
Definition fine (w : writer) : Prop :=
  match at_ w with
  | Opening | Allocating _ => True
  | Looping _ n => n <= size w
  | Renaming n => n = size w
  | Deleting => False
  | Done b => b = true
  end.

Lemma fine_step f0 n w f :
  n <> 0 -> source_ok f0 f w -> writer_ok f0 f w -> fine w -> fine (writer_step (Takes n) w f).1.
Proof.
  intros Hn Hs Hok Hf. unfold writer_step, fine, writer_ok in *. destruct (at_ w) as [| i | i m | m | | b] eqn:Ha; simpl.
  - by destruct (open_trunc _ f).
  - lia.
  - destruct (Nat.leb_spec (size w) m); [simpl; lia |]. rewrite (read_source_data f0) by done.
    destruct (take _ _) as [| z d] eqn:Hd; simpl.
    + apply (f_equal length) in Hd. rewrite length_take, length_drop in Hd. destruct Hs as [Hs _]. simpl in Hd. lia.
    + apply (f_equal length) in Hd. rewrite length_take, length_drop in Hd. simpl in Hd. lia.
  - destruct Hok as (_ & i & (Hp & _) & _). unfold rename. rewrite Hp. cbn [mbind option_bind].
    by case_bool_decide; simpl; rewrite Hf, Nat.eqb_refl.
  - done.
  - by rewrite Ha.
Qed.

Lemma run_writer_fine f0 answers w f :
  inv f0 [w] f -> fine w -> Forall (fun a => exists n, n <> 0 /\ a = Takes n) answers ->
  fine (run_writer answers w f).1.
Proof.
  intros Hi Hf Ha. revert w f Hi Hf. induction Ha as [| a answers (n & Hn & ->) _ IH]; intros w f Hi Hf; simpl; [done |].
  destruct (result_of w) as [b|] eqn:Hr.
  - assert (writer_step (Takes n) w f = (w, f)) as -> by (unfold result_of, writer_step in *; by destruct (at_ w)). by apply IH.
  - pose proof (step_writer [w] 0 w (Takes n) f eq_refl Hr) as Hs. apply (writers_step f0 _ _ _ _ Hi) in Hs. simpl in Hs.
    assert (fine (writer_step (Takes n) w f).1) as Hf'.
    { apply (fine_step f0); [done | | by eapply (in_ok _ _ _ Hi 0) | done].
      destruct (sa_source _ _ (in_safe _ _ _ Hi) 0 w eq_refl) as [Hsz Hsrc]. split; [exact Hsz |].
      destruct (src w); [done |]. by apply (in_protected _ _ _ Hi). }
    destruct (writer_step (Takes n) w f) as [w1 f1]. by apply IH.
Qed.

(** No call fails and no write takes nothing: the target has the contents. *)
Lemma Write_succeeds answers p input f :
  valid f -> tmp_unshared p f -> length input + 5 <= length answers ->
  Forall (fun a => exists n, n <> 0 /\ a = Takes n) answers ->
  exists f', Write answers p input f = Some (true, f') /\ view f' !! p = Some input.
Proof.
  intros Hv Hu Hl Ha. destruct (Write answers p input f) as [[b f']|] eqn:Hw; [| by destruct (Write_ends _ _ _ _ Hl Hw)].
  assert (b = true) as ->.
  { unfold Write in Hw. fold (opening p (Buffer input) (length input)) in Hw.
    pose proof (one_starting f p (Buffer input) (length input) Hv Hu eq_refl I) as Hst.
    pose proof (run_writer_fine f answers _ f (starting_inv f _ Hst) I Ha) as Hf.
    destruct (run_writer _ _ f) as [w f1]. unfold result_of in Hw. simpl in Hf. unfold fine in Hf.
    destruct (at_ w); try done. simpl in Hw. injection Hw as <- _. exact Hf. }
  exists f'. split; [done |]. by destruct (Write_replaced _ _ _ _ _ _ Hv Hu Hw) as [Hp _].
Qed.

(** ** Concrete runs *)

Fixpoint do_steps (l : list (nat * answer)) (ws : list writer) (f : fs) : list writer * fs :=
  match l with
  | [] => (ws, f)
  | (k, a) :: l =>
      match ws !! k with
      | Some w => do_steps l (<[k := (writer_step a w f).1]> ws) (writer_step a w f).2
      | None => (ws, f)
      end
  end.

Lemma do_steps_nsteps l ws f : exists n, nsteps step n (ws, f) (do_steps l ws f).
Proof.
  revert ws f. induction l as [| [k a] l IH]; intros ws f; simpl; [exists 0; constructor |].
  destruct (ws !! k) as [w|] eqn:Hk; [| exists 0; constructor].
  destruct (result_of w) as [b|] eqn:Hr.
  - assert (writer_step a w f = (w, f)) as -> by (unfold result_of, writer_step in *; by destruct (at_ w)).
    simpl. rewrite list_insert_id by done. apply IH.
  - destruct (IH (<[k := (writer_step a w f).1]> ws) (writer_step a w f).2) as [n Hn]. exists (S n).
    eapply nsteps_l; [by eapply step_writer | exact Hn].
Qed.

(** [/a] and [/b] are hard links of one file. *)
Definition linked_fs : fs :=
  {| names := {[ lit "/a" := 0; lit "/b" := 0 ]}; inodes := [lit "old contents"] |}.

(** One writer replaces [/a] while another copies the open old file to [/c]. *)
Definition two_writers : list writer := [opening (lit "/a") (Buffer (lit "new")) 3; opening (lit "/c") (Open_file 0) 12].

Definition turns : list (nat * answer) :=
  [(0, Takes 1); (1, Takes 1); (0, Takes 1); (1, Fails); (0, Takes 2); (1, Takes 20); (0, Takes 1); (0, Takes 1);
   (1, Takes 1); (0, Takes 1); (1, Takes 1)].

Lemma linked_valid : valid linked_fs.
Proof.
  intros p i Hp. simpl in *. apply lookup_insert_Some in Hp as [[_ <-] | [_ Hp]]; [lia |].
  apply lookup_singleton_Some in Hp as [_ <-]. lia.
Qed.

Lemma linked_tmp p : p = lit "/a" \/ p = lit "/c" -> names linked_fs !! tmp_path p = None.
Proof. by intros [-> | ->]. Qed.

Lemma two_starting : starting linked_fs two_writers.
Proof.
  split; [exact linked_valid |]. split.
  - split.
    + intros [| [| k]] [| [| k']] w w' Hk Hk' Hne; simplify_eq/=; split_and!; discriminate.
    + intros [| [| k]] w i q Hk; simplify_eq/=; rewrite linked_tmp by auto; discriminate.
    + intros [| [| k]] w Hk; simplify_eq/=; (split; [reflexivity |]); [exact I |]. split; [simpl; lia |].
      intros [| [| k]] w Hk; simplify_eq/=; rewrite linked_tmp by auto; discriminate.
  - by intros [| [| k]] w Hk; simplify_eq/=.
Qed.

Lemma writes_atomic_witness :
  let '(ws, f) := do_steps turns two_writers linked_fs in
  (view f !! lit "/a" = Some (lit "new") /\ view f !! lit "/b" = Some (lit "old contents") /\
   view f !! lit "/c" = Some (lit "old contents")) /\
  exists n, (forall k w, ws !! k = Some w ->
     (result_of w = Some true -> view f !! target w = Some (data_of linked_fs w)) /\
     (view f !! target w = view linked_fs !! target w \/
      exists m pad, result_of w = Some (m =? size w) /\ m <= size w /\ (pad = 0 \/ pad = size w - m) /\
        view f !! target w = Some (take m (data_of linked_fs w) ++ replicate pad 0%Z))) /\
  (forall q, (forall k w, two_writers !! k = Some w -> q <> target w /\ q <> tmp_path (target w)) ->
     view f !! q = view linked_fs !! q) /\
  (forall i, protected linked_fs two_writers i -> content f i = content linked_fs i) /\
  n + sum_list_with cost ws <= sum_list_with cost two_writers.
Proof.
  destruct (do_steps_nsteps turns two_writers linked_fs) as [n Hn].
  destruct (do_steps turns two_writers linked_fs) as [ws f] eqn:E. split.
  - vm_compute in E. injection E as <- <-. vm_compute. repeat split.
  - exists n. exact (writes_atomic linked_fs two_writers n ws f two_starting Hn).
Defined.

Lemma Write_refines_witness :
  exists b f', Write (replicate 8 (Takes 2)) (lit "/a") (lit "new") linked_fs = Some (b, f') /\ valid f' /\
    (names f' !! tmp_path (lit "/a") = None ->
     exists e, File_Write e (lit "/a") (lit "new") (view linked_fs) = (b, view f')).
Proof.
  apply (Write_refines (replicate 8 (Takes 2)) (lit "/a") (lit "new") linked_fs linked_valid).
  - intros i q Hi. by rewrite linked_tmp in Hi by auto.
  - simpl. lia.
Defined.

Lemma Link_spec_witness :
  (forall b f', Link (Takes 1) (Takes 1) (Takes 1) (Takes 1) (Takes 1) [] (lit "/b") (lit "/c") linked_fs = Some (b, f') ->
     copied linked_fs f' (lit "/c") (default [] (view linked_fs !! lit "/b")) b /\
     view f' !! lit "/b" = view linked_fs !! lit "/b" /\ (b = true -> is_Some (view linked_fs !! lit "/b"))) /\
  exists f', Link (Takes 1) (Takes 1) (Takes 1) (Takes 1) (Takes 1) [] (lit "/a") (lit "/a") linked_fs = Some (false, f') /\
    view f' !! lit "/a" = None.
Proof.
  split.
  - refine (proj1 (Link_spec (Takes 1) (Takes 1) (Takes 1) (Takes 1) (Takes 1) [] (lit "/b") (lit "/c") linked_fs
                     linked_valid _ _) _); [| discriminate | discriminate].
    intros i q Hi. by rewrite linked_tmp in Hi by auto.
  - refine (proj2 (Link_spec (Takes 1) (Takes 1) (Takes 1) (Takes 1) (Takes 1) [] (lit "/a") (lit "/a") linked_fs
                     linked_valid _ _) eq_refl _ _); [| discriminate | eexists; reflexivity | discriminate].
    intros i q Hi. by rewrite linked_tmp in Hi by auto.
Defined.

(** Two writers of one target share its temporary file: the one that reports
    success has put the other's unfinished contents there. *)
Example shared_temporary_file :
  let ws := [opening (lit "/a") (Buffer (lit "first")) 5; opening (lit "/a") (Buffer (lit "second")) 6] in
  let '(ws, f) := do_steps [(0, Takes 1); (0, Fails); (0, Takes 5); (0, Takes 1); (1, Takes 1); (1, Fails);
                            (1, Takes 3); (0, Takes 1); (1, Takes 3); (1, Takes 1); (1, Takes 1); (1, Takes 1)]
                   ws linked_fs in
  map result_of ws = [Some true; Some false] /\ view f !! lit "/a" = Some (lit "second").
Proof. vm_compute. repeat split. Qed.
