(* ===== verification/AbsorberSystem.v ===== *)
(** The absorber as a machine: its two queues, its workers and the event loop that call
    [Push] and [Pop] on them, the answers to the emitters, and its end
    ([src/src/daemon/absorber.cc]).

    The queues are those of any implementation of [TaskQueue]; the property is about
    [LockedQueue].  A step is a critical section of a queue, what a thread does
    between two of them, or the handling of a request.  The workers' pool is not forced
    to shut down, so its flag is set only after its threads have been joined
    ([ThreadPool.destroy_end]): the workers leave their loops through the queues,
    which the destructor closes first. *)

From S2P Require Import Prelude LockedQueue TaskQueue StringUtils ConstString ConstStringFind ConstStringHash CacheLocks FileCache CacheEntries Messages CommandLines CompilationDaemon EmitterTasks Absorber.

#[local] Open Scope Z_scope.

(** ** State *)

(** What an emitter gets.  [Overloaded] holds the length of the queue and whether it
    was closed; [Overloaded_closing] is the one that [HandleNewMessage] reports before
    it returns false: then the connection is closed ([Connection.finish]), so that
    it is only sent when another thread of the event loop is faster. *)
Inductive answer :=
| Client_gone
| Replied (r : Reply)
| Refused_with (s : Status)
| Overloaded (length : Z) (closed : bool)
| Overloaded_closing (length : Z) (closed : bool).

(** Threads: of the event loop, in [DoCheckCache], in [DoExecute]. *)
Inductive role := Event_loop | Cache_worker | Execute_worker.
#[export] Instance role_eq_dec : EqDecision role.
Proof. solve_decision. Defined.

(** What a thread that is not at the head of its loop is about to do. *)
Inductive hand :=
| Received (t : AbsorberTask)                 (* the push in [HandleNewMessage] *)
| Cache_open (t : AbsorberTask)               (* it has found [cache_tasks_] open *)
| Cache_pushed                                (* [++size_] of [cache_tasks_] *)
| Looking_up (t : AbsorberTask)               (* the body of [DoCheckCache] *)
| Looked_up (t : AbsorberTask)                (* the push in [DoCheckCache] *)
| Tasks_open (r : role) (t : AbsorberTask)    (* it has found [tasks_] open *)
| Tasks_pushed (r : role)                     (* [++size_] of [tasks_] *)
| Executing (t : AbsorberTask).               (* the body of [DoExecute] *)

Definition role_of (h : hand) : role :=
  match h with
  | Received _ | Cache_open _ | Cache_pushed => Event_loop
  | Looking_up _ | Looked_up _ => Cache_worker
  | Tasks_open r _ | Tasks_pushed r => r
  | Executing _ => Execute_worker
  end.

Definition task_of (h : hand) : option AbsorberTask :=
  match h with
  | Received t | Cache_open t | Looking_up t | Looked_up t | Tasks_open _ t | Executing t => Some t
  | Cache_pushed | Tasks_pushed _ => None
  end.

Section Machine.
Context {Q : Type} `{TaskQueue AbsorberTask Q}.

(** [cache_idle] and [execute_idle] count the workers at the heads of their loops.  The
    rest records what has happened: the requests, their answers, the
    connections of requests that [cache_tasks_] refused, and of pushes that took the
    lock of a queue that had been closed since their test ([late]); the requests
    that entered [tasks_] and that were taken from it, in order; the number of
    tasks that workers have taken.  When the machine has [finished] the queues
    are what they held when they were destroyed. *)
Record system := {
  daemon : Daemon;
  cache_tasks : Q;
  tasks : Q;
  cache_idle : nat;
  execute_idle : nat;
  hands : list hand;
  finished : bool;
  arrived : list (nat * Remote);
  answers : list (nat * answer);
  refused : list nat;
  late : list nat;
  entered : list nat;
  executed : list nat;
  handled : nat
}.

Definition with_daemon (d : Daemon) (s : system) : system :=
  {| daemon := d; cache_tasks := cache_tasks s; tasks := tasks s; cache_idle := cache_idle s;
     execute_idle := execute_idle s; hands := hands s; finished := finished s; arrived := arrived s;
     answers := answers s; refused := refused s; late := late s; entered := entered s;
     executed := executed s; handled := handled s |}.
Definition with_cache_tasks (q : Q) (l : list nat) (s : system) : system :=
  {| daemon := daemon s; cache_tasks := q; tasks := tasks s; cache_idle := cache_idle s;
     execute_idle := execute_idle s; hands := hands s; finished := finished s; arrived := arrived s;
     answers := answers s; refused := refused s; late := l; entered := entered s;
     executed := executed s; handled := handled s |}.
Definition with_tasks (q : Q) (l e x : list nat) (s : system) : system :=
  {| daemon := daemon s; cache_tasks := cache_tasks s; tasks := q; cache_idle := cache_idle s;
     execute_idle := execute_idle s; hands := hands s; finished := finished s; arrived := arrived s;
     answers := answers s; refused := refused s; late := l; entered := e;
     executed := x; handled := handled s |}.
Definition with_threads (c e : nat) (l : list hand) (n : nat) (s : system) : system :=
  {| daemon := daemon s; cache_tasks := cache_tasks s; tasks := tasks s; cache_idle := c;
     execute_idle := e; hands := l; finished := finished s; arrived := arrived s;
     answers := answers s; refused := refused s; late := late s; entered := entered s;
     executed := executed s; handled := n |}.
Definition with_ends (a : list (nat * answer)) (r : list nat) (f : bool) (s : system) : system :=
  {| daemon := daemon s; cache_tasks := cache_tasks s; tasks := tasks s; cache_idle := cache_idle s;
     execute_idle := execute_idle s; hands := hands s; finished := f; arrived := arrived s;
     answers := a; refused := r; late := late s; entered := entered s;
     executed := executed s; handled := handled s |}.
Definition with_arrived (l : list (nat * Remote)) (s : system) : system :=
  {| daemon := daemon s; cache_tasks := cache_tasks s; tasks := tasks s; cache_idle := cache_idle s;
     execute_idle := execute_idle s; hands := hands s; finished := finished s; arrived := l;
     answers := answers s; refused := refused s; late := late s; entered := entered s;
     executed := executed s; handled := handled s |}.

(** ** Operations *)

(** A thread goes on with [h]. *)
Definition go_on (h : hand) (s : system) : system :=
  with_threads (cache_idle s) (execute_idle s) (h :: hands s) (handled s) s.

(** A thread returns to the head of its loop. *)
Definition loop (r : role) (s : system) : system :=
  match r with
  | Event_loop => s
  | Cache_worker => with_threads (S (cache_idle s)) (execute_idle s) (hands s) (handled s) s
  | Execute_worker => with_threads (cache_idle s) (S (execute_idle s)) (hands s) (handled s) s
  end.

Definition send (conn : nat) (a : answer) (s : system) : system :=
  with_ends (answers s ++ [(conn, a)]) (refused s) (finished s) s.

(** What a failed [tasks_->Push] is reported with. *)
Definition overload (r : role) : Z -> bool -> answer :=
  match r with Event_loop => Overloaded_closing | _ => Overloaded end.

(** [tasks_->Push] up to the test of [closed_]. *)
Definition push_test (r : role) (t : AbsorberTask) (s : system) : system :=
  if is_closed (tasks s)
  then loop r (send (client t) (overload r (Zlen (tasks_in (tasks s))) true) s)
  else go_on (Tasks_open r t) s.

(** [HandleNewMessage] of a request with a source, up to the push's test.  The result
    of the push to the cache workers is not tested: the request goes with the last
    reference to its connection. *)
Definition HandleNewMessage (t : AbsorberTask) (s : system) : system :=
  if has_cache_conf (conf (daemon s)) then
    if is_closed (cache_tasks s)
    then with_ends (answers s) (refused s ++ [client t]) (finished s) s
    else go_on (Cache_open t) s
  else push_test Event_loop t s.

Definition arrive (conn : nat) (m : Remote) (s : system) : system :=
  go_on (Received {| client := conn; request_ := m; local_hash := [] |}) (with_arrived (arrived s ++ [(conn, m)]) s).

(** The critical sections of the pushes. *)
Definition push_cache (t : AbsorberTask) (s : system) : option system :=
  '(b, q) ← put t (cache_tasks s);
  Some (if b : bool
        then go_on Cache_pushed
               (with_cache_tasks q (if is_closed (cache_tasks s) then client t :: late s else late s) s)
        else with_ends (answers s) (refused s ++ [client t]) (finished s) s).

Definition push_tasks (r : role) (t : AbsorberTask) (s : system) : option system :=
  '(b, q) ← put t (tasks s);
  Some (if b : bool
        then go_on (Tasks_pushed r)
               (with_tasks q (if is_closed (tasks s) then client t :: late s else late s)
                  (entered s ++ [client t]) (executed s) s)
        else loop r (send (client t) (overload r (Zlen (tasks_in (tasks s))) false) s)).

(** What a worker does with the outcome of a task. *)
Definition place (r : role) (conn : nat) (o : absorber_outcome) (s : system) : system :=
  match o with
  | Gone => loop r (send conn Client_gone s)
  | Sent reply => loop r (send conn (Replied reply) s)
  | Refused status => loop r (send conn (Refused_with status) s)
  | To_execute t => go_on (Looked_up t) s
  end.

(** The heads of the loops of [DoCheckCache] and [DoExecute]. *)
Definition pop_cache (s : system) : option system :=
  match cache_idle s with
  | O => None
  | S n =>
      '(r, q) ← take_one (cache_tasks s);
      let s := with_cache_tasks q (late s) s in
      Some match r with
           | Nothing_yet => s
           | No_more => with_threads n (execute_idle s) (hands s) (handled s) s
           | Taken t => with_threads n (execute_idle s) (Looking_up t :: hands s) (S (handled s)) s
           end
  end.

Definition pop_tasks (s : system) : option system :=
  match execute_idle s with
  | O => None
  | S n =>
      '(r, q) ← take_one (tasks s);
      Some match r with
           | Nothing_yet => with_tasks q (late s) (entered s) (executed s) s
           | No_more =>
               with_threads (cache_idle s) n (hands s) (handled s) (with_tasks q (late s) (entered s) (executed s) s)
           | Taken t =>
               with_threads (cache_idle s) n (Executing t :: hands s) (S (handled s))
                 (with_tasks q (late s) (entered s) (executed s ++ [client t]) s)
           end
  end.

(** The destructor: it closes the queues, joins the workers and destroys the queues. *)
Definition close_tasks (s : system) : system :=
  with_tasks (close (tasks s)) (late s) (entered s) (executed s) s.
Definition close_cache_tasks (s : system) : system :=
  with_cache_tasks (close (cache_tasks s)) (late s) s.
Definition finish (s : system) : system :=
  with_ends (answers s) (refused s) true s.

End Machine.
#[global] Arguments system : clear implicits.

(** ** Steps *)

Section Steps.
Context {Q : Type} `{TaskQueue AbsorberTask Q}.
Context (print : Manifest -> list Z) (parse : list Z -> option Manifest).
Context (Compress Uncompress : list Z -> option (list Z)).

(** The next part of what a thread does. *)
Definition advance (w : world) (temp_dir : path) (h : hand) (s : system Q) : option (system Q) :=
  match h with
  | Received t => Some (HandleNewMessage t s)
  | Cache_open t => push_cache t s
  | Cache_pushed => Some (with_cache_tasks (count_one (cache_tasks s)) (late s) s)
  | Looking_up t =>
      '(o, d) ← check_request parse Uncompress w t (daemon s);
      Some (place Cache_worker (client t) o (with_daemon d s))
  | Looked_up t => Some (push_test Cache_worker t s)
  | Tasks_open r t => push_tasks r t s
  | Tasks_pushed r => Some (loop r (with_tasks (count_one (tasks s)) (late s) (entered s) (executed s) s))
  | Executing t =>
      '(o, d) ← execute_request print Compress w temp_dir t (daemon s);
      Some (place Execute_worker (client t) o (with_daemon d s))
  end.

Inductive action :=
| Arrive (conn : nat) (m : Remote)
| Advance (i : nat) (w : world) (temp_dir : path)
| Pop_cache
| Pop_tasks
| Close_tasks
| Close_cache_tasks
| Finish.

(** The destructor's members are destroyed when no thread is in them: the workers have
    been joined, and no call of [HandleNewMessage] is running. *)
Definition act (a : action) (s : system Q) : option (system Q) :=
  match a with
  | Arrive conn m =>
      if negb (finished s) && bool_decide (conn ∉ (arrived s).*1) && bool_decide (Messages.source m <> None)
      then Some (arrive conn m s) else None
  | Advance i w temp_dir =>
      h ← hands s !! i;
      advance w temp_dir h (with_threads (cache_idle s) (execute_idle s) (delete i (hands s)) (handled s) s)
  | Pop_cache => pop_cache s
  | Pop_tasks => pop_tasks s
  | Close_tasks => if is_closed (tasks s) then None else Some (close_tasks s)
  | Close_cache_tasks =>
      if negb (is_closed (tasks s)) || is_closed (cache_tasks s) then None else Some (close_cache_tasks s)
  | Finish =>
      if is_closed (cache_tasks s) && negb (finished s) && bool_decide (hands s = []) &&
         bool_decide (cache_idle s = 0%nat) && bool_decide (execute_idle s = 0%nat)
      then Some (finish s) else None
  end.

Inductive reachable (s0 : system Q) : system Q -> Prop :=
| reach_start : reachable s0 s0
| reach_step s a s' : reachable s0 s -> act a s = Some s' -> reachable s0 s'.

Fixpoint run_actions (l : list action) (s : system Q) : option (system Q) :=
  match l with
  | [] => Some s
  | a :: l => s ← act a s; run_actions l s
  end.

Lemma run_reachable l s0 s s' : reachable s0 s -> run_actions l s = Some s' -> reachable s0 s'.
Proof.
  revert s. induction l as [|a l IH]; intros s Hr; simpl; [by intros [= <-] |].
  intros (s1 & Ha & Hl)%bind_Some. eapply IH; [eapply reach_step; [exact Hr | exact Ha] | exact Hl].
Qed.

(** The constructor, with empty queues; [None] is a failed CHECK of [AddWorker]. *)
Definition initial (d : Daemon) (cache_threads execute_threads : nat) (cache_queue queue : Q) : option (system Q) :=
  let cache_on := has_cache_conf (conf d) in
  if cache_on && (cache_threads =? 0)%nat || (execute_threads =? 0)%nat then None
  else Some {| daemon := d; cache_tasks := cache_queue; tasks := queue;
               cache_idle := if cache_on then cache_threads else 0%nat; execute_idle := execute_threads;
               hands := []; finished := false; arrived := []; answers := []; refused := []; late := [];
               entered := []; executed := []; handled := 0%nat |}.

End Steps.

(** ** Requests and their answers *)

Section Invariant.
Context {Q : Type} `{TaskQueueLaws AbsorberTask Q}.
Context (print : Manifest -> list Z) (parse : list Z -> option Manifest).
Context (Compress Uncompress : list Z -> option (list Z)).

(** A request as a task: as it came, or after its lookup. *)
Definition for_request (conn : nat) (m : Remote) (t : AbsorberTask) : Prop :=
  t = {| client := conn; request_ := m; local_hash := [] |} \/
  exists hash, GenerateHash (AdjustFlags (remote_flags m)) (of_String (str (Messages.source m))) (GetExtraFiles m) = Some hash /\
    t = {| client := conn; request_ := with_request_flags (AdjustFlags (remote_flags m)) m; local_hash := hash |}.

(** Workers made this of the request. *)
Definition outcome_for (conn : nat) (m : Remote) (o : absorber_outcome) : Prop :=
  exists t w d d', for_request conn m t /\
    (check_request parse Uncompress w t d = Some (o, d') \/
     exists temp_dir, execute_request print Compress w temp_dir t d = Some (o, d')).

(** Why an answer was given: by a worker that handled the request, or because the
    queue was closed or full. *)
Definition justified (s : system Q) (conn : nat) (m : Remote) (a : answer) : Prop :=
  match a with
  | Client_gone => True
  | Replied r => outcome_for conn m (Sent r)
  | Refused_with st => outcome_for conn m (Refused st)
  | Overloaded n b | Overloaded_closing n b =>
      if b : bool then is_closed (tasks s) = true else capacity_of (tasks s) <> UNLIMITED /\ capacity_of (tasks s) <= n
  end.

Definition as_it_came (s : system Q) (t : AbsorberTask) : Prop :=
  exists m, (client t, m) ∈ arrived s /\ t = {| client := client t; request_ := m; local_hash := [] |}.
Definition requested (s : system Q) (t : AbsorberTask) : Prop :=
  exists m, (client t, m) ∈ arrived s /\ for_request (client t) m t.

Definition hand_ok (s : system Q) (h : hand) : Prop :=
  match h with
  | Received t | Cache_open t | Looking_up t => as_it_came s t
  | Looked_up t | Tasks_open _ t | Executing t => requested s t
  | Cache_pushed | Tasks_pushed _ => True
  end.

(** The handlings that are still due to a request. *)
Definition due (h : hand) : nat :=
  match h with
  | Received _ | Cache_open _ => 2
  | Looking_up _ | Looked_up _ | Tasks_open _ _ => 1
  | Cache_pushed | Tasks_pushed _ | Executing _ => 0
  end.

(** The connections of the requests that threads hold, and of all, where they are. *)
Definition held (l : list hand) : list nat := omap (fun h => client <$> task_of h) l.
Definition places (l : list hand) (s : system Q) : list nat :=
  map client (tasks_in (cache_tasks s)) ++ map client (tasks_in (tasks s)) ++ held l ++ (answers s).*1 ++ refused s.

Definition busy (r : role) (l : list hand) : nat := length (filter (fun h => role_of h = r) l).

(** A pool of [n] workers on [q], of which [live] are left: when one has ended, [q] is
    closed, and what it holds are late pushes. *)
Definition staffed (n live : nat) (q : Q) (late : list nat) : Prop :=
  (live <= n)%nat /\
  ((live < n)%nat -> is_closed q = true /\ forall t, t ∈ tasks_in q -> client t ∈ late).

(** [ct] and [et] are the numbers of workers that were started, [cap] the capacity of
    [tasks]; [l] are threads that are
    not among the machine's. *)
Record ok (ct et : nat) (cap : Z) (l : list hand) (s : system Q) : Prop := {
  so_arrived : NoDup (arrived s).*1;
  so_places : places (l ++ hands s) s ≡ₚ (arrived s).*1;
  so_cached : Forall (as_it_came s) (tasks_in (cache_tasks s));
  so_tasks : Forall (requested s) (tasks_in (tasks s));
  so_hands : Forall (hand_ok s) (l ++ hands s);
  so_answers : forall conn a, (conn, a) ∈ answers s -> exists m, (conn, m) ∈ arrived s /\ justified s conn m a;
  so_consistent : consistent (cache_tasks s) /\ consistent (tasks s);
  so_unlimited : capacity_of (cache_tasks s) = UNLIMITED;
  so_bound : capacity_of (tasks s) = cap;
  so_capacity : capacity_of (tasks s) <> UNLIMITED -> 0 <= capacity_of (tasks s) ->
                Zlen (tasks_in (tasks s)) <= capacity_of (tasks s);
  so_handled : (handled s + 2 * length (tasks_in (cache_tasks s)) + length (tasks_in (tasks s))
                + sum_list (map due (l ++ hands s)) <= 2 * length (arrived s))%nat;
  so_order : entered s = executed s ++ map client (tasks_in (tasks s));
  so_cache_workers : staffed ct (cache_idle s + busy Cache_worker (l ++ hands s)) (cache_tasks s) (late s);
  so_execute_workers : staffed et (execute_idle s + busy Execute_worker (l ++ hands s)) (tasks s) (late s);
  so_cache_on : has_cache_conf (conf (daemon s)) = negb (ct =? 0)%nat;
  so_cache_off : ct = 0%nat -> tasks_in (cache_tasks s) = [] /\ forall t, Cache_open t ∉ l ++ hands s;
  so_closing : (is_closed (cache_tasks s) = true -> is_closed (tasks s) = true) /\
               (is_closed (cache_tasks s) = false -> refused s = []) /\
               (is_closed (tasks s) = false -> late s = []);
  so_finished : finished s = true ->
    l ++ hands s = [] /\ cache_idle s = 0%nat /\ execute_idle s = 0%nat /\ is_closed (cache_tasks s) = true
}.

Section Threads.
Context (ct et : nat) (cap : Z).

Lemma busy_cons r h l : busy r (h :: l) = ((if decide (role_of h = r) then 1 else 0) + busy r l)%nat.
Proof. unfold busy. rewrite filter_cons. by case_decide. Qed.

Lemma busy_perm r l l' : l ≡ₚ l' -> busy r l = busy r l'.
Proof. unfold busy. by intros ->. Qed.

Lemma due_perm l l' : l ≡ₚ l' -> sum_list (map due l) = sum_list (map due l').
Proof. induction 1; simpl; lia. Qed.

Lemma held_perm l l' : l ≡ₚ l' -> held l ≡ₚ held l'.
Proof. unfold held. by intros ->. Qed.

(** A thread of the machine takes its next step. *)
Lemma take_hand i h s :
  ok ct et cap [] s -> hands s !! i = Some h ->
  ok ct et cap [h] (with_threads (cache_idle s) (execute_idle s) (delete i (hands s)) (handled s) s).
Proof.
  intros [] Hi. pose proof (delete_Permutation _ _ _ Hi) as Hp.
  split; simpl in *; try done.
  - rewrite <- so_places0. unfold places. simpl. by rewrite (held_perm _ _ Hp).
  - by rewrite <- Hp.
  - rewrite (due_perm _ _ Hp) in so_handled0. done.
  - by rewrite <- (busy_perm _ _ _ Hp).
  - by rewrite <- (busy_perm _ _ _ Hp).
  - intros Hc. destruct (so_cache_off0 Hc) as [? Hn]. split; [done |]. intros t. rewrite <- Hp. apply Hn.
  - intros Hf. destruct (so_finished0 Hf) as [Hh _]. by rewrite Hh in Hi.
Qed.

Lemma ok_go_on h s : ok ct et cap [h] s -> ok ct et cap [] (go_on h s).
Proof. intros []. by split. Qed.

(** Another part of the same thread with the same request. *)
Lemma ok_change h h' s :
  ok ct et cap [h] s -> client <$> task_of h' = client <$> task_of h -> role_of h' = role_of h -> (due h' <= due h)%nat ->
  hand_ok s h' -> (ct = 0%nat -> forall t, h' <> Cache_open t) -> ok ct et cap [h'] s.
Proof.
  intros [] Ht Hr Hd Hh Hc. split; simpl in *; try done.
  - rewrite <- so_places0. unfold places, held. simpl. by rewrite Ht.
  - apply Forall_cons in so_hands0 as [_ ?]. by apply Forall_cons.
  - lia.
  - rewrite busy_cons in *. by rewrite Hr.
  - rewrite busy_cons in *. by rewrite Hr.
  - intros Hz. destruct (so_cache_off0 Hz) as [? Hn]. split; [done |]. intros t.
    specialize (Hn t). rewrite not_elem_of_cons in *. destruct Hn as [_ Hn]. split; [| done]. intros Heq. by apply (Hc Hz t).
  - intros Hf. by destruct (so_finished0 Hf).
Qed.

(** A thread without a request returns to the head of its loop. *)
Lemma ok_loop h s : ok ct et cap [h] s -> task_of h = None -> ok ct et cap [] (loop (role_of h) s).
Proof.
  intros [] Ht. assert (held (h :: hands s) = held (hands s)) as Hheld by by destruct h.
  assert (due h = 0%nat) as Hd by by destruct h.
  cbn [app map] in *. rewrite !busy_cons in *. apply Forall_cons in so_hands0 as [_ Hhands].
  assert (places (hands s) s ≡ₚ (arrived s).*1) as Hp by (rewrite <- so_places0; unfold places; change (held ([h] ++ hands s)) with (held (h :: hands s)); by rewrite Hheld).
  assert (ct = 0%nat -> tasks_in (cache_tasks s) = [] /\ forall t, Cache_open t ∉ hands s) as Hoff.
  { intros Hz. destruct (so_cache_off0 Hz) as [? Hn]. split; [done |]. intros t Hin. apply (Hn t). by right. }
  destruct (role_of h) eqn:Hr; split; simpl in *; try done; try lia; try by (intros Hf; destruct (so_finished0 Hf)).
  all: by rewrite ?Nat.add_succ_r in *.
Qed.

(** *** The pushes *)

(** A request in the hands of a thread. *)
Lemma held_requested l h t s : ok ct et cap (h :: l) s -> task_of h = Some t -> requested s t.
Proof.
  intros [] Ht. simpl in *. apply Forall_cons in so_hands0 as [Hh _].
  destruct h; simpl in *; simplify_eq; try done; destruct Hh as (m & Hm & Heq); exists m; (split; [done |]); by left.
Qed.

Lemma ok_answer h t a s :
  ok ct et cap [h] s -> task_of h = Some t -> (forall m, (client t, m) ∈ arrived s -> justified s (client t) m a) ->
  ok ct et cap [] (loop (role_of h) (send (client t) a s)).
Proof.
  intros Hs Ht Hj. destruct (held_requested _ _ _ _ Hs Ht) as (m & Hm & _).
  assert (ok ct et cap [Tasks_pushed (role_of h)] (send (client t) a s)) as H2; [| by apply (ok_loop _ _ H2)].
  destruct Hs. simpl in *. split; simpl in *; try done.
  - rewrite <- so_places0. unfold places, held. simpl. rewrite Ht, fmap_app. simpl. solve_Permutation.
  - by apply Forall_cons in so_hands0 as [_ ?]; apply Forall_cons.
  - intros conn b [Hb | Hb%list_elem_of_singleton]%elem_of_app; [by apply so_answers0 |].
    injection Hb as -> ->. exists m. split; [done |]. by apply Hj.
  - lia.
  - by rewrite busy_cons in *.
  - by rewrite busy_cons in *.
  - intros Hz. destruct (so_cache_off0 Hz) as [? Hn]. split; [done |]. intros x [? | Hx]%elem_of_cons; [done |].
    apply (Hn x). by right.
  - intros Hf. by destruct (so_finished0 Hf).
Qed.

Lemma ok_refuse h t s :
  ok ct et cap [h] s -> task_of h = Some t -> role_of h = Event_loop -> is_closed (cache_tasks s) = true ->
  ok ct et cap [] (with_ends (answers s) (refused s ++ [client t]) (finished s) s).
Proof.
  intros [] Ht Hr Hc. simpl in *. split; simpl in *; try done.
  - rewrite <- so_places0. unfold places, held. simpl. rewrite Ht. simpl. solve_Permutation.
  - by apply Forall_cons in so_hands0 as [_ ?].
  - lia.
  - by rewrite busy_cons, Hr in so_cache_workers0.
  - by rewrite busy_cons, Hr in so_execute_workers0.
  - intros Hz. destruct (so_cache_off0 Hz) as [? Hn]. split; [done |]. intros x Hx. apply (Hn x). by right.
  - destruct so_closing0 as (C1 & C2 & C3). split_and!; [done | congruence | done].
  - intros Hf. by destruct (so_finished0 Hf).
Qed.

(** A task more in a queue whose closing its push has missed. *)
Lemma staffed_put n live (q q' : Q) t (late : list nat) :
  staffed n live q late -> tasks_in q' = tasks_in q ++ [t] -> is_closed q' = is_closed q ->
  staffed n live q' (if is_closed q then client t :: late else late).
Proof.
  intros [Hl Hs] Ht Hc. split; [done |]. intros Hlt. destruct (Hs Hlt) as [Hcl Hin]. rewrite Hc, Hcl, Ht.
  split; [done |]. intros x [Hx | ->%list_elem_of_singleton]%elem_of_app; [right; by apply Hin | left].
Qed.

Lemma staffed_late n live (q : Q) (late late' : list nat) : late ⊆ late' -> staffed n live q late -> staffed n live q late'.
Proof. intros Hsub [Hl Hs]. split; [done |]. intros Hlt. destruct (Hs Hlt) as [? Hin]. split; [done |]. intros t Ht. apply Hsub, Hin, Ht. Qed.

Lemma ok_push_cache t s s' :
  ok ct et cap [Cache_open t] s -> push_cache t s = Some s' -> ok ct et cap [] s'.
Proof.
  intros Hs. pose proof Hs as []. unfold push_cache. destruct so_consistent0 as [Hc1 Hc2].
  destruct (put_law t (cache_tasks s) Hc1) as (b & q & -> & Hq & Hcl & Hcap & Hb). cbn [mbind option_bind]. intros [= <-].
  destruct b; [| destruct Hb as (_ & Hn & _); by rewrite so_unlimited0 in Hn]. destruct Hb as [Ht _].
  assert (ct <> 0%nat) as Hct by (intros Hz; destruct (so_cache_off0 Hz) as [_ Hn]; apply (Hn t); left).
  assert (late s ⊆ (if is_closed (cache_tasks s) then client t :: late s else late s)) as Hsub by (case_match; set_solver).
  apply ok_go_on. simpl in *. apply Forall_cons in so_hands0 as [Hh Hhands].
  split; simpl in *; try done; rewrite ?Ht, ?Hcl, ?Hcap; try done.
  - rewrite <- so_places0. unfold places, held. simpl. rewrite Ht, map_app. simpl. solve_Permutation.
  - apply Forall_app. by split; [| constructor].
  - by apply Forall_cons.
  - rewrite length_app. simpl. lia.
  - by eapply staffed_put.
  - by eapply staffed_late.
  - destruct so_closing0 as (C1 & C2 & C3). split_and!; [done | done |]. intros Hop.
    destruct (is_closed (cache_tasks s)); [by rewrite C1 in Hop | by apply C3].
  - intros Hf. by destruct (so_finished0 Hf).
Qed.

Lemma ok_push_tasks r t s s' :
  ok ct et cap [Tasks_open r t] s -> push_tasks r t s = Some s' -> ok ct et cap [] s'.
Proof.
  intros Hs. pose proof Hs as []. unfold push_tasks. destruct so_consistent0 as [Hc1 Hc2].
  destruct (put_law t (tasks s) Hc2) as (b & q & -> & Hq & Hcl & Hcap & Hb). cbn [mbind option_bind]. intros [= <-].
  destruct b.
  2: { destruct Hb as (_ & Hn & Hle). apply (ok_answer _ t _ _ Hs eq_refl). intros m _. by destruct r. }
  destruct Hb as [Ht Hroom].
  assert (late s ⊆ (if is_closed (tasks s) then client t :: late s else late s)) as Hsub by (case_match; set_solver).
  apply ok_go_on. simpl in *. apply Forall_cons in so_hands0 as [Hh Hhands].
  split; simpl in *; try done; rewrite ?Ht, ?Hcl, ?Hcap; try done.
  - rewrite <- so_places0. unfold places, held. simpl. rewrite Ht, map_app. simpl. solve_Permutation.
  - apply Forall_app. by split; [| constructor].
  - by apply Forall_cons.
  - intros conn a Ha. destruct (so_answers0 conn a Ha) as (m & Hm & Hj). exists m. split; [done |].
    unfold justified in *. simpl. by rewrite Hcl, Hcap.
  - intros Hu _. specialize (Hroom Hu). rewrite Zlen_app. unfold Zlen at 2. simpl. lia.
  - rewrite length_app. simpl. lia.
  - by rewrite map_app, so_order0, app_assoc.
  - eapply staffed_late; [exact Hsub |]. by rewrite busy_cons in *.
  - eapply staffed_put; [| done | done]. by rewrite busy_cons in *.
  - intros Hz. destruct (so_cache_off0 Hz) as [? Hn]. split; [done |]. intros x [? | Hx]%elem_of_cons; [done |].
    apply (Hn x). by right.
  - destruct so_closing0 as (C1 & C2 & C3). split_and!; [done | done |]. intros Ho. rewrite Ho. by apply C3.
  - intros Hf. by destruct (so_finished0 Hf).
Qed.

Lemma ok_push_test r h t s :
  ok ct et cap [h] s -> task_of h = Some t -> role_of h = r -> (1 <= due h)%nat -> ok ct et cap [] (push_test r t s).
Proof.
  intros Hs Ht <- Hd. unfold push_test. destruct (is_closed (tasks s)) eqn:Hc.
  - apply (ok_answer h t); [done | done |]. intros m _. by destruct (role_of h).
  - apply ok_go_on. apply (ok_change h); [done | by rewrite Ht | done | done | | done].
    by apply (held_requested [] h).
Qed.

Lemma ok_HandleNewMessage t s : ok ct et cap [Received t] s -> ok ct et cap [] (HandleNewMessage t s).
Proof.
  intros Hs. unfold HandleNewMessage. destruct (has_cache_conf _) eqn:Hc.
  - destruct (is_closed (cache_tasks s)) eqn:Hcl; [by apply (ok_refuse (Received t)) |].
    apply ok_go_on. apply (ok_change (Received t)); [done | done | done | done | |].
    + by apply so_hands, Forall_cons in Hs as [? _].
    + intros Hz. by rewrite (so_cache_on _ _ _ _ _ Hs), Hz in Hc.
  - by apply (ok_push_test Event_loop (Received t)); [| | | simpl; lia].
Qed.

(** [++size_], and a [Pop] that leaves the queue as it is. *)
Lemma ok_same_cache l q s :
  ok ct et cap l s -> consistent q -> tasks_in q = tasks_in (cache_tasks s) -> is_closed q = is_closed (cache_tasks s) ->
  capacity_of q = capacity_of (cache_tasks s) -> ok ct et cap l (with_cache_tasks q (late s) s).
Proof.
  intros [] Hq Ht Hc Hcap. unfold staffed in *.
  split; simpl; unfold places, staffed; simpl; rewrite ?Ht, ?Hc, ?Hcap; try done. by split; [| apply so_consistent0].
Qed.

Lemma ok_same_tasks l q s :
  ok ct et cap l s -> consistent q -> tasks_in q = tasks_in (tasks s) -> is_closed q = is_closed (tasks s) ->
  capacity_of q = capacity_of (tasks s) -> ok ct et cap l (with_tasks q (late s) (entered s) (executed s) s).
Proof.
  intros [] Hq Ht Hc Hcap. unfold staffed in *.
  split; simpl; unfold places, staffed; simpl; rewrite ?Ht, ?Hc, ?Hcap; try done; [| by split; [apply so_consistent0 |]].
  intros conn a Ha. destruct (so_answers0 conn a Ha) as (m & Hm & Hj). exists m. split; [done |].
  unfold justified in *. simpl. by rewrite Hc, Hcap.
Qed.

Lemma ok_daemon l d s : ok ct et cap l s -> conf d = conf (daemon s) -> ok ct et cap l (with_daemon d s).
Proof. intros [] Hd. split; simpl; try done. by rewrite Hd. Qed.

Lemma File_Write_conf w p x d : conf (File_Write_daemon w p x d).2 = conf d.
Proof. unfold File_Write_daemon. by destruct (File_Write _ _ _ _). Qed.

(** ** The handlings *)

Lemma check_outcome w t d o d' m :
  t = {| client := client t; request_ := m; local_hash := [] |} ->
  check_request parse Uncompress w t d = Some (o, d') ->
  conf d' = conf d /\
  match o with To_execute t' => client t' = client t /\ for_request (client t) m t' | _ => True end.
Proof.
  intros Ht. unfold check_request. destruct (closed w); [by intros [= <- <-] |].
  assert (request_ t = m) as -> by (by rewrite Ht).
  intros (hash & Hh & ([r d1] & Hs & Hr)%bind_Some)%bind_Some.
  assert (conf d1 = conf d) as Hd1.
  { revert Hs. unfold SearchSimpleCache. destruct (negb _); [by intros [= _ <-] |].
    by intros ([r' c] & _ & [= _ <-])%bind_Some. }
  destruct r as [[|] e]; injection Hr as <- <-; rewrite Hd1.
  - done.
  - split; [done |]. split; [done |]. right. by exists hash.
Qed.

Lemma execute_outcome w temp_dir t d o d' :
  execute_request print Compress w temp_dir t d = Some (o, d') ->
  conf d' = conf d /\ match o with To_execute _ => False | _ => True end.
Proof.
  unfold execute_request. destruct (closed w); [by intros [= <- <-] |].
  intros (hash & _ & Hx)%bind_Some. revert Hx. destruct (SetupCompiler _ _ _) as [[ok flags] status].
  destruct ok; cbn [negb]; [| by intros [= <- <-]].
  destruct (PrepareExtraFilesForCompiler _ _ _ _ _) as [[f | st] d1] eqn:Hp.
  all: assert (conf d1 = conf d) as Hd1 by
    (revert Hp; unfold PrepareExtraFilesForCompiler; destruct (SetExtraFiles _) as [c|]; [| by intros [= _ <-]];
     pose proof (File_Write_conf w (path_div temp_dir (lit "sanitize_blacklist")) c d) as Hw;
     destruct (File_Write_daemon _ _ _ _) as [b d2]; simpl in Hw; by destruct b; intros [= _ <-]).
  - destruct (proc_ok _); cbn [negb]; [| by intros [= <- <-]].
    intros (d2 & Hu & [= <- <-])%bind_Some. split; [| done]. rewrite <- Hd1. revert Hu. unfold UpdateSimpleCache.
    destruct (negb _); [by intros [= <-] |]. by intros (c & _ & [= <-])%bind_Some.
  - by intros [= <- <-].
Qed.

Lemma nodup_key {A B} (l : list (A * B)) k x y : NoDup l.*1 -> (k, x) ∈ l -> (k, y) ∈ l -> x = y.
Proof.
  induction l as [|[k' z] l IH]; intros Hn; [by intros ?%elem_of_nil |]. simpl in Hn. apply NoDup_cons in Hn as [Hk Hn].
  assert (forall v, (k', v) ∈ l -> False) as Hno by (intros v Hv; apply Hk; apply list_elem_of_fmap; by exists (k', v)).
  intros [[= -> ->] | Hx]%elem_of_cons [[= E] | Hy]%elem_of_cons; simplify_eq; [done | by destruct (Hno y) | by destruct (Hno x) |].
  by apply IH.
Qed.

(** A worker after the handling of its request. *)
Lemma ok_place h t m o s :
  ok ct et cap [h] s -> task_of h = Some t -> role_of h <> Event_loop -> (client t, m) ∈ arrived s ->
  outcome_for (client t) m o ->
  match o with
  | To_execute t' => client t' = client t /\ for_request (client t) m t' /\ role_of h = Cache_worker /\ (1 <= due h)%nat
  | _ => True
  end ->
  ok ct et cap [] (place (role_of h) (client t) o s).
Proof.
  intros Hs Ht Hr Hm Ho Hx.
  assert (forall m', (client t, m') ∈ arrived s -> m' = m) as Huniq.
  { intros m' Hm'. pose proof (so_arrived _ _ _ _ _ Hs) as Hnd. clear -Hm Hm' Hnd.
    by eapply nodup_key. }
  destruct o as [| reply | st | t']; simpl.
  - by apply ok_answer.
  - apply ok_answer; [done | done |]. by intros m' ->%Huniq.
  - apply ok_answer; [done | done |]. by intros m' ->%Huniq.
  - destruct Hx as (Hc & Hf & Hcw & Hd). apply ok_go_on.
    apply (ok_change h); [done | by rewrite Ht; simpl; rewrite Hc | done | done | | done].
    exists m. by rewrite Hc.
Qed.

Lemma ok_advance w temp_dir h s s' :
  ok ct et cap [h] s -> advance print parse Compress Uncompress w temp_dir h s = Some s' -> ok ct et cap [] s'.
Proof.
  intros Hs. pose proof (so_consistent _ _ _ _ _ Hs) as [Hc1 Hc2]. pose proof (so_hands _ _ _ _ _ Hs) as [Hh _]%Forall_cons.
  destruct h as [t | t | | t | t | r t | r | t]; simpl in *.
  - intros [= <-]. by apply ok_HandleNewMessage.
  - by apply ok_push_cache.
  - intros [= <-]. apply (ok_loop Cache_pushed); [| done].
    destruct (count_law _ Hc1) as (? & ? & ? & ?). by apply ok_same_cache.
  - intros ([o d] & Hc & [= <-])%bind_Some. destruct Hh as (m & Hm & Heq).
    destruct (check_outcome _ _ _ _ _ m Heq Hc) as [Hd Ho].
    apply (ok_place (Looking_up t) t m); [by apply ok_daemon | done | done | done | |].
    + exists t, w, (daemon s), d. split; [by left | by left].
    + destruct o; try done. destruct Ho. by split_and!; [.. | simpl; lia].
  - intros [= <-]. by apply (ok_push_test Cache_worker (Looked_up t)); [| | | simpl; lia].
  - by apply ok_push_tasks.
  - intros [= <-]. apply (ok_loop (Tasks_pushed r)); [| done].
    destruct (count_law _ Hc2) as (? & ? & ? & ?). by apply ok_same_tasks.
  - intros ([o d] & Hc & [= <-])%bind_Some. destruct Hh as (m & Hm & Hf).
    destruct (execute_outcome _ _ _ _ _ _ Hc) as [Hd Ho].
    apply (ok_place (Executing t) t m); [by apply ok_daemon | done | done | done | |].
    + exists t, w, (daemon s), d. split; [done | right; by exists temp_dir].
    + by destruct o.
Qed.

(** ** The event loop and the heads of the workers' loops *)

Lemma ok_arrive conn m s :
  ok ct et cap [] s -> finished s = false -> conn ∉ (arrived s).*1 -> ok ct et cap [] (arrive conn m s).
Proof.
  intros [] Hf Hn. apply ok_go_on. simpl in *.
  assert (forall t, as_it_came s t -> as_it_came (with_arrived (arrived s ++ [(conn, m)]) s) t) as H1
    by (intros t (m' & ? & ?); exists m'; simpl; set_solver).
  assert (forall t, requested s t -> requested (with_arrived (arrived s ++ [(conn, m)]) s) t) as H2
    by (intros t (m' & ? & ?); exists m'; simpl; set_solver).
  split; simpl in *; try done.
  - rewrite fmap_app. apply NoDup_app. split; [done |]. split; [| apply NoDup_singleton].
    by intros x Hx ->%list_elem_of_singleton.
  - rewrite fmap_app, <- so_places0. unfold places, held. simpl. solve_Permutation.
  - by eapply Forall_impl.
  - by eapply Forall_impl.
  - apply Forall_cons. split; [exists m; simpl; set_solver |]. eapply Forall_impl; [exact so_hands0 |].
    intros h Hh. destruct h; simpl in *; auto.
  - intros c a Ha. destruct (so_answers0 c a Ha) as (m' & ? & ?). exists m'. split; [set_solver | done].
  - rewrite length_app. simpl. lia.
  - intros Hz. destruct (so_cache_off0 Hz) as [? Hno]. split; [done |]. intros t [? | Ht]%elem_of_cons; [done |].
    by apply (Hno t).
  - congruence.
Qed.

Lemma ok_pop_cache s s' : ok ct et cap [] s -> pop_cache s = Some s' -> ok ct et cap [] s'.
Proof.
  intros Hs. unfold pop_cache. destruct (cache_idle s) as [|n] eqn:Hi; [done |].
  destruct (take_law _ (proj1 (so_consistent _ _ _ _ _ Hs))) as (r & q & -> & Hq & Hcl & Hcap & Hr).
  cbn [mbind option_bind]. intros [= <-]. destruct r as [| | t].
  - destruct Hr as (_ & E & E'). apply ok_same_cache; [done | done | congruence | done | done].
  - destruct Hr as (Hc & E & E').
    assert (ok ct et cap [] (with_cache_tasks q (late s) s)) as [] by (apply ok_same_cache; [done | done | congruence | done | done]).
    split; simpl in *; try done.
    + rewrite Hi in so_cache_workers0. unfold staffed in *. rewrite Hcl, E'. split; [lia |]. intros _.
      split; [done |]. by intros t ?%elem_of_nil.
    + intros Hf. destruct (so_finished0 Hf) as (_ & Hz & _). congruence.
  - destruct Hs. unfold as_it_came, requested in *. rewrite Hr, Hi in *. simpl in *.
    apply Forall_cons in so_cached0 as [Ht Hts]. split; simpl in *; try done; rewrite ?Hcl, ?Hcap; try done.
    + rewrite <- so_places0. unfold places, held. simpl. rewrite Hr. simpl. solve_Permutation.
    + by apply Forall_cons.
    + by split; [| apply so_consistent0].
    + lia.
    + rewrite busy_cons. simpl. rewrite Nat.add_succ_r. destruct so_cache_workers0 as [? Hw]. split; [done |].
      rewrite Hr in Hw. intros Hlt. destruct (Hw Hlt) as [Hc Hl]. rewrite Hcl. split; [done |]. intros x Hx. apply Hl. by right.
    + intros Hz. by destruct (so_cache_off0 Hz).
    + intros Hf. by destruct (so_finished0 Hf) as (_ & ? & _).
Qed.

Lemma ok_pop_tasks s s' : ok ct et cap [] s -> pop_tasks s = Some s' -> ok ct et cap [] s'.
Proof.
  intros Hs. unfold pop_tasks. destruct (execute_idle s) as [|n] eqn:Hi; [done |].
  destruct (take_law _ (proj2 (so_consistent _ _ _ _ _ Hs))) as (r & q & -> & Hq & Hcl & Hcap & Hr).
  cbn [mbind option_bind]. intros [= <-]. destruct r as [| | t].
  - destruct Hr as (_ & E & E'). apply ok_same_tasks; [done | done | congruence | done | done].
  - destruct Hr as (Hc & E & E').
    assert (ok ct et cap [] (with_tasks q (late s) (entered s) (executed s) s)) as []
      by (apply ok_same_tasks; [done | done | congruence | done | done]).
    split; simpl in *; try done.
    + rewrite Hi in so_execute_workers0. unfold staffed in *. rewrite Hcl, E'. split; [lia |]. intros _.
      split; [done |]. by intros t ?%elem_of_nil.
    + intros Hf. destruct (so_finished0 Hf) as (_ & _ & Hz & _). congruence.
  - destruct Hs. unfold as_it_came, requested in *. rewrite Hr, Hi in *. simpl in *.
    apply Forall_cons in so_tasks0 as [Ht Hts]. split; simpl in *; try done; rewrite ?Hcl, ?Hcap; try done.
    + rewrite <- so_places0. unfold places, held. simpl. rewrite Hr. simpl. solve_Permutation.
    + by apply Forall_cons.
    + intros conn a Ha. destruct (so_answers0 conn a Ha) as (m & Hm & Hj). exists m. split; [done |].
      unfold justified in *. simpl. by rewrite Hcl, Hcap.
    + by split; [apply so_consistent0 |].
    + intros H1 H2. specialize (so_capacity0 H1 H2). rewrite Zlen_cons in so_capacity0. lia.
    + lia.
    + by rewrite so_order0, <- app_assoc.
    + rewrite busy_cons. simpl. rewrite Nat.add_succ_r. destruct so_execute_workers0 as [? Hw]. split; [done |].
      rewrite Hr in Hw. intros Hlt. destruct (Hw Hlt) as [Hc Hl]. rewrite Hcl. split; [done |]. intros x Hx. apply Hl. by right.
    + intros Hz. destruct (so_cache_off0 Hz) as [? Hno]. split; [done |]. intros x [? | Hx]%elem_of_cons; [done |].
      by apply (Hno x).
    + intros Hf. by destruct (so_finished0 Hf) as (_ & _ & ? & _).
Qed.

Lemma ok_close_tasks s : ok ct et cap [] s -> ok ct et cap [] (close_tasks s).
Proof.
  intros []. destruct (close_law _ (proj2 so_consistent0)) as (Hq & Ht & Hc & Hcap). unfold staffed in *.
  split; simpl; unfold places, staffed; simpl; rewrite ?Ht, ?Hc, ?Hcap; try done.
  - intros conn a Ha. destruct (so_answers0 conn a Ha) as (m & Hm & Hj). exists m. split; [done |].
    unfold justified in *. simpl. rewrite Hc, Hcap. by destruct a as [| | | ? [] | ? []].
  - by split; [apply so_consistent0 |].
  - split; [apply so_execute_workers0 |]. intros Hlt. split; [done |]. by apply so_execute_workers0.
  - split_and!; [done | apply so_closing0 | done].
Qed.

Lemma ok_close_cache_tasks s : ok ct et cap [] s -> is_closed (tasks s) = true -> ok ct et cap [] (close_cache_tasks s).
Proof.
  intros [] Hcl. destruct (close_law _ (proj1 so_consistent0)) as (Hq & Ht & Hc & Hcap). unfold staffed in *.
  split; simpl; unfold places, staffed; simpl; rewrite ?Ht, ?Hc, ?Hcap; try done.
  - by split; [| apply so_consistent0].
  - split; [apply so_cache_workers0 |]. intros Hlt. split; [done |]. by apply so_cache_workers0.
  - split_and!; [done | done | apply so_closing0].
  - intros Hf. destruct (so_finished0 Hf) as (? & ? & ? & _). by split_and!.
Qed.

Lemma ok_act a s s' :
  ok ct et cap [] s -> act print parse Compress Uncompress a s = Some s' -> ok ct et cap [] s'.
Proof.
  intros Hs. destruct a as [conn m | i w temp_dir | | | | |]; simpl.
  - destruct (finished s) eqn:Hf; [done |]. case_bool_decide as Hn; [| done]. case_bool_decide; [| done]. intros [= <-].
    by apply ok_arrive.
  - intros (h & Hi & Ha)%bind_Some. by eapply ok_advance; [apply take_hand |].
  - by apply ok_pop_cache.
  - by apply ok_pop_tasks.
  - destruct (is_closed (tasks s)); [done |]. intros [= <-]. by apply ok_close_tasks.
  - destruct (is_closed (tasks s)) eqn:Hc; [| done]. destruct (is_closed (cache_tasks s)); [done |]. intros [= <-].
    by apply ok_close_cache_tasks.
  - destruct (is_closed (cache_tasks s)) eqn:Hc; [| done]. destruct (finished s); [done |].
    repeat (case_bool_decide; [| done]). intros [= <-]. destruct Hs. by split.
Qed.

Lemma ok_reachable s0 s :
  ok ct et cap [] s0 -> reachable print parse Compress Uncompress s0 s -> ok ct et cap [] s.
Proof. induction 2; [done |]. by eapply ok_act. Qed.

(** ** The end *)

(** At the end every task that is left in a queue is late. *)
Lemma left_late s conn :
  ok ct et cap [] s -> et <> 0%nat -> finished s = true -> conn ∈ (arrived s).*1 ->
  conn ∈ (answers s).*1 \/ conn ∈ refused s \/ conn ∈ late s.
Proof.
  intros [] Het Hf Hin. destruct (so_finished0 Hf) as (Hh & Hci & Hei & _). simpl in Hh.
  rewrite <- so_places0 in Hin. unfold places in Hin. simpl in *. rewrite Hh, ?Hci, ?Hei in *. simpl in *.
  assert (forall n q, (n <> 0)%nat \/ tasks_in q = [] -> staffed n 0 q (late s) -> conn ∈ map client (tasks_in q) -> conn ∈ late s) as Hl.
  { intros n q [Hn | Hn] [_ Hw] Hc; [| by rewrite Hn in Hc; apply elem_of_nil in Hc].
    apply list_elem_of_fmap in Hc as (t & -> & Ht). by apply Hw; [lia |]. }
  apply elem_of_app in Hin as [Hin | Hin].
  { right. right. apply (Hl ct (cache_tasks s)); [| done | done].
    destruct (decide (ct = 0%nat)) as [Hz |]; [right; by apply so_cache_off0 | by left]. }
  apply elem_of_app in Hin as [Hin | Hin]; [right; right; apply (Hl et (tasks s)); [by left | done | done] |].
  apply elem_of_app in Hin as [Hin | Hin]; [by left | by right; left].
Qed.

(** Closed queues let no worker sleep: as long as nothing is in the hands of a thread,
    the absorber goes on to its end. *)
Lemma end_goes_on s :
  ok ct et cap [] s -> is_closed (cache_tasks s) = true -> hands s = [] -> finished s = false ->
  exists a s', act print parse Compress Uncompress a s = Some s' /\
    (finished s' = true \/ (cache_idle s' + execute_idle s' < cache_idle s + execute_idle s)%nat).
Proof.
  intros Hs Hc Hh Hf. pose proof (so_consistent _ _ _ _ _ Hs) as [Hq1 Hq2].
  pose proof (proj1 (so_closing _ _ _ _ _ Hs) Hc) as Ht.
  destruct (cache_idle s) as [|n] eqn:Hci; [destruct (execute_idle s) as [|n] eqn:Hei |].
  - exists Finish. simpl. rewrite Hc, Hf, Hh, Hci, Hei. eexists. split; [reflexivity | by left].
  - exists Pop_tasks. simpl. unfold pop_tasks. rewrite Hei.
    destruct (take_law _ Hq2) as (r & q & -> & _ & _ & _ & Hr). cbn [mbind option_bind]. eexists. split; [done |]. right.
    destruct r; simpl; rewrite ?Hci; first [lia | destruct Hr as [Hr _]; congruence].
  - exists Pop_cache. simpl. unfold pop_cache. rewrite Hci.
    destruct (take_law _ Hq1) as (r & q & -> & _ & _ & _ & Hr). cbn [mbind option_bind]. eexists. split; [done |]. right.
    destruct r; simpl; first [lia | destruct Hr as [Hr _]; congruence].
Qed.

End Threads.

Lemma initial_ok d cache_threads execute_threads (cq q : Q) s0 :
  consistent cq -> consistent q -> capacity_of cq = UNLIMITED -> tasks_in cq = [] -> tasks_in q = [] ->
  is_closed cq = false -> is_closed q = false ->
  initial d cache_threads execute_threads cq q = Some s0 ->
  execute_threads <> 0%nat /\
  ok (if has_cache_conf (conf d) then cache_threads else 0%nat) execute_threads (capacity_of q) [] s0.
Proof.
  intros C1 C2 Hu E1 E2 O1 O2. unfold initial. destruct (_ || _) eqn:Hb; [done |]. intros [= <-].
  apply orb_false_iff in Hb as [Hb1 Hb2%Nat.eqb_neq]. split; [done |].
  split; simpl; unfold staffed, places, busy; simpl; rewrite ?E1, ?E2, ?O1, ?O2; simpl; try done; try lia.
  - constructor.
  - by intros conn a ?%elem_of_nil.
  - destruct (has_cache_conf _); [by rewrite andb_true_l in Hb1; rewrite Hb1 | done].
  - intros _. split; [done |]. by intros t ?%elem_of_nil.
Qed.
End Invariant.

(** ** The hash of an answer *)

Section Serving.
Context (print : Manifest -> list Z) (parse : list Z -> option Manifest).
Context (Compress Uncompress : list Z -> option (list Z)).

(** The mark of a result compares the hash that came with the request with the one
    of the request. *)
Definition hash_mark (m : Remote) (res : Result) : Prop :=
  exists hash, GenerateHash (AdjustFlags (remote_flags m)) (of_String (str (Messages.source m))) (GetExtraFiles m) = Some hash /\
    hash_match res = hash_match_of m hash.

Lemma for_request_hash conn m t hash :
  for_request conn m t -> request_hash t = Some hash ->
  GenerateHash (AdjustFlags (remote_flags m)) (of_String (str (Messages.source m))) (GetExtraFiles m) = Some hash.
Proof.
  intros [-> | (h & Hh & ->)]; unfold request_hash; simpl; [done |]. rewrite AdjustFlags_idem.
  unfold GetExtraFiles, with_request_flags in *. simpl in *. case_decide; congruence.
Qed.

Lemma for_request_match conn m t hash : for_request conn m t -> hash_match_of (request_ t) hash = hash_match_of m hash.
Proof. by intros [-> | (h & Hh & ->)]. Qed.

Lemma outcome_hash conn m r res :
  outcome_for print parse Compress Uncompress conn m (Sent r) -> reply_result r = Some res -> hash_mark m res.
Proof.
  intros (t & w & d & d' & Ht & [Hc | (temp_dir & Hc)]) Hres.
  - unfold check_request in Hc. destruct (closed w); [done |]. apply bind_Some in Hc as (hash & Hh & Hc).
    apply bind_Some in Hc as ([[[|] e] d1] & _ & Hc); [injection Hc as <- _ | done].
    injection Hres as <-. exists hash. destruct Ht as [-> | (h & Hh' & ->)]; (split; [| done]); [exact Hh |].
    simpl in Hh. rewrite AdjustFlags_idem in Hh. exact Hh.
  - destruct (request_hash t) as [hash|] eqn:Hh.
    + pose proof (execute_result _ _ _ _ _ _ _ _ _ Hh Hc res Hres) as Hm. exists hash.
      split; [by eapply for_request_hash |]. by rewrite Hm, (for_request_match conn m t).
    + unfold execute_request in Hc. destruct (closed w); [done |]. unfold request_hash in Hh. by rewrite Hh in Hc.
Qed.

(** ** Property *)

Abbreviation locked_system := (system (Queue AbsorberTask)) (only parsing).

(** C16: what an absorber does with its requests.  In every interleaving of its
    workers, the event loop's threads and its destructor on their [LockedQueue]s,
    whatever the compilers and the cache do: each request that has arrived is in
    exactly one place, a queue, a thread, the answers or those that the closed queue
    refused; an answer is what a worker made of that very request, and its mark
    compares the emitter's hash with the one of the request itself, or an overload that
    was reported because the queue was full or closed; the queue keeps its
    capacity, there are never more compilations than workers, they begin in
    the order in which the requests entered the queue, and there are at most two
    handlings for each request.  Once the queues are closed and no request is in
    the hands of a thread, no worker sleeps: one ends or takes a task, or the
    destructor ends.  At the end every request is answered but those that were refused,
    and those whose push found the queue open and took its lock after it was closed. *)
Theorem absorber_serves (d : Daemon) (cache_threads execute_threads : nat) (s0 s : locked_system) :
  initial d cache_threads execute_threads (new_queue UNLIMITED) (new_queue (pool_capacity (conf d))) = Some s0 ->
  reachable print parse Compress Uncompress s0 s ->
  NoDup (arrived s).*1 /\
  map client (tasks_in (cache_tasks s)) ++ map client (tasks_in (tasks s)) ++ held (hands s) ++ (answers s).*1 ++ refused s
    ≡ₚ (arrived s).*1 /\
  (forall conn a, (conn, a) ∈ answers s ->
     exists m, (conn, m) ∈ arrived s /\ justified print parse Compress Uncompress s conn m a /\
       forall r res, a = Replied r -> reply_result r = Some res -> hash_mark m res) /\
  (pool_capacity (conf d) <> UNLIMITED -> 0 <= pool_capacity (conf d) -> Zlen (tasks_in (tasks s)) <= pool_capacity (conf d)) /\
  (busy Execute_worker (hands s) <= execute_threads)%nat /\
  entered s = executed s ++ map client (tasks_in (tasks s)) /\
  (handled s <= 2 * length (arrived s))%nat /\
  (is_closed (tasks s) = false -> refused s = [] /\ late s = []) /\
  (is_closed (cache_tasks s) = true -> hands s = [] -> finished s = false ->
     exists a s', act print parse Compress Uncompress a s = Some s' /\
       (finished s' = true \/ (cache_idle s' + execute_idle s' < cache_idle s + execute_idle s)%nat)) /\
  (finished s = true -> forall conn, conn ∈ (arrived s).*1 ->
     conn ∈ (answers s).*1 \/ conn ∈ refused s \/ conn ∈ late s).
Proof.
  intros Hi Hr. destruct (initial_ok print parse Compress Uncompress d cache_threads execute_threads (new_queue UNLIMITED) (new_queue (pool_capacity (conf d))) s0)
    as [Het H0]; try done; [apply new_queue_unsharded .. |].
  pose proof (ok_reachable print parse Compress Uncompress _ _ _ _ _ H0 Hr) as Hs. pose proof Hs as []. simpl in *. split_and!.
  - done.
  - exact so_places0.
  - intros conn a Ha. destruct (so_answers0 conn a Ha) as (m & Hm & Hj). exists m. split; [exact Hm |].
    split; [exact Hj |]. intros r res -> Hres. by eapply outcome_hash.
  - rewrite <- so_bound0. exact so_capacity0.
  - destruct so_execute_workers0. lia.
  - done.
  - lia.
  - intros Hc. split; [| by apply so_closing0]. apply so_closing0.
    destruct (closed_ (cache_tasks s)) eqn:E; [| done]. by rewrite (proj1 so_closing0 eq_refl) in Hc.
  - exact (end_goes_on _ _ _ _ _ _ _ s Hs).
  - intros Hf conn. exact (left_late _ _ _ _ _ _ _ s conn Hs Het Hf).
Qed.

End Serving.

(** ** A concrete run: a request that is looked up, compiled and answered *)

Definition one_start : system (Queue AbsorberTask) :=
  {| daemon := absorber_daemon; cache_tasks := new_queue UNLIMITED; tasks := new_queue 16; cache_idle := 1;
     execute_idle := 1; hands := []; finished := false; arrived := []; answers := []; refused := []; late := [];
     entered := []; executed := []; handled := 0 |}.

Definition go : action := Advance 0 working (lit "/tmp/x").

(** The message handler and the workers' loops, then the destructor. *)
Definition serve_one : list action :=
  [Arrive 0 (outgoing sent_task); go; go; go; Pop_cache; go; go; go; go; Pop_tasks; go].
Definition end_absorber : list action := [Close_tasks; Close_cache_tasks; Pop_tasks; Pop_cache; Finish].

Definition one_end : system (Queue AbsorberTask) :=
  default one_start (run_actions toy_print toy_parse toy_Compress toy_Uncompress (serve_one ++ end_absorber) one_start).

Lemma one_end_run :
  run_actions toy_print toy_parse toy_Compress toy_Uncompress (serve_one ++ end_absorber) one_start = Some one_end.
Proof.
  assert (forall x : option (system (Queue AbsorberTask)), has x = true -> x = Some (default one_start x)) as Hx
    by by intros [|].
  apply Hx. vm_compute. reflexivity.
Qed.

Definition final_reply : Reply :=
  match answers one_end with [(_, Replied r)] => r | _ => {| reply_status := None; reply_result := None |} end.

Lemma one_end_facts :
  answers one_end = [(0%nat, Replied final_reply)] /\ has (reply_result final_reply) = true /\
  arrived one_end = [(0%nat, outgoing sent_task)] /\ finished one_end = true /\ late one_end = [].
Proof. repeat apply conj; vm_compute; reflexivity. Qed.

Lemma absorber_serves_witness :
  initial absorber_daemon 1 1 (new_queue UNLIMITED) (new_queue 16) = Some one_start /\
  (exists res, reply_result final_reply = Some res /\ hash_mark (outgoing sent_task) res) /\ finished one_end = true.
Proof.
  destruct one_end_facts as (Fa & Fr & Fm & Ff & _).
  assert (initial absorber_daemon 1 1 (new_queue UNLIMITED) (new_queue 16) = Some one_start) as Hi by reflexivity.
  split; [exact Hi |]. split; [| exact Ff].
  destruct (absorber_serves toy_print toy_parse toy_Compress toy_Uncompress absorber_daemon 1 1 one_start one_end Hi) as (_ & _ & Ha & _).
  { eapply run_reachable; [apply reach_start | exact one_end_run]. }
  rewrite Fa, Fm in Ha. destruct (reply_result final_reply) as [res|] eqn:Er; [| discriminate Fr].
  exists res. split; [reflexivity |]. destruct (Ha 0%nat (Replied final_reply)) as (m & Hm & _ & Hh); [left |].
  apply list_elem_of_singleton in Hm. injection Hm as ->. by eapply Hh.
Defined.

(** A request whose push is overtaken by the end: its task is still in the queue when
    the queue is destroyed, and nothing is reported to the emitter. *)
Definition overtaken : list action := [Arrive 0 (outgoing sent_task); go] ++ [Close_tasks; Close_cache_tasks; Pop_tasks; Pop_cache; go; go; Finish].

Example late_push :
  (fun s => (answers s, late s, map client (tasks_in (cache_tasks s)), finished s))
    <$> run_actions toy_print toy_parse toy_Compress toy_Uncompress overtaken one_start
  = Some ([], [0%nat], [0%nat], true).
Proof. vm_compute. reflexivity. Qed.
